(* ===== verification/_CoqProject ===== *)
-Q . S2P
Prelude.v
BTree.v
Range.v
AreaSet.v
AreaRep.v
AreaSpec.v
AreaOps.v
AreaDen.v
AreaThm.v
AreaProps.v
Locks.v
LocksThm.v
LocksProps.v
Gaps.v
IdAlloc.v
FdTable.v
FdProps.v
Path.v
PathThm.v
CleanThm.v
PathProps.v
RelProps.v
Mem.v
RingBuf.v
RingThm.v
RingProps.v
RingSpsc.v
UserMsg.v
UserMsgProps.v
RingIovs.v
Auth.v
TaskIdentity.v
IdentityThm.v
IdentityProps.v
UserNsProps.v
Perms.v
Semaphore.v
SemProps.v
SemRegProps.v
WaitList.v
WaitListThm.v
WaitListOps.v
WaitQueue.v
Ipc.v
IpcThm.v
MsgQueue.v
MsgSys.v
MsgThm.v
MsgInv.v
MsgOps.v
MsgSteps.v
MsgWake.v
MsgProps.v
MsgCalls.v
MsgTransfer.v
MsgRun.v
Futex.v
FutexThm.v
FutexOps.v
FutexPairs.v
FutexMem.v
FutexPi.v
FutexSteps.v
FutexSys.v
FutexRun.v
WaitProps.v
FutexProps.v
FutexExit.v
FutexCalls.v
FutexFaults.v
