(* ===== verification/Prelude.v ===== *)
(** * A verification of parts of Quark

    Quark runs containers in a virtual machine: a guest kernel (src/qkernel, with most of
    its code in the library src/qlib) implements the Linux system calls, and a monitor
    (src/qvisor) runs it on the host.  This development models components of src/qlib as
    executable definitions and proves what they compute.

    ** Conventions

    A computation is an [outcome]: it returns, panics, or runs out of loop fuel.  Theorems
    are total: [returns m Q] says that [m] returns a value with [Q], so that the code
    neither panics nor loops.  A [Result] of the source is [Error + A].  A [u64] or [usize]
    is a [Z] with the wrap-around of the release build written out ([+w], [-w]); [u32] and
    [i32] likewise where the code has them.  Shared mutable objects ([Arc<QMutex<..>>]) are
    cells of a store that is passed around, so aliasing is part of the model.  Locks are
    not, with the exception of the spin locks of the futex buckets: an operation that holds
    a lock runs alone.  Where threads interleave between such operations, a step relation
    has one step per critical section.  Definitions keep the names of the source.

    ** Components

    - Ranges and addresses (qlib/addr.rs, qlib/range.rs): [Range.v].
    - Ordered maps: [BTree.v] models what the code uses of [BTreeMap].
    - Area sets (qlib/mem/areaset.rs): the model is [AreaSet.v], entries in a store linked
      in both directions and indexed by an ordered map.  [AreaRep.v] is the representation
      invariant, [AreaSpec.v] and [AreaOps.v] what the operations do to the list of
      segments, [AreaDen.v] the meaning of a set as a map from addresses and the contract
      [AreaLaws] of the trait [AreaValue], [AreaThm.v] and [AreaProps.v] the theorems,
      proved against that contract.
    - Record locks (qlib/kernel/fs/lock.rs), the client of area sets: [Locks.v] is the
      model, with an instance of [AreaLaws]; [LocksThm.v] and [LocksProps.v] the theorems.
    - Free identifiers: [Gaps.v] is the interval map shared by the identifier allocator
      (qlib/idallocator.rs, [IdAlloc.v]) and the file descriptor table
      (qlib/kernel/kernel/fd_table.rs, [FdTable.v] and [FdProps.v]).
    - Paths (qlib/path.rs): [Path.v] is the model over byte strings, with the panics of
      slicing inside a character; [PathThm.v] and [CleanThm.v] relate it to lists of
      components; [PathProps.v] and [RelProps.v] have the theorems.
    - The byte stream of sockets (qlib/bytestream.rs): [Mem.v] is byte memory,
      [RingBuf.v] the model, [RingThm.v], [RingProps.v] and [RingIovs.v] the sequential
      theorems, [RingSpsc.v] one reader and one writer interleaved.  [UserMsg.v] and
      [UserMsgProps.v] are the messages that are written through it
      (qlib/kernel/socket/resilience/user_msg.rs).
    - Identity (qlib/auth and qlib/kernel/threadmgr/task_identity.rs): [Auth.v] has
      identifiers, capability sets, user namespaces and credentials, [TaskIdentity.v] the
      operations of a thread, [IdentityThm.v], [IdentityProps.v] and [UserNsProps.v] the
      theorems.
    - Semaphores (qlib/kernel/kernel/semaphore.rs), which check permissions with
      credentials: [Perms.v] has permission masks, [Semaphore.v] the model, [SemProps.v] and
      [SemRegProps.v] the theorems.
    - Waiting (qlib/kernel/kernel/waiter): [WaitList.v] has waiters, wait entries, the
      linked wait list and the queue, over a store of entries; [WaitListThm.v] relates the
      links to lists of entries, [WaitListOps.v] says what waking and requeueing do and
      [WaitQueue.v] what registering with a queue and notifying it do.
    - Message queues (qlib/kernel/kernel/msgqueue.rs), clients of wait queues and of the
      registry of IPC objects (qlib/kernel/kernel/ipc_namespace.rs): [Ipc.v] and [IpcThm.v]
      are the registry, for any object of the class [Object]; [MsgQueue.v] is the model of
      the queues and [MsgSys.v] that of the system calls
      (qkernel/src/syscalls/sys_msgqueue.rs), with user memory as the class [MsgMem].
      [MsgThm.v] says what sending and receiving do to the list of messages, [MsgInv.v] and
      [MsgOps.v] have the invariant; [MsgSteps.v] interleaves threads and [MsgWake.v] shows
      its invariant; [MsgRun.v] shows that the blocking calls are runs of these steps.
      [MsgProps.v], [MsgCalls.v] and [MsgTransfer.v] have the theorems.
    - Futexes (qlib/kernel/kernel/futex.rs), the client of wait lists: [Futex.v] is the
      model; user memory is the class [Target], with the laws [TargetLaws] of [FutexMem.v]
      (other threads write between any two accesses).  [FutexThm.v], [FutexOps.v],
      [FutexPairs.v] and [FutexPi.v] show what each call does to the queues;
      [FutexSteps.v] interleaves threads and has the invariant.
    - The futex system call (qkernel/src/syscalls/sys_futex.rs), blocking
      (qlib/kernel/threadmgr/task_block.rs) and robust lists (task_futex.rs): [FutexSys.v]
      is the model.  [FutexRun.v] and [FutexCalls.v] show that a system call is a run of the
      steps of [FutexSteps.v], [FutexExit.v] has the walk of an exiting thread,
      [WaitProps.v] and [FutexProps.v] have the theorems, [FutexFaults.v] the situations in
      which the code goes wrong.

    ** What the theorems show

    - Area sets: adding, removing, isolating, merging and splitting change the meaning of
      exactly the addresses they should, whichever neighbours merge; the exceptions the
      code has are part of the statements.
    - Record locks: mutual exclusion of readers and writers in every reachable state, and
      the effect of lock, unlock and test on every byte of the file.
    - Identifiers and descriptors: the lowest (or next) free number is handed out, the free
      intervals are the complement of the numbers in use, freeing undoes allocating.
    - Paths: [Clean] is the component-wise normal form, [SplitFirst] makes progress,
      [SplitLast] loses nothing, the result of [Rel] exactly.
    - Byte stream: it refines a bounded queue, for counters that wrap, and under every
      interleaving of one reader and one writer the bytes arrive in order; responses
      survive serialisation.
    - Identity: no sequence of calls raises capabilities or gives an unprivileged thread an
      identifier it did not have; [HasCapabilityIn] decides the rules of
      user_namespaces(7); identifier maps are inverse to each other.
    - Semaphores: a semop does all its operations or none; values stay in range unless an
      operation is -32768, whose negation wraps; no call panics but a SETVAL for the number
      just past the last semaphore; creating a set ends with an unused identifier.
    - Message queues: a queue refines an abstract list of typed messages; however calls
      interleave, a receiver sleeps without an event only while its queue is alive and has no
      message it wants, and a sender only while its message does not fit within the limit that
      its last try met (raising the limit wakes no one); registry, byte counts and wait lists
      stay consistent and every operation returns; a message arrives as it was sent; the loops
      of send and receive go around only while they have to.
    - Waiting: the linked list behaves as a list of entries, and no thread sleeps while an
      event it waits for is there.
    - Futexes: what wake, requeue, the operation on the word, lock and unlock do, exactly.
      In every interleaving of the steps of [fstep] each blocked thread is in the queue of its
      key or has been given its event, the store stays well typed, every call returns or
      panics because its two keys are equal, and a system call ends with the caller in no
      queue.  These runs leave out five things a program can do with which the code breaks its
      queues: a [FUTEX_WAKE_BITSET] that passes over a waiter, a [FUTEX_TRYLOCK_PI] that fails
      while others wait for the lock, the private address 0, a deadline that is not a time,
      and two keys with equal hashes in different buckets, of which the code locks one.
      [FutexFaults.v] shows what happens then.  The walk over a robust list ends whatever the
      list is.

    Several theorems state what the code does where that is not what its comments say; the
    theorem's comment then says so.

    ** Fuel and bounds

    Loops that are not structural have fuel, and each theorem shows that the fuel given by
    the definition is enough: walks over an area set take one unit per entry and three more,
    loops over a path one per byte, walks to the root of the user namespaces the number of
    the namespace (a parent is created before its child and has a smaller number), the
    search for a semaphore identifier two more than the number of sets, that for another
    IPC identifier two more than the number of objects, walks over a wait list one more than
    the number of entries.  A thread that waits for a message may be woken any number of
    times before it gets one, so the fuel of [Send] and [Receive] is an argument, and the
    theorem says what has happened when it is used up.  A loop that retries a
    compare-and-swap needs more turns than other threads have writes left ([pending]); a
    robust list has at most 2048 entries.  The byte stream has at most 2^31 bytes, so that [u32] counters tell full
    from empty, as the code needs.  In the interleaved message queues [IPC_SET] sets any limit up to
    [LIMIT_MAX], 2^64 - 1 - 8192, so that the bytes of a queue and of one more message do not
    exceed 64 bits.

    ** Not modelled

    Timers and clocks (how long a thread blocks is a parameter), the scheduler that runs a
    woken task, entries of epoll and asynchronous I/O in wait lists, the queue on which
    record locks block, shared memory segments, the memory allocators, memory management and
    page tables, files and sockets beyond the parts above, the decoding of the system calls
    other than futex and message queues, and everything that is host I/O (qvisor, the
    services, RDMA and GPU code).  Memory order of atomics is sequential consistency. *)
From Stdlib Require Export ZArith Lia.
From stdpp Require Export base tactics list option numbers sorting sets gmap.

#[global] Set Default Goal Selector "!".

(** * Machine integers

    The release profiles of qkernel and qvisor set [overflow-checks = false], so
    [+], [-] and [*] on [u64] wrap.  A [u64] is a [Z] in [0, 2^64). *)

Declare Scope u64_scope.
Delimit Scope u64_scope with u64.

Definition B64 : Z := 18446744073709551616.
Definition U64_MAX : Z := 18446744073709551615.
Definition in64 (z : Z) : Prop := (0 <= z < B64)%Z.
Definition wrap64 (z : Z) : Z := (z mod B64)%Z.
Definition add64 (a b : Z) : Z := wrap64 (a + b).
Definition sub64 (a b : Z) : Z := wrap64 (a - b).
Definition mul64 (a b : Z) : Z := wrap64 (a * b).

(** A value cast to [i32]. *)
Definition to_i32 (z : Z) : Z := ((z + 2147483648) mod 4294967296 - 2147483648)%Z.

Infix "+w" := add64 (at level 50, left associativity) : u64_scope.
Infix "-w" := sub64 (at level 50, left associativity) : u64_scope.

#[local] Open Scope Z_scope.
#[local] Open Scope u64_scope.

Lemma B64_pow : B64 = 2 ^ 64.
Proof. reflexivity. Qed.

Lemma wrap64_small z : in64 z -> wrap64 z = z.
Proof. intros H. apply Z.mod_small, H. Qed.

Lemma wrap64_in64 z : in64 (wrap64 z).
Proof. apply Z.mod_pos_bound. reflexivity. Qed.

Lemma add64_small a b : in64 (a + b) -> a +w b = a + b.
Proof. apply wrap64_small. Qed.

Lemma sub64_small a b : in64 (a - b) -> a -w b = a - b.
Proof. apply wrap64_small. Qed.

Lemma add64_in64 a b : in64 (a +w b).
Proof. apply wrap64_in64. Qed.

Lemma sub64_in64 a b : in64 (a -w b).
Proof. apply wrap64_in64. Qed.

#[global] Instance in64_dec z : Decision (in64 z).
Proof. unfold in64. apply _. Defined.

(** [lia] after unfolding the width bounds; [wsimp] removes the wrap-around of
    every operation whose exact result is in range. *)
Ltac u64 := unfold in64, U64_MAX, B64 in *; lia.

Ltac wsimp :=
  repeat match goal with
  | |- context [?a +w ?b] => rewrite (add64_small a b) by u64
  | |- context [?a -w ?b] => rewrite (sub64_small a b) by u64
  | H : context [?a +w ?b] |- _ => rewrite (add64_small a b) in H by u64
  | H : context [?a -w ?b] |- _ => rewrite (sub64_small a b) in H by u64
  end.

(** * Comparisons *)

Lemma bool_decide_ltb a b : bool_decide (a < b) = (a <? b).
Proof. apply eq_true_iff_eq. rewrite bool_decide_eq_true, Z.ltb_lt. done. Qed.

(** Case analysis on every boolean integer comparison of the goal or of a
    hypothesis, leaving the [Prop]-level facts. *)
Ltac zcase_at t :=
  match t with
  | (?a <? ?b)%Z => destruct (Z.ltb_spec a b)
  | (?a <=? ?b)%Z => destruct (Z.leb_spec a b)
  | (?a =? ?b)%Z => destruct (Z.eqb_spec a b)
  end.

Ltac zcase :=
  match goal with
  | |- context [(?a <? ?b)%Z] => destruct (Z.ltb_spec a b)
  | |- context [(?a <=? ?b)%Z] => destruct (Z.leb_spec a b)
  | |- context [(?a =? ?b)%Z] => destruct (Z.eqb_spec a b)
  | H : context [(?a <? ?b)%Z] |- _ => destruct (Z.ltb_spec a b)
  | H : context [(?a <=? ?b)%Z] |- _ => destruct (Z.leb_spec a b)
  | H : context [(?a =? ?b)%Z] |- _ => destruct (Z.eqb_spec a b)
  end.

(** * Results: a computation returns, panics, or runs out of loop fuel *)

Inductive outcome (A : Type) : Type :=
| Ret (a : A)
| Panic
| OutOfFuel.
Arguments Ret {A} a.
Arguments Panic {A}.
Arguments OutOfFuel {A}.

#[global] Instance outcome_ret : MRet outcome := fun A => Ret.
#[global] Instance outcome_bind : MBind outcome := fun A B f m =>
  match m with Ret a => f a | Panic => Panic | OutOfFuel => OutOfFuel end.

(** [returns m Q]: [m] returns a value that satisfies [Q] (total correctness:
    it neither panics nor runs out of fuel). *)
Definition returns {A} (m : outcome A) (Q : A -> Prop) : Prop :=
  exists a, m = Ret a /\ Q a.

Lemma returns_ret {A} (a : A) (Q : A -> Prop) : Q a -> returns (Ret a) Q.
Proof. intros HQ. exists a. done. Qed.

Lemma returns_some {A} (m : outcome A) P : returns m P -> exists x, m = Ret x.
Proof. intros (x & ? & _). eauto. Qed.

Lemma bind_ret {A B} (a : A) (f : A -> outcome B) : (Ret a ≫= f) = f a.
Proof. done. Qed.

Lemma returns_bind {A B} (m : outcome A) (f : A -> outcome B) (P : A -> Prop) (Q : B -> Prop) :
  returns m P -> (forall a, P a -> returns (f a) Q) -> returns (m ≫= f) Q.
Proof. intros (a & -> & HP) Hf. exact (Hf a HP). Qed.

Lemma returns_mono {A} (m : outcome A) (P Q : A -> Prop) :
  returns m P -> (forall a, P a -> Q a) -> returns m Q.
Proof. intros (a & -> & HP) HQ. exists a. auto. Qed.

Lemma returns_inv {A} (m : outcome A) (Q : A -> Prop) a : returns m Q -> m = Ret a -> Q a.
Proof. intros (b & -> & HQ) [= ->]. done. Qed.

Section Filter.
Context {A : Type} (P : A -> Prop) `{!forall x, Decision (P x)}.

Lemma filter_none (l : list A) : Forall (fun x => ~ P x) l -> filter P l = [].
Proof. induction 1; [done |]. by rewrite filter_cons_False. Qed.

Lemma filter_all (l : list A) : Forall P l -> filter P l = l.
Proof. induction 1 as [| x l Hx _ IH]; [done |]. by rewrite filter_cons_True, IH. Qed.

Lemma NoDup_fmap_filter {B} (f : A -> B) (l : list A) : NoDup (f <$> l) -> NoDup (f <$> filter P l).
Proof.
  induction l as [| x l IH]; [done |]. rewrite filter_cons. rewrite fmap_cons, NoDup_cons.
  intros [Hni Hnd]. destruct (decide (P x)); [| by apply IH].
  rewrite fmap_cons, NoDup_cons. split; [| by apply IH]. intros (y & E & [_ Hy]%list_elem_of_filter)%list_elem_of_fmap.
  apply Hni. rewrite E. by apply list_elem_of_fmap_2.
Qed.
End Filter.

(** [SysErr] of [qlib/linux_def.rs]: the error numbers, as an enumeration with their values.
    A name whose number another name already has is an abbreviation of that one. *)
Inductive SysErr : Set :=
| SysErr_NONE | E2BIG | EACCES | EADDRINUSE | EADDRNOTAVAIL | EADV | EAFNOSUPPORT | EAGAIN
| EALREADY | EBADE | EBADF | EBADFD | EBADMSG | EBADR | EBADRQC | EBADSLT | EBFONT | EBUSY
| ECANCELED | ECHILD | ECHRNG | ECOMM | ECONNABORTED | ECONNREFUSED | ECONNRESET | EDEADLK
| EDESTADDRREQ | EDOM | EDOTDOT | EDQUOT | EEXIST | EFAULT | EFBIG | EHOSTDOWN | EHOSTUNREACH
| EIDRM | EILSEQ | EINPROGRESS | EINTR | EINVAL | EIO | EISCONN | EISDIR | EISNAM | EKEYEXPIRED
| EKEYREJECTED | EKEYREVOKED | EL2HLT | EL2NSYNC | EL3HLT | EL3RST | ELIBACC | ELIBBAD | ELIBEXEC
| ELIBMAX | ELIBSCN | ELNRNG | ELOOP | EMEDIUMTYPE | EMFILE | EMLINK | EMSGSIZE | EMULTIHOP
| ENAMETOOLONG | ENAVAIL | ENETDOWN | ENETRESET | ENETUNREACH | ENFILE | ENOANO | ENOBUFS
| ENOCSI | ENODATA | ENODEV | ENOENT | ENOEXEC | ENOKEY | ENOLCK | ENOLINK | ENOMEDIUM | ENOMEM
| ENOMSG | ENONET | ENOPKG | ENOPROTOOPT | ENOSPC | ENOSR | ENOSTR | ENOSYS | ENOTBLK | ENOTCONN
| ENOTDIR | ENOTEMPTY | ENOTNAM | ENOTRECOVERABLE | ENOTSOCK | ENOTSUP | ENOTTY | ENOTUNIQ
| ENXIO | EOVERFLOW | EOWNERDEAD | EPERM | EPFNOSUPPORT | EPIPE | EPROTO | EPROTONOSUPPORT
| EPROTOTYPE | ERANGE | EREMCHG | EREMOTE | EREMOTEIO | ERESTART | ERFKILL | EROFS | ESHUTDOWN
| ESOCKTNOSUPPORT | ESPIPE | ESRCH | ESRMNT | ESTALE | ESTRPIPE | ETIME | ETIMEDOUT
| ETOOMANYREFS | ETXTBSY | EUCLEAN | EUNATCH | EUSERS | EXDEV | EXFULL | ERESTARTSYS
| ERESTARTNOINTR | ERESTARTNOHAND | ERESTART_RESTARTBLOCK.

Abbreviation EDEADLOCK := EDEADLK (only parsing).
Abbreviation ENOATTR := ENODATA (only parsing).
Abbreviation EOPNOTSUPP := ENOTSUP (only parsing).
Abbreviation EWOULDBLOCK := EAGAIN (only parsing).

Definition SysErr_val (e : SysErr) : Z :=
  match e with
  | SysErr_NONE => 0 | E2BIG => 7 | EACCES => 13 | EADDRINUSE => 98 | EADDRNOTAVAIL => 99
  | EADV => 68 | EAFNOSUPPORT => 97 | EAGAIN => 11 | EALREADY => 114 | EBADE => 52 | EBADF => 9
  | EBADFD => 77 | EBADMSG => 74 | EBADR => 53 | EBADRQC => 56 | EBADSLT => 57 | EBFONT => 59
  | EBUSY => 16 | ECANCELED => 125 | ECHILD => 10 | ECHRNG => 44 | ECOMM => 70
  | ECONNABORTED => 103 | ECONNREFUSED => 111 | ECONNRESET => 104 | EDEADLK => 35
  | EDESTADDRREQ => 89 | EDOM => 33 | EDOTDOT => 73 | EDQUOT => 122 | EEXIST => 17 | EFAULT => 14
  | EFBIG => 27 | EHOSTDOWN => 112 | EHOSTUNREACH => 113 | EIDRM => 43 | EILSEQ => 84
  | EINPROGRESS => 115 | EINTR => 4 | EINVAL => 22 | EIO => 5 | EISCONN => 106 | EISDIR => 21
  | EISNAM => 120 | EKEYEXPIRED => 127 | EKEYREJECTED => 129 | EKEYREVOKED => 128 | EL2HLT => 51
  | EL2NSYNC => 45 | EL3HLT => 46 | EL3RST => 47 | ELIBACC => 79 | ELIBBAD => 80 | ELIBEXEC => 83
  | ELIBMAX => 82 | ELIBSCN => 81 | ELNRNG => 48 | ELOOP => 40 | EMEDIUMTYPE => 124
  | EMFILE => 24 | EMLINK => 31 | EMSGSIZE => 90 | EMULTIHOP => 72 | ENAMETOOLONG => 36
  | ENAVAIL => 119 | ENETDOWN => 100 | ENETRESET => 102 | ENETUNREACH => 101 | ENFILE => 23
  | ENOANO => 55 | ENOBUFS => 105 | ENOCSI => 50 | ENODATA => 61 | ENODEV => 19 | ENOENT => 2
  | ENOEXEC => 8 | ENOKEY => 126 | ENOLCK => 37 | ENOLINK => 67 | ENOMEDIUM => 123 | ENOMEM => 12
  | ENOMSG => 42 | ENONET => 64 | ENOPKG => 65 | ENOPROTOOPT => 92 | ENOSPC => 28 | ENOSR => 63
  | ENOSTR => 60 | ENOSYS => 38 | ENOTBLK => 15 | ENOTCONN => 107 | ENOTDIR => 20
  | ENOTEMPTY => 39 | ENOTNAM => 118 | ENOTRECOVERABLE => 131 | ENOTSOCK => 88 | ENOTSUP => 95
  | ENOTTY => 25 | ENOTUNIQ => 76 | ENXIO => 6 | EOVERFLOW => 75 | EOWNERDEAD => 130 | EPERM => 1
  | EPFNOSUPPORT => 96 | EPIPE => 32 | EPROTO => 71 | EPROTONOSUPPORT => 93 | EPROTOTYPE => 91
  | ERANGE => 34 | EREMCHG => 78 | EREMOTE => 66 | EREMOTEIO => 121 | ERESTART => 85
  | ERFKILL => 132 | EROFS => 30 | ESHUTDOWN => 108 | ESOCKTNOSUPPORT => 94 | ESPIPE => 29
  | ESRCH => 3 | ESRMNT => 69 | ESTALE => 116 | ESTRPIPE => 86 | ETIME => 62 | ETIMEDOUT => 110
  | ETOOMANYREFS => 109 | ETXTBSY => 26 | EUCLEAN => 117 | EUNATCH => 49 | EUSERS => 87
  | EXDEV => 18 | EXFULL => 54 | ERESTARTSYS => 512 | ERESTARTNOINTR => 513
  | ERESTARTNOHAND => 514 | ERESTART_RESTARTBLOCK => 515
  end.

Definition SysErr_all : list SysErr :=
  [SysErr_NONE; E2BIG; EACCES; EADDRINUSE; EADDRNOTAVAIL; EADV; EAFNOSUPPORT; EAGAIN; EALREADY;
   EBADE; EBADF; EBADFD; EBADMSG; EBADR; EBADRQC; EBADSLT; EBFONT; EBUSY; ECANCELED; ECHILD;
   ECHRNG; ECOMM; ECONNABORTED; ECONNREFUSED; ECONNRESET; EDEADLK; EDESTADDRREQ; EDOM; EDOTDOT;
   EDQUOT; EEXIST; EFAULT; EFBIG; EHOSTDOWN; EHOSTUNREACH; EIDRM; EILSEQ; EINPROGRESS; EINTR;
   EINVAL; EIO; EISCONN; EISDIR; EISNAM; EKEYEXPIRED; EKEYREJECTED; EKEYREVOKED; EL2HLT;
   EL2NSYNC; EL3HLT; EL3RST; ELIBACC; ELIBBAD; ELIBEXEC; ELIBMAX; ELIBSCN; ELNRNG; ELOOP;
   EMEDIUMTYPE; EMFILE; EMLINK; EMSGSIZE; EMULTIHOP; ENAMETOOLONG; ENAVAIL; ENETDOWN; ENETRESET;
   ENETUNREACH; ENFILE; ENOANO; ENOBUFS; ENOCSI; ENODATA; ENODEV; ENOENT; ENOEXEC; ENOKEY;
   ENOLCK; ENOLINK; ENOMEDIUM; ENOMEM; ENOMSG; ENONET; ENOPKG; ENOPROTOOPT; ENOSPC; ENOSR;
   ENOSTR; ENOSYS; ENOTBLK; ENOTCONN; ENOTDIR; ENOTEMPTY; ENOTNAM; ENOTRECOVERABLE; ENOTSOCK;
   ENOTSUP; ENOTTY; ENOTUNIQ; ENXIO; EOVERFLOW; EOWNERDEAD; EPERM; EPFNOSUPPORT; EPIPE; EPROTO;
   EPROTONOSUPPORT; EPROTOTYPE; ERANGE; EREMCHG; EREMOTE; EREMOTEIO; ERESTART; ERFKILL; EROFS;
   ESHUTDOWN; ESOCKTNOSUPPORT; ESPIPE; ESRCH; ESRMNT; ESTALE; ESTRPIPE; ETIME; ETIMEDOUT;
   ETOOMANYREFS; ETXTBSY; EUCLEAN; EUNATCH; EUSERS; EXDEV; EXFULL; ERESTARTSYS; ERESTARTNOINTR;
   ERESTARTNOHAND; ERESTART_RESTARTBLOCK].

Definition SysErr_of (z : Z) : option SysErr := List.find (fun e => SysErr_val e =? z) SysErr_all.

Lemma SysErr_of_val e : SysErr_of (SysErr_val e) = Some e.
Proof. by destruct e. Qed.

#[global] Instance SysErr_val_inj : Inj (=) (=) SysErr_val.
Proof. intros e1 e2 E. apply (f_equal SysErr_of) in E. rewrite !SysErr_of_val in E. congruence. Qed.

#[global] Instance SysErr_eq_dec : EqDecision SysErr.
Proof.
  refine (fun e1 e2 => match decide (SysErr_val e1 = SysErr_val e2) with
                       | left E => left (SysErr_val_inj e1 e2 E)
                       | right N => right (fun H => N (f_equal SysErr_val H))
                       end).
Defined.

(** The error values of [qlib/common.rs] that the modelled code returns. *)
Inductive Error : Type :=
| SysError (errno : SysErr)
| Common
| InvalidInput
| NotExist
| NoEnoughMemory
| NoEnoughSpace
| AddressNotInRange
| UnallignedAddress
| QueueFull
| ErrInterrupted.

#[global] Instance Error_eq_dec : EqDecision Error.
Proof. solve_decision. Defined.

Definition Result (A : Type) : Type := Error + A.
Abbreviation Ok := inr (only parsing).
Abbreviation Err := inl (only parsing).

Create HintDb quark.
#[export] Hint Resolve wrap64_in64 add64_in64 sub64_in64 : quark.
