(* ===== verification/BTree.v ===== *)
(** The part of [alloc::collections::BTreeMap<u64, V>] that the code uses, as an
    association list kept in strictly increasing key order: iteration visits the
    list from left to right, and a [range] query is the sublist of the keys inside
    the bounds. *)
From S2P Require Import Prelude.
#[local] Open Scope Z_scope.

Section BTree.
Context {V : Type}.
Implicit Types (m : list (Z * V)) (k : Z) (v : V).

Fixpoint bt_get k m : option V :=
  match m with
  | [] => None
  | (k', v) :: m' => if k =? k' then Some v else bt_get k m'
  end.

Fixpoint bt_insert k v m : list (Z * V) :=
  match m with
  | [] => [(k, v)]
  | (k', v') :: m' =>
      if k <? k' then (k, v) :: m
      else if k =? k' then (k, v) :: m'
      else (k', v') :: bt_insert k v m'
  end.

Fixpoint bt_remove k m : list (Z * V) :=
  match m with
  | [] => []
  | (k', v') :: m' => if k =? k' then m' else (k', v') :: bt_remove k m'
  end.

(** [range((Unbounded, Included(k))).rev().next()] *)
Fixpoint bt_last_le k m : option (Z * V) :=
  match m with
  | [] => None
  | (k', v') :: m' =>
      if k' <=? k then
        match bt_last_le k m' with Some e => Some e | None => Some (k', v') end
      else None
  end.

(** [range((Included(k), Unbounded)).next()] *)
Fixpoint bt_first_ge k m : option (Z * V) :=
  match m with
  | [] => None
  | (k', v') :: m' => if k <=? k' then Some (k', v') else bt_first_ge k m'
  end.

(** [range((Excluded(k), Unbounded)).next()] *)
Fixpoint bt_first_gt k m : option (Z * V) :=
  match m with
  | [] => None
  | (k', v') :: m' => if k <? k' then Some (k', v') else bt_first_gt k m'
  end.

(** [range((Unbounded, Excluded(k)))], in increasing order. *)
Fixpoint bt_below k m : list (Z * V) :=
  match m with
  | [] => []
  | (k', v') :: m' => if k' <? k then (k', v') :: bt_below k m' else []
  end.

(** The [BTreeMap] invariant: strictly increasing keys. *)
Definition bt_sorted m : Prop := StronglySorted Z.lt (m.*1).

(** Every key of [m] is below (above) [k]. *)
Definition keys_lt m k : Prop := Forall (fun e => e.1 < k) m.
Definition keys_gt m k : Prop := Forall (fun e => k < e.1) m.

Lemma bt_sorted_app m1 m2 :
  bt_sorted (m1 ++ m2) <->
  bt_sorted m1 /\ bt_sorted m2 /\ (forall e1 e2, e1 ∈ m1 -> e2 ∈ m2 -> e1.1 < e2.1).
Proof.
  unfold bt_sorted. rewrite fmap_app. split.
  - intros H. apply StronglySorted_app in H as (H & H1 & H2). split_and!; auto.
    intros e1 e2 He1 He2. apply H; apply list_elem_of_fmap; eauto.
  - intros (H1 & H2 & H). apply StronglySorted_app. split_and!; auto.
    intros k1 k2 (e1 & -> & He1)%list_elem_of_fmap (e2 & -> & He2)%list_elem_of_fmap. auto.
Qed.

Lemma bt_sorted_cons e m :
  bt_sorted (e :: m) <-> keys_gt m e.1 /\ bt_sorted m.
Proof.
  unfold bt_sorted, keys_gt. rewrite fmap_cons. split.
  - intros H. apply StronglySorted_inv in H as [Hs Hf]. split; auto.
    rewrite Forall_fmap in Hf. exact Hf.
  - intros [Hf Hs]. constructor; auto. rewrite Forall_fmap. exact Hf.
Qed.

Lemma bt_sorted_middle m1 k v m2 :
  bt_sorted (m1 ++ (k, v) :: m2) <->
  bt_sorted m1 /\ bt_sorted m2 /\ keys_lt m1 k /\ keys_gt m2 k.
Proof.
  rewrite bt_sorted_app, bt_sorted_cons. unfold keys_lt, keys_gt. split.
  - intros (H1 & [Hg H2] & H). split_and!; auto.
    apply Forall_forall. intros e He. apply (H e (k, v)); [done | left].
  - intros (H1 & H2 & Hl & Hg). split_and!; auto.
    intros e1 e2 He1 [-> | He2]%elem_of_cons.
    + exact (proj1 (Forall_forall _ _) Hl e1 He1).
    + pose proof (proj1 (Forall_forall _ _) Hl e1 He1).
      pose proof (proj1 (Forall_forall _ _) Hg e2 He2). simpl in *. lia.
Qed.

(** ** Operations at a known position *)

Lemma bt_insert_at m1 m2 k v :
  keys_lt m1 k -> keys_gt m2 k -> bt_insert k v (m1 ++ m2) = m1 ++ (k, v) :: m2.
Proof.
  intros Hl Hg. induction Hl as [| [k1 v1] m1 Hk Hl IH]; simpl in *.
  - destruct Hg as [| [k2 v2] m2 Hk Hg]; simpl in *; [done |].
    destruct (Z.ltb_spec k k2); [done | lia].
  - destruct (Z.ltb_spec k k1); [lia |]. destruct (Z.eqb_spec k k1); [lia |]. by rewrite IH.
Qed.

Lemma bt_insert_over m1 m2 k v v' :
  keys_lt m1 k -> bt_insert k v (m1 ++ (k, v') :: m2) = m1 ++ (k, v) :: m2.
Proof.
  intros Hl. induction Hl as [| [k1 v1] m1 Hk Hl IH]; simpl in *.
  - by rewrite Z.ltb_irrefl, Z.eqb_refl.
  - destruct (Z.ltb_spec k k1); [lia |]. destruct (Z.eqb_spec k k1); [lia |]. by rewrite IH.
Qed.

Lemma bt_remove_at m1 m2 k v :
  keys_lt m1 k -> bt_remove k (m1 ++ (k, v) :: m2) = m1 ++ m2.
Proof.
  intros Hl. induction Hl as [| [k1 v1] m1 Hk Hl IH]; simpl in *.
  - by rewrite Z.eqb_refl.
  - destruct (Z.eqb_spec k k1); [lia |]. by rewrite IH.
Qed.

Lemma bt_last_le_none m k : keys_gt m k -> bt_last_le k m = None.
Proof.
  intros Hg. destruct Hg as [| [k1 v1] m Hk Hg]; simpl in *; [done |].
  destruct (Z.leb_spec k1 k); [lia | done].
Qed.

Lemma bt_last_le_at m1 m2 k k' v :
  keys_lt m1 k' -> k' <= k -> keys_gt m2 k ->
  bt_last_le k (m1 ++ (k', v) :: m2) = Some (k', v).
Proof.
  intros Hl Hle Hg. induction Hl as [| [k1 v1] m1 Hk Hl IH]; simpl in *.
  - rewrite (bt_last_le_none m2 k Hg). destruct (Z.leb_spec k' k); [done | lia].
  - rewrite IH. destruct (Z.leb_spec k1 k); [done | lia].
Qed.

Lemma bt_first_ge_at m1 m2 k k' v :
  keys_lt m1 k -> k <= k' -> bt_first_ge k (m1 ++ (k', v) :: m2) = Some (k', v).
Proof.
  intros Hl Hle. induction Hl as [| [k1 v1] m1 Hk Hl IH]; simpl in *.
  - destruct (Z.leb_spec k k'); [done | lia].
  - destruct (Z.leb_spec k k1); [lia | done].
Qed.

Lemma bt_first_ge_none m k : keys_lt m k -> bt_first_ge k m = None.
Proof.
  intros Hl. induction Hl as [| [k1 v1] m Hk Hl IH]; simpl in *; [done |].
  destruct (Z.leb_spec k k1); [lia | done].
Qed.

Lemma bt_first_gt_at m1 m2 k :
  Forall (fun e => e.1 <= k) m1 -> keys_gt m2 k -> bt_first_gt k (m1 ++ m2) = head m2.
Proof.
  intros H1 H2. induction H1 as [| [k1 v1] m1 Hk _ IH]; simpl in *.
  - destruct H2 as [| [k2 v2] m2 Hk _]; simpl in *; [done |]. by rewrite (proj2 (Z.ltb_lt k k2) Hk).
  - by rewrite (proj2 (Z.ltb_ge k k1) Hk).
Qed.

Lemma bt_get_at m1 m2 k v :
  keys_lt m1 k -> bt_get k (m1 ++ (k, v) :: m2) = Some v.
Proof.
  intros Hl. induction Hl as [| [k1 v1] m1 Hk Hl IH]; simpl in *.
  - by rewrite Z.eqb_refl.
  - destruct (Z.eqb_spec k k1); [lia | done].
Qed.

(** A sorted map splits at any key. *)
Lemma bt_split_le m k :
  bt_sorted m ->
  exists m1 m2, m = m1 ++ m2 /\ Forall (fun e => e.1 <= k) m1 /\ keys_gt m2 k.
Proof.
  induction m as [| [k' v'] m IH]; intros Hs.
  - exists [], []. split_and!; [done | constructor | constructor].
  - apply bt_sorted_cons in Hs as [Hg Hs]. simpl in Hg.
    destruct (Z.leb_spec k' k) as [Hle | Hlt].
    + destruct (IH Hs) as (m1 & m2 & -> & H1 & H2).
      exists ((k', v') :: m1), m2. split_and!; auto.
    + exists [], ((k', v') :: m). split_and!; auto.
      constructor; [done |]. eapply Forall_impl; [exact Hg |]. simpl. lia.
Qed.

(** ** Map laws *)

Lemma bt_get_insert m k k' v :
  bt_sorted m -> bt_get k' (bt_insert k v m) = if k' =? k then Some v else bt_get k' m.
Proof.
  induction m as [| [k1 v1] m IH]; intros Hs; simpl.
  - done.
  - apply bt_sorted_cons in Hs as [Hg Hs]. simpl in Hg.
    destruct (Z.ltb_spec k k1); [| destruct (Z.eqb_spec k k1)]; simpl.
    + done.
    + subst. by destruct (Z.eqb_spec k' k1).
    + rewrite IH by done. destruct (Z.eqb_spec k' k1), (Z.eqb_spec k' k); try done; lia.
Qed.

Lemma bt_get_gt_none m k : keys_gt m k -> bt_get k m = None.
Proof.
  intros Hg. induction Hg as [| [k1 v1] m Hk Hg IH]; simpl in *; [done |].
  destruct (Z.eqb_spec k k1); [lia | done].
Qed.

Lemma bt_get_remove m k k' :
  bt_sorted m -> bt_get k' (bt_remove k m) = if k' =? k then None else bt_get k' m.
Proof.
  induction m as [| [k1 v1] m IH]; intros Hs; simpl.
  - by destruct (k' =? k).
  - apply bt_sorted_cons in Hs as [Hg Hs]. simpl in Hg.
    destruct (Z.eqb_spec k k1); simpl.
    + subst. destruct (Z.eqb_spec k' k1); [subst; by apply bt_get_gt_none | done].
    + rewrite IH by done. destruct (Z.eqb_spec k' k1), (Z.eqb_spec k' k); try done; lia.
Qed.

Lemma bt_keys_insert m k v e : e ∈ bt_insert k v m -> e = (k, v) \/ e ∈ m.
Proof.
  induction m as [| [k1 v1] m IH]; simpl; intros He.
  - set_solver.
  - destruct (Z.ltb_spec k k1); [| destruct (Z.eqb_spec k k1)]; set_solver.
Qed.

Lemma bt_keys_remove m k e : e ∈ bt_remove k m -> e ∈ m.
Proof.
  induction m as [| [k1 v1] m IH]; simpl; intros He; [done |].
  destruct (Z.eqb_spec k k1); set_solver.
Qed.

Lemma bt_insert_sorted m k v : bt_sorted m -> bt_sorted (bt_insert k v m).
Proof.
  induction m as [| [k1 v1] m IH]; simpl; intros Hs.
  - apply bt_sorted_cons. split; constructor.
  - pose proof Hs as [Hg Hs']%bt_sorted_cons. simpl in Hg.
    destruct (Z.ltb_spec k k1); [| destruct (Z.eqb_spec k k1)].
    + apply bt_sorted_cons. split; [| done]. constructor; [done |].
      eapply Forall_impl; [exact Hg |]. simpl. lia.
    + subst. apply bt_sorted_cons. done.
    + apply bt_sorted_cons. split; [| auto]. apply Forall_forall.
      intros e [-> | He]%bt_keys_insert; simpl; [lia |].
      exact (proj1 (Forall_forall _ _) Hg e He).
Qed.

Lemma bt_remove_sorted m k : bt_sorted m -> bt_sorted (bt_remove k m).
Proof.
  induction m as [| [k1 v1] m IH]; simpl; intros Hs; [done |].
  apply bt_sorted_cons in Hs as [Hg Hs]. simpl in Hg.
  destruct (Z.eqb_spec k k1); [done |].
  apply bt_sorted_cons. split; [| auto]. apply Forall_forall. intros e He%bt_keys_remove.
  exact (proj1 (Forall_forall _ _) Hg e He).
Qed.
(** [bt_last_le] finds the entry with the largest key that is at most [k]. *)
Lemma bt_last_le_get m k :
  bt_sorted m ->
  match bt_last_le k m with
  | Some (k', v) => bt_get k' m = Some v /\ k' <= k /\ forall k'' v'', bt_get k'' m = Some v'' -> k'' <= k -> k'' <= k'
  | None => forall k'' v'', bt_get k'' m = Some v'' -> k < k''
  end.
Proof.
  induction m as [| [k1 v1] m IH]; intros Hs; simpl; [done |].
  apply bt_sorted_cons in Hs as [Hg Hs]. specialize (IH Hs). simpl in Hg.
  assert (forall k' v, bt_get k' m = Some v -> k1 < k') as Hgt.
  { intros k' v Hk. apply Znot_ge_lt. intros Hge. rewrite bt_get_gt_none in Hk; [done |].
    eapply Forall_impl; [exact Hg |]. simpl. lia. }
  destruct (Z.leb_spec k1 k).
  - destruct (bt_last_le k m) as [[k' v] |].
    + destruct IH as (Hk & Hle & Hmax). destruct (Z.eqb_spec k' k1); [apply Hgt in Hk; lia |].
      split_and!; [done | done |]. intros k'' v''. destruct (Z.eqb_spec k'' k1); [apply Hgt in Hk; lia | apply Hmax].
    + rewrite Z.eqb_refl. split_and!; [done | done |]. intros k'' v''.
      destruct (Z.eqb_spec k'' k1); [lia |]. intros Hk%IH. lia.
  - intros k'' v''. destruct (Z.eqb_spec k'' k1); [lia |]. intros Hk%Hgt. lia.
Qed.
End BTree.

#[export] Hint Resolve bt_insert_sorted bt_remove_sorted : quark.
