(* ===== verification/Range.v ===== *)
(** Addresses, access rights and address ranges: [Addr] and [AccessType] of
    qlib/addr.rs and [Range] of qlib/range.rs. *)
From S2P Require Import Prelude.
#[local] Open Scope Z_scope.
#[local] Open Scope u64_scope.

(** [!x] on [u64]. *)
Definition not64 (x : Z) : Z := U64_MAX - x.

Abbreviation PAGE_SHIFT := (12)%Z (only parsing).
Definition PAGE_SIZE : Z := Z.shiftl 1 PAGE_SHIFT.
Definition PAGE_MASK : Z := PAGE_SIZE - 1.

(** * AccessType *)

Abbreviation PROT_READ := (1)%Z (only parsing).
Abbreviation PROT_WRITE := (2)%Z (only parsing).
Abbreviation PROT_EXEC := (4)%Z (only parsing).

Definition AccessType_New (read write exec : bool) : Z :=
  let prot := 0 in
  let prot := if read then Z.lor prot PROT_READ else prot in
  let prot := if write then Z.lor prot PROT_WRITE else prot in
  if exec then Z.lor prot PROT_EXEC else prot.

Definition at_Read (a : Z) : bool := negb (Z.land a PROT_READ =? 0).
Definition at_Write (a : Z) : bool := negb (Z.land a PROT_WRITE =? 0).
Definition at_Exec (a : Z) : bool := negb (Z.land a PROT_EXEC =? 0).
Definition at_Any (a : Z) : bool := at_Read a || at_Write a || at_Exec a.

Definition ReadOnly : Z := PROT_READ.
Definition ReadWrite : Z := Z.lor PROT_READ PROT_WRITE.
Definition Executable : Z := Z.lor PROT_READ PROT_EXEC.
Definition AnyAccess : Z := Z.lor (Z.lor PROT_READ PROT_WRITE) PROT_EXEC.

Definition SetRead (a : Z) : Z := Z.lor a PROT_READ.
Definition SetWrite (a : Z) : Z := Z.lor a PROT_WRITE.
Definition ClearWrite (a : Z) : Z := Z.land a (not64 PROT_WRITE).
Definition SetExec (a : Z) : Z := Z.lor a PROT_EXEC.

Definition Effective (a : Z) : Z :=
  if at_Write a || at_Exec a then SetRead a else a.

Definition SupersetOf (a other : Z) : bool :=
  if negb (at_Read a) && at_Read other then false
  else if negb (at_Write a) && at_Write other then false
  else if negb (at_Exec a) && at_Exec other then false
  else true.

(** * Range *)

Definition MAX_RANGE : Z := U64_MAX.

Record Range : Type := mkRange { r_start : Z; r_len : Z }.

#[global] Instance Range_eq_dec : EqDecision Range.
Proof. solve_decision. Defined.

Definition Range_cmp (a b : Range) : comparison :=
  match r_start a ?= r_start b with
  | Eq => r_len a ?= r_len b
  | c => c
  end.

(** [PartialEq for Range]: the second conjunct compares [self.len] with itself. *)
Definition Range_eq (a b : Range) : bool :=
  (r_start a =? r_start b) && (r_len a =? r_len a).

Definition Range_Max : Range := mkRange 0 MAX_RANGE.

Definition End_ (r : Range) : Z :=
  if r_len r =? MAX_RANGE then MAX_RANGE else r_start r +w r_len r.

(** [1 << ord] on [u64]: the shift amount is masked to six bits. *)
Definition shl1 (ord : Z) : Z := Z.shiftl 1 (ord mod 64).

Definition Range_Alloc (r : Range) (len aligmentOrd : Z) : option Z :=
  let start := r_start r in
  let size := shl1 aligmentOrd in
  let mask := size -w 1 in
  let start :=
    if negb (Z.land start mask =? 0) then Z.land start (not64 mask) +w size else start in
  if (start <? End_ r) && (len <=? End_ r -w start) then Some start else None.

Definition Contains (r : Range) (x : Z) : bool :=
  (r_start r <=? x) && (x <? r_start r +w r_len r).

Definition Overlaps (r s : Range) : bool :=
  (r_start r <? End_ s) && (r_start s <? End_ r).

Definition IsSupersetOf (r s : Range) : bool :=
  (r_start r <=? r_start s) && (End_ s <=? End_ r).

Definition Intersect (r s : Range) : Range :=
  let start := if r_start r <? r_start s then r_start s else r_start r in
  let end_ := if End_ s <? End_ r then End_ s else End_ r in
  mkRange start (end_ -w start).

Definition CanSplitAt (r : Range) (x : Z) : bool :=
  (r_start r <? x) && (x <? End_ r).

(** * Addr *)

Definition AddLen (a len : Z) : Result Z :=
  if (U64_MAX -w a) <? len then Err (SysError EFAULT) else Ok (a +w len).

Definition RoundDown (a : Z) : Result Z := Ok (Z.land a (not64 (PAGE_SIZE - 1))).

Definition RoundUp (a : Z) : Result Z :=
  if U64_MAX - PAGE_SIZE + 1 <? a then Err (SysError EINVAL)
  else if a =? 0 then Ok 0
  else RoundDown (a -w 1 +w PAGE_SIZE).

Definition MustRoundUp (a : Z) : outcome Z :=
  match RoundUp a with Ok x => Ret x | Err _ => Panic end.

Definition PageOffset (a : Z) : Z := Z.land a (PAGE_SIZE - 1).

Definition IsPageAligned (a : Z) : bool := PageOffset a =? 0.

Definition PageAligned (a : Z) : Result unit :=
  if negb (IsPageAligned a) then Err UnallignedAddress else Ok tt.

Definition AddPages (a pageCount : Z) : Z := a +w mul64 pageCount PAGE_SIZE.

Definition PageOffsetIdx (self addr : Z) : Result Z :=
  match RoundDown addr with
  | Err e => Err e
  | Ok addr =>
      if addr <? self then Err AddressNotInRange
      else Ok (((addr -w self) / PAGE_SIZE) mod 2 ^ 32)
  end.

Definition Offset (self startAddr : Z) : Result Z :=
  if self <? startAddr then Err AddressNotInRange else Ok (self -w startAddr).

Definition ToRange (a length : Z) : Result Range :=
  match AddLen a length with
  | Err e => Err e
  | Ok _ => Ok (mkRange a length)
  end.

Definition IsPageAigned (r : Range) : bool :=
  IsPageAligned (r_start r) && IsPageAligned (r_len r).

(** * Bit masks *)

Lemma not64_ldiff x : in64 x -> not64 x = Z.ldiff (Z.ones 64) x.
Proof.
  intros Hx. unfold not64. change U64_MAX with (Z.ones 64). apply Z.sub_nocarry_ldiff.
  destruct (Z.eq_dec x 0) as [-> | Hne]; [done |].
  apply Z.ldiff_ones_r_low; [u64 |]. apply Z.log2_lt_pow2; u64.
Qed.

Lemma land_not64 a x : in64 a -> in64 x -> Z.land a (not64 x) = Z.ldiff a x.
Proof.
  intros Ha Hx. rewrite (not64_ldiff x Hx). apply Z.bits_inj'. intros n Hn.
  rewrite Z.land_spec, !Z.ldiff_spec.
  destruct (Z.lt_ge_cases n 64) as [Hlt | Hge].
  - rewrite (Z.ones_spec_low 64 n) by lia. done.
  - destruct (Z.eq_dec a 0) as [-> | Hne]; [by rewrite Z.bits_0 |].
    rewrite (Z.bits_above_log2 a n); [done | u64 |].
    apply Z.lt_le_trans with 64; [| lia]. apply Z.log2_lt_pow2; u64.
Qed.

(** Masking with the complement of [2^k - 1] rounds down to a multiple of [2^k]. *)
Lemma land_not64_ones a k :
  in64 a -> 0 <= k < 64 -> Z.land a (not64 (Z.ones k)) = a - a mod 2 ^ k.
Proof.
  intros Ha Hk. pose proof (Z.pow_pos_nonneg 2 k) as Hp.
  assert (2 ^ k <= 2 ^ 63) by (apply Z.pow_le_mono_r; lia).
  rewrite land_not64; [| done | rewrite Z.ones_equiv; u64].
  rewrite Z.ldiff_ones_r, Z.shiftl_mul_pow2, Z.shiftr_div_pow2 by lia.
  rewrite Z.mul_comm. pose proof (Z.div_mod a (2 ^ k)). lia.
Qed.

(** The least multiple of [m] that is not below [a]. *)
Definition align_up (a m : Z) : Z := (a + m - 1) / m * m.

Lemma align_up_spec a m : 0 < m ->
  (m | align_up a m) /\ a <= align_up a m /\
  forall b, (m | b) -> a <= b -> align_up a m <= b.
Proof.
  intros Hm. unfold align_up. split_and!.
  - exists ((a + m - 1) / m). done.
  - pose proof (Z.div_mod (a + m - 1) m) as H. pose proof (Z.mod_pos_bound (a + m - 1) m). lia.
  - intros b [q ->] Hle. apply Z.mul_le_mono_nonneg_r; [lia |].
    apply Z.lt_succ_r. apply Z.div_lt_upper_bound; lia.
Qed.

Lemma align_up_mod a m : 0 < m ->
  align_up a m = if a mod m =? 0 then a else a - a mod m + m.
Proof.
  intros Hm. destruct (align_up_spec a m Hm) as ([q Hq] & Hle & Hmin).
  pose proof (Z.mod_pos_bound a m Hm) as Hb. pose proof (Z.div_mod a m ltac:(lia)) as Hd.
  destruct (Z.eqb_spec (a mod m) 0) as [Hz | Hz].
  - apply Z.le_antisymm; [| done]. apply Hmin; [| lia]. exists (a / m). lia.
  - apply Z.le_antisymm; [apply Hmin; [| lia]; exists (a / m + 1); lia |].
    rewrite Hq in *. assert (a / m < q) by nia. nia.
Qed.

(** * Proper ranges: the end does not wrap *)

Definition proper (r : Range) : Prop :=
  in64 (r_start r) /\ in64 (r_len r) /\ r_start r + r_len r <= U64_MAX.

(** The addresses of a range. *)
Definition covers (r : Range) (x : Z) : Prop := r_start r <= x < r_start r + r_len r.

Lemma End_proper r : proper r -> End_ r = r_start r + r_len r.
Proof.
  unfold proper, End_, MAX_RANGE. intros (Hs & Hl & He).
  destruct (Z.eqb_spec (r_len r) U64_MAX) as [E | Hne]; [u64 |].
  rewrite add64_small; u64.
Qed.

Lemma Contains_proper r x : proper r -> Contains r x = true <-> covers r x.
Proof.
  intros (Hs & Hl & He). unfold Contains, covers.
  rewrite add64_small by u64. rewrite andb_true_iff, Z.leb_le, Z.ltb_lt. lia.
Qed.

Lemma CanSplitAt_proper r x : proper r ->
  CanSplitAt r x = true <-> r_start r < x < r_start r + r_len r.
Proof.
  intros Hp. unfold CanSplitAt. rewrite End_proper by done.
  rewrite andb_true_iff, !Z.ltb_lt. lia.
Qed.

Lemma Intersect_proper r s : proper r -> proper s ->
  Z.max (r_start r) (r_start s) <= Z.min (End_ r) (End_ s) ->
  Intersect r s = mkRange (Z.max (r_start r) (r_start s))
    (Z.min (End_ r) (End_ s) - Z.max (r_start r) (r_start s)).
Proof.
  intros Hr Hs Hle. pose proof (End_proper r Hr) as Er. pose proof (End_proper s Hs) as Es.
  destruct Hr as (? & ? & ?), Hs as (? & ? & ?).
  unfold Intersect. f_equal.
  - zcase; lia.
  - rewrite sub64_small; repeat zcase; u64.
Qed.

(** ** Properties *)

(** [Range::Overlaps] decides whether two proper, nonempty ranges have an
    address in common, and [Range::Intersect] of overlapping ranges is a proper
    range that holds exactly the common addresses. *)
Theorem overlaps_intersect r s :
  proper r -> proper s -> 0 < r_len r -> 0 < r_len s ->
  (Overlaps r s = true <-> exists x, covers r x /\ covers s x) /\
  (Overlaps r s = true ->
     proper (Intersect r s) /\
     forall x, covers (Intersect r s) x <-> covers r x /\ covers s x).
Proof.
  intros Hr Hs Hlr Hls. pose proof (End_proper r Hr) as Er. pose proof (End_proper s Hs) as Es.
  assert (Overlaps r s = true <-> r_start r < End_ s /\ r_start s < End_ r) as Hov
    by (unfold Overlaps; rewrite andb_true_iff, !Z.ltb_lt; done).
  unfold covers. split.
  - rewrite Hov. split; [| intros (x & ? & ?); lia].
    intros [? ?]. exists (Z.max (r_start r) (r_start s)). lia.
  - rewrite Hov. intros [? ?]. rewrite Intersect_proper by (auto; lia).
    destruct Hr as (? & ? & ?), Hs as (? & ? & ?).
    split; [unfold proper; cbn; split_and!; u64 | cbn; lia].
Qed.

Lemma overlaps_intersect_witness :
  Overlaps (mkRange 10 20) (mkRange 20 30) = true /\
  Intersect (mkRange 10 20) (mkRange 20 30) = mkRange 20 10 /\
  proper (Intersect (mkRange 10 20) (mkRange 20 30)).
Proof.
  split; [reflexivity |]. split; [reflexivity |].
  destruct (overlaps_intersect (mkRange 10 20) (mkRange 20 30)) as [_ H];
    [unfold proper; cbn; u64 | unfold proper; cbn; u64 | cbn; lia | cbn; lia |].
  apply H. reflexivity.
Defined.

(** [Range::Alloc] returns the lowest address of the range that is a multiple of
    [2^aligmentOrd] with [len] bytes of the range behind it, and [None] exactly when
    no aligned address of the range has that room. *)
Theorem Range_Alloc_spec r len ord :
  proper r -> in64 len -> 0 <= ord < 63 -> r_start r <= 2 ^ 63 ->
  match Range_Alloc r len ord with
  | Some a =>
      (2 ^ ord | a) /\ covers r a /\ a + len <= r_start r + r_len r /\
      (forall b, (2 ^ ord | b) -> r_start r <= b -> a <= b)
  | None =>
      forall b, (2 ^ ord | b) -> covers r b -> r_start r + r_len r < b + len
  end.
Proof.
  intros Hr Hlen Hord Hstart. pose proof (End_proper r Hr) as Er.
  destruct Hr as (Hs & Hl & He).
  pose proof (Z.pow_pos_nonneg 2 ord ltac:(lia) ltac:(lia)) as Hp.
  assert (2 ^ ord <= 2 ^ 62) as Hple by (apply Z.pow_le_mono_r; lia).
  assert (shl1 ord = 2 ^ ord) as Hsz
    by (unfold shl1; rewrite Z.mod_small by lia; rewrite Z.shiftl_mul_pow2 by lia; lia).
  unfold Range_Alloc. rewrite Hsz, Er.
  rewrite (sub64_small (2 ^ ord) 1) by u64.
  rewrite <- (Z.ones_equiv ord) || replace (2 ^ ord - 1) with (Z.ones ord)
    by (rewrite Z.ones_equiv; lia).
  rewrite Z.land_ones, land_not64_ones by (auto; lia).
  pose proof (Z.mod_pos_bound (r_start r) (2 ^ ord) Hp) as Hmod.
  destruct (align_up_spec (r_start r) (2 ^ ord) Hp) as (Hdiv & Hge & Hmin).
  rewrite align_up_mod in * by done.
  set (a := if r_start r mod 2 ^ ord =? 0 then r_start r
            else r_start r - r_start r mod 2 ^ ord + 2 ^ ord) in *.
  replace (if negb (r_start r mod 2 ^ ord =? 0) then _ else r_start r) with a; cycle 1.
  { subst a. destruct (r_start r mod 2 ^ ord =? 0); simpl; [done |].
    rewrite add64_small by u64. done. }
  destruct (Z.ltb_spec a (r_start r + r_len r)) as [Hlt | Hnlt]; simpl.
  - rewrite sub64_small by u64.
    destruct (Z.leb_spec len (r_start r + r_len r - a)); unfold covers.
    + split_and!; auto; lia.
    + intros b Hb ?. specialize (Hmin b Hb). lia.
  - intros b Hb Hc. unfold covers in Hc. specialize (Hmin b Hb). lia.
Qed.

Lemma Range_Alloc_witness :
  Range_Alloc (mkRange 5000 20000) 4096 12 = Some 8192 /\
  (2 ^ 12 | 8192) /\ covers (mkRange 5000 20000) 8192.
Proof.
  split; [vm_compute; reflexivity |].
  pose proof (Range_Alloc_spec (mkRange 5000 20000) 4096 12
    ltac:(unfold proper; cbn; u64) ltac:(u64) ltac:(lia) ltac:(cbn; lia)) as H.
  replace (Range_Alloc (mkRange 5000 20000) 4096 12) with (Some 8192) in H
    by (vm_compute; reflexivity).
  destruct H as (H1 & H2 & _). split; [exact H1 | exact H2].
Defined.

Lemma PAGE_ones : PAGE_SIZE - 1 = Z.ones 12.
Proof. reflexivity. Qed.

Lemma RoundDown_eq a : in64 a -> RoundDown a = Ok (a - a mod PAGE_SIZE).
Proof. intros Ha. unfold RoundDown. rewrite PAGE_ones, land_not64_ones by (auto; lia). done. Qed.

(** [Addr::RoundUp] returns the least page-aligned address that is not below its
    argument, and fails with [EINVAL] exactly when that address is not a [u64]. *)
Theorem RoundUp_spec a : in64 a ->
  RoundUp a =
    if decide (in64 (align_up a PAGE_SIZE)) then Ok (align_up a PAGE_SIZE)
    else Err (SysError EINVAL).
Proof.
  intros Ha. assert (PAGE_SIZE = 4096) as HP by reflexivity.
  pose proof (Z.mod_pos_bound a 4096 ltac:(lia)) as Hb.
  pose proof (Z.div_mod a 4096 ltac:(lia)) as Hd.
  unfold RoundUp. destruct (Z.ltb_spec (U64_MAX - PAGE_SIZE + 1) a) as [Hlt | Hge].
  - rewrite decide_False; [done |]. rewrite align_up_mod by (rewrite HP; lia).
    rewrite HP in *. zcase; u64.
  - destruct (Z.eqb_spec a 0) as [-> | Hne]; [reflexivity |].
    rewrite (sub64_small a 1), (add64_small (a - 1)), RoundDown_eq by (rewrite ?HP in *; u64).
    assert (a - 1 + PAGE_SIZE - (a - 1 + PAGE_SIZE) mod PAGE_SIZE = align_up a PAGE_SIZE) as ->.
    { unfold align_up. replace (a - 1 + PAGE_SIZE) with (a + PAGE_SIZE - 1) by lia.
      pose proof (Z.div_mod (a + PAGE_SIZE - 1) PAGE_SIZE ltac:(rewrite HP; lia)). lia. }
    rewrite decide_True; [done |]. rewrite align_up_mod by (rewrite HP; lia).
    rewrite HP in *. zcase; u64.
Qed.

Lemma RoundUp_witness : RoundUp 4097 = Ok 8192 /\ RoundUp U64_MAX = Err (SysError EINVAL).
Proof.
  split.
  - rewrite (RoundUp_spec 4097) by u64. reflexivity.
  - rewrite (RoundUp_spec U64_MAX) by u64. reflexivity.
Defined.

(** [AccessType::SupersetOf] is inclusion of the read, write and execute rights,
    and [Effective] adds exactly the read right implied by write or execute. *)
Theorem access_rights a b :
  (SupersetOf a b = true <->
     (at_Read b = true -> at_Read a = true) /\
     (at_Write b = true -> at_Write a = true) /\
     (at_Exec b = true -> at_Exec a = true)) /\
  at_Read (Effective a) = at_Any a /\
  at_Write (Effective a) = at_Write a /\
  at_Exec (Effective a) = at_Exec a /\
  SupersetOf (Effective a) a = true.
Proof.
  assert (forall c, at_Read (SetRead c) = true /\
                    at_Write (SetRead c) = at_Write c /\ at_Exec (SetRead c) = at_Exec c) as HS.
  { intros c. unfold at_Read, at_Write, at_Exec, SetRead.
    rewrite !Z.land_lor_distr_l. rewrite (Z.land_diag 1).
    change (Z.land 1 2) with 0. change (Z.land 1 4) with 0. rewrite !Z.lor_0_r.
    split_and!; auto. apply negb_true_iff, Z.eqb_neq. intros H%Z.lor_eq_0_iff. lia. }
  split_and!.
  - unfold SupersetOf. destruct (at_Read a), (at_Read b), (at_Write a), (at_Write b),
      (at_Exec a), (at_Exec b); simpl; intuition.
  - unfold Effective, at_Any. destruct (HS a) as (Hr & _ & _).
    destruct (at_Write a), (at_Exec a); simpl; rewrite ?Hr, ?orb_true_r, ?orb_false_r; done.
  - unfold Effective. destruct (HS a) as (_ & Hw & _).
    destruct (at_Write a) eqn:E, (at_Exec a); simpl; congruence.
  - unfold Effective. destruct (HS a) as (_ & _ & Hx).
    destruct (at_Write a), (at_Exec a) eqn:E; simpl; congruence.
  - unfold SupersetOf, Effective. destruct (HS a) as (Hr & Hw & Hx).
    destruct (at_Write a) eqn:?, (at_Exec a) eqn:?; simpl; rewrite ?Hr, ?Hw, ?Hx; simpl;
      destruct (at_Read a) eqn:?; simpl; repeat (rewrite ?Heqb0, ?Heqb1; simpl); try done; congruence.
Qed.
