(* ===== verification/AreaSet.v ===== *)
(** qlib/mem/areaset.rs: [AreaSet<T>], the ordered set of disjoint segments behind the
    virtual-memory areas of a process, the file mappings of an inode and the POSIX
    record locks of a file.

    The entries of a set are shared, mutable cells ([Arc<QMutex<AreaEntryInternal>>])
    linked in both directions, indexed by a [BTreeMap] from the start of a segment to
    its entry.  The model keeps the cells in a store ([s_cells]) and an [AreaEntry] is
    a pointer into it.  An iterator ([AreaSeg], [AreaGap]) is a [handle]: [Some p] for
    the entry at [p], [None] for a [default()] entry, a fresh cell that is linked to
    nothing.  The back link is a [Weak] pointer; its target is alive as long as it is
    in the list, so [Upgrade] is the identity here.

    The values implement the trait [AreaValue].  Their methods may read and extend a
    world [W] of their own cells (the locks of fs/lock.rs live behind an [Arc]). *)
From S2P Require Import Prelude BTree Range.
#[local] Open Scope Z_scope.
#[local] Open Scope u64_scope.

Class AreaValue (W T : Type) := {
  av_Merge : W -> Range -> Range -> T -> T -> option T;
  av_Split : W -> Range -> Z -> T -> (T * T) * W;
}.

Abbreviation ptr := positive.
Abbreviation handle := (option positive).

Record AreaEntryInternal (T : Type) : Type := mkEntry {
  e_range : Range;
  e_value : option T;
  e_prev : option ptr;
  e_next : option ptr;
}.
Arguments mkEntry {T} _ _ _ _.
Arguments e_range {T} _.
Arguments e_value {T} _.
Arguments e_prev {T} _.
Arguments e_next {T} _.

Record AreaSet (W T : Type) : Type := mkSet {
  s_range : Range;
  s_head : ptr;
  s_tail : ptr;
  s_map : list (Z * ptr);
  (* the store of entries, the next unused pointer, the world of the values *)
  s_cells : gmap ptr (AreaEntryInternal T);
  s_fresh : ptr;
  s_world : W;
}.
Arguments mkSet {W T} _ _ _ _ _ _ _.
Arguments s_range {W T} _.
Arguments s_head {W T} _.
Arguments s_tail {W T} _.
Arguments s_map {W T} _.
Arguments s_cells {W T} _.
Arguments s_fresh {W T} _.
Arguments s_world {W T} _.

Inductive Area : Type :=
| SegArea (h : handle)
| GapArea (h : handle).

Section Ops.
Context {W T : Type} `{AV : AreaValue W T}.
Implicit Types (s : AreaSet W T) (h : handle) (p : ptr) (r : Range) (v : T).

Abbreviation entry := (AreaEntryInternal T).

(** ** Record updates *)

Definition with_range s r : AreaSet W T :=
  mkSet r (s_head s) (s_tail s) (s_map s) (s_cells s) (s_fresh s) (s_world s).
Definition with_map s (m : list (Z * ptr)) : AreaSet W T :=
  mkSet (s_range s) (s_head s) (s_tail s) m (s_cells s) (s_fresh s) (s_world s).
Definition with_cells s (c : gmap ptr entry) : AreaSet W T :=
  mkSet (s_range s) (s_head s) (s_tail s) (s_map s) c (s_fresh s) (s_world s).
Definition with_world s (w : W) : AreaSet W T :=
  mkSet (s_range s) (s_head s) (s_tail s) (s_map s) (s_cells s) (s_fresh s) w.
Definition with_fresh s p : AreaSet W T :=
  mkSet (s_range s) (s_head s) (s_tail s) (s_map s) (s_cells s) p (s_world s).

Definition set_range (r : Range) (e : entry) : entry :=
  mkEntry r (e_value e) (e_prev e) (e_next e).
Definition set_value (v : option T) (e : entry) : entry :=
  mkEntry (e_range e) v (e_prev e) (e_next e).
Definition set_prev (p : option ptr) (e : entry) : entry :=
  mkEntry (e_range e) (e_value e) p (e_next e).
Definition set_next (p : option ptr) (e : entry) : entry :=
  mkEntry (e_range e) (e_value e) (e_prev e) p.

(** ** AreaEntry *)

Definition default_entry : entry := mkEntry (mkRange 0 0) None None None.

(** [h.lock()], for reading. *)
Definition entry_at s h : entry :=
  match h with
  | None => default_entry
  | Some p => default default_entry (s_cells s !! p)
  end.

(** [h.lock()], for writing the fields that [f] changes. *)
Definition modify s h (f : entry -> entry) : AreaSet W T :=
  match h with
  | None => s
  | Some p => with_cells s (alter f p (s_cells s))
  end.

Definition is_none {A} (o : option A) : bool :=
  match o with None => true | Some _ => false end.

Definition EntryOk s h : bool :=
  negb (is_none (e_prev (entry_at s h)) || is_none (e_next (entry_at s h))).
Definition IsHead s h : bool := is_none (e_prev (entry_at s h)).
Definition IsTail s h : bool := is_none (e_next (entry_at s h)).
Definition ERange s h : Range := e_range (entry_at s h).

Definition Value s h : outcome T :=
  match e_value (entry_at s h) with Some v => Ret v | None => Panic end.

Definition NextEntry s h : handle := e_next (entry_at s h).
Definition PrevEntry s h : handle := e_prev (entry_at s h).

(** [Dummy] and [New] allocate a cell. *)
Definition new_entry s (e : entry) : AreaSet W T * ptr :=
  (with_fresh (with_cells s (<[s_fresh s := e]> (s_cells s))) (Pos.succ (s_fresh s)), s_fresh s).

Definition EntryRemove s h : outcome (AreaSet W T) :=
  match e_prev (entry_at s h), e_next (entry_at s h) with
  | Some prev, Some next =>
      let s := modify s h (fun e => set_next None (set_prev None e)) in
      let s := modify s (Some prev) (set_next (Some next)) in
      Ret (modify s (Some next) (set_prev (Some prev)))
  | _, _ => Panic
  end.

Definition InsertAfter s h r v : outcome (AreaSet W T * ptr) :=
  let '(s, n) := new_entry s (mkEntry (mkRange (r_start r) (r_len r)) (Some v) None None) in
  match e_next (entry_at s h) with
  | None => Panic
  | Some next =>
      let s := modify s h (set_next (Some n)) in
      let s := modify s (Some n) (set_prev h) in
      let s := modify s (Some next) (set_prev (Some n)) in
      Ret (modify s (Some n) (set_next (Some next)), n)
  end.

Fixpoint NextNonEmptyGap_loop (fuel : nat) s cur : outcome (option handle) :=
  match fuel with
  | O => OutOfFuel
  | S fuel =>
      if IsTail s cur then Ret None
      else
        let next := NextEntry s cur in
        let end_ := r_start (ERange s next) in
        let start := End_ (ERange s cur) in
        if negb (start =? end_) then Ret (Some cur)
        else NextNonEmptyGap_loop fuel s next
  end.

Fixpoint PrevNoneEmptyGap_loop (fuel : nat) s cur : outcome (option handle) :=
  match fuel with
  | O => OutOfFuel
  | S fuel =>
      if IsHead s cur then Ret None
      else
        let prev := PrevEntry s cur in
        let start := End_ (ERange s prev) in
        let end_ := r_start (ERange s cur) in
        if negb (start =? end_) then Ret (Some prev)
        else PrevNoneEmptyGap_loop fuel s prev
  end.

(** A walk along the list visits each entry at most once: the segments of the map,
    the head and the tail. *)
Definition walk_fuel s : nat := length (s_map s) + 3.

Definition NextNonEmptyGap s h : outcome (option handle) :=
  NextNonEmptyGap_loop (walk_fuel s) s h.
Definition PrevNoneEmptyGap s h : outcome (option handle) :=
  PrevNoneEmptyGap_loop (walk_fuel s) s h.

(** ** AreaGap: the gap after an entry *)

Definition gap_Ok s (g : handle) : bool := negb (IsTail s g).

Definition gap_PrevSeg s (g : handle) : handle := if negb (gap_Ok s g) then None else g.
Definition gap_NextSeg s (g : handle) : handle :=
  if negb (gap_Ok s g) then None else NextEntry s g.
Definition gap_PrevGap s (g : handle) : handle :=
  if negb (EntryOk s g) then None else PrevEntry s g.
Definition gap_NextGap s (g : handle) : handle :=
  if negb (gap_Ok s g) then None else NextEntry s g.

Definition gap_Range s (g : handle) : Range :=
  if negb (gap_Ok s g) then mkRange 0 0
  else
    let start := End_ (ERange s g) in
    let end_ := r_start (ERange s (NextEntry s g)) in
    mkRange start (end_ -w start).

Definition gap_IsEmpty s (g : handle) : bool := r_len (gap_Range s g) =? 0.

(** ** AreaSeg *)

Definition seg_Ok s h : bool := EntryOk s h.
Definition seg_Value s h : outcome T := Value s h.
Definition seg_SetValue s h v : AreaSet W T := modify s h (set_value (Some v)).

Definition seg_PrevGap s h : handle := if IsHead s h then None else PrevEntry s h.
Definition seg_NextGap s h : handle := if IsTail s h then None else h.
Definition seg_NextSeg s h : handle := if IsTail s h then h else NextEntry s h.
Definition seg_PrevSeg s h : handle := if IsHead s h then h else PrevEntry s h.

Definition seg_NextNonEmpty s h : handle * handle :=
  let gap := seg_NextGap s h in
  if negb (r_len (gap_Range s gap) =? 0) then (None, gap)
  else (gap_NextSeg s gap, None).

(** [Arc::ptr_eq]; two [default()] entries are different cells. *)
Definition seg_eq h h' : bool :=
  match h, h' with Some p, Some p' => bool_decide (p = p') | _, _ => false end.

(** ** Area *)

Definition area_Gap (a : Area) : handle := match a with GapArea g => g | _ => None end.
Definition area_Seg (a : Area) : handle := match a with SegArea h => h | _ => None end.
Definition area_IsSeg (a : Area) : bool := match a with SegArea _ => true | GapArea _ => false end.
Definition area_IsGap (a : Area) : bool := negb (area_IsSeg a).

(** ** AreaSet *)

Definition AreaSet_New (w : W) (start len : Z) : AreaSet W T :=
  let head := mkEntry (mkRange start 0) None None (Some 2%positive) in
  let tail :=
    if negb (len =? U64_MAX)
    then mkEntry (mkRange (start +w len) 0) None (Some 1%positive) None
    else mkEntry (mkRange U64_MAX 0) None (Some 1%positive) None in
  mkSet (mkRange start len) 1%positive 2%positive []
    (<[1%positive := head]> {[2%positive := tail]}) 3%positive w.

Definition Reset s (start len : Z) : AreaSet W T :=
  let s := modify s (Some (s_head s)) (set_range (mkRange start 0)) in
  let s := modify s (Some (s_tail s)) (set_range (mkRange (start +w len) 0)) in
  with_range s (mkRange start len).

Definition IsEmpty s : bool := Nat.eqb (length (s_map s)) 0.

Definition FindArea s (key : Z) : Area :=
  if key <? r_start (s_range s) then SegArea (Some (s_head s))
  else if End_ (s_range s) <? key then SegArea (Some (s_tail s))
  else
    let entry :=
      match bt_last_le key (s_map s) with
      | None => Some (s_head s)
      | Some (_, v) => Some v
      end in
    if EntryOk s entry && Contains (ERange s entry) key then SegArea entry
    else GapArea entry.

Definition Find s (key : Z) : handle * handle :=
  let area := FindArea s key in (area_Seg area, area_Gap area).
Definition FindSeg s (key : Z) : handle := area_Seg (FindArea s key).
Definition FindGap s (key : Z) : handle := area_Gap (FindArea s key).

Definition IsEmptyRange s r : bool :=
  if r_len r =? 0 then true
  else
    let '(_, gap) := Find s (r_start r) in
    if negb (gap_Ok s gap) then false
    else End_ r <=? End_ (gap_Range s gap).

Definition FirstSeg s : handle := NextEntry s (Some (s_head s)).
Definition LastSeg s : handle := PrevEntry s (Some (s_tail s)).
Definition FirstGap s : handle := Some (s_head s).
Definition LastGap s : handle := PrevEntry s (Some (s_tail s)).

Definition LowerBoundSeg s (key : Z) : handle :=
  let '(seg, gap) := Find s key in
  if seg_Ok s seg then seg
  else if gap_Ok s gap then gap_NextSeg s gap
  else None.

Definition UpperBoundSeg s (key : Z) : handle :=
  let '(seg, gap) := Find s key in
  if seg_Ok s seg then seg
  else if gap_Ok s gap then gap_PrevSeg s gap
  else None.

Definition LowerBoundGap s (key : Z) : handle :=
  let '(seg, gap) := Find s key in
  if gap_Ok s gap then gap
  else if seg_Ok s seg then seg_NextGap s seg
  else None.

Definition UpperBoundGap s (key : Z) : handle :=
  let '(seg, gap) := Find s key in
  if gap_Ok s gap then gap
  else if seg_Ok s seg then seg_PrevGap s seg
  else None.

Fixpoint Span_loop (fuel : nat) s seg (sz : Z) : outcome Z :=
  match fuel with
  | O => OutOfFuel
  | S fuel =>
      if seg_Ok s seg then Span_loop fuel s (seg_NextSeg s seg) (sz +w r_len (ERange s seg))
      else Ret sz
  end.
Definition Span s : outcome Z := Span_loop (walk_fuel s) s (FirstSeg s) 0.

Fixpoint SpanRange_loop (fuel : nat) s r seg (res : Z) : outcome Z :=
  match fuel with
  | O => OutOfFuel
  | S fuel =>
      if seg_Ok s seg && (r_start (ERange s seg) <? End_ r)
      then SpanRange_loop fuel s r (seg_NextSeg s seg)
             (res +w r_len (Intersect (ERange s seg) r))
      else Ret res
  end.
Definition SpanRange s r : outcome Z :=
  if r_len r =? 0 then Ret 0
  else SpanRange_loop (walk_fuel s) s r (LowerBoundSeg s (r_start r)) 0.

Definition InsertWithoutMergingUnchecked s (gap : handle) r v : outcome (AreaSet W T * handle) :=
  let prev := gap_PrevSeg s gap in
  '(s, n) ← InsertAfter s prev r v;
  Ret (with_map s (bt_insert (r_start r) n (s_map s)), Some n).

Definition InsertWithoutMerging s (gap : handle) r v : outcome (AreaSet W T * handle) :=
  if negb (IsSupersetOf (gap_Range s gap) r) then Panic
  else InsertWithoutMergingUnchecked s gap r v.

Definition Remove s (e : handle) : outcome (AreaSet W T * handle) :=
  if negb (seg_Ok s e) then Panic
  else
    let prev := seg_PrevSeg s e in
    let s := with_map s (bt_remove (r_start (ERange s e)) (s_map s)) in
    s ← EntryRemove s e;
    Ret (s, seg_NextGap s prev).

(** [range.len += n] on the entry of [h]. *)
Definition grow (n : Z) (e : entry) : entry :=
  set_range (mkRange (r_start (e_range e)) (r_len (e_range e) +w n)) e.

(** The tail of [Insert]: merge with the successor, or link a new entry. *)
Definition Insert_next s (gap next : handle) r v : outcome (AreaSet W T * handle) :=
  if seg_Ok s next && (r_start (ERange s next) =? End_ r) then
    nv ← Value s next;
    match av_Merge (s_world s) r (ERange s next) v nv with
    | Some mval =>
        let s := modify s next (fun e => set_range (mkRange (r_start r) (r_len (e_range e))) e) in
        let s := modify s next (grow (r_len r)) in
        let s := modify s next (set_value (Some mval)) in
        match next with
        | Some n => Ret (with_map s (bt_insert (r_start r) n (bt_remove (End_ r) (s_map s))), next)
        | None => Panic
        end
    | None => InsertWithoutMergingUnchecked s gap r v
    end
  else InsertWithoutMergingUnchecked s gap r v.

Definition Insert s (gap : handle) r v : outcome (AreaSet W T * handle) :=
  let prev := gap_PrevSeg s gap in
  let next := gap_NextSeg s gap in
  if seg_Ok s prev && (r_start r <? End_ (ERange s prev)) then Panic
  else if seg_Ok s next && (r_start (ERange s next) <? End_ r) then Panic
  else
    let r1 := ERange s prev in
    if seg_Ok s prev && (End_ (ERange s prev) =? r_start r) then
      pv ← Value s prev;
      match av_Merge (s_world s) r1 r pv v with
      | Some mval =>
          let s := modify s prev (grow (r_len r)) in
          let s := modify s prev (set_value (Some mval)) in
          if seg_Ok s next && (r_start (ERange s next) =? End_ r) then
            let r1 := ERange s prev in
            let r2 := ERange s next in
            nv ← Value s next;
            match av_Merge (s_world s) r1 r2 mval nv with
            | Some mval2 =>
                let s := modify s prev (grow (r_len (ERange s next))) in
                let s := modify s prev (set_value (Some mval2)) in
                '(s, g) ← Remove s next;
                Ret (s, gap_PrevSeg s g)
            | None => Ret (s, prev)
            end
          else Ret (s, prev)
      | None => Insert_next s gap next r v
      end
    else Insert_next s gap next r v.

Definition Add s r v : outcome (AreaSet W T * bool) :=
  let gap := FindGap s (r_start r) in
  if negb (gap_Ok s gap) then Ret (s, false)
  else if End_ (gap_Range s gap) <? End_ r then Ret (s, false)
  else
    '(s, _) ← Insert s gap r v;
    Ret (s, true).

Definition AddWithoutMerging s r v : outcome (AreaSet W T * bool) :=
  let gap := FindGap s (r_start r) in
  if negb (gap_Ok s gap) then Ret (s, false)
  else if End_ (gap_Range s gap) <? End_ r then Ret (s, false)
  else
    '(s, _) ← InsertWithoutMergingUnchecked s gap r v;
    Ret (s, true).

Fixpoint RemoveAll_loop s (es : list (Z * ptr)) : outcome (AreaSet W T) :=
  match es with
  | [] => Ret s
  | (_, p) :: es => s ← EntryRemove s (Some p); RemoveAll_loop s es
  end.
Definition RemoveAll s : outcome (AreaSet W T) :=
  s ← RemoveAll_loop s (s_map s);
  Ret (with_map s []).

Definition SplitUnchecked s (seg : handle) (split : Z) : outcome (AreaSet W T * (handle * handle)) :=
  let range := ERange s seg in
  v ← Value s seg;
  let '((val1, val2), w) := av_Split (s_world s) range split v in
  let s := with_world s w in
  let end2 := End_ range in
  let s := modify s seg (fun e => set_range (mkRange (r_start (e_range e)) (split -w r_start range)) e) in
  let s := modify s seg (set_value (Some val1)) in
  g ← NextNonEmptyGap s seg;
  match g with
  | None => Panic
  | Some gap =>
      '(s, seg2) ← InsertWithoutMergingUnchecked s gap (mkRange split (end2 -w split)) val2;
      Ret (s, (seg_PrevSeg s seg2, seg2))
  end.

Definition SplitSeg s (seg : handle) (split : Z) : outcome (AreaSet W T * (handle * handle)) :=
  if negb (CanSplitAt (ERange s seg) split) then Panic else SplitUnchecked s seg split.

Definition SplitAt s (split : Z) : outcome (AreaSet W T * bool) :=
  let seg := FindSeg s split in
  if negb (seg_Ok s seg) then Ret (s, false)
  else if CanSplitAt (ERange s seg) split then
    '(s, _) ← SplitUnchecked s seg split;
    Ret (s, true)
  else Ret (s, false).

Definition Isolate s (seg : handle) r : outcome (AreaSet W T * handle) :=
  '(s, seg) ←
    (if CanSplitAt (ERange s seg) (r_start r) then
       '(s, (_, tmp)) ← SplitUnchecked s seg (r_start r); Ret (s, tmp)
     else Ret (s, seg));
  if CanSplitAt (ERange s seg) (End_ r) then
    '(s, (tmp, _)) ← SplitUnchecked s seg (End_ r); Ret (s, tmp)
  else Ret (s, seg).

Fixpoint RemoveRange_loop (fuel : nat) s r seg (gap : handle) : outcome (AreaSet W T * handle) :=
  match fuel with
  | O => OutOfFuel
  | S fuel =>
      if seg_Ok s seg && (r_start (ERange s seg) <? End_ r) then
        '(s, seg) ← Isolate s seg r;
        '(s, gap) ← Remove s seg;
        RemoveRange_loop fuel s r seg gap
      else Ret (s, gap)
  end.

Definition RemoveRange s r : outcome (AreaSet W T * handle) :=
  let '(seg, gap) := Find s (r_start r) in
  '(s, gap) ←
    (if seg_Ok s seg then
       '(s, seg) ← Isolate s seg r;
       Remove s seg
     else Ret (s, gap));
  let seg := gap_NextSeg s gap in
  RemoveRange_loop (walk_fuel s) s r seg gap.

Definition MergeUnchecked s (first second : handle) : outcome (AreaSet W T * handle) :=
  if negb (seg_Ok s first) || negb (seg_Ok s second) then Ret (s, None)
  else if End_ (ERange s first) =? r_start (ERange s second) then
    v1 ← Value s first;
    v2 ← Value s second;
    match av_Merge (s_world s) (ERange s first) (ERange s second) v1 v2 with
    | Some vma =>
        let s := modify s first (grow (r_len (ERange s second))) in
        let s := modify s first (set_value (Some vma)) in
        '(s, _) ← Remove s second;
        Ret (s, first)
    | None => Ret (s, None)
    end
  else Ret (s, None).

Definition MergeSeg s (first second : handle) : outcome (AreaSet W T * handle) :=
  if negb (seg_eq (seg_NextSeg s first) second) then Panic
  else MergeUnchecked s first second.

Fixpoint MergeAll_loop (fuel : nat) s (seg next : handle) : outcome (AreaSet W T) :=
  match fuel with
  | O => OutOfFuel
  | S fuel =>
      if seg_Ok s next then
        '(s, mseg) ← MergeUnchecked s seg next;
        if seg_Ok s mseg then MergeAll_loop fuel s mseg (seg_NextSeg s mseg)
        else MergeAll_loop fuel s next (seg_NextSeg s next)
      else Ret s
  end.

Definition MergeAll s : outcome (AreaSet W T) :=
  let seg := FirstSeg s in
  if negb (seg_Ok s seg) then Ret s
  else MergeAll_loop (walk_fuel s) s seg (seg_NextSeg s seg).

Fixpoint MergeRange_loop (fuel : nat) s r (seg next : handle) : outcome (AreaSet W T) :=
  match fuel with
  | O => OutOfFuel
  | S fuel =>
      if seg_Ok s next && (r_start (ERange s next) <? End_ r) then
        '(s, mseg) ← MergeUnchecked s seg next;
        if seg_Ok s mseg then MergeRange_loop fuel s r mseg (seg_NextSeg s mseg)
        else MergeRange_loop fuel s r next (seg_NextSeg s next)
      else Ret s
  end.

Definition MergeRange s r : outcome (AreaSet W T) :=
  let seg := LowerBoundSeg s (r_start r) in
  if negb (seg_Ok s seg) then Ret s
  else MergeRange_loop (walk_fuel s) s r seg (seg_NextSeg s seg).

Definition MergeAdjacent s r : outcome (AreaSet W T) :=
  let first := FindSeg s (r_start r) in
  s ←
    (if seg_Ok s first then
       let prev := seg_PrevSeg s first in
       if seg_Ok s prev then '(s, _) ← MergeSeg s prev first; Ret s else Ret s
     else Ret s);
  let last := FindSeg s (End_ r -w 1) in
  if seg_Ok s last then
    let next := seg_NextSeg s last in
    if seg_Ok s next then '(s, _) ← MergeSeg s last next; Ret s else Ret s
  else Ret s.

(** [f] is called on the entry; what it does to the set is a state change. *)
Fixpoint ApplyContiguous_loop (fuel : nat) s r (f : AreaSet W T -> handle -> AreaSet W T)
    (seg : handle) : outcome (AreaSet W T * handle) :=
  match fuel with
  | O => OutOfFuel
  | S fuel =>
      '(s, seg) ← Isolate s seg r;
      let s := f s seg in
      if End_ r <? End_ (ERange s seg) then Ret (s, None)
      else
        let gap := seg_NextGap s seg in
        if negb (gap_IsEmpty s gap) then Ret (s, gap)
        else
          let seg := gap_NextSeg s gap in
          if negb (seg_Ok s seg) then Ret (s, None)
          else ApplyContiguous_loop fuel s r f seg
  end.

Definition ApplyContiguous s r (f : AreaSet W T -> handle -> AreaSet W T)
    : outcome (AreaSet W T * handle) :=
  let '(seg, gap) := Find s (r_start r) in
  if negb (seg_Ok s seg) then Ret (s, gap)
  else ApplyContiguous_loop (walk_fuel s) s r f seg.
End Ops.

#[global] Arguments entry_at : simpl never.
#[global] Arguments modify : simpl never.
