(* ===== verification/AreaRep.v ===== *)
(** The representation invariant of [AreaSet]: the linked cells and the index map of
    a set stand for a list of disjoint, increasing segments. *)
From S2P Require Import Prelude BTree Range AreaSet.
#[local] Open Scope Z_scope.
#[local] Open Scope u64_scope.

(** A segment of the list: its entry, its range and its value. *)
Record seg (T : Type) : Type := mkSeg { sg_ptr : ptr; sg_range : Range; sg_val : T }.
Arguments mkSeg {T} _ _ _.
Arguments sg_ptr {T} _.
Arguments sg_range {T} _.
Arguments sg_val {T} _.

(** A cell of the list, the head and the tail included. *)
Record row (T : Type) : Type := mkRow { rw_ptr : ptr; rw_range : Range; rw_val : option T }.
Arguments mkRow {T} _ _ _.
Arguments rw_ptr {T} _.
Arguments rw_range {T} _.
Arguments rw_val {T} _.

Definition sg_start {T} (g : seg T) : Z := r_start (sg_range g).
Definition sg_end {T} (g : seg T) : Z := r_start (sg_range g) + r_len (sg_range g).

(** ** Doubly linked chains of cells *)

Section Chain.
Context {T : Type}.
Implicit Types (c : gmap ptr (AreaEntryInternal T)) (x y : row T) (l : list (row T)).

Definition first_ptr l (nx : option ptr) : option ptr :=
  match l with [] => nx | x :: _ => Some (rw_ptr x) end.
Definition last_ptr (pv : option ptr) l : option ptr :=
  match last l with None => pv | Some x => Some (rw_ptr x) end.

Fixpoint chain c (pv : option ptr) l (nx : option ptr) : Prop :=
  match l with
  | [] => True
  | x :: l' =>
      c !! rw_ptr x = Some (mkEntry (rw_range x) (rw_val x) pv (first_ptr l' nx)) /\
      chain c (Some (rw_ptr x)) l' nx
  end.

Lemma last_ptr_cons pv x l : last_ptr pv (x :: l) = last_ptr (Some (rw_ptr x)) l.
Proof. unfold last_ptr. rewrite last_cons. by destruct (last l). Qed.

Lemma last_ptr_snoc pv l x : last_ptr pv (l ++ [x]) = Some (rw_ptr x).
Proof. unfold last_ptr. by rewrite last_snoc. Qed.

Lemma first_ptr_app l1 l2 nx : first_ptr (l1 ++ l2) nx = first_ptr l1 (first_ptr l2 nx).
Proof. by destruct l1. Qed.

Lemma chain_app c pv l1 l2 nx :
  chain c pv (l1 ++ l2) nx <->
  chain c pv l1 (first_ptr l2 nx) /\ chain c (last_ptr pv l1) l2 nx.
Proof.
  revert pv. induction l1 as [| x l1 IH]; intros pv; simpl.
  - unfold last_ptr. simpl. tauto.
  - rewrite IH, last_ptr_cons, first_ptr_app. tauto.
Qed.

Lemma chain_frame c c' pv l nx :
  (forall x, x ∈ l -> c' !! rw_ptr x = c !! rw_ptr x) -> chain c pv l nx -> chain c' pv l nx.
Proof.
  revert pv. induction l as [| x l IH]; intros pv Hf; simpl; [done |].
  intros [Hx Hc]. split.
  - rewrite Hf; [done | left].
  - apply IH; [| done]. intros y Hy. apply Hf. by right.
Qed.

Lemma NoDup_ptrs_frame l x c f :
  rw_ptr x ∉ rw_ptr <$> l ->
  forall y, y ∈ l -> (alter f (rw_ptr x) c : gmap ptr (AreaEntryInternal T)) !! rw_ptr y = c !! rw_ptr y.
Proof.
  intros Hx y Hy. apply lookup_alter_ne. intros E. apply Hx. rewrite E.
  apply list_elem_of_fmap. eauto.
Qed.

(** Rewriting the range and the value of one cell. *)
Lemma chain_update c pv l1 x y l2 nx f :
  NoDup (rw_ptr <$> (l1 ++ x :: l2)) ->
  rw_ptr y = rw_ptr x ->
  (forall pv nx, f (mkEntry (rw_range x) (rw_val x) pv nx) = mkEntry (rw_range y) (rw_val y) pv nx) ->
  chain c pv (l1 ++ x :: l2) nx -> chain (alter f (rw_ptr x) c) pv (l1 ++ y :: l2) nx.
Proof.
  intros Hnd Hp Hf. rewrite fmap_app, fmap_cons in Hnd.
  apply NoDup_app in Hnd as (Hnd1 & Hdis & Hnd2). apply NoDup_cons in Hnd2 as [Hx Hnd2].
  assert (rw_ptr x ∉ rw_ptr <$> l1) as Hx1 by (intros ?; eapply Hdis; [done | left]).
  rewrite !chain_app. simpl. rewrite Hp. intros (H1 & Hc & H2). split_and!.
  - eapply chain_frame; [by apply NoDup_ptrs_frame | done].
  - rewrite lookup_alter_eq, Hc. simpl. by rewrite Hf.
  - eapply chain_frame; [by apply NoDup_ptrs_frame | done].
Qed.

Lemma chain_off c c' pv l nx (P : list ptr) :
  (forall p, p ∉ P -> c' !! p = c !! p) -> (forall p, p ∈ P -> p ∉ rw_ptr <$> l) ->
  chain c pv l nx -> chain c' pv l nx.
Proof.
  intros Hoff Hd. apply chain_frame. intros x Hx. apply Hoff. intros Hp.
  apply (Hd _ Hp), list_elem_of_fmap. eauto.
Qed.

(** Linking a new cell between two neighbours. *)
Lemma chain_link c pv l1 a b l2 nx n r v :
  NoDup (rw_ptr <$> (l1 ++ a :: b :: l2)) ->
  n ∉ rw_ptr <$> (l1 ++ a :: b :: l2) ->
  chain c pv (l1 ++ a :: b :: l2) nx ->
  chain
    (alter (set_next (Some (rw_ptr b))) n
       (alter (set_prev (Some n)) (rw_ptr b)
          (alter (set_prev (Some (rw_ptr a))) n
             (alter (set_next (Some n)) (rw_ptr a) (<[n := mkEntry r v None None]> c)))))
    pv (l1 ++ a :: mkRow n r v :: b :: l2) nx.
Proof.
  intros Hnd Hn Hc. rewrite !fmap_app, !fmap_cons in Hnd, Hn.
  apply NoDup_app in Hnd as (Hnd1 & Hdis & Hnd2).
  apply NoDup_cons in Hnd2 as [Ha Hnd2]. apply NoDup_cons in Hnd2 as [Hb Hnd2].
  rewrite chain_app in Hc. simpl in Hc. destruct Hc as (H1 & Hca & Hcb & H2).
  rewrite not_elem_of_app, !not_elem_of_cons in Hn. rewrite not_elem_of_cons in Ha.
  destruct Hn as (Hn1 & Hna & Hnb & Hn2), Ha as [Hab Ha2].
  assert (Ha1 : rw_ptr a ∉ rw_ptr <$> l1) by (intros ?; eapply Hdis; [done | left]).
  assert (Hb1 : rw_ptr b ∉ rw_ptr <$> l1) by (intros ?; eapply Hdis; [done | right; left]).
  rewrite chain_app. simpl. split_and!.
  - eapply (chain_off c _ _ _ _ [n; rw_ptr a; rw_ptr b]); [| | exact H1].
    + intros p Hp. rewrite !lookup_alter_ne, lookup_insert_ne by set_solver. done.
    + set_solver.
  - rewrite !lookup_alter_ne, lookup_alter_eq, lookup_insert_ne, Hca by done. done.
  - rewrite lookup_alter_eq, lookup_alter_ne, lookup_alter_eq, lookup_alter_ne, lookup_insert_eq by done.
    done.
  - rewrite lookup_alter_ne, lookup_alter_eq, !lookup_alter_ne, lookup_insert_ne, Hcb by done. done.
  - eapply (chain_off c _ _ _ _ [n; rw_ptr a; rw_ptr b]); [| | exact H2].
    + intros p Hp. rewrite !lookup_alter_ne, lookup_insert_ne by set_solver. done.
    + set_solver.
Qed.

(** Unlinking a cell from between its neighbours. *)
Lemma chain_unlink c pv l1 a x b l2 nx :
  NoDup (rw_ptr <$> (l1 ++ a :: x :: b :: l2)) ->
  chain c pv (l1 ++ a :: x :: b :: l2) nx ->
  chain
    (alter (set_prev (Some (rw_ptr a))) (rw_ptr b)
       (alter (set_next (Some (rw_ptr b))) (rw_ptr a)
          (alter (fun e => set_next None (set_prev None e)) (rw_ptr x) c)))
    pv (l1 ++ a :: b :: l2) nx.
Proof.
  intros Hnd Hc. rewrite !fmap_app, !fmap_cons in Hnd.
  apply NoDup_app in Hnd as (Hnd1 & Hdis & Hnd2).
  apply NoDup_cons in Hnd2 as [Ha Hnd2]. apply NoDup_cons in Hnd2 as [Hx Hnd2].
  apply NoDup_cons in Hnd2 as [Hb Hnd2].
  rewrite chain_app in Hc. simpl in Hc. destruct Hc as (H1 & Hca & Hcx & Hcb & H2).
  rewrite !not_elem_of_cons in Ha. rewrite !not_elem_of_cons in Hx. destruct Ha as (Hax & Hab & Ha2), Hx as (Hxb & Hx2).
  assert (Hd1 : forall p, p ∈ [rw_ptr a; rw_ptr x; rw_ptr b] -> p ∉ rw_ptr <$> l1).
  { intros p Hp Hp1. apply (Hdis p Hp1). set_solver. }
  rewrite chain_app. simpl. split_and!.
  - eapply (chain_off c _ _ _ _ [rw_ptr a; rw_ptr x; rw_ptr b]); [| done | exact H1].
    intros p Hp. rewrite !lookup_alter_ne by set_solver. done.
  - rewrite lookup_alter_ne, lookup_alter_eq, lookup_alter_ne, Hca by done. done.
  - rewrite lookup_alter_eq, !lookup_alter_ne, Hcb by done. done.
  - eapply (chain_off c _ _ _ _ [rw_ptr a; rw_ptr x; rw_ptr b]); [| set_solver | exact H2].
    intros p Hp. rewrite !lookup_alter_ne by set_solver. done.
Qed.
End Chain.

(** ** Sets *)

Section Rep.
Context {W T : Type} `{AV : AreaValue W T}.
Implicit Types (s : AreaSet W T) (l : list (seg T)) (g : seg T).

Definition seg_row g : row T := mkRow (sg_ptr g) (sg_range g) (Some (sg_val g)).
Definition head_row s : row T := mkRow (s_head s) (mkRange (r_start (s_range s)) 0) None.
Definition tail_row s : row T := mkRow (s_tail s) (mkRange (End_ (s_range s)) 0) None.

Definition rowsL s l : list (row T) := head_row s :: (seg_row <$> l).
Definition rowsR s l : list (row T) := (seg_row <$> l) ++ [tail_row s].
Definition rows s l : list (row T) := rowsL s l ++ [tail_row s].

(** Segments are nonempty, increasing and disjoint, between [lo] and [hi]. *)
Fixpoint ordered (lo : Z) l (hi : Z) : Prop :=
  match l with
  | [] => lo <= hi
  | g :: l' => lo <= sg_start g /\ 0 < r_len (sg_range g) /\ ordered (sg_end g) l' hi
  end.

Definition index_of l : list (Z * ptr) := (fun g => (sg_start g, sg_ptr g)) <$> l.

(** The cells of [s] form the list [l]. *)
Record Linked s l : Prop := {
  lk_chain : chain (s_cells s) None (rows s l) None;
  lk_nodup : NoDup (rw_ptr <$> rows s l);
  lk_fresh : Forall (fun x => (rw_ptr x < s_fresh s)%positive) (rows s l);
}.

Record Rep s l : Prop := {
  rep_linked : Linked s l;
  rep_index : s_map s = index_of l;
  rep_order : ordered (r_start (s_range s)) l (End_ (s_range s));
  rep_bounds : 0 <= r_start (s_range s) /\ End_ (s_range s) <= U64_MAX;
}.

(** The ends of the gap between [l1] and [l2], and the entries around it. *)
Definition lo_end s l : Z := match last l with None => r_start (s_range s) | Some g => sg_end g end.
Definition hi_start s l : Z := match l with [] => End_ (s_range s) | g :: _ => sg_start g end.
Definition prev_ptr s l : ptr := match last l with None => s_head s | Some g => sg_ptr g end.
Definition next_ptr s l : ptr := match l with [] => s_tail s | g :: _ => sg_ptr g end.

Lemma rows_split s l1 l2 : rows s (l1 ++ l2) = rowsL s l1 ++ rowsR s l2.
Proof. unfold rows, rowsL, rowsR. rewrite fmap_app. simpl. by rewrite <- (assoc_L (++)). Qed.

Lemma rows_middle s l1 g l2 : rows s (l1 ++ g :: l2) = rowsL s l1 ++ seg_row g :: rowsR s l2.
Proof. by rewrite rows_split. Qed.

Lemma rowsL_snoc s l g : rowsL s (l ++ [g]) = rowsL s l ++ [seg_row g].
Proof. unfold rowsL. by rewrite fmap_app. Qed.

Lemma last_ptr_rowsL s l : last_ptr None (rowsL s l) = Some (prev_ptr s l).
Proof.
  unfold prev_ptr. destruct l as [| g l _] using rev_ind; [done |].
  rewrite rowsL_snoc, last_ptr_snoc, last_snoc. done.
Qed.

Lemma first_ptr_rowsR s l : first_ptr (rowsR s l) None = Some (next_ptr s l).
Proof. by destruct l. Qed.

(** ** Ordered lists *)

Lemma ordered_app lo l1 l2 hi :
  ordered lo (l1 ++ l2) hi <->
  ordered lo l1 (match last l1 with None => lo | Some g => sg_end g end) /\
  ordered (match last l1 with None => lo | Some g => sg_end g end) l2 hi.
Proof.
  revert lo. induction l1 as [| g l1 IH]; intros lo.
  - simpl. split; [intros H; split; [lia | done] | tauto].
  - cbn [ordered app]. rewrite IH, last_cons. destruct (last l1); tauto.
Qed.

Lemma ordered_lo_hi lo l hi : ordered lo l hi -> lo <= hi.
Proof.
  revert lo. induction l as [| g l IH]; intros lo; simpl; [done |].
  intros (H1 & H2 & H3). apply IH in H3. unfold sg_start, sg_end in *. lia.
Qed.

Lemma ordered_weaken lo lo' l hi hi' :
  lo' <= lo -> hi <= hi' -> ordered lo l hi -> ordered lo' l hi'.
Proof.
  revert lo lo'. induction l as [| g l IH]; intros lo lo' Hlo Hhi; simpl; [lia |].
  intros (H1 & H2 & H3). split_and!; [lia | done |]. eapply IH; [| | exact H3]; lia.
Qed.

Lemma ordered_last lo l hi :
  ordered lo l hi ->
  lo <= match last l with None => lo | Some g => sg_end g end <= hi.
Proof.
  intros H. rewrite <- (app_nil_r l) in H. apply ordered_app in H as [H1 H2].
  apply ordered_lo_hi in H1. simpl in H2. lia.
Qed.

Lemma ordered_elem lo l hi g :
  ordered lo l hi -> g ∈ l -> lo <= sg_start g /\ 0 < r_len (sg_range g) /\ sg_end g <= hi.
Proof.
  revert lo. induction l as [| g' l IH]; intros lo; simpl; [set_solver |].
  intros (H1 & H2 & H3) [-> | Hg]%elem_of_cons.
  - split_and!; auto. by apply ordered_lo_hi in H3.
  - destruct (IH _ H3 Hg) as (? & ? & ?). unfold sg_start, sg_end in *. split_and!; auto; lia.
Qed.

Lemma ordered_keys_gt lo l hi k : ordered lo l hi -> k < lo -> keys_gt (index_of l) k.
Proof.
  intros Ho Hk. apply Forall_fmap, Forall_forall. intros g Hg.
  destruct (ordered_elem _ _ _ _ Ho Hg) as (? & _). simpl. lia.
Qed.

Lemma ordered_keys_lt lo l hi k : ordered lo l hi -> hi <= k -> keys_lt (index_of l) k.
Proof.
  intros Ho Hk. apply Forall_fmap, Forall_forall. intros g Hg.
  destruct (ordered_elem _ _ _ _ Ho Hg) as (? & ? & ?). simpl. unfold sg_end, sg_start in *. lia.
Qed.

Lemma ordered_sorted lo l hi : ordered lo l hi -> bt_sorted (index_of l).
Proof.
  revert lo. induction l as [| g l IH]; intros lo; simpl; [constructor |].
  intros (H1 & H2 & H3). apply bt_sorted_cons. split; [| by eapply IH].
  eapply ordered_keys_gt; [exact H3 |]. unfold sg_end, sg_start. simpl. lia.
Qed.
End Rep.

#[export] Hint Resolve ordered_sorted : quark.
