(* ===== verification/AreaSpec.v ===== *)
(** The operations of [AreaSet] on represented sets: what an iterator reads, and what
    every operation that changes the set does to the list of segments. *)
From S2P Require Import Prelude BTree Range AreaSet AreaRep.
#[local] Open Scope Z_scope.
#[local] Open Scope u64_scope.

Section Spec.
Context {W T : Type} `{AV : AreaValue W T}.
Implicit Types (s : AreaSet W T) (l : list (seg T)) (g : seg T) (r : Range) (v : T).

(** ** Reading cells *)

Lemma entry_seg s l1 g l2 :
  Linked s (l1 ++ g :: l2) ->
  entry_at s (Some (sg_ptr g)) =
    mkEntry (sg_range g) (Some (sg_val g)) (Some (prev_ptr s l1)) (Some (next_ptr s l2)).
Proof.
  intros H. pose proof (lk_chain _ _ H) as Hc. rewrite rows_middle, chain_app in Hc.
  destruct Hc as [_ [Hc _]]. unfold entry_at. simpl in *.
  rewrite Hc, last_ptr_rowsL, first_ptr_rowsR. done.
Qed.

Lemma entry_head s l :
  Linked s l ->
  entry_at s (Some (s_head s)) =
    mkEntry (mkRange (r_start (s_range s)) 0) None None (Some (next_ptr s l)).
Proof.
  intros H. pose proof (lk_chain _ _ H) as Hc. change l with ([] ++ l) in Hc at 1.
  rewrite rows_split in Hc. destruct Hc as [Hc _]. unfold entry_at. simpl in *. rewrite Hc. rewrite first_ptr_rowsR. done.
Qed.

Lemma entry_tail s l :
  Linked s l ->
  entry_at s (Some (s_tail s)) =
    mkEntry (mkRange (End_ (s_range s)) 0) None (Some (prev_ptr s l)) None.
Proof.
  intros H. pose proof (lk_chain _ _ H) as Hc. unfold rows in Hc. rewrite chain_app in Hc.
  destruct Hc as [_ [Hc _]]. unfold entry_at. simpl in *. rewrite Hc, last_ptr_rowsL. done.
Qed.

Lemma rep_bounds_seg s l g :
  Rep s l -> g ∈ l -> proper (sg_range g) /\ 0 < r_len (sg_range g) /\ 0 <= sg_start g /\
    r_start (s_range s) <= sg_start g /\ sg_end g <= End_ (s_range s) <= U64_MAX.
Proof.
  intros H Hg. destruct (ordered_elem _ _ _ _ (rep_order _ _ H) Hg) as (H1 & H2 & H3).
  destruct (rep_bounds _ _ H). unfold sg_start, sg_end, proper in *. split_and!; u64.
Qed.

Lemma End_seg s l g : Rep s l -> g ∈ l -> End_ (sg_range g) = sg_end g.
Proof. intros H Hg. destruct (rep_bounds_seg _ _ _ H Hg) as [Hp _]. by rewrite End_proper. Qed.

Lemma elem_middle l1 g l2 : g ∈ l1 ++ g :: l2.
Proof. apply elem_of_app. right. left. Qed.
#[local] Hint Resolve elem_middle : core.

Lemma End_start r : in64 (r_start r) -> r_len r = 0 -> End_ r = r_start r.
Proof. intros Hs Hl. unfold End_. rewrite Hl. simpl. rewrite add64_small; [lia | u64]. Qed.

(** The entry before a gap. *)
Lemma entry_prev s l1 l2 :
  Rep s (l1 ++ l2) ->
  exists r (ov : option T) pv,
    entry_at s (Some (prev_ptr s l1)) = mkEntry r ov pv (Some (next_ptr s l2)) /\
    End_ r = lo_end s l1 /\ is_none pv = bool_decide (l1 = []).
Proof.
  intros H. unfold prev_ptr, lo_end. destruct l1 as [| g l1 _] using rev_ind.
  - simpl in *. rewrite (entry_head _ _ (rep_linked _ _ H)). do 3 eexists. split; [done |].
    destruct (rep_bounds _ _ H). pose proof (ordered_lo_hi _ _ _ (rep_order _ _ H)).
    split; [| done]. rewrite End_start; simpl; [done | u64 | done].
  - rewrite !last_snoc. rewrite <- (assoc_L (++)) in H. simpl in H.
    rewrite (entry_seg _ _ _ _ (rep_linked _ _ H)). do 3 eexists. split; [done |].
    rewrite (End_seg _ _ _ H) by auto. split; [done |].
    rewrite bool_decide_eq_false_2; [done |]. by destruct l1.
Qed.

(** The entry after a gap. *)
Lemma entry_next s l1 l2 :
  Rep s (l1 ++ l2) ->
  exists r (ov : option T) nx,
    entry_at s (Some (next_ptr s l2)) = mkEntry r ov (Some (prev_ptr s l1)) nx /\
    r_start r = hi_start s l2 /\ is_none nx = bool_decide (l2 = []).
Proof.
  intros H. destruct l2 as [| g l2]; simpl.
  - rewrite app_nil_r in H. rewrite (entry_tail _ _ (rep_linked _ _ H)). do 3 eexists. split; [done |]. done.
  - rewrite (entry_seg _ _ _ _ (rep_linked _ _ H)). do 3 eexists. done.
Qed.

Lemma prev_ptr_snoc s l g : prev_ptr s (l ++ [g]) = sg_ptr g.
Proof. unfold prev_ptr. by rewrite last_snoc. Qed.

Lemma lo_end_snoc s l g : lo_end s (l ++ [g]) = sg_end g.
Proof. unfold lo_end. by rewrite last_snoc. Qed.

(** The two ends of a gap are in order. *)
Lemma gap_bounds s l1 l2 :
  Rep s (l1 ++ l2) ->
  0 <= r_start (s_range s) <= lo_end s l1 /\ lo_end s l1 <= hi_start s l2 /\
  hi_start s l2 <= End_ (s_range s) <= U64_MAX.
Proof.
  intros H. destruct (rep_bounds _ _ H). pose proof (rep_order _ _ H) as Ho.
  apply ordered_app in Ho as [Ho1 Ho2]. fold (lo_end s l1) in Ho1, Ho2.
  pose proof (ordered_lo_hi _ _ _ Ho1). pose proof (ordered_lo_hi _ _ _ Ho2).
  destruct l2 as [| g l2]; simpl in *; [lia |]. destruct Ho2 as (H1' & H2' & H3').
  apply ordered_lo_hi in H3'. unfold sg_start, sg_end in *. lia.
Qed.

(** ** Iterators *)

Section Gap.
Context (s : AreaSet W T) (l1 l2 : list (seg T)) (H : Rep s (l1 ++ l2)).

Lemma gap_Ok_rep : gap_Ok s (Some (prev_ptr s l1)) = true.
Proof.
  unfold gap_Ok, IsTail. destruct (entry_prev _ _ _ H) as (r & v & pv & -> & _). done.
Qed.

Lemma gap_PrevSeg_rep : gap_PrevSeg s (Some (prev_ptr s l1)) = Some (prev_ptr s l1).
Proof. unfold gap_PrevSeg. by rewrite gap_Ok_rep. Qed.

Lemma NextEntry_rep : NextEntry s (Some (prev_ptr s l1)) = Some (next_ptr s l2).
Proof. unfold NextEntry. destruct (entry_prev _ _ _ H) as (r & v & pv & -> & _). done. Qed.

Lemma gap_NextSeg_rep : gap_NextSeg s (Some (prev_ptr s l1)) = Some (next_ptr s l2).
Proof. unfold gap_NextSeg. by rewrite gap_Ok_rep, NextEntry_rep. Qed.

Lemma seg_NextSeg_prev : seg_NextSeg s (Some (prev_ptr s l1)) = Some (next_ptr s l2).
Proof.
  unfold seg_NextSeg. pose proof gap_Ok_rep as Hg. unfold gap_Ok in Hg.
  destruct (IsTail _ _); [done | apply NextEntry_rep].
Qed.

Lemma seg_NextGap_prev : seg_NextGap s (Some (prev_ptr s l1)) = Some (prev_ptr s l1).
Proof.
  unfold seg_NextGap. pose proof gap_Ok_rep as Hg. unfold gap_Ok in Hg.
  by destruct (IsTail _ _).
Qed.

Lemma gap_Range_rep :
  gap_Range s (Some (prev_ptr s l1)) = mkRange (lo_end s l1) (hi_start s l2 - lo_end s l1).
Proof.
  unfold gap_Range. rewrite gap_Ok_rep, NextEntry_rep. simpl. unfold ERange.
  destruct (entry_prev _ _ _ H) as (r & v & pv & E1 & E2 & _).
  destruct (entry_next _ _ _ H) as (r' & v' & nx & E3 & E4 & _).
  rewrite E1, E3. simpl. rewrite E2, E4.
  destruct (gap_bounds _ _ _ H) as (? & ? & ?). rewrite sub64_small by u64. done.
Qed.

Lemma gap_Range_proper : proper (gap_Range s (Some (prev_ptr s l1))).
Proof.
  rewrite gap_Range_rep. destruct (gap_bounds _ _ _ H) as (? & ? & ?).
  unfold proper. simpl. split_and!; u64.
Qed.

Lemma gap_End_rep : End_ (gap_Range s (Some (prev_ptr s l1))) = hi_start s l2.
Proof. rewrite (End_proper _ gap_Range_proper), gap_Range_rep. simpl. lia. Qed.

Lemma seg_Ok_next : seg_Ok s (Some (next_ptr s l2)) = negb (bool_decide (l2 = [])).
Proof.
  unfold seg_Ok, EntryOk. destruct (entry_next _ _ _ H) as (r & v & nx & -> & _ & E).
  simpl. by rewrite E.
Qed.

Lemma seg_Ok_prev : seg_Ok s (Some (prev_ptr s l1)) = negb (bool_decide (l1 = [])).
Proof.
  unfold seg_Ok, EntryOk. destruct (entry_prev _ _ _ H) as (r & v & pv & -> & _ & E).
  simpl. rewrite E. by rewrite orb_false_r.
Qed.

Lemma start_next : r_start (ERange s (Some (next_ptr s l2))) = hi_start s l2.
Proof. unfold ERange. destruct (entry_next _ _ _ H) as (r & v & nx & -> & E & _). exact E. Qed.

Lemma End_prev : End_ (ERange s (Some (prev_ptr s l1))) = lo_end s l1.
Proof. unfold ERange. destruct (entry_prev _ _ _ H) as (r & v & pv & -> & E & _). exact E. Qed.
End Gap.

Section Seg.
Context (s : AreaSet W T) (l1 : list (seg T)) (g : seg T) (l2 : list (seg T)).
Context (H : Rep s (l1 ++ g :: l2)).

Lemma Rep_after : Rep s ((l1 ++ [g]) ++ l2).
Proof. by rewrite <- (assoc_L (++)). Qed.

Lemma seg_Ok_rep : seg_Ok s (Some (sg_ptr g)) = true.
Proof. unfold seg_Ok, EntryOk. by rewrite (entry_seg _ _ _ _ (rep_linked _ _ H)). Qed.

Lemma seg_Value_rep : Value s (Some (sg_ptr g)) = Ret (sg_val g).
Proof. unfold Value. by rewrite (entry_seg _ _ _ _ (rep_linked _ _ H)). Qed.

Lemma ERange_rep : ERange s (Some (sg_ptr g)) = sg_range g.
Proof. unfold ERange. by rewrite (entry_seg _ _ _ _ (rep_linked _ _ H)). Qed.

Lemma seg_NextSeg_rep : seg_NextSeg s (Some (sg_ptr g)) = Some (next_ptr s l2).
Proof. rewrite <- (prev_ptr_snoc s l1 g). apply (seg_NextSeg_prev s _ _ Rep_after). Qed.

Lemma seg_PrevSeg_rep : seg_PrevSeg s (Some (sg_ptr g)) = Some (prev_ptr s l1).
Proof. unfold seg_PrevSeg, IsHead, PrevEntry. by rewrite (entry_seg _ _ _ _ (rep_linked _ _ H)). Qed.

Lemma seg_NextGap_rep : seg_NextGap s (Some (sg_ptr g)) = Some (sg_ptr g).
Proof. rewrite <- (prev_ptr_snoc s l1 g). apply (seg_NextGap_prev s _ _ Rep_after). Qed.

Lemma seg_End_rep : End_ (sg_range g) = sg_end g.
Proof. by apply (End_seg _ _ _ H). Qed.
End Seg.

(** ** Find *)

(** A key of the set is in a segment or in a gap. *)
Inductive located s l (key : Z) : Area -> Prop :=
| located_seg l1 g l2 :
    l = l1 ++ g :: l2 -> covers (sg_range g) key ->
    located s l key (SegArea (Some (sg_ptr g)))
| located_gap l1 l2 :
    l = l1 ++ l2 -> lo_end s l1 <= key -> (l2 <> [] -> key < hi_start s l2) ->
    located s l key (GapArea (Some (prev_ptr s l1))).

Lemma index_app l1 l2 : index_of (l1 ++ l2) = index_of l1 ++ index_of l2.
Proof. unfold index_of. by rewrite fmap_app. Qed.

Lemma index_middle l1 g l2 :
  index_of (l1 ++ g :: l2) = index_of l1 ++ (sg_start g, sg_ptr g) :: index_of l2.
Proof. by rewrite index_app. Qed.

Lemma split_at_key lo l hi key :
  ordered lo l hi ->
  exists l1 l2, l = l1 ++ l2 /\ Forall (fun g => sg_start g <= key) l1 /\
    keys_gt (index_of l2) key.
Proof.
  revert lo. induction l as [| g l IH]; intros lo; simpl.
  - intros _. exists [], []. split_and!; constructor.
  - intros (H1 & H2 & H3). destruct (Z.leb_spec (sg_start g) key) as [Hle | Hlt].
    + destruct (IH _ H3) as (l1 & l2 & -> & Hl1 & Hl2).
      exists (g :: l1), l2. split_and!; auto.
    + exists [], (g :: l). split_and!; auto. constructor; [done |].
      eapply ordered_keys_gt; [exact H3 |]. unfold sg_end, sg_start in *. lia.
Qed.

Lemma FindArea_rep s l key :
  Rep s l -> r_start (s_range s) <= key <= End_ (s_range s) ->
  located s l key (FindArea s key).
Proof.
  intros H Hk. unfold FindArea.
  destruct (Z.ltb_spec key (r_start (s_range s))); [lia |].
  destruct (Z.ltb_spec (End_ (s_range s)) key); [lia |].
  destruct (split_at_key _ _ _ key (rep_order _ _ H)) as (l1 & l2 & -> & Hl1 & Hl2).
  rewrite (rep_index _ _ H).
  destruct l1 as [| g l1 _] using rev_ind.
  - cbn [app] in *. rewrite (bt_last_le_none _ _ Hl2).
    pose proof (seg_Ok_prev s [] l2 H) as Hok. unfold prev_ptr, seg_Ok in Hok. simpl in Hok.
    rewrite Hok. simpl. apply (located_gap s l2 key [] l2); [done | unfold lo_end; simpl; lia |].
    intros Hne. destruct l2 as [| g l2]; [done |]. by apply Forall_inv in Hl2.
  - apply Forall_app in Hl1 as [_ Hg]. apply Forall_inv in Hg.
    rewrite <- (assoc_L (++)) in H |- *. simpl in H |- *. rewrite index_middle.
    pose proof (rep_order _ _ H) as Ho. apply ordered_app in Ho as [Ho1 [Hog _]].
    rewrite (bt_last_le_at (index_of l1) (index_of l2) key (sg_start g) (sg_ptr g)); auto.
    2: { eapply ordered_keys_lt; [exact Ho1 | exact Hog]. }
    pose proof (seg_Ok_rep s l1 g l2 H) as Hok. unfold seg_Ok in Hok. rewrite Hok.
    rewrite (ERange_rep s l1 g l2 H).
    destruct (rep_bounds_seg _ _ g H) as [Hp _]; [auto |].
    destruct (Contains (sg_range g) key) eqn:Hc; simpl.
    + apply (located_seg s _ key l1 g l2); [done |].
      by apply (Contains_proper _ key Hp).
    + rewrite <- (prev_ptr_snoc s l1 g).
      apply (located_gap s _ key (l1 ++ [g]) l2); [by rewrite <- (assoc_L (++)) | |].
      * rewrite lo_end_snoc. destruct (Z.le_gt_cases (sg_end g) key); [done |].
        exfalso. rewrite <- not_true_iff_false in Hc. apply Hc, (Contains_proper _ key Hp).
        unfold covers, sg_start, sg_end in *. lia.
      * intros Hne. destruct l2 as [| g2 l2]; [done |]. by apply Forall_inv in Hl2.
Qed.
End Spec.
