(* ===== verification/AreaOps.v ===== *)
(** The operations that change an [AreaSet], on represented sets. *)
From S2P Require Import Prelude BTree Range AreaSet AreaRep AreaSpec.
#[local] Open Scope Z_scope.
#[local] Open Scope u64_scope.

Section Ops.
Context {W T : Type} `{AV : AreaValue W T}.
Implicit Types (s : AreaSet W T) (l : list (seg T)) (g : seg T) (r : Range) (v : T).

(** [s'] is a later state of the same set. *)
Definition same s s' : Prop :=
  s_range s' = s_range s /\ s_head s' = s_head s /\ s_tail s' = s_tail s.

Lemma same_refl s : same s s.
Proof. done. Qed.

Lemma same_trans s1 s2 s3 : same s1 s2 -> same s2 s3 -> same s1 s3.
Proof. unfold same. intros (? & ? & ?) (? & ? & ?). split_and!; congruence. Qed.

Lemma same_rows s s' l : same s s' -> rows s' l = rows s l.
Proof. intros (H1 & H2 & H3). unfold rows, rowsL, head_row, tail_row. by rewrite H1, H2, H3. Qed.

Lemma same_prev s s' l : same s s' -> prev_ptr s' l = prev_ptr s l.
Proof. intros (H1 & H2 & H3). unfold prev_ptr. by rewrite H2. Qed.

Lemma same_next s s' l : same s s' -> next_ptr s' l = next_ptr s l.
Proof. intros (H1 & H2 & H3). unfold next_ptr. by rewrite H3. Qed.

Lemma same_lo s s' l : same s s' -> lo_end s' l = lo_end s l.
Proof. intros (H1 & H2 & H3). unfold lo_end. by rewrite H1. Qed.

Lemma same_hi s s' l : same s s' -> hi_start s' l = hi_start s l.
Proof. intros (H1 & H2 & H3). unfold hi_start. by rewrite H1. Qed.

Lemma rowsL_last s l : exists L a, rowsL s l = L ++ [a] /\ rw_ptr a = prev_ptr s l.
Proof.
  unfold prev_ptr. destruct l as [| g l _] using rev_ind.
  - exists [], (head_row s). done.
  - rewrite rowsL_snoc, last_snoc. exists (rowsL s l), (seg_row g). done.
Qed.

Lemma rowsR_first s l : exists b R, rowsR s l = b :: R /\ rw_ptr b = next_ptr s l.
Proof.
  destruct l as [| g l].
  - exists (tail_row s), []. done.
  - exists (seg_row g), (rowsR s l). done.
Qed.

(** ** Cells *)

Lemma Linked_update s l1 g g' l2 f :
  Linked s (l1 ++ g :: l2) -> sg_ptr g' = sg_ptr g ->
  (forall pv nx, f (mkEntry (sg_range g) (Some (sg_val g)) pv nx) =
                 mkEntry (sg_range g') (Some (sg_val g')) pv nx) ->
  Linked (modify s (Some (sg_ptr g)) f) (l1 ++ g' :: l2).
Proof.
  intros [Hc Hn Hf] Hp Hfe. rewrite rows_middle in Hc, Hn, Hf.
  split; change (rows (modify s (Some (sg_ptr g)) f)) with (rows s); rewrite rows_middle.
  - apply (chain_update (s_cells s) None (rowsL s l1) (seg_row g) (seg_row g')); auto.
  - rewrite fmap_app, fmap_cons in *. simpl. rewrite Hp. exact Hn.
  - rewrite Forall_app, Forall_cons in *. simpl. rewrite Hp. exact Hf.
Qed.

Lemma Linked_map s l m : Linked s l -> Linked (with_map s m) l.
Proof. intros [Hc Hn Hf]. split; [exact Hc | exact Hn | exact Hf]. Qed.

Lemma Linked_world s l w : Linked s l -> Linked (with_world s w) l.
Proof. intros [Hc Hn Hf]. split; [exact Hc | exact Hn | exact Hf]. Qed.

Lemma unlinked_not_Ok s l1 g l2 L a b R :
  NoDup (rw_ptr <$> (L ++ a :: seg_row g :: b :: R)) ->
  rw_ptr a = prev_ptr s l1 -> rw_ptr b = next_ptr s l2 ->
  seg_Ok
    (with_cells s (alter (set_prev (Some (prev_ptr s l1))) (next_ptr s l2)
       (alter (set_next (Some (next_ptr s l2))) (prev_ptr s l1)
          (alter (fun e => set_next None (set_prev None e)) (sg_ptr g) (s_cells s)))))
    (Some (sg_ptr g)) = false.
Proof.
  intros Hn <- <-. rewrite fmap_app, !fmap_cons in Hn.
  apply NoDup_app in Hn as (_ & _ & Hn). apply NoDup_cons in Hn as [Ha Hn].
  apply NoDup_cons in Hn as [Hb _]. apply not_elem_of_cons in Ha as [Ha _].
  apply not_elem_of_cons in Hb as [Hb _]. simpl in Ha, Hb.
  unfold seg_Ok, EntryOk, entry_at. cbn [s_cells with_cells].
  rewrite !lookup_alter_ne, lookup_alter_eq by done. by destruct (s_cells s !! sg_ptr g).
Qed.

Lemma EntryRemove_linked s l1 g l2 :
  Linked s (l1 ++ g :: l2) ->
  exists s', EntryRemove s (Some (sg_ptr g)) = Ret s' /\ Linked s' (l1 ++ l2) /\
    same s s' /\ s_map s' = s_map s /\ s_world s' = s_world s /\
    seg_Ok s' (Some (sg_ptr g)) = false.
Proof.
  intros H. unfold EntryRemove. pose proof (entry_seg _ _ _ _ H) as Eg. rewrite Eg. cbn [e_prev e_next].
  eexists. split; [done |]. destruct H as [Hc Hn Hf].
  rewrite rows_middle in Hc, Hn, Hf.
  destruct (rowsL_last s l1) as (L & a & EL & Ea). destruct (rowsR_first s l2) as (b & R & ER & Eb).
  rewrite EL, ER in *. rewrite <- !(assoc_L (++)) in *. simpl in *.
  unfold modify.
  split; [| split_and!; try done; by apply (unlinked_not_Ok s l1 g l2 L a b R)].
  split; cbn [s_cells with_cells s_fresh];
    change (rows (with_cells _ _) (l1 ++ l2)) with (rows s (l1 ++ l2));
    rewrite rows_split, EL, ER, <- (assoc_L (++)); simpl.
  - rewrite <- Ea, <- Eb. by apply (chain_unlink (s_cells s) None L a (seg_row g) b R None).
  - eapply sublist_NoDup; [exact Hn |]. apply fmap_sublist. apply sublist_app; [done |].
    apply sublist_skip, sublist_cons. done.
  - rewrite Forall_app, !Forall_cons in *. tauto.
Qed.

Lemma fresh_not_in s l : Linked s l -> s_fresh s ∉ rw_ptr <$> rows s l.
Proof.
  intros [_ _ Hf] (x & E & Hx)%list_elem_of_fmap.
  apply (proj1 (Forall_forall _ _) Hf) in Hx. lia.
Qed.

Lemma InsertAfter_linked s l1 l2 r v :
  Linked s (l1 ++ l2) ->
  exists s' n, InsertAfter s (Some (prev_ptr s l1)) r v = Ret (s', n) /\
    Linked s' (l1 ++ mkSeg n r v :: l2) /\
    same s s' /\ s_map s' = s_map s /\ s_world s' = s_world s.
Proof.
  intros H. pose proof (fresh_not_in _ _ H) as Hfr. destruct H as [Hc Hn Hf].
  rewrite rows_split in Hc, Hn, Hf, Hfr.
  destruct (rowsL_last s l1) as (L & a & EL & Ea). destruct (rowsR_first s l2) as (b & R & ER & Eb).
  rewrite EL, ER, <- (assoc_L (++)) in *. simpl in *.
  unfold InsertAfter, new_entry.
  assert (entry_at (with_fresh (with_cells s (<[s_fresh s := mkEntry (mkRange (r_start r) (r_len r)) (Some v) None None]> (s_cells s))) (Pos.succ (s_fresh s))) (Some (prev_ptr s l1))
    = mkEntry (rw_range a) (rw_val a) (last_ptr None L) (Some (rw_ptr b))) as ->.
  { unfold entry_at. cbn [s_cells with_fresh with_cells]. rewrite <- Ea.
    rewrite chain_app in Hc. destruct Hc as [_ [Hca _]]. simpl in Hca.
    rewrite lookup_insert_ne, Hca; [done |]. intros E. apply Hfr. rewrite E.
    apply list_elem_of_fmap. exists a. split; [done |]. set_solver. }
  cbn [e_next]. do 2 eexists. split; [done |]. split; [| done].
  unfold modify. destruct r as [st ln]. cbn [r_start r_len] in *.
  split; cbn [s_cells with_cells with_fresh s_fresh];
    change (rows (with_cells _ _)) with (rows s);
    rewrite rows_middle, EL, ER, <- (assoc_L (++)); simpl.
  - rewrite <- Ea. by apply chain_link.
  - rewrite fmap_app, !fmap_cons in *. simpl.
    apply NoDup_app in Hn as (Hn1 & Hd & Hn2). apply not_elem_of_app in Hfr as [Hfr1 Hfr2].
    apply not_elem_of_cons in Hfr2 as [Hfa Hfr2]. apply NoDup_cons in Hn2 as [Hna Hn2].
    apply NoDup_app. split_and!; [done | |].
    + intros x Hx [-> | [-> | Hx']%elem_of_cons]%elem_of_cons; [| done |].
      * apply (Hd _ Hx). left.
      * apply (Hd _ Hx). by right.
    + apply NoDup_cons. split; [by apply not_elem_of_cons |]. by apply NoDup_cons.
  - rewrite Forall_app, !Forall_cons in *. destruct Hf as (Hf1 & Hfa & Hfb & Hf2). split_and!.
    + eapply Forall_impl; [exact Hf1 |]. simpl. lia.
    + lia.
    + simpl. lia.
    + lia.
    + eapply Forall_impl; [exact Hf2 |]. simpl. lia.
Qed.

(** ** Order and index *)

Definition fits s l1 r l2 : Prop :=
  lo_end s l1 <= r_start r /\ 0 < r_len r /\ r_start r + r_len r <= hi_start s l2.

Lemma ordered_zip s l1 l2 :
  ordered (r_start (s_range s)) (l1 ++ l2) (End_ (s_range s)) <->
  ordered (r_start (s_range s)) l1 (lo_end s l1) /\ ordered (lo_end s l1) l2 (End_ (s_range s)).
Proof. apply ordered_app. Qed.

Lemma ordered_relax s lo lo' l :
  ordered lo l (End_ (s_range s)) -> lo' <= hi_start s l -> ordered lo' l (End_ (s_range s)).
Proof. destruct l as [| g l]; simpl; [done |]. tauto. Qed.

Lemma ordered_put s l1 l2 g :
  ordered (r_start (s_range s)) (l1 ++ l2) (End_ (s_range s)) -> fits s l1 (sg_range g) l2 ->
  ordered (r_start (s_range s)) (l1 ++ g :: l2) (End_ (s_range s)).
Proof.
  rewrite !ordered_zip. intros [H1 H2] (Hlo & Hlen & Hhi). split; [done |]. simpl.
  split_and!; auto. by eapply ordered_relax.
Qed.

Lemma ordered_drop s l1 g l2 :
  ordered (r_start (s_range s)) (l1 ++ g :: l2) (End_ (s_range s)) ->
  ordered (r_start (s_range s)) (l1 ++ l2) (End_ (s_range s)) /\ fits s l1 (sg_range g) l2.
Proof.
  rewrite !ordered_zip. simpl. intros (H1 & Hlo & Hlen & H2).
  assert (sg_end g <= hi_start s l2) as Hle.
  { destruct l2 as [| g2 l2]; simpl in *; [done | tauto]. }
  unfold fits. unfold sg_start, sg_end in *. split_and!; auto; try lia.
  eapply ordered_weaken; [| | exact H2]; [lia | done].
Qed.

Lemma index_lt s l1 l2 k :
  ordered (r_start (s_range s)) (l1 ++ l2) (End_ (s_range s)) -> lo_end s l1 <= k ->
  keys_lt (index_of l1) k.
Proof. rewrite ordered_zip. intros [H1 _] Hk. by eapply ordered_keys_lt. Qed.

Lemma index_gt s l1 l2 k :
  ordered (r_start (s_range s)) (l1 ++ l2) (End_ (s_range s)) -> k < hi_start s l2 ->
  keys_gt (index_of l2) k.
Proof.
  rewrite ordered_zip. intros [_ H2] Hk.
  eapply (ordered_keys_gt (hi_start s l2)); [| done]. by eapply ordered_relax.
Qed.

(** ** Insertion, removal, rewriting one segment *)

Lemma Rep_gap s l1 l2 : Rep s (l1 ++ l2) -> gap_PrevSeg s (Some (prev_ptr s l1)) = Some (prev_ptr s l1).
Proof. apply gap_PrevSeg_rep. Qed.

Lemma InsertUnchecked_rep s l1 l2 r v :
  Rep s (l1 ++ l2) -> fits s l1 r l2 ->
  exists s' n,
    InsertWithoutMergingUnchecked s (Some (prev_ptr s l1)) r v = Ret (s', Some n) /\
    Rep s' (l1 ++ mkSeg n r v :: l2) /\ same s s' /\ s_world s' = s_world s.
Proof.
  intros H Hfit. unfold InsertWithoutMergingUnchecked.
  rewrite (gap_PrevSeg_rep s l1 l2 H).
  destruct (InsertAfter_linked s l1 l2 r v (rep_linked _ _ H)) as (s' & n & -> & HL & Hs & Hm & Hw).
  simpl. do 2 eexists. split; [done |].
  split; [| split; [exact Hs | exact Hw]].
  pose proof Hs as (Hr & _ & _). pose proof Hfit as (Hlo & Hlen & Hhi).
  split.
  - by apply Linked_map.
  - simpl. rewrite Hm, (rep_index _ _ H), index_middle, index_app. simpl.
    apply bt_insert_at.
    + eapply index_lt; [apply (rep_order _ _ H) | done].
    + eapply index_gt; [apply (rep_order _ _ H) | unfold sg_start; simpl; lia].
  - simpl. rewrite Hr. apply ordered_put; [apply (rep_order _ _ H) | done].
  - simpl. rewrite Hr. apply (rep_bounds _ _ H).
Qed.

Lemma entry_prev_linked s l1 l2 :
  Linked s (l1 ++ l2) -> e_next (entry_at s (Some (prev_ptr s l1))) = Some (next_ptr s l2).
Proof.
  intros H. unfold prev_ptr. destruct l1 as [| g l1 _] using rev_ind.
  - simpl in *. by rewrite (entry_head _ _ H).
  - rewrite last_snoc. rewrite <- (assoc_L (++)) in H. by rewrite (entry_seg _ _ _ _ H).
Qed.

Lemma Remove_linked s l1 g l2 :
  Linked s (l1 ++ g :: l2) ->
  keys_lt (index_of l1) (sg_start g) ->
  s_map s = index_of l1 ++ (sg_start g, sg_ptr g) :: index_of l2 ->
  exists s', Remove s (Some (sg_ptr g)) = Ret (s', Some (prev_ptr s l1)) /\
    Linked s' (l1 ++ l2) /\ s_map s' = index_of (l1 ++ l2) /\ same s s' /\ s_world s' = s_world s /\
    seg_Ok s' (Some (sg_ptr g)) = false.
Proof.
  intros H Hk Hm. unfold Remove, seg_Ok, EntryOk, seg_PrevSeg, IsHead, PrevEntry, ERange.
  rewrite (entry_seg _ _ _ _ H). cbn [e_prev e_next e_range is_none orb negb].
  rewrite Hm. fold (sg_start g). rewrite bt_remove_at by done.
  destruct (EntryRemove_linked _ _ _ _ (Linked_map s _ (index_of l1 ++ index_of l2) H))
    as (s' & -> & HL & Hs & Hm' & Hw & Hnok).
  simpl. exists s'.
  assert (same s s') as Hs' by exact Hs.
  split_and!; auto.
  - unfold seg_NextGap, IsTail. rewrite <- (same_prev s s' l1 Hs').
    rewrite (entry_prev_linked s' l1 l2 HL). done.
  - rewrite Hm', index_app. done.
Qed.

Lemma Remove_rep s l1 g l2 :
  Rep s (l1 ++ g :: l2) ->
  exists s', Remove s (Some (sg_ptr g)) = Ret (s', Some (prev_ptr s l1)) /\
    Rep s' (l1 ++ l2) /\ same s s' /\ s_world s' = s_world s /\ seg_Ok s' (Some (sg_ptr g)) = false.
Proof.
  intros H. destruct (ordered_drop s l1 g l2 (rep_order _ _ H)) as [Ho (Hlo & _ & _)].
  destruct (Remove_linked s l1 g l2 (rep_linked _ _ H)) as (s' & E & HL & Hm & Hs & Hw & Hnok).
  - eapply index_lt; [apply Ho | exact Hlo].
  - by rewrite (rep_index _ _ H), index_middle.
  - exists s'. split_and!; auto. pose proof Hs as (Hr & _ & _).
    split; [done | done | by rewrite Hr | rewrite Hr; apply (rep_bounds _ _ H)].
Qed.

(** Rewriting the value, or shrinking or growing the end, of one segment. *)
Lemma update_rep s l1 g g' l2 f :
  Rep s (l1 ++ g :: l2) -> sg_ptr g' = sg_ptr g -> sg_start g' = sg_start g ->
  fits s l1 (sg_range g') l2 ->
  (forall pv nx, f (mkEntry (sg_range g) (Some (sg_val g)) pv nx) =
                 mkEntry (sg_range g') (Some (sg_val g')) pv nx) ->
  Rep (modify s (Some (sg_ptr g)) f) (l1 ++ g' :: l2).
Proof.
  intros H Hp Hst Hfit Hf. destruct (ordered_drop s l1 g l2 (rep_order _ _ H)) as [Ho _]. split.
  - apply (Linked_update s l1 g g'); [exact (rep_linked _ _ H) | done | done].
  - unfold modify. simpl. rewrite (rep_index _ _ H), !index_middle. by rewrite Hp, Hst.
  - unfold modify. simpl. by apply ordered_put.
  - apply (rep_bounds _ _ H).
Qed.

(** ** Split *)

Lemma Rep_world s l w : Rep s l -> Rep (with_world s w) l.
Proof.
  intros [HL Hi Ho Hb]. split; [by apply Linked_world | exact Hi | exact Ho | exact Hb].
Qed.

Lemma fits_seg s l1 g l2 : Rep s (l1 ++ g :: l2) -> fits s l1 (sg_range g) l2.
Proof. intros H. apply (ordered_drop s l1 g l2 (rep_order _ _ H)). Qed.

Lemma SplitUnchecked_rep s l1 g l2 k a b w :
  Rep s (l1 ++ g :: l2) -> sg_start g < k < sg_end g ->
  av_Split (s_world s) (sg_range g) k (sg_val g) = ((a, b), w) ->
  exists s' n,
    SplitUnchecked s (Some (sg_ptr g)) k = Ret (s', (Some (sg_ptr g), Some n)) /\
    Rep s' (l1 ++ mkSeg (sg_ptr g) (mkRange (sg_start g) (k - sg_start g)) a
               :: mkSeg n (mkRange k (sg_end g - k)) b :: l2) /\
    same s s' /\ s_world s' = w.
Proof.
  intros H Hk Hsp. unfold SplitUnchecked.
  rewrite (seg_Value_rep s l1 g l2 H), (ERange_rep s l1 g l2 H). simpl. rewrite Hsp.
  rewrite (seg_End_rep s l1 g l2 H).
  pose proof (fits_seg _ _ _ _ H) as (Hlo & Hlen & Hhi).
  destruct (gap_bounds s (l1 ++ [g]) l2) as (Hg1 & Hg2 & Hg3); [by rewrite <- (assoc_L (++)) |].
  rewrite lo_end_snoc in Hg1, Hg2.
  destruct (rep_bounds_seg _ _ g H) as (_ & _ & H0 & _); [apply elem_middle |].
  unfold sg_start, sg_end in *.
  rewrite !sub64_small by u64.
  set (g1 := mkSeg (sg_ptr g) (mkRange (r_start (sg_range g)) (k - r_start (sg_range g))) (sg_val g)).
  set (g2 := mkSeg (sg_ptr g) (mkRange (r_start (sg_range g)) (k - r_start (sg_range g))) a).
  set (s0 := with_world s w).
  set (s1 := modify s0 (Some (sg_ptr g)) _). set (s2 := modify s1 (Some (sg_ptr g)) _).
  assert (Rep s1 (l1 ++ g1 :: l2)) as H1.
  { apply (update_rep s0 l1 g g1 l2); [by apply Rep_world | done | done | | done].
    change (fits s l1 (sg_range g1) l2). unfold fits. simpl. lia. }
  assert (Rep s2 (l1 ++ g2 :: l2)) as H2.
  { apply (update_rep s1 l1 g1 g2 l2); [done | done | done | | done].
    change (fits s l1 (sg_range g2) l2). unfold fits. simpl. lia. }
  assert (Rep s2 ((l1 ++ [g2]) ++ l2)) as H2' by (by rewrite <- (assoc_L (++))).
  assert (NextNonEmptyGap s2 (Some (sg_ptr g)) = Ret (Some (Some (sg_ptr g)))) as ->.
  { unfold NextNonEmptyGap, walk_fuel. rewrite Nat.add_comm. simpl.
    change (sg_ptr g) with (sg_ptr g2). rewrite <- (prev_ptr_snoc s2 l1 g2).
    pose proof (gap_Ok_rep s2 _ _ H2') as Hok. unfold gap_Ok in Hok. apply negb_true_iff in Hok.
    rewrite Hok, (NextEntry_rep s2 _ _ H2'), (start_next s2 _ _ H2'), (End_prev s2 _ _ H2').
    rewrite lo_end_snoc. unfold sg_end. simpl.
    change (hi_start s2 l2) with (hi_start s l2).
    destruct (Z.eqb_spec (r_start (sg_range g) + (k - r_start (sg_range g))) (hi_start s l2)); [lia | done]. }
  simpl. change (sg_ptr g) with (sg_ptr g2). rewrite <- (prev_ptr_snoc s2 l1 g2).
  destruct (InsertUnchecked_rep s2 (l1 ++ [g2]) l2
    (mkRange k (r_start (sg_range g) + r_len (sg_range g) - k)) b H2')
    as (s3 & n & -> & H3 & Hs3 & Hw3).
  { unfold fits. rewrite lo_end_snoc. unfold sg_end. simpl.
    change (hi_start s2 l2) with (hi_start s l2). lia. }
  simpl. rewrite <- (assoc_L (++)) in H3. simpl in H3.
  exists s3, n. split_and!.
  - pose proof (seg_PrevSeg_rep s3 (l1 ++ [g2]) _ l2 ltac:(rewrite <- (assoc_L (++)); exact H3)) as E.
    simpl in E. rewrite E, !prev_ptr_snoc. done.
  - exact H3.
  - eapply same_trans; [| exact Hs3]. done.
  - by rewrite Hw3.
Qed.

(** ** Merge *)

Definition merged g1 g2 v : seg T :=
  mkSeg (sg_ptr g1) (mkRange (sg_start g1) (r_len (sg_range g1) + r_len (sg_range g2))) v.

(** Growing a segment over its adjacent successor and removing the successor. *)
Lemma absorb_rep s l1 g1 g2 l2 v :
  Rep s (l1 ++ g1 :: g2 :: l2) -> sg_end g1 = sg_start g2 ->
  exists s',
    Remove (modify (modify s (Some (sg_ptr g1)) (grow (r_len (sg_range g2))))
              (Some (sg_ptr g1)) (set_value (Some v))) (Some (sg_ptr g2))
      = Ret (s', Some (sg_ptr g1)) /\
    Rep s' (l1 ++ merged g1 g2 v :: l2) /\ same s s' /\ s_world s' = s_world s.
Proof.
  intros H Hadj.
  assert (Rep s ((l1 ++ [g1]) ++ g2 :: l2)) as H' by (by rewrite <- (assoc_L (++))).
  pose proof (fits_seg _ _ _ _ H) as (Hlo & Hlen & Hhi).
  pose proof (fits_seg _ _ _ _ H') as (Hlo2 & Hlen2 & Hhi2).
  destruct (gap_bounds s ((l1 ++ [g1]) ++ [g2]) l2) as (Hb1 & Hb2 & Hb3);
    [by rewrite <- (assoc_L (++)) |].
  rewrite lo_end_snoc in Hb1, Hb2.
  destruct (rep_bounds_seg _ _ g1 H) as (_ & _ & H0 & _); [apply elem_middle |].
  set (m1 := mkSeg (sg_ptr g1) (sg_range (merged g1 g2 v)) (sg_val g1)).
  set (m := merged g1 g2 v).
  set (s1 := modify s _ _). set (s2 := modify s1 _ _).
  assert (Linked s1 (l1 ++ m1 :: g2 :: l2)) as HL1.
  { apply (Linked_update s l1 g1 m1); [exact (rep_linked _ _ H) | done |].
    intros pv nx. unfold grow, set_range. simpl. unfold sg_start, sg_end in *.
    rewrite add64_small by u64. done. }
  assert (Linked s2 (l1 ++ m :: g2 :: l2)) as HL2
    by (apply (Linked_update s1 l1 m1 m); [done | done | done]).
  destruct (Remove_linked s2 (l1 ++ [m]) g2 l2) as (s' & E & HL & Hm & Hs & Hw & _).
  - by rewrite <- (assoc_L (++)).
  - rewrite index_app. apply Forall_app. split.
    + eapply index_lt; [apply (rep_order _ _ H) |]. unfold sg_start, sg_end in *. lia.
    + constructor; [| constructor]. unfold m, merged, sg_start, sg_end in *. simpl. lia.
  - change (s_map s2) with (s_map s). rewrite (rep_index _ _ H), !index_middle.
    rewrite <- (assoc_L (++)). done.
  - exists s'. rewrite prev_ptr_snoc in E. rewrite <- (assoc_L (++)) in HL, Hm. simpl in HL, Hm.
    split_and!; [exact E | | exact Hs | exact Hw].
    pose proof Hs as (Hr & _ & _). change (s_range s2) with (s_range s) in Hr.
    split; [done | done | rewrite Hr | rewrite Hr; apply (rep_bounds _ _ H)].
    destruct (ordered_drop s (l1 ++ [g1]) g2 l2) as [Ho _]; [apply (rep_order _ _ H') |].
    rewrite <- (assoc_L (++)) in Ho. destruct (ordered_drop s l1 g1 l2 Ho) as [Ho' _].
    apply ordered_put; [done |]. unfold fits, m. simpl. unfold sg_start, sg_end in *.
    split_and!; lia.
Qed.

Lemma MergeUnchecked_rep s l1 g1 g2 l2 :
  Rep s (l1 ++ g1 :: g2 :: l2) ->
  exists s' h, MergeUnchecked s (Some (sg_ptr g1)) (Some (sg_ptr g2)) = Ret (s', h) /\
    ((s' = s /\ h = None) \/
     exists v,
       sg_end g1 = sg_start g2 /\
       av_Merge (s_world s) (sg_range g1) (sg_range g2) (sg_val g1) (sg_val g2) = Some v /\
       h = Some (sg_ptr g1) /\ Rep s' (l1 ++ merged g1 g2 v :: l2) /\
       same s s' /\ s_world s' = s_world s).
Proof.
  intros H. assert (Rep s ((l1 ++ [g1]) ++ g2 :: l2)) as H' by (by rewrite <- (assoc_L (++))).
  unfold MergeUnchecked. rewrite (seg_Ok_rep s _ _ _ H), (seg_Ok_rep s _ _ _ H'). simpl.
  rewrite (ERange_rep s _ _ _ H), (ERange_rep s _ _ _ H'), (seg_End_rep s _ _ _ H).
  fold (sg_start g2). destruct (Z.eqb_spec (sg_end g1) (sg_start g2)) as [Hadj | Hne]; [| by exists s, None; auto].
  rewrite (seg_Value_rep s _ _ _ H), (seg_Value_rep s _ _ _ H'). simpl.
  destruct (av_Merge _ _ _ _ _) as [v |] eqn:Em; [| by exists s, None; auto].
  destruct (absorb_rep s l1 g1 g2 l2 v H Hadj) as (s' & -> & HR & Hs & Hw). simpl.
  do 2 eexists. split; [done |]. right. exists v. split_and!; auto.
Qed.
End Ops.
