(* ===== verification/AreaDen.v ===== *)
(** What an [AreaSet] means: a partial map from addresses to denotations of values.

    [AreaLaws] is the contract of the trait [AreaValue]: [Merge] of two adjacent
    segments and [Split] of one keep what the values say about every address.  A value
    may own cells of the world ([fp], e.g. the lock behind an [Arc]); two segments never
    own the same cell.  The theorems about the set are proved against this contract,
    and the users of the set (fs/lock.rs) discharge it. *)
From S2P Require Import Prelude BTree Range AreaSet AreaRep AreaSpec AreaOps.
#[local] Open Scope Z_scope.
#[local] Open Scope u64_scope.

Class AreaLaws (W T D : Type) `{AV : AreaValue W T} := {
  den : W -> Range -> T -> Z -> D;
  fp : T -> list positive;
  valid : W -> T -> Prop;
  merge_law w r1 r2 v1 v2 v :
    av_Merge w r1 r2 v1 v2 = Some v -> valid w v1 -> valid w v2 ->
    r_start r2 = r_start r1 + r_len r1 ->
    valid w v /\ fp v ⊆+ fp v1 ++ fp v2 /\
    (forall x, covers r1 x ->
       den w (mkRange (r_start r1) (r_len r1 + r_len r2)) v x = den w r1 v1 x) /\
    (forall x, covers r2 x ->
       den w (mkRange (r_start r1) (r_len r1 + r_len r2)) v x = den w r2 v2 x);
  split_law w r k v a b w' :
    av_Split w r k v = ((a, b), w') -> valid w v -> r_start r < k < r_start r + r_len r ->
    valid w' a /\ valid w' b /\ fp a = fp v /\ NoDup (fp b) /\
    (forall v0, valid w v0 ->
       valid w' v0 /\ (forall p, p ∈ fp v0 -> p ∉ fp b) /\
       forall r0 x, den w' r0 v0 x = den w r0 v0 x) /\
    (forall x, r_start r <= x < k ->
       den w' (mkRange (r_start r) (k - r_start r)) a x = den w r v x) /\
    (forall x, k <= x < r_start r + r_len r ->
       den w' (mkRange k (r_start r + r_len r - k)) b x = den w r v x);
}.

Section Den.
Context {W T D : Type} `{AL : AreaLaws W T D}.
Implicit Types (s : AreaSet W T) (l : list (seg T)) (g : seg T) (r : Range) (v : T) (w : W).

Fixpoint fps l : list positive :=
  match l with [] => [] | g :: l' => fp (sg_val g) ++ fps l' end.

Definition coverb r (x : Z) : bool := (r_start r <=? x) && (x <? r_start r + r_len r).

Fixpoint den_at w l (x : Z) : option D :=
  match l with
  | [] => None
  | g :: l' =>
      if coverb (sg_range g) x then Some (den w (sg_range g) (sg_val g) x) else den_at w l' x
  end.

Record Good w l : Prop := {
  good_fp : NoDup (fps l);
  good_valid : Forall (fun g => valid w (sg_val g)) l;
}.

Record RepD s l : Prop := {
  repd_rep : Rep s l;
  repd_good : Good (s_world s) l;
}.

Lemma coverb_spec r x : coverb r x = true <-> covers r x.
Proof. unfold coverb, covers. rewrite andb_true_iff, Z.leb_le, Z.ltb_lt. done. Qed.

Lemma coverb_false r x : coverb r x = false <-> ~ covers r x.
Proof. rewrite <- coverb_spec. by rewrite not_true_iff_false. Qed.

Lemma fps_app l1 l2 : fps (l1 ++ l2) = fps l1 ++ fps l2.
Proof. induction l1; simpl; [done |]. by rewrite IHl1, (assoc_L (++)). Qed.

Lemma fps_middle l1 g l2 : fps (l1 ++ g :: l2) ≡ₚ fp (sg_val g) ++ fps (l1 ++ l2).
Proof. rewrite !fps_app. simpl. solve_Permutation. Qed.

Lemma den_at_app w l1 l2 x :
  den_at w (l1 ++ l2) x = match den_at w l1 x with Some d => Some d | None => den_at w l2 x end.
Proof. induction l1 as [| g l1 IH]; simpl; [done |]. by destruct (coverb _ _). Qed.

Lemma den_at_out w lo l hi x : ordered lo l hi -> x < lo \/ hi <= x -> den_at w l x = None.
Proof.
  revert lo. induction l as [| g l IH]; intros lo; simpl; [done |].
  intros (H1 & H2 & H3) Hx. pose proof (ordered_lo_hi _ _ _ H3).
  destruct (coverb (sg_range g) x) eqn:Hc.
  - apply coverb_spec in Hc. unfold covers, sg_start, sg_end in *. lia.
  - apply (IH _ H3). unfold sg_start, sg_end in *. lia.
Qed.

Lemma den_at_middle s l1 g l2 x w :
  Rep s (l1 ++ g :: l2) ->
  den_at w (l1 ++ g :: l2) x =
    if coverb (sg_range g) x then Some (den w (sg_range g) (sg_val g) x)
    else den_at w (l1 ++ l2) x.
Proof.
  intros H. rewrite !den_at_app. simpl. destruct (coverb (sg_range g) x) eqn:Hc; [| done].
  pose proof (rep_order _ _ H) as [Ho _]%ordered_zip.
  pose proof (fits_seg _ _ _ _ H) as (Hlo & _ & _).
  apply coverb_spec in Hc. unfold covers in Hc.
  rewrite (den_at_out w _ l1 _ x Ho); [done |]. lia.
Qed.

Lemma den_at_frame w w' l x :
  (forall g, g ∈ l -> forall r0 y, den w' r0 (sg_val g) y = den w r0 (sg_val g) y) ->
  den_at w' l x = den_at w l x.
Proof.
  induction l as [| g l IH]; intros Hd; simpl; [done |].
  rewrite Hd by left. rewrite IH; [done |]. intros g' Hg'. apply Hd. by right.
Qed.

Lemma den_at_some s l x d w :
  Rep s l -> den_at w l x = Some d ->
  exists l1 g l2, l = l1 ++ g :: l2 /\ covers (sg_range g) x /\ d = den w (sg_range g) (sg_val g) x.
Proof.
  intros _. induction l as [| g l IH]; simpl; [done |].
  destruct (coverb (sg_range g) x) eqn:Hc.
  - intros [= <-]. exists [], g, l. split_and!; auto. by apply coverb_spec.
  - intros (l1 & g' & l2 & -> & H1 & H2)%IH. exists (g :: l1), g', l2. done.
Qed.

Lemma submseteq_NoDup (l1 l2 : list positive) : l1 ⊆+ l2 -> NoDup l2 -> NoDup l1.
Proof.
  intros (k & Hk)%submseteq_Permutation Hn. rewrite Hk in Hn.
  by apply NoDup_app in Hn as (? & _).
Qed.

Lemma Good_middle w l1 g l2 :
  Good w (l1 ++ g :: l2) <->
  Good w (l1 ++ l2) /\ valid w (sg_val g) /\ NoDup (fp (sg_val g) ++ fps (l1 ++ l2)).
Proof.
  split.
  - intros [Hn Hv]. rewrite fps_middle in Hn. rewrite Forall_app, Forall_cons in Hv.
    destruct Hv as (H1 & Hg & H2). split_and!; auto. split; [| by rewrite Forall_app].
    by apply NoDup_app in Hn as (_ & _ & ?).
  - intros ([Hn Hv] & Hg & Hn'). rewrite Forall_app in Hv. split.
    + by rewrite fps_middle.
    + rewrite Forall_app, Forall_cons. tauto.
Qed.

Lemma Good_nil_r w l : Good w (l ++ []) <-> Good w l.
Proof. by rewrite app_nil_r. Qed.

(** ** Insert *)

(** The state after [Insert] between [l1] and [l2]: the segment at the returned
    iterator holds the new range, what follows it is [l2] or, after a merge, [l2]
    without its first segment, and the meaning of the set changed on that range only. *)
Definition inserted s l1 l2 r v (res : AreaSet W T * handle) : Prop :=
  exists l1' g l2',
    res.2 = Some (sg_ptr g) /\ RepD res.1 (l1' ++ g :: l2') /\
    same s res.1 /\ s_world res.1 = s_world s /\
    sg_start g <= r_start r /\ r_start r + r_len r <= sg_end g /\
    (l2' = l2 \/ exists gn, l2 = gn :: l2') /\
    forall x, den_at (s_world s) (l1' ++ g :: l2') x =
      if coverb r x then Some (den (s_world s) r v x) else den_at (s_world s) (l1 ++ l2) x.

Lemma coverb_union r1 r2 x :
  r_start r2 = r_start r1 + r_len r1 -> 0 <= r_len r1 -> 0 <= r_len r2 ->
  coverb (mkRange (r_start r1) (r_len r1 + r_len r2)) x = coverb r1 x || coverb r2 x.
Proof.
  intros Hadj H1 H2. apply eq_true_iff_eq. rewrite orb_true_iff, !coverb_spec.
  unfold covers. simpl. lia.
Qed.

Lemma Insert_plain s l1 l2 r v :
  RepD s (l1 ++ l2) -> fits s l1 r l2 -> valid (s_world s) v ->
  NoDup (fp v ++ fps (l1 ++ l2)) ->
  returns (InsertWithoutMergingUnchecked s (Some (prev_ptr s l1)) r v) (inserted s l1 l2 r v).
Proof.
  intros [H HG] Hfit Hv Hn.
  destruct (InsertUnchecked_rep s l1 l2 r v H Hfit) as (s' & n & -> & H' & Hs & Hw).
  apply returns_ret. exists l1, (mkSeg n r v), l2. cbn [fst snd].
  split_and!; auto.
  - split; [done |]. rewrite Hw. by apply Good_middle.
  - done.
  - unfold sg_end. simpl. lia.
  - intros x. rewrite (den_at_middle s' l1 _ l2 x _ H'). done.
Qed.

(** Growing the successor [g] downwards over the adjacent range [r]. *)
Lemma extend_down_rep s l1 g l2 r m :
  Rep s (l1 ++ g :: l2) -> fits s l1 r (g :: l2) -> proper r -> sg_start g = r_start r + r_len r ->
  let s1 := modify s (Some (sg_ptr g)) (fun e => set_range (mkRange (r_start r) (r_len (e_range e))) e) in
  let s2 := modify s1 (Some (sg_ptr g)) (grow (r_len r)) in
  let s3 := modify s2 (Some (sg_ptr g)) (set_value (Some m)) in
  Rep (with_map s3 (bt_insert (r_start r) (sg_ptr g) (bt_remove (End_ r) (s_map s3))))
    (l1 ++ mkSeg (sg_ptr g) (mkRange (r_start r) (r_len r + r_len (sg_range g))) m :: l2).
Proof.
  intros H (Hlo & Hlen & _) Hp Hadj s1 s2 s3.
  pose proof (fits_seg _ _ _ _ H) as (Hglo & Hglen & Hghi).
  destruct (gap_bounds s (l1 ++ [g]) l2 (Rep_after _ _ _ _ H)) as (Hb1 & Hb2 & Hb3).
  rewrite lo_end_snoc in Hb1, Hb2. destruct (gap_bounds _ _ _ H) as (Hlo0 & _).
  set (gm := mkSeg (sg_ptr g) (mkRange (r_start r) (r_len r + r_len (sg_range g))) m).
  set (ga := mkSeg (sg_ptr g) (mkRange (r_start r) (r_len (sg_range g))) (sg_val g)).
  set (gb := mkSeg (sg_ptr g) (sg_range gm) (sg_val g)).
  assert (Linked s1 (l1 ++ ga :: l2)) as HL1
    by (apply (Linked_update s l1 g ga); [exact (rep_linked _ _ H) | done | done]).
  assert (Linked s2 (l1 ++ gb :: l2)) as HL2.
  { apply (Linked_update s1 l1 ga gb); [done | done |]. intros pv nx.
    unfold grow, set_range. simpl. unfold sg_start, sg_end in *. rewrite add64_small by u64.
    by rewrite (Z.add_comm (r_len (sg_range g))). }
  assert (Linked s3 (l1 ++ gm :: l2)) as HL3
    by (apply (Linked_update s2 l1 gb gm); [done | done | done]).
  destruct (ordered_drop s l1 g l2 (rep_order _ _ H)) as [Ho _]. split.
  - by apply Linked_map.
  - change (s_map s3) with (s_map s). simpl. rewrite (rep_index _ _ H), !index_middle.
    rewrite (End_proper r Hp), <- Hadj.
    rewrite bt_remove_at by (eapply index_lt; [exact Ho | unfold sg_start in *; lia]).
    apply bt_insert_at; [eapply index_lt; [exact Ho | unfold gm, sg_start; simpl; lia] |].
    eapply index_gt; [exact Ho | unfold gm, sg_start in *; simpl; lia].
  - apply (ordered_put s); [done |]. unfold fits. simpl. unfold sg_start in *. lia.
  - apply (rep_bounds _ _ H).
Qed.

Lemma fits_proper s l1 l2 r : Rep s (l1 ++ l2) -> fits s l1 r l2 -> proper r.
Proof.
  intros H (Hlo & Hlen & Hhi). destruct (gap_bounds _ _ _ H) as (? & ? & ?).
  unfold proper. split_and!; u64.
Qed.

(** The part of [Insert] after a failed merge with the predecessor. *)
Lemma Insert_next_den s l1 l2 r v :
  RepD s (l1 ++ l2) -> fits s l1 r l2 -> valid (s_world s) v ->
  NoDup (fp v ++ fps (l1 ++ l2)) ->
  returns (Insert_next s (Some (prev_ptr s l1)) (Some (next_ptr s l2)) r v) (inserted s l1 l2 r v).
Proof.
  intros HD Hfit Hv Hn. pose proof HD as [H HG]. unfold Insert_next.
  pose proof (fits_proper _ _ _ _ H Hfit) as Hp.
  rewrite (seg_Ok_next s l1 l2 H), (start_next s l1 l2 H).
  destruct l2 as [| g l2]; simpl; [by apply Insert_plain |]. rewrite (End_proper r Hp).
  destruct (Z.eqb_spec (sg_start g) (r_start r + r_len r)) as [Hadj | _]; [| by apply Insert_plain].
  rewrite (seg_Value_rep s _ _ _ H), (ERange_rep s _ _ _ H). simpl.
  destruct (av_Merge (s_world s) r (sg_range g) v (sg_val g)) as [m |] eqn:Em;
    [| by apply Insert_plain].
  apply Good_middle in HG as (HG & Hvg & Hng).
  destruct (merge_law _ _ _ _ _ _ Em Hv Hvg Hadj) as (Hvm & Hfp & Hd1 & Hd2).
  pose proof (extend_down_rep s l1 g l2 r m H Hfit Hp Hadj) as HR. cbv zeta in HR.
  pose proof Hfit as (_ & Hlen & _). pose proof (fits_seg _ _ _ _ H) as (_ & Hglen & _).
  rewrite (End_proper r Hp) in HR. apply returns_ret. eexists l1, _, l2. cbn [fst snd].
  split_and!; [| split; [exact HR |] | done | done | | | by right; exists g |].
  - done.
  - apply Good_middle. split_and!; auto.
    eapply submseteq_NoDup; [| exact Hn]. rewrite fps_middle, (assoc_L (++)).
    apply submseteq_app; [exact Hfp | done].
  - unfold sg_start. simpl. lia.
  - unfold sg_start, sg_end in *. simpl. lia.
  - intros x. rewrite (den_at_middle _ l1 _ l2 x _ HR), (den_at_middle s l1 g l2 x _ H).
    cbn [sg_range sg_val]. rewrite coverb_union by (unfold sg_start in *; lia).
    destruct (coverb r x) eqn:Hc1; simpl.
    + rewrite Hd1 by (by apply coverb_spec). done.
    + destruct (coverb (sg_range g) x) eqn:Hc2; [| done].
      rewrite Hd2 by (by apply coverb_spec). done.
Qed.

(** Growing the predecessor over the new range. *)
Lemma grow_rep s l1 gp l2 r m :
  Rep s (l1 ++ gp :: l2) -> fits s (l1 ++ [gp]) r l2 -> sg_end gp = r_start r ->
  Rep (modify (modify s (Some (sg_ptr gp)) (grow (r_len r))) (Some (sg_ptr gp)) (set_value (Some m)))
      (l1 ++ mkSeg (sg_ptr gp) (mkRange (sg_start gp) (r_len (sg_range gp) + r_len r)) m :: l2).
Proof.
  intros H (Hlo & Hlen & Hhi) Hadj. pose proof (fits_seg _ _ _ _ H) as (Hglo & Hglen & Hghi).
  destruct (gap_bounds s (l1 ++ [gp]) l2) as (Hb1 & Hb2 & Hb3); [by rewrite <- (assoc_L (++)) |].
  destruct (rep_bounds_seg _ _ gp H) as (_ & _ & H0 & _); [apply elem_middle |].
  set (ga := mkSeg (sg_ptr gp) (mkRange (sg_start gp) (r_len (sg_range gp) + r_len r)) (sg_val gp)).
  set (gm := mkSeg (sg_ptr gp) (mkRange (sg_start gp) (r_len (sg_range gp) + r_len r)) m).
  unfold sg_start, sg_end in *.
  assert (Rep (modify s (Some (sg_ptr gp)) (grow (r_len r))) (l1 ++ ga :: l2)) as H1.
  { apply (update_rep s l1 gp ga); [done | done | done | |].
    - unfold fits. simpl. lia.
    - intros pv nx. unfold grow, set_range. simpl. rewrite add64_small by u64. done. }
  apply (update_rep _ l1 ga gm); [exact H1 | done | done | | done].
  change (fits s l1 (sg_range gm) l2). unfold fits. simpl. lia.
Qed.

(** Replacing two segments by their merge keeps the cells separate. *)
Lemma absorb_fp v1 v2 v l1 g l2 :
  sg_val g = v1 -> fp v ⊆+ fp v1 ++ fp v2 -> NoDup (fp v2 ++ fps (l1 ++ g :: l2)) ->
  NoDup (fp v ++ fps (l1 ++ l2)).
Proof.
  intros <- Hfp Hn. eapply submseteq_NoDup; [| exact Hn].
  rewrite fps_middle, (assoc_L (++)), (comm (++) (fp v2)).
  by apply submseteq_app.
Qed.

(** Merging two adjacent segments keeps the meaning of the list. *)
Lemma merge_den s l1 g1 g2 l2 v :
  RepD s (l1 ++ g1 :: g2 :: l2) -> sg_end g1 = sg_start g2 ->
  av_Merge (s_world s) (sg_range g1) (sg_range g2) (sg_val g1) (sg_val g2) = Some v ->
  Good (s_world s) (l1 ++ merged g1 g2 v :: l2) /\
  forall s' x, Rep s' (l1 ++ merged g1 g2 v :: l2) ->
    den_at (s_world s) (l1 ++ merged g1 g2 v :: l2) x =
    den_at (s_world s) (l1 ++ g1 :: g2 :: l2) x.
Proof.
  intros [H HG] Hadj Em.
  assert (Rep s ((l1 ++ [g1]) ++ g2 :: l2)) as H' by (by rewrite <- (assoc_L (++))).
  pose proof (fits_seg _ _ _ _ H) as (_ & Hl1 & _). pose proof (fits_seg _ _ _ _ H') as (_ & Hl2 & _).
  pose proof HG as (HG1 & Hv1 & Hn1)%Good_middle.
  pose proof HG1 as (HG2 & Hv2 & Hn2)%Good_middle.
  destruct (merge_law _ _ _ _ _ _ Em Hv1 Hv2) as (Hv & Hfp & Hd1 & Hd2); [done |].
  split.
  - apply Good_middle. split_and!; auto.
    eapply (absorb_fp (sg_val g2) (sg_val g1)); [reflexivity | | exact Hn1].
    simpl. by rewrite (comm (++)).
  - intros s' x HR. rewrite (den_at_middle s' l1 _ l2 x _ HR).
    rewrite (den_at_middle s l1 g1 (g2 :: l2) x _ H).
    pose proof (den_at_middle s (l1 ++ [g1]) g2 l2 x (s_world s) H') as E2.
    cbn [sg_range sg_val merged]. unfold sg_start, sg_end in *.
    rewrite coverb_union by lia.
    destruct (coverb (sg_range g1) x) eqn:Hc1; simpl.
    { rewrite Hd1 by (by apply coverb_spec). done. }
    rewrite <- !(assoc_L (++)) in E2. simpl in E2. rewrite !den_at_app in E2 |- *. simpl in E2 |- *.
    rewrite Hc1 in E2. destruct (coverb (sg_range g2) x) eqn:Hc2.
    + rewrite E2. rewrite Hd2 by (by apply coverb_spec). done.
    + done.
Qed.

(** After [r] has been merged into the predecessor [gp]. *)
Lemma grow_den s l1 gp l2 r v m :
  RepD s (l1 ++ gp :: l2) -> fits s (l1 ++ [gp]) r l2 -> sg_end gp = r_start r ->
  valid (s_world s) v -> NoDup (fp v ++ fps (l1 ++ gp :: l2)) ->
  av_Merge (s_world s) (sg_range gp) r (sg_val gp) v = Some m ->
  let gm := mkSeg (sg_ptr gp) (mkRange (sg_start gp) (r_len (sg_range gp) + r_len r)) m in
  RepD (modify (modify s (Some (sg_ptr gp)) (grow (r_len r))) (Some (sg_ptr gp)) (set_value (Some m)))
    (l1 ++ gm :: l2) /\
  forall x, den_at (s_world s) (l1 ++ gm :: l2) x =
    if coverb r x then Some (den (s_world s) r v x) else den_at (s_world s) (l1 ++ gp :: l2) x.
Proof.
  intros [H HG] Hfit Hadj Hv Hn Em gm.
  pose proof HG as (HG' & Hvp & Hnp)%Good_middle.
  destruct (merge_law _ _ _ _ _ _ Em Hvp Hv ltac:(unfold sg_end in Hadj; lia)) as (Hvm & Hfp & Hd1 & Hd2).
  pose proof (grow_rep s l1 gp l2 r m H Hfit Hadj) as HR. split.
  { split; [done |]. apply Good_middle. split_and!; auto.
    by apply (absorb_fp (sg_val gp) v m l1 gp l2). }
  intros x. rewrite (den_at_middle _ l1 gm l2 x _ HR), (den_at_middle s l1 gp l2 x _ H).
  cbn [sg_range sg_val gm]. pose proof (fits_seg _ _ _ _ H) as (_ & ? & _).
  destruct Hfit as (_ & ? & _). unfold sg_end in Hadj. unfold sg_start. rewrite coverb_union by lia.
  destruct (coverb (sg_range gp) x) eqn:Hc1; simpl.
  - rewrite Hd1 by (by apply coverb_spec). apply coverb_spec in Hc1.
    destruct (coverb r x) eqn:Hc2; [| done]. apply coverb_spec in Hc2. unfold covers in *. lia.
  - destruct (coverb r x) eqn:Hc2; [| done]. rewrite Hd2 by (by apply coverb_spec). done.
Qed.

Lemma Insert_den s l1 l2 r v :
  RepD s (l1 ++ l2) -> fits s l1 r l2 -> valid (s_world s) v ->
  NoDup (fp v ++ fps (l1 ++ l2)) ->
  returns (Insert s (Some (prev_ptr s l1)) r v) (inserted s l1 l2 r v).
Proof.
  intros HD Hfit Hv Hn. pose proof HD as [H HG]. pose proof Hfit as (Hlo & Hlen & Hhi).
  pose proof (fits_proper _ _ _ _ H Hfit) as Hp.
  unfold Insert. cbv zeta. rewrite (gap_PrevSeg_rep s l1 l2 H), (gap_NextSeg_rep s l1 l2 H).
  rewrite (seg_Ok_prev s l1 l2 H), (End_prev s l1 l2 H), (start_next s l1 l2 H), (End_proper r Hp).
  destruct (Z.ltb_spec (r_start r) (lo_end s l1)); [lia |].
  destruct (Z.ltb_spec (hi_start s l2) (r_start r + r_len r)); [lia |].
  rewrite !andb_false_r.
  destruct l1 as [| gp l1 _] using rev_ind; [simpl; by apply Insert_next_den |].
  rewrite (bool_decide_eq_false_2 (l1 ++ [gp] = [])) by (by destruct l1). cbn [negb andb].
  destruct (Z.eqb_spec (lo_end s (l1 ++ [gp])) (r_start r)) as [Hadj | _]; [| by apply Insert_next_den].
  assert (RepD s (l1 ++ gp :: l2)) as HD' by (by rewrite <- (assoc_L (++)) in HD).
  pose proof (repd_rep _ _ HD') as H'. rewrite lo_end_snoc in Hadj. rewrite prev_ptr_snoc.
  rewrite (seg_Value_rep s _ _ _ H'), (ERange_rep s _ _ _ H'). simpl.
  destruct (av_Merge (s_world s) (sg_range gp) r (sg_val gp) v) as [m |] eqn:Em;
    [| rewrite <- (prev_ptr_snoc s l1 gp); by apply Insert_next_den].
  rewrite <- (assoc_L (++)) in Hn. simpl in Hn.
  destruct (grow_den s l1 gp l2 r v m HD' Hfit Hadj Hv Hn Em) as [HD1 Hden].
  set (s1 := modify (modify s _ _) _ _) in *. set (gm := mkSeg _ _ m) in HD1, Hden.
  pose proof (repd_rep _ _ HD1) as HR1. pose proof (Rep_after _ _ _ _ HR1) as HR1'.
  pose proof (fits_seg _ _ _ _ H') as (_ & Hlp & _).
  assert (returns (Ret (s1, Some (sg_ptr gp))) (inserted s (l1 ++ [gp]) l2 r v)) as Hdone.
  { apply returns_ret. exists l1, gm, l2. cbn [fst snd]. rewrite <- (assoc_L (++)).
    split_and!; [done | exact HD1 | done | done | | | by left | exact Hden];
      unfold gm, sg_start, sg_end in *; simpl; lia. }
  change (next_ptr s l2) with (next_ptr s1 l2).
  rewrite (seg_Ok_next s1 _ _ HR1'), (start_next s1 _ _ HR1').
  destruct l2 as [| g2 l2]; simpl; [exact Hdone |].
  destruct (Z.eqb_spec (sg_start g2) (r_start r + r_len r)) as [Hadj2 | _]; [| exact Hdone].
  rewrite (seg_Value_rep s1 _ _ _ HR1'), (ERange_rep s1 _ _ _ HR1').
  change (sg_ptr gp) with (sg_ptr gm). rewrite (ERange_rep s1 _ _ _ HR1). simpl.
  destruct (av_Merge _ _ _ m (sg_val g2)) as [m2 |] eqn:Em2; [| exact Hdone].
  assert (sg_end gm = sg_start g2) as Hadjm by (unfold gm, sg_start, sg_end in *; simpl; lia).
  pose proof (merge_den s1 l1 gm g2 l2 m2 HD1 Hadjm Em2) as (HG2 & Hden2).
  destruct (absorb_rep s1 l1 gm g2 l2 m2 HR1 Hadjm) as (s2 & E & HR2 & Hs2 & Hw2).
  change (sg_ptr gm) with (sg_ptr gp) in E. rewrite E. simpl.
  apply returns_ret. exists l1, (merged gm g2 m2), l2. cbn [fst snd]. rewrite <- (assoc_L (++)).
  pose proof (fits_seg _ _ _ _ HR1') as (_ & Hl2 & _).
  split_and!; [| by split; [| rewrite Hw2] | by eapply same_trans | by rewrite Hw2 | | | |].
  - rewrite <- (prev_ptr_snoc s2 l1 (merged gm g2 m2) : _ = sg_ptr gp).
    rewrite (gap_PrevSeg_rep s2 _ _ (Rep_after _ _ _ _ HR2)). by rewrite prev_ptr_snoc.
  - unfold merged, gm, sg_start, sg_end in *. simpl in *. lia.
  - unfold merged, gm, sg_start, sg_end in *. simpl in *. lia.
  - right. by exists g2.
  - intros x. change (s_world s1) with (s_world s) in Hden2. rewrite (Hden2 s2 x HR2). apply Hden.
Qed.

(** ** Split and Isolate *)

(** [w'] extends [w]: the values of [w] keep their validity and their meaning. *)
Definition ext w w' : Prop :=
  forall v0, valid w v0 -> valid w' v0 /\ forall r0 x, den w' r0 v0 x = den w r0 v0 x.

Lemma ext_refl w : ext w w.
Proof. intros v0 Hv. done. Qed.

Lemma ext_trans w1 w2 w3 : ext w1 w2 -> ext w2 w3 -> ext w1 w3.
Proof.
  intros H1 H2 v0 Hv. destruct (H1 v0 Hv) as [Hv2 E2]. destruct (H2 v0 Hv2) as [Hv3 E3].
  split; [done |]. intros r0 x. by rewrite E3, E2.
Qed.

Lemma ext_den_at w w' l x :
  ext w w' -> Forall (fun g => valid w (sg_val g)) l -> den_at w' l x = den_at w l x.
Proof.
  intros He Hv. apply den_at_frame. intros g Hg r0 y.
  apply He. exact (proj1 (Forall_forall _ _) Hv g Hg).
Qed.

Lemma fps_valid_fresh w l (b : T) :
  Forall (fun g => valid w (sg_val g)) l ->
  (forall v0, valid w v0 -> forall p, p ∈ fp v0 -> p ∉ fp b) -> forall p, p ∈ fps l -> p ∉ fp b.
Proof.
  intros Hv Hf. induction Hv as [| g l Hg Hv IH]; simpl; intros p Hp; [set_solver |].
  apply elem_of_app in Hp as [Hp | Hp]; eauto.
Qed.

Lemma split_den s l1 g l2 k :
  RepD s (l1 ++ g :: l2) -> sg_start g < k < sg_end g ->
  returns (SplitUnchecked s (Some (sg_ptr g)) k) (fun res => exists ga gb,
    res.2 = (Some (sg_ptr ga), Some (sg_ptr gb)) /\
    RepD res.1 (l1 ++ ga :: gb :: l2) /\ same s res.1 /\ ext (s_world s) (s_world res.1) /\
    sg_range ga = mkRange (sg_start g) (k - sg_start g) /\
    sg_range gb = mkRange k (sg_end g - k) /\
    forall x, den_at (s_world res.1) (l1 ++ ga :: gb :: l2) x = den_at (s_world s) (l1 ++ g :: l2) x).
Proof.
  intros [H HG] Hk.
  destruct (av_Split (s_world s) (sg_range g) k (sg_val g)) as [[a b] w] eqn:Hsp.
  pose proof HG as (HG' & Hvg & Hng)%Good_middle.
  destruct (split_law _ _ _ _ _ _ _ Hsp Hvg Hk) as (Hva & Hvb & Hfa & Hnb & Hfr & Hda & Hdb).
  destruct (SplitUnchecked_rep s l1 g l2 k a b w H Hk Hsp) as (s' & n & -> & H' & Hs & Hw).
  assert (ext (s_world s) w) as Hext by (intros v0 Hv0; destruct (Hfr v0 Hv0) as (? & _ & ?); auto).
  apply returns_ret.
  set (ga := mkSeg (sg_ptr g) _ a) in *. set (gb := mkSeg n _ b) in *.
  exists ga, gb. cbn [fst snd].
  split_and!; [done | split; [exact H' |] | done | by rewrite Hw | done | done |].
  - rewrite Hw. apply Good_middle. cbn [sg_val ga].
    assert (Forall (fun g => valid w (sg_val g)) (l1 ++ l2)) as Hv'.
    { eapply Forall_impl; [exact (good_valid _ _ HG') |]. intros g0 Hg0. exact (proj1 (Hext _ Hg0)). }
    assert (forall p, p ∈ fp (sg_val g) ++ fps (l1 ++ l2) -> p ∉ fp b) as Hfresh.
    { intros p [Hp | Hp]%elem_of_app; [by apply (Hfr _ Hvg) |].
      eapply fps_valid_fresh; [exact (good_valid _ _ HG') | | exact Hp]. intros v0 Hv0. apply (Hfr _ Hv0). }
    split_and!; auto.
    + apply Good_middle. split_and!; auto.
      * split; [exact (good_fp _ _ HG') | done].
      * cbn [sg_val gb]. apply NoDup_app. split_and!; auto; [| exact (good_fp _ _ HG')].
        intros p Hp Hp'. apply (Hfresh p); [| done]. apply elem_of_app. by right.
    + rewrite Hfa, fps_middle. cbn [sg_val gb].
      rewrite (assoc_L (++)), (comm (++) _ (fp b)), <- (assoc_L (++)).
      apply NoDup_app. split_and!; auto. intros p Hp Hp'. by apply (Hfresh p).
  - intros x. rewrite (den_at_middle s' l1 ga (gb :: l2) x _ H').
    assert (Rep s' ((l1 ++ [ga]) ++ gb :: l2)) as H'' by (by rewrite <- (assoc_L (++))).
    pose proof (den_at_middle s' (l1 ++ [ga]) gb l2 x (s_world s') H'') as E2.
    rewrite (den_at_middle s l1 g l2 x _ H), Hw in *.
    rewrite <- (ext_den_at _ _ (l1 ++ l2) x Hext (good_valid _ _ HG')).
    rewrite <- !(assoc_L (++)) in E2. simpl in E2. rewrite !den_at_app in E2 |- *. simpl in E2 |- *.
    unfold sg_start, sg_end in *.
    destruct (coverb (sg_range g) x) eqn:Hc.
    + apply coverb_spec in Hc. unfold covers in Hc. destruct (Z.lt_ge_cases x k) as [Hx | Hx].
      * assert (coverb (mkRange (r_start (sg_range g)) (k - r_start (sg_range g))) x = true) as ->
          by (apply coverb_spec; unfold covers; simpl; lia).
        rewrite Hda by lia. done.
      * assert (coverb (mkRange (r_start (sg_range g)) (k - r_start (sg_range g))) x = false) as Hf
          by (apply coverb_false; unfold covers; simpl; lia).
        rewrite Hf in *.
        assert (coverb (mkRange k (r_start (sg_range g) + r_len (sg_range g) - k)) x = true) as Ht
          by (apply coverb_spec; unfold covers; simpl; lia).
        rewrite Ht in *. rewrite E2, Hdb by lia. done.
    + apply coverb_false in Hc. unfold covers in Hc.
      assert (coverb (mkRange (r_start (sg_range g)) (k - r_start (sg_range g))) x = false) as ->
        by (apply coverb_false; unfold covers; simpl; lia).
      assert (coverb (mkRange k (r_start (sg_range g) + r_len (sg_range g) - k)) x = false) as ->
        by (apply coverb_false; unfold covers; simpl; lia).
      done.
Qed.
End Den.
