(* ===== verification/AreaThm.v ===== *)
(** The theorems of [AreaSet]: every operation, on a represented set, returns (it
    neither panics nor loops) and changes the meaning of the set as documented. *)
From S2P Require Import Prelude BTree Range AreaSet AreaRep AreaSpec AreaOps AreaDen.
#[local] Open Scope Z_scope.
#[local] Open Scope u64_scope.

#[local] Arguments den_at : simpl never.

Section Thm.
Context {W T D : Type} `{AL : AreaLaws W T D}.
Implicit Types (s : AreaSet W T) (l : list (seg T)) (g : seg T) (r : Range) (v : T) (w : W).

(** ** Isolate *)

Lemma CanSplitAt_seg s l1 g l2 k :
  Rep s (l1 ++ g :: l2) ->
  reflect (sg_start g < k < sg_end g) (CanSplitAt (ERange s (Some (sg_ptr g))) k).
Proof.
  intros H. rewrite (ERange_rep s _ _ _ H). apply iff_reflect. symmetry.
  apply CanSplitAt_proper. apply (rep_bounds_seg _ _ _ H), elem_middle.
Qed.

(** The state after [Isolate] of [g] to [r]. *)
Definition isolated s l1 g l2 r (res : AreaSet W T * handle) : Prop :=
  exists l1' g' l2',
    res.2 = Some (sg_ptr g') /\ RepD res.1 (l1' ++ g' :: l2') /\
    same s res.1 /\ ext (s_world s) (s_world res.1) /\
    (l1' = l1 /\ sg_start g' = sg_start g /\ ~ (sg_start g < r_start r < sg_end g) \/
     sg_start g < r_start r < sg_end g /\ sg_start g' = r_start r /\ exists gl, l1' = l1 ++ [gl]) /\
    (l2' = l2 /\ sg_end g' = sg_end g /\ ~ (sg_start g' < End_ r < sg_end g) \/
     sg_start g' < End_ r < sg_end g /\ sg_end g' = End_ r /\ exists gr, l2' = gr :: l2) /\
    forall x, den_at (s_world res.1) (l1' ++ g' :: l2') x = den_at (s_world s) (l1 ++ g :: l2) x.

Lemma isolate_right s l1 g l2 r :
  RepD s (l1 ++ g :: l2) -> ~ (sg_start g < r_start r < sg_end g) ->
  returns
    (if CanSplitAt (ERange s (Some (sg_ptr g))) (End_ r) then
       '(s, (tmp, _)) ← SplitUnchecked s (Some (sg_ptr g)) (End_ r); Ret (s, tmp)
     else Ret (s, Some (sg_ptr g)))
    (isolated s l1 g l2 r).
Proof.
  intros HD Hns. destruct (CanSplitAt_seg s l1 g l2 (End_ r) (repd_rep _ _ HD)) as [Hk | Hk].
  - eapply returns_bind; [by apply split_den |].
    intros [s' [h1 h2]] (ga & gb & [= -> ->] & HD' & Hs & He & Ea & Eb & Hd).
    apply returns_ret. exists l1, ga, (gb :: l2). cbn [fst snd] in *.
    unfold sg_start, sg_end in *. rewrite Ea. cbn [r_start r_len].
    split_and!; auto.
    right. split_and!; [lia | lia | lia | by exists gb].
  - apply returns_ret. exists l1, g, l2. cbn [fst snd]. split_and!; auto using same_refl, ext_refl.
Qed.

Lemma Isolate_den s l1 g l2 r :
  RepD s (l1 ++ g :: l2) ->
  returns (Isolate s (Some (sg_ptr g)) r) (isolated s l1 g l2 r).
Proof.
  intros HD. unfold Isolate.
  destruct (CanSplitAt_seg s l1 g l2 (r_start r) (repd_rep _ _ HD)) as [Hk | Hk].
  - destruct (split_den s l1 g l2 (r_start r) HD Hk)
      as ([s' [h1 h2]] & -> & ga & gb & [= -> ->] & HD' & Hs & He & Ea & Eb & Hd).
    simpl. cbn [fst snd] in *.
    assert (RepD s' ((l1 ++ [ga]) ++ gb :: l2)) as HD'' by (by rewrite <- (assoc_L (++))).
    eapply returns_mono.
    { apply (isolate_right s' (l1 ++ [ga]) gb l2 r HD'').
      unfold sg_start, sg_end in *. rewrite Eb. simpl. lia. }
    intros [s2 h] (l1' & g' & l2' & Hh & HD2 & Hs2 & He2 & H1 & H2 & Hd2).
    exists l1', g', l2'. cbn [fst snd] in *.
    assert (sg_start gb = r_start r /\ sg_end gb = sg_end g) as [Esb Eeb]
      by (unfold sg_start, sg_end in *; rewrite Eb; simpl; lia).
    split_and!; auto.
    + eapply same_trans; eassumption.
    + eapply ext_trans; eassumption.
    + right. destruct H1 as [(-> & E & _) | (? & _)]; [| lia].
      split_and!; [lia | lia | lia | by exists ga].
    + rewrite <- Eeb. exact H2.
    + intros x. rewrite Hd2, <- Hd. by rewrite <- (assoc_L (++)).
  - simpl. by apply isolate_right.
Qed.

(** ** Removal *)

Lemma Remove_den s l1 g l2 :
  RepD s (l1 ++ g :: l2) ->
  returns (Remove s (Some (sg_ptr g))) (fun res =>
    res.2 = Some (prev_ptr s l1) /\ RepD res.1 (l1 ++ l2) /\ same s res.1 /\
    s_world res.1 = s_world s /\ seg_Ok res.1 (Some (sg_ptr g)) = false /\
    forall x, den_at (s_world s) (l1 ++ l2) x =
      if coverb (sg_range g) x then None else den_at (s_world s) (l1 ++ g :: l2) x).
Proof.
  intros [H HG]. destruct (Remove_rep s l1 g l2 H) as (s' & -> & H' & Hs & Hw & Hnok).
  apply returns_ret. cbn [fst snd]. split_and!; auto.
  - split; [done |]. rewrite Hw. by apply Good_middle in HG as (? & _).
  - intros x. rewrite (den_at_middle s l1 g l2 x _ H).
    destruct (coverb (sg_range g) x) eqn:Hc; [| done].
    apply coverb_spec in Hc. unfold covers in Hc.
    pose proof (fits_seg _ _ _ _ H) as (Hlo & Hlen & Hhi).
    pose proof (rep_order _ _ H') as Ho. destruct Hs as (Hr & _ & _). rewrite Hr in Ho.
    apply ordered_zip in Ho as [Ho1 Ho2].
    rewrite den_at_app, (den_at_out _ _ l1 _ x Ho1) by lia.
    apply (den_at_out _ (hi_start s l2) l2 (End_ (s_range s))); [| lia].
    by eapply ordered_relax.
Qed.

(** [s'] is a later state of [s] that stands for the partial map [m]. *)
Definition becomes s s' (m : Z -> option D) : Prop :=
  exists l, RepD s' l /\ same s s' /\ ext (s_world s) (s_world s') /\
    forall x, den_at (s_world s') l x = m x.

Lemma becomes_refl s l : RepD s l -> becomes s s (den_at (s_world s) l).
Proof. intros H. exists l. split_and!; auto using same_refl, ext_refl. Qed.

Lemma becomes_trans s1 s2 s3 l m :
  same s1 s2 -> ext (s_world s1) (s_world s2) ->
  becomes s2 s3 (den_at (s_world s2) l) -> (forall x, den_at (s_world s2) l x = m x) ->
  becomes s1 s3 m.
Proof.
  intros Hs He (l' & HD & Hs' & He' & Hd) Hm. exists l'. split_and!; auto.
  - by eapply same_trans.
  - by eapply ext_trans.
  - intros x. by rewrite Hd.
Qed.

(** ** Merging *)

Lemma merge_step s l1 g1 g2 l2 :
  RepD s (l1 ++ g1 :: g2 :: l2) ->
  exists s' h, MergeUnchecked s (Some (sg_ptr g1)) (Some (sg_ptr g2)) = Ret (s', h) /\
    ((s' = s /\ h = None) \/
     exists gm, h = Some (sg_ptr gm) /\ RepD s' (l1 ++ gm :: l2) /\
       same s s' /\ s_world s' = s_world s /\
       forall x, den_at (s_world s') (l1 ++ gm :: l2) x = den_at (s_world s) (l1 ++ g1 :: g2 :: l2) x).
Proof.
  intros HD. destruct (MergeUnchecked_rep _ _ _ _ _ (repd_rep _ _ HD))
    as (s' & h & -> & [? | (v & He & Hm & -> & H' & Hs & Hw)]); exists s'; eexists; (split; [done |]).
  - by left.
  - right. exists (merged g1 g2 v). destruct (merge_den _ _ _ _ _ _ HD He Hm) as [HG Hd].
    rewrite Hw. split_and!; auto; [by split; [| rewrite Hw] |]. intros x. by eapply Hd.
Qed.

Lemma MergeRange_loop_den r l2 :
  forall s l1 g fuel, RepD s (l1 ++ g :: l2) -> (length l2 < fuel)%nat ->
  returns (MergeRange_loop fuel s r (Some (sg_ptr g)) (Some (next_ptr s l2)))
    (fun s' => becomes s s' (den_at (s_world s) (l1 ++ g :: l2))).
Proof.
  induction l2 as [| g2 l2 IH]; intros s l1 g [| fuel] HD Hf; simpl in Hf; try lia;
    pose proof (Rep_after _ _ _ _ (repd_rep _ _ HD)) as HR; cbn [MergeRange_loop];
    rewrite (seg_Ok_next _ _ _ HR); simpl.
  - apply returns_ret. by apply becomes_refl.
  - destruct (r_start _ <? _); [| apply returns_ret; by apply becomes_refl].
    destruct (merge_step s l1 g g2 l2 HD)
      as (s' & h & -> & [[-> ->] | (gm & -> & HD' & Hs & Hw & Hd)]); simpl.
    + rewrite (seg_NextSeg_rep s (l1 ++ [g]) g2 l2) by (by rewrite <- (assoc_L (++)); apply HD).
      rewrite (cons_middle g l1 (g2 :: l2)), (assoc_L (++)).
      apply IH; [by rewrite <- (assoc_L (++)) | lia].
    + rewrite (seg_Ok_rep s' l1 gm l2), (seg_NextSeg_rep s' l1 gm l2) by apply HD'.
      eapply returns_mono; [apply (IH s' l1 gm fuel HD'); lia |].
      intros s2 Hb. eapply becomes_trans; [done | rewrite Hw; apply ext_refl | exact Hb | exact Hd].
Qed.

(** [MergeAll] visits every segment: it is [MergeRange] with no upper limit. *)
Lemma MergeAll_loop_den l2 :
  forall s l1 g fuel, RepD s (l1 ++ g :: l2) -> (length l2 < fuel)%nat ->
  returns (MergeAll_loop fuel s (Some (sg_ptr g)) (Some (next_ptr s l2)))
    (fun s' => becomes s s' (den_at (s_world s) (l1 ++ g :: l2))).
Proof.
  induction l2 as [| g2 l2 IH]; intros s l1 g [| fuel] HD Hf; simpl in Hf; try lia;
    pose proof (Rep_after _ _ _ _ (repd_rep _ _ HD)) as HR; cbn [MergeAll_loop];
    rewrite (seg_Ok_next _ _ _ HR); simpl.
  - apply returns_ret. by apply becomes_refl.
  - destruct (merge_step s l1 g g2 l2 HD)
      as (s' & h & -> & [[-> ->] | (gm & -> & HD' & Hs & Hw & Hd)]); simpl.
    + rewrite (seg_NextSeg_rep s (l1 ++ [g]) g2 l2) by (by rewrite <- (assoc_L (++)); apply HD).
      rewrite (cons_middle g l1 (g2 :: l2)), (assoc_L (++)).
      apply IH; [by rewrite <- (assoc_L (++)) | lia].
    + rewrite (seg_Ok_rep s' l1 gm l2), (seg_NextSeg_rep s' l1 gm l2) by apply HD'.
      eapply returns_mono; [apply (IH s' l1 gm fuel HD'); lia |].
      intros s2 Hb. eapply becomes_trans; [done | rewrite Hw; apply ext_refl | exact Hb | exact Hd].
Qed.

(** ** Walks over the set *)

Lemma walk_fuel_rep s l : Rep s l -> walk_fuel s = (length l + 3)%nat.
Proof. intros H. unfold walk_fuel. rewrite (rep_index _ _ H). unfold index_of. by rewrite length_fmap. Qed.

Lemma FirstSeg_rep s l : Rep s l -> FirstSeg s = Some (next_ptr s l).
Proof. intros H. apply (NextEntry_rep s [] l H). Qed.

Lemma FindSeg_ok s l key :
  Rep s l -> seg_Ok s (FindSeg s key) = true ->
  exists l1 g l2, l = l1 ++ g :: l2 /\ FindSeg s key = Some (sg_ptr g) /\ covers (sg_range g) key.
Proof.
  intros H. unfold FindSeg.
  destruct (decide (r_start (s_range s) <= key <= End_ (s_range s))) as [Hk | Hk].
  - destruct (FindArea_rep s l key H Hk) as [l1 g l2 -> Hc | l1 l2 -> _ _]; [| done].
    intros _. by exists l1, g, l2.
  - unfold FindArea. destruct (Z.ltb_spec key (r_start (s_range s))).
    + simpl. rewrite (seg_Ok_prev s [] l H : seg_Ok s (Some (s_head s)) = false). done.
    + destruct (Z.ltb_spec (End_ (s_range s)) key); [| lia]. simpl.
      rewrite <- (app_nil_r l) in H.
      rewrite (seg_Ok_next s l [] H : seg_Ok s (Some (s_tail s)) = false). done.
Qed.

Lemma ordered_cover_unique s l1 g l2 k :
  Rep s (l1 ++ g :: l2) -> covers (sg_range g) k ->
  forall g', g' ∈ l1 ++ g :: l2 -> covers (sg_range g') k -> g' = g.
Proof.
  intros H Hc g' Hg' Hc'. pose proof (rep_order _ _ H) as Ho.
  pose proof (fits_seg _ _ _ _ H) as (Hlo & _ & _).
  apply ordered_zip in Ho as [Ho1 (_ & _ & Ho2)]. unfold covers in *.
  apply elem_of_app in Hg' as [Hg' | Hg'].
  - pose proof (ordered_elem _ _ _ _ Ho1 Hg'). unfold sg_start, sg_end in *. lia.
  - apply elem_of_cons in Hg' as [-> | Hg']; [done |].
    pose proof (ordered_elem _ _ _ _ Ho2 Hg'). unfold sg_start, sg_end in *. lia.
Qed.

Lemma FindSeg_covered s l k g :
  Rep s l -> g ∈ l -> covers (sg_range g) k ->
  seg_Ok s (FindSeg s k) = true.
Proof.
  intros H Hg Hc. unfold FindSeg. pose proof (rep_bounds_seg s l g H Hg) as (_ & _ & Hb).
  unfold covers in Hc.
  destruct (FindArea_rep s l k H) as [l1 g' l2 -> Hc' | l1 l2 -> H1 H2];
    [unfold sg_start, sg_end in *; lia | by apply (seg_Ok_rep s l1 g' l2) |].
  exfalso. pose proof (rep_order _ _ H) as [Ho1 Ho2]%ordered_zip.
  apply elem_of_app in Hg as [Hg | Hg].
  - pose proof (ordered_elem _ _ _ _ Ho1 Hg). unfold sg_start, sg_end in *. lia.
  - destruct l2 as [| g2 l2]; [by apply elem_of_nil in Hg |].
    specialize (H2 ltac:(done)). simpl in H2.
    apply (ordered_relax s _ (sg_start g2)) in Ho2; [| simpl; lia].
    pose proof (ordered_elem _ _ _ _ Ho2 Hg). unfold sg_start, sg_end in *. lia.
Qed.

Lemma LowerBoundSeg_rep s l key :
  Rep s l -> r_start (s_range s) <= key <= End_ (s_range s) ->
  exists l1 l2, l = l1 ++ l2 /\ LowerBoundSeg s key = Some (next_ptr s l2) /\
    lo_end s l1 <= key /\ (forall g, head l2 = Some g -> key < sg_end g).
Proof.
  intros H Hk. unfold LowerBoundSeg, Find.
  destruct (FindArea_rep s l key H Hk) as [l1 g l2 -> Hc | l1 l2 -> H1 H2]; simpl.
  - exists l1, (g :: l2). rewrite (seg_Ok_rep s l1 g l2 H).
    pose proof (fits_seg _ _ _ _ H) as (Hlo & _ & _). unfold covers in Hc.
    split_and!; [done | done | lia |]. intros g' [= <-]. unfold sg_end. lia.
  - exists l1, l2. rewrite (gap_Ok_rep s l1 l2 H), (gap_NextSeg_rep s l1 l2 H).
    split_and!; [done | done | done |]. intros g Hg. destruct l2 as [| g2 l2]; [done |].
    injection Hg as ->. specialize (H2 ltac:(done)). simpl in H2.
    destruct (rep_bounds_seg s _ g H (elem_middle l1 g l2)) as (_ & ? & _).
    unfold sg_start, sg_end in *. lia.
Qed.

Lemma UpperBoundSeg_rep s l key :
  Rep s l -> r_start (s_range s) <= key <= End_ (s_range s) ->
  exists l1 l2, l = l1 ++ l2 /\ UpperBoundSeg s key = Some (prev_ptr s l1) /\
    (forall g, last l1 = Some g -> sg_start g <= key) /\ (l2 <> [] -> key < hi_start s l2).
Proof.
  intros H Hk. unfold UpperBoundSeg, Find.
  destruct (FindArea_rep s l key H Hk) as [l1 g l2 -> Hc | l1 l2 -> H1 H2]; simpl.
  - exists (l1 ++ [g]), l2. rewrite (seg_Ok_rep s l1 g l2 H), prev_ptr_snoc, <- (assoc_L (++)).
    pose proof (fits_seg _ _ _ _ H) as (_ & _ & Hhi). unfold covers in Hc.
    split_and!; [done | done | | intros; lia]. intros g'. rewrite last_snoc. intros [= <-].
    unfold sg_start. lia.
  - exists l1, l2. rewrite (gap_Ok_rep s l1 l2 H), (gap_PrevSeg_rep s l1 l2 H).
    split_and!; [done | done | | done]. intros g Hg. unfold lo_end in H1. rewrite Hg in H1.
    apply last_Some in Hg as [l ->]. rewrite <- (assoc_L (++)) in H.
    destruct (rep_bounds_seg s _ g H (elem_middle l g l2)) as (_ & ? & _).
    unfold sg_start, sg_end in *. lia.
Qed.

Lemma MergeAll_den s l :
  RepD s l -> returns (MergeAll s) (fun s' => becomes s s' (den_at (s_world s) l)).
Proof.
  intros HD. pose proof (repd_rep _ _ HD) as H. unfold MergeAll.
  rewrite (FirstSeg_rep _ _ H), (seg_Ok_next s [] l H), (walk_fuel_rep _ _ H).
  destruct l as [| g l]; cbn [negb bool_decide decide];
    [apply returns_ret; by apply becomes_refl | cbn [next_ptr]].
  rewrite (seg_NextSeg_rep s [] g l H). apply (MergeAll_loop_den l s [] g); [done | simpl; lia].
Qed.

Lemma MergeRange_den s l r :
  RepD s l -> r_start (s_range s) <= r_start r <= End_ (s_range s) ->
  returns (MergeRange s r) (fun s' => becomes s s' (den_at (s_world s) l)).
Proof.
  intros HD Hr. pose proof (repd_rep _ _ HD) as H. unfold MergeRange.
  destruct (LowerBoundSeg_rep s l _ H Hr) as (l1 & l2 & -> & -> & _ & _).
  rewrite (seg_Ok_next s l1 l2 H), (walk_fuel_rep _ _ H).
  destruct l2 as [| g l2]; cbn [negb bool_decide decide];
    [apply returns_ret; by apply becomes_refl | cbn [next_ptr]].
  rewrite (seg_NextSeg_rep s l1 g l2 H).
  apply (MergeRange_loop_den r l2 s l1 g); [done |]. rewrite length_app. simpl. lia.
Qed.

Lemma MergeSeg_den s l1 g1 g2 l2 :
  RepD s (l1 ++ g1 :: g2 :: l2) ->
  returns ('(s', _) ← MergeSeg s (Some (sg_ptr g1)) (Some (sg_ptr g2)); Ret s')
    (fun s' => becomes s s' (den_at (s_world s) (l1 ++ g1 :: g2 :: l2))).
Proof.
  intros HD. unfold MergeSeg. rewrite (seg_NextSeg_rep s l1 g1 (g2 :: l2)) by apply HD.
  simpl. rewrite bool_decide_true by done. simpl.
  destruct (merge_step s l1 g1 g2 l2 HD)
    as (s' & h & -> & [[-> ->] | (gm & -> & HD' & Hs & Hw & Hd)]); simpl; apply returns_ret.
  - by apply becomes_refl.
  - exists (l1 ++ gm :: l2). rewrite Hw in *. split_and!; auto using ext_refl.
Qed.

Lemma merge_before s l k :
  RepD s l ->
  returns
    (if seg_Ok s (FindSeg s k) then
       let prev := seg_PrevSeg s (FindSeg s k) in
       if seg_Ok s prev then '(s', _) ← MergeSeg s prev (FindSeg s k); Ret s' else Ret s
     else Ret s)
    (fun s' => becomes s s' (den_at (s_world s) l)).
Proof.
  intros HD. destruct (seg_Ok s (FindSeg s k)) eqn:Hok; [| by apply returns_ret, becomes_refl].
  apply (FindSeg_ok s l k (repd_rep _ _ HD)) in Hok as (l1 & g & l2 & -> & -> & _).
  cbv zeta. rewrite (seg_PrevSeg_rep s l1 g l2) by apply HD.
  rewrite (seg_Ok_prev s l1 (g :: l2)) by apply HD.
  destruct l1 as [| g1 l1 _] using rev_ind; simpl; [by apply returns_ret, becomes_refl |].
  rewrite bool_decide_false by (by destruct l1). simpl. rewrite prev_ptr_snoc.
  rewrite <- (assoc_L (++)) in *. by apply MergeSeg_den.
Qed.

Lemma merge_after s l k :
  RepD s l ->
  returns
    (if seg_Ok s (FindSeg s k) then
       let next := seg_NextSeg s (FindSeg s k) in
       if seg_Ok s next then '(s', _) ← MergeSeg s (FindSeg s k) next; Ret s' else Ret s
     else Ret s)
    (fun s' => becomes s s' (den_at (s_world s) l)).
Proof.
  intros HD. destruct (seg_Ok s (FindSeg s k)) eqn:Hok; [| by apply returns_ret, becomes_refl].
  apply (FindSeg_ok s l k (repd_rep _ _ HD)) in Hok as (l1 & g & l2 & -> & -> & _).
  cbv zeta. rewrite (seg_NextSeg_rep s l1 g l2) by apply HD.
  rewrite (seg_Ok_next s (l1 ++ [g]) l2) by (apply Rep_after, HD).
  destruct l2 as [| g2 l2]; cbn [negb bool_decide decide]; [by apply returns_ret, becomes_refl |].
  by apply MergeSeg_den.
Qed.

Lemma MergeAdjacent_den s l r :
  RepD s l -> returns (MergeAdjacent s r) (fun s' => becomes s s' (den_at (s_world s) l)).
Proof.
  intros HD. unfold MergeAdjacent. eapply returns_bind; [by apply merge_before |].
  intros s1 (l1 & HD1 & Hs & He & Hd). eapply returns_mono; [apply (merge_after s1 l1 _ HD1) |].
  intros s2 Hb. exact (becomes_trans _ _ _ _ _ Hs He Hb Hd).
Qed.

(** ** Sizes *)

Fixpoint total l : Z := match l with [] => 0 | g :: l' => r_len (sg_range g) + total l' end.

Lemma total_bound lo l hi : ordered lo l hi -> 0 <= total l <= hi - lo.
Proof.
  revert lo. induction l as [| g l IH]; intros lo; simpl; [lia |].
  intros (H1 & H2 & H3%IH). unfold sg_start, sg_end in *. lia.
Qed.

Lemma Span_loop_rep s l2 :
  forall l1 fuel sz, Rep s (l1 ++ l2) -> (length l2 < fuel)%nat -> in64 sz -> in64 (sz + total l2) ->
  Span_loop fuel s (Some (next_ptr s l2)) sz = Ret (sz + total l2).
Proof.
  induction l2 as [| g l2 IH]; intros l1 [| fuel] sz H Hf Hsz Ht; simpl in Hf; try lia;
    cbn [Span_loop]; rewrite (seg_Ok_next s l1 _ H); simpl.
  - f_equal. lia.
  - rewrite (seg_NextSeg_rep s l1 g l2 H), (ERange_rep s l1 g l2 H).
    pose proof (rep_order _ _ H) as Ho. apply ordered_zip in Ho as [_ (_ & Hl & Ho)].
    pose proof (total_bound _ _ _ Ho). simpl in Ht.
    rewrite add64_small by (unfold in64 in *; lia).
    rewrite (IH (l1 ++ [g])); [f_equal; lia | by apply Rep_after | lia | unfold in64 in *; lia |].
    unfold in64 in *; lia.
Qed.

Lemma Span_rep s l : Rep s l -> Span s = Ret (total l).
Proof.
  intros H. unfold Span. rewrite (FirstSeg_rep _ _ H), (walk_fuel_rep _ _ H).
  pose proof (total_bound _ _ _ (rep_order _ _ H)). pose proof (rep_bounds _ _ H).
  apply (Span_loop_rep s l []); [done | lia | u64 | u64].
Qed.

(** The part of [r] that a segment covers. *)
Definition overlap r g : Z :=
  Z.max 0 (Z.min (r_start r + r_len r) (sg_end g) - Z.max (r_start r) (sg_start g)).

Fixpoint inter r l : Z := match l with [] => 0 | g :: l' => overlap r g + inter r l' end.

Lemma inter_app r l1 l2 : inter r (l1 ++ l2) = inter r l1 + inter r l2.
Proof. induction l1; simpl; lia. Qed.

Lemma inter_bound r l : Forall (fun g => 0 < r_len (sg_range g)) l -> 0 <= inter r l <= total l.
Proof. induction 1; simpl; unfold overlap, sg_start, sg_end in *; lia. Qed.

Lemma inter_out r lo l hi :
  ordered lo l hi -> hi <= r_start r \/ r_start r + r_len r <= lo -> inter r l = 0.
Proof.
  revert lo. induction l as [| g l IH]; intros lo; simpl; [done |].
  intros (H1 & H2 & H3) Hr. pose proof (ordered_lo_hi _ _ _ H3).
  rewrite (IH _ H3); unfold overlap, sg_start, sg_end in *; lia.
Qed.

Lemma overlap_Intersect s l1 g l2 r :
  Rep s (l1 ++ g :: l2) -> proper r -> r_start r < sg_end g -> sg_start g < End_ r ->
  r_len (Intersect (sg_range g) r) = overlap r g.
Proof.
  intros H Hr H1 H2. destruct (rep_bounds_seg s _ g H (elem_middle _ _ _)) as (Hp & Hl & _).
  rewrite End_proper in H2 by done.
  assert (0 <= r_len r) by (unfold proper, in64 in Hr; lia).
  unfold overlap, sg_start, sg_end in *.
  rewrite Intersect_proper by (rewrite ?End_proper by done; auto; lia).
  cbn [r_len]. rewrite !End_proper by done. lia.
Qed.

Lemma SpanRange_loop_rep s r l2 :
  proper r -> forall l1 fuel sz,
  Rep s (l1 ++ l2) -> (length l2 < fuel)%nat -> (forall g, head l2 = Some g -> r_start r < sg_end g) ->
  in64 sz -> in64 (sz + total l2) ->
  SpanRange_loop fuel s r (Some (next_ptr s l2)) sz = Ret (sz + inter r l2).
Proof.
  intros Hr. induction l2 as [| g l2 IH]; intros l1 [| fuel] sz H Hf Hh Hsz Ht; simpl in Hf; try lia;
    cbn [SpanRange_loop]; rewrite (seg_Ok_next s l1 _ H).
  - simpl. f_equal. lia.
  - change (negb (bool_decide (g :: l2 = []))) with true. cbn [andb next_ptr inter].
    rewrite (seg_NextSeg_rep s l1 g l2 H), (ERange_rep s l1 g l2 H).
    pose proof (rep_order _ _ H) as Ho. apply ordered_zip in Ho as [_ (_ & Hl & Ho)].
    pose proof (total_bound _ _ _ Ho) as Hb. simpl in Ht. specialize (Hh g eq_refl).
    destruct (Z.ltb_spec (r_start (sg_range g)) (End_ r)) as [Hg | Hg].
    + rewrite (overlap_Intersect s l1 g l2 r H Hr Hh Hg).
      assert (0 <= overlap r g <= r_len (sg_range g)) by (unfold overlap, sg_start, sg_end; lia).
      rewrite add64_small by (unfold in64 in *; lia).
      rewrite (IH (l1 ++ [g])); [f_equal; lia | by apply Rep_after | lia | | unfold in64 in *; lia
                                | unfold in64 in *; lia].
      intros g' Hg'. destruct l2 as [| g2 l2]; [done |]. injection Hg' as ->.
      simpl in Ho. unfold sg_start, sg_end in *. lia.
    + rewrite End_proper in Hg by done.
      rewrite (inter_out r (sg_end g) l2 _ Ho) by (unfold sg_end; lia).
      f_equal. unfold overlap, sg_start, sg_end in *. lia.
Qed.

Lemma SpanRange_rep s l r :
  Rep s l -> proper r -> r_start (s_range s) <= r_start r <= End_ (s_range s) ->
  SpanRange s r = Ret (inter r l).
Proof.
  intros H Hr Hk. unfold SpanRange. pose proof (rep_bounds _ _ H) as Hb.
  assert (Forall (fun g => 0 < r_len (sg_range g)) l) as Hpos.
  { apply Forall_forall. intros g Hg. by destruct (rep_bounds_seg s l g H Hg) as (_ & ? & _). }
  destruct (Z.eqb_spec (r_len r) 0) as [Hz | Hz].
  { f_equal. symmetry. clear -Hz Hpos. induction Hpos as [| g l Hg _ IH]; [done |].
    simpl. rewrite IH. unfold overlap, sg_start, sg_end. lia. }
  destruct (LowerBoundSeg_rep s l _ H Hk) as (l1 & l2 & -> & -> & Hlo & Hh).
  rewrite (walk_fuel_rep _ _ H), inter_app.
  pose proof (rep_order _ _ H) as [Ho1 Ho2]%ordered_zip.
  rewrite (inter_out r _ l1 _ Ho1) by lia.
  pose proof (total_bound _ _ _ Ho2). pose proof (total_bound _ _ _ Ho1).
  rewrite (SpanRange_loop_rep s r l2 Hr l1); [done | done | rewrite length_app; lia | done | u64 |].
  u64.
Qed.

(** ** Splitting at an address *)

Lemma SplitAt_den s l k :
  RepD s l ->
  returns (SplitAt s k) (fun res =>
    becomes s res.1 (den_at (s_world s) l) /\
    (res.2 = true <-> exists g, g ∈ l /\ sg_start g < k < sg_end g) /\
    (res.2 = false -> res.1 = s)).
Proof.
  intros HD. pose proof (repd_rep _ _ HD) as H. unfold SplitAt.
  destruct (seg_Ok s (FindSeg s k)) eqn:Hok; simpl.
  - apply (FindSeg_ok s l k H) in Hok as (l1 & g & l2 & -> & -> & Hc).
    destruct (CanSplitAt_seg s l1 g l2 k H) as [Hk | Hk].
    + eapply returns_bind; [by apply split_den |].
      intros [s' hs] (ga & gb & _ & HD' & Hs & He & _ & _ & Hd). apply returns_ret. cbn [fst snd] in *.
      split_and!; [by exists (l1 ++ ga :: gb :: l2) | | done].
      split; [| done]. intros _. exists g. split; [apply elem_middle | done].
    + apply returns_ret. cbn [fst snd]. split_and!; [by apply becomes_refl | | done].
      split; [done |]. intros (g' & Hg' & Hk'). exfalso. apply Hk.
      rewrite (ordered_cover_unique s l1 g l2 k H Hc g' Hg') in Hk'; [done |].
      unfold covers, sg_start, sg_end in *. lia.
  - apply returns_ret. cbn [fst snd]. split_and!; [by apply becomes_refl | | done].
    split; [done |]. intros (g & Hg & Hk). exfalso.
    rewrite (FindSeg_covered s l k g H Hg) in Hok; [done |].
    unfold covers, sg_start, sg_end in *. lia.
Qed.

(** ** Removing a range *)

(** The start of the second segment that starts above [r.start]. *)
Definition stop_at s r l : Z := hi_start s (tail (filter (fun g => r_start r < sg_start g) l)).

Lemma stop_at_app s r l1 l2 :
  Forall (fun g => sg_start g <= r_start r) l1 -> Forall (fun g => r_start r < sg_start g) l2 ->
  stop_at s r (l1 ++ l2) = hi_start s (tail l2).
Proof.
  intros H1 H2. unfold stop_at. rewrite filter_app.
  rewrite (filter_none _ l1), (filter_all _ l2 H2); [done |].
  eapply Forall_impl; [exact H1 |]. intros g. cbv beta. lia.
Qed.

Lemma ordered_starts lo l hi k : ordered lo l hi -> k < lo -> Forall (fun g => k < sg_start g) l.
Proof.
  intros H Hk. apply Forall_forall. intros g Hg. pose proof (ordered_elem _ _ _ _ H Hg). lia.
Qed.

Lemma ordered_starts_le lo l hi k : ordered lo l hi -> hi <= k -> Forall (fun g => sg_start g <= k) l.
Proof.
  intros H Hk. apply Forall_forall. intros g Hg.
  pose proof (ordered_elem _ _ _ _ H Hg). unfold sg_start, sg_end in *. lia.
Qed.

Lemma hi_start_tail s l1 g l2 : Rep s (l1 ++ g :: l2) -> sg_end g <= hi_start s l2.
Proof. intros H. apply (fits_seg _ _ _ _ H). Qed.

Lemma den_clear s w l1 l2 x :
  Rep s (l1 ++ l2) -> lo_end s l1 <= x < hi_start s (tail l2) ->
  (forall g, head l2 = Some g -> ~ covers (sg_range g) x) -> den_at w (l1 ++ l2) x = None.
Proof.
  intros H Hx Hh. pose proof (rep_order _ _ H) as [Ho1 Ho2]%ordered_zip.
  rewrite den_at_app, (den_at_out w _ l1 _ x Ho1) by lia.
  destruct l2 as [| g l2]; [done |]. change (den_at w (g :: l2) x) with
    (if coverb (sg_range g) x then Some (den w (sg_range g) (sg_val g) x) else den_at w l2 x).
  rewrite (proj2 (coverb_false _ _) (Hh g eq_refl)). simpl in Hx, Ho2. destruct Ho2 as (_ & _ & Ho2).
  apply (den_at_out w (hi_start s l2) l2 (End_ (s_range s))); [| lia].
  eapply ordered_relax; [exact Ho2 | lia].
Qed.

(** One iteration of the loop removes the part of the segment inside [r]; the
    iterator stays on the removed entry, so the loop ends. *)
Lemma RemoveRange_loop_den s l1 l2 r gap fuel :
  RepD s (l1 ++ l2) -> proper r -> 0 < r_len r -> r_start r <= hi_start s l2 -> (2 <= fuel)%nat ->
  returns (RemoveRange_loop fuel s r (Some (next_ptr s l2)) gap) (fun res =>
    becomes s res.1 (fun x =>
      if coverb r x && match head l2 with Some g => coverb (sg_range g) x | None => false end
      then None else den_at (s_world s) (l1 ++ l2) x)).
Proof.
  intros HD Hr Hlen Hst Hf. pose proof (repd_rep _ _ HD) as H.
  destruct fuel as [| [| fuel]]; [lia | lia |].
  cbn [RemoveRange_loop]. rewrite (seg_Ok_next s l1 l2 H), (start_next s l1 l2 H).
  destruct l2 as [| g l2].
  { apply returns_ret. eexists. split_and!; [exact HD | apply same_refl | apply ext_refl |].
    intros x. simpl. by rewrite andb_false_r. }
  change (negb (bool_decide (g :: l2 = []))) with true. cbn [andb hi_start head next_ptr] in *.
  pose proof (End_proper _ Hr) as Er. destruct (Z.ltb_spec (sg_start g) (End_ r)) as [Hg | Hg].
  2: { apply returns_ret. eexists. split_and!; [exact HD | apply same_refl | apply ext_refl |].
       intros x. cbn [fst]. destruct (coverb r x && coverb (sg_range g) x) eqn:Hc; [| done].
       apply andb_true_iff in Hc as [H1%coverb_spec H2%coverb_spec].
       unfold covers, sg_start in *. lia. }
  eapply returns_bind; [by apply Isolate_den |].
  intros [s1 h1] (l1' & g' & l2' & Hh & HD1 & Hs1 & He1 & Hleft & Hright & Hd1). cbn [fst snd] in *.
  subst h1. destruct Hleft as [(-> & Est & _) | (? & _)]; [| lia].
  eapply returns_bind; [by apply Remove_den |].
  intros [s2 h2] (_ & HD2 & Hs2 & Hw2 & Hnok & Hd2). cbn [fst snd] in *.
  rewrite Hnok. apply returns_ret. exists (l1 ++ l2'). cbn [fst]. rewrite Hw2.
  split_and!; [done | by eapply same_trans | done |].
  intros x. rewrite Hd2, Hd1.
  assert (coverb (sg_range g') x = coverb r x && coverb (sg_range g) x) as ->; [| done].
  apply Bool.eq_iff_eq_true. rewrite andb_true_iff, !coverb_spec. unfold covers.
  unfold sg_start, sg_end in *.
  destruct Hright as [(_ & Een & Hno) | (Hin & Een & _)]; lia.
Qed.

Definition cleared s l r (x : Z) : option D :=
  if coverb r x && (x <? stop_at s r l) then None else den_at (s_world s) l x.

Lemma becomes_ext s s' m m' : (forall x, m x = m' x) -> becomes s s' m -> becomes s s' m'.
Proof. intros E (l & HD & Hs & He & Hd). exists l. split_and!; auto. intros x. by rewrite Hd. Qed.

Lemma stop_at_gap s l1 l2 r :
  Rep s (l1 ++ l2) -> lo_end s l1 <= r_start r -> (l2 <> [] -> r_start r < hi_start s l2) ->
  stop_at s r (l1 ++ l2) = hi_start s (tail l2).
Proof.
  intros H H1 H2. pose proof (rep_order _ _ H) as [Ho1 Ho2]%ordered_zip.
  apply stop_at_app; [by eapply ordered_starts_le |].
  destruct l2 as [| g l2]; [constructor |]. specialize (H2 ltac:(done)).
  simpl in H2, Ho2. apply (ordered_starts (sg_start g) _ (End_ (s_range s))); [| done].
  simpl. split; [lia | tauto].
Qed.

(** The two cases of [RemoveRange]: [r.start] is in a gap, or in the segment [g]. *)
Lemma cleared_gap s l1 l2 r x :
  Rep s (l1 ++ l2) -> lo_end s l1 <= r_start r -> (l2 <> [] -> r_start r < hi_start s l2) ->
  (if coverb r x && match head l2 with Some g => coverb (sg_range g) x | None => false end
   then None else den_at (s_world s) (l1 ++ l2) x) = cleared s (l1 ++ l2) r x.
Proof.
  intros H H1 H2. pose proof (rep_order _ _ H) as [Ho1 _]%ordered_zip. unfold cleared.
  rewrite stop_at_gap by done.
  destruct (coverb r x) eqn:Hc; simpl; [| done]. apply coverb_spec in Hc. unfold covers in Hc.
  destruct l2 as [| g l2]; simpl.
  - rewrite app_nil_r in *. destruct (x <? _) eqn:?; [| done].
    apply (den_at_out _ _ _ _ _ Ho1). lia.
  - pose proof (hi_start_tail _ _ _ _ H) as Hhi.
    destruct (coverb (sg_range g) x) eqn:Hg.
    + apply coverb_spec in Hg. unfold covers, sg_end in *.
      by rewrite (proj2 (Z.ltb_lt x (hi_start s l2))) by lia.
    + destruct (Z.ltb_spec x (hi_start s l2)); [| done].
      apply (den_clear s _ l1 (g :: l2) x H); [simpl; lia |].
      intros g' [= <-]. by apply coverb_false.
Qed.

Lemma RemoveRange_seg s l1 g l2 r :
  RepD s (l1 ++ g :: l2) -> covers (sg_range g) (r_start r) -> proper r -> 0 < r_len r ->
  returns ('(s1, h) ← Isolate s (Some (sg_ptr g)) r; Remove s1 h) (fun res => exists l1' l2',
    res.2 = Some (prev_ptr res.1 l1') /\ RepD res.1 (l1' ++ l2') /\ same s res.1 /\
    ext (s_world s) (s_world res.1) /\ lo_end res.1 l1' <= r_start r /\
    (l2' <> [] -> r_start r < hi_start res.1 l2') /\
    hi_start res.1 (tail l2') = (if End_ r <? sg_end g then hi_start s l2 else hi_start s (tail l2)) /\
    forall x, den_at (s_world res.1) (l1' ++ l2') x =
      if coverb r x && (x <? sg_end g) then None else den_at (s_world s) (l1 ++ g :: l2) x).
Proof.
  intros HD Hc Hr Hlen. pose proof (repd_rep _ _ HD) as H. pose proof (End_proper _ Hr) as Er.
  eapply returns_bind; [by apply Isolate_den |].
  intros [s1 h1] (l1' & g' & l2' & Hh & HD1 & Hs1 & He1 & Hleft & Hright & Hd1). cbn [fst snd] in *.
  subst h1. unfold covers in Hc.
  assert (sg_start g' = r_start r) as Est by (unfold sg_start, sg_end in *; lia).
  assert (sg_end g' = Z.min (End_ r) (sg_end g)) as Een by (unfold sg_start, sg_end in *; lia).
  eapply returns_mono; [by apply Remove_den |].
  intros [s2 h2] (Hh2 & HD2 & Hs2 & Hw2 & _ & Hd2). cbn [fst snd] in *. exists l1', l2'.
  pose proof (fits_seg _ _ _ _ (repd_rep _ _ HD1)) as (Hlo & Hl' & Hhi).
  rewrite (same_prev _ _ _ Hs2), (same_lo _ _ _ Hs2), !(same_hi _ _ _ Hs2).
  change (r_start (sg_range g')) with (sg_start g') in *.
  split_and!; [done | done | by eapply same_trans | by rewrite Hw2 | lia | | |].
  - intros _. lia.
  - destruct Hright as [(-> & E & Hno) | (Hin & E & gr & ->)].
    + rewrite (same_hi _ _ _ Hs1). by rewrite (proj2 (Z.ltb_ge (End_ r) (sg_end g))) by lia.
    + simpl. rewrite (same_hi _ _ _ Hs1). by rewrite (proj2 (Z.ltb_lt (End_ r) (sg_end g))) by lia.
  - intros x. rewrite Hw2, Hd2, Hd1.
    assert (coverb (sg_range g') x = coverb r x && (x <? sg_end g)) as ->; [| done].
    apply Bool.eq_iff_eq_true. rewrite andb_true_iff, !coverb_spec, Z.ltb_lt. unfold covers.
    unfold sg_start, sg_end in *. lia.
Qed.

Lemma stop_at_seg s l1 g l2 r :
  Rep s (l1 ++ g :: l2) -> covers (sg_range g) (r_start r) ->
  stop_at s r (l1 ++ g :: l2) = hi_start s (tail l2) /\ sg_end g <= hi_start s l2 <= hi_start s (tail l2).
Proof.
  intros H Hc. unfold covers in Hc. pose proof (rep_order _ _ H) as [Ho1 (Hlo & Hl & Ho2)]%ordered_zip.
  rewrite cons_middle, (assoc_L (++)). split.
  - apply stop_at_app.
    + apply Forall_app. split; [eapply ordered_starts_le; [exact Ho1 |] |].
      * unfold sg_start in Hlo. lia.
      * apply Forall_singleton. unfold sg_start. lia.
    + eapply ordered_starts; [exact Ho2 | unfold sg_end; lia].
  - destruct l2 as [| g2 l2]; simpl; [simpl in Ho2; lia |]. destruct Ho2 as (? & ? & Ho2).
    pose proof (ordered_lo_hi _ _ _ Ho2). destruct l2; simpl in *; unfold sg_start, sg_end in *; lia.
Qed.

Lemma RemoveRange_den s l r :
  RepD s l -> proper r -> 0 < r_len r -> r_start (s_range s) <= r_start r <= End_ (s_range s) ->
  returns (RemoveRange s r) (fun res => becomes s res.1 (cleared s l r)).
Proof.
  intros HD Hr Hlen Hk. pose proof (repd_rep _ _ HD) as H. unfold RemoveRange, Find.
  destruct (FindArea_rep s l _ H Hk) as [l1 g l2 -> Hc | l1 l2 -> H1 H2]; cbn [area_Seg area_Gap].
  - rewrite (seg_Ok_rep s l1 g l2 H). eapply returns_bind; [by apply RemoveRange_seg |].
    intros [s2 h] (l1' & l2' & Hh & HD2 & Hs2 & He2 & Hlo & Hhi & Htl & Hd2). cbn [fst snd] in *. subst h.
    pose proof (repd_rep _ _ HD2) as HR2. rewrite (gap_NextSeg_rep s2 l1' l2' HR2).
    eapply returns_mono.
    { apply (RemoveRange_loop_den s2 l1' l2'); auto; [| rewrite (walk_fuel_rep _ _ HR2); lia].
      destruct l2' as [| g2 l2']; [| specialize (Hhi ltac:(done)); lia].
      simpl. destruct Hs2 as (-> & _). lia. }
    intros [s3 h3] (l3 & HD3 & Hs3 & He3 & Hd3). exists l3. cbn [fst] in *.
    split_and!; [done | by eapply same_trans | by eapply ext_trans |].
    intros x. rewrite Hd3, cleared_gap by done. unfold cleared. rewrite stop_at_gap by done.
    destruct (stop_at_seg s l1 g l2 r H Hc) as [-> Hst]. rewrite Htl, Hd2.
    destruct (coverb r x) eqn:Hx; simpl; [| done]. apply coverb_spec in Hx. unfold covers in Hx.
    rewrite End_proper by done. destruct (Z.ltb_spec (r_start r + r_len r) (sg_end g));
      destruct (Z.ltb_spec x (sg_end g)), (Z.ltb_spec x (hi_start s l2)),
        (Z.ltb_spec x (hi_start s (tail l2))); done || lia.
  - change (seg_Ok s None) with false. simpl. rewrite (gap_NextSeg_rep s l1 l2 H). eapply returns_mono.
    { apply (RemoveRange_loop_den s l1 l2); auto; [| rewrite (walk_fuel_rep _ _ H); lia].
      destruct l2 as [| g2 l2']; [simpl; lia | specialize (H2 ltac:(done)); lia]. }
    intros res Hb. eapply becomes_ext; [| exact Hb]. intros x. by apply cleared_gap.
Qed.

(** ** Construction, insertion, clearing *)

Lemma New_rep w start len :
  in64 start -> in64 len -> len = U64_MAX \/ start + len <= U64_MAX ->
  Rep (AreaSet_New (T := T) w start len) [].
Proof.
  intros Hs Hl Hsum.
  assert (End_ (mkRange start len) = if negb (len =? U64_MAX) then start +w len else U64_MAX) as HE.
  { unfold End_. cbn [r_len r_start]. change MAX_RANGE with U64_MAX. by destruct (len =? U64_MAX). }
  assert (start <= End_ (mkRange start len) <= U64_MAX) as Hb.
  { rewrite HE. destruct (Z.eqb_spec len U64_MAX); simpl; [u64 |].
    destruct Hsum; [done |]. rewrite add64_small; u64. }
  split; cbn [AreaSet_New s_map s_range r_start index_of ordered fmap list_fmap]; try done; [| u64 | u64].
  split; unfold rows, rowsL, head_row, tail_row, AreaSet_New; simpl.
  - split_and!; [done | | done]. rewrite lookup_insert_ne, lookup_singleton_eq by done. rewrite HE.
    by destruct (negb _).
  - apply NoDup_cons. split; [set_solver | apply NoDup_singleton].
  - repeat constructor; simpl; lia.
Qed.

Lemma Add_den s l r v :
  RepD s l -> proper r -> 0 < r_len r -> r_start (s_range s) <= r_start r ->
  r_start r + r_len r <= End_ (s_range s) ->
  valid (s_world s) v -> NoDup (fp v ++ fps l) ->
  returns (Add s r v) (fun res =>
    if res.2 then
      (forall x, covers r x -> den_at (s_world s) l x = None) /\
      becomes s res.1 (fun x => if coverb r x then Some (den (s_world s) r v x) else den_at (s_world s) l x)
    else res.1 = s /\ exists x d, covers r x /\ den_at (s_world s) l x = Some d).
Proof.
  intros HD Hr Hlen Hlo Hhi Hv Hn. pose proof (repd_rep _ _ HD) as H. unfold Add, FindGap.
  pose proof (End_proper _ Hr) as Er.
  destruct (FindArea_rep s l (r_start r) H) as [l1 g l2 -> Hc | l1 l2 -> H1 H2]; [lia | |]; cbn [area_Gap].
  - change (gap_Ok s None) with false. apply returns_ret. cbn [fst snd]. split; [done |].
    exists (r_start r), (den (s_world s) (sg_range g) (sg_val g) (r_start r)).
    split; [unfold covers; lia |]. rewrite (den_at_middle s l1 g l2 _ _ H).
    by rewrite (proj2 (coverb_spec _ _) Hc).
  - rewrite (gap_Ok_rep s l1 l2 H), (gap_End_rep s l1 l2 H). cbn [negb]. rewrite Er.
    destruct (Z.ltb_spec (hi_start s l2) (r_start r + r_len r)) as [Hb | Hb].
    + apply returns_ret. cbn [fst snd]. split; [done |].
      destruct l2 as [| g l2]; simpl in Hb; [lia |]. specialize (H2 ltac:(done)). simpl in H2.
      exists (sg_start g), (den (s_world s) (sg_range g) (sg_val g) (sg_start g)).
      split; [unfold covers; lia |]. rewrite (den_at_middle s l1 g l2 _ _ H).
      destruct (rep_bounds_seg s _ g H (elem_middle _ _ _)) as (_ & ? & _).
      by rewrite (proj2 (coverb_spec _ (sg_start g))) by (unfold covers, sg_start; lia).
    + eapply returns_bind; [apply (Insert_den s l1 l2 r v); [done | by split_and! | done | done] |].
      intros [s' h] Hins. apply returns_ret. cbn [fst snd]. split.
      * intros x Hx. unfold covers in Hx. pose proof (rep_order _ _ H) as [Ho1 Ho2]%ordered_zip.
        rewrite den_at_app, (den_at_out _ _ l1 _ x Ho1) by lia.
        apply (den_at_out _ (hi_start s l2) l2 (End_ (s_range s))); [| lia].
        by eapply ordered_relax.
      * destruct Hins as (l1' & g' & l2' & _ & HD' & Hs & Hw & _ & _ & _ & Hd). cbn [fst] in *.
        exists (l1' ++ g' :: l2'). rewrite Hw. split_and!; auto using ext_refl.
Qed.

Lemma RemoveAll_loop_rep l :
  forall s, Linked s l ->
  exists s', RemoveAll_loop s (index_of l) = Ret s' /\ Linked s' [] /\ same s s' /\ s_world s' = s_world s.
Proof.
  induction l as [| g l IH]; intros s H; simpl.
  - exists s. split_and!; auto using same_refl.
  - destruct (EntryRemove_linked s [] g l H) as (s1 & -> & H1 & Hs1 & _ & Hw1 & _). simpl.
    destruct (IH s1 H1) as (s2 & -> & H2 & Hs2 & Hw2). exists s2.
    split_and!; auto; [by eapply same_trans | congruence].
Qed.

Lemma RemoveAll_rep s l :
  Rep s l -> returns (RemoveAll s) (fun s' => Rep s' [] /\ same s s' /\ s_world s' = s_world s).
Proof.
  intros H. unfold RemoveAll. rewrite (rep_index _ _ H).
  destruct (RemoveAll_loop_rep l s (rep_linked _ _ H)) as (s' & -> & HL & Hs & Hw). simpl.
  apply returns_ret. split_and!; auto. pose proof (rep_bounds _ _ H) as Hb.
  pose proof (ordered_lo_hi _ _ _ (rep_order _ _ H)). destruct Hs as (Hr & _ & _).
  split; [by apply Linked_map | done | simpl; by rewrite Hr | simpl; by rewrite Hr].
Qed.
End Thm.
