(* ===== verification/AreaProps.v ===== *)
(** The properties of [AreaSet] (qlib/mem/areaset.rs), proved against the trait
    contract [AreaLaws], with a concrete value type for the examples: integer tags that
    merge when they are equal, as the flags of two mappings do. *)
From S2P Require Import Prelude BTree Range AreaSet AreaRep AreaSpec AreaOps AreaDen AreaThm.
#[local] Open Scope Z_scope.
#[local] Open Scope u64_scope.

Section Props.
Context {W T D : Type} `{AL : AreaLaws W T D}.
Implicit Types (s : AreaSet W T) (l : list (seg T)) (g : seg T) (r : Range) (v : T) (w : W).

(** C4: a new set over a range that does not overflow is well formed and maps no
    address; [Add] on a set inserts the value exactly when no address of [r] is mapped:
    it returns true, every address of [r] then has the meaning of [v] and every other
    address the meaning it had; otherwise it returns false and changes nothing.  It
    never panics, whichever neighbours the new segment merges with. *)
Theorem Add_spec s l r v :
  RepD s l -> proper r -> 0 < r_len r -> r_start (s_range s) <= r_start r ->
  r_start r + r_len r <= End_ (s_range s) ->
  valid (s_world s) v -> NoDup (fp v ++ fps l) ->
  exists s' b, Add s r v = Ret (s', b) /\
    (b = true <-> forall x, covers r x -> den_at (s_world s) l x = None) /\
    (b = true -> becomes s s' (fun x =>
       if coverb r x then Some (den (s_world s) r v x) else den_at (s_world s) l x)) /\
    (b = false -> s' = s).
Proof.
  intros HD Hr Hl Hlo Hhi Hv Hn. destruct (Add_den s l r v) as ([s' b] & -> & HQ); auto.
  exists s', b. split; [done |]. destruct b; cbn [fst snd] in HQ.
  - destruct HQ as [Hnone Hb]. split_and!; [done | done | done].
  - destruct HQ as [-> (x & d & Hx & Hd)]. split_and!; [| done | done].
    split; [done |]. intros Hnone. rewrite Hnone in Hd; done.
Qed.

(** [FindArea] on a key inside the set's range returns the segment that covers the
    key when there is one, and otherwise the gap around it; keys outside the range
    give the head or the tail, which are not valid segments. *)
Theorem FindArea_spec s l key :
  Rep s l ->
  (forall g, g ∈ l -> covers (sg_range g) key -> FindArea s key = SegArea (Some (sg_ptr g))) /\
  ((forall g, g ∈ l -> ~ covers (sg_range g) key) ->
     r_start (s_range s) <= key <= End_ (s_range s) ->
     exists gap, FindArea s key = GapArea gap /\ gap_Ok s gap = true /\
       r_start (gap_Range s gap) <= key <= End_ (gap_Range s gap)) /\
  (key < r_start (s_range s) \/ End_ (s_range s) < key ->
     seg_Ok s (area_Seg (FindArea s key)) = false /\ gap_Ok s (area_Gap (FindArea s key)) = false).
Proof.
  intros H. split_and!.
  - intros g Hg Hc. destruct (FindSeg_ok s l key H (FindSeg_covered s l key g H Hg Hc))
      as (l1 & g' & l2 & -> & Hf & Hc').
    rewrite (ordered_cover_unique s l1 g' l2 key H Hc' g Hg Hc). unfold FindSeg in Hf.
    destruct (FindArea s key); [by simpl in Hf; subst | done].
  - intros Hno Hk. destruct (FindArea_rep s l key H Hk) as [l1 g l2 -> Hc | l1 l2 -> H1 H2].
    + exfalso. exact (Hno g (elem_middle _ _ _) Hc).
    + exists (Some (prev_ptr s l1)). rewrite (gap_Ok_rep s l1 l2 H), (gap_End_rep s l1 l2 H),
        (gap_Range_rep s l1 l2 H). simpl. split_and!; auto.
      destruct l2 as [| g l2]; [simpl; lia | specialize (H2 ltac:(done)); lia].
  - intros Hk. split.
    + apply not_true_iff_false. intros Hok. change (seg_Ok s (FindSeg s key) = true) in Hok.
      apply (FindSeg_ok s l key H) in Hok as (l1 & g & l2 & -> & _ & Hc).
      pose proof (rep_bounds_seg s _ g H (elem_middle _ _ _)). unfold covers, sg_start, sg_end in *. lia.
    + unfold FindArea. destruct (Z.ltb_spec key (r_start (s_range s))); [done |].
      by destruct (Z.ltb_spec (End_ (s_range s)) key); [| lia].
Qed.

(** C22: [Isolate] of a segment that overlaps [r] returns the entry of a segment that
    is exactly the intersection of the two, and leaves the meaning of every address
    unchanged. *)
Theorem Isolate_spec s l1 g l2 r :
  RepD s (l1 ++ g :: l2) -> proper r -> 0 < r_len r -> Overlaps (sg_range g) r = true ->
  exists s' l1' g' l2', Isolate s (Some (sg_ptr g)) r = Ret (s', Some (sg_ptr g')) /\
    RepD s' (l1' ++ g' :: l2') /\ same s s' /\
    sg_start g' = Z.max (sg_start g) (r_start r) /\ sg_end g' = Z.min (sg_end g) (End_ r) /\
    forall x, den_at (s_world s') (l1' ++ g' :: l2') x = den_at (s_world s) (l1 ++ g :: l2) x.
Proof.
  intros HD Hr Hl Ho. pose proof (rep_bounds_seg s _ g (repd_rep _ _ HD) (elem_middle _ _ _)) as (Hp & Hg & _).
  destruct (Isolate_den s l1 g l2 r HD) as ([s' h] & -> & l1' & g' & l2' & Hh & HD' & Hs & He & H1 & H2 & Hd).
  cbn [fst snd] in *. subst h. exists s', l1', g', l2'.
  unfold Overlaps in Ho. apply andb_true_iff in Ho as [Ho1%Z.ltb_lt Ho2%Z.ltb_lt].
  rewrite !End_proper in * by done. unfold sg_start, sg_end in *.
  split_and!; auto; lia.
Qed.

(** [RemoveRange] unmaps the part of [r] below the second segment that starts above
    [r.start], and nothing else: because the loop does not advance after the
    first removal, what a third segment maps inside [r] stays mapped. *)
Theorem RemoveRange_spec s l r :
  RepD s l -> proper r -> 0 < r_len r -> r_start (s_range s) <= r_start r <= End_ (s_range s) ->
  exists s' gap, RemoveRange s r = Ret (s', gap) /\
    becomes s s' (fun x =>
      if coverb r x && (x <? stop_at s r l) then None else den_at (s_world s) l x).
Proof.
  intros HD Hr Hl Hk. destruct (RemoveRange_den s l r HD Hr Hl Hk) as ([s' gap] & -> & Hb).
  by exists s', gap.
Qed.
End Props.

Section Props2.
Context {W T D : Type} `{AL : AreaLaws W T D}.
Implicit Types (s : AreaSet W T) (l : list (seg T)) (g : seg T) (r : Range).

(** [MergeAll], [MergeRange] and [MergeAdjacent] terminate without panicking and
    keep the meaning of every address: merging only changes how the map is cut into
    segments. *)
Theorem Merge_spec s l r :
  RepD s l ->
  (exists s', MergeAll s = Ret s' /\ becomes s s' (den_at (s_world s) l)) /\
  (exists s', MergeAdjacent s r = Ret s' /\ becomes s s' (den_at (s_world s) l)) /\
  (r_start (s_range s) <= r_start r <= End_ (s_range s) ->
     exists s', MergeRange s r = Ret s' /\ becomes s s' (den_at (s_world s) l)).
Proof.
  intros HD. split_and!; [by apply MergeAll_den | by apply MergeAdjacent_den |].
  intros Hk. by apply MergeRange_den.
Qed.

(** [SplitAt] splits exactly when the address is strictly inside a segment, returns
    whether it did, and keeps the meaning of every address. *)
Theorem SplitAt_spec s l k :
  RepD s l ->
  exists s' b, SplitAt s k = Ret (s', b) /\ becomes s s' (den_at (s_world s) l) /\
    (b = true <-> exists g, g ∈ l /\ sg_start g < k < sg_end g) /\ (b = false -> s' = s).
Proof.
  intros HD. destruct (SplitAt_den s l k HD) as ([s' b] & -> & HQ). by exists s', b.
Qed.

(** [Span] is the number of mapped addresses and [SpanRange] the number of them in
    [r]: the walks end, and the 64-bit sums do not overflow. *)
Theorem Span_spec s l r :
  Rep s l -> proper r -> r_start (s_range s) <= r_start r <= End_ (s_range s) ->
  Span s = Ret (total l) /\ SpanRange s r = Ret (inter r l) /\
  0 <= inter r l <= total l /\ total l <= U64_MAX.
Proof.
  intros H Hr Hk. rewrite (Span_rep _ _ H), (SpanRange_rep _ _ _ H Hr Hk). split_and!; try done.
  1, 2: apply inter_bound, Forall_forall; intros g Hg; by apply (rep_bounds_seg s l g H Hg).
  pose proof (total_bound _ _ _ (rep_order _ _ H)). pose proof (rep_bounds _ _ H). lia.
Qed.
End Props2.

(** * A concrete value type *)

(** Decides a closed proposition about the example below. *)
Ltac concrete := vm_compute; intuition congruence.

#[export] Instance TagValue : AreaValue unit Z := {|
  av_Merge _ _ _ a b := if a =? b then Some a else None;
  av_Split w _ _ v := ((v, v), w);
|}.

#[export] Instance TagLaws : AreaLaws unit Z Z.
Proof.
  refine {| den := fun _ _ v _ => v; fp := fun _ => []; valid := fun _ _ => True |}.
  - intros w r1 r2 v1 v2 v. cbn [av_Merge TagValue]. destruct (Z.eqb_spec v1 v2) as [<- |]; [| done].
    intros [= <-] _ _ _. done.
  - intros w r k v a b w' [= <- <- <-] _ _. split_and!; auto using NoDup_nil_2.
    intros v0 _. split_and!; auto. intros p Hp. by apply elem_of_nil in Hp.
Defined.

(** [0,10) and [20,30) with tag 7, [40,50) with tag 8, in a set over [0,100). *)
Definition demo : AreaSet unit Z :=
  match
    ('(s, _) ← Add (AreaSet_New (T := Z) tt 0 100) (mkRange 0 10) 7;
     '(s, _) ← Add s (mkRange 20 10) 7;
     Add s (mkRange 40 10) 8)
  with
  | Ret (s, _) => s
  | _ => AreaSet_New tt 0 100
  end.
Definition demo_segs : list (seg Z) :=
  [mkSeg 3 (mkRange 0 10) 7; mkSeg 4 (mkRange 20 10) 7; mkSeg 5 (mkRange 40 10) 8].

Lemma demo_rep : RepD demo demo_segs.
Proof.
  split; [| split; [constructor | repeat constructor]].
  split; [split | reflexivity | concrete | concrete].
  - vm_compute. tauto.
  - apply (bool_decide_unpack _). vm_compute. exact I.
  - repeat constructor.
Qed.

Lemma Add_witness :
  exists s', Add demo (mkRange 10 10) 7 = Ret (s', true) /\
    becomes demo s' (fun x => if coverb (mkRange 10 10) x then Some 7 else den_at tt demo_segs x).
Proof.
  destruct (Add_spec demo demo_segs (mkRange 10 10) 7 demo_rep ltac:(concrete) ltac:(concrete)
              ltac:(concrete) ltac:(concrete) I NoDup_nil_2) as (s' & b & E & Hb & Ht & _).
  exists s'. assert (b = true) as ->; [| by split; [| apply Ht]].
  clear -E. vm_compute in E. congruence.
Defined.

Lemma FindArea_witness :
  FindArea demo 25 = SegArea (Some 4%positive) /\
  exists gap, FindArea demo 15 = GapArea gap /\ gap_Ok demo gap = true.
Proof.
  destruct (FindArea_spec demo demo_segs 25 (repd_rep _ _ demo_rep)) as (H1 & _ & _).
  destruct (FindArea_spec demo demo_segs 15 (repd_rep _ _ demo_rep)) as (_ & H2 & _). split.
  - apply (H1 (mkSeg 4 (mkRange 20 10) 7)); [right; left | concrete].
  - destruct H2 as (gap & E & Hok & _); [| concrete |].
    2: { exists gap. split; [exact E | exact Hok]. }
    intros g Hg. repeat (apply elem_of_cons in Hg as [-> | Hg]); [concrete.. |].
    by apply elem_of_nil in Hg.
Defined.

Lemma Isolate_witness :
  exists s' p l1' g' l2', Isolate demo (Some 4%positive) (mkRange 15 10) = Ret (s', Some p) /\
    RepD s' (l1' ++ g' :: l2') /\ sg_start g' = 20 /\ sg_end g' = 25.
Proof.
  destruct (Isolate_spec demo [mkSeg 3 (mkRange 0 10) 7] (mkSeg 4 (mkRange 20 10) 7)
              [mkSeg 5 (mkRange 40 10) 8] (mkRange 15 10) demo_rep
              ltac:(concrete) ltac:(concrete) ltac:(concrete))
    as (s' & l1' & g' & l2' & E & HD & _ & Hs & He & _).
  exists s', (sg_ptr g'), l1', g', l2'. split_and!; [exact E | exact HD | exact Hs | exact He].
Defined.

Lemma RemoveRange_witness :
  exists s' gap, RemoveRange demo (mkRange 5 20) = Ret (s', gap) /\
    becomes demo s' (fun x =>
      if coverb (mkRange 5 20) x && (x <? 40) then None else den_at tt demo_segs x).
Proof.
  apply (RemoveRange_spec demo demo_segs (mkRange 5 20) demo_rep); concrete.
Defined.

Lemma Merge_witness :
  exists s', MergeAll demo = Ret s' /\ becomes demo s' (den_at tt demo_segs).
Proof. destruct (Merge_spec demo demo_segs (mkRange 0 100) demo_rep) as [H _]. exact H. Defined.

Lemma SplitAt_witness :
  exists s' b, SplitAt demo 25 = Ret (s', b) /\ becomes demo s' (den_at tt demo_segs).
Proof.
  destruct (SplitAt_spec demo demo_segs 25 demo_rep) as (s' & b & E & H & _).
  exists s', b. split; [exact E | exact H].
Defined.

Lemma Span_witness : Span demo = Ret 30 /\ SpanRange demo (mkRange 5 40) = Ret 20.
Proof.
  destruct (Span_spec demo demo_segs (mkRange 5 40) (repd_rep _ _ demo_rep)
              ltac:(concrete) ltac:(concrete)) as (H1 & H2 & _).
  split; [exact H1 | exact H2].
Defined.

(** What the set maps after an operation, for the examples: the mapped ranges in order. *)
Definition ranges (s : AreaSet unit Z) : list (Range * option Z) :=
  (fun kp => (ERange s (Some kp.2), e_value (entry_at s (Some kp.2)))) <$> s_map s.

(** [RemoveRange] does not remove every segment of the range, although its comment
    says so: of three segments inside [0,60) the third one stays. *)
Theorem RemoveRange_leaves_third :
  exists s' gap, RemoveRange demo (mkRange 0 60) = Ret (s', gap) /\
    ranges s' = [(mkRange 40 10, Some 8)].
Proof. eexists _, _. split; (vm_compute; reflexivity). Qed.

(** [ApplyContiguous] applies the function beyond the range: with [0,10) and
    [10,20) adjacent, applying to [0,10) also changes [10,20). *)
Theorem ApplyContiguous_escapes :
  exists s s' gap,
    ('(s, _) ← Add (AreaSet_New (T := Z) tt 0 100) (mkRange 0 10) 1;
     Add s (mkRange 10 10) 2) = Ret (s, true) /\
    ApplyContiguous s (mkRange 0 10) (fun s h => modify s h (set_value (Some 9))) = Ret (s', gap) /\
    ranges s = [(mkRange 0 10, Some 1); (mkRange 10 10, Some 2)] /\
    ranges s' = [(mkRange 0 10, Some 9); (mkRange 10 10, Some 9)].
Proof. 
  eexists _, _, _. split; [ vm_compute; reflexivity |].
  split; [ vm_compute; reflexivity |].
  split; [ vm_compute; reflexivity |].
  vm_compute; reflexivity. 
Qed.
