(* ===== verification/Locks.v ===== *)
(** qlib/kernel/fs/lock.rs: POSIX and BSD record locks.

    A file has a set of locked regions, an [AreaSet] of [Lock]s.  A [Lock] is a shared
    cell ([Arc<QMutex<LockInternel>>]) with either one writer or a set of readers;
    the cells are in a store ([LockStore]) that is the world of the set, and a [Lock]
    is a pointer into it.  The queue of blocked tasks is not part of the model. *)
From S2P Require Import Prelude BTree Range AreaSet.
#[local] Open Scope Z_scope.
#[local] Open Scope u64_scope.

Inductive LockType : Type := ReadLock | WriteLock.

Record OwnerInfo : Type := mkOwner { pid : Z }.

Record LockInternel : Type := mkLock {
  Readers : list (Z * OwnerInfo);
  Writer : option Z;
  WriterInfo : OwnerInfo;
}.
Definition LockInternel_default : LockInternel := mkLock [] None (mkOwner 0).

Record LockStore : Type := mkStore {
  ls_cells : gmap positive LockInternel;
  ls_next : positive;
}.

Definition lock_at (w : LockStore) (p : positive) : LockInternel :=
  default LockInternel_default (ls_cells w !! p).
Definition lock_set (w : LockStore) (p : positive) (c : LockInternel) : LockStore :=
  mkStore (<[p := c]> (ls_cells w)) (ls_next w).
Definition lock_alloc (w : LockStore) (c : LockInternel) : LockStore * positive :=
  (mkStore (<[ls_next w := c]> (ls_cells w)) (Pos.succ (ls_next w)), ls_next w).

Definition contains_key {V} (k : Z) (m : list (Z * V)) : bool := negb (is_none (bt_get k m)).
Definition is_writer (c : LockInternel) (uid : Z) : bool :=
  match Writer c with Some u => u =? uid | None => false end.

Definition IsHeld (c : LockInternel) (uid : Z) : bool :=
  if is_writer c uid then true else contains_key uid (Readers c).

(** [Lock::Lock] on the contents of a cell. *)
Definition Lock_Lock (l : LockInternel) (uid : Z) (owner : OwnerInfo) (t : LockType)
    : outcome LockInternel :=
  match t with
  | ReadLock =>
      if contains_key uid (Readers l) then Ret l
      else
        l ← (if negb (is_none (Writer l)) then
               if negb (is_writer l uid) then Panic
               else Ret (mkLock [] None (WriterInfo l))
             else Ret l);
        Ret (mkLock (bt_insert uid owner (Readers l)) (Writer l) (WriterInfo l))
  | WriteLock =>
      if is_writer l uid then Ret l
      else
        let readers := length (Readers l) in
        if (0 <? readers)%nat && negb (readers =? 1)%nat then Panic
        else if (0 <? readers)%nat && negb (contains_key uid (Readers l)) then Panic
        else Ret (mkLock [] (Some uid) owner)
  end.

Definition MakeLock_val (uid : Z) (t : LockType) (owner : OwnerInfo) : LockInternel :=
  match t with
  | ReadLock => mkLock (bt_insert uid owner []) None (mkOwner 0)
  | WriteLock => mkLock [] (Some uid) owner
  end.
Definition MakeLock (w : LockStore) (uid : Z) (t : LockType) (owner : OwnerInfo)
    : LockStore * positive :=
  lock_alloc w (MakeLock_val uid t owner).

(** ** [impl AreaValue for Lock] *)

Definition option_eqb (a b : option Z) : bool :=
  match a, b with Some x, Some y => x =? y | None, None => true | _, _ => false end.

Definition Lock_Merge (w : LockStore) (p1 p2 : positive) : option positive :=
  let v1 := lock_at w p1 in
  let v2 := lock_at w p2 in
  if negb (length (Readers v1) =? length (Readers v2))%nat then None
  else if negb (forallb (fun e => contains_key e.1 (Readers v2)) (Readers v1)) then None
  else if negb (option_eqb (Writer v1) (Writer v2)) then None
  else Some p2.

(** Inserting the entries of [m] one by one into an empty map. *)
Definition copy_readers (m : list (Z * OwnerInfo)) : list (Z * OwnerInfo) :=
  foldl (fun acc e => bt_insert e.1 e.2 acc) [] m.

Definition Lock_Split (w : LockStore) (p : positive) : (positive * positive) * LockStore :=
  let v1 := lock_at w p in
  let '(w, n) := lock_alloc w (mkLock (copy_readers (Readers v1)) (Writer v1) (WriterInfo v1)) in
  ((p, n), w).

#[export] Instance LockValue : AreaValue LockStore positive := {|
  av_Merge w _ _ p1 p2 := Lock_Merge w p1 p2;
  av_Split w _ _ p := Lock_Split w p;
|}.

(** ** [LocksInternal] *)

Abbreviation LocksInternal := (AreaSet LockStore positive).
Implicit Types (s : LocksInternal) (r : Range) (t : LockType) (seg gap : handle).

Definition LocksInternal_default : LocksInternal :=
  AreaSet_New (mkStore ∅ 1%positive) 0 MAX_RANGE.

Fixpoint Lockable_loop (fuel : nat) s r (check : LockInternel -> bool) seg : outcome bool :=
  match fuel with
  | O => OutOfFuel
  | S fuel =>
      if seg_Ok s seg && (r_start (ERange s seg) <? End_ r) then
        value ← seg_Value s seg;
        if negb (check (lock_at (s_world s) value)) then Ret false
        else Lockable_loop fuel s r check (seg_NextSeg s seg)
      else Ret true
  end.
Definition Lockable s r (check : LockInternel -> bool) : outcome bool :=
  Lockable_loop (walk_fuel s) s r check (LowerBoundSeg s (r_start r)).

Definition CanLock_check (uid : Z) t (value : LockInternel) : bool :=
  match t with
  | ReadLock => match Writer value with None => true | Some u => u =? uid end
  | WriteLock =>
      match Writer value with
      | None => (length (Readers value) =? 1)%nat && contains_key uid (Readers value)
      | Some u => u =? uid
      end
  end.
Definition CanLock s (uid : Z) t r : outcome bool := Lockable s r (CanLock_check uid t).

(** [Insert(&gap, &gr, MakeLock(uid, t, owner)).NextSeg()] *)
Definition fill_gap s gap (gr : Range) (uid : Z) (owner : OwnerInfo) t
    : outcome (LocksInternal * handle) :=
  let '(w, v) := MakeLock (s_world s) uid t owner in
  '(s, n) ← Insert (with_world s w) gap gr v;
  Ret (s, seg_NextSeg s n).

(** The body of the loop of [Lock], after the last segment has been split. *)
Definition Lock_step s (uid : Z) (owner : OwnerInfo) t r seg : outcome (LocksInternal * handle) :=
  value ← seg_Value s seg;
  c ← Lock_Lock (lock_at (s_world s) value) uid owner t;
  let s := with_world s (lock_set (s_world s) value c) in
  let gap := seg_NextGap s seg in
  let gr := Intersect (gap_Range s gap) r in
  if 0 <? r_len gr then fill_gap s gap gr uid owner t
  else Ret (s, gap_NextSeg s gap).

Fixpoint Lock_loop (fuel : nat) s (uid : Z) (owner : OwnerInfo) t r seg : outcome LocksInternal :=
  match fuel with
  | O => OutOfFuel
  | S fuel =>
      if seg_Ok s seg && (r_start (ERange s seg) <? End_ r) then
        '(s, seg) ←
          (if End_ r <? End_ (ERange s seg) then
             '(s, (tmp, _)) ← SplitUnchecked s seg (End_ r); Ret (s, tmp)
           else Ret (s, seg));
        '(s, seg) ← Lock_step s uid owner t r seg;
        Lock_loop fuel s uid owner t r seg
      else Ret s
  end.

Definition Lock s (uid : Z) (owner : OwnerInfo) t r : outcome (LocksInternal * bool) :=
  if r_len r =? 0 then Ret (s, true)
  else
    can ← CanLock s uid t r;
    if negb can then Ret (s, false)
    else
      let '(seg, gap) := Find s (r_start r) in
      '(s, seg) ←
        (if gap_Ok s gap then
           fill_gap s gap (Intersect (gap_Range s gap) r) uid owner t
         else if r_start (ERange s seg) <? r_start r then
           '(s, (_, tmp)) ← SplitSeg s seg (r_start r); Ret (s, tmp)
         else Ret (s, seg));
      s ← Lock_loop (walk_fuel s) s uid owner t r seg;
      Ret (s, true).

(** The readers that stay when [uid] is removed. *)
Definition other_readers (uid : Z) (m : list (Z * OwnerInfo)) : list (Z * OwnerInfo) :=
  foldl (fun acc e => if negb (e.1 =? uid) then bt_insert e.1 e.2 acc else acc) [] m.

(** What [Unlock] does to an isolated segment: remove it, or give it a new lock. *)
Definition Unlock_step s (uid : Z) seg : outcome (LocksInternal * handle) :=
  p ← seg_Value s seg;
  let value := lock_at (s_world s) p in
  if is_writer value uid then
    '(s, gap) ← Remove s seg; Ret (s, gap_NextSeg s gap)
  else if contains_key uid (Readers value) then
    if (length (Readers value) =? 1)%nat then
      '(s, gap) ← Remove s seg; Ret (s, gap_NextSeg s gap)
    else
      let '(w, n) := lock_alloc (s_world s)
                       (mkLock (other_readers uid (Readers value)) None (mkOwner 0)) in
      let s := seg_SetValue (with_world s w) seg n in
      Ret (s, seg_NextSeg s seg)
  else Ret (s, seg_NextSeg s seg).

Fixpoint Unlock_loop (fuel : nat) s (uid : Z) r seg : outcome LocksInternal :=
  match fuel with
  | O => OutOfFuel
  | S fuel =>
      if seg_Ok s seg && (r_start (ERange s seg) <? End_ r) then
        p ← seg_Value s seg;
        if negb (IsHeld (lock_at (s_world s) p) uid) then
          Unlock_loop fuel s uid r (seg_NextSeg s seg)
        else
          '(s, seg) ← Isolate s seg r;
          '(s, seg) ← Unlock_step s uid seg;
          Unlock_loop fuel s uid r seg
      else Ret s
  end.

Definition Unlock s (uid : Z) r : outcome LocksInternal :=
  if r_len r =? 0 then Ret s
  else Unlock_loop (walk_fuel s) s uid r (UpperBoundSeg s (r_start r)).

(** ** [TestRegion] *)

Abbreviation F_RDLCK := (0)%Z (only parsing).
Abbreviation F_WRLCK := (1)%Z (only parsing).
Abbreviation F_UNLCK := (2)%Z (only parsing).

(** [z as i64] *)
Definition to_i64 (z : Z) : Z := let w := wrap64 z in if w <? 2 ^ 63 then w else w - B64.

Record Flock : Type := mkFlock {
  f_Type : Z;
  f_Whence : Z;
  f_Start : Z;
  f_Len : Z;
  f_Pid : Z;
}.

(** The closures of [TestRegion]: [None] for no conflict, the description otherwise. *)
Definition test_check (uid : Z) t (l : LockInternel) (start len : Z) : option Flock :=
  match t with
  | ReadLock =>
      if is_none (Writer l) || is_writer l uid then None
      else Some (mkFlock F_WRLCK 0 (to_i64 start) (to_i64 len) (pid (WriterInfo l)))
  | WriteLock =>
      if is_none (Writer l) then
        match find (fun e => negb (e.1 =? uid)) (Readers l) with
        | Some (_, v) => Some (mkFlock F_RDLCK 0 (to_i64 start) (to_i64 len) (pid v))
        | None => None
        end
      else if is_writer l uid then None
      else Some (mkFlock F_WRLCK 0 (to_i64 start) (to_i64 len) (pid (WriterInfo l)))
  end.

Fixpoint testRegion_loop (fuel : nat) s r (check : LockInternel -> Z -> Z -> option Flock) seg
    : outcome (option Flock) :=
  match fuel with
  | O => OutOfFuel
  | S fuel =>
      if seg_Ok s seg && (r_start (ERange s seg) <? End_ r) then
        lock ← seg_Value s seg;
        match check (lock_at (s_world s) lock) (r_start (ERange s seg)) (r_len (ERange s seg)) with
        | Some f => Ret (Some f)
        | None => testRegion_loop fuel s r check (seg_NextSeg s seg)
        end
      else Ret None
  end.
Definition testRegion s r (check : LockInternel -> Z -> Z -> option Flock) : outcome (option Flock) :=
  testRegion_loop (walk_fuel s) s r check (LowerBoundSeg s (r_start r)).

Definition TestRegion s (uid : Z) t r : outcome Flock :=
  f ← testRegion s r (test_check uid t);
  Ret (default (mkFlock F_UNLCK 0 0 0 0) f).

(** ** [ComputeRange], on [i64] *)

Definition ComputeRange (start length offset : Z) : Result Range :=
  let offset := to_i64 (offset + start) in
  if offset <? 0 then Err (SysError EINVAL)
  else
    let finish (offset end_ : Z) : Result Range :=
      let len := if end_ =? MAX_RANGE then MAX_RANGE else end_ -w wrap64 offset in
      Ok (mkRange (wrap64 offset) len) in
    if 0 <? length then finish offset (wrap64 (to_i64 (offset + length)))
    else if length <? 0 then
      let signedEnd := offset in
      let offset := to_i64 (offset + length) in
      if offset <? 0 then Err (SysError EINVAL)
      else if signedEnd <? offset then Err (SysError EOVERFLOW)
      else finish offset (wrap64 signedEnd)
    else finish offset MAX_RANGE.
