(* ===== verification/LocksThm.v ===== *)
(** The regions of a file lock, byte by byte: which reader set or writer holds a byte,
    and how [Lock], [Unlock], [CanLock] and [TestRegion] change or observe it. *)
From S2P Require Import Prelude BTree Range AreaSet AreaRep AreaSpec AreaOps AreaDen AreaThm Locks.
#[local] Open Scope Z_scope.
#[local] Open Scope u64_scope.

(** * What a lock says *)

(** The readers and the writer of a byte. *)
Abbreviation holders := (gset Z * option Z)%type.

Definition view (c : LockInternel) : holders := (list_to_set (Readers c).*1, Writer c).

(** One writer and no reader, or no writer and at least one reader. *)
Record lock_ok (c : LockInternel) : Prop := {
  ok_sorted : bt_sorted (Readers c);
  ok_excl : Writer c = None <-> Readers c <> [];
}.

Definition lock_valid (w : LockStore) (p : positive) : Prop :=
  exists c, ls_cells w !! p = Some c /\ lock_ok c /\ (p < ls_next w)%positive.

Lemma bt_get_elem {V} k (m : list (Z * V)) : bt_get k m = None <-> k ∉ m.*1.
Proof.
  induction m as [| [k' v] m IH]; simpl; [split; [set_solver | done] |].
  rewrite not_elem_of_cons. destruct (Z.eqb_spec k k') as [<- | Hne]; [| tauto].
  split; [done | tauto].
Qed.

Lemma contains_key_spec {V} k (m : list (Z * V)) : contains_key k m = true <-> k ∈ m.*1.
Proof.
  unfold contains_key. pose proof (bt_get_elem k m) as H. destruct (bt_get k m); simpl.
  - split; [| done]. intros _. destruct (decide (k ∈ m.*1)) as [| Hn]; [done |].
    by apply H in Hn.
  - split; [done |]. intros Hk. by destruct (proj1 H eq_refl).
Qed.

Lemma bt_sorted_NoDup {V} (m : list (Z * V)) : bt_sorted m -> NoDup m.*1.
Proof.
  induction m as [| e m IH]; [constructor |]. intros [Hgt Hs]%bt_sorted_cons. simpl.
  apply NoDup_cons. split; [| by apply IH]. intros (e' & E & He')%list_elem_of_fmap.
  pose proof (proj1 (Forall_forall _ _) Hgt e' He'). simpl in *. lia.
Qed.

Lemma bt_insert_keys {V} k (v : V) m :
  (list_to_set (bt_insert k v m).*1 : gset Z) = {[k]} ∪ list_to_set m.*1.
Proof.
  induction m as [| [k' v'] m IH]; cbn [bt_insert]; [set_solver |].
  destruct (Z.ltb_spec k k'); [set_solver |].
  destruct (Z.eqb_spec k k') as [<- |]; rewrite !fmap_cons, !list_to_set_cons; [set_solver |].
  rewrite IH. set_solver.
Qed.

Lemma copy_readers_eq m : bt_sorted m -> copy_readers m = m.
Proof.
  unfold copy_readers. intros Hs.
  enough (forall acc, bt_sorted (acc ++ m) ->
    foldl (fun acc e => bt_insert e.1 e.2 acc) acc m = acc ++ m) as H by exact (H [] Hs).
  clear Hs. induction m as [| [k v] m IH]; intros acc Hs; simpl; [by rewrite app_nil_r |].
  assert (bt_insert k v acc = acc ++ [(k, v)]) as ->.
  { apply bt_sorted_middle in Hs as (_ & _ & Hlt & _).
    rewrite <- (app_nil_r acc) at 1. apply bt_insert_at; [done | constructor]. }
  rewrite IH; rewrite <- (assoc_L (++)); done.
Qed.

Lemma other_readers_keys uid m :
  bt_sorted m ->
  bt_sorted (other_readers uid m) /\
  (list_to_set (other_readers uid m).*1 : gset Z) = list_to_set m.*1 ∖ {[uid]}.
Proof.
  intros _. unfold other_readers. set (f := fun acc (e : Z * OwnerInfo) => _).
  enough (forall acc, bt_sorted acc ->
    bt_sorted (foldl f acc m) /\
    (list_to_set (foldl f acc m).*1 : gset Z) = list_to_set acc.*1 ∪ (list_to_set m.*1 ∖ {[uid]})) as H.
  { destruct (H [] (SSorted_nil _)) as [H1 H2]. split; [done |]. rewrite H2. set_solver. }
  induction m as [| [k v] m IH]; intros acc Hs; cbn [foldl]; [split; [done | set_solver] |].
  destruct (IH (f acc (k, v))) as [H1 H2].
  { unfold f. simpl. destruct (Z.eqb_spec k uid); simpl; auto using bt_insert_sorted. }
  split; [exact H1 |]. rewrite H2. unfold f. simpl. destruct (Z.eqb_spec k uid) as [-> |]; simpl.
  - set_solver.
  - rewrite bt_insert_keys. set_solver.
Qed.

(** * Locking one byte *)

Definition abs_can (uid : Z) (t : LockType) (d : holders) : Prop :=
  match t with
  | ReadLock => d.2 = None \/ d.2 = Some uid
  | WriteLock => d.2 = Some uid \/ (d.2 = None /\ d.1 = {[uid]})
  end.

Definition abs_mk (uid : Z) (t : LockType) : holders :=
  match t with ReadLock => ({[uid]}, None) | WriteLock => (∅, Some uid) end.

Definition abs_lock (uid : Z) (t : LockType) (o : option holders) : holders :=
  match t, o with
  | ReadLock, Some (R, None) => ({[uid]} ∪ R, None)
  | _, _ => abs_mk uid t
  end.

Definition abs_unlock (uid : Z) (d : holders) : option holders :=
  match d.2 with
  | Some u => if decide (u = uid) then None else Some d
  | None => if decide (d.1 ∖ {[uid]} = ∅) then None else Some (d.1 ∖ {[uid]}, None)
  end.

Lemma keys_size {V} (m : list (Z * V)) :
  bt_sorted m -> size (list_to_set m.*1 : gset Z) = length m.
Proof.
  intros Hs. rewrite size_list_to_set by (by apply bt_sorted_NoDup). by rewrite length_fmap.
Qed.

Lemma keys_nil {V} (m : list (Z * V)) : (list_to_set m.*1 : gset Z) = ∅ <-> m = [].
Proof. destruct m; set_solver. Qed.

Lemma single_reader {V} (m : list (Z * V)) uid :
  bt_sorted m ->
  (length m =? 1)%nat && contains_key uid m = true <-> (list_to_set m.*1 : gset Z) = {[uid]}.
Proof.
  intros Hs. rewrite andb_true_iff, Nat.eqb_eq, contains_key_spec, <- (keys_size m Hs). split.
  - intros [[x Ex]%size_1_elem_of Hin].
    assert (uid ∈ (list_to_set m.*1 : gset Z)) as Hu by (by apply elem_of_list_to_set).
    apply leibniz_equiv in Ex. rewrite Ex in *. by apply elem_of_singleton in Hu as ->.
  - intros E. rewrite E, size_singleton. split; [done |].
    apply (elem_of_list_to_set (C := gset Z)). rewrite E. set_solver.
Qed.

Lemma CanLock_check_spec uid t c :
  lock_ok c -> CanLock_check uid t c = true <-> abs_can uid t (view c).
Proof.
  intros [Hs Hx]. unfold CanLock_check, abs_can, view. simpl.
  destruct t, (Writer c) as [u |]; rewrite ?Z.eqb_eq, ?(single_reader _ _ Hs).
  - split; [intros ->; by right | intros [|]; congruence].
  - split; auto.
  - split; [intros ->; by left | intros [| []]; congruence].
  - split; [auto | intros [|]; [done | tauto]].
Qed.

Lemma is_writer_spec c uid : is_writer c uid = true <-> Writer c = Some uid.
Proof.
  unfold is_writer. destruct (Writer c) as [u |]; [| done]. rewrite Z.eqb_eq. split; congruence.
Qed.

Lemma readers_nil c : lock_ok c -> forall u, Writer c = Some u -> Readers c = [].
Proof.
  intros [_ Hx] u E. destruct (Readers c); [done |]. destruct Hx as [_ Hx].
  rewrite Hx in E; done.
Qed.

Lemma Lock_Lock_spec uid owner t c :
  lock_ok c -> abs_can uid t (view c) ->
  exists c', Lock_Lock c uid owner t = Ret c' /\ lock_ok c' /\ view c' = abs_lock uid t (Some (view c)).
Proof.
  intros Hok Hcan. pose proof Hok as [Hs Hx]. unfold Lock_Lock. destruct t.
  - destruct (contains_key uid (Readers c)) eqn:Hk.
    { apply contains_key_spec in Hk. exists c. split_and!; [done | done |].
      destruct (Writer c) as [u |] eqn:Ew.
      - rewrite (readers_nil c Hok u Ew) in Hk. set_solver.
      - unfold view, abs_lock. rewrite Ew. f_equal. set_solver. }
    destruct (Writer c) as [u |] eqn:Ew; simpl.
    + destruct Hcan as [Hc | Hc]; simpl in Hc; rewrite Ew in Hc; [done |]. injection Hc as ->.
      rewrite (proj2 (is_writer_spec c uid) Ew). simpl. eexists. split_and!; [done | |].
      * split; simpl; [repeat constructor | done].
      * unfold view, abs_lock. rewrite Ew. simpl. by rewrite right_id_L by apply _.
    + eexists. split_and!; [done | |].
      * split; simpl; [by apply bt_insert_sorted |]. rewrite Ew. split; [| done]. intros _ E.
        assert ((list_to_set (bt_insert uid owner (Readers c)).*1 : gset Z) = ∅) as E' by (by rewrite E).
        rewrite bt_insert_keys in E'. set_solver.
      * unfold view, abs_lock. rewrite Ew. cbn [Readers Writer]. by rewrite bt_insert_keys.
  - destruct (is_writer c uid) eqn:Hw.
    { apply is_writer_spec in Hw. exists c. split_and!; [done | done |].
      unfold view. by rewrite Hw, (readers_nil c Hok uid Hw). }
    assert ((length (Readers c) =? 1)%nat && contains_key uid (Readers c) = true) as Hsr.
    { destruct Hcan as [Hc | [_ Hc]]; simpl in Hc; [by apply is_writer_spec in Hc; congruence |].
      by apply single_reader. }
    apply andb_true_iff in Hsr as [-> ->]. rewrite !andb_false_r.
    eexists. split_and!; [done | | done]. split; simpl; [constructor | done].
Qed.

Lemma MakeLock_val_spec uid t owner :
  lock_ok (MakeLock_val uid t owner) /\ view (MakeLock_val uid t owner) = abs_mk uid t.
Proof.
  destruct t; simpl; split.
  - split; simpl; [repeat constructor | done].
  - unfold view. simpl. by rewrite right_id_L by apply _.
  - split; simpl; [constructor | done].
  - done.
Qed.

(** * The trait contract *)

Lemma lock_at_valid w p : lock_valid w p -> lock_ok (lock_at w p) /\ (p < ls_next w)%positive.
Proof. intros (c & Hc & Hok & Hlt). unfold lock_at. by rewrite Hc. Qed.

Lemma option_eqb_spec a b : option_eqb a b = true -> a = b.
Proof. destruct a, b; simpl; try done. intros ->%Z.eqb_eq. done. Qed.

Lemma Lock_Merge_spec w p1 p2 p :
  lock_valid w p1 -> lock_valid w p2 -> Lock_Merge w p1 p2 = Some p ->
  p = p2 /\ view (lock_at w p1) = view (lock_at w p2).
Proof.
  intros [[Hs1 _] _]%lock_at_valid [[Hs2 _] _]%lock_at_valid. unfold Lock_Merge.
  destruct (Nat.eqb_spec (length (Readers (lock_at w p1))) (length (Readers (lock_at w p2))))
    as [Hlen |]; [| done]. simpl.
  destruct (forallb _ _) eqn:Hall; [| done]. simpl.
  destruct (option_eqb _ _) eqn:Hw; [| done]. intros [= ->]. split; [done |].
  apply option_eqb_spec in Hw. unfold view. rewrite Hw. f_equal.
  apply set_subseteq_size_eq; [| rewrite !keys_size by done; lia].
  intros k Hk. apply elem_of_list_to_set. apply elem_of_list_to_set in Hk.
  apply list_elem_of_fmap in Hk as (e & -> & He).
  apply contains_key_spec. rewrite forallb_forall in Hall. apply Hall. by apply list_elem_of_In.
Qed.

Lemma alloc_valid w c p : lock_valid w p -> lock_valid (lock_alloc w c).1 p /\ p <> ls_next w /\
  lock_at (lock_alloc w c).1 p = lock_at w p.
Proof.
  intros (c0 & Hc & Hok & Hlt). assert (p <> ls_next w) by lia. split_and!; [| done |].
  - exists c0. simpl. rewrite lookup_insert_ne by done. split_and!; [done | done | lia].
  - unfold lock_at. simpl. by rewrite lookup_insert_ne.
Qed.

Lemma alloc_new w c : lock_ok c ->
  lock_valid (lock_alloc w c).1 (ls_next w) /\ lock_at (lock_alloc w c).1 (ls_next w) = c.
Proof.
  intros Hok. split.
  - exists c. simpl. rewrite lookup_insert_eq. split_and!; [done | done | lia].
  - unfold lock_at. simpl. by rewrite lookup_insert_eq.
Qed.

#[export] Instance LockLaws : AreaLaws LockStore positive holders.
Proof.
  refine {| den := fun w _ p _ => view (lock_at w p); fp := fun p => [p]; valid := lock_valid |}.
  - intros w r1 r2 v1 v2 v Hm H1 H2 _. destruct (Lock_Merge_spec _ _ _ _ H1 H2 Hm) as [-> E].
    split_and!; [done | | by rewrite E | done]. by apply submseteq_cons.
  - intros w r k v a b w' Hsp Hv _. simpl in Hsp. injection Hsp as <- <- <-.
    destruct (lock_at_valid w v Hv) as [[Hs Hx] _]. rewrite copy_readers_eq by done.
    set (c := mkLock _ _ _).
    assert (lock_ok c) as Hc by (split; [exact Hs | exact Hx]).
    destruct (alloc_new w c Hc) as [Hn En]. destruct (alloc_valid w c v Hv) as (Hv' & _ & Ev).
    unfold lock_alloc in *. cbn [fst] in *.
    split_and!; [done | done | done | apply NoDup_singleton | | by rewrite Ev | by rewrite En].
    intros v0 H0. destruct (alloc_valid w c v0 H0) as (H0' & Hne & E0).
    split_and!; [done | | intros; exact (f_equal view E0)].
    intros p Hp Hp'. apply list_elem_of_singleton in Hp as ->. by apply list_elem_of_singleton in Hp'.
Defined.

Implicit Types (s : LocksInternal) (l : list (seg positive)) (g : seg positive) (r : Range) (t : LockType).

(** The locks of the file, byte by byte. *)
Abbreviation byte_locks s l := (den_at (s_world s) l).

(** * Writing one cell of the store *)

Lemma fps_vals l : fps l = sg_val <$> l.
Proof. induction l as [| g l IH]; [done |]. simpl. by rewrite IH. Qed.

Lemma den_at_cells w w' l x :
  (forall g, g ∈ l -> lock_at w' (sg_val g) = lock_at w (sg_val g)) ->
  den_at w' l x = den_at w l x.
Proof. intros H. apply den_at_frame. intros g Hg r0 y. simpl. by rewrite H. Qed.

Lemma lock_set_at w p c q : lock_at (lock_set w p c) q = if decide (q = p) then c else lock_at w q.
Proof.
  unfold lock_at, lock_set. simpl. destruct (decide (q = p)) as [-> |].
  - by rewrite lookup_insert_eq.
  - by rewrite lookup_insert_ne.
Qed.

Lemma lock_set_valid w p c q : lock_valid w q -> lock_ok c -> lock_valid (lock_set w p c) q.
Proof.
  intros (c0 & Hc & Hok & Hlt) Hc'. unfold lock_valid. simpl.
  destruct (decide (q = p)) as [-> |].
  - exists c. rewrite lookup_insert_eq. done.
  - exists c0. rewrite lookup_insert_ne by done. done.
Qed.

Lemma set_cell s l1 g l2 c :
  RepD s (l1 ++ g :: l2) -> lock_ok c ->
  let s' := with_world s (lock_set (s_world s) (sg_val g) c) in
  RepD s' (l1 ++ g :: l2) /\
  forall x, byte_locks s' (l1 ++ g :: l2) x =
    if coverb (sg_range g) x then Some (view c) else byte_locks s (l1 ++ g :: l2) x.
Proof.
  intros [H [Hn Hv]] Hc s'. split.
  { split; [by apply Rep_world |]. split; [done |].
    eapply Forall_impl; [exact Hv |]. intros g' Hg'. by apply lock_set_valid. }
  intros x. rewrite !(den_at_middle s l1 g l2 x _ H). simpl. rewrite lock_set_at, decide_True by done.
  destruct (coverb (sg_range g) x); [done |]. apply den_at_cells. intros g' Hg'.
  rewrite lock_set_at, decide_False; [done |]. intros E.
  rewrite fps_middle in Hn. apply NoDup_app in Hn as (_ & Hn & _).
  apply (Hn (sg_val g)); [by left |]. rewrite fps_vals, <- E. by apply list_elem_of_fmap_2.
Qed.

(** * Ranges that may reach the end of the file *)

(** A lock range is not empty and does not wrap around; a length of [MAX_RANGE] reaches
    the end of the file from any start. *)
Definition extent r : Prop := 0 <= r_start r < End_ r.

Definition inr_ r (x : Z) : bool := (r_start r <=? x) && (x <? End_ r).

Lemma inr_spec r x : inr_ r x = true <-> r_start r <= x < End_ r.
Proof. unfold inr_. rewrite andb_true_iff, Z.leb_le, Z.ltb_lt. done. Qed.

Lemma inr_false r x : inr_ r x = false <-> ~ (r_start r <= x < End_ r).
Proof. rewrite <- inr_spec. by rewrite not_true_iff_false. Qed.

Lemma End_max r : End_ r <= U64_MAX.
Proof.
  unfold End_. destruct (_ =? _); [by vm_compute |].
  pose proof (add64_in64 (r_start r) (r_len r)). u64.
Qed.

Lemma extent_len r : extent r -> r_len r <> 0.
Proof.
  intros Hr E. pose proof (End_max r). unfold extent in Hr.
  assert (End_ r = r_start r +w 0) as E0 by (unfold End_; by rewrite E).
  rewrite add64_small in E0 by u64. lia.
Qed.

Lemma Intersect_extent q r :
  proper q -> extent r -> Z.max (r_start q) (r_start r) <= Z.min (r_start q + r_len q) (End_ r) ->
  Intersect q r = mkRange (Z.max (r_start q) (r_start r))
    (Z.min (r_start q + r_len q) (End_ r) - Z.max (r_start q) (r_start r)).
Proof.
  intros Hq Hr Hle. pose proof (End_max r). unfold extent in Hr.
  unfold Intersect. rewrite (End_proper q Hq). unfold proper in Hq.
  destruct (Z.ltb_spec (r_start q) (r_start r)), (Z.ltb_spec (End_ r) (r_start q + r_len q));
    rewrite sub64_small by u64; f_equal; lia.
Qed.

Section LockProof.
Context (uid : Z) (owner : OwnerInfo) (t : LockType) (r : Range) (Hr : extent r).
Context (d0 : Z -> option holders).

(** Some byte of the range has exactly the requested lock already. *)
Definition already : Prop := exists y, inr_ r y = true /\ d0 y = Some (abs_mk uid t).

(** What the byte [x] may hold after [Lock]. *)
Definition final (x : Z) (d : option holders) : Prop :=
  if inr_ r x then
    d = Some (abs_lock uid t (d0 x)) \/ (already /\ d0 x = None /\ d = None)
  else d = d0 x.

(** Every byte below [a] is final, the others are as before; [a] is in the gap between
    [l1] and [l2]. *)
Record Upto s l1 l2 (a : Z) : Prop := {
  up_rep : RepD s (l1 ++ l2);
  up_from : r_start r <= a;
  up_gap : lo_end s l1 <= a <= hi_start s l2;
  up_done x : x < a -> final x (byte_locks s (l1 ++ l2) x);
  up_todo x : a <= x -> byte_locks s (l1 ++ l2) x = d0 x;
}.

Lemma den_in_gap s w l1 l2 x :
  Rep s (l1 ++ l2) -> lo_end s l1 <= x < hi_start s l2 -> den_at w (l1 ++ l2) x = None.
Proof.
  intros H Hx. pose proof (rep_order _ _ H) as [Ho1 Ho2]%ordered_zip.
  rewrite den_at_app, (den_at_out w _ l1 _ x Ho1) by lia.
  apply (den_at_out w (hi_start s l2) l2 (End_ (s_range s))); [| lia]. by eapply ordered_relax.
Qed.

Lemma den_before s w l1 g l2 x d :
  Rep s (l1 ++ g :: l2) -> sg_start g <= x < hi_start s l2 -> den_at w (l1 ++ g :: l2) x = Some d ->
  d = view (lock_at w (sg_val g)).
Proof.
  intros H Hx. rewrite (den_at_middle s l1 g l2 x w H).
  destruct (coverb (sg_range g) x) eqn:Hc; [intros [= <-]; done |].
  pose proof (rep_order _ _ H) as Ho. apply ordered_drop in Ho as [Ho (Hlo & _ & _)].
  apply ordered_zip in Ho as [Ho1 Ho2]. unfold sg_start in Hx.
  rewrite den_at_app, (den_at_out w _ l1 _ x Ho1) by lia.
  rewrite (den_at_out w (hi_start s l2) l2 (End_ (s_range s))); [done | | lia].
  eapply ordered_relax; [exact Ho2 | lia].
Qed.

Lemma alloc_rep s l c :
  RepD s l -> lock_ok c ->
  let s' := with_world s (lock_alloc (s_world s) c).1 in
  RepD s' l /\ (forall x, byte_locks s' l x = byte_locks s l x) /\
  NoDup (fp (ls_next (s_world s)) ++ fps l).
Proof.
  intros [H [Hn Hv]] Hc s'.
  assert (forall g, g ∈ l -> lock_valid (s_world s) (sg_val g)) as Hv'
    by (intros g Hg; exact (proj1 (Forall_forall _ _) Hv g Hg)).
  split_and!.
  - split; [by apply Rep_world |]. split; [done |]. eapply Forall_impl; [exact Hv |].
    intros g Hg. by apply alloc_valid.
  - intros x. apply den_at_cells. intros g Hg. by apply alloc_valid, Hv'.
  - simpl. apply NoDup_cons. split; [| done]. rewrite fps_vals. intros (g & E & Hg)%list_elem_of_fmap.
    destruct (alloc_valid _ c _ (Hv' g Hg)) as (_ & Hne & _). done.
Qed.

Lemma abs_lock_again : abs_lock uid t (Some (abs_mk uid t)) = abs_mk uid t.
Proof. destruct t; simpl; [| done]. f_equal. set_solver. Qed.

Lemma abs_lock_none : abs_lock uid t None = abs_mk uid t.
Proof. by destruct t. Qed.

Lemma fill_final s s2 l1 l2 a l1' g l2' :
  Upto s l1 l2 a -> a < End_ r -> a < hi_start s l2 -> same s s2 ->
  Rep s2 (l1' ++ g :: l2') -> sg_start g <= a -> (l2' = l2 \/ exists gn, l2 = gn :: l2') ->
  (forall x, byte_locks s2 (l1' ++ g :: l2') x =
     if coverb (mkRange a (Z.min (hi_start s l2) (End_ r) - a)) x
     then Some (abs_mk uid t) else byte_locks s (l1 ++ l2) x) ->
  forall x, x < hi_start s2 l2' -> final x (byte_locks s2 (l1' ++ g :: l2') x).
Proof.
  intros HU Ha Hhi Hs HR2 Hg Hl2 Hd x Hx. pose proof (up_from _ _ _ _ HU) as Hfrom.
  pose proof (up_gap _ _ _ _ HU) as Hgap. pose proof (repd_rep _ _ (up_rep _ _ _ _ HU)) as HR.
  rewrite (same_hi _ _ _ Hs) in Hx. pose proof (Hd x) as Hdx.
  destruct (coverb _ x) eqn:Hc.
  { apply coverb_spec in Hc. unfold covers in Hc. simpl in Hc. rewrite Hdx. unfold final.
    rewrite (proj2 (inr_spec r x)) by lia. left.
    rewrite <- (up_todo _ _ _ _ HU x) by lia. rewrite (den_in_gap s) by (auto; lia).
    by rewrite abs_lock_none. }
  destruct (Z.lt_ge_cases x a) as [Hxa | Hxa]; [rewrite Hdx; by apply (up_done _ _ _ _ HU) |].
  apply coverb_false in Hc. unfold covers in Hc. simpl in Hc.
  rewrite (up_todo _ _ _ _ HU x Hxa) in Hdx. unfold final.
  destruct (inr_ r x) eqn:Hin; [| done]. apply inr_spec in Hin.
  destruct Hl2 as [-> | [gn ->]]; [lia |]. cbn [hi_start] in *.
  (* the new segment was merged with [gn], which has the requested lock *)
  assert (forall y d, a <= y < hi_start s l2' -> byte_locks s2 (l1' ++ g :: l2') y = Some d ->
    d = abs_mk uid t) as Hsame.
  { intros y d Hy Ey. rewrite <- (same_hi _ _ _ Hs) in Hy.
    rewrite (den_before s2 (s_world s2) l1' g l2' y d HR2) by (auto; lia).
    symmetry. apply (den_before s2 (s_world s2) l1' g l2' a _ HR2); [lia |].
    rewrite Hd. rewrite (proj2 (coverb_spec _ a)); [done |]. unfold covers. simpl. lia. }
  assert (already) as Hal.
  { exists (sg_start gn). split; [apply inr_spec; lia |].
    pose proof (hi_start_tail _ _ _ _ HR) as Hgn.
    destruct (rep_bounds_seg s _ gn HR (elem_middle _ _ _)) as (_ & Hlen & _).
    assert (byte_locks s (l1 ++ gn :: l2') (sg_start gn) <> None) as Hsome.
    { rewrite (den_at_middle s l1 gn l2' _ _ HR).
      by rewrite (proj2 (coverb_spec _ (sg_start gn))) by (unfold covers, sg_start; lia). }
    pose proof (Hd (sg_start gn)) as Hdg. rewrite (proj2 (coverb_false _ (sg_start gn))) in Hdg
      by (unfold covers; simpl; lia).
    rewrite <- (up_todo _ _ _ _ HU (sg_start gn)) by lia. rewrite <- Hdg in *.
    destruct (byte_locks s2 _ (sg_start gn)) as [d |] eqn:Ey; [| done]. f_equal.
    apply (Hsame (sg_start gn)); [unfold sg_start, sg_end in *; lia | done]. }
  rewrite Hdx. destruct (d0 x) as [d |] eqn:Ed; [left | by right].
  rewrite (Hsame x d) by (auto; lia). by rewrite abs_lock_again.
Qed.

Lemma fill_gap_spec s l1 l2 a :
  Upto s l1 l2 a -> a < End_ r -> a < hi_start s l2 ->
  returns
    (fill_gap s (Some (prev_ptr s l1)) (mkRange a (Z.min (hi_start s l2) (End_ r) - a)) uid owner t)
    (fun res => exists l1' l2',
      res.2 = Some (next_ptr res.1 l2') /\ Upto res.1 l1' l2' (hi_start res.1 l2') /\
      (l2' = l2 \/ exists gn, l2 = gn :: l2') /\ same s res.1).
Proof.
  intros HU Ha Hhi. pose proof HU as [HD Hfrom Hgap Hdone Htodo]. set (gr := mkRange _ _).
  unfold fill_gap, MakeLock.
  destruct (MakeLock_val_spec uid t owner) as [Hok Hvw].
  set (c := MakeLock_val uid t owner) in *.
  destruct (alloc_rep s (l1 ++ l2) c HD Hok) as (HD1 & Hd1 & Hn1).
  destruct (alloc_new (s_world s) c Hok) as [Hnv Hnc].
  change (lock_alloc (s_world s) c) with ((lock_alloc (s_world s) c).1, ls_next (s_world s)).
  cbv beta iota. set (s1 := with_world s (lock_alloc (s_world s) c).1) in *.
  change (prev_ptr s l1) with (prev_ptr s1 l1).
  assert (fits s1 l1 gr l2) as Hfit.
  { unfold fits, gr. simpl. change (lo_end s1 l1) with (lo_end s l1).
    change (hi_start s1 l2) with (hi_start s l2). lia. }
  eapply returns_bind; [apply (Insert_den s1 l1 l2 gr (ls_next (s_world s)) HD1 Hfit Hnv Hn1) |].
  intros [s2 h] (l1' & g & l2' & Hh & HD2 & Hs2 & Hw2 & Hg1 & Hg2 & Hl2 & Hd2). cbn [fst snd] in *. subst h.
  pose proof (repd_rep _ _ HD2) as HR2. rewrite (seg_NextSeg_rep s2 l1' g l2' HR2).
  apply returns_ret. exists (l1' ++ [g]), l2'. cbn [fst snd].
  assert (same s s2) as Hs by (by eapply (same_trans s s1)).
  assert (forall x, byte_locks s2 (l1' ++ g :: l2') x =
    if coverb gr x then Some (abs_mk uid t) else byte_locks s (l1 ++ l2) x) as Hd.
  { intros x. rewrite Hw2, Hd2, <- Hd1. change (s_world s1) with (lock_alloc (s_world s) c).1.
    cbn [den LockLaws]. by rewrite Hnc, Hvw. }
  clear Hd1 Hd2. split_and!; [done | | done | done].
  pose proof (hi_start_tail _ _ _ _ HR2) as Ht2. simpl in Hg1, Hg2.
  split; rewrite <- ?(assoc_L (++)); [done | lia | rewrite lo_end_snoc; lia | |].
  - apply (fill_final s s2 l1 l2 a l1' g l2'); auto.
  - intros x Hx. cbn [app]. rewrite Hd. destruct (coverb gr x) eqn:Hc.
    + apply coverb_spec in Hc. unfold covers, gr in Hc. simpl in Hc. lia.
    + apply Htodo. lia.
Qed.

Context (Hcan : forall x d, inr_ r x = true -> d0 x = Some d -> abs_can uid t d).

(** The rest of the list after a step. *)
Definition after_step s l2 (res : LocksInternal * handle) : Prop :=
  exists l1' l2', res.2 = Some (next_ptr res.1 l2') /\ Upto res.1 l1' l2' (hi_start res.1 l2') /\
    (l2' = l2 \/ exists gn, l2 = gn :: l2') /\ same s res.1.

(** A segment inside the range is locked. *)
Lemma lock_seg s l1 g l2 :
  Upto s l1 (g :: l2) (sg_start g) -> sg_start g < End_ r -> sg_end g <= End_ r ->
  exists c, Lock_Lock (lock_at (s_world s) (sg_val g)) uid owner t = Ret c /\
    Upto (with_world s (lock_set (s_world s) (sg_val g) c)) (l1 ++ [g]) l2 (sg_end g).
Proof.
  intros [HD Hfrom Hgap Hdone Htodo] Hst Hen. pose proof (repd_rep _ _ HD) as HR.
  pose proof (fits_seg _ _ _ _ HR) as (Hlo & Hlen & Hhi).
  assert (forall x, covers (sg_range g) x ->
    d0 x = Some (view (lock_at (s_world s) (sg_val g))) /\ inr_ r x = true) as Hin.
  { intros x Hx. unfold covers, sg_start, sg_end in *. rewrite <- Htodo by lia.
    rewrite (den_at_middle s l1 g l2 x _ HR). rewrite (proj2 (coverb_spec _ x)) by done.
    split; [done | apply inr_spec; lia]. }
  assert (lock_ok (lock_at (s_world s) (sg_val g))) as Hok.
  { apply lock_at_valid. destruct HD as [_ HG]. by apply Good_middle in HG as (_ & ? & _). }
  destruct (Hin (sg_start g)) as [Hd Hi]; [unfold covers, sg_start; lia |].
  destruct (Lock_Lock_spec uid owner t _ Hok (Hcan _ _ Hi Hd)) as (c & -> & Hokc & Hvc).
  exists c. split; [done |]. destruct (set_cell s l1 g l2 c HD Hokc) as [HD' Hd'].
  set (s' := with_world s _) in *.
  split; rewrite <- ?(assoc_L (++)); cbn [app]; [done | unfold sg_start, sg_end in *; lia | | |].
  - rewrite lo_end_snoc. change (hi_start s' l2) with (hi_start s l2). unfold sg_end. lia.
  - intros x Hx. rewrite Hd'. destruct (coverb (sg_range g) x) eqn:Hc.
    + destruct (Hin x) as [Ed Ei]; [by apply coverb_spec |]. unfold final. rewrite Ei, Ed, Hvc. by left.
    + apply coverb_false in Hc. apply Hdone. unfold covers, sg_start, sg_end in *. lia.
  - intros x Hx. rewrite Hd'. rewrite (proj2 (coverb_false _ x)) by (unfold covers, sg_end in *; lia).
    apply Htodo. unfold sg_start, sg_end in *. lia.
Qed.

Lemma Upto_skip s l1 l2 a :
  Upto s l1 l2 a -> hi_start s l2 <= a \/ End_ r <= a -> Upto s l1 l2 (hi_start s l2).
Proof.
  intros [HD Hfrom Hgap Hdone Htodo] Ha. split; [done | lia | lia | |].
  - intros x Hx. destruct (Z.lt_ge_cases x a); [by apply Hdone |]. rewrite Htodo by lia.
    unfold final. rewrite (proj2 (inr_false r x)) by lia. done.
  - intros x Hx. apply Htodo. lia.
Qed.

Lemma Lock_step_spec s l1 g l2 :
  Upto s l1 (g :: l2) (sg_start g) -> sg_start g < End_ r -> sg_end g <= End_ r ->
  returns (Lock_step s uid owner t r (Some (sg_ptr g))) (after_step s l2).
Proof.
  intros HU Hst Hen. unfold Lock_step, seg_Value.
  rewrite (seg_Value_rep s l1 g l2), bind_ret by apply HU.
  destruct (lock_seg s l1 g l2 HU Hst Hen) as (c & -> & HU1). rewrite bind_ret. cbv zeta.
  set (s1 := with_world s _) in *. pose proof (repd_rep _ _ (up_rep _ _ _ _ HU1)) as HR1.
  pose proof HU1 as [_ Hfrom Hgap _ _].
  rewrite <- (prev_ptr_snoc s1 l1 g), (seg_NextGap_prev s1 _ _ HR1), (gap_NextSeg_rep s1 _ _ HR1).
  pose proof (gap_Range_proper s1 _ _ HR1) as Hgp. rewrite (gap_Range_rep s1 _ _ HR1) in Hgp |- *.
  rewrite lo_end_snoc in *.
  rewrite Intersect_extent by (auto; simpl; lia). cbn [r_start r_len].
  rewrite (Z.max_l (sg_end g)) by lia.
  replace (sg_end g + (hi_start s1 l2 - sg_end g)) with (hi_start s1 l2) by lia.
  destruct (Z.ltb_spec 0 (Z.min (hi_start s1 l2) (End_ r) - sg_end g)) as [Hpos | Hpos].
  - eapply returns_mono; [apply (fill_gap_spec s1 (l1 ++ [g]) l2 (sg_end g) HU1); lia |].
    intros [s2 h] (l1' & l2' & Hh & HU2 & Hl2 & Hs2). by exists l1', l2'.
  - apply returns_ret. exists (l1 ++ [g]), l2. cbn [fst snd].
    split_and!; [done | apply (Upto_skip s1 _ _ (sg_end g) HU1); lia | by left | done].
Qed.

(** ** The loop *)

Definition ahead l : nat := length (filter (fun g => sg_start g < End_ r) l).

Definition lock_done s (s' : LocksInternal) : Prop :=
  exists l, RepD s' l /\ same s s' /\ forall x, final x (byte_locks s' l x).

Lemma ahead_cons g l :
  ahead (g :: l) = if decide (sg_start g < End_ r) then S (ahead l) else ahead l.
Proof. unfold ahead. rewrite filter_cons. by destruct (decide _). Qed.

Lemma ahead_length l : (ahead l <= length l)%nat.
Proof. apply length_filter. Qed.

Lemma split_end s l1 g l2 :
  Upto s l1 (g :: l2) (sg_start g) -> sg_start g < End_ r ->
  returns
    (if End_ r <? End_ (ERange s (Some (sg_ptr g))) then
       '(s, (tmp, _)) ← SplitUnchecked s (Some (sg_ptr g)) (End_ r); Ret (s, tmp)
     else Ret (s, Some (sg_ptr g)))
    (fun res => exists ga l2', res.2 = Some (sg_ptr ga) /\ same s res.1 /\
      Upto res.1 l1 (ga :: l2') (sg_start ga) /\ sg_start ga < End_ r /\ sg_end ga <= End_ r /\
      ahead l2' = ahead l2).
Proof.
  intros HU Hst. pose proof HU as [HD Hfrom Hgap Hdone Htodo]. pose proof (repd_rep _ _ HD) as HR.
  rewrite (ERange_rep s l1 g l2 HR), (seg_End_rep s l1 g l2 HR).
  destruct (Z.ltb_spec (End_ r) (sg_end g)) as [He | He].
  - eapply returns_bind; [apply (split_den s l1 g l2 (End_ r) HD); lia |].
    intros [s' hs] (ga & gb & Hh & HD' & Hs & _ & Ea & Eb & Hd). cbn [fst snd] in *. subst hs.
    apply returns_ret. exists ga, (gb :: l2). cbn [fst snd].
    assert (sg_start ga = sg_start g /\ sg_end ga = End_ r /\ sg_start gb = End_ r) as (E1 & E2 & E3)
      by (unfold sg_start, sg_end; rewrite Ea, Eb; simpl; unfold sg_start; lia).
    split_and!; [done | done | | lia | lia |].
    + split; [done | lia | rewrite (same_lo _ _ _ Hs); cbn [hi_start] in *; lia | |].
      * intros x Hx. rewrite Hd. apply Hdone. lia.
      * intros x Hx. rewrite Hd. apply Htodo. lia.
    + rewrite ahead_cons, decide_False by lia. done.
  - apply returns_ret. exists g, l2. split_and!; auto using same_refl.
Qed.

Lemma Lock_loop_spec fuel :
  forall s l1 l2, Upto s l1 l2 (hi_start s l2) -> End_ r <= End_ (s_range s) ->
  (ahead l2 < fuel)%nat ->
  returns (Lock_loop fuel s uid owner t r (Some (next_ptr s l2))) (lock_done s).
Proof.
  induction fuel as [| fuel IH]; intros s l1 l2 HU Hset Hf; [lia |].
  pose proof HU as [HD Hfrom Hgap Hdone Htodo]. pose proof (repd_rep _ _ HD) as HR.
  assert (End_ r <= hi_start s l2 -> returns (Ret s) (lock_done s)) as Hend.
  { intros He. apply returns_ret. exists (l1 ++ l2). split_and!; auto using same_refl.
    intros x. destruct (Z.lt_ge_cases x (hi_start s l2)); [by apply Hdone |].
    rewrite Htodo by lia. unfold final. rewrite (proj2 (inr_false r x)) by lia. done. }
  cbn [Lock_loop]. rewrite (seg_Ok_next s l1 l2 HR), (start_next s l1 l2 HR).
  destruct l2 as [| g l2]; [by apply Hend |].
  change (negb (bool_decide (g :: l2 = []))) with true. cbn [andb hi_start next_ptr] in *.
  destruct (Z.ltb_spec (sg_start g) (End_ r)) as [Hst | Hst]; [| by apply Hend].
  eapply returns_bind; [by apply (split_end s l1 g l2) |].
  intros [s1 h1] (ga & l2' & Hh & Hs1 & HU1 & Hs1' & He1 & Hah). cbn [fst snd] in *. subst h1.
  eapply returns_bind; [by apply (Lock_step_spec s1 l1 ga l2') |].
  intros [s2 h2] (l1'' & l2'' & Hh & HU2 & Hl & Hs2). cbn [fst snd] in *. subst h2.
  rewrite ahead_cons, decide_True in Hf by done.
  assert (same s s2) as Hs by (by eapply same_trans).
  eapply returns_mono; [apply (IH s2 l1'' l2'' HU2) |].
  - by destruct Hs as (-> & _).
  - destruct Hl as [-> | [gn ->]]; [lia |]. rewrite ahead_cons in Hah. destruct (decide _); lia.
  - intros s3 (l & HD3 & Hs3 & Hfin). exists l. split_and!; [done | by eapply same_trans | done].
Qed.
End LockProof.

(** * [Lockable]: the check holds on every locked byte of the range *)

Lemma Lockable_loop_spec s r check l2 :
  forall l1 fuel, Rep s (l1 ++ l2) -> (length l2 < fuel)%nat ->
  exists b, Lockable_loop fuel s r check (Some (next_ptr s l2)) = Ret b /\
    (b = true <-> forall g, g ∈ l2 -> sg_start g < End_ r ->
                  check (lock_at (s_world s) (sg_val g)) = true).
Proof.
  induction l2 as [| g l2 IH]; intros l1 [| fuel] HR Hf; simpl in Hf; try lia;
    cbn [Lockable_loop]; rewrite (seg_Ok_next s l1 _ HR), (start_next s l1 _ HR).
  - exists true. split; [done |]. split; [intros _ g Hg; by apply elem_of_nil in Hg | done].
  - change (negb (bool_decide (g :: l2 = []))) with true. cbn [andb hi_start next_ptr].
    pose proof (rep_order _ _ HR) as [_ Ho]%ordered_zip.
    destruct (Z.ltb_spec (sg_start g) (End_ r)) as [Hst | Hst].
    + unfold seg_Value. rewrite (seg_Value_rep s l1 g l2 HR), bind_ret.
      destruct (check _) eqn:Hc; cbn [negb].
      * rewrite (seg_NextSeg_rep s l1 g l2 HR).
        destruct (IH (l1 ++ [g]) fuel (Rep_after _ _ _ _ HR)) as (b & -> & Hb); [lia |].
        exists b. split; [done |]. rewrite Hb. split.
        -- intros H g' [-> | Hg']%elem_of_cons Hg; [done | by apply H].
        -- intros H g' Hg' Hg. apply H; [by right | done].
      * exists false. split; [done |]. split; [done |]. intros H. rewrite <- Hc. apply H; [by left | done].
    + exists true. split; [done |]. split; [| done]. intros _ g' Hg' Hg.
      simpl in Ho. apply elem_of_cons in Hg' as [-> | Hg']; [lia |].
      destruct Ho as (_ & ? & Ho). pose proof (ordered_elem _ _ _ _ Ho Hg').
      unfold sg_start, sg_end in *. lia.
Qed.

(** The bytes of the range that are locked, and the segments the walk from
    [LowerBoundSeg] visits. *)
Lemma bytes_of_segs s l r :
  RepD s l -> extent r -> r_start (s_range s) <= r_start r -> End_ r <= End_ (s_range s) ->
  exists l1 l2, l = l1 ++ l2 /\ LowerBoundSeg s (r_start r) = Some (next_ptr s l2) /\
    (forall g, g ∈ l2 -> sg_start g < End_ r ->
       r_start r < sg_end g /\ lock_ok (lock_at (s_world s) (sg_val g)) /\
       exists x, inr_ r x = true /\ byte_locks s l x = Some (view (lock_at (s_world s) (sg_val g)))) /\
    (forall x d, inr_ r x = true -> byte_locks s l x = Some d ->
       exists g, g ∈ l2 /\ sg_start g < End_ r /\ d = view (lock_at (s_world s) (sg_val g))).
Proof.
  intros HD Hr Hlo Hhi. pose proof (repd_rep _ _ HD) as HR. unfold extent in Hr.
  destruct (LowerBoundSeg_rep s l (r_start r) HR) as (l1 & l2 & -> & E0 & H1 & H2); [lia |].
  exists l1, l2. split_and!; [done | done | |]; pose proof (rep_order _ _ HR) as [Ho1 Ho2]%ordered_zip.
  - intros g Hg Hst. assert (g ∈ l1 ++ l2) as Hgl by (apply elem_of_app; by right).
    assert (r_start r < sg_end g) as Hend.
    { destruct l2 as [| g2 l2]; [by apply elem_of_nil in Hg |].
      specialize (H2 g2 eq_refl). simpl in Ho2. destruct Ho2 as (_ & _ & Ho2).
      apply elem_of_cons in Hg as [-> | Hg]; [done |].
      pose proof (ordered_elem _ _ _ _ Ho2 Hg). unfold sg_start, sg_end in *. lia. }
    split_and!; [done | |].
    + apply lock_at_valid. destruct HD as [_ [_ Hv]]. exact (proj1 (Forall_forall _ _) Hv g Hgl).
    + exists (Z.max (r_start r) (sg_start g)). split; [apply inr_spec; lia |].
      pose proof Hgl as (k1 & k2 & E)%list_elem_of_split. rewrite E in HR |- *.
      destruct (rep_bounds_seg s _ g HR (elem_middle _ _ _)) as (_ & Hlen & _).
      rewrite (den_at_middle s k1 g k2 _ _ HR).
      by rewrite (proj2 (coverb_spec _ (Z.max (r_start r) (sg_start g))))
        by (unfold covers, sg_start, sg_end in *; lia).
  - intros x d Hx (k1 & g & k2 & E & Hc & ->)%(den_at_some s _ _ _ _ HR).
    apply inr_spec in Hx. unfold covers in Hc.
    assert (g ∈ l1 ++ l2) as Hg by (rewrite E; apply elem_middle).
    exists g. apply elem_of_app in Hg as [Hg | Hg].
    + pose proof (ordered_elem _ _ _ _ Ho1 Hg). unfold sg_start, sg_end in *. lia.
    + split_and!; [done | unfold sg_start; lia | done].
Qed.

Lemma Lockable_spec s l r check (K : holders -> Prop) :
  RepD s l -> extent r -> r_start (s_range s) <= r_start r -> End_ r <= End_ (s_range s) ->
  (forall c, lock_ok c -> check c = true <-> K (view c)) ->
  exists b, Lockable s r check = Ret b /\
    (b = true <-> forall x d, inr_ r x = true -> byte_locks s l x = Some d -> K d).
Proof.
  intros HD Hr Hlo Hhi HK. pose proof (repd_rep _ _ HD) as HR. unfold Lockable.
  destruct (bytes_of_segs s l r HD Hr Hlo Hhi) as (l1 & l2 & -> & -> & Hseg & Hbyte).
  rewrite (walk_fuel_rep _ _ HR).
  destruct (Lockable_loop_spec s r check l2 l1 (length (l1 ++ l2) + 3) HR) as (b & -> & Hb);
    [rewrite length_app; lia |].
  exists b. split; [done |]. rewrite Hb. split.
  - intros H x d Hx (g & Hg & Hst & ->)%(Hbyte x d Hx). destruct (Hseg g Hg Hst) as (_ & Hok & _).
    by apply HK, H.
  - intros H g Hg Hst. destruct (Hseg g Hg Hst) as (_ & Hok & x & Hx & Hd). apply HK; [done |].
    by apply (H x).
Qed.

Lemma CanLock_spec s l uid t r :
  RepD s l -> extent r -> r_start (s_range s) <= r_start r -> End_ r <= End_ (s_range s) ->
  exists b, CanLock s uid t r = Ret b /\
    (b = true <-> forall x d, inr_ r x = true -> byte_locks s l x = Some d -> abs_can uid t d).
Proof. intros. apply Lockable_spec; auto. intros c Hc. by apply CanLock_check_spec. Qed.

(** * [Lock] *)

(** Finding the first byte of the range. *)
Lemma Lock_start s l uid owner t r :
  RepD s l -> extent r -> r_start (s_range s) <= r_start r -> End_ r <= End_ (s_range s) ->
  returns
    (let '(seg, gap) := Find s (r_start r) in
     if gap_Ok s gap then fill_gap s gap (Intersect (gap_Range s gap) r) uid owner t
     else if r_start (ERange s seg) <? r_start r then
       '(s, (_, tmp)) ← SplitSeg s seg (r_start r); Ret (s, tmp)
     else Ret (s, seg))
    (fun res => exists l1 l2, res.2 = Some (next_ptr res.1 l2) /\ same s res.1 /\
      Upto uid t r (byte_locks s l) res.1 l1 l2 (hi_start res.1 l2)).
Proof.
  intros HD Hr Hlo Hhi. pose proof (repd_rep _ _ HD) as HR. unfold extent in Hr. unfold Find.
  assert (forall x, x < r_start r -> final uid t r (byte_locks s l) x (byte_locks s l x)) as Hbelow.
  { intros x Hx. unfold final. rewrite (proj2 (inr_false r x)) by lia. done. }
  destruct (FindArea_rep s l (r_start r) HR) as [l1 g l2 -> Hc | l1 l2 -> H1 H2]; [lia | |];
    cbn [area_Seg area_Gap].
  - change (gap_Ok s None) with false. rewrite (ERange_rep s l1 g l2 HR). unfold covers in Hc.
    destruct (Z.ltb_spec (r_start (sg_range g)) (r_start r)) as [Hst | Hst].
    + unfold SplitSeg. assert (sg_start g < r_start r < sg_end g) as Hk by (unfold sg_start, sg_end; lia).
      destruct (CanSplitAt_seg s l1 g l2 (r_start r) HR) as [_ | Hn]; [| done]. cbn [negb].
      eapply returns_bind; [by apply (split_den s l1 g l2) |].
      intros [s' hs] (ga & gb & Hh & HD' & Hs & _ & Ea & Eb & Hd). cbn [fst snd] in *. subst hs.
      apply returns_ret. exists (l1 ++ [ga]), (gb :: l2). cbn [fst snd].
      assert (sg_end ga = r_start r /\ sg_start gb = r_start r) as [E1 E2]
        by (unfold sg_start, sg_end; rewrite Ea, Eb; simpl; unfold sg_start; lia).
      split_and!; [done | done |].
      split; rewrite <- ?(assoc_L (++)); cbn [app hi_start]; [done | lia | rewrite lo_end_snoc; lia | |].
      * intros x Hx. rewrite Hd. apply Hbelow. lia.
      * intros x _. apply Hd.
    + apply returns_ret. exists l1, (g :: l2). cbn [fst snd hi_start].
      pose proof (fits_seg _ _ _ _ HR) as (Hfit & _ & _).
      assert (sg_start g = r_start r) as E by (unfold sg_start; lia).
      split_and!; [done | apply same_refl |].
      split; rewrite ?E; [done | lia | cbn [hi_start]; unfold sg_start in *; lia | done | done].
  - rewrite (gap_Ok_rep s l1 l2 HR).
    assert (r_start r < hi_start s l2) as Hst
      by (destruct l2; [simpl in *; lia | by apply H2]).
    rewrite (Intersect_extent _ r (gap_Range_proper s l1 l2 HR)) by
      (try done; rewrite (gap_Range_rep s l1 l2 HR); simpl; lia).
    rewrite (gap_Range_rep s l1 l2 HR). cbn [r_start r_len]. rewrite Z.max_r by lia.
    replace (lo_end s l1 + (hi_start s l2 - lo_end s l1)) with (hi_start s l2) by lia.
    eapply returns_mono.
    { apply (fill_gap_spec uid owner t r Hr (byte_locks s (l1 ++ l2)) s l1 l2 (r_start r)); [| lia | lia].
      split; [done | lia | lia | done | done]. }
    intros [s' h] (l1' & l2' & Hh & HU & _ & Hs). by exists l1', l2'.
Qed.

Lemma Lock_den s l uid owner t r :
  RepD s l -> extent r -> r_start (s_range s) <= r_start r -> End_ r <= End_ (s_range s) ->
  exists s' b, Lock s uid owner t r = Ret (s', b) /\
    (b = true <-> forall x d, inr_ r x = true -> byte_locks s l x = Some d -> abs_can uid t d) /\
    (b = true -> lock_done uid t r (byte_locks s l) s s') /\ (b = false -> s' = s).
Proof.
  intros HD Hr Hlo Hhi. unfold Lock.
  rewrite (proj2 (Z.eqb_neq (r_len r) 0) (extent_len r Hr)).
  destruct (CanLock_spec s l uid t r HD Hr Hlo Hhi) as ([|] & -> & Hcan); rewrite bind_ret; cbn [negb].
  2: { exists s, false. split_and!; done. }
  destruct (Lock_start s l uid owner t r HD Hr Hlo Hhi) as ([s1 h] & E1 & l1 & l2 & Hh & Hs1 & HU).
  cbn [fst snd] in *. subst h. destruct (Find s (r_start r)) as [fseg fgap]. rewrite E1, bind_ret.
  destruct (Lock_loop_spec uid owner t r Hr (byte_locks s l) (proj1 Hcan eq_refl) (walk_fuel s1) s1 l1 l2 HU)
    as (s2 & -> & l' & HD2 & Hs2 & Hfin).
  - by destruct Hs1 as (-> & _).
  - rewrite (walk_fuel_rep _ _ (repd_rep _ _ (up_rep _ _ _ _ _ _ _ _ HU))), length_app.
    pose proof (ahead_length r l2). lia.
  - exists s2, true. split_and!; [done | done | | done].
    intros _. exists l'. split_and!; [done | by eapply same_trans | done].
Qed.

(** * [Unlock] *)

Lemma view_excl c : lock_ok c -> Writer c = None <-> (view c).1 <> ∅.
Proof. intros [_ Hx]. rewrite Hx. unfold view. cbn [fst]. by rewrite keys_nil. Qed.

Lemma unlock_writer c uid : is_writer c uid = true -> abs_unlock uid (view c) = None.
Proof. intros E%is_writer_spec. unfold abs_unlock, view. simpl. by rewrite E, decide_True. Qed.

Lemma diff_single (R : gset Z) u : u ∈ R -> R ∖ {[u]} = ∅ -> R = {[u]}.
Proof.
  intros Hu E. apply set_eq. intros x. rewrite elem_of_singleton. split; [| by intros ->].
  intros Hx. destruct (decide (x = u)) as [| Hne]; [done |].
  assert (x ∈ R ∖ {[u]}) as H by set_solver. rewrite E in H. by apply elem_of_empty in H.
Qed.

Lemma unlock_reader c uid :
  lock_ok c -> contains_key uid (Readers c) = true ->
  Writer c = None /\
  abs_unlock uid (view c) =
    if (length (Readers c) =? 1)%nat then None else Some ((view c).1 ∖ {[uid]}, None).
Proof.
  intros Hok Hk. pose proof Hok as [Hs Hx].
  assert (Writer c = None) as Hw by (apply Hx; intros E; by rewrite E in Hk).
  split; [done |]. unfold abs_unlock, view. cbn [fst snd]. rewrite Hw.
  pose proof (single_reader (Readers c) uid Hs) as Hsr. rewrite Hk, andb_true_r in Hsr.
  apply contains_key_spec, (elem_of_list_to_set (C := gset Z)) in Hk.
  destruct (length (Readers c) =? 1)%nat eqn:Hl.
  - rewrite (proj1 Hsr eq_refl), decide_True by set_solver. done.
  - rewrite decide_False; [done |]. intros E. assert (false = true); [| done]. by apply Hsr, diff_single.
Qed.

Lemma unlock_not_held c uid : IsHeld c uid = false -> lock_ok c -> abs_unlock uid (view c) = Some (view c).
Proof.
  unfold IsHeld. destruct (is_writer c uid) eqn:Hw; [done |]. intros Hk Hok.
  assert (uid ∉ (view c).1) as Hn.
  { intros H%elem_of_list_to_set%contains_key_spec. congruence. }
  unfold abs_unlock. destruct (view c).2 as [u |] eqn:E.
  - rewrite decide_False; [done |]. intros ->. by apply is_writer_spec in E; congruence.
  - assert ((view c).1 ∖ {[uid]} = (view c).1) as -> by set_solver.
    rewrite decide_False by (by apply (view_excl c Hok)). destruct (view c); simpl in *; by subst.
Qed.

(** The state after one segment [g] has been unlocked. *)
Definition unlocked_seg s (uid : Z) l1 g l2 (res : LocksInternal * handle) : Prop :=
  exists l1', res.2 = Some (next_ptr res.1 l2) /\ RepD res.1 (l1' ++ l2) /\ same s res.1 /\
    forall x, byte_locks res.1 (l1' ++ l2) x =
      if coverb (sg_range g) x then abs_unlock uid (view (lock_at (s_world s) (sg_val g)))
      else byte_locks s (l1 ++ g :: l2) x.

Lemma Unlock_remove s uid l1 g l2 :
  RepD s (l1 ++ g :: l2) -> abs_unlock uid (view (lock_at (s_world s) (sg_val g))) = None ->
  returns ('(s, gap) ← Remove s (Some (sg_ptr g)); Ret (s, gap_NextSeg s gap))
    (unlocked_seg s uid l1 g l2).
Proof.
  intros HD Hn. eapply returns_bind; [by apply Remove_den |].
  intros [s' h] (Hh & HD' & Hs & Hw & _ & Hd). cbn [fst snd] in *. subst h.
  apply returns_ret. exists l1. cbn [fst snd]. rewrite <- (same_prev _ _ _ Hs).
  rewrite (gap_NextSeg_rep s' l1 l2 (repd_rep _ _ HD')), Hn, Hw. split_and!; done.
Qed.

Lemma Unlock_replace s uid l1 g l2 c :
  RepD s (l1 ++ g :: l2) -> lock_ok c ->
  abs_unlock uid (view (lock_at (s_world s) (sg_val g))) = Some (view c) ->
  let s' := seg_SetValue (with_world s (lock_alloc (s_world s) c).1) (Some (sg_ptr g)) (ls_next (s_world s)) in
  unlocked_seg s uid l1 g l2 (s', seg_NextSeg s' (Some (sg_ptr g))).
Proof.
  intros HD Hc Hab s'. destruct (alloc_rep s (l1 ++ g :: l2) c HD Hc) as ([HR1 HG1] & Hd1 & Hn1).
  destruct (alloc_new (s_world s) c Hc) as [Hnv Hnc].
  set (s1 := with_world s _) in *. set (g' := mkSeg (sg_ptr g) (sg_range g) (ls_next (s_world s))).
  assert (Rep s' (l1 ++ g' :: l2)) as HR'.
  { apply (update_rep s1 l1 g g'); [done | done | done | | done]. exact (fits_seg _ _ _ _ HR1). }
  exists (l1 ++ [g']). cbn [fst snd]. rewrite <- !(assoc_L (++)). cbn [app].
  rewrite (seg_NextSeg_rep s' l1 g' l2 HR' : seg_NextSeg s' (Some (sg_ptr g)) = _).
  change (s_world s') with (s_world s1). split_and!; [done | | done |].
  - split; [done |]. apply Good_middle in HG1 as (HG1 & _ & _). apply Good_middle.
    split_and!; [done | done |]. rewrite fps_middle in Hn1. simpl in Hn1 |- *.
    apply NoDup_cons in Hn1 as [Hni Hn1]. apply NoDup_cons. split; [set_solver |].
    by apply NoDup_cons in Hn1 as [_ ?].
  - intros x. rewrite (den_at_middle s' l1 g' l2 x _ HR'). cbn [sg_range sg_val g' den LockLaws].
    rewrite <- (Hd1 x), (den_at_middle s1 l1 g l2 x _ HR1). destruct (coverb (sg_range g) x); [| done].
    rewrite Hab. f_equal. f_equal. exact Hnc.
Qed.

Lemma Unlock_step_spec s uid l1 g l2 :
  RepD s (l1 ++ g :: l2) ->
  returns (Unlock_step s uid (Some (sg_ptr g))) (unlocked_seg s uid l1 g l2).
Proof.
  intros HD. pose proof (repd_rep _ _ HD) as HR. unfold Unlock_step, seg_Value.
  rewrite (seg_Value_rep s l1 g l2 HR), bind_ret. cbv zeta.
  assert (lock_ok (lock_at (s_world s) (sg_val g))) as Hok.
  { apply lock_at_valid. destruct HD as [_ HG]. by apply Good_middle in HG as (_ & ? & _). }
  set (c := lock_at (s_world s) (sg_val g)) in *.
  destruct (is_writer c uid) eqn:Hw; [by apply Unlock_remove, unlock_writer |].
  destruct (contains_key uid (Readers c)) eqn:Hk.
  - destruct (unlock_reader c uid Hok Hk) as [Hwn Hab].
    destruct (length (Readers c) =? 1)%nat eqn:Hl; [by apply Unlock_remove |].
    destruct (other_readers_keys uid (Readers c) (ok_sorted _ Hok)) as [Hs Hkeys].
    set (c' := mkLock (other_readers uid (Readers c)) None (mkOwner 0)).
    assert (view c' = ((view c).1 ∖ {[uid]}, None)) as Hv
      by (unfold view; cbn [fst Readers Writer c']; by rewrite Hkeys).
    assert (lock_ok c') as Hok'.
    { split; [exact Hs |]. split; [| done]. intros _ E.
      assert ((view c').1 = ∅) as E' by (unfold view; cbn [fst]; by rewrite E).
      rewrite Hv in E'. cbn [fst] in E'. revert Hab. unfold abs_unlock.
      replace (view c).2 with (@None Z) by (symmetry; exact Hwn). by rewrite decide_True. }
    apply returns_ret. apply Unlock_replace; [done | done |]. fold c. by rewrite Hab, Hv.
  - apply returns_ret. exists (l1 ++ [g]). cbn [fst snd]. rewrite <- !(assoc_L (++)). cbn [app].
    rewrite (seg_NextSeg_rep s l1 g l2 HR). split_and!; [done | done | apply same_refl |].
    intros x. rewrite (den_at_middle s l1 g l2 x _ HR). destruct (coverb (sg_range g) x); [| done].
    symmetry. apply unlock_not_held; [| done]. fold c. unfold IsHeld. by rewrite Hw.
Qed.
