(* ===== verification/LocksProps.v ===== *)
(** The properties of record locks: what [Lock], [Unlock] and [TestRegion] do to every
    byte of the file, mutual exclusion in every reachable state, and [ComputeRange]. *)
From S2P Require Import Prelude BTree Range AreaSet AreaRep AreaSpec AreaOps AreaDen AreaThm.
From S2P Require Import Locks LocksThm.
#[local] Open Scope Z_scope.
#[local] Open Scope u64_scope.
Implicit Types (s : LocksInternal) (l : list (seg positive)) (g : seg positive) (r : Range) (t : LockType).

(** ** The loop of [Unlock] *)

(** [abs_unlock] on the bytes of [lo, hi). *)
Definition unlock_map (uid lo hi : Z) (m : Z -> option holders) (x : Z) : option holders :=
  if (lo <=? x) && (x <? hi) then m x ≫= abs_unlock uid else m x.

(** Where unlocking inside [g] starts. *)
Definition cut_lo r g : Z :=
  if (sg_start g <? r_start r) && (r_start r <? sg_end g) then r_start r else sg_start g.

Lemma unlock_map_seg s uid l1 g l2 lo hi x :
  Rep s (l1 ++ g :: l2) -> sg_start g <= lo -> hi <= sg_end g ->
  (if (lo <=? x) && (x <? hi) then abs_unlock uid (view (lock_at (s_world s) (sg_val g)))
   else byte_locks s (l1 ++ g :: l2) x) = unlock_map uid lo hi (byte_locks s (l1 ++ g :: l2)) x.
Proof.
  intros H Hlo Hhi. unfold unlock_map. destruct ((lo <=? x) && (x <? hi)) eqn:E; [| done].
  apply andb_true_iff in E as [E1%Z.leb_le E2%Z.ltb_lt].
  rewrite (den_at_middle s l1 g l2 x _ H).
  by rewrite (proj2 (coverb_spec _ x)) by (unfold covers, sg_start, sg_end in *; lia).
Qed.

(** What follows [g] after the iteration: a part above the range may be cut off. *)
Definition rest r g l2 l2' : Prop :=
  l2' = l2 \/ exists gr, l2' = gr :: l2 /\ End_ r <= sg_start gr /\ End_ r <= sg_end g.

(** One iteration: a segment that [uid] does not hold is skipped, the others are cut
    to the range and unlocked. *)
Definition Unlock_iter s (uid : Z) r seg : outcome (LocksInternal * handle) :=
  p ← seg_Value s seg;
  if negb (IsHeld (lock_at (s_world s) p) uid) then Ret (s, seg_NextSeg s seg)
  else '(s, seg) ← Isolate s seg r; Unlock_step s uid seg.

Lemma Unlock_loop_unfold fuel s uid r seg :
  Unlock_loop (S fuel) s uid r seg =
    if seg_Ok s seg && (r_start (ERange s seg) <? End_ r) then
      '(s, seg) ← Unlock_iter s uid r seg; Unlock_loop fuel s uid r seg
    else Ret s.
Proof.
  cbn [Unlock_loop]. destruct (_ && _); [| done]. unfold Unlock_iter.
  destruct (seg_Value s seg) as [p | |]; [| done | done]. rewrite !bind_ret.
  destruct (negb _); [done |]. by destruct (Isolate s seg r) as [[s1 seg1] | |].
Qed.

Lemma lock_ok_seg s l1 g l2 : RepD s (l1 ++ g :: l2) -> lock_ok (lock_at (s_world s) (sg_val g)).
Proof. intros [_ HG]. apply lock_at_valid. by apply Good_middle in HG as (_ & ? & _). Qed.

Lemma Unlock_iter_spec s uid r l1 g l2 :
  RepD s (l1 ++ g :: l2) -> extent r -> sg_start g < End_ r ->
  returns (Unlock_iter s uid r (Some (sg_ptr g))) (fun res => exists l1' l2',
    res.2 = Some (next_ptr res.1 l2') /\ RepD res.1 (l1' ++ l2') /\ same s res.1 /\
    rest r g l2 l2' /\
    forall x, byte_locks res.1 (l1' ++ l2') x =
      unlock_map uid (cut_lo r g) (Z.min (End_ r) (sg_end g)) (byte_locks s (l1 ++ g :: l2)) x).
Proof.
  intros HD Hr Hst. pose proof (repd_rep _ _ HD) as HR. pose proof (lock_ok_seg _ _ _ _ HD) as Hok.
  assert (sg_start g <= cut_lo r g) as Hcut.
  { unfold cut_lo. destruct (Z.ltb_spec (sg_start g) (r_start r)); simpl; [destruct (_ <? _) |]; lia. }
  unfold Unlock_iter, seg_Value. rewrite (seg_Value_rep s l1 g l2 HR), bind_ret.
  destruct (IsHeld _ uid) eqn:Hh; cbn [negb].
  - eapply returns_bind; [by apply Isolate_den |].
    intros [s1 h1] (l1' & g' & l2' & Hp & HD1 & Hs1 & He1 & H1 & H2 & Hd1). cbn [fst snd] in *. subst h1.
    eapply returns_mono; [by apply Unlock_step_spec |].
    intros [s2 h2] (l1'' & Hp2 & HD2 & Hs2 & Hd2). cbn [fst snd] in *. exists l1'', l2'.
    pose proof (fits_seg _ _ _ _ (repd_rep _ _ HD1)) as (_ & Hlen & Hhi). unfold extent in Hr.
    assert (sg_start g' = cut_lo r g /\ sg_end g' = Z.min (End_ r) (sg_end g)) as [E1 E2].
    { unfold cut_lo. destruct (Z.ltb_spec (sg_start g) (r_start r)), (Z.ltb_spec (r_start r) (sg_end g));
        simpl; unfold sg_start, sg_end in *; lia. }
    assert (rest r g l2 l2') as Hl2.
    { destruct H2 as [(-> & _) | (? & E & gr & ->)]; [by left | right]. exists gr. split; [done |].
      cbn [hi_start] in Hhi. unfold sg_end in *. lia. }
    split_and!; [done | done | by eapply same_trans | done |].
    intros x. rewrite Hd2, Hd1, <- (unlock_map_seg s uid l1 g l2) by (auto; lia).
    replace (coverb (sg_range g') x) with ((cut_lo r g <=? x) && (x <? Z.min (End_ r) (sg_end g)))
      by (unfold coverb; unfold sg_start, sg_end in *; by rewrite E2, E1).
    destruct (_ && _) eqn:Hx; [| done]. f_equal.
    assert (byte_locks s1 (l1' ++ g' :: l2') x = byte_locks s (l1 ++ g :: l2) x) as Hv by apply Hd1.
    apply andb_true_iff in Hx as [Hx1%Z.leb_le Hx2%Z.ltb_lt].
    rewrite (den_at_middle s1 l1' g' l2' x _ (repd_rep _ _ HD1)), (den_at_middle s l1 g l2 x _ HR) in Hv.
    rewrite !(proj2 (coverb_spec _ x)) in Hv by (unfold covers, sg_start, sg_end in *; lia).
    apply (inj Some) in Hv. exact Hv.
  - apply returns_ret. exists (l1 ++ [g]), l2. cbn [fst snd]. rewrite <- !(assoc_L (++)). cbn [app].
    rewrite (seg_NextSeg_rep s l1 g l2 HR). split_and!; [done | done | apply same_refl | by left |].
    intros x. rewrite <- (unlock_map_seg s uid l1 g l2) by (auto; lia).
    rewrite (unlock_not_held _ uid Hh Hok). destruct (_ && _) eqn:Hx; [| done].
    apply andb_true_iff in Hx as [Hx1%Z.leb_le Hx2%Z.ltb_lt].
    rewrite (den_at_middle s l1 g l2 x _ HR).
    by rewrite (proj2 (coverb_spec _ x)) by (unfold covers, sg_start, sg_end in *; lia).
Qed.

Lemma unlock_map_app uid lo mid1 mid2 hi m x :
  lo <= mid1 -> mid1 <= mid2 -> mid1 <= hi -> (forall y, mid1 <= y < Z.min mid2 hi -> m y = None) ->
  unlock_map uid mid2 hi (unlock_map uid lo mid1 m) x = unlock_map uid lo hi m x.
Proof.
  intros Hlo Hmid H1 Hn. unfold unlock_map.
  destruct (Z.leb_spec mid2 x), (Z.ltb_spec x hi), (Z.leb_spec lo x), (Z.ltb_spec x mid1);
    simpl; try lia; try done.
  by rewrite Hn by lia.
Qed.

Lemma unlock_map_none uid lo hi m x :
  (forall y, lo <= y < hi -> m y = None) -> unlock_map uid lo hi m x = m x.
Proof.
  intros Hn. unfold unlock_map. destruct (Z.leb_spec lo x), (Z.ltb_spec x hi); simpl; try done.
  by rewrite Hn by lia.
Qed.

Lemma unlock_map_ext uid lo hi m m' x :
  (forall y, m y = m' y) -> unlock_map uid lo hi m x = unlock_map uid lo hi m' x.
Proof. intros E. unfold unlock_map. by rewrite E. Qed.

Definition unlocked s uid lo hi (m : Z -> option holders) (s' : LocksInternal) : Prop :=
  exists l, RepD s' l /\ same s s' /\ forall x, byte_locks s' l x = unlock_map uid lo hi m x.

Lemma unlocked_refl s uid l lo hi :
  RepD s l -> (forall y, lo <= y < hi -> byte_locks s l y = None) ->
  unlocked s uid lo hi (byte_locks s l) s.
Proof.
  intros HD Hn. exists l. split_and!; [done | apply same_refl |].
  intros x. by rewrite unlock_map_none.
Qed.

(** One iteration, then the rest of the loop from the next segment on. *)
Lemma Unlock_then s uid r l1 g l2 s1 l1' l2' s2 :
  RepD s (l1 ++ g :: l2) -> sg_start g < End_ r -> cut_lo r g <= End_ r ->
  cut_lo r g <= sg_end g -> same s s1 -> RepD s1 (l1' ++ l2') ->
  rest r g l2 l2' ->
  (forall x, byte_locks s1 (l1' ++ l2') x =
     unlock_map uid (cut_lo r g) (Z.min (End_ r) (sg_end g)) (byte_locks s (l1 ++ g :: l2)) x) ->
  unlocked s1 uid (hi_start s1 l2') (End_ r) (byte_locks s1 (l1' ++ l2')) s2 ->
  unlocked s uid (cut_lo r g) (End_ r) (byte_locks s (l1 ++ g :: l2)) s2.
Proof.
  intros HD Hst Hc1 Hc2 Hs1 HD1 Hl2 Hd1 (l & HD2 & Hs2 & Hd2). exists l.
  pose proof (repd_rep _ _ HD) as HR. pose proof (hi_start_tail _ _ _ _ HR) as Hhi.
  split_and!; [done | by eapply same_trans |]. intros x. rewrite Hd2.
  rewrite (unlock_map_ext _ _ _ _ _ x Hd1).
  assert (Z.min (End_ r) (sg_end g) <= hi_start s1 l2') as Hmid.
  { rewrite (same_hi _ _ _ Hs1). destruct Hl2 as [-> | (gr & -> & Hgr & Hge)]; cbn [hi_start]; lia. }
  apply unlock_map_app; [lia | done | lia |]. intros y Hy.
  rewrite (same_hi _ _ _ Hs1) in Hy. destruct Hl2 as [-> | (gr & -> & Hgr & Hge)]; cbn [hi_start] in Hy; [| lia].
  rewrite cons_middle, (assoc_L (++)). apply (den_in_gap s); [by apply Rep_after |].
  rewrite lo_end_snoc. lia.
Qed.

Lemma ahead_rest r g l2 l2' :
  rest r g l2 l2' -> ahead r l2' = ahead r l2.
Proof. intros [-> | (gr & -> & Hgr & Hge)]; [done |]. by rewrite ahead_cons, decide_False by lia. Qed.

Lemma Unlock_loop_spec fuel uid r :
  extent r -> forall s l1 l2, RepD s (l1 ++ l2) -> r_start r <= hi_start s l2 ->
  (ahead r l2 < fuel)%nat ->
  returns (Unlock_loop fuel s uid r (Some (next_ptr s l2)))
    (unlocked s uid (hi_start s l2) (End_ r) (byte_locks s (l1 ++ l2))).
Proof.
  intros Hr. induction fuel as [| fuel IH]; intros s l1 l2 HD Hfrom Hf; [lia |].
  pose proof (repd_rep _ _ HD) as HR. rewrite Unlock_loop_unfold.
  rewrite (seg_Ok_next s l1 l2 HR), (start_next s l1 l2 HR).
  destruct l2 as [| g l2].
  { apply returns_ret, unlocked_refl; [done |]. intros y Hy. simpl in Hy.
    apply (den_at_out _ _ _ _ _ (rep_order _ _ HR)). lia. }
  change (negb (bool_decide (g :: l2 = []))) with true. cbn [andb hi_start next_ptr] in *.
  destruct (Z.ltb_spec (sg_start g) (End_ r)) as [Hst | Hst];
    [| apply returns_ret, unlocked_refl; [done |]; intros; lia].
  eapply returns_bind; [by apply (Unlock_iter_spec s uid r l1 g l2) |].
  intros [s1 h] (l1' & l2' & Hh & HD1 & Hs1 & Hl2 & Hd1). cbn [fst snd] in *. subst h.
  assert (cut_lo r g = sg_start g) as Hcut
    by (unfold cut_lo; by rewrite (proj2 (Z.ltb_ge (sg_start g) (r_start r))) by lia).
  pose proof (fits_seg _ _ _ _ HR) as (_ & Hlen & Hhi). unfold extent in Hr.
  eapply returns_mono; [apply (IH s1 l1' l2' HD1) |].
  - rewrite (same_hi _ _ _ Hs1). destruct Hl2 as [-> | (gr & -> & Hgr & Hge)]; cbn [hi_start];
      unfold sg_start, sg_end in *; lia.
  - rewrite (ahead_rest r g l2 l2' Hl2). rewrite ahead_cons, decide_True in Hf by done. lia.
  - intros s2 Hu. rewrite <- Hcut.
    apply (Unlock_then s uid r l1 g l2 s1 l1' l2' s2); auto; unfold sg_start, sg_end in *; lia.
Qed.

(** ** Where [Unlock] starts *)

(** [Unlock] starts in the last segment that starts at or below [r.start]: at [r.start]
    if the segment covers it, else at the segment's own start; it does nothing when
    there is no such segment. *)
Definition unlock_from l r : Z :=
  match last (filter (fun g => sg_start g <= r_start r) l) with
  | None => End_ r
  | Some g => if r_start r <? sg_end g then r_start r else sg_start g
  end.

Lemma unlock_from_app s l1 l2 r :
  Rep s (l1 ++ l2) -> (forall g, last l1 = Some g -> sg_start g <= r_start r) ->
  (l2 <> [] -> r_start r < hi_start s l2) ->
  unlock_from (l1 ++ l2) r =
    match last l1 with
    | None => End_ r
    | Some g => if r_start r <? sg_end g then r_start r else sg_start g
    end.
Proof.
  intros H H1 H2. unfold unlock_from. rewrite filter_app.
  pose proof (rep_order _ _ H) as [Ho1 Ho2]%ordered_zip.
  rewrite (filter_all _ l1), (filter_none _ l2), app_nil_r; [done | |].
  - apply Forall_forall. intros g Hg. destruct l2 as [| g2 l2]; [by apply elem_of_nil in Hg |].
    specialize (H2 ltac:(done)). simpl in H2. apply (ordered_relax s _ (sg_start g2)) in Ho2; [| simpl; lia].
    pose proof (ordered_elem _ _ _ _ Ho2 Hg). lia.
  - destruct l1 as [| gp l1 _] using rev_ind; [constructor |]. rewrite last_snoc in H1.
    specialize (H1 gp eq_refl). apply Forall_app. split; [| by apply Forall_singleton].
    rewrite <- (assoc_L (++)) in H. pose proof (fits_seg _ _ _ _ H) as (Hlo & _ & _).
    pose proof (rep_order _ _ H) as [Ho3 _]%ordered_zip.
    apply (ordered_starts_le _ _ _ _ Ho3). unfold sg_start in *. lia.
Qed.

Lemma Unlock_den s l uid r :
  RepD s l -> extent r -> r_start (s_range s) <= r_start r -> End_ r <= End_ (s_range s) ->
  returns (Unlock s uid r) (unlocked s uid (unlock_from l r) (End_ r) (byte_locks s l)).
Proof.
  intros HD Hr Hlo Hhi. pose proof (repd_rep _ _ HD) as HR. unfold Unlock.
  rewrite (proj2 (Z.eqb_neq (r_len r) 0) (extent_len r Hr)). unfold extent in Hr.
  destruct (UpperBoundSeg_rep s l (r_start r) HR) as (l1 & l2 & -> & -> & H1 & H2); [lia |].
  rewrite (unlock_from_app s l1 l2 r HR H1 H2), (walk_fuel_rep _ _ HR), Nat.add_comm. cbn [Nat.add].
  rewrite Unlock_loop_unfold. rewrite (seg_Ok_prev s l1 l2 HR).
  destruct l1 as [| g l1 _] using rev_ind.
  { apply returns_ret, unlocked_refl; [done |]. simpl. intros; lia. }
  rewrite last_snoc in H1 |- *. specialize (H1 g eq_refl).
  rewrite (bool_decide_eq_false_2 (l1 ++ [g] = [])) by (by destruct l1). cbn [negb andb].
  rewrite prev_ptr_snoc, <- (assoc_L (++)) in *. cbn [app] in *. rewrite (ERange_rep s l1 g l2 HR).
  rewrite (proj2 (Z.ltb_lt (r_start (sg_range g)) (End_ r))) by (unfold sg_start in *; lia).
  eapply returns_bind; [apply (Unlock_iter_spec s uid r l1 g l2 HD Hr); lia |].
  intros [s1 h] (l1' & l2' & Hh & HD1 & Hs1 & Hl2 & Hd1). cbn [fst snd] in *. subst h.
  pose proof (hi_start_tail _ _ _ _ HR) as Htl. pose proof (fits_seg _ _ _ _ HR) as (_ & Hlen & _).
  assert (cut_lo r g = if r_start r <? sg_end g then r_start r else sg_start g) as Hcut.
  { unfold cut_lo. destruct (Z.ltb_spec (sg_start g) (r_start r)), (Z.ltb_spec (r_start r) (sg_end g));
      simpl; lia. }
  eapply returns_mono; [apply (Unlock_loop_spec _ uid r Hr s1 l1' l2' HD1) |].
  - rewrite (same_hi _ _ _ Hs1). destruct Hl2 as [-> | (gr & -> & Hgr & Hge)]; cbn [hi_start]; [| lia].
    destruct l2; [simpl; lia | specialize (H2 ltac:(done)); lia].
  - rewrite (ahead_rest r g l2 l2' Hl2). pose proof (ahead_length r l2). rewrite length_app. simpl. lia.
  - intros s2 Hu. rewrite <- Hcut. apply (Unlock_then s uid r l1 g l2 s1 l1' l2' s2); auto; [lia | |];
      rewrite Hcut; destruct (Z.ltb_spec (r_start r) (sg_end g)); unfold sg_start, sg_end in *; lia.
Qed.

(** * [TestRegion] *)

Lemma find_other (m : list (Z * OwnerInfo)) uid :
  m <> [] -> find (fun e => negb (e.1 =? uid)) m = None <-> (list_to_set m.*1 : gset Z) = {[uid]}.
Proof.
  intros Hm. split.
  - intros Hf. apply set_eq. intros x. rewrite elem_of_singleton, elem_of_list_to_set.
    assert (forall y, y ∈ m.*1 -> y = uid) as Hall.
    { intros y (e & -> & He%list_elem_of_In)%list_elem_of_fmap.
      pose proof (find_none _ _ Hf e He) as Hne. simpl in Hne.
      apply negb_false_iff, Z.eqb_eq in Hne. done. }
    split; [apply Hall |]. intros ->. destruct m as [| e m]; [done |]. simpl.
    rewrite <- (Hall e.1); simpl; left.
  - intros E. destruct (find _ m) as [e |] eqn:Hf; [| done]. apply find_some in Hf as [He Hne].
    assert (e.1 ∈ (list_to_set m.*1 : gset Z)) as Hin.
    { apply elem_of_list_to_set, list_elem_of_fmap_2. by apply list_elem_of_In. }
    rewrite E, elem_of_singleton in Hin. rewrite Hin, Z.eqb_refl in Hne. done.
Qed.

Lemma test_check_none uid t c a b :
  lock_ok c -> test_check uid t c a b = None <-> abs_can uid t (view c).
Proof.
  intros [Hs Hx]. unfold test_check, abs_can, view, is_writer. cbn [fst snd].
  destruct t, (Writer c) as [u |]; simpl.
  - destruct (Z.eqb_spec u uid) as [-> | Hne]; [by split; [right |] |].
    split; [done | intros [|]; congruence].
  - split; [by left | done].
  - destruct (Z.eqb_spec u uid) as [-> | Hne]; [by split; [left |] |].
    split; [done | intros [| []]; congruence].
  - assert (Readers c <> []) as Hn by (by apply Hx). rewrite <- (find_other _ _ Hn).
    destruct (find _ _) as [[k v] |]; (split; [| intros [|[]]]); try done. by right.
Qed.

Lemma test_check_some uid t c a b f :
  test_check uid t c a b = Some f ->
  f_Type f <> F_UNLCK /\ f_Start f = to_i64 a /\ f_Len f = to_i64 b.
Proof.
  unfold test_check.
  destruct t; [destruct (_ || _) | destruct (is_none _); [destruct (find _ _) as [[]|] | destruct (is_writer _ _)]];
    intros [= <-]; done.
Qed.

Lemma testRegion_loop_spec s r check l2 :
  forall l1 fuel, Rep s (l1 ++ l2) -> (length l2 < fuel)%nat ->
  exists o, testRegion_loop fuel s r check (Some (next_ptr s l2)) = Ret o /\
    let chk g := check (lock_at (s_world s) (sg_val g)) (sg_start g) (r_len (sg_range g)) in
    match o with
    | None => forall g, g ∈ l2 -> sg_start g < End_ r -> chk g = None
    | Some f => exists g, g ∈ l2 /\ sg_start g < End_ r /\ chk g = Some f
    end.
Proof.
  induction l2 as [| g l2 IH]; intros l1 [| fuel] HR Hf; simpl in Hf; try lia;
    cbn [testRegion_loop]; rewrite (seg_Ok_next s l1 _ HR), (start_next s l1 _ HR).
  - exists None. split; [done |]. intros g Hg. by apply elem_of_nil in Hg.
  - change (negb (bool_decide (g :: l2 = []))) with true. cbn [andb hi_start next_ptr].
    pose proof (rep_order _ _ HR) as [_ Ho]%ordered_zip.
    destruct (Z.ltb_spec (sg_start g) (End_ r)) as [Hst | Hst].
    + unfold seg_Value. rewrite (seg_Value_rep s l1 g l2 HR), (ERange_rep s l1 g l2 HR), bind_ret.
      change (r_start (sg_range g)) with (sg_start g). cbv zeta.
      destruct (check _ _ _) as [f |] eqn:Hc.
      * exists (Some f). split; [done |]. exists g. split_and!; [left | done | done].
      * rewrite (seg_NextSeg_rep s l1 g l2 HR).
        destruct (IH (l1 ++ [g]) fuel (Rep_after _ _ _ _ HR)) as (o & -> & Ho'); [lia |].
        exists o. split; [done |]. cbv zeta in Ho'. destruct o as [f |].
        -- destruct Ho' as (g' & Hg' & ?). exists g'. split; [by right | done].
        -- intros g' [-> | Hg']%elem_of_cons Hg; [done | by apply Ho'].
    + exists None. split; [done |]. intros g' Hg' Hg.
      simpl in Ho. apply elem_of_cons in Hg' as [-> | Hg']; [lia |].
      destruct Ho as (_ & ? & Ho). pose proof (ordered_elem _ _ _ _ Ho Hg').
      unfold sg_start, sg_end in *. lia.
Qed.

(** [TestRegion] reports no conflict exactly when [Lock] would succeed; a reported
    conflict is a segment of the set that starts before the end of the range and
    whose holders exclude the requested lock, with its start and length. *)
Theorem TestRegion_spec s l uid t r :
  RepD s l -> extent r -> r_start (s_range s) <= r_start r -> End_ r <= End_ (s_range s) ->
  exists f, TestRegion s uid t r = Ret f /\
    ((f_Type f = F_UNLCK <->
       forall x d, inr_ r x = true -> byte_locks s l x = Some d -> abs_can uid t d) /\
     (f_Type f <> F_UNLCK -> exists g, g ∈ l /\ Overlaps (sg_range g) r = true /\
        f_Start f = to_i64 (sg_start g) /\ f_Len f = to_i64 (r_len (sg_range g)) /\
        ~ abs_can uid t (view (lock_at (s_world s) (sg_val g))))).
Proof.
  intros HD Hr Hlo Hhi. pose proof (repd_rep _ _ HD) as HR. unfold TestRegion, testRegion.
  destruct (bytes_of_segs s l r HD Hr Hlo Hhi) as (l1 & l2 & -> & -> & Hseg & Hbyte).
  rewrite (walk_fuel_rep _ _ HR).
  destruct (testRegion_loop_spec s r (test_check uid t) l2 l1 (length (l1 ++ l2) + 3) HR)
    as (o & -> & Ho); [rewrite length_app; lia |].
  rewrite bind_ret. eexists. split; [done |]. destruct o as [f |]; cbn [default] in *.
  - destruct Ho as (g & Hg & Hst & Hc). destruct (Hseg g Hg Hst) as (Hend & Hok & x & Hx & Hd).
    destruct (test_check_some uid t _ _ _ f Hc) as (Hty & Hfs & Hfl).
    assert (~ abs_can uid t (view (lock_at (s_world s) (sg_val g)))) as Hno
      by (intros Hcan; apply (test_check_none uid t _ (sg_start g) (r_len (sg_range g)) Hok) in Hcan; congruence).
    split; [split; [done | intros H; by destruct Hno; apply (H x)] |]. intros _. exists g.
    assert (g ∈ l1 ++ l2) as Hgl by (apply elem_of_app; by right).
    split_and!; [done | | done | done | done].
    unfold Overlaps. rewrite (End_seg s _ g HR Hgl). change (r_start (sg_range g)) with (sg_start g).
    apply andb_true_iff. split; by apply Z.ltb_lt.
  - split; [| done]. split; [| done]. intros _ x d Hx (g & Hg & Hst & ->)%(Hbyte x d Hx).
    destruct (Hseg g Hg Hst) as (_ & Hok & _). 
    by apply (test_check_none _ _ _ (sg_start g) (r_len (sg_range g)) Hok), Ho.
Qed.

(** * [Lock] and [Unlock] *)

(** C3: [Lock] succeeds exactly when no byte of the range has a holder that excludes the
    request, and then changes no byte outside the range; every byte of the range
    gets the requested lock (readers are added, a single reader is upgraded, the
    writer is downgraded).  The one exception is a byte that was unlocked, and only
    when some byte of the range already had exactly the requested lock.  On failure
    nothing changes; the operation never panics and its loop ends. *)
Theorem Lock_spec s l uid owner t r :
  RepD s l -> extent r -> r_start (s_range s) <= r_start r -> End_ r <= End_ (s_range s) ->
  exists s' b, Lock s uid owner t r = Ret (s', b) /\
    (b = true <-> forall x d, inr_ r x = true -> byte_locks s l x = Some d -> abs_can uid t d) /\
    (b = false -> s' = s) /\
    (b = true -> exists l', RepD s' l' /\ same s s' /\ forall x,
       if inr_ r x then
         byte_locks s' l' x = Some (abs_lock uid t (byte_locks s l x)) \/
         (byte_locks s l x = None /\ byte_locks s' l' x = None /\
          exists y, inr_ r y = true /\ byte_locks s l y = Some (abs_mk uid t))
       else byte_locks s' l' x = byte_locks s l x).
Proof.
  intros HD Hr Hlo Hhi. destruct (Lock_den s l uid owner t r HD Hr Hlo Hhi) as (s' & b & E & Hb & Ht & Hf).
  exists s', b. split_and!; [done | done | done |]. intros (l' & HD' & Hs & Hfin)%Ht.
  exists l'. split_and!; [done | done |]. intros x. specialize (Hfin x). unfold final, already in Hfin.
  destruct (inr_ r x); [| done]. destruct Hfin as [? | (? & ? & ?)]; auto.
Qed.

(** C25: [Unlock] removes [uid] from the holders of every byte from [unlock_from] to the
    end of the range, drops the bytes that have no holder left, and changes nothing
    else.  [unlock_from] is [r.start] when a segment covers it; otherwise it is the
    start of the segment before it, and the end of the range (nothing is unlocked)
    when there is none. *)
Theorem Unlock_spec s l uid r :
  RepD s l -> extent r -> r_start (s_range s) <= r_start r -> End_ r <= End_ (s_range s) ->
  exists s' l', Unlock s uid r = Ret s' /\ RepD s' l' /\ same s s' /\
    forall x, byte_locks s' l' x =
      if (unlock_from l r <=? x) && (x <? End_ r) then byte_locks s l x ≫= abs_unlock uid
      else byte_locks s l x.
Proof.
  intros HD Hr Hlo Hhi. destruct (Unlock_den s l uid r HD Hr Hlo Hhi) as (s' & E & l' & HD' & Hs & Hd).
  by exists s', l'.
Qed.

(** * Mutual exclusion *)

Inductive locks_step : LocksInternal -> LocksInternal -> Prop :=
| step_Lock s uid owner t r s' b :
    extent r -> Lock s uid owner t r = Ret (s', b) -> locks_step s s'
| step_Unlock s uid r s' :
    extent r -> Unlock s uid r = Ret s' -> locks_step s s'.

Definition locks_inv s : Prop := exists l, RepD s l /\ s_range s = mkRange 0 MAX_RANGE.

Lemma whole_file r : extent r -> End_ r <= End_ (mkRange 0 MAX_RANGE).
Proof. intros _. exact (End_max r). Qed.

Lemma locks_inv_default : locks_inv LocksInternal_default.
Proof.
  exists []. split; [| done]. split; [| split; constructor].
  apply New_rep; [by vm_compute | by vm_compute | by left].
Qed.

Lemma locks_inv_step s s' : locks_step s s' -> locks_inv s -> locks_inv s'.
Proof.
  intros Hst (l & HD & Hrg). destruct Hst as [s uid owner t r s' b Hr E | s uid r s' Hr E].
  - destruct (Lock_den s l uid owner t r HD Hr) as (s1 & b1 & E1 & _ & Ht & Hf);
      [rewrite Hrg; apply Hr | rewrite Hrg; by apply whole_file |].
    rewrite E in E1. injection E1 as <- <-. destruct b; [| by rewrite Hf by done; exists l].
    destruct (Ht eq_refl) as (l' & HD' & (Hs & _) & _). exists l'. by rewrite Hs.
  - destruct (Unlock_den s l uid r HD Hr) as (s1 & E1 & l' & HD' & (Hs & _) & _);
      [rewrite Hrg; apply Hr | rewrite Hrg; by apply whole_file |].
    rewrite E in E1. injection E1 as <-. exists l'. by rewrite Hs.
Qed.

Lemma locks_reachable s : rtc locks_step LocksInternal_default s -> locks_inv s.
Proof.
  intros H. apply rtc_ind_r with (P := locks_inv) (x := LocksInternal_default) in H;
    [done | apply locks_inv_default |].
  intros y z _ Hst Hy. by eapply locks_inv_step.
Qed.

(** C1: mutual exclusion.  After any sequence of [Lock] and [Unlock] operations from the
    empty set, no byte with a writer has a reader, no segment is left without a
    holder, and the next [Lock] and [Unlock] neither panic nor loop. *)
Theorem locks_exclusive s :
  rtc locks_step LocksInternal_default s ->
  (exists l, RepD s l /\ forall x d, byte_locks s l x = Some d -> d.2 = None <-> d.1 <> ∅) /\
  (forall uid owner t r, extent r -> exists s' b, Lock s uid owner t r = Ret (s', b)) /\
  (forall uid r, extent r -> exists s', Unlock s uid r = Ret s').
Proof.
  intros (l & HD & Hrg)%locks_reachable. split_and!.
  - exists l. split; [done |]. intros x d (l1 & g & l2 & -> & _ & ->)%(den_at_some s _ _ _ _ (repd_rep _ _ HD)).
    exact (view_excl _ (lock_ok_seg _ _ _ _ HD)).
  - intros uid owner t r Hr. destruct (Lock_den s l uid owner t r HD Hr) as (s' & b & E & _);
      [rewrite Hrg; apply Hr | rewrite Hrg; by apply whole_file |]. by exists s', b.
  - intros uid r Hr. destruct (Unlock_den s l uid r HD Hr) as (s' & E & _);
      [rewrite Hrg; apply Hr | rewrite Hrg; by apply whole_file |]. by exists s'.
Qed.

(** * [ComputeRange] *)

Lemma to_i64_small z : - 2 ^ 63 <= z < 2 ^ 63 -> to_i64 z = z.
Proof.
  intros Hz. unfold to_i64, wrap64. cbv zeta. destruct (Z.lt_ge_cases z 0).
  - rewrite <- (Z.mod_unique z B64 (-1) (z + B64)) by (unfold B64 in *; lia).
    destruct (Z.ltb_spec (z + B64) (2 ^ 63)); unfold B64 in *; lia.
  - rewrite Z.mod_small by (unfold B64; lia). destruct (Z.ltb_spec z (2 ^ 63)); lia.
Qed.

Lemma to_i64_big z : 2 ^ 63 <= z < 2 ^ 64 -> to_i64 z = z - 2 ^ 64.
Proof.
  intros Hz. unfold to_i64, wrap64. cbv zeta. rewrite Z.mod_small by (unfold B64; lia).
  destruct (Z.ltb_spec z (2 ^ 63)); unfold B64; lia.
Qed.

Lemma extent_proper r : 0 <= r_start r -> 0 < r_len r -> r_start r + r_len r <= U64_MAX -> extent r.
Proof. intros H1 H2 H3. unfold extent. rewrite End_proper; [lia |]. unfold proper. u64. Qed.

(** C38: [ComputeRange] on 64-bit arguments: the range that fcntl(2) describes (to the end
    of the file for length 0, backwards for a negative length) when its first byte is
    representable and not negative, EINVAL otherwise; EOVERFLOW is never returned, and
    every range it returns is one [Lock] accepts. *)
Theorem ComputeRange_spec start length offset :
  - 2 ^ 63 <= start < 2 ^ 63 -> - 2 ^ 63 <= length < 2 ^ 63 -> 0 <= offset < 2 ^ 63 ->
  let o := offset + start in
  ComputeRange start length offset =
    (if decide (0 <= o < 2 ^ 63) then
       if decide (0 < length) then Ok (mkRange o length)
       else if decide (length < 0) then
         if decide (0 <= o + length) then Ok (mkRange (o + length) (- length))
         else Err (SysError EINVAL)
       else Ok (mkRange o MAX_RANGE)
     else Err (SysError EINVAL)) /\
  (forall r, ComputeRange start length offset = Ok r -> extent r).
Proof.
  intros Hs Hl Ho o.
  assert (forall a b, 0 <= a <= b -> b < U64_MAX ->
    (if b =? MAX_RANGE then MAX_RANGE else b -w wrap64 a) = b - a) as Hfin.
  { intros a b Hab Hb. change MAX_RANGE with U64_MAX. rewrite (proj2 (Z.eqb_neq b U64_MAX)) by lia.
    rewrite wrap64_small, sub64_small by u64. done. }
  unfold ComputeRange. fold o. destruct (decide (0 <= o < 2 ^ 63)) as [Hoo | Hoo].
  2: { assert (to_i64 o < 0) as Hneg.
       { destruct (Z.lt_ge_cases o 0); [rewrite to_i64_small | rewrite to_i64_big]; lia. }
       rewrite (proj2 (Z.ltb_lt _ 0) Hneg). done. }
  rewrite (to_i64_small o) by lia. rewrite (proj2 (Z.ltb_ge o 0)) by lia.
  cbv zeta. destruct (decide (0 < length)) as [Hp | Hp]; [| destruct (decide (length < 0)) as [Hn | Hn]].
  - rewrite (proj2 (Z.ltb_lt 0 length) Hp).
    assert (wrap64 (to_i64 (o + length)) = o + length) as ->.
    { destruct (Z.lt_ge_cases (o + length) (2 ^ 63));
        [rewrite to_i64_small, wrap64_small by u64; done |].
      rewrite to_i64_big by lia. unfold wrap64, B64. rewrite <- (Z.mod_add _ 1) by lia.
      rewrite Z.mod_small; lia. }
    rewrite Hfin, (wrap64_small o) by u64.
    replace (o + length - o) with length by lia. split; [done |].
    intros r [= <-]. apply extent_proper; simpl; u64.
  - rewrite (proj2 (Z.ltb_ge 0 length)), (proj2 (Z.ltb_lt length 0)) by lia.
    rewrite (to_i64_small (o + length)) by lia.
    destruct (decide (0 <= o + length)) as [Hk | Hk];
      [| rewrite (proj2 (Z.ltb_lt (o + length) 0)) by lia; done].
    rewrite (proj2 (Z.ltb_ge (o + length) 0)), (proj2 (Z.ltb_ge o (o + length))) by lia.
    rewrite (wrap64_small o) by u64. rewrite Hfin, (wrap64_small (o + length)) by u64.
    replace (o - (o + length)) with (- length) by lia. split; [done |].
    intros r [= <-]. apply extent_proper; simpl; u64.
  - rewrite (proj2 (Z.ltb_ge 0 length)), (proj2 (Z.ltb_ge length 0)) by lia.
    rewrite (wrap64_small o) by u64. split; [done |].
    intros r [= <-]. split; [simpl; lia |]. change (o < U64_MAX). u64.
Qed.

(** * Examples *)

(** The file with [10,20) write-locked by 1, and its segment list. *)
Definition locked10 : LocksInternal :=
  match Lock LocksInternal_default 1 (mkOwner 100) WriteLock (mkRange 10 10) with
  | Ret (s, _) => s
  | _ => LocksInternal_default
  end.
Definition locked10_segs : list (seg positive) := [mkSeg 3 (mkRange 10 10) 1%positive].

Lemma locked10_rep : RepD locked10 locked10_segs.
Proof.
  split.
  - split; [split | reflexivity | vm_compute; intuition congruence | vm_compute; intuition congruence].
    + vm_compute. tauto.
    + apply (bool_decide_unpack _). vm_compute. exact I.
    + repeat constructor.
  - split; [apply NoDup_singleton |]. apply Forall_singleton.
    exists (mkLock [] (Some 1) (mkOwner 100)). split_and!; [reflexivity | | reflexivity].
    split; [constructor | done].
Qed.

Ltac closed := vm_compute; intuition congruence.

Lemma TestRegion_witness :
  exists f, TestRegion locked10 2 ReadLock (mkRange 0 15) = Ret f /\ f_Type f <> F_UNLCK.
Proof.
  destruct (TestRegion_spec locked10 locked10_segs 2 ReadLock (mkRange 0 15) locked10_rep
              ltac:(closed) ltac:(closed) ltac:(closed)) as (f & E & Hty & _).
  exists f. split; [exact E |]. intros H. apply Hty with (x := 10) (d := (∅, Some 1)) in H; [| done..].
  destruct H as [H | H]; discriminate H.
Defined.

Lemma Lock_witness :
  exists s' b, Lock locked10 1 (mkOwner 100) ReadLock (mkRange 0 15) = Ret (s', b) /\
    (b = false -> s' = locked10).
Proof.
  destruct (Lock_spec locked10 locked10_segs 1 (mkOwner 100) ReadLock (mkRange 0 15) locked10_rep
              ltac:(closed) ltac:(closed) ltac:(closed)) as (s' & b & E & _ & Hf & _).
  exists s', b. split; [exact E | exact Hf].
Defined.

Lemma Unlock_witness :
  exists s' l', Unlock locked10 1 (mkRange 15 20) = Ret s' /\ RepD s' l'.
Proof.
  destruct (Unlock_spec locked10 locked10_segs 1 (mkRange 15 20) locked10_rep
              ltac:(closed) ltac:(closed) ltac:(closed)) as (s' & l' & E & HD & _).
  exists s', l'. split; [exact E | exact HD].
Defined.

Lemma locks_exclusive_witness :
  exists l, RepD locked10 l /\ forall x d, byte_locks locked10 l x = Some d -> d.2 = None <-> d.1 <> ∅.
Proof.
  refine (proj1 (locks_exclusive locked10 _)). apply rtc_once.
  apply (step_Lock _ 1 (mkOwner 100) WriteLock (mkRange 10 10) _ true); [closed |].
  vm_compute. reflexivity.
Defined.

Lemma ComputeRange_witness : ComputeRange 100 (-40) 0 = Ok (mkRange 60 40) /\ extent (mkRange 60 40).
Proof.
  destruct (ComputeRange_spec 100 (-40) 0 ltac:(lia) ltac:(lia) ltac:(lia)) as [E Hx].
  split; [exact E | exact (Hx _ E)].
Defined.

(** A write lock that [Lock] reports as taken does not exclude the others: 1 has
    [10,20), takes [0,30) successfully, and 2 can still take [20,30), because the new
    segment [0,10) merges with [10,20) and the loop skips the gap after it. *)
Theorem Lock_leaves_gap :
  exists s1 s2 s3,
    Lock LocksInternal_default 1 (mkOwner 100) WriteLock (mkRange 10 10) = Ret (s1, true) /\
    Lock s1 1 (mkOwner 100) WriteLock (mkRange 0 30) = Ret (s2, true) /\
    Lock s2 2 (mkOwner 200) WriteLock (mkRange 20 10) = Ret (s3, true).
Proof.
  eexists _, _, _. split; [vm_compute; reflexivity |].
  split; [vm_compute; reflexivity | vm_compute; reflexivity].
Qed.

(** [Unlock] of [20,30) removes the lock on [10,20), which is not in the range, and
    [Unlock] of [5,30) removes nothing, although [10,20) is in the range. *)
Theorem Unlock_wrong_range :
  (exists s', Unlock locked10 1 (mkRange 20 10) = Ret s' /\ IsEmpty s' = true) /\
  Unlock locked10 1 (mkRange 5 25) = Ret locked10.
Proof.
  split; [eexists; split; [vm_compute; reflexivity | vm_compute; reflexivity] |].
  vm_compute. reflexivity.
Qed.
