(* ===== verification/Gaps.v ===== *)
(** The free-interval map that the file descriptor table ([GapMgr] of
    qlib/kernel/kernel/fd_table.rs) and [IdAllocator] of qlib/idallocator.rs both keep:
    a [BTreeMap] from the last free identifier of an interval to the interval's
    length.  The two files have the same code for it; the operations here act on the
    map, the records around it are in [IdAlloc] and [FdTable]. *)
From S2P Require Import Prelude BTree Range.
#[local] Open Scope Z_scope.
#[local] Open Scope u64_scope.

Module Gaps.
Implicit Types (m : list (Z * Z)) (id : Z).

Definition New (range : Range) (len : Z) : list (Z * Z) := bt_insert (End_ range -w 1) len [].

Definition LastGap m : option Range :=
  match last m with
  | Some (end_, len) => Some (mkRange (end_ -w len +w 1) len)
  | None => None
  end.

Definition Fork m : list (Z * Z) := foldl (fun acc e => bt_insert e.1 e.2 acc) [] m.

(** What [Take] does to the interval that ends at [gEnd]: the key to remove, the
    interval to insert, and the map with the interval shrunk from the left. *)
Definition Take_gap m (gR : Range) (gEnd id : Z) : option Z * option Range * list (Z * Z) :=
  if r_len gR =? 1 then (Some gEnd, None, m)
  else
    let insert :=
      if r_start gR <? id then Some (mkRange (r_start gR) (id -w r_start gR)) else None in
    if End_ gR -w 1 =? id then (Some gEnd, insert, m)
    else (None, insert, bt_insert gEnd (gEnd -w id) m).

Definition Take m id : outcome (list (Z * Z)) :=
  match bt_first_ge id m with
  | None => Ret m
  | Some (gEnd, gLen) =>
      let gR := mkRange (gEnd -w (gLen -w 1)) gLen in
      if negb (Contains gR id) then Panic
      else
        let '(remove, insert, m) := Take_gap m gR gEnd id in
        let m := match remove with None => m | Some e => bt_remove e m end in
        Ret (match insert with None => m | Some r => bt_insert (End_ r -w 1) (r_len r) m end)
  end.

Definition AllocAfter m id : outcome (list (Z * Z) * option Z) :=
  match bt_first_ge id m with
  | None => Ret (m, None)
  | Some (gEnd, gLen) =>
      let r := mkRange (gEnd -w (gLen -w 1)) gLen in
      if r_start r <? id then
        m ← Take m id; Ret (m, Some id)
      else
        Ret (if 1 <? r_len r then bt_insert (End_ r -w 1) (r_len r -w 1) m
             else bt_remove (End_ r -w 1) m, Some (r_start r))
  end.

(** The free interval that ends just before [id]. *)
Definition leftRange m id : option Range :=
  if id =? 0 then None
  else
    match bt_get (id -w 1) m with
    | None => None
    | Some len => Some (mkRange (id -w 1 -w (len -w 1)) len)
    end.

(** The free interval that starts just after [id]. *)
Definition rightRange m id : option Range :=
  match bt_first_gt id m with
  | None => None
  | Some (gEnd, gLen) =>
      let range := mkRange (gEnd -w (gLen -w 1)) gLen in
      if r_start range =? id +w 1 then Some range else None
  end.

Definition Free m id : list (Z * Z) :=
  match leftRange m id, rightRange m id with
  | None, None => bt_insert id 1 m
  | None, Some r => bt_insert (End_ r -w 1) (r_len r +w 1) m
  | Some l, None => bt_insert (End_ l) (r_len l +w 1) (bt_remove (End_ l -w 1) m)
  | Some l, Some r => bt_insert (End_ r -w 1) (r_len r +w r_len l +w 1) (bt_remove (End_ l -w 1) m)
  end.

(** * The free identifiers *)

(** [x] is in the interval of length [n] that ends at [e]. *)
Definition within (g : Z * Z) (x : Z) : Prop := g.1 - g.2 < x <= g.1.

Definition free (m : list (Z * Z)) (x : Z) : Prop := exists g, g ∈ m /\ within g x.

(** Intervals are not empty, increasing, and not adjacent, between [lo] and [hi]. *)
Fixpoint gaps (lo : Z) (m : list (Z * Z)) (hi : Z) : Prop :=
  match m with
  | [] => True
  | (e, n) :: m' => lo <= e - n + 1 /\ 0 < n /\ e < hi /\ gaps (e + 2) m' hi
  end.

Definition above lo (m : list (Z * Z)) : Z := match last m with None => lo | Some (e, _) => e + 2 end.

Lemma gaps_app lo m1 m2 hi : gaps lo (m1 ++ m2) hi <-> gaps lo m1 hi /\ gaps (above lo m1) m2 hi.
Proof.
  revert lo. induction m1 as [| [e n] m1 IH]; intros lo; simpl; [tauto |].
  rewrite IH. unfold above. rewrite last_cons. destruct (last m1) as [[e1 n1] |]; tauto.
Qed.

Lemma gaps_elem lo m hi g : gaps lo m hi -> g ∈ m -> lo <= g.1 - g.2 + 1 /\ 0 < g.2 /\ g.1 < hi.
Proof.
  revert lo. induction m as [| [e n] m IH]; intros lo; simpl; [intros _ H; by apply elem_of_nil in H |].
  intros (H1 & H2 & H3 & H4) [-> | Hg]%elem_of_cons; [done |]. pose proof (IH _ H4 Hg). lia.
Qed.

Lemma gaps_lower lo lo' m hi : lo' <= lo -> gaps lo m hi -> gaps lo' m hi.
Proof. destruct m as [| [e n] m]; simpl; [done |]. intros Hl (H1 & H2 & H3 & H4). split_and!; auto; lia. Qed.

Lemma gaps_last lo m hi e n : gaps lo (m ++ [(e, n)]) hi -> Forall (fun g => g.1 < e - n) m.
Proof.
  revert lo. induction m as [| [e1 n1] m IH]; intros lo; simpl; constructor.
  - destruct H as (H1 & H2 & H3 & H4). simpl.
    destruct (gaps_elem _ _ _ (e, n) H4) as (? & ? & ?); [apply elem_of_app; right; left |].
    simpl in *. lia.
  - apply (IH (e1 + 2)). tauto.
Qed.

Lemma gaps_keys_lt lo m1 e n m2 hi :
  gaps lo (m1 ++ (e, n) :: m2) hi -> Forall (fun g => g.1 < e - n) m1 /\ Forall (fun g => e < g.1 - g.2) m2.
Proof.
  intros H. split.
  - rewrite cons_middle, (assoc_L (++)) in H. apply gaps_app in H as [H _]. by eapply gaps_last.
  - apply gaps_app in H as [_ (_ & _ & _ & H)]. apply Forall_forall. intros g Hg.
    pose proof (gaps_elem _ _ _ _ H Hg). lia.
Qed.

(** Splitting the map at an identifier. *)
Lemma gaps_split lo m hi id :
  gaps lo m hi -> exists m1 m2, m = m1 ++ m2 /\ keys_lt m1 id /\ Forall (fun g => id <= g.1) m2.
Proof.
  revert lo. induction m as [| [e n] m IH]; intros lo H.
  - exists [], []. split_and!; constructor.
  - destruct (Z.lt_ge_cases e id) as [He | He].
    + destruct H as (_ & _ & _ & H). destruct (IH _ H) as (m1 & m2 & -> & H1 & H2).
      exists ((e, n) :: m1), m2. split_and!; [done | by constructor | done].
    + exists [], ((e, n) :: m). split_and!; [done | constructor |].
      apply Forall_forall. intros g Hg. apply elem_of_cons in Hg as [-> | Hg]; [done |].
      destruct H as (_ & H2 & _ & H). pose proof (gaps_elem _ _ _ _ H Hg). lia.
Qed.

Lemma free_app m1 m2 x : free (m1 ++ m2) x <-> free m1 x \/ free m2 x.
Proof.
  unfold free. split.
  - intros (g & [Hg | Hg]%elem_of_app & Hx); eauto.
  - intros [(g & Hg & Hx) | (g & Hg & Hx)]; exists g; (split; [apply elem_of_app; auto | done]).
Qed.

Lemma free_cons g m x : free (g :: m) x <-> within g x \/ free m x.
Proof.
  unfold free. split.
  - intros (g' & [-> | Hg]%elem_of_cons & Hx); eauto.
  - intros [Hx | (g' & Hg & Hx)]; [exists g | exists g']; (split; [| done]); [left | by right].
Qed.

Lemma free_nil x : ~ free [] x.
Proof. intros (g & Hg & _). by apply elem_of_nil in Hg. Qed.

(** Cutting [id] out of the interval of length [n] that ends at [e]. *)
Definition cut (m1 : list (Z * Z)) (e n : Z) (m2 : list (Z * Z)) (id : Z) : list (Z * Z) :=
  m1 ++ (if e - n + 1 <? id then [(id - 1, id - (e - n + 1))] else []) ++
    (if id <? e then [(e, e - id)] else []) ++ m2.

Lemma cut_gaps lo m1 e n m2 hi id :
  gaps lo (m1 ++ (e, n) :: m2) hi -> e - n < id <= e -> gaps lo (cut m1 e n m2 id) hi.
Proof.
  intros H Hid. unfold cut. rewrite gaps_app in H |- *. destruct H as [H1 (H2 & H3 & H4 & H5)].
  split; [done |].
  destruct (Z.ltb_spec (e - n + 1) id), (Z.ltb_spec id e); simpl; split_and?; try lia; try done;
    eapply gaps_lower; try exact H5; lia.
Qed.

Lemma cut_free lo m1 e n m2 hi id x :
  gaps lo (m1 ++ (e, n) :: m2) hi -> e - n < id <= e ->
  free (cut m1 e n m2 id) x <-> free (m1 ++ (e, n) :: m2) x /\ x <> id.
Proof.
  intros H Hid. destruct (gaps_keys_lt _ _ _ _ _ _ H) as [Hl Hr].
  assert (free m1 x -> x <> id) as N1.
  { intros (g & Hg & Hx) ->. pose proof (proj1 (Forall_forall _ _) Hl g Hg). unfold within in Hx. simpl in *. lia. }
  assert (free m2 x -> x <> id) as N2.
  { intros (g & Hg & Hx) ->. pose proof (proj1 (Forall_forall _ _) Hr g Hg). unfold within in Hx. simpl in *. lia. }
  unfold cut. rewrite !free_app, free_cons. pose proof (free_nil x) as N0.
  destruct (Z.ltb_spec (e - n + 1) id), (Z.ltb_spec id e); rewrite ?free_cons; unfold within; simpl;
    intuition lia.
Qed.

Section Ops.
Context (m : list (Z * Z)) (lo hi : Z).
Context (Hb : 0 <= lo /\ hi <= U64_MAX) (HI : gaps lo m hi).

(** The interval found at or above [id]. *)
Lemma find_gap m1 e n m2 id :
  m = m1 ++ (e, n) :: m2 -> keys_lt m1 id -> id <= e ->
  bt_first_ge id m = Some (e, n) /\ keys_lt m1 e /\ keys_gt m2 e /\ 0 < n /\ lo <= e - n + 1 /\
  e < hi /\ mkRange (e -w (n -w 1)) n = mkRange (e - n + 1) n /\ proper (mkRange (e - n + 1) n).
Proof.
  intros E H1 Hid.  pose proof HI as Hg. rewrite E in Hg.
  destruct (gaps_elem _ _ _ (e, n) Hg) as (B1 & B2 & B3); [apply elem_of_app; right; left |].
  simpl in B1, B2, B3. destruct (gaps_keys_lt _ _ _ _ _ _ Hg) as [Hl Hr].
  split_and!; auto.
  - rewrite E. by apply bt_first_ge_at.
  - eapply Forall_impl; [exact Hl |]. intros g. cbv beta. lia.
  - apply Forall_forall. intros g Hin. pose proof (proj1 (Forall_forall _ _) Hr g Hin). cbv beta in *.
    destruct (gaps_elem _ _ _ g Hg) as (_ & ? & _); [apply elem_of_app; right; by right |]. lia.
  - rewrite (sub64_small n 1), sub64_small by u64. f_equal. lia.
  - unfold proper. simpl. split_and!; u64.
Qed.

Lemma Take_cut m1 e n m2 id :
  m = m1 ++ (e, n) :: m2 -> keys_lt m1 id -> e - n < id <= e ->
  Take m id = Ret (cut m1 e n m2 id).
Proof.
  intros E H1 Hid. 
  destruct (find_gap m1 e n m2 id E H1 ltac:(lia)) as (Ef & Hl & Hr & Hn & Hlo & Hhi & ER & Hp).
  unfold Take. rewrite Ef, ER. rewrite (proj2 (Contains_proper _ id Hp)) by (unfold covers; simpl; lia).
  cbn [negb]. unfold Take_gap. rewrite (End_proper _ Hp). cbn [r_start r_len].
  replace (e - n + 1 + n) with (e + 1) by lia. rewrite (sub64_small (e + 1) 1) by u64.
  replace (e + 1 - 1) with e by lia. unfold cut.
  assert (keys_lt m1 (id - 1) \/ ~ e - n + 1 < id) as Hl1.
  { destruct (Z.lt_ge_cases (e - n + 1) id); [left | right; lia].
    pose proof HI as Hg. rewrite E in Hg. destruct (gaps_keys_lt _ _ _ _ _ _ Hg) as [Hk _].
    eapply Forall_impl; [exact Hk |]. intros g. cbv beta. lia. }
  assert (keys_gt m2 (id - 1)) as Hr1
    by (eapply Forall_impl; [exact Hr |]; intros g; cbv beta; lia).
  assert (e - n + 1 < id -> End_ (mkRange (e - n + 1) (id - (e - n + 1))) -w 1 = id - 1) as HE.
  { intros Hlt. rewrite End_proper by (unfold proper; simpl; split_and!; u64). cbn [r_start r_len].
    replace (e - n + 1 + (id - (e - n + 1))) with id by lia. by rewrite sub64_small by u64. }
  rewrite (sub64_small id) by u64.
  destruct (Z.eqb_spec n 1) as [-> | Hn1].
  { destruct (Z.ltb_spec (e - 1 + 1) id), (Z.ltb_spec id e); try lia. simpl.
    by rewrite E, bt_remove_at. }
  destruct (Z.ltb_spec (e - n + 1) id) as [Hlt | Hge].
  - destruct Hl1 as [Hl1 |]; [| lia].
    destruct (Z.eqb_spec e id) as [Heq | Hne], (Z.ltb_spec id e); try lia;
      cbv beta iota zeta; rewrite (HE Hlt); cbn [r_len]; rewrite E.
    + by rewrite bt_remove_at, bt_insert_at.
    + rewrite bt_insert_over, (sub64_small e id) by (done || u64). rewrite bt_insert_at; [done | done |].
      constructor; [simpl; lia | done].
  - destruct (Z.eqb_spec e id) as [Heq | Hne], (Z.ltb_spec id e); try lia.
    cbv beta iota zeta. rewrite E, bt_insert_over, (sub64_small e id) by (done || u64). done.
Qed.

Lemma AllocAfter_cut m1 e n m2 id :
  m = m1 ++ (e, n) :: m2 -> keys_lt m1 id -> id <= e ->
  let i := Z.max id (e - n + 1) in
  AllocAfter m id = Ret (cut m1 e n m2 i, Some i).
Proof.
  intros E H1 Hid i. 
  destruct (find_gap m1 e n m2 id E H1 Hid) as (Ef & Hl & Hr & Hn & Hlo & Hhi & ER & Hp).
  unfold AllocAfter. rewrite Ef, ER. rewrite (End_proper _ Hp). cbn [r_start r_len].
  replace (e - n + 1 + n) with (e + 1) by lia. rewrite (sub64_small (e + 1) 1) by u64.
  replace (e + 1 - 1) with e by lia. unfold i.
  destruct (Z.ltb_spec (e - n + 1) id) as [Hlt | Hge].
  - rewrite (Take_cut m1 e n m2 id E H1) by lia. rewrite Z.max_l by lia. done.
  - rewrite Z.max_r by lia. unfold cut. rewrite (proj2 (Z.ltb_ge (e - n + 1) (e - n + 1))) by lia. rewrite E. simpl.
    destruct (Z.ltb_spec 1 n), (Z.ltb_spec (e - n + 1) e); try lia.
    + rewrite (sub64_small n 1), bt_insert_over by (done || u64). replace (e - (e - n + 1)) with (n - 1) by lia. done.
    + by rewrite bt_remove_at.
Qed.

(** Allocation returns the least free identifier at or above [id]. *)
Lemma AllocAfter_least id :
  exists m' o, AllocAfter m id = Ret (m', o) /\
    match o with
    | None => m' = m /\ forall j, id <= j -> ~ free m j
    | Some i =>
        id <= i /\ free m i /\ (forall j, id <= j < i -> ~ free m j) /\
        gaps lo m' hi /\ forall x, free m' x <-> free m x /\ x <> i
    end.
Proof.
  destruct (gaps_split _ _ _ id HI) as (m1 & m2 & E & H1 & H2).
  assert (forall j, id <= j -> ~ free m1 j) as N1.
  { intros j Hj (g & Hg & Hx). pose proof (proj1 (Forall_forall _ _) H1 g Hg). unfold within in Hx. simpl in *. lia. }
  destruct m2 as [| [e n] m2].
  - exists m, None. unfold AllocAfter. rewrite E, app_nil_r, bt_first_ge_none by done.
    split_and!; [done | done |]. intros j Hj. by apply N1.
  - apply Forall_cons in H2 as [He H2]. simpl in He. eexists _, _.
    split; [by apply (AllocAfter_cut m1 e n m2 id) |]. 
    pose proof HI as Hg. rewrite E in Hg.
    destruct (find_gap m1 e n m2 id E H1 He) as (_ & _ & Hr & Hn & _).
    destruct (gaps_keys_lt _ _ _ _ _ _ Hg) as [_ Hr2].
    split_and!; [lia | | | |].
    + rewrite E, free_app, free_cons. right. left. unfold within. simpl. lia.
    + intros j Hj. rewrite E, free_app, free_cons. intros [Hf | [Hf | (g & Hg' & Hx)]].
      * by apply (N1 j); [lia |].
      * unfold within in Hf. simpl in Hf. lia.
      * pose proof (proj1 (Forall_forall _ _) Hr2 g Hg'). unfold within in Hx. simpl in *. lia.
    + eapply cut_gaps; [exact Hg | lia].
    + intros x. rewrite E. eapply cut_free; [exact Hg | lia].
Qed.

(** ** Free *)

(** An identifier that is not free lies between two intervals. *)
Lemma busy_split id :
  ~ free m id -> exists m1 m2, m = m1 ++ m2 /\ Forall (fun g => g.1 < id) m1 /\
    Forall (fun g => id < g.1 - g.2 + 1) m2.
Proof.
  intros Hn. destruct (gaps_split _ _ _ id HI) as (m1 & m2 & E & H1 & H2).
  exists m1, m2. split_and!; [done | done |]. apply Forall_forall. intros g Hg.
  pose proof (proj1 (Forall_forall _ _) H2 g Hg). cbv beta in *.
  destruct (Z.lt_ge_cases id (g.1 - g.2 + 1)); [done |]. destruct Hn. exists g.
  rewrite E. split; [apply elem_of_app; by right | unfold within; lia].
Qed.

Lemma map_elem g : g ∈ m -> lo <= g.1 - g.2 + 1 /\ 0 < g.2 /\ g.1 < hi.
Proof. apply gaps_elem, HI. Qed.

Lemma get_none k : Forall (fun g => g.1 <> k) m -> bt_get k m = None.
Proof.
  generalize m. intros m0. induction 1 as [| [k' v] m0 Hk _ IH]; [done |]. simpl in *.
  destruct (Z.eqb_spec k k') as [-> |]; [done | exact IH].
Qed.

Lemma left_spec id m1 m2 :
  m = m1 ++ m2 -> Forall (fun g => g.1 < id) m1 -> Forall (fun g => id < g.1 - g.2 + 1) m2 ->
  lo <= id < hi ->
  (exists m1' n, m1 = m1' ++ [(id - 1, n)] /\ keys_lt m1' (id - 1) /\
     leftRange m id = Some (mkRange (id - n) n) /\ proper (mkRange (id - n) n) /\ 0 < n) \/
  (leftRange m id = None /\ Forall (fun g => g.1 < id - 1) m1).
Proof.
  intros E H1 H2 Hc.  unfold leftRange.
  assert (Forall (fun g => g.1 < id - 1) m1 -> bt_get (id - 1) m = None) as Hnone.
  { intros H1'. apply get_none. rewrite E. apply Forall_app. split.
    - eapply Forall_impl; [exact H1' |]. intros g. cbv beta. lia.
    - apply Forall_forall. intros g Hg. pose proof (proj1 (Forall_forall _ _) H2 g Hg).
      destruct (map_elem g) as (_ & ? & _); [rewrite E; apply elem_of_app; by right |]. cbv beta in *. lia. }
  destruct m1 as [| [e n] m1 _] using rev_ind.
  { right. destruct (Z.eqb_spec id 0); [by split |]. rewrite (sub64_small id 1) by u64.
    rewrite Hnone by done. by split. }
  apply Forall_app in H1 as [H1 [He _]%Forall_cons]. simpl in He.
  destruct (map_elem (e, n)) as (B1 & B2 & B3); [rewrite E; apply elem_of_app; left; apply elem_of_app; right; left |].
  simpl in B1, B2, B3. rewrite (proj2 (Z.eqb_neq id 0)), (sub64_small id 1) by u64.
  pose proof HI as Hg. rewrite E, <- (assoc_L (++)) in Hg.
  destruct (gaps_keys_lt _ _ _ _ _ _ Hg) as [Hl _].
  assert (keys_lt m1 e) as Hk by (eapply Forall_impl; [exact Hl |]; intros g; cbv beta; lia).
  destruct (Z.eq_dec e (id - 1)) as [-> | Hne].
  - left. exists m1, n. split_and!; [done | done | | unfold proper; simpl; split_and!; u64 | done].
    rewrite E, <- (assoc_L (++)). simpl. rewrite bt_get_at by done.
    rewrite (sub64_small n 1), sub64_small by u64. by replace (id - 1 - (n - 1)) with (id - n) by lia.
  - right. assert (Forall (fun g => g.1 < id - 1) (m1 ++ [(e, n)])) as Hall.
    { apply Forall_app. split; [| apply Forall_singleton; simpl; lia].
      eapply Forall_impl; [exact Hk |]. intros g. cbv beta. lia. }
    by rewrite Hnone.
Qed.

Lemma right_spec id m1 m2 :
  m = m1 ++ m2 -> Forall (fun g => g.1 < id) m1 -> Forall (fun g => id < g.1 - g.2 + 1) m2 ->
  lo <= id < hi ->
  (exists m2' e n, m2 = (e, n) :: m2' /\ e - n = id /\ keys_gt m2' e /\
     rightRange m id = Some (mkRange (id + 1) n) /\ proper (mkRange (id + 1) n) /\ 0 < n) \/
  (rightRange m id = None /\ Forall (fun g => id + 1 < g.1 - g.2 + 1) m2).
Proof.
  intros E H1 H2 Hc.  unfold rightRange.
  assert (bt_first_gt id m = head m2) as ->.
  { rewrite E. apply bt_first_gt_at; [eapply Forall_impl; [exact H1 |]; intros g; cbv beta; lia |].
    apply Forall_forall. intros g Hg. pose proof (proj1 (Forall_forall _ _) H2 g Hg).
    destruct (map_elem g) as (_ & ? & _); [rewrite E; apply elem_of_app; by right |]. cbv beta in *. lia. }
  destruct m2 as [| [e n] m2]; simpl; [by right |].
  apply Forall_cons in H2 as [He H2]. simpl in He.
  destruct (map_elem (e, n)) as (B1 & B2 & B3); [rewrite E; apply elem_of_app; right; left |].
  simpl in B1, B2, B3. pose proof HI as Hg. rewrite E in Hg.
  destruct (gaps_keys_lt _ _ _ _ _ _ Hg) as [_ Hr].
  rewrite (sub64_small n 1), sub64_small, add64_small by u64.
  destruct (Z.eqb_spec (e - (n - 1)) (id + 1)) as [Heq | Hne].
  - left. exists m2, e, n. split_and!; [done | lia | | by rewrite Heq | unfold proper; simpl; split_and!; u64 | done].
    apply Forall_forall. intros g Hg'. pose proof (proj1 (Forall_forall _ _) Hr g Hg').
    destruct (map_elem g) as (_ & ? & _); [rewrite E; apply elem_of_app; right; by right |]. cbv beta in *. lia.
  - right. split; [done |]. constructor; [simpl; lia |].
    eapply Forall_impl; [exact Hr |]. intros g. cbv beta. lia.
Qed.

(** Joining [id] with its neighbours. *)
Lemma join_gaps m1 m2 m1' m2' e n id :
  gaps lo (m1 ++ m2) hi -> lo <= id < hi ->
  (m1 = m1' /\ Forall (fun g => g.1 < id - 1) m1 /\ e - n + 1 = id \/
   exists k, m1 = m1' ++ [(id - 1, k)] /\ e - n + 1 = id - k) ->
  (m2 = m2' /\ Forall (fun g => id + 1 < g.1 - g.2 + 1) m2 /\ e = id \/
   exists k, m2 = (e, k) :: m2' /\ e - k = id) ->
  gaps lo (m1' ++ (e, n) :: m2') hi /\
  forall x, free (m1' ++ (e, n) :: m2') x <-> free (m1 ++ m2) x \/ x = id.
Proof.
  intros Hg Hid HL HR.
  assert (gaps lo m1' hi /\ above lo m1' <= e - n + 1 /\ e - n + 1 <= id /\
    forall x, free m1 x <-> free m1' x \/ e - n < x < id) as (G1 & A1 & B1 & F1).
  { apply gaps_app in Hg as [Hg _]. destruct HL as [(-> & Hlt & E) | (k & -> & E)].
    - split_and!; [done | | lia | intros x; intuition lia]. unfold above.
      destruct (last m1') as [[e1 n1] |] eqn:El; [| lia].
      apply last_Some in El as [m0 ->]. apply Forall_app in Hlt as [_ [Hlt _]%Forall_cons]. simpl in Hlt. lia.
    - apply gaps_app in Hg as [Hg (H1 & H2 & _)]. split_and!; [done | lia | lia |].
      intros x. rewrite free_app, free_cons. pose proof (free_nil x). unfold within. simpl. intuition lia. }
  assert (gaps (e + 2) m2' hi /\ id <= e < hi /\
    forall x, free m2 x <-> free m2' x \/ id < x <= e) as (G2 & B2 & F2).
  { apply gaps_app in Hg as [_ Hg]. destruct HR as [(-> & Hgt & ->) | (k & -> & E)].
    - split_and!; [| lia | lia | intros x; intuition lia].
      destruct m2' as [| [e2 n2] m2']; [done |]. apply Forall_cons in Hgt as [Hgt _]. simpl in *. intuition lia.
    - destruct Hg as (H1 & H2 & H3 & H4). split_and!; [done | lia | lia |].
      intros x. rewrite free_cons. unfold within. simpl. intuition lia. }
  split.
  - apply gaps_app. split; [done |]. simpl. split_and!; [done | lia | lia | done].
  - intros x. rewrite !free_app, free_cons, F1, F2. unfold within. simpl. intuition lia.
Qed.

Lemma Free_map id :
  lo <= id < hi -> ~ free m id ->
  gaps lo (Free m id) hi /\ forall x, free (Free m id) x <-> free m x \/ x = id.
Proof.
  intros Hc Hn.  unfold Free.
  destruct (busy_split id Hn) as (m1 & m2 & E & H1 & H2).
  pose proof (left_spec id m1 m2 E H1 H2 Hc) as HL. pose proof (right_spec id m1 m2 E H1 H2 Hc) as HR.
  pose proof HI as Hg. rewrite E in *. clear E.
  assert (keys_gt m2 id) as Hgt.
  { apply Forall_forall. intros g Hin. pose proof (proj1 (Forall_forall _ _) H2 g Hin).
    destruct (gaps_elem _ _ _ g Hg) as (_ & ? & _); [apply elem_of_app; by right |]. cbv beta in *. lia. }
  destruct HL as [(m1' & k & -> & Hk & -> & Hpl & Hk0) | (-> & Hl)],
    HR as [(m2' & e & n & -> & He & Hr & -> & Hpr & Hn0) | (-> & Hr)]; rewrite ?End_proper by done;
    cbn [r_start r_len].
  - assert (0 <= id - k /\ id + 1 + n <= U64_MAX) as [? ?] by (unfold proper in *; simpl in *; u64).
    replace (id - k + k) with id by lia. replace (id + 1 + n) with (e + 1) by lia.
    rewrite !sub64_small, (add64_small n k), add64_small by u64. replace (e + 1 - 1) with e by lia.
    rewrite <- (assoc_L (++)). simpl. rewrite bt_remove_at, bt_insert_over.
    2: { eapply Forall_impl; [exact Hk |]. intros g. cbv beta. lia. }
    2: done.
    destruct (join_gaps (m1' ++ [(id - 1, k)]) ((e, n) :: m2') m1' m2' e (n + k + 1) id) as [G F];
      [done | lia | | |].
    + right. exists k. split; [done | lia].
    + right. by exists n.
    + split; [done |]. intros x. rewrite F, <- (assoc_L (++)). done.
  - assert (0 <= id - k) by (unfold proper in *; simpl in *; u64).
    replace (id - k + k) with id by lia. rewrite sub64_small, add64_small by u64.
    rewrite <- (assoc_L (++)). simpl. rewrite bt_remove_at, bt_insert_at; [| | done | done].
    2: { eapply Forall_impl; [exact Hk |]. intros g. cbv beta. lia. }
    destruct (join_gaps (m1' ++ [(id - 1, k)]) m2 m1' m2 id (k + 1) id) as [G F]; [done | lia | | by left |].
    + right. exists k. split; [done | lia].
    + split; [done |]. intros x. rewrite F, <- (assoc_L (++)). done.
  - assert (id + 1 + n <= U64_MAX) by (unfold proper in *; simpl in *; u64).
    replace (id + 1 + n) with (e + 1) by lia. rewrite sub64_small, add64_small by u64.
    replace (e + 1 - 1) with e by lia. rewrite bt_insert_over.
    2: { eapply Forall_impl; [exact H1 |]. intros g. cbv beta. lia. }
    destruct (join_gaps m1 ((e, n) :: m2') m1 m2' e (n + 1) id) as [G F]; [done | lia | | | done].
    + left. split_and!; [done | done | lia].
    + right. by exists n.
  - rewrite bt_insert_at by done.
    destruct (join_gaps m1 m2 m1 m2 id 1 id) as [G F]; [done | lia | | by left | done].
    left. split_and!; [done | done | lia].
Qed.

(** [Take] of a free identifier. *)
Lemma Take_free id :
  free m id -> exists m', Take m id = Ret m' /\ gaps lo m' hi /\
    forall x, free m' x <-> free m x /\ x <> id.
Proof.
  intros Hf. destruct (gaps_split _ _ _ id HI) as (m1 & m2 & E & H1 & H2).
  assert (exists e n m2', m2 = (e, n) :: m2' /\ e - n < id <= e) as (e & n & m2' & -> & Hid).
  { rewrite E in Hf. apply free_app in Hf as [(g & Hg & Hx) | (g & Hg & Hx)].
    - pose proof (proj1 (Forall_forall _ _) H1 g Hg). unfold within in Hx. simpl in *. lia.
    - destruct m2 as [| [e n] m2]; [by apply elem_of_nil in Hg |]. exists e, n, m2. split; [done |].
      apply Forall_cons in H2 as [He _]. simpl in He.
      apply elem_of_cons in Hg as [-> | Hg]; [done |].
      pose proof HI as HI'. rewrite E in HI'. destruct (gaps_keys_lt _ _ _ _ _ _ HI') as [_ Hr].
      pose proof (proj1 (Forall_forall _ _) Hr g Hg). unfold within in Hx. simpl in *. lia. }
  exists (cut m1 e n m2' id). pose proof HI as HI'. rewrite E in HI'. split_and!.
  - by apply Take_cut.
  - by apply cut_gaps.
  - intros x. rewrite E. by eapply cut_free.
Qed.
End Ops.

(** Maximal intervals: the map is determined by the free identifiers. *)
Lemma gaps_canonical lo m hi :
  forall lo' m' hi', gaps lo m hi -> gaps lo' m' hi' -> (forall x, free m x <-> free m' x) -> m = m'.
Proof.
  revert lo. induction m as [| [e n] m IH]; intros lo lo' [| [e' n'] m'] hi' H H' F.
  - done.
  - destruct H' as (_ & ? & _). destruct (free_nil e'). apply F, free_cons. left. unfold within. simpl. lia.
  - destruct H as (_ & ? & _). destruct (free_nil e). apply F, free_cons. left. unfold within. simpl. lia.
  - destruct H as (H1 & H2 & H3 & H4), H' as (H1' & H2' & H3' & H4').
    assert (forall x, free m x -> e + 2 <= x) as B.
    { intros x (g & Hg & Hx). pose proof (gaps_elem _ _ _ _ H4 Hg). unfold within in Hx. lia. }
    assert (forall x, free m' x -> e' + 2 <= x) as B'.
    { intros x (g & Hg & Hx). pose proof (gaps_elem _ _ _ _ H4' Hg). unfold within in Hx. lia. }
    assert (forall x, (e - n < x <= e \/ free m x) <-> (e' - n' < x <= e' \/ free m' x)) as F'.
    { intros x. specialize (F x). rewrite !free_cons in F. exact F. }
    assert (e - n = e' - n') as Es.
    { destruct (proj1 (F' (e - n + 1)) ltac:(left; lia)) as [? | ?%B'],
        (proj2 (F' (e' - n' + 1)) ltac:(left; lia)) as [? | ?%B]; lia. }
    assert (e = e') as <-.
    { destruct (Z.lt_trichotomy e e') as [Hlt | [| Hlt]]; [| done |].
      - destruct (proj2 (F' (e + 1)) ltac:(left; lia)) as [? | ?%B]; lia.
      - destruct (proj1 (F' (e' + 1)) ltac:(left; lia)) as [? | ?%B']; lia. }
    assert (n = n') as <- by lia. f_equal. apply (IH _ _ _ _ H4 H4').
    intros x. split; intros Hx.
    + destruct (proj1 (F' x) (or_intror Hx)); [| done]. apply B in Hx. lia.
    + destruct (proj2 (F' x) (or_intror Hx)); [| done]. apply B' in Hx. lia.
Qed.

End Gaps.
