(* ===== verification/IdAlloc.v ===== *)
(** qlib/idallocator.rs: [IdAllocator], which hands out port numbers and other
    identifiers from a range, continuing after the last one handed out. *)
From S2P Require Import Prelude BTree Range Gaps.
#[local] Open Scope Z_scope.
#[local] Open Scope u64_scope.

Record IdAllocator : Type := mkIds {
  ia_range : Range;
  ia_map : list (Z * Z);
  ia_prevAllocatedId : Z;
}.

Module IdAllocator.
Implicit Types (a : IdAllocator) (id : Z).

Definition with_map a m : IdAllocator := mkIds (ia_range a) m (ia_prevAllocatedId a).
Definition with_prev a p : IdAllocator := mkIds (ia_range a) (ia_map a) p.

Definition New (start len : Z) : IdAllocator :=
  let range := mkRange start len in
  mkIds range (Gaps.New range len) (start -w 1).

Definition LastGap a : option Range := Gaps.LastGap (ia_map a).

Definition Fork a : IdAllocator :=
  mkIds (mkRange (r_start (ia_range a)) (r_len (ia_range a)))
    (Gaps.Fork (ia_map a)) (r_start (ia_range a) -w 1).

Definition Take a id : outcome IdAllocator :=
  m ← Gaps.Take (ia_map a) id; Ret (with_map a m).

Definition AllocAfterInternal a id : outcome (IdAllocator * option Z) :=
  '(m, i) ← Gaps.AllocAfter (ia_map a) id; Ret (with_map a m, i).

Definition AllocFromStart a : outcome (IdAllocator * option Z) :=
  AllocAfterInternal a (r_start (ia_range a)).

Definition AllocFromCurrent a : outcome (IdAllocator * option Z) :=
  '(a, id) ← AllocAfterInternal a (ia_prevAllocatedId a +w 1);
  '(a, id) ←
    (match id with
     | None =>
         if negb (ia_prevAllocatedId a =? r_start (ia_range a) -w 1)
         then AllocFromStart a else Ret (a, None)
     | Some _ => Ret (a, id)
     end);
  match id with
  | Some i => Ret (with_prev a i, id)
  | None => Ret (a, id)
  end.

Definition Free a id : IdAllocator :=
  if negb (Contains (ia_range a) id) then a
  else with_map a (Gaps.Free (ia_map a) id).

(** * Well-formed allocators *)

Abbreviation free := Gaps.free.
Abbreviation gaps := Gaps.gaps.

Record Inv a : Prop := {
  inv_range : proper (ia_range a) /\ 0 < r_len (ia_range a);
  inv_gaps : gaps (r_start (ia_range a)) (ia_map a) (r_start (ia_range a) + r_len (ia_range a));
  inv_prev : ia_prevAllocatedId a = r_start (ia_range a) -w 1 \/
             covers (ia_range a) (ia_prevAllocatedId a);
}.

Lemma range_bounds a : Inv a ->
  0 <= r_start (ia_range a) /\ r_start (ia_range a) + r_len (ia_range a) <= U64_MAX.
Proof. intros [[(H1 & H2 & H3) H4] _ _]. unfold in64 in *. lia. Qed.

Lemma range_start a : Inv a -> 0 <= r_start (ia_range a) < U64_MAX.
Proof. intros [[(H1 & H2 & H3) H4] _ _]. unfold in64 in *. lia. Qed.

(** Allocation returns the least free identifier at or above [id]. *)
Lemma alloc_least a id : Inv a ->
  exists a' o, AllocAfterInternal a id = Ret (a', o) /\
    match o with
    | None => a' = a /\ forall j, id <= j -> ~ free (ia_map a) j
    | Some i =>
        id <= i /\ free (ia_map a) i /\ (forall j, id <= j < i -> ~ free (ia_map a) j) /\
        gaps (r_start (ia_range a)) (ia_map a') (r_start (ia_range a) + r_len (ia_range a)) /\
        a' = with_map a (ia_map a') /\
        forall x, free (ia_map a') x <-> free (ia_map a) x /\ x <> i
    end.
Proof.
  intros HI. unfold AllocAfterInternal.
  destruct (Gaps.AllocAfter_least _ _ _ (range_bounds a HI) (inv_gaps _ HI) id) as (m' & o & -> & H).
  rewrite bind_ret. eexists _, o. split; [done |]. destruct o as [i |].
  - destruct H as (H1 & H2 & H3 & H4 & H5). by split_and!.
  - destruct H as [-> H]. split; [by destruct a | done].
Qed.

Lemma free_joins a id : Inv a -> covers (ia_range a) id -> ~ free (ia_map a) id ->
  gaps (r_start (ia_range a)) (ia_map (Free a id)) (r_start (ia_range a) + r_len (ia_range a)) /\
  Free a id = with_map a (ia_map (Free a id)) /\
  forall x, free (ia_map (Free a id)) x <-> free (ia_map a) x \/ x = id.
Proof.
  intros HI Hc Hn. pose proof (inv_range _ HI) as [Hp _]. unfold Free.
  rewrite (proj2 (Contains_proper _ _ Hp) Hc). cbn [negb ia_map with_map].
  destruct (Gaps.Free_map _ _ _ (range_bounds a HI) (inv_gaps _ HI) id Hc Hn) as [H1 H2]. by split_and!.
Qed.

Lemma free_covers a x : Inv a -> free (ia_map a) x -> covers (ia_range a) x.
Proof.
  intros HI (g & Hg & Hx). pose proof (Gaps.gaps_elem _ _ _ _ (inv_gaps _ HI) Hg).
  unfold Gaps.within, covers in *. lia.
Qed.

(** The identifier the next search starts from. *)
Lemma next_start a : Inv a ->
  ia_prevAllocatedId a +w 1 = r_start (ia_range a) /\ ia_prevAllocatedId a = r_start (ia_range a) -w 1 \/
  ia_prevAllocatedId a +w 1 = ia_prevAllocatedId a + 1.
Proof.
  intros HI. pose proof (range_bounds a HI). pose proof (range_start a HI). destruct (inv_prev _ HI) as [E | Hc].
  - left. split; [| done]. rewrite E. destruct (Z.eq_dec (r_start (ia_range a)) 0) as [-> |]; [done |].
    rewrite sub64_small, add64_small by u64. lia.
  - right. unfold covers in Hc. apply add64_small. u64.
Qed.

Lemma Inv_with a m : Inv a -> gaps (r_start (ia_range a)) m (r_start (ia_range a) + r_len (ia_range a)) ->
  Inv (with_map a m).
Proof. intros [H1 H2 H3] Hg. by split. Qed.

(** [AllocFromCurrent] on a well-formed allocator returns, and keeps it well formed.
    It returns [None] exactly when no identifier is free.  Otherwise it returns a
    free identifier of the range, which is then the only one that is no longer free:
    the least one after the previous allocation, or the least of all when there is
    none after it. *)
Theorem AllocFromCurrent_spec a :
  Inv a ->
  exists a' o, AllocFromCurrent a = Ret (a', o) /\ Inv a' /\
    (o = None <-> forall x, ~ free (ia_map a) x) /\
    (forall i, o = Some i ->
       covers (ia_range a) i /\ free (ia_map a) i /\ ia_prevAllocatedId a' = i /\
       (forall x, free (ia_map a') x <-> free (ia_map a) x /\ x <> i) /\
       let from := ia_prevAllocatedId a +w 1 in
       (from <= i /\ (forall j, from <= j < i -> ~ free (ia_map a) j) \/
        (forall j, from <= j -> ~ free (ia_map a) j) /\ (forall j, j < i -> ~ free (ia_map a) j))).
Proof.
  intros HI. unfold AllocFromCurrent.
  destruct (alloc_least a (ia_prevAllocatedId a +w 1) HI) as (a1 & o1 & -> & H1). rewrite bind_ret.
  destruct o1 as [i |].
  - destruct H1 as (Hi & Hf & Hmin & Hg & E & Hfr). rewrite bind_ret. eexists _, _. split; [done |].
    pose proof (free_covers _ _ HI Hf) as Hc. rewrite E. split_and!.
    + destruct (Inv_with _ _ HI Hg) as [I1 I2 _]. split; [done | done | by right].
    + split; [done |]. intros H. by destruct (H i).
    + intros i' [= <-]. split_and!; auto.
  - destruct H1 as [-> Hno]. destruct (Z.eqb_spec (ia_prevAllocatedId a) (r_start (ia_range a) -w 1)) as [Ep | Ep]; cbn [negb].
    { rewrite bind_ret. exists a, None. split_and!; [done | done | | done]. split; [intros _ x Hx | done].
      pose proof (free_covers _ _ HI Hx) as Hc. unfold covers in Hc. destruct (next_start a HI) as [[E _] | E].
      - apply (Hno x); [lia | done].
      - pose proof (range_start a HI). rewrite Ep in E.
        destruct (Z.eq_dec (r_start (ia_range a)) 0) as [E0 |]; [rewrite E0 in E; by vm_compute in E |].
        rewrite Ep in Hno. rewrite sub64_small, add64_small in Hno by u64. apply (Hno x); [lia | done]. }
    unfold AllocFromStart. destruct (alloc_least a (r_start (ia_range a)) HI) as (a2 & o2 & -> & H2).
    rewrite bind_ret. destruct o2 as [i |].
    + destruct H2 as (Hi & Hf & Hmin & Hg & E & Hfr). eexists _, _. split; [done |].
      pose proof (free_covers _ _ HI Hf) as Hc. rewrite E. split_and!.
      * destruct (Inv_with _ _ HI Hg) as [I1 I2 _]. split; [done | done | by right].
      * split; [done |]. intros H. by destruct (H i).
      * intros i' [= <-]. split_and!; auto. right. split; [done |]. intros j Hj Hfj.
        pose proof (free_covers _ _ HI Hfj) as Hcj. unfold covers in Hcj. apply (Hmin j); [lia | done].
    + destruct H2 as [-> Hno2]. exists a, None. split_and!; [done | done | | done].
      split; [intros _ x Hx | done]. pose proof (free_covers _ _ HI Hx) as Hc. unfold covers in Hc.
      apply (Hno2 x); [lia | done].
Qed.

(** [Free] of an allocated identifier of the range keeps the allocator well formed
    (it joins the neighbouring intervals) and makes exactly this identifier free; an
    identifier outside the range is ignored. *)
Theorem Free_spec a id :
  Inv a -> ~ free (ia_map a) id ->
  Inv (Free a id) /\
  forall x, free (ia_map (Free a id)) x <->
    free (ia_map a) x \/ (x = id /\ Contains (ia_range a) id = true).
Proof.
  intros HI Hn. pose proof (inv_range _ HI) as [Hp _].
  destruct (Contains (ia_range a) id) eqn:Hc.
  - apply Contains_proper in Hc; [| done]. destruct (free_joins a id HI Hc Hn) as (Hg & E & Hf).
    split; [rewrite E; by apply Inv_with |]. intros x. rewrite Hf. intuition.
  - unfold Free. rewrite Hc. cbn [negb]. split; [done |]. intros x. intuition congruence.
Qed.

(** allocating an identifier and freeing it gives back the same map of free
    intervals. *)
Theorem alloc_free_roundtrip a a' i :
  Inv a -> AllocAfterInternal a (r_start (ia_range a)) = Ret (a', Some i) ->
  ia_map (Free a' i) = ia_map a.
Proof.
  intros HI Ha. destruct (alloc_least a (r_start (ia_range a)) HI) as (a1 & o1 & E1 & H1).
  rewrite E1 in Ha. injection Ha as -> ->. destruct H1 as (_ & Hf & _ & Hg & E & Hfr).
  assert (Inv a') as HI' by (rewrite E; by apply Inv_with).
  assert (ia_range a' = ia_range a) as Er by (by rewrite E).
  destruct (free_joins a' i HI') as (Hg' & _ & Hf').
  - rewrite Er. by apply free_covers.
  - rewrite Hfr. tauto.
  - eapply Gaps.gaps_canonical; [exact Hg' | exact (inv_gaps _ HI) |].
    intros x. rewrite Hf', Hfr. destruct (Z.eq_dec x i) as [-> |]; intuition.
Qed.

(** A new allocator over a range that fits in 64 bits is well formed, and exactly
    the identifiers of the range are free. *)
Theorem New_spec start len :
  0 <= start -> 0 < len -> start + len <= U64_MAX ->
  Inv (New start len) /\ forall x, free (ia_map (New start len)) x <-> start <= x < start + len.
Proof.
  intros H1 H2 H3. assert (proper (mkRange start len)) as Hp by (unfold proper; simpl; split_and!; u64).
  assert (End_ (mkRange start len) -w 1 = start + len - 1) as E
    by (rewrite End_proper by done; simpl; rewrite sub64_small by u64; done).
  split.
  - split; unfold New; cbn [ia_range ia_map ia_prevAllocatedId r_start r_len Gaps.New bt_insert Gaps.gaps]; rewrite ?E;
      [done | lia | by left].
  - intros x. unfold New, Gaps.New. cbn [ia_map bt_insert]. rewrite E, Gaps.free_cons. pose proof (Gaps.free_nil x).
    unfold Gaps.within. simpl. intuition lia.
Qed.

(** ** Examples *)

Lemma New_witness : Inv (New 1 100) /\ free (ia_map (New 1 100)) 100.
Proof.
  destruct (New_spec 1 100 ltac:(lia) ltac:(lia) ltac:(by vm_compute)) as [HI Hf].
  split; [exact HI | apply Hf; lia].
Defined.

Definition three : IdAllocator := mkIds (mkRange 1 100) [(4, 1); (100, 90)] 4.

Lemma three_inv : Inv three.
Proof. split; vm_compute; intuition congruence. Qed.

Lemma AllocFromCurrent_witness :
  exists a' o, AllocFromCurrent three = Ret (a', o) /\ Inv a' /\ o <> None.
Proof.
  destruct (AllocFromCurrent_spec three three_inv) as (a' & o & E & HI & Hn & _).
  exists a', o. split_and!; [exact E | exact HI |]. intros H. apply (proj1 Hn H 50).
  exists (100, 90). split; [right; left | unfold Gaps.within; simpl; lia].
Defined.

Lemma Free_witness : Inv (Free three 5) /\ free (ia_map (Free three 5)) 5.
Proof.
  destruct (Free_spec three 5 three_inv) as [HI Hf].
  - intros (g & Hg & Hx). repeat apply elem_of_cons in Hg as [-> | Hg]; unfold Gaps.within in Hx; simpl in Hx;
      [lia | lia | by apply elem_of_nil in Hg].
  - split; [exact HI | apply Hf]. right. by split.
Defined.

Lemma alloc_free_witness :
  exists a' i, AllocFromStart three = Ret (a', Some i) /\ ia_map (Free a' i) = [(4, 1); (100, 90)].
Proof.
  eexists _, _. split; [vm_compute; reflexivity |].
  apply (alloc_free_roundtrip three _ _ three_inv). vm_compute. reflexivity.
Defined.
End IdAllocator.
