(* ===== verification/FdTable.v ===== *)
(** qlib/kernel/kernel/fd_table.rs: the file descriptor table of a process.

    Descriptors live in a hash map from [i32]; the numbers that are not in use are
    kept as free intervals ([GapMgr]).  A [File] is a reference to an open file.  Its
    release ([Drop], which unlocks record locks and sends an inotify event when the
    last reference goes away) acts on the file and not on the table: the model
    records the calls in [t_drops].  The order in which a hash map is iterated is not
    specified; operations that iterate take it as an argument. *)
From S2P Require Import Prelude BTree Range Gaps.
#[local] Open Scope Z_scope.
#[local] Open Scope u64_scope.

Definition I32_MAX : Z := 2 ^ 31 - 1.

(** [z as i32] *)
Definition to_i32 (z : Z) : Z :=
  let w := z mod 2 ^ 32 in if w <? 2 ^ 31 then w else w - 2 ^ 32.

(** ** [GapMgr] *)

Record GapMgr : Type := mkGapMgr { gm_range : Range; gm_map : list (Z * Z) }.

Module GapMgr.
Implicit Types (g : GapMgr) (id : Z).

Definition with_map g m : GapMgr := mkGapMgr (gm_range g) m.

Definition New (start len : Z) : GapMgr :=
  let range := mkRange start len in mkGapMgr range (Gaps.New range len).
Definition LastGap g : option Range := Gaps.LastGap (gm_map g).
Definition Fork g : GapMgr :=
  mkGapMgr (mkRange (r_start (gm_range g)) (r_len (gm_range g))) (Gaps.Fork (gm_map g)).
Definition Take g id : outcome GapMgr := m ← Gaps.Take (gm_map g) id; Ret (with_map g m).
Definition AllocAfter g id : outcome (GapMgr * option Z) :=
  '(m, i) ← Gaps.AllocAfter (gm_map g) id; Ret (with_map g m, i).
Definition Alloc g : outcome (GapMgr * option Z) := AllocAfter g (r_start (gm_range g)).
Definition Free g id : GapMgr := with_map g (Gaps.Free (gm_map g) id).
End GapMgr.

Record FDFlags : Type := mkFDFlags { CloseOnExec : bool }.

Definition O_CLOEXEC : Z := 524288.
Definition FD_CLOEXEC : Z := 1.
Definition ToLinuxFileFlags (f : FDFlags) : Z := if CloseOnExec f then O_CLOEXEC else 0.
Definition ToLinuxFDFlags (f : FDFlags) : Z := if CloseOnExec f then FD_CLOEXEC else 0.
Definition Flags_CloseOnExec (flags : Z) : bool := negb (Z.land flags O_CLOEXEC =? 0).

Section FdTable.
Context {File : Type}.

Record Descriptor : Type := mkDesc { d_file : File; d_flags : FDFlags }.

Record FDTableInternal : Type := mkTable {
  t_gaps : GapMgr;
  t_desc : gmap Z Descriptor;
  (* the calls of [Drop], with the lock identifier and the file, latest first *)
  t_drops : list (Z * File);
}.
Implicit Types (t : FDTableInternal) (uid fd : Z) (file : File) (flags : FDFlags).

Definition with_gaps t g : FDTableInternal := mkTable g (t_desc t) (t_drops t).
Definition with_desc t d : FDTableInternal := mkTable (t_gaps t) d (t_drops t).

Definition FDTableInternal_New : FDTableInternal := mkTable (GapMgr.New 0 I32_MAX) ∅ [].

Definition Drop t uid file : FDTableInternal :=
  mkTable (t_gaps t) (t_desc t) ((uid, file) :: t_drops t).

(** [descTbl.insert], dropping the descriptor it replaces. *)
Definition set t uid fd file flags : FDTableInternal :=
  let t' := with_desc t (<[fd := mkDesc file flags]> (t_desc t)) in
  match t_desc t !! fd with
  | None => t'
  | Some f => Drop t' uid (d_file f)
  end.

Definition Internal_NewFDAt t uid fd file flags : outcome FDTableInternal :=
  t ←
    (match t_desc t !! fd with
     | None =>
         g ← GapMgr.Take (t_gaps t) (wrap64 fd);
         Ret (with_gaps t g)
     | Some desc => Ret (Drop (with_desc t (delete fd (t_desc t))) uid (d_file desc))
     end);
  Ret (set t uid fd file flags).

Definition Internal_SetFlags t fd flags : FDTableInternal * Result unit :=
  if fd <? 0 then (t, Err (SysError EBADF))
  else
    match t_desc t !! fd with
    | None => (t, Err (SysError EBADF))
    | Some d => (with_desc t (<[fd := mkDesc (d_file d) flags]> (t_desc t)), Ok tt)
    end.

Definition Internal_Remove t uid fd : FDTableInternal * option File :=
  if fd <? 0 then (t, None)
  else
    match t_desc t !! fd with
    | None => (t, None)
    | Some f =>
        let t := with_desc t (delete fd (t_desc t)) in
        let t := with_gaps t (GapMgr.Free (t_gaps t) (wrap64 fd)) in
        (Drop t uid (d_file f), Some (d_file f))
    end.

Definition RemoveAll t uid (order : list Z) : FDTableInternal :=
  foldl (fun t fd =>
    match t_desc t !! fd with
    | Some desc => Drop (with_desc t (delete fd (t_desc t))) uid (d_file desc)
    | None => t
    end) t order.

(** ** [FDTable]; [uid] is the identifier of the table *)

Definition GetFDs t : list Z := merge_sort Z.le (elements (dom (t_desc t))).

Definition Remove t uid fd : FDTableInternal * option File := Internal_Remove t uid fd.

(** [for fd in startfd..endfd] *)
Definition fd_range (startfd endfd : Z) : list Z := seqZ startfd (endfd - startfd).

Definition RemoveRange t uid (startfd endfd : Z) : FDTableInternal * list File :=
  foldl (fun acc fd =>
    match Internal_Remove acc.1 uid fd with
    | (t, None) => (t, acc.2)
    | (t, Some f) => (t, acc.2 ++ [f])
    end) (t, []) (fd_range startfd endfd).

Definition SetFlags t fd flags : FDTableInternal * Result unit := Internal_SetFlags t fd flags.

Definition SetFlagsForRange t (startfd endfd : Z) flags : FDTableInternal * Result unit :=
  if (startfd <? 0) || (endfd <=? startfd) then (t, Err (SysError EINVAL))
  else
    (foldl (fun t fd => (Internal_SetFlags t fd flags).1) t (fd_range startfd endfd), Ok tt).

(** [order]: the descriptors in the order of the iteration. *)
Definition RemoveCloseOnExec t uid (order : list (Z * Descriptor)) : outcome FDTableInternal :=
  foldl (fun acc fd =>
    t ← acc;
    let t := with_gaps t (GapMgr.Free (t_gaps t) (wrap64 fd)) in
    match t_desc t !! fd with
    | None => Panic
    | Some desc => Ret (Drop (with_desc t (delete fd (t_desc t))) uid (d_file desc))
    end) (Ret t) (fst <$> filter (fun e => CloseOnExec (d_flags e.2) = true) order).

Definition GetLastFd t : Z :=
  match GapMgr.LastGap (t_gaps t) with
  | None => 0
  | Some r => if 0 <? r_start r then to_i32 (r_start r -w 1) else 0
  end.

Definition Get t fd : Result (File * FDFlags) :=
  match t_desc t !! fd with
  | None => Err (SysError EBADF)
  | Some f => Ok (d_file f, d_flags f)
  end.

(** [lim] is the [NumberOfFiles] limit of the thread group. *)
Definition NewFDFrom t uid (lim : Z) fd file flags : outcome (FDTableInternal * Result Z) :=
  if fd <? 0 then Ret (t, Err (SysError EINVAL))
  else
    let end_ := if negb (lim =? U64_MAX) then to_i32 lim else I32_MAX in
    if end_ <? to_i32 (fd + 1) then Ret (t, Err (SysError EMFILE))
    else
      '(g, o) ← GapMgr.AllocAfter (t_gaps t) (wrap64 fd);
      let t := with_gaps t g in
      match o with
      | None => Ret (t, Err (SysError EMFILE))
      | Some newfd =>
          let newfd := to_i32 newfd in
          if end_ <=? newfd then
            Ret (with_gaps t (GapMgr.Free (t_gaps t) (wrap64 newfd)), Err (SysError EMFILE))
          else Ret (set t uid newfd file flags, Ok newfd)
      end.

Definition NewFDAt t uid (lim : Z) fd file flags : outcome (FDTableInternal * Result unit) :=
  if fd <? 0 then Ret (t, Err (SysError EBADF))
  else if lim <=? wrap64 fd then Ret (t, Err (SysError EMFILE))
  else t ← Internal_NewFDAt t uid fd file flags; Ret (t, Ok tt).

Definition Dup t uid (lim : Z) fd : outcome (FDTableInternal * Result Z) :=
  if fd <? 0 then Ret (t, Err (SysError EBADF))
  else
    match Get t fd with
    | Err e => Ret (t, Err e)
    | Ok (f, flags) => NewFDFrom t uid lim 0 f flags
    end.

Definition Dup2 t uid (lim : Z) (oldfd newfd : Z) : outcome (FDTableInternal * Result Z) :=
  if oldfd <? 0 then Ret (t, Err (SysError EBADF))
  else if newfd <? 0 then Ret (t, Err (SysError EBADF))
  else
    match Get t oldfd with
    | Err e => Ret (t, Err e)
    | Ok (f, flags) =>
        '(t, r) ← NewFDAt t uid lim newfd f flags;
        match r with Err e => Ret (t, Err e) | Ok _ => Ret (t, Ok newfd) end
    end.

Definition Dup3 t uid (lim : Z) (oldfd newfd flags : Z) : outcome (FDTableInternal * Result Z) :=
  if oldfd <? 0 then Ret (t, Err (SysError EBADF))
  else if newfd <? 0 then Ret (t, Err (SysError EBADF))
  else
    let closeOnExec := Flags_CloseOnExec flags in
    match Get t oldfd with
    | Err e => Ret (t, Err e)
    | Ok (f, _) =>
        '(t, r) ← NewFDAt t uid lim newfd f (mkFDFlags closeOnExec);
        match r with Err e => Ret (t, Err e) | Ok _ => Ret (t, Ok newfd) end
    end.

(** [FDTable::Fork]: the loop breaks at the first descriptor of the iteration that is at or
    above [maxFds]. *)
Fixpoint Fork_loop tbl uid (maxFds : Z) (order : list (Z * Descriptor)) : FDTableInternal :=
  match order with
  | [] => tbl
  | (fd, file) :: order =>
      if maxFds <=? fd then tbl
      else Fork_loop (set tbl uid fd (d_file file) (d_flags file)) uid maxFds order
  end.
Definition FDTable_Fork t uid (maxFds : Z) (order : list (Z * Descriptor)) : FDTableInternal :=
  Fork_loop (mkTable (t_gaps t) ∅ []) uid maxFds order.

Definition Clear t uid (order : list Z) : FDTableInternal := RemoveAll t uid order.

Definition Count t : nat := size (t_desc t).
End FdTable.
Arguments Descriptor File : clear implicits.
Arguments FDTableInternal File : clear implicits.
