(* ===== verification/FdProps.v ===== *)
(** The descriptor table: a number is either in use or free, descriptors get the lowest
    free number, and every operation keeps the two structures in step. *)
From S2P Require Import Prelude BTree Range Gaps FdTable.
#[local] Open Scope Z_scope.
#[local] Open Scope u64_scope.

Section Props.
Context {File : Type}.
Implicit Types (t : FDTableInternal File) (uid fd : Z) (file : File) (flags : FDFlags).

Abbreviation tmap t := (gm_map (t_gaps t)).

Definition valid_fd fd : Prop := 0 <= fd < I32_MAX.

(** The free intervals are exactly the valid numbers that have no descriptor. *)
Record FdInv t : Prop := {
  fi_range : gm_range (t_gaps t) = mkRange 0 I32_MAX;
  fi_gaps : Gaps.gaps 0 (tmap t) I32_MAX;
  fi_valid fd : is_Some (t_desc t !! fd) -> valid_fd fd;
  fi_free fd : valid_fd fd -> Gaps.free (tmap t) fd <-> t_desc t !! fd = None;
}.

Lemma i32_bounds : 0 <= 0 /\ I32_MAX <= U64_MAX.
Proof. by vm_compute. Qed.

Lemma free_valid m fd : Gaps.gaps 0 m I32_MAX -> Gaps.free m fd -> valid_fd fd.
Proof.
  intros Hg (g & Hin & Hx). pose proof (Gaps.gaps_elem _ _ _ _ Hg Hin).
  unfold Gaps.within, valid_fd in *. lia.
Qed.

Lemma to_i32_small z : 0 <= z <= I32_MAX -> to_i32 z = z.
Proof.
  intros Hz. unfold to_i32, I32_MAX in *. cbv zeta. rewrite Z.mod_small by lia.
  by rewrite (proj2 (Z.ltb_lt z (2 ^ 31))) by lia.
Qed.

Lemma wrap64_fd fd : valid_fd fd -> wrap64 fd = fd.
Proof. unfold valid_fd, I32_MAX. intros H. apply wrap64_small. u64. Qed.

Lemma FdInv_New : FdInv (FDTableInternal_New (File := File)).
Proof.
  assert (forall fd, Gaps.free (Gaps.New (mkRange 0 I32_MAX) I32_MAX) fd <-> valid_fd fd) as Hf.
  { intros fd. change (Gaps.New (mkRange 0 I32_MAX) I32_MAX) with [(I32_MAX - 1, I32_MAX)].
    rewrite Gaps.free_cons. pose proof (Gaps.free_nil fd). unfold Gaps.within, valid_fd. simpl. intuition lia. }
  split; [done | by vm_compute | |].
  - intros fd. simpl. rewrite lookup_empty. by intros [? ?].
  - intros fd Hv. simpl. rewrite lookup_empty. split; [done |]. intros _. by apply Hf.
Qed.

(** Taking a free number out of the intervals and giving it a descriptor. *)
Lemma FdInv_add t m fd d drops :
  FdInv t -> t_desc t !! fd = None -> valid_fd fd -> Gaps.gaps 0 m I32_MAX ->
  (forall x, Gaps.free m x <-> Gaps.free (tmap t) x /\ x <> fd) ->
  FdInv (mkTable (GapMgr.with_map (t_gaps t) m) (<[fd := d]> (t_desc t)) drops).
Proof.
  intros [H1 H2 H3 H4] Hn Hv Hg Hf. split; [done | done | |]; cbn [t_desc t_gaps gm_map GapMgr.with_map].
  - intros fd'. destruct (decide (fd' = fd)) as [-> |]; [done |]. rewrite lookup_insert_ne by done. apply H3.
  - intros fd' Hv'. rewrite Hf, (H4 fd' Hv'). destruct (decide (fd' = fd)) as [-> |].
    + rewrite lookup_insert_eq. intuition done.
    + rewrite lookup_insert_ne by done. intuition.
Qed.

(** Replacing the descriptor of a number in use. *)
Lemma FdInv_replace t fd d drops :
  FdInv t -> is_Some (t_desc t !! fd) ->
  FdInv (mkTable (t_gaps t) (<[fd := d]> (t_desc t)) drops).
Proof.
  intros [H1 H2 H3 H4] Hs. split; [done | done | |]; cbn [t_desc t_gaps].
  - intros fd'. destruct (decide (fd' = fd)) as [-> |]; [auto |]. rewrite lookup_insert_ne by done. apply H3.
  - intros fd' Hv. rewrite (H4 fd' Hv). destruct (decide (fd' = fd)) as [-> |].
    + rewrite lookup_insert_eq. destruct Hs as [? ->]. done.
    + by rewrite lookup_insert_ne.
Qed.

(** Removing a descriptor and freeing its number. *)
Lemma FdInv_remove t fd drops :
  FdInv t -> is_Some (t_desc t !! fd) ->
  FdInv (mkTable (GapMgr.Free (t_gaps t) (wrap64 fd)) (delete fd (t_desc t)) drops).
Proof.
  intros [H1 H2 H3 H4] Hs. pose proof (H3 fd Hs) as Hv. rewrite (wrap64_fd fd Hv).
  destruct (Gaps.Free_map (tmap t) 0 I32_MAX i32_bounds H2 fd Hv) as [Hg Hf].
  { rewrite (H4 fd Hv). destruct Hs as [? ->]. done. }
  split; [done | done | |]; cbn [t_desc t_gaps gm_map GapMgr.Free GapMgr.with_map].
  - intros fd' [? [_ Hl]%lookup_delete_Some]. apply H3. by eexists.
  - intros fd' Hv'. rewrite Hf, (H4 fd' Hv'). destruct (decide (fd' = fd)) as [-> |].
    + rewrite lookup_delete_eq. intuition.
    + rewrite lookup_delete_ne by done. intuition.
Qed.

(** ** NewFDFrom *)

(** The first number that may not be used, from the [NumberOfFiles] limit. *)
Definition fd_limit (lim : Z) : Z := if lim =? U64_MAX then I32_MAX else to_i32 lim.

Lemma free_iff t n : FdInv t -> Gaps.free (tmap t) n <-> valid_fd n /\ t_desc t !! n = None.
Proof.
  intros HI. split.
  - intros Hf. pose proof (free_valid _ _ (fi_gaps _ HI) Hf) as Hv. split; [done |].
    by apply (fi_free _ HI n Hv).
  - intros [Hv Hn]. by apply (fi_free _ HI n Hv).
Qed.

Lemma free_alloc_back m m' i :
  Gaps.gaps 0 m I32_MAX -> Gaps.gaps 0 m' I32_MAX -> Gaps.free m i ->
  (forall x, Gaps.free m' x <-> Gaps.free m x /\ x <> i) -> Gaps.Free m' i = m.
Proof.
  intros Hg Hg' Hi Hf.
  destruct (Gaps.Free_map m' 0 I32_MAX i32_bounds Hg' i) as [Hg2 Hf2].
  - exact (free_valid _ _ Hg Hi).
  - rewrite Hf. tauto.
  - eapply Gaps.gaps_canonical; [exact Hg2 | exact Hg |]. intros x. rewrite Hf2, Hf.
    destruct (Z.eq_dec x i) as [-> |]; intuition.
Qed.

(** C16: [NewFDFrom] with a number that is not negative installs the file under the
    lowest number at or above [fd] that is not in use, provided it is below the
    limit, and returns it; the table stays consistent and nothing else changes.
    Otherwise it fails with EMFILE and the table is unchanged. *)
Theorem NewFDFrom_spec t uid lim fd file flags :
  FdInv t -> 0 <= fd <= I32_MAX -> 0 <= lim <= U64_MAX ->
  exists t' res, NewFDFrom t uid lim fd file flags = Ret (t', res) /\ FdInv t' /\
    match res with
    | Ok n =>
        fd <= n /\ n < fd_limit lim /\ valid_fd n /\ t_desc t !! n = None /\
        (forall k, fd <= k < n -> is_Some (t_desc t !! k)) /\
        t_desc t' = <[n := mkDesc file flags]> (t_desc t) /\ t_drops t' = t_drops t
    | Err e =>
        e = SysError EMFILE /\ t' = t /\
        forall k, fd <= k < fd_limit lim -> valid_fd k -> is_Some (t_desc t !! k)
    end.
Proof.
  intros HI Hfd Hlim. unfold NewFDFrom. rewrite (proj2 (Z.ltb_ge fd 0)) by lia.
  assert ((if negb (lim =? U64_MAX) then to_i32 lim else I32_MAX) = fd_limit lim) as ->
    by (unfold fd_limit; by destruct (lim =? U64_MAX)).
  assert (wrap64 fd = fd) as -> by (apply wrap64_small; unfold I32_MAX in *; u64).
  destruct (Z.ltb_spec (fd_limit lim) (to_i32 (fd + 1))) as [Hl | Hl].
  { exists t, (Err (SysError EMFILE)). split_and!; [done | done | done | done |].
    intros k Hk Hv. unfold valid_fd in Hv. rewrite to_i32_small in Hl by (unfold I32_MAX in *; lia). lia. }
  unfold GapMgr.AllocAfter.
  destruct (Gaps.AllocAfter_least _ _ _ i32_bounds (fi_gaps _ HI) fd) as (m' & o & -> & H).
  rewrite !bind_ret. destruct o as [n |].
  - destruct H as (Hn & Hf & Hmin & Hg & Hfr). pose proof (proj1 (free_iff t n HI) Hf) as [Hv Hnone].
    rewrite (to_i32_small n) by (unfold valid_fd in Hv; lia).
    assert (forall k, fd <= k < n -> is_Some (t_desc t !! k)) as Hused.
    { intros k Hk. destruct (t_desc t !! k) eqn:E; [done |]. destruct (Hmin k Hk).
      apply (free_iff t k HI). split; [unfold valid_fd in *; lia | done]. }
    destruct (Z.leb_spec (fd_limit lim) n) as [He | He].
    + exists t, (Err (SysError EMFILE)). split.
      * rewrite (wrap64_fd n Hv). unfold GapMgr.Free. cbn [gm_map GapMgr.with_map t_gaps with_gaps].
        rewrite (free_alloc_back _ _ _ (fi_gaps _ HI) Hg Hf Hfr). by destruct t as [[] ? ?].
      * split_and!; [done | done | done |]. intros k Hk _. apply Hused. lia.
    + eexists _, (Ok n). split; [done |]. unfold set. cbn [t_desc with_gaps]. rewrite Hnone.
      split; [by apply FdInv_add |]. split_and!; auto.
  - destruct H as [-> Hno]. exists t, (Err (SysError EMFILE)). split; [by destruct t as [[] ? ?] |].
    split_and!; [done | done | done |]. intros k Hk Hv. destruct (t_desc t !! k) eqn:E; [done |].
    destruct (Hno k); [lia |]. by apply (free_iff t k HI).
Qed.

(** ** NewFDAt and Remove *)

(** [NewFDAt] (dup2) installs the file under exactly the requested number: a
    descriptor that was there is dropped once, all others stay, and the table stays
    consistent; EBADF for a negative number and EMFILE at or above the limit leave the
    table as it is. *)
Theorem NewFDAt_spec t uid lim fd file flags :
  FdInv t -> fd < I32_MAX -> 0 <= lim <= U64_MAX ->
  exists t' res, NewFDAt t uid lim fd file flags = Ret (t', res) /\ FdInv t' /\
    match res with
    | Ok _ =>
        0 <= fd < lim /\ t_desc t' = <[fd := mkDesc file flags]> (t_desc t) /\
        t_drops t' =
          match t_desc t !! fd with
          | Some d => (uid, d_file d) :: t_drops t
          | None => t_drops t
          end
    | Err e => t' = t /\ e = SysError (if fd <? 0 then EBADF else EMFILE) /\ (fd < 0 \/ lim <= fd)
    end.
Proof.
  intros HI Hfd Hlim. unfold NewFDAt. destruct (Z.ltb_spec fd 0) as [Hneg | Hpos].
  { exists t, (Err (SysError EBADF)). split_and!; auto. }
  assert (valid_fd fd) as Hv by (split; [lia | done]). rewrite (wrap64_fd fd Hv).
  destruct (Z.leb_spec lim fd) as [Hl | Hl].
  { exists t, (Err (SysError EMFILE)). split_and!; auto. }
  unfold Internal_NewFDAt. destruct (t_desc t !! fd) as [d |] eqn:Hd.
  - rewrite !bind_ret. eexists _, (Ok tt). split; [done |].
    unfold set, Drop, with_desc. cbn [t_desc t_gaps t_drops]. rewrite lookup_delete_eq. cbn [t_desc t_drops t_gaps].
    rewrite insert_delete_eq. split; [apply FdInv_replace; [done | by eexists] |]. split_and!; auto.
  - rewrite (wrap64_fd fd Hv). unfold GapMgr.Take.
    pose proof (proj2 (free_iff t fd HI) (conj Hv Hd)) as Hf.
    destruct (Gaps.Take_free _ _ _ i32_bounds (fi_gaps _ HI) fd Hf) as (m' & -> & Hg & Hfr).
    rewrite !bind_ret. eexists _, (Ok tt). split; [done |].
    unfold set, with_gaps. cbn [t_desc t_gaps t_drops]. rewrite Hd.
    split; [by apply FdInv_add |]. split_and!; auto.
Qed.

(** [Remove] (close) returns the file of the number, if any, frees the number,
    drops the file once and keeps the table consistent; otherwise nothing changes. *)
Theorem Remove_spec t uid fd :
  FdInv t ->
  let '(t', o) := Remove t uid fd in
  FdInv t' /\ o = d_file <$> t_desc t !! fd /\ t_desc t' = delete fd (t_desc t) /\
  t_drops t' = match o with Some f => (uid, f) :: t_drops t | None => t_drops t end.
Proof.
  intros HI. unfold Remove, Internal_Remove. destruct (Z.ltb_spec fd 0) as [Hneg | Hpos].
  - destruct (t_desc t !! fd) eqn:E.
    + destruct (fi_valid _ HI fd) as [? _]; [by eexists | lia].
    + split_and!; [done | done | by rewrite delete_id | done].
  - destruct (t_desc t !! fd) as [d |] eqn:E.
    + split_and!; [| done | done | done]. apply (FdInv_remove t); [done | by eexists].
    + split_and!; [done | done | by rewrite delete_id | done].
Qed.

(** ** RemoveCloseOnExec *)

Definition close_step uid (acc : outcome (FDTableInternal File)) fd : outcome (FDTableInternal File) :=
  t ← acc;
  let t := with_gaps t (GapMgr.Free (t_gaps t) (wrap64 fd)) in
  match t_desc t !! fd with
  | None => Panic
  | Some desc => Ret (Drop (with_desc t (delete fd (t_desc t))) uid (d_file desc))
  end.

Lemma close_all uid l : forall t,
  FdInv t -> NoDup l -> (forall fd, fd ∈ l -> is_Some (t_desc t !! fd)) ->
  exists t', foldl (close_step uid) (Ret t) l = Ret t' /\ FdInv t' /\
    (forall fd, t_desc t' !! fd = if decide (fd ∈ l) then None else t_desc t !! fd) /\
    length (t_drops t') = (length l + length (t_drops t))%nat.
Proof.
  induction l as [| fd l IH]; intros t HI Hnd Hin; cbn [foldl].
  - exists t. split_and!; auto.
  - apply NoDup_cons in Hnd as [Hni Hnd]. destruct (Hin fd) as [d Hd]; [left |].
    set (t1 := mkTable (GapMgr.Free (t_gaps t) (wrap64 fd)) (delete fd (t_desc t)) ((uid, d_file d) :: t_drops t)).
    assert (close_step uid (Ret t) fd = Ret t1) as ->
      by (unfold close_step; rewrite bind_ret; cbn [t_desc with_gaps]; by rewrite Hd).
    assert (FdInv t1) as HI1 by (apply (FdInv_remove t); [done | by eexists]).
    destruct (IH t1 HI1 Hnd) as (t' & E & HI' & Hl & Hlen).
    { intros fd' Hfd'. simpl. rewrite lookup_delete_ne; [apply Hin; by right |]. by intros ->. }
    exists t'. split_and!; [done | done | | rewrite Hlen; simpl; lia].
    intros fd'. rewrite Hl. simpl. destruct (decide (fd' = fd)) as [-> | Hne].
    + rewrite lookup_delete_eq, (decide_True (P := fd ∈ fd :: l)) by left. by destruct (decide _).
    + rewrite lookup_delete_ne by done. destruct (decide (fd' ∈ l)), (decide (fd' ∈ fd :: l)); set_solver.
Qed.

(** [RemoveCloseOnExec], whatever the order of the iteration, removes exactly the
    descriptors marked close-on-exec and keeps the table consistent; the [unwrap] in
    its loop never fails. *)
Theorem RemoveCloseOnExec_spec t uid order :
  FdInv t -> order ≡ₚ map_to_list (t_desc t) ->
  exists t', RemoveCloseOnExec t uid order = Ret t' /\ FdInv t' /\
    forall fd, t_desc t' !! fd =
      match t_desc t !! fd with
      | Some d => if CloseOnExec (d_flags d) then None else Some d
      | None => None
      end.
Proof.
  intros HI Hp. unfold RemoveCloseOnExec. set (l := fst <$> _).
  assert (forall fd, fd ∈ l <-> exists d, t_desc t !! fd = Some d /\ CloseOnExec (d_flags d) = true) as Hl.
  { intros fd. unfold l. rewrite list_elem_of_fmap. split.
    - intros ([fd' d] & -> & [Hc Hin]%list_elem_of_filter). exists d.
      rewrite Hp in Hin. by apply elem_of_map_to_list in Hin.
    - intros (d & Hd & Hc). exists (fd, d). split; [done |]. apply list_elem_of_filter. split; [done |].
      rewrite Hp. by apply elem_of_map_to_list. }
  assert (NoDup l) as Hnd.
  { unfold l. apply NoDup_fmap_filter. rewrite Hp. apply NoDup_fst_map_to_list. }
  destruct (close_all uid l t HI Hnd) as (t' & E & HI' & Hd & _).
  { intros fd (d & -> & _)%Hl. done. }
  exists t'. split_and!; [exact E | done |]. intros fd. rewrite Hd. destruct (decide (fd ∈ l)) as [Hin | Hni].
  - apply Hl in Hin as (d & -> & ->). done.
  - destruct (t_desc t !! fd) as [d |] eqn:Ed; [| done].
    destruct (CloseOnExec (d_flags d)) eqn:Ec; [| done]. destruct Hni. apply Hl. by exists d.
Qed.

(** ** Fork *)

Lemma Fork_loop_all uid maxFds (order : list (Z * Descriptor File)) :
  forall tbl : FDTableInternal File, (forall e, e ∈ order -> e.1 < maxFds) -> NoDup order.*1 -> (forall e, e ∈ order -> t_desc tbl !! e.1 = None) ->
  t_gaps (Fork_loop tbl uid maxFds order) = t_gaps tbl /\
  t_desc (Fork_loop tbl uid maxFds order) = list_to_map order ∪ t_desc tbl.
Proof.
  induction order as [| [fd d] order IH]; intros tbl Hlt Hnd Hfr; simpl.
  - split; [done |]. by rewrite (left_id_L ∅ (∪)).
  - rewrite (proj2 (Z.leb_gt maxFds fd)) by (apply (Hlt (fd, d)); left).
    apply NoDup_cons in Hnd as [Hni Hnd].
    pose proof (Hfr (fd, d) ltac:(left)) as Hn. simpl in Hn.
    unfold set. rewrite Hn. cbn [t_desc with_desc].
    destruct (IH (with_desc tbl (<[fd := mkDesc (d_file d) (d_flags d)]> (t_desc tbl)))) as [-> ->].
    + intros e He. apply Hlt. by right.
    + done.
    + intros e He. cbn [t_desc with_desc]. rewrite lookup_insert_ne.
      * apply Hfr. by right.
      * intros ->. destruct Hni. exact (list_elem_of_fmap_2 fst order e He).
    + split; [done |]. cbn [t_desc with_desc]. destruct d as [f fl]. simpl.
      rewrite <- insert_union_l. rewrite insert_union_r; [done |]. apply not_elem_of_list_to_map. done.
Qed.

(** [Fork] with a limit above every descriptor copies the whole table: the copy has
    the same descriptors and is consistent. *)
Theorem Fork_spec t uid maxFds order :
  FdInv t -> order ≡ₚ map_to_list (t_desc t) ->
  (forall fd, is_Some (t_desc t !! fd) -> fd < maxFds) ->
  FdInv (FDTable_Fork t uid maxFds order) /\ t_desc (FDTable_Fork t uid maxFds order) = t_desc t.
Proof.
  intros HI Hp Hlt. unfold FDTable_Fork.
  destruct (Fork_loop_all uid maxFds order (mkTable (t_gaps t) ∅ [])) as [Hg Hd].
  - intros [fd d] Hin. rewrite Hp in Hin. apply elem_of_map_to_list in Hin. apply Hlt. by eexists.
  - rewrite Hp. apply NoDup_fst_map_to_list.
  - done.
  - cbn [t_desc t_gaps] in Hd, Hg. rewrite (right_id_L ∅ (∪)) in Hd.
    assert (list_to_map order = t_desc t) as E.
    { rewrite (list_to_map_proper order (map_to_list (t_desc t))); [apply list_to_map_to_list | | done].
      rewrite Hp. apply NoDup_fst_map_to_list. }
    rewrite E in Hd. split; [| done]. destruct HI as [H1 H2 H3 H4].
    split; rewrite ?Hg, ?Hd; done.
Qed.
End Props.

(** ** Examples: files are numbers *)

Definition fl : FDFlags := mkFDFlags false.
Definition cloexec : FDFlags := mkFDFlags true.

(** Descriptors 0 and 1, and 5 marked close-on-exec. *)
Definition demo_table : FDTableInternal Z :=
  mkTable (mkGapMgr (mkRange 0 I32_MAX) [(4, 3); (I32_MAX - 1, I32_MAX - 6)])
    {[0 := mkDesc 100 fl; 1 := mkDesc 101 fl; 5 := mkDesc 105 cloexec]} [].

Lemma demo_used fd :
  is_Some (t_desc demo_table !! fd) <-> fd = 0 \/ fd = 1 \/ fd = 5.
Proof.
  simpl. destruct (decide (fd = 0)) as [-> |]; [rewrite lookup_insert_eq; split; auto |].
  rewrite lookup_insert_ne by done. destruct (decide (fd = 1)) as [-> |]; [rewrite lookup_insert_eq; split; auto |].
  rewrite lookup_insert_ne by done. destruct (decide (fd = 5)) as [-> |]; [rewrite lookup_singleton_eq; split; auto |].
  rewrite lookup_singleton_ne by done. split; [by intros [? ?] | lia].
Qed.

Lemma demo_inv : FdInv demo_table.
Proof.
  split; [done | vm_compute; intuition congruence | |].
  - intros fd Hs. apply demo_used in Hs. unfold valid_fd, I32_MAX. lia.
  - intros fd Hv. rewrite eq_None_not_Some, demo_used. cbn [demo_table t_gaps gm_map].
    rewrite !Gaps.free_cons. pose proof (Gaps.free_nil fd). unfold Gaps.within, valid_fd in *. simpl.
    intuition lia.
Qed.

Ltac bounds := vm_compute; intuition congruence.

Lemma NewFDFrom_witness :
  exists t' res, NewFDFrom demo_table 9 1024 0 200 fl = Ret (t', res) /\ FdInv t'.
Proof.
  destruct (NewFDFrom_spec demo_table 9 1024 0 200 fl demo_inv ltac:(bounds) ltac:(bounds))
    as (t' & res & E & HI & _).
  exists t', res. split; [exact E | exact HI].
Defined.

Lemma NewFDAt_witness :
  exists t' res, NewFDAt demo_table 9 1024 1 200 fl = Ret (t', res) /\ FdInv t'.
Proof.
  destruct (NewFDAt_spec demo_table 9 1024 1 200 fl demo_inv ltac:(bounds) ltac:(bounds))
    as (t' & res & E & HI & _).
  exists t', res. split; [exact E | exact HI].
Defined.

Lemma Remove_witness : FdInv (Remove demo_table 9 1).1.
Proof.
  pose proof (Remove_spec demo_table 9 1 demo_inv) as H.
  destruct (Remove demo_table 9 1) as [t' o]. exact (proj1 H).
Defined.

Lemma RemoveCloseOnExec_witness :
  exists t', RemoveCloseOnExec demo_table 9 (map_to_list (t_desc demo_table)) = Ret t' /\ FdInv t'.
Proof.
  destruct (RemoveCloseOnExec_spec demo_table 9 _ demo_inv (reflexivity _)) as (t' & E & HI & _).
  exists t'. split; [exact E | exact HI].
Defined.

Lemma Fork_witness :
  t_desc (FDTable_Fork demo_table 9 I32_MAX (map_to_list (t_desc demo_table))) = t_desc demo_table.
Proof.
  refine (proj2 (Fork_spec demo_table 9 I32_MAX _ demo_inv (reflexivity _) _)).
  intros fd Hs. apply demo_used in Hs. unfold I32_MAX. lia.
Defined.

(** [Fork] below a descriptor number ([close_range] with [CLOSE_RANGE_UNSHARE]) loses
    descriptors below the limit when the iteration meets a higher one first, and
    what it does not copy stays marked as in use. *)
Theorem Fork_loses_fds :
  exists order, order ≡ₚ map_to_list (t_desc demo_table) /\
    t_desc (FDTable_Fork demo_table 9 3 order) = ∅ /\
    t_gaps (FDTable_Fork demo_table 9 3 order) = t_gaps demo_table.
Proof.
  exists [(5, mkDesc 105 cloexec); (0, mkDesc 100 fl); (1, mkDesc 101 fl)].
  split; [| by split]. symmetry. unfold demo_table. cbn [t_desc].
  rewrite map_to_list_insert by done. rewrite map_to_list_insert by done. rewrite map_to_list_singleton.
  solve_Permutation.
Qed.

(** A [NumberOfFiles] limit of 2^31 is read as a negative number, so that no
    descriptor can be opened at all. *)
Theorem NewFDFrom_large_limit :
  NewFDFrom demo_table 9 (2 ^ 31) 0 200 fl = Ret (demo_table, Err (SysError EMFILE)).
Proof. vm_compute. reflexivity. Qed.
