(* ===== verification/Path.v ===== *)
(** Lexical path functions: qlib/path.rs.

    A [&str] is its list of bytes.  What the code uses of [str] is modelled with it:
    UTF-8 validity ([String::from_utf8(..).unwrap()] panics without it) and slicing
    (panics out of range and inside a character).  Positions in a string are [nat]:
    every one the code computes is at most the length, so nothing wraps; [isize]
    positions are [Z].  Loops carry fuel; [Clean] and [Rel] are proved to return in
    [PathProps]. *)
From Stdlib Require Import Ascii String.
From S2P Require Import Prelude.
#[local] Open Scope Z_scope.

Abbreviation str := (list Z) (only parsing).

(** The bytes of a literal. *)
Definition lit (s : string) : str :=
  (fun c => Z.of_N (N_of_ascii c)) <$> list_ascii_of_string s.
Arguments lit s%_string.

Definition SLASH : Z := 47.
Definition DOT : Z := 46.

(** * What the code uses of [str] *)

Definition cont (b : Z) : bool := (128 <=? b) && (b <? 192).

(** The lead byte and second byte of a sequence of two, three and four bytes. *)
Definition lead2 (a : Z) : bool := (194 <=? a) && (a <? 224).
Definition lead3 (a b : Z) : bool :=
  (a =? 224) && ((160 <=? b) && (b <? 192))
  || (225 <=? a) && (a <? 237) && cont b
  || (a =? 237) && ((128 <=? b) && (b <? 160))
  || (238 <=? a) && (a <? 240) && cont b.
Definition lead4 (a b : Z) : bool :=
  (a =? 240) && ((144 <=? b) && (b <? 192))
  || (241 <=? a) && (a <? 244) && cont b
  || (a =? 244) && ((128 <=? b) && (b <? 144)).

Fixpoint utf8 (s : str) : bool :=
  match s with
  | [] => true
  | a :: s1 =>
      if a <? 128 then utf8 s1
      else match s1 with
      | [] => false
      | b :: s2 =>
          if lead2 a && cont b then utf8 s2
          else match s2 with
          | [] => false
          | c :: s3 =>
              if lead3 a b && cont c then utf8 s3
              else match s3 with
              | [] => false
              | d :: s4 => if lead4 a b && cont c && cont d then utf8 s4 else false
              end
          end
      end
  end.

(** [String::from_utf8(v).unwrap()]. *)
Definition from_utf8 (v : str) : outcome str := if utf8 v then Ret v else Panic.

(** [s[i]] of a byte slice. *)
Definition at_ (s : str) (i : nat) : outcome Z :=
  match s !! i with Some c => Ret c | None => Panic end.

(** [s[a..b]] of a byte slice. *)
Definition bslice (s : str) (a b : nat) : outcome str :=
  if ((a <=? b) && (b <=? length s))%nat then Ret (take (b - a) (drop a s)) else Panic.

(** [str::is_char_boundary]. *)
Definition is_char_boundary (s : str) (i : nat) : bool :=
  (i =? 0)%nat || match s !! i with Some b => negb (cont b) | None => (i =? length s)%nat end.

(** [s[a..b]] of a [str]. *)
Definition slice (s : str) (a b : nat) : outcome str :=
  if is_char_boundary s a && is_char_boundary s b then bslice s a b else Panic.

(** [s.rfind(c)] for an ASCII [c]. *)
Fixpoint rfind (c : Z) (s : str) : option nat :=
  match s with
  | [] => None
  | x :: s' =>
      match rfind c s' with
      | Some i => Some (S i)
      | None => if x =? c then Some 0%nat else None
      end
  end.

(** [s.split("/")]. *)
Fixpoint split (s : str) : list str :=
  match s with
  | [] => [[]]
  | c :: s' =>
      if c =? SLASH then [] :: split s'
      else match split s' with [] => [[c]] | h :: t => (c :: h) :: t end
  end.

(** * Lazybuf *)

Record Lazybuf : Type := mkLazybuf { lb_s : str; lb_buf : option str; lb_w : nat }.

Definition set_w (lb : Lazybuf) (w : nat) : Lazybuf := mkLazybuf (lb_s lb) (lb_buf lb) w.

Definition Lazybuf_New (s : str) : Lazybuf := mkLazybuf s None 0.

Definition Lazybuf_index (lb : Lazybuf) (i : nat) : outcome Z :=
  match lb_buf lb with
  | Some b => at_ b i
  | None => at_ (lb_s lb) i
  end.

(** Writing to the buffer, a copy of [s] made at the first byte that differs. *)
Definition Lazybuf_write (lb : Lazybuf) (buf : str) (c : Z) : outcome Lazybuf :=
  if (lb_w lb <? length buf)%nat
  then Ret (mkLazybuf (lb_s lb) (Some (<[lb_w lb := c]> buf)) (lb_w lb + 1))
  else Panic.

Definition Lazybuf_append (lb : Lazybuf) (c : Z) : outcome Lazybuf :=
  match lb_buf lb with
  | Some buf => Lazybuf_write lb buf c
  | None =>
      match lb_s lb !! lb_w lb with
      | Some x => if x =? c then Ret (set_w lb (lb_w lb + 1)) else Lazybuf_write lb (lb_s lb) c
      | None => Lazybuf_write lb (lb_s lb) c
      end
  end.

Definition Lazybuf_String (lb : Lazybuf) : outcome str :=
  match lb_buf lb with
  | None => v ← bslice (lb_s lb) 0 (lb_w lb); from_utf8 v
  | Some b => v ← bslice b 0 (lb_w lb); from_utf8 v
  end.

(** * Clean *)

(** [while out.w > dotdot && out.index(out.w) != '/' { out.w -= 1 }] *)
Fixpoint Clean_backup (fuel : nat) (out : Lazybuf) (dotdot : nat) : outcome Lazybuf :=
  match fuel with
  | O => OutOfFuel
  | S fuel' =>
      if (dotdot <? lb_w out)%nat then
        c ← Lazybuf_index out (lb_w out);
        if c =? SLASH then Ret out else Clean_backup fuel' (set_w out (lb_w out - 1)) dotdot
      else Ret out
  end.

(** [while r < n && path[r] != '/' { out.append(path[r]); r += 1 }] *)
Fixpoint Clean_copy (fuel : nat) (path : str) (r : nat) (out : Lazybuf) : outcome (nat * Lazybuf) :=
  match fuel with
  | O => OutOfFuel
  | S fuel' =>
      if (r <? length path)%nat then
        c ← at_ path r;
        if c =? SLASH then Ret (r, out)
        else out ← Lazybuf_append out c; Clean_copy fuel' path (r + 1) out
      else Ret (r, out)
  end.

(** [i == n || path[i] == '/'] *)
Definition ends_at (path : str) (i : nat) : outcome bool :=
  if (i =? length path)%nat then Ret true else c ← at_ path i; Ret (c =? SLASH).

Definition is_dot (path : str) (r : nat) (c : Z) : outcome bool :=
  if c =? DOT then ends_at path (r + 1) else Ret false.

Definition is_dotdot (path : str) (r : nat) (c : Z) : outcome bool :=
  if c =? DOT then
    c1 ← at_ path (r + 1);
    if c1 =? DOT then ends_at path (r + 2) else Ret false
  else Ret false.

(** The branch for [..]. *)
Definition Clean_dotdot (rooted : bool) (out : Lazybuf) (dotdot : nat) : outcome (Lazybuf * nat) :=
  if (dotdot <? lb_w out)%nat then
    out ← Clean_backup (lb_w out) (set_w out (lb_w out - 1)) dotdot;
    Ret (out, dotdot)
  else if negb rooted then
    out ← (if (0 <? lb_w out)%nat then Lazybuf_append out SLASH else Ret out);
    out ← Lazybuf_append out DOT;
    out ← Lazybuf_append out DOT;
    Ret (out, lb_w out)
  else Ret (out, dotdot).

(** One iteration of the main loop. *)
Definition Clean_step (path : str) (rooted : bool) (r : nat) (out : Lazybuf) (dotdot : nat)
  : outcome (nat * Lazybuf * nat) :=
  c ← at_ path r;
  if c =? SLASH then Ret ((r + 1)%nat, out, dotdot)
  else
    dot ← is_dot path r c;
    if dot : bool then Ret ((r + 1)%nat, out, dotdot)
    else
      dd ← is_dotdot path r c;
      if dd : bool then
        '(out, dotdot) ← Clean_dotdot rooted out dotdot;
        Ret ((r + 2)%nat, out, dotdot)
      else
        out ← (if rooted && negb (lb_w out =? 1)%nat || negb rooted && negb (lb_w out =? 0)%nat
               then Lazybuf_append out SLASH else Ret out);
        '(r, out) ← Clean_copy (S (length path - r)) path r out;
        Ret (r, out, dotdot).

Fixpoint Clean_loop (fuel : nat) (path : str) (rooted : bool) (r : nat) (out : Lazybuf)
    (dotdot : nat) : outcome Lazybuf :=
  match fuel with
  | O => OutOfFuel
  | S fuel' =>
      if (r <? length path)%nat then
        '(r, out, dotdot) ← Clean_step path rooted r out dotdot;
        Clean_loop fuel' path rooted r out dotdot
      else Ret out
  end.

Definition Clean (path : str) : outcome str :=
  if bool_decide (path = []) then Ret (lit ".")
  else
    c ← at_ path 0;
    let rooted := c =? SLASH in
    out ← (if rooted then Lazybuf_append (Lazybuf_New path) SLASH else Ret (Lazybuf_New path));
    let r := if rooted then 1%nat else 0%nat in
    out ← Clean_loop (S (length path)) path rooted r out r;
    if (lb_w out =? 0)%nat then Ret (lit ".") else Lazybuf_String out.

(** * Splitting and joining *)

Definition Split (path : str) : outcome (str * str) :=
  match rfind SLASH path with
  | None => Ret ([], path)
  | Some i =>
      d ← slice path 0 (i + 1);
      f ← slice path (i + 1) (length path);
      Ret (d, f)
  end.

Definition Join (path elem : str) : outcome str := Clean (path ++ lit "/" ++ elem).

(** The loop of [Ext] for [i] below the fuel, downwards. *)
Fixpoint Ext_loop (i : nat) (path : str) : outcome str :=
  match i with
  | O => Ret []
  | S i' =>
      c ← at_ path i';
      if c =? SLASH then Ret []
      else if c =? DOT then slice path i' (length path)
      else Ext_loop i' path
  end.

Definition Ext (path : str) : outcome str := Ext_loop (length path) path.

(** [while s[r] == '/' { if r > 0 { r -= 1 } else { return "/" } }]; [None] is the
    early return. *)
Fixpoint Base_end (r : nat) (s : str) : outcome (option nat) :=
  c ← at_ s r;
  if c =? SLASH then
    match r with O => Ret None | S r' => Base_end r' s end
  else Ret (Some r).

(** [for i in (0..r).rev() { if s[i] == '/' { l = i + 1; break } }] *)
Fixpoint Base_start (r : nat) (s : str) : outcome nat :=
  match r with
  | O => Ret 0%nat
  | S i => c ← at_ s i; if c =? SLASH then Ret (i + 1)%nat else Base_start i s
  end.

Definition Base (path : str) : outcome str :=
  if bool_decide (path = []) then Ret (lit ".")
  else
    o ← Base_end (length path - 1) path;
    match o with
    | None => Ret (lit "/")
    | Some r =>
        l ← Base_start r path;
        if (l =? r)%nat then Ret (lit "/") else slice path l (r + 1)
    end.

Definition IsAbs (path : str) : bool :=
  match path with c :: _ => c =? SLASH | [] => false end.

Definition Dir (path : str) : outcome str := '(dir, _) ← Split path; Clean dir.

(** [last] counts down while it is at least 1 and at a slash. *)
Fixpoint Trim_last (last : nat) (s : str) (changed : bool) : outcome (nat * bool) :=
  match last with
  | O => Ret (0%nat, changed)
  | S last' =>
      c ← at_ s last;
      if c =? SLASH then Trim_last last' s true else Ret (last, changed)
  end.

Definition TrimTrailingSlashes (dir : str) : outcome (str * bool) :=
  if (length dir =? 0)%nat then Ret (dir, false)
  else
    '(last, changed) ← Trim_last (length dir - 1) dir false;
    d ← slice dir 0 (last + 1);
    Ret (d, changed).

(** [for i in 0..path.len() { let idx = path.len() - i - 1; .. }], [idx] below the
    fuel, downwards.  [idx as i32] is exact: a path is shorter than 2^31. *)
Fixpoint LastIndex_loop (n : nat) (path : str) (c : Z) : Z :=
  match n with
  | O => -1
  | S idx => if bool_decide (path !! idx = Some c) then Z.of_nat idx else LastIndex_loop idx path c
  end.

Definition LastIndex (path : str) (c : Z) : Z := LastIndex_loop (length path) path c.

(** [while slash >= 0 { if s[slash] == '/' { break } slash -= 1 }], from [slash] the
    predecessor of the fuel; [None] is [slash < 0]. *)
Fixpoint back_to_slash (n : nat) (s : str) : outcome (option nat) :=
  match n with
  | O => Ret None
  | S slash => c ← at_ s slash; if c =? SLASH then Ret (Some slash) else back_to_slash slash s
  end.

Definition SplitLast (path : str) : outcome (str * str) :=
  '(path, _) ← TrimTrailingSlashes path;
  if bool_decide (path = []) then Ret (lit ".", lit ".")
  else if bool_decide (path = lit "/") then Ret (lit "/", lit ".")
  else
    o ← back_to_slash (length path) path;
    match o with
    | None => Ret (lit ".", path)
    | Some O => f ← slice path 1 (length path); Ret (lit "/", f)
    | Some slash =>
        d ← slice path 0 slash;
        '(dir, _) ← TrimTrailingSlashes d;
        f ← slice path (slash + 1) (length path);
        Ret (dir, f)
    end.

(** [while i < n && s[i] != '/' { i += 1 }] *)
Fixpoint to_slash (fuel : nat) (s : str) (i : nat) : outcome nat :=
  match fuel with
  | O => OutOfFuel
  | S fuel' =>
      if (i <? length s)%nat then
        c ← at_ s i; if c =? SLASH then Ret i else to_slash fuel' s (i + 1)
      else Ret i
  end.

(** [while remain.len() > 0 && s[0] == '/' { remain = &remain[1..] }] *)
Fixpoint skip_slashes (fuel : nat) (remain : str) : outcome str :=
  match fuel with
  | O => OutOfFuel
  | S fuel' =>
      match remain with
      | [] => Ret remain
      | c :: _ =>
          if c =? SLASH then remain ← slice remain 1 (length remain); skip_slashes fuel' remain
          else Ret remain
      end
  end.

Definition SplitFirst (path : str) : outcome (str * str) :=
  '(path, _) ← TrimTrailingSlashes path;
  if bool_decide (path = []) then Ret (lit ".", [])
  else
    slash ← to_slash (S (length path)) path 0;
    if (length path <=? slash)%nat then Ret (path, [])
    else if (slash =? 0)%nat then r ← slice path 1 (length path); Ret (lit "/", r)
    else
      current ← slice path 0 slash;
      remain ← slice path (slash + 1) (length path);
      remain ← skip_slashes (S (length remain)) remain;
      Ret (current, remain).

Definition HasPrefix (s prefix : str) : outcome bool :=
  if (length prefix <=? length s)%nat
  then p ← slice s 0 (length prefix); Ret (bool_decide (p = prefix))
  else Ret false.

Definition TrimPrefix (s prefix : str) : outcome str :=
  h ← HasPrefix s prefix;
  if h : bool then slice s (length prefix) (length s) else Ret s.

Definition IsSubpath (subpath path : str) : outcome (str * bool) :=
  cleanPath ← Clean path;
  cleanSubpath ← Clean subpath;
  let cleanPath :=
    if (length cleanPath =? 0)%nat || bool_decide (last cleanPath = Some SLASH)
    then cleanPath ++ lit "/" else cleanPath in
  if bool_decide (cleanPath = cleanSubpath) then Ret ([], false)
  else
    h ← HasPrefix cleanSubpath cleanPath;
    if h : bool then t ← TrimPrefix cleanSubpath cleanPath; Ret (t, true)
    else Ret ([], false).

(** * Rel *)

Definition volumeNameLen (_path : str) : nat := 0.

Definition VolumeName (path : str) : outcome str := slice path 0 (volumeNameLen path).

Definition IsSlashed (s : str) : bool :=
  match s with c :: _ => c =? SLASH | [] => false end.

(** The loop over equal components: [(b0, bi, t0)] at the first difference.  An
    iteration on two exhausted strings repeats itself, which is a loop for ever. *)
Fixpoint Rel_loop (fuel : nat) (base targ : str) (b0 bi t0 ti : nat)
  : outcome (nat * nat * nat) :=
  match fuel with
  | O => OutOfFuel
  | S fuel' =>
      bi ← to_slash (S (length base)) base bi;
      ti ← to_slash (S (length targ)) targ ti;
      tseg ← bslice targ t0 ti;
      bseg ← bslice base b0 bi;
      if negb (bool_decide (tseg = bseg)) then Ret (b0, bi, t0)
      else
        let bi := if (bi <? length base)%nat then (bi + 1)%nat else bi in
        let ti := if (ti <? length targ)%nat then (ti + 1)%nat else ti in
        Rel_loop fuel' base targ bi bi ti ti
  end.

(** [for i in b0..bl + 1 { if base[i] == '/' { seps += 1 } }] with [k] iterations left. *)
Fixpoint count_seps (k : nat) (base : str) (i seps : nat) : outcome nat :=
  match k with
  | O => Ret seps
  | S k' =>
      c ← at_ base i;
      count_seps k' base (i + 1) (if c =? SLASH then (seps + 1)%nat else seps)
  end.

(** [buf[i] = c] *)
Definition store (buf : str) (i : nat) (c : Z) : outcome str :=
  if (i <? length buf)%nat then Ret (<[i := c]> buf) else Panic.

(** [for i in 0..seps { buf[i] = '/'; buf[n+1] = '.'; buf[n+2] = '.'; n += 3 }] *)
Fixpoint put_seps (k i n : nat) (buf : str) : outcome (str * nat) :=
  match k with
  | O => Ret (buf, n)
  | S k' =>
      buf ← store buf i SLASH;
      buf ← store buf (n + 1) DOT;
      buf ← store buf (n + 2) DOT;
      put_seps k' (i + 1) (n + 3) buf
  end.

(** The branch [b0 != bl], from the size of the buffer on.  The buffer has at least two
    bytes, so the loop [for i in 0..n] that writes the first [..] has [n = 2]. *)
Definition Rel_up (targ : str) (t0 seps : nat) : outcome str :=
  let tl := length targ in
  let size := (2 + seps * 3 + (if negb (tl =? t0) then 1 + tl - t0 else 0))%nat in
  buf ← store (replicate size 0) 0 DOT;
  buf ← store buf 1 DOT;
  '(buf, n) ← put_seps seps 0 2 buf;
  buf ← (if negb (t0 =? tl)%nat then
           buf ← store buf n SLASH;
           from ← bslice targ t0 tl;
           let min := Nat.min (length buf - (n + 1)) (length from) in
           Ret (take (n + 1) buf ++ take min from ++ drop (n + 1 + min) buf)
         else Ret buf);
  from_utf8 buf.

Definition Rel (basepath targpath : str) : outcome (Result str) :=
  baseVol ← VolumeName basepath;
  targVol ← VolumeName targpath;
  base ← Clean basepath;
  targ ← Clean targpath;
  if bool_decide (targ = base) then Ret (Ok (lit "."))
  else
    base ← bslice base (length baseVol) (length base);
    targ ← bslice targ (length baseVol) (length targ);
    let base := if bool_decide (base = lit ".") then [] else base in
    if negb (Bool.eqb (IsSlashed base) (IsSlashed targ)) || negb (bool_decide (baseVol = targVol))
    then Ret (Err Common)
    else
      '(b0, bi, t0) ← Rel_loop (S (length base + length targ)) base targ 0 0 0 0;
      bseg ← bslice base b0 bi;
      if bool_decide (bseg = lit "..") then Ret (Err Common)
      else if negb (b0 =? length base)%nat then
        seps ← count_seps (length base + 1 - b0) base b0 0;
        s ← Rel_up targ t0 seps; Ret (Ok s)
      else
        rest ← bslice targ t0 (length targ);
        s ← from_utf8 rest; Ret (Ok s).

(** * Path *)

Record Path : Type := mkPath { p_arr : list str; p_rawArr : list str }.

Definition Path_step (arr : list str) (name : str) : list str :=
  if bool_decide (name = lit ".") || bool_decide (name = []) then arr
  else
    let arr := if bool_decide (name = lit "..") then removelast arr else arr in
    arr ++ [name].

Definition Path_New (path : str) : Path :=
  let rawArr := split path in
  mkPath (foldl Path_step [] rawArr) rawArr.

Definition Path_IsPath (p : Path) : bool := bool_decide (last (p_rawArr p) = Some []).

Definition Path_IsAbs (p : Path) : bool := bool_decide (head (p_rawArr p) = Some []).

Definition ParseBool (s : str) : Result bool :=
  if bool_decide (s ∈ lit <$> ["1"; "t"; "T"; "true"; "TRUE"; "True"]%string) then Ok true
  else if bool_decide (s ∈ lit <$> ["0"; "f"; "F"; "false"; "FALSE"; "False"]%string) then Ok false
  else Err Common.
