(* ===== verification/PathThm.v ===== *)
(** Lemmas on [Path]: UTF-8 and slices at slashes, components, the lazy buffer, and the
    loop of [Clean] against the component-wise normal form. *)
From Stdlib Require Import Ascii String.
From S2P Require Import Prelude Path.
#[local] Open Scope Z_scope.

(** * UTF-8 *)

Definition ascii_head (s : str) : Prop := match s with [] => True | c :: _ => c < 128 end.

Lemma cont_ascii c : c < 128 -> cont c = false.
Proof. intros H. unfold cont. destruct (Z.leb_spec 128 c); [lia | done]. Qed.

Lemma lead3_ascii a b : b < 128 -> lead3 a b = false.
Proof.
  intros H. unfold lead3. rewrite (cont_ascii b H).
  destruct (Z.leb_spec 160 b), (Z.leb_spec 128 b); lia.
Qed.

Lemma lead4_ascii a b : b < 128 -> lead4 a b = false.
Proof.
  intros H. unfold lead4. rewrite (cont_ascii b H).
  destruct (Z.leb_spec 144 b), (Z.leb_spec 128 b); lia.
Qed.

(** A string splits before an ASCII byte. *)
Lemma utf8_app s t : ascii_head t -> utf8 (s ++ t) = utf8 s && utf8 t.
Proof.
  intros Ht. remember (length s) as n eqn:Hn. revert s Hn.
  induction (lt_wf n) as [n _ IH]. intros s ->.
  assert (Hk : forall s', (length s' < length s)%nat -> utf8 (s' ++ t) = utf8 s' && utf8 t)
    by (intros s' Hs; by apply (IH _ Hs)). clear IH.
  destruct s as [| a [| b [| c [| d s]]]]; simpl in *.
  - done.
  - zcase; [done |]. destruct t as [| b [| c [| d t]]]; simpl in Ht |- *; rewrite ?(cont_ascii b), ?(lead3_ascii a b), ?(lead4_ascii a b), ?andb_false_r by done; try done.
  - zcase; [apply (Hk [b]); simpl; lia |]. destruct (lead2 a && cont b); [done |].
    destruct t as [| c [| d t]]; simpl in Ht |- *; rewrite ?(cont_ascii c), ?andb_false_r by done; done.
  - zcase; [apply (Hk [b; c]); simpl; lia |]. destruct (lead2 a && cont b); [apply (Hk [c]); simpl; lia |].
    destruct (lead3 a b && cont c); [done |].
    destruct t as [| d t]; simpl in Ht |- *; rewrite ?(cont_ascii d), ?andb_false_r by done; done.
  - zcase; [apply (Hk (b :: c :: d :: s)); simpl; lia |].
    destruct (lead2 a && cont b); [apply (Hk (c :: d :: s)); simpl; lia |].
    destruct (lead3 a b && cont c); [apply (Hk (d :: s)); simpl; lia |].
    destruct (lead4 a b && cont c && cont d); [apply Hk; lia | done].
Qed.

Lemma utf8_slash s t : utf8 (s ++ SLASH :: t) = utf8 s && utf8 t.
Proof. by rewrite (utf8_app s (SLASH :: t)). Qed.

(** A valid string does not start with a continuation byte. *)
Lemma utf8_head c s : utf8 (c :: s) = true -> cont c = false.
Proof.
  intros Hu. destruct (cont c) eqn:Hc; [exfalso | done].
  assert (128 <= c < 192) as Hr by (unfold cont in Hc; repeat zcase; (lia || done)).
  assert (L2 : lead2 c = false) by (unfold lead2; destruct (Z.leb_spec 194 c); [lia | done]).
  assert (L3 : forall b, lead3 c b = false).
  { intros b. unfold lead3. destruct (Z.eqb_spec c 224), (Z.leb_spec 225 c), (Z.eqb_spec c 237), (Z.leb_spec 238 c); (lia || done). }
  assert (L4 : forall b, lead4 c b = false).
  { intros b. unfold lead4. destruct (Z.eqb_spec c 240), (Z.leb_spec 241 c), (Z.eqb_spec c 244); (lia || done). }
  simpl in Hu. destruct (Z.ltb_spec c 128); [lia |].
  destruct s as [| b [| d [| e s]]]; simpl in Hu; rewrite ?L2, ?L3, ?L4 in Hu; done.
Qed.

(** * Slices *)

Lemma bslice_app a s b : bslice (a ++ s ++ b) (length a) (length a + length s) = Ret s.
Proof.
  unfold bslice. rewrite !length_app. destruct (Nat.leb_spec (length a) (length a + length s)); [| lia].
  destruct (Nat.leb_spec (length a + length s) (length a + (length s + length b))); [| lia]. simpl.
  rewrite drop_app_length. by replace (length a + length s - length a)%nat with (length s) by lia; rewrite take_app_length.
Qed.

Lemma is_char_boundary_app a b : utf8 b = true -> is_char_boundary (a ++ b) (length a) = true.
Proof.
  intros Hb. unfold is_char_boundary. apply orb_true_intro. right.
  rewrite lookup_app_r, Nat.sub_diag, length_app by lia. destruct b as [| c b]; simpl.
  - apply Nat.eqb_eq. lia.
  - by rewrite (utf8_head c b).
Qed.

(** The slice between two places where a character starts. *)
Lemma slice_app a s b :
  utf8 (s ++ b) = true -> utf8 b = true -> slice (a ++ s ++ b) (length a) (length a + length s) = Ret s.
Proof.
  intros Hs Hb. unfold slice. rewrite is_char_boundary_app by done.
  rewrite (assoc_L (++)). rewrite <- length_app, is_char_boundary_app by done.
  rewrite <- (assoc_L (++)), length_app. apply bslice_app.
Qed.

Lemma slice_prefix s b : utf8 b = true -> slice (s ++ b) 0 (length s) = Ret s.
Proof.
  intros Hb. unfold slice. replace (is_char_boundary (s ++ b) 0) with true by done.
  rewrite is_char_boundary_app by done. apply (bslice_app []).
Qed.

Lemma slice_suffix a s : utf8 s = true -> slice (a ++ s) (length a) (length (a ++ s)) = Ret s.
Proof.
  intros Hs. pose proof (slice_app a s [] ) as H. rewrite (right_id_L [] (++)) in H.
  rewrite length_app. auto.
Qed.

Lemma at_app a c b : at_ (a ++ c :: b) (length a) = Ret c.
Proof. unfold at_. by rewrite list_lookup_middle. Qed.

(** * Components *)

Definition no_slash (s : str) : Prop := SLASH ∉ s.

#[global] Instance no_slash_dec s : Decision (no_slash s).
Proof. unfold no_slash. apply _. Defined.

(** At the end of a component. *)
Definition at_end (s : str) : Prop := match s with [] => True | c :: _ => c = SLASH end.

Fixpoint join (l : list str) : str :=
  match l with
  | [] => []
  | [x] => x
  | x :: l' => x ++ SLASH :: join l'
  end.

Lemma split_nonempty s : split s <> [].
Proof. destruct s as [| c s]; simpl; [done |]. case_match; [done |]. by case_match. Qed.

Lemma split_app_slash s t : split (s ++ SLASH :: t) = split s ++ split t.
Proof.
  induction s as [| c s IH]; [done |]. simpl. rewrite IH. case_match; [done |].
  pose proof (split_nonempty s). by destruct (split s).
Qed.

Lemma split_no_slash s : no_slash s -> split s = [s].
Proof.
  unfold no_slash. induction s as [| c s IH]; simpl; [done |].
  intros [Hc Hs]%not_elem_of_cons. rewrite IH by done. zcase; [by subst | done].
Qed.

Lemma split_join l : l <> [] -> Forall no_slash l -> split (join l) = l.
Proof.
  induction l as [| x l IH]; [done |]. intros _ [Hx Hl]%Forall_cons.
  destruct l as [| y l]; simpl; [by apply split_no_slash |].
  rewrite split_app_slash, split_no_slash by done. simpl. f_equal. by apply IH.
Qed.

Lemma split_comps s : Forall no_slash (split s).
Proof.
  induction s as [| c s IH]; simpl; [repeat constructor; apply not_elem_of_nil |].
  zcase; [constructor; [apply not_elem_of_nil | done] |].
  destruct (split s) as [| h t]; simpl.
  - repeat constructor. unfold no_slash. rewrite list_elem_of_singleton. congruence.
  - apply Forall_cons in IH as [Hh Ht]. constructor; [| done]. unfold no_slash.
    rewrite not_elem_of_cons. split; [congruence | done].
Qed.

Lemma split_utf8 s : utf8 s = true -> Forall (fun c => utf8 c = true) (split s).
Proof.
  remember (length s) as n eqn:Hn. revert s Hn. induction (lt_wf n) as [n _ IH]. intros s -> Hu.
  destruct (decide (SLASH ∈ s)) as [Hin | Hni].
  - apply list_elem_of_split in Hin as (a & b & ->). rewrite utf8_slash in Hu. apply andb_true_iff in Hu as [Ha Hb].
    rewrite split_app_slash. rewrite length_app in IH. simpl in IH.
    apply Forall_app. split; (eapply IH; [| reflexivity | done]; lia).
  - rewrite split_no_slash by done. by repeat constructor.
Qed.

(** * The lazy buffer *)

Definition data (lb : Lazybuf) : str := default (lb_s lb) (lb_buf lb).
Definition content (lb : Lazybuf) : str := take (lb_w lb) (data lb).

Record lb_ok (path : str) (lb : Lazybuf) : Prop := {
  lb_s_ok : lb_s lb = path;
  lb_data : length (data lb) = length path;
  lb_w_ok : (lb_w lb <= length path)%nat;
}.

Lemma content_length path lb : lb_ok path lb -> length (content lb) = lb_w lb.
Proof. intros [_ H1 H2]. unfold content. rewrite length_take. lia. Qed.

Lemma set_w_ok path lb w : lb_ok path lb -> (w <= lb_w lb)%nat ->
  lb_ok path (set_w lb w) /\ content (set_w lb w) = take w (content lb).
Proof.
  intros [H1 H2 H3] Hw. split; [constructor; [done | done | simpl; lia] |].
  unfold content. rewrite take_take. simpl. by rewrite Nat.min_l by done.
Qed.

Lemma Lazybuf_append_spec path lb c : lb_ok path lb -> (lb_w lb < length path)%nat ->
  returns (Lazybuf_append lb c) (fun lb' => lb_ok path lb' /\ content lb' = content lb ++ [c]).
Proof.
  intros [H1 H2 H3] Hw.
  assert (Hwr : forall buf, buf = data lb -> returns (Lazybuf_write lb buf c)
    (fun lb' => lb_ok path lb' /\ content lb' = content lb ++ [c])).
  { intros buf ->. unfold Lazybuf_write. destruct (Nat.ltb_spec (lb_w lb) (length (data lb))); [| lia].
    apply returns_ret. split.
    { constructor; [done | change (length (<[lb_w lb := c]> (data lb)) = length path); by rewrite length_insert | simpl; lia]. }
    unfold content. cbn [lb_w]. change (data (mkLazybuf (lb_s lb) (Some (<[lb_w lb := c]> (data lb))) (lb_w lb + 1)))
      with (<[lb_w lb := c]> (data lb)). rewrite Nat.add_1_r.
    rewrite (take_S_r _ _ c) by (apply list_lookup_insert_eq; lia). by rewrite take_insert_ge. }
  unfold Lazybuf_append. destruct (lb_buf lb) as [buf |] eqn:Eb.
  { apply Hwr. unfold data. by rewrite Eb. }
  assert (Ed : data lb = lb_s lb) by (unfold data; by rewrite Eb).
  destruct (lb_s lb !! lb_w lb) as [x |] eqn:Ex; [| by apply Hwr].
  destruct (Z.eqb_spec x c) as [-> |]; [| by apply Hwr].
  apply returns_ret. split; [constructor; simpl; [done | done | lia] |].
  unfold content. simpl. rewrite Nat.add_1_r. apply take_S_r. change (data lb !! lb_w lb = Some c). by rewrite Ed.
Qed.

Lemma Lazybuf_index_spec lb i c : data lb !! i = Some c -> Lazybuf_index lb i = Ret c.
Proof. unfold data, Lazybuf_index, at_. destruct (lb_buf lb); simpl; by intros ->. Qed.

Lemma Lazybuf_String_spec path lb : lb_ok path lb -> utf8 (content lb) = true ->
  Lazybuf_String lb = Ret (content lb).
Proof.
  intros [H1 H2 H3] Hu.
  assert (E : forall b, b = data lb -> (v ← bslice b 0 (lb_w lb); from_utf8 v) = Ret (content lb)).
  { intros b ->. unfold bslice. destruct (Nat.leb_spec (lb_w lb) (length (data lb))); [| lia]. simpl.
    rewrite Nat.sub_0_r, drop_0. unfold from_utf8. fold (content lb). by rewrite Hu. }
  unfold Lazybuf_String. destruct (lb_buf lb) as [b |] eqn:Eb; apply E; unfold data; by rewrite Eb.
Qed.

(** * Reading the path *)

Section Reading.
Context (path : str) (r : nat).

Lemma at_drop k s : drop r path = s -> at_ path (r + k) = match s !! k with Some c => Ret c | None => Panic end.
Proof. intros <-. unfold at_. by rewrite lookup_drop. Qed.

Lemma drop_add k a s : drop r path = a ++ s -> k = length a -> drop (r + k) path = s.
Proof. intros E ->. rewrite <- drop_drop, E. by rewrite drop_app_length. Qed.

Lemma length_drop_eq s : (r <= length path)%nat -> drop r path = s -> length path = (r + length s)%nat.
Proof. intros Hr <-. rewrite length_drop. lia. Qed.

Definition at_endb (s : str) : bool := match s with [] => true | c :: _ => c =? SLASH end.

Lemma ends_at_spec k a s : (r <= length path)%nat -> drop r path = a ++ s -> k = length a ->
  ends_at path (r + k) = Ret (at_endb s).
Proof.
  intros Hr E ->. unfold ends_at. pose proof (length_drop_eq _ Hr E) as Hn. rewrite length_app in Hn.
  destruct (Nat.eqb_spec (r + length a) (length path)) as [He | He].
  - by assert (s = []) as -> by (apply length_zero_iff_nil; lia).
  - rewrite (at_drop _ _ E), lookup_app_r, Nat.sub_diag by lia.
    destruct s as [| c s]; simpl in *; [lia | done].
Qed.

Lemma is_dot_spec c name rest : (r <= length path)%nat -> drop r path = (c :: name) ++ rest ->
  no_slash (c :: name) -> at_end rest -> is_dot path r c = Ret (bool_decide (c :: name = lit ".")).
Proof.
  intros Hr E Hns He. unfold is_dot. change (lit ".") with [DOT]. destruct (Z.eqb_spec c DOT) as [-> | Hc].
  - rewrite (ends_at_spec 1 [DOT] (name ++ rest)) by done. f_equal. destruct name as [| c1 name].
    + rewrite bool_decide_eq_true_2 by done. destruct rest; simpl in *; [done | by apply Z.eqb_eq].
    + rewrite bool_decide_eq_false_2 by done. simpl. apply Z.eqb_neq. intros ->. apply Hns. right. left.
  - by rewrite bool_decide_eq_false_2 by congruence.
Qed.

Lemma is_dotdot_spec c name rest : (r <= length path)%nat -> drop r path = (c :: name) ++ rest ->
  no_slash (c :: name) -> at_end rest -> c :: name <> lit "." ->
  is_dotdot path r c = Ret (bool_decide (c :: name = lit "..")).
Proof.
  intros Hr E Hns He Hd. unfold is_dotdot. change (lit "..") with [DOT; DOT]. change (lit ".") with [DOT] in Hd.
  destruct (Z.eqb_spec c DOT) as [-> | Hc]; [| by rewrite bool_decide_eq_false_2 by congruence].
  destruct name as [| c1 name]; [done |]. rewrite (at_drop 1 _ E). cbn [app lookup list_lookup]. rewrite bind_ret.
  destruct (Z.eqb_spec c1 DOT) as [-> | Hc]; [| by rewrite bool_decide_eq_false_2 by congruence].
  rewrite (ends_at_spec 2 [DOT; DOT] (name ++ rest)) by done. f_equal. destruct name as [| c2 name].
  - rewrite bool_decide_eq_true_2 by done. destruct rest; simpl in *; [done | by apply Z.eqb_eq].
  - rewrite bool_decide_eq_false_2 by done. simpl. apply Z.eqb_neq. intros ->. apply Hns. right. right. left.
Qed.

End Reading.

Lemma name_split s : exists name rest, s = name ++ rest /\ no_slash name /\ at_end rest.
Proof.
  induction s as [| c s (name & rest & -> & Hn & He)].
  - exists [], []. split_and!; [done | apply not_elem_of_nil | done].
  - destruct (decide (c = SLASH)) as [-> | Hc].
    + exists [], (SLASH :: name ++ rest). split_and!; [done | apply not_elem_of_nil | done].
    + exists (c :: name), rest. split_and!; [done | | done]. unfold no_slash. rewrite not_elem_of_cons. split; [congruence | done].
Qed.

Lemma Clean_copy_spec path name rest : forall r out fuel, lb_ok path out -> (r <= length path)%nat ->
  drop r path = name ++ rest -> no_slash name -> at_end rest ->
  (lb_w out + length name <= length path)%nat -> (length name < fuel)%nat ->
  returns (Clean_copy fuel path r out)
    (fun '(r', out') => r' = (r + length name)%nat /\ lb_ok path out' /\ content out' = content out ++ name).
Proof.
  induction name as [| c name IH]; intros r out fuel Hok Hr E Hns He Hw Hf;
    (destruct fuel as [| fuel]; [simpl in Hf; lia |]); pose proof (length_drop_eq _ _ _ Hr E) as Hn;
    cbn [Clean_copy]; pose proof (at_drop _ _ 0 _ E) as Hat; rewrite Nat.add_0_r in Hat; rewrite Hat.
  - rewrite Nat.add_0_r, (right_id_L [] (++)). destruct rest as [| c rest]; simpl in *.
    + destruct (Nat.ltb_spec r (length path)); [lia |]. by apply returns_ret.
    + destruct (Nat.ltb_spec r (length path)); [| lia]. rewrite He. by apply returns_ret.
  - apply not_elem_of_cons in Hns as [Hc Hns]. simpl in Hn, Hw, Hf.
    destruct (Nat.ltb_spec r (length path)); [| lia]. simpl. destruct (Z.eqb_spec c SLASH); [congruence |].
    eapply returns_bind; [apply (Lazybuf_append_spec path); [done | lia] |]. intros out' (Hok' & Hc').
    eapply returns_mono.
    + apply IH; [done | lia | eapply (drop_add _ _ _ [c]); done | done | done | | lia].
      rewrite <- (content_length _ _ Hok'), Hc', length_app, (content_length _ _ Hok). simpl. lia.
    + intros [r' o'] (-> & Ho & Hco). split_and!; [lia | done |]. by rewrite Hco, Hc', <- (assoc_L (++)).
Qed.
