(* ===== verification/CleanThm.v ===== *)
(** [Clean] against the component-wise normal form: the components of the path are
    pushed on a stack, [.] and empty components are skipped, [..] pops. *)
From Stdlib Require Import Ascii String.
From S2P Require Import Prelude Path PathThm.
#[local] Open Scope Z_scope.

Abbreviation dd := (lit "..") (only parsing).

(** One component on the stack (top first). *)
Definition push (rooted : bool) (st : list str) (name : str) : list str :=
  if bool_decide (name = []) || bool_decide (name = lit ".") then st
  else if bool_decide (name = dd) then
    match st with
    | x :: st' => if bool_decide (x = dd) then dd :: st else st'
    | [] => if rooted then [] else [dd]
    end
  else name :: st.

Definition pushes (rooted : bool) : list str -> list str -> list str := foldl (push rooted).

(** The components that are left of a path, in order, and how they are written. *)
Definition normalize (path : str) : list str := reverse (pushes (IsAbs path) [] (split path)).

Definition render (rooted : bool) (comps : list str) : str :=
  if rooted then SLASH :: join comps
  else match comps with [] => lit "." | _ => join comps end.

(** A component that names an entry. *)
Definition proper (x : str) : Prop := x <> [] /\ x <> lit "." /\ x <> dd /\ no_slash x.

(** The stack: names above [k] times [..], none of them under a root. *)
Definition stack_ok (rooted : bool) (k : nat) (names st : list str) : Prop :=
  st = names ++ replicate k dd /\ Forall proper names /\ (rooted = true -> k = 0%nat).

Definition text (rooted : bool) (st : list str) : str :=
  (if rooted then [SLASH] else []) ++ join (reverse st).

Definition sep (st : list str) : str := match st with [] => [] | _ => [SLASH] end.

Lemma join_snoc l x : join (l ++ [x]) = join l ++ sep l ++ x.
Proof.
  induction l as [| y l IH]; [done |]. simpl. destruct l as [| z l]; [done |].
  simpl in *. rewrite IH. simpl. by rewrite <- (assoc_L (++)).
Qed.

Lemma text_cons rooted x st : text rooted (x :: st) = text rooted st ++ sep st ++ x.
Proof.
  unfold text. rewrite reverse_cons, join_snoc. rewrite <- !(assoc_L (++)). do 3 f_equal.
  unfold sep. destruct st as [| y st]; [done |]. rewrite reverse_cons. by destruct (reverse st).
Qed.

Lemma text_length_app rooted st st' : (length (text rooted st) <= length (text rooted (st' ++ st)))%nat.
Proof. induction st' as [| x st' IH]; [done |]. simpl. rewrite text_cons, !length_app. lia. Qed.

Lemma text_length_cons rooted x st : x <> [] -> (length (text rooted st) < length (text rooted (x :: st)))%nat.
Proof. intros Hx. rewrite text_cons, !length_app. destruct x; [done | simpl; lia]. Qed.

(** [Clean_backup] goes back to the last place [p] where it may stop. *)
Lemma Clean_backup_spec dotdot p : forall w fuel out, (dotdot <= p <= w)%nat -> (w < fuel)%nat ->
  (p = dotdot \/ data out !! p = Some SLASH) ->
  (forall i, (p < i <= w)%nat -> exists c, data out !! i = Some c /\ c <> SLASH) ->
  Clean_backup fuel (set_w out w) dotdot = Ret (set_w out p).
Proof.
  induction w as [| w IH]; intros fuel out Hp Hf Hs Hi; (destruct fuel as [| fuel]; [lia |]); cbn [Clean_backup].
  - assert (p = 0%nat) as -> by lia. assert (dotdot = 0%nat) as -> by lia. done.
  - cbn [lb_w set_w]. destruct (Nat.ltb_spec dotdot (S w)) as [Hd | Hd]; [| by replace p with (S w) by lia].
    destruct (decide (p = S w)) as [-> | Hne].
    + destruct Hs as [Hs | Hs]; [lia |]. by rewrite (Lazybuf_index_spec (set_w out (S w)) _ SLASH Hs).
    + destruct (Hi (S w) ltac:(lia)) as (c & Hc & Hn).
      rewrite (Lazybuf_index_spec _ _ c) by done. rewrite bind_ret.
      destruct (Z.eqb_spec c SLASH); [done |]. cbn [lb_w set_w].
      replace (S w - 1)%nat with w by lia. apply (IH fuel out); [lia | lia | done |].
      intros i Hx. apply Hi. lia.
Qed.

Lemma content_lookup lb i c : content lb !! i = Some c -> data lb !! i = Some c.
Proof. unfold content. intros H. by apply lookup_take_Some in H as [H _]. Qed.

(** Popping the last name. *)
Lemma backup_pop path rooted out x st dotdot :
  lb_ok path out -> content out = text rooted (x :: st) -> proper x ->
  (dotdot <= length (text rooted st))%nat -> (st = [] -> dotdot = length (text rooted [])) ->
  Clean_backup (lb_w out) (set_w out (lb_w out - 1)) dotdot = Ret (set_w out (length (text rooted st))).
Proof.
  intros Hok Hc (Hx & _ & _ & Hns) Hd He. pose proof (content_length _ _ Hok) as Hl. rewrite Hc in Hl.
  pose proof (text_length_cons rooted x st Hx) as Hlt.
  rewrite text_cons in Hc, Hl, Hlt. rewrite !length_app in Hl, Hlt. apply Clean_backup_spec; [lia | lia | |].
  - destruct st as [| y st]; [left; symmetry; auto |]. right. apply content_lookup. rewrite Hc.
    rewrite lookup_app_r, Nat.sub_diag by done. done.
  - intros i Hi. assert (Hlk : exists c, x !! (i - length (text rooted st) - length (sep st))%nat = Some c).
    { apply lookup_lt_is_Some. destruct st; simpl in *; lia. }
    destruct Hlk as (c & Hlk). exists c. split.
    + apply content_lookup. rewrite Hc, lookup_app_r by lia. rewrite lookup_app_r; [done |]. destruct st; simpl; lia.
    + intros ->. apply Hns. by eapply list_elem_of_lookup_2.
Qed.

(** * The loop *)

Lemma push_skip rooted st name : name = [] \/ name = lit "." -> push rooted st name = st.
Proof. intros [-> | ->]; done. Qed.

Lemma push_proper rooted st name : proper name -> push rooted st name = name :: st.
Proof. intros (H1 & H2 & H3 & _). unfold push. by rewrite !bool_decide_eq_false_2. Qed.

Lemma push_dd rooted st : push rooted st dd =
  match st with
  | x :: st' => if bool_decide (x = dd) then dd :: st else st'
  | [] => if rooted then [] else [dd]
  end.
Proof. done. Qed.

Lemma pushes_name rooted st name rest : no_slash name -> at_end rest ->
  pushes rooted st (split (name ++ rest)) = pushes rooted (push rooted st name) (split rest).
Proof.
  intros Hn He. destruct rest as [| c rest].
  - rewrite (right_id_L [] (++)), split_no_slash by done. simpl. by rewrite (push_skip _ _ []) by auto.
  - simpl in He. subst c. rewrite split_app_slash, split_no_slash by done. simpl. by rewrite (push_skip _ _ []) by auto.
Qed.

(** The state of the loop when the components on [st] are written and [r] bytes are
    read: the text fits in what was read, with a byte to spare in front of a name. *)
Record CInv (path : str) (rooted : bool) (r : nat) (out : Lazybuf) (dotdot : nat) (st : list str) : Prop := {
  ci_ok : lb_ok path out;
  ci_content : content out = text rooted st;
  ci_stack : exists k names, stack_ok rooted k names st /\ dotdot = length (text rooted (replicate k dd));
  ci_utf8 : Forall (fun c => utf8 c = true) st;
  ci_r : (r <= length path)%nat;
  ci_fits : (length (text rooted st) <= r)%nat;
  ci_spare : at_end (drop r path) \/ st = [] \/ (length (text rooted st) < r)%nat;
}.

Lemma ci_w path rooted r out dotdot st : CInv path rooted r out dotdot st -> lb_w out = length (text rooted st).
Proof. intros H. by rewrite <- (ci_content _ _ _ _ _ _ H), (content_length path) by apply (ci_ok _ _ _ _ _ _ H). Qed.

Section Steps.
Context (path : str).

(** The separator in front of a component. *)
Lemma write_sep (rooted b : bool) out st : lb_ok path out -> content out = text rooted st ->
  b = negb (bool_decide (st = [])) -> (length (text rooted st) + length (sep st) <= length path)%nat ->
  returns (if b then Lazybuf_append out SLASH else Ret out)
    (fun out' => lb_ok path out' /\ content out' = text rooted st ++ sep st).
Proof.
  intros Hok Hc -> Hl. destruct st as [| x st]; simpl.
  - apply returns_ret. by rewrite (right_id_L [] (++)).
  - rewrite <- Hc. apply Lazybuf_append_spec; [done |]. rewrite <- (content_length _ _ Hok), Hc. simpl in Hl. lia.
Qed.

(** A stack of [k] times [..] is written up to [dotdot]. *)
Lemma Clean_up r out k rest :
  CInv path false r out (length (text false (replicate k dd))) (replicate k dd) ->
  drop r path = dd ++ rest -> at_end rest ->
  returns (Clean_dotdot false out (length (text false (replicate k dd))))
    (fun '(out', dotdot') => CInv path false (r + 2) out' dotdot' (dd :: replicate k dd)).
Proof.
  intros HI E He. pose proof (ci_w _ _ _ _ _ _ HI) as Hw. unfold Clean_dotdot. rewrite <- Hw.
  rewrite Nat.ltb_irrefl. cbn [negb].
  pose proof (length_drop_eq _ _ _ (ci_r _ _ _ _ _ _ HI) E) as Hn. rewrite length_app in Hn. simpl in Hn.
  assert (Hs : (length (text false (replicate k dd)) + length (sep (replicate k dd)) <= r)%nat).
  { pose proof (ci_fits _ _ _ _ _ _ HI). destruct (ci_spare _ _ _ _ _ _ HI) as [H1 | [H1 | H1]].
    - rewrite E in H1. done.
    - rewrite H1 in *. simpl. lia.
    - assert (length (sep (replicate k dd)) <= 1)%nat by (destruct k; simpl; lia). lia. }
  destruct HI as [Hok Hc _ Hu Hle Hf _].
  eapply returns_bind; [apply (write_sep false (0 <? lb_w out)%nat out (replicate k dd) Hok Hc) |].
  { rewrite Hw. destruct k; [done |]. simpl. unfold text. rewrite reverse_cons, join_snoc.
    rewrite !length_app. apply Nat.ltb_lt. simpl. lia. }
  { lia. }
  intros out1 (Hok1 & Hc1). pose proof (content_length _ _ Hok1) as Hl1. rewrite Hc1, length_app in Hl1.
  eapply returns_bind; [apply (Lazybuf_append_spec path); [done | lia] |]. intros out2 (Hok2 & Hc2).
  pose proof (content_length _ _ Hok2) as Hl2. rewrite Hc2, Hc1, !length_app in Hl2. simpl in Hl2.
  eapply returns_bind; [apply (Lazybuf_append_spec path); [done | lia] |]. intros out3 (Hok3 & Hc3).
  assert (Ht : content out3 = text false (dd :: replicate k dd)).
  { rewrite text_cons, Hc3, Hc2, Hc1. by rewrite <- !(assoc_L (++)). }
  apply returns_ret. pose proof (content_length _ _ Hok3) as Hl3. rewrite Ht in Hl3.
  constructor; [done | done | | by constructor | lia | | left].
  - exists (S k), []. split; [repeat split; [constructor | done] |]. by rewrite <- Hl3.
  - rewrite text_cons, !length_app. simpl. lia.
  - by rewrite (drop_add path r 2 dd rest).
Qed.

Lemma Clean_dotdot_spec rooted r out dotdot st rest : CInv path rooted r out dotdot st ->
  drop r path = dd ++ rest -> at_end rest ->
  returns (Clean_dotdot rooted out dotdot)
    (fun '(out', dotdot') => CInv path rooted (r + 2) out' dotdot' (push rooted st dd)).
Proof.
  intros HI E He. pose proof (ci_w _ _ _ _ _ _ HI) as Hw.
  pose proof (length_drop_eq _ _ _ (ci_r _ _ _ _ _ _ HI) E) as Hn. rewrite length_app in Hn. simpl in Hn.
  assert (He2 : at_end (drop (r + 2) path)) by (by rewrite (drop_add path r 2 dd rest)).
  destruct (ci_stack _ _ _ _ _ _ HI) as (k & names & (Es & Hp & Hk) & Ed). rewrite push_dd.
  destruct names as [| x names]; simpl in Es.
  - destruct rooted.
    + assert (k = 0%nat) as -> by auto. subst dotdot st. unfold Clean_dotdot. rewrite Hw, Nat.ltb_irrefl. simpl.
      apply returns_ret. destruct HI as [H1 H2 H3 H4 H5 H6 H7]. constructor; [done | done | done | done | lia | simpl in H6 |- *; lia | by left].
    + subst dotdot st. replace (match replicate k dd with [] => _ | _ => _ end) with (dd :: replicate k dd) by (by destruct k).
      by apply (Clean_up r out k rest).
  - apply Forall_cons in Hp as [Hx Hp]. subst st. rewrite bool_decide_eq_false_2 by apply Hx.
    pose proof (text_length_app rooted (replicate k dd) names) as Hl.
    pose proof (text_length_cons rooted x (names ++ replicate k dd) ltac:(apply Hx)) as Hlt.
    unfold Clean_dotdot. destruct (Nat.ltb_spec dotdot (lb_w out)); [| lia].
    destruct HI as [H1 H2 H3 H4 H5 H6 H7].
    rewrite (backup_pop path rooted out x (names ++ replicate k dd)); [| done | done | done | lia |].
    2: { intros En. apply app_nil in En as [_ En]. by rewrite Ed, En. }
    rewrite bind_ret. apply returns_ret.
    destruct (set_w_ok path out (length (text rooted (names ++ replicate k dd))) H1) as [Ho Hc]; [lia |].
    constructor; [done | | by exists k, names | by apply Forall_cons in H4 as [_ H4] | lia | lia | by left].
    rewrite Hc, H2, text_cons. by rewrite take_app_length.
Qed.

Lemma text_pos rooted k names st : stack_ok rooted k names st -> st <> [] ->
  (length (text rooted []) < length (text rooted st))%nat.
Proof.
  intros (-> & Hp & _) Hne. destruct (names ++ replicate k dd) as [| x st] eqn:E; [done |].
  assert (x <> []) as Hx.
  { destruct names as [| y names]; simpl in E.
    - destruct k; [done |]. by injection E as <- _.
    - injection E as <- _. apply Forall_cons in Hp as [Hp _]. apply Hp. }
  pose proof (text_length_cons rooted x st Hx). pose proof (text_length_app rooted [] st) as Hl.
  rewrite (right_id_L [] (++)) in Hl. lia.
Qed.

Lemma Clean_name rooted r out dotdot st name rest : CInv path rooted r out dotdot st ->
  drop r path = name ++ rest -> at_end rest -> proper name -> utf8 name = true ->
  returns (out ← (if rooted && negb (lb_w out =? 1)%nat || negb rooted && negb (lb_w out =? 0)%nat
                  then Lazybuf_append out SLASH else Ret out);
           '(r, out) ← Clean_copy (S (length path - r)) path r out;
           Ret (r, out, dotdot))
    (fun '(r', out', dotdot') => r' = (r + length name)%nat /\ CInv path rooted r' out' dotdot' (name :: st)).
Proof.
  intros HI E He Hp Hu. pose proof (ci_w _ _ _ _ _ _ HI) as Hw. destruct HI as [H1 H2 (k & names & Hs & Hd) H4 H5 H6 H7].
  pose proof (length_drop_eq _ _ _ H5 E) as Hn. rewrite length_app in Hn.
  assert (Hb : rooted && negb (lb_w out =? 1)%nat || negb rooted && negb (lb_w out =? 0)%nat = negb (bool_decide (st = []))).
  { rewrite Hw. destruct (decide (st = [])) as [-> | Hst]; [by destruct rooted |].
    rewrite bool_decide_eq_false_2 by done. pose proof (text_pos _ _ _ _ Hs Hst) as Ht.
    destruct rooted; simpl in Ht |- *; rewrite ?orb_false_r; apply negb_true_iff, Nat.eqb_neq; lia. }
  assert (Hsp : (length (text rooted st) + length (sep st) <= r)%nat).
  { destruct H7 as [H7 | [-> | H7]]; [| simpl; lia | destruct st; simpl; lia].
    rewrite E in H7. destruct name as [| c name]; [by destruct Hp |]. simpl in H7. subst c.
    destruct Hp as (_ & _ & _ & Hp). destruct Hp. left. }
  eapply returns_bind; [apply (write_sep rooted _ out st H1 H2 Hb); lia |]. intros out1 (Ho1 & Hc1).
  pose proof (content_length _ _ Ho1) as Hl1. rewrite Hc1, length_app in Hl1.
  eapply returns_bind; [apply (Clean_copy_spec path name rest); try done; [apply Hp | lia | lia] |].
  intros [r' out2] (-> & Ho2 & Hc2).
  apply returns_ret. split; [done |].
  assert (Ht : content out2 = text rooted (name :: st)) by (by rewrite text_cons, Hc2, Hc1, <- (assoc_L (++))).
  constructor; [done | done | | by constructor | lia | | left].
  - destruct Hs as (-> & Hn' & Hk). exists k, (name :: names). split; [| done]. split_and!; [done | by constructor | done].
  - rewrite text_cons, !length_app. lia.
  - by rewrite (drop_add path r (length name) name rest).
Qed.

(** One iteration handles a slash or a component. *)
Lemma Clean_step_spec rooted r out dotdot st : CInv path rooted r out dotdot st -> (r < length path)%nat ->
  utf8 (drop r path) = true ->
  returns (Clean_step path rooted r out dotdot) (fun '(r', out', dotdot') => (r < r')%nat /\
    utf8 (drop r' path) = true /\ exists st', CInv path rooted r' out' dotdot' st' /\
    pushes rooted st (split (drop r path)) = pushes rooted st' (split (drop r' path))).
Proof.
  intros HI Hr Hu. pose proof (ci_r _ _ _ _ _ _ HI) as Hle.
  destruct (name_split (drop r path)) as (name & rest & E & Hns & He).
  pose proof (length_drop_eq _ _ _ Hle E) as Hn. rewrite length_app in Hn.
  rewrite E in Hu. rewrite utf8_app in Hu by (by destruct rest; simpl in *; subst). apply andb_true_iff in Hu as [Hu1 Hu2].
  unfold Clean_step. pose proof (at_drop path r 0 _ E) as Hat. rewrite Nat.add_0_r in Hat. rewrite Hat, E.
  destruct name as [| c name].
  - destruct rest as [| c rest]; simpl in Hn; [lia |]. simpl in He. subst c. cbn [app lookup list_lookup].
    rewrite bind_ret. cbn [Z.eqb SLASH Pos.eqb]. apply returns_ret.
    assert (Ed : drop (r + 1) path = rest) by (by apply (drop_add path r 1 [SLASH] rest)). rewrite Ed.
    split_and!; [lia | done |]. exists st. split; [| by simpl; rewrite push_skip by auto].
    destruct HI as [H1 H2 H3 H4 H5 H6 H7]. constructor; try done; [lia | lia | right; right; lia].
  - cbn [app lookup list_lookup]. rewrite bind_ret. destruct (Z.eqb_spec c SLASH) as [-> | Hc]; [destruct Hns; left |].
    rewrite (is_dot_spec path r c name rest) by done. rewrite bind_ret.
    change (c :: name ++ rest) with ((c :: name) ++ rest). rewrite pushes_name by done.
    destruct (bool_decide_reflect (c :: name = lit ".")) as [Ec | Hnd].
    { rewrite Ec in *. apply returns_ret. assert (Ed : drop (r + 1) path = rest) by (by apply (drop_add path r 1 (lit ".") rest)).
      rewrite Ed. simpl in Hn. split_and!; [lia | done |]. exists st. split; [| done].
      destruct HI as [H1 H2 H3 H4 H5 H6 H7]. constructor; try done; [lia | lia | left; by rewrite Ed]. }
    rewrite (is_dotdot_spec path r c name rest) by done. rewrite bind_ret.
    destruct (bool_decide_reflect (c :: name = dd)) as [Ec | Hndd].
    + rewrite Ec in *. eapply returns_bind; [by apply (Clean_dotdot_spec rooted r out dotdot st rest) |].
      intros [out' dotdot'] HI'. apply returns_ret. split; [lia |].
      rewrite (drop_add path r 2 dd rest) by done. split; [done |]. by eexists.
    + assert (Hp : proper (c :: name)) by done.
      eapply returns_mono; [by apply (Clean_name rooted r out dotdot st (c :: name) rest) |].
      intros [[r' out'] dotdot'] (-> & HI'). rewrite (drop_add path r _ (c :: name) rest) by done.
      split_and!; [simpl; lia | done |]. exists ((c :: name) :: st). by rewrite push_proper.
Qed.

Lemma Clean_loop_spec rooted : forall fuel r out dotdot st, CInv path rooted r out dotdot st ->
  utf8 (drop r path) = true -> (length path - r < fuel)%nat ->
  returns (Clean_loop fuel path rooted r out dotdot) (fun out' => exists r' dotdot',
    CInv path rooted r' out' dotdot' (pushes rooted st (split (drop r path)))).
Proof.
  induction fuel as [| fuel IH]; intros r out dotdot st HI Hu Hf; [lia |]. cbn [Clean_loop].
  destruct (Nat.ltb_spec r (length path)) as [Hr | Hr].
  - eapply returns_bind; [by apply (Clean_step_spec rooted r out dotdot st) |].
    intros [[r' out'] dotdot'] (Hlt & Hu' & st' & HI' & ->). apply IH; [done | done | lia].
  - apply returns_ret. exists r, dotdot. rewrite drop_ge by done. simpl. by rewrite push_skip by auto.
Qed.
End Steps.

(** * The result *)

Lemma push_ok rooted k names st name : stack_ok rooted k names st -> no_slash name ->
  exists k' names', stack_ok rooted k' names' (push rooted st name).
Proof.
  intros (-> & Hp & Hk) Hn. unfold push.
  destruct (bool_decide_reflect (name = [])) as [-> | H1]; [by exists k, names |].
  destruct (bool_decide_reflect (name = lit ".")) as [-> | H2]; [by exists k, names |]. cbn [orb].
  destruct (bool_decide_reflect (name = dd)) as [-> | H3]; [| by exists k, (name :: names); repeat constructor].
  destruct names as [| x names].
  - simpl. destruct k as [| k].
    + by destruct rooted; [exists 0%nat, [] | exists 1%nat, []].
    + exists (S (S k)), []. split_and!; [done | done |]. intros Hr. by discriminate (Hk Hr).
  - apply Forall_cons in Hp as [Hx Hp]. simpl. rewrite bool_decide_eq_false_2 by apply Hx. by exists k, names.
Qed.

Lemma pushes_ok rooted l : Forall no_slash l -> forall k names st, stack_ok rooted k names st ->
  exists k' names', stack_ok rooted k' names' (pushes rooted st l).
Proof.
  induction 1 as [| x l Hx _ IH]; intros k names st Hs; [by exists k, names |].
  destruct (push_ok _ _ _ _ x Hs Hx) as (k' & names' & Hs'). by apply (IH k' names').
Qed.

Lemma normalize_ok path : exists k names, stack_ok (IsAbs path) k names (reverse (normalize path)).
Proof.
  unfold normalize. rewrite reverse_involutive.
  apply (pushes_ok _ _ (split_comps path) 0 []). by repeat constructor.
Qed.

(** Pushing the components of a stack one after another. *)
Lemma pushes_stack rooted k names st : stack_ok rooted k names st -> pushes rooted [] (reverse st) = st.
Proof.
  intros (-> & Hp & Hk). rewrite reverse_app, reverse_replicate. unfold pushes. rewrite foldl_app.
  assert (E : foldl (push rooted) [] (replicate k dd) = replicate k dd).
  { destruct rooted; [by rewrite Hk |]. clear. assert (H : forall j, foldl (push false) (replicate j dd) (replicate k dd) = replicate (k + j) dd).
    { induction k as [| k IH]; intros j; [done |].
      replace (S k + j)%nat with (k + S j)%nat by lia. rewrite <- IH. by destruct j. }
    rewrite <- (Nat.add_0_r k) at 2. apply (H 0%nat). }
  rewrite E. clear E Hk. induction names as [| x names IH]; [done |]. apply Forall_cons in Hp as [Hx Hp].
  rewrite reverse_cons, foldl_app, IH by done. simpl. by apply push_proper.
Qed.

Lemma utf8_join l : Forall (fun c => utf8 c = true) l -> utf8 (join l) = true.
Proof.
  induction 1 as [| x l Hx Hl IH]; [done |]. destruct l as [| y l]; [done |].
  change (join (x :: y :: l)) with (x ++ SLASH :: join (y :: l)). by rewrite utf8_slash, Hx, IH.
Qed.

Lemma text_render rooted st : (rooted = false -> st <> []) -> text rooted st = render rooted (reverse st).
Proof.
  unfold text, render. destruct rooted; [done |]. intros H. destruct st as [| x st]; [by destruct H |].
  rewrite reverse_cons. by destruct (reverse st).
Qed.

Lemma utf8_text rooted st : Forall (fun c => utf8 c = true) st -> utf8 (text rooted st) = true.
Proof.
  intros H. assert (Hj : utf8 (join (reverse st)) = true) by (by apply utf8_join, Forall_reverse).
  unfold text. by destruct rooted.
Qed.

(** Before the loop. *)
Lemma Clean_init c p : let path := c :: p in let r := if c =? SLASH then 1%nat else 0%nat in
  returns (if c =? SLASH then Lazybuf_append (Lazybuf_New path) SLASH else Ret (Lazybuf_New path))
    (fun out => CInv path (IsAbs path) r out r []) /\
  (utf8 path = true -> utf8 (drop r path) = true) /\
  pushes (IsAbs path) [] (split (drop r path)) = reverse (normalize path).
Proof.
  intros path r. unfold normalize. rewrite reverse_involutive. change (IsAbs path) with (c =? SLASH).
  assert (H0 : lb_ok path (Lazybuf_New path)) by (constructor; simpl; lia || done).
  subst r. destruct (Z.eqb_spec c SLASH) as [-> | Hc].
  - split_and!; [| done | done]. eapply returns_mono; [apply (Lazybuf_append_spec path); [done | simpl; lia] |].
    intros out (Hok & E). constructor; [done | done | by exists 0%nat, [] | constructor | simpl; lia | done | auto].
  - split_and!; [| done | done]. apply returns_ret.
    constructor; [done | done | by exists 0%nat, [] | constructor | simpl; lia | done | auto].
Qed.

(** After the loop. *)
Lemma Clean_finish path rooted r out dotdot comps : CInv path rooted r out dotdot (reverse comps) ->
  (if (lb_w out =? 0)%nat then Ret (lit ".") else Lazybuf_String out) = Ret (render rooted comps).
Proof.
  intros HI. rewrite (ci_w _ _ _ _ _ _ HI). destruct HI as [H1 H2 (k & names & Hs & _) H4 _ _ _].
  destruct (decide (comps = [])) as [-> | Hne]; [destruct rooted; [| done] |].
  - simpl. by rewrite (Lazybuf_String_spec path), H2 by (rewrite ?H2; done).
  - assert (Hr : reverse comps <> []) by (intros E; apply Hne; by rewrite <- (reverse_involutive comps), E).
    pose proof (text_pos _ _ _ _ Hs Hr). destruct (Nat.eqb_spec (length (text rooted (reverse comps))) 0); [lia |].
    rewrite (Lazybuf_String_spec path); [| done | rewrite H2; by apply utf8_text].
    by rewrite H2, text_render, reverse_involutive.
Qed.

Lemma Clean_eq path : utf8 path = true -> Clean path = Ret (render (IsAbs path) (normalize path)).
Proof.
  intros Hu. unfold Clean. destruct path as [| c p]; [done |]. rewrite bool_decide_eq_false_2 by done.
  change (at_ (c :: p) 0) with (Ret c). rewrite bind_ret. cbn zeta.
  destruct (Clean_init c p) as ((out & -> & HI) & Hd & E). rewrite bind_ret.
  destruct (Clean_loop_spec (c :: p) (c =? SLASH) (S (length (c :: p))) _ out _ [] HI) as (out' & -> & r' & d' & HI');
    [auto | lia |]. rewrite bind_ret. unfold IsAbs in E. rewrite E in HI'. exact (Clean_finish _ _ _ _ _ _ HI').
Qed.

(** * Normal forms *)

Lemma normalize_comps path : Forall (fun c => c <> [] /\ c <> lit "." /\ no_slash c) (normalize path).
Proof.
  destruct (normalize_ok path) as (k & names & E & Hp & _).
  rewrite <- (reverse_involutive (normalize path)), E. apply Forall_reverse, Forall_app. split.
  - eapply Forall_impl; [exact Hp |]. by intros x (H1 & H2 & _ & H4).
  - apply Forall_replicate. split_and!; [done | done |]. by apply (bool_decide_unpack _); vm_compute.
Qed.

Lemma IsAbs_render rooted comps : Forall (fun c => c <> [] /\ c <> lit "." /\ no_slash c) comps ->
  IsAbs (render rooted comps) = rooted.
Proof.
  intros H. destruct rooted; [done |]. destruct comps as [| x l]; [done |]. apply Forall_cons in H as [(Hx & _ & Hn) _].
  destruct x as [| c x]; [done |]. assert (E : exists t, render false ((c :: x) :: l) = c :: t) by (by destruct l; eexists).
  destruct E as (t & ->). simpl. apply Z.eqb_neq. intros ->. apply Hn. left.
Qed.

Lemma split_render rooted comps : Forall (fun c => c <> [] /\ c <> lit "." /\ no_slash c) comps ->
  forall st, pushes rooted st (split (render rooted comps)) = pushes rooted st comps.
Proof.
  intros H st. assert (Hn : Forall no_slash comps) by (eapply Forall_impl; [exact H |]; naive_solver).
  destruct comps as [| x l]; [by destruct rooted |]. unfold render. destruct rooted.
  - change (split (SLASH :: join (x :: l))) with ([] :: split (join (x :: l))). by rewrite split_join.
  - by rewrite split_join.
Qed.

(** The normal form of a cleaned path is the normal form of the path. *)
Lemma normalize_render path : normalize (render (IsAbs path) (normalize path)) = normalize path.
Proof.
  pose proof (normalize_comps path) as H. unfold normalize at 1. rewrite IsAbs_render, split_render by done.
  destruct (normalize_ok path) as (k & names & Hs). apply pushes_stack in Hs.
  rewrite reverse_involutive in Hs. by rewrite Hs, reverse_involutive.
Qed.

Lemma normalize_utf8 path : utf8 path = true -> Forall (fun c => utf8 c = true) (normalize path).
Proof.
  intros Hu. unfold normalize. apply Forall_reverse. apply split_utf8 in Hu.
  assert (H : forall rooted l st, Forall (fun c => utf8 c = true) l -> Forall (fun c => utf8 c = true) st ->
    Forall (fun c => utf8 c = true) (pushes rooted st l)); [| by apply H].
  clear. intros rooted l. induction l as [| x l IH]; intros st Hl Hs; [done |]. apply Forall_cons in Hl as [Hx Hl].
  apply IH; [done |]. unfold push. repeat case_match; try done; repeat constructor; try done; by apply Forall_cons in Hs as [? ?].
Qed.

Lemma render_utf8 path : utf8 path = true -> utf8 (render (IsAbs path) (normalize path)) = true.
Proof.
  intros Hu. apply normalize_utf8, utf8_join in Hu. unfold render. destruct (IsAbs path); [done |]. by case_match.
Qed.
