(* ===== verification/PathProps.v ===== *)
(** What the functions of qlib/path.rs compute, in terms of path components. *)
From Stdlib Require Import Ascii String.
From S2P Require Import Prelude Path PathThm CleanThm.
#[local] Open Scope Z_scope.

(** C13: [Clean] returns for every valid string; the result is written from the normal
    form of the path: an absolute path stays absolute and has no [..], a relative one
    has them only in front, no component is empty or [.], and cleaning the result again
    changes nothing. *)
Theorem Clean_spec path : utf8 path = true ->
  let out := render (IsAbs path) (normalize path) in
  Clean path = Ret out /\ Clean out = Ret out /\ IsAbs out = IsAbs path /\
  exists k names, normalize path = replicate k (lit "..") ++ names /\ Forall proper names /\
    (IsAbs path = true -> k = 0%nat).
Proof.
  intros Hu out. assert (Ha : IsAbs out = IsAbs path) by apply IsAbs_render, normalize_comps.
  split_and!; [by apply Clean_eq | | done |].
  - rewrite (Clean_eq out) by (by apply render_utf8). unfold out at 2. by rewrite normalize_render, Ha.
  - destruct (normalize_ok path) as (k & names & E & Hp & Hk). exists k, (reverse names).
    rewrite <- (reverse_involutive (normalize path)), E, reverse_app, reverse_replicate.
    split_and!; [done | by apply Forall_reverse | done].
Qed.

Lemma Clean_spec_witness : Clean (lit "../a//b/./../c/") = Ret (lit "../a/c") /\ Clean (lit "/../x") = Ret (lit "/x").
Proof.
  destruct (Clean_spec (lit "../a//b/./../c/") eq_refl) as (E1 & _).
  destruct (Clean_spec (lit "/../x") eq_refl) as (E2 & _). rewrite E1, E2. split; reflexivity.
Defined.

(** * Trailing slashes *)

Lemma split_slashes n st rooted : pushes rooted st (split (replicate n SLASH)) = st.
Proof.
  revert st. induction n as [| n IH]; intros st; simpl; [by rewrite push_skip by auto |].
  rewrite push_skip by auto. apply IH.
Qed.

(** Two paths with the same components clean to the same string. *)
Lemma Clean_same a b : utf8 a = true -> utf8 b = true -> IsAbs a = IsAbs b ->
  pushes (IsAbs b) [] (split a) = pushes (IsAbs b) [] (split b) -> Clean a = Clean b.
Proof. intros Ha Hb E Hp. rewrite !Clean_eq by done. unfold normalize. by rewrite E, Hp. Qed.

Lemma pushes_app rooted st l1 l2 : pushes rooted st (l1 ++ l2) = pushes rooted (pushes rooted st l1) l2.
Proof. apply foldl_app. Qed.

Lemma pushes_trim rooted st s n : pushes rooted st (split (s ++ replicate n SLASH)) = pushes rooted st (split s).
Proof.
  destruct n as [| n]; cbn [replicate]; [by rewrite (right_id_L [] (++)) |]. rewrite split_app_slash, pushes_app.
  apply split_slashes.
Qed.

Lemma utf8_replicate n : utf8 (replicate n SLASH) = true.
Proof. induction n; done. Qed.

Lemma utf8_trim s n : utf8 (s ++ replicate n SLASH) = utf8 s.
Proof.
  rewrite utf8_app by (destruct n; done). by rewrite utf8_replicate, andb_true_r.
Qed.

Lemma IsAbs_app a b : a <> [] -> IsAbs (a ++ b) = IsAbs a.
Proof. by destruct a. Qed.

(** A string that [TrimTrailingSlashes] leaves as it is. *)
Definition trimmed (t : str) : Prop := length t = 1%nat \/ exists c t', t = t' ++ [c] /\ c <> SLASH.

Lemma trimmed_nonempty t : trimmed t -> t <> [].
Proof. intros [H | (c & t' & -> & _)]; [by destruct t | by destruct t']. Qed.

Lemma Trim_last_spec s n x changed : forall k t, s = t ++ replicate n SLASH ++ k -> (1 <= length t)%nat ->
  (x = length t) -> trimmed t ->
  Trim_last (x - 1 + n) s changed = Ret ((x - 1)%nat, changed || negb (n =? 0)%nat).
Proof.
  revert changed. induction n as [| n IH]; intros changed k t -> Hl -> Hend.
  - rewrite Nat.add_0_r, orb_false_r. destruct Hend as [-> | (c & t' & -> & Hc)]; [done |].
    rewrite length_app. simpl. replace (length t' + 1 - 1)%nat with (length t') by lia.
    destruct (length t') eqn:El; [done |]. rewrite <- El. cbn [Trim_last]. rewrite El. cbn [Trim_last]. rewrite <- El.
    rewrite <- (assoc_L (++)). simpl. rewrite at_app, bind_ret. destruct (Z.eqb_spec c SLASH); [done |]. done.
  - replace (length t - 1 + S n)%nat with (S (length t - 1 + n)) by lia. cbn [Trim_last].
    assert (E : t ++ replicate (S n) SLASH ++ k = t ++ replicate n SLASH ++ SLASH :: k).
    { by rewrite replicate_S_end, <- !(assoc_L (++)). }
    assert (Hat : at_ (t ++ replicate (S n) SLASH ++ k) (S (length t - 1 + n)) = Ret SLASH).
    { rewrite E, (assoc_L (++) t). replace (S (length t - 1 + n)) with (length (t ++ replicate n SLASH)); [apply at_app |].
      rewrite length_app, length_replicate. lia. }
    rewrite Hat, bind_ret. change (SLASH =? SLASH) with true. cbn iota.
    rewrite (IH true (SLASH :: k) t E); [by rewrite orb_true_r | done | done | done].
Qed.

(** A non-empty string is a string that is one byte or does not end with a slash, and
    slashes. *)
Lemma trim_split s : s <> [] -> exists t n, s = t ++ replicate n SLASH /\
  trimmed t.
Proof.
  induction s as [| c s IH] using rev_ind; [done |]. intros _.
  destruct (decide (c = SLASH)) as [-> | Hc].
  - destruct (decide (s = [])) as [-> | Hs]; [by exists [SLASH], 0%nat; split; [| left] |].
    destruct (IH Hs) as (t & n & -> & Ht). exists t, (S n). by rewrite replicate_S_end, (assoc_L (++)).
  - exists (s ++ [c]), 0%nat. cbn [replicate]. rewrite (right_id_L [] (++)). split; [done |]. right. by exists c, s.
Qed.

Lemma TrimTrailingSlashes_eq s : utf8 s = true -> s <> [] -> exists t n, s = t ++ replicate n SLASH /\
  trimmed t /\ utf8 t = true /\
  TrimTrailingSlashes s = Ret (t, negb (n =? 0)%nat).
Proof.
  intros Hu Hs. destruct (trim_split s Hs) as (t & n & -> & Ht). exists t, n. rewrite utf8_trim in Hu.
  split_and!; [done | done | done |].
  assert (Hl : (1 <= length t)%nat) by (destruct Ht as [-> | (c & t' & -> & _)]; [done | rewrite length_app; simpl; lia]).
  unfold TrimTrailingSlashes. rewrite length_app, length_replicate.
  destruct (Nat.eqb_spec (length t + n) 0); [lia |].
  replace (length t + n - 1)%nat with (length t - 1 + n)%nat by lia.
  rewrite (Trim_last_spec _ n (length t) false [] t); [| by rewrite (right_id_L [] (++)) | done | done | done].
  rewrite bind_ret. replace (length t - 1 + 1)%nat with (length t) by lia.
  by rewrite slice_prefix by apply utf8_replicate.
Qed.

(** * SplitLast *)

Lemma last_slash p : no_slash p \/ exists a f, p = a ++ SLASH :: f /\ no_slash f.
Proof.
  induction p as [| c p IH]; [left; apply not_elem_of_nil |].
  destruct IH as [Hn | (a & f & -> & Hn)]; [| right; by exists (c :: a), f].
  destruct (decide (c = SLASH)) as [-> | Hc]; [right; by exists [], p |].
  left. apply not_elem_of_cons. split; [congruence | done].
Qed.

Lemma no_slash_snoc f c : no_slash (f ++ [c]) -> no_slash f /\ c <> SLASH.
Proof. unfold no_slash. rewrite not_elem_of_app, list_elem_of_singleton. naive_solver. Qed.

Lemma back_none f : forall k, no_slash f -> back_to_slash (length f) (f ++ k) = Ret None.
Proof.
  induction f as [| c f IH] using rev_ind; intros k Hn; [done |]. apply no_slash_snoc in Hn as [Hn Hc].
  rewrite length_app, Nat.add_1_r. cbn [back_to_slash]. rewrite <- (assoc_L (++)). cbn [app].
  rewrite at_app, bind_ret. destruct (Z.eqb_spec c SLASH); [done |]. by apply IH.
Qed.

Lemma back_some a f : forall k, no_slash f ->
  back_to_slash (length a + S (length f)) (a ++ SLASH :: f ++ k) = Ret (Some (length a)).
Proof.
  induction f as [| c f IH] using rev_ind; intros k Hn.
  - rewrite Nat.add_1_r. cbn [back_to_slash app]. by rewrite at_app.
  - apply no_slash_snoc in Hn as [Hn Hc]. rewrite length_app, Nat.add_1_r, Nat.add_succ_r. cbn [back_to_slash].
    assert (E : a ++ SLASH :: (f ++ [c]) ++ k = a ++ SLASH :: f ++ c :: k) by (by rewrite <- (assoc_L (++))).
    assert (Hat : at_ (a ++ SLASH :: f ++ c :: k) (length a + S (length f)) = Ret c).
    { replace (a ++ SLASH :: f ++ c :: k) with ((a ++ SLASH :: f) ++ c :: k) by (by rewrite <- (assoc_L (++))).
      replace (length a + S (length f))%nat with (length (a ++ SLASH :: f)) by (rewrite length_app; done). apply at_app. }
    rewrite E, Hat, bind_ret. destruct (Z.eqb_spec c SLASH); [done |]. by apply IH.
Qed.

(** What comes out of [SplitLast] for a path: [d/f] cleans to the path itself. *)
Definition last_ok (path : str) (df : str * str) : Prop :=
  no_slash df.2 /\ df.1 <> [] /\ df.2 <> [] /\ Join df.1 df.2 = Clean path.

Lemma Join_same d f path : utf8 path = true -> utf8 d = true -> utf8 f = true -> d <> [] -> IsAbs d = IsAbs path ->
  pushes (IsAbs path) (pushes (IsAbs path) [] (split d)) (split f) = pushes (IsAbs path) [] (split path) ->
  Join d f = Clean path.
Proof.
  intros Hu Hd Hf Hn Ha E. unfold Join. change (lit "/" ++ f) with (SLASH :: f).
  apply Clean_same; [by rewrite utf8_slash, Hd, Hf | done | by rewrite IsAbs_app |].
  by rewrite split_app_slash, pushes_app.
Qed.

Lemma no_slash_abs s : no_slash s -> IsAbs s = false.
Proof. intros H. destruct s as [| c s]; [done |]. simpl. apply Z.eqb_neq. intros ->. apply H. left. Qed.

(** The general case: the trimmed path has a slash in front of its last component. *)
Lemma SplitLast_slash a f n : a <> [] -> f <> [] -> no_slash f -> utf8 a = true -> utf8 f = true ->
  returns (d ← slice (a ++ SLASH :: f) 0 (length a);
           '(dir, _) ← TrimTrailingSlashes d;
           f ← slice (a ++ SLASH :: f) (length a + 1) (length (a ++ SLASH :: f));
           Ret (dir, f)) (last_ok ((a ++ SLASH :: f) ++ replicate n SLASH)).
Proof.
  intros Ha Hf Hn Hua Huf. rewrite slice_prefix by done. rewrite bind_ret.
  destruct (TrimTrailingSlashes_eq a Hua Ha) as (t & m & -> & Ht & Hut & ->). rewrite bind_ret.
  pose proof (trimmed_nonempty t Ht) as Ht0.
  assert (Hs : slice ((t ++ replicate m SLASH) ++ SLASH :: f) (length (t ++ replicate m SLASH) + 1)
      (length ((t ++ replicate m SLASH) ++ SLASH :: f)) = Ret f).
  { replace ((t ++ replicate m SLASH) ++ SLASH :: f) with (((t ++ replicate m SLASH) ++ [SLASH]) ++ f) by (by rewrite <- (assoc_L (++))).
    replace (length (t ++ replicate m SLASH) + 1)%nat with (length ((t ++ replicate m SLASH) ++ [SLASH])) by (by rewrite (length_app _ [SLASH])).
    by apply slice_suffix. }
  rewrite Hs, bind_ret. apply returns_ret. split_and!; [done | done | done |]. simpl.
  rewrite utf8_trim in Hua. apply Join_same; [| done | done | done | |].
  - by rewrite utf8_trim, utf8_slash, utf8_trim, Hua.
  - by rewrite <- !(assoc_L (++)), IsAbs_app.
  - by rewrite pushes_trim, split_app_slash, !pushes_app, pushes_trim.
Qed.

(** [SplitLast] returns for every valid path a directory and a last component without
    a slash, neither of them empty, that [Join] puts together to the cleaned path. *)
Theorem SplitLast_spec path : utf8 path = true -> returns (SplitLast path) (last_ok path).
Proof.
  intros Hu. destruct (decide (path = [])) as [-> | Hne].
  { apply returns_ret. split_and!; [| done | done | reflexivity]. by apply (bool_decide_unpack _); vm_compute. }
  destruct (TrimTrailingSlashes_eq path Hu Hne) as (t & n & -> & Ht & Hut & E). unfold SplitLast. rewrite E, bind_ret.
  pose proof (trimmed_nonempty t Ht) as Ht0.
  rewrite bool_decide_eq_false_2 by done. destruct (bool_decide_reflect (t = lit "/")) as [-> | Hs].
  { apply returns_ret. split_and!; [by apply (bool_decide_unpack _); vm_compute | done | done |].
    apply Join_same; [done | done | done | done | done |]. change (IsAbs _) with true. by rewrite pushes_trim. }
  destruct (last_slash t) as [Hn | (a & f & -> & Hn)].
  - pose proof (back_none t [] Hn) as Eb. rewrite (right_id_L [] (++)) in Eb. rewrite Eb, bind_ret.
    apply returns_ret. split_and!; [done | done | done |]. apply Join_same; [done | done | done | done | |].
    + rewrite IsAbs_app by done. by rewrite (no_slash_abs t).
    + rewrite pushes_trim. done.
  - rewrite utf8_slash in Hut. apply andb_true_iff in Hut as [Ha Hf].
    assert (Hf0 : f <> []).
    { intros ->. destruct Ht as [Ht | (c & t' & Ec & Hc)]; [| by apply app_inj_tail in Ec as [_ <-]].
      rewrite length_app in Ht. simpl in Ht. destruct a; [by apply Hs | simpl in Ht; lia]. }
    pose proof (back_some a f [] Hn) as Eb. rewrite (right_id_L [] (++)) in Eb.
    replace (length a + S (length f))%nat with (length (a ++ SLASH :: f)) in Eb by (by rewrite length_app).
    rewrite Eb, bind_ret. destruct a as [| c a]; [| by apply (SplitLast_slash (c :: a) f n)].
    rewrite (slice_suffix [SLASH] f Hf : slice ([] ++ SLASH :: f) 1 (length ([] ++ SLASH :: f)) = Ret f).
    rewrite bind_ret. apply returns_ret. split_and!; [done | done | done |]. apply Join_same; try done.
    by rewrite pushes_trim.
Qed.

Lemma SplitLast_witness : SplitLast (lit "/usr//bin/ls/") = Ret (lit "/usr//bin", lit "ls").
Proof. destruct (SplitLast_spec (lit "/usr//bin/ls/") eq_refl) as (df & E & _). rewrite E. revert E. vm_compute. congruence. Defined.

(** * SplitFirst *)

Lemma to_slash_spec name rest : no_slash name -> at_end rest -> forall pre fuel, (length name < fuel)%nat ->
  to_slash fuel (pre ++ name ++ rest) (length pre) = Ret (length pre + length name)%nat.
Proof.
  intros Hn He. induction name as [| c name IH]; intros pre fuel Hf; (destruct fuel as [| fuel]; [simpl in Hf; lia |]); cbn [to_slash].
  - rewrite Nat.add_0_r. destruct rest as [| c rest].
    + rewrite !(right_id_L [] (++)). by rewrite Nat.ltb_irrefl.
    + simpl in He. subst c. cbn [app]. rewrite at_app. case_match; done.
  - apply not_elem_of_cons in Hn as [Hc Hn]. simpl in Hf |- *. rewrite length_app. cbn [length].
    destruct (Nat.ltb_spec (length pre) (length pre + S (length (name ++ rest)))); [| lia].
    rewrite at_app, bind_ret. destruct (Z.eqb_spec c SLASH); [congruence |].
    replace (pre ++ c :: name ++ rest) with ((pre ++ [c]) ++ name ++ rest) by (by rewrite <- (assoc_L (++))).
    replace (length pre + 1)%nat with (length (pre ++ [c])) by (by rewrite length_app).
    rewrite IH by (done || lia). rewrite length_app. simpl. f_equal. lia.
Qed.

(** Leading slashes are skipped. *)
Lemma skip_slashes_spec s : utf8 s = true -> forall fuel, (length s < fuel)%nat ->
  exists n t, s = replicate n SLASH ++ t /\ skip_slashes fuel s = Ret t.
Proof.
  induction s as [| c s IH]; intros Hu fuel Hf; (destruct fuel as [| fuel]; [simpl in Hf; lia |]); cbn [skip_slashes].
  - by exists 0%nat, [].
  - destruct (Z.eqb_spec c SLASH) as [-> |]; [| by exists 0%nat, (c :: s)].
    assert (Hs : utf8 s = true) by done.
    rewrite (slice_suffix [SLASH] s Hs : slice (SLASH :: s) 1 (length (SLASH :: s)) = Ret s). rewrite bind_ret.
    destruct (IH Hs fuel) as (n & t & -> & E); [simpl in Hf; lia |]. by exists (S n), t.
Qed.

Lemma pushes_skip rooted st n t : pushes rooted st (split (replicate n SLASH ++ t)) = pushes rooted st (split t).
Proof. induction n as [| n IH]; [done |]. simpl. by rewrite push_skip by auto. Qed.

Lemma utf8_skip n t : utf8 (replicate n SLASH ++ t) = utf8 t.
Proof. induction n; done. Qed.

(** What comes out of [SplitFirst]: a first component and a shorter rest that clean to
    the path itself. *)
Definition first_ok (path : str) (fr : str * str) : Prop :=
  fr.1 <> [] /\ (fr.1 = lit "/" \/ no_slash fr.1) /\ (path <> [] -> (length fr.2 < length path)%nat) /\
  Join fr.1 fr.2 = Clean path.

(** [SplitFirst] returns for every valid path a first component ([/] of an absolute
    path) and the rest, which [Join] puts together to the cleaned path; the rest is
    shorter than the path, so a walk that goes on with the rest ends. *)
Theorem SplitFirst_spec path : utf8 path = true -> returns (SplitFirst path) (first_ok path).
Proof.
  intros Hu. destruct (decide (path = [])) as [-> | Hne].
  { apply returns_ret. split_and!; [done | | done | reflexivity]. right. by apply (bool_decide_unpack _); vm_compute. }
  destruct (TrimTrailingSlashes_eq path Hu Hne) as (t & n & -> & Ht & Hut & E). unfold SplitFirst. rewrite E, bind_ret.
  pose proof (trimmed_nonempty t Ht) as Ht0. rewrite bool_decide_eq_false_2 by done.
  destruct (name_split t) as (name & rest & -> & Hn & He). rewrite utf8_app in Hut by (by destruct rest; simpl in *; subst).
  apply andb_true_iff in Hut as [Hu1 Hu2].
  pose proof (to_slash_spec name rest Hn He [] (S (length (name ++ rest))) ltac:(rewrite length_app; lia)) as Ets.
  cbn [app length Nat.add] in Ets. rewrite Ets, bind_ret. destruct rest as [| c rest].
  - rewrite (right_id_L [] (++)) in *. destruct (Nat.leb_spec (length name) (length name)); [| lia]. apply returns_ret.
    split_and!; [done | by right | |].
    + intros _. rewrite length_app. simpl. destruct name; [done | simpl; lia].
    + apply Join_same; try done; [by rewrite IsAbs_app |]. rewrite pushes_trim. simpl. by rewrite push_skip by auto.
  - simpl in He. subst c. rewrite length_app. cbn [length]. destruct (Nat.leb_spec (length name + S (length rest)) (length name)); [lia |].
    assert (Hr : utf8 rest = true) by done. destruct (Nat.eqb_spec (length name) 0) as [E0 | E0].
    + apply nil_length_inv in E0 as ->.
      rewrite (slice_suffix [SLASH] rest Hr : slice ([] ++ SLASH :: rest) 1 (length (@nil Z) + S (length rest)) = Ret rest).
      rewrite bind_ret. apply returns_ret. split_and!; [done | by left | |].
      * intros _. rewrite length_app. simpl. lia.
      * apply Join_same; try done. by rewrite pushes_trim.
    + assert (Hn0 : name <> []) by (by destruct name).
      rewrite (slice_prefix name (SLASH :: rest)) by done. rewrite bind_ret.
      assert (Hs : slice (name ++ SLASH :: rest) (length name + 1) (length name + S (length rest)) = Ret rest).
      { replace (name ++ SLASH :: rest) with ((name ++ [SLASH]) ++ rest) by (by rewrite <- (assoc_L (++))).
        replace (length name + S (length rest))%nat with (length ((name ++ [SLASH]) ++ rest)) by (rewrite !length_app; simpl; lia).
        replace (length name + 1)%nat with (length (name ++ [SLASH])) by (by rewrite length_app). by apply slice_suffix. }
      rewrite Hs, bind_ret. destruct (skip_slashes_spec rest Hr (S (length rest))) as (m & r & -> & Er); [lia |].
      rewrite Er, bind_ret. apply returns_ret. split_and!; [done | by right | |].
      * intros _. rewrite !length_app. simpl. rewrite length_app. lia.
      * rewrite utf8_skip in Hr. apply Join_same; try done; [by rewrite <- (assoc_L (++)), IsAbs_app |].
        by rewrite pushes_trim, split_app_slash, pushes_app, pushes_skip.
Qed.

Lemma SplitFirst_witness : SplitFirst (lit "usr//bin/ls") = Ret (lit "usr", lit "bin/ls").
Proof. destruct (SplitFirst_spec (lit "usr//bin/ls") eq_refl) as (fr & E & _). rewrite E. revert E. vm_compute. congruence. Defined.
