(* ===== verification/RelProps.v ===== *)
(** [Rel] of qlib/path.rs by components, and the functions that compare paths as
    strings ([HasPrefix], [IsSubpath], [Base]). *)
From Stdlib Require Import Ascii String.
From S2P Require Import Prelude Path PathThm CleanThm PathProps.
#[local] Open Scope Z_scope.

(** What is left of two lists after their longest common prefix. *)
Fixpoint strip_common (B T : list str) : list str * list str :=
  match B, T with
  | b :: B', t :: T' => if bool_decide (b = t) then strip_common B' T' else (B, T)
  | _, _ => (B, T)
  end.

Definition comp (c : str) : Prop := c <> [] /\ no_slash c.

Lemma join_cons b B : join (b :: B) = b ++ sep B ++ join B.
Proof. destruct B; simpl; [by rewrite (right_id_L [] (++)) | done]. Qed.

Definition head_or_nil (l : list str) : str := match l with [] => [] | x :: _ => x end.

Lemma comp_head l : Forall comp l -> no_slash (head_or_nil l).
Proof. intros H. destruct l as [| x l]; [apply not_elem_of_nil |]. by apply Forall_cons in H as [[_ H] _]. Qed.

(** The string from the start of a component on: the component and what follows. *)
Lemma join_head l : exists rest, join l = head_or_nil l ++ rest /\ at_end rest.
Proof.
  destruct l as [| x l]; [by exists [] |]. exists (sep l ++ join l). rewrite join_cons. split; [done |]. by destruct l.
Qed.

(** The segment the loop of [Rel] reads from the start of a component. *)
Lemma seg_spec pre l : Forall comp l ->
  to_slash (S (length (pre ++ join l))) (pre ++ join l) (length pre) = Ret (length pre + length (head_or_nil l))%nat /\
  bslice (pre ++ join l) (length pre) (length pre + length (head_or_nil l)) = Ret (head_or_nil l).
Proof.
  intros H. destruct (join_head l) as (rest & E & He). rewrite E. split.
  - apply to_slash_spec; [by apply comp_head | done |]. rewrite !length_app. lia.
  - apply bslice_app.
Qed.

(** Stepping over the separator, if there is one. *)
Lemma next_comp pre b l :
  let i := (length pre + length b)%nat in
  let s := pre ++ join (b :: l) in
  s = (pre ++ b ++ sep l) ++ join l /\
  (if (i <? length s)%nat then (i + 1)%nat else i) = length (pre ++ b ++ sep l).
Proof.
  intros i s. subst s i. rewrite join_cons. split; [by rewrite <- !(assoc_L (++)) |].
  rewrite !length_app. destruct l as [| x l]; cbn [sep length].
  all: match goal with |- context [(?a <? ?b)%nat] => destruct (Nat.ltb_spec a b) end; cbn [join length] in *; lia.
Qed.

(** The loop stops where the components differ. *)
Lemma Rel_loop_spec B : forall T preb pret fuel, Forall comp B -> Forall comp T -> B <> T -> (length B < fuel)%nat ->
  exists qb qt, let '(B', T') := strip_common B T in
    Rel_loop fuel (preb ++ join B) (pret ++ join T) (length preb) (length preb) (length pret) (length pret)
      = Ret (length qb, (length qb + length (head_or_nil B'))%nat, length qt) /\
    preb ++ join B = qb ++ join B' /\ pret ++ join T = qt ++ join T'.
Proof.
  induction B as [| b B IH]; intros T preb pret fuel HB HT Hne Hf; (destruct fuel as [| fuel]; [lia |]); cbn [Rel_loop].
  all: destruct (seg_spec preb _ HB) as [-> Eb]; destruct (seg_spec pret _ HT) as [-> Et]; rewrite !bind_ret, Et, Eb, !bind_ret.
  - destruct T as [| t T]; [done |]. exists preb, pret. cbn [strip_common].
    apply Forall_cons in HT as [[Ht _] _]. by rewrite bool_decide_eq_false_2.
  - apply Forall_cons in HB as [[Hb Hbn] HB]. destruct T as [| t T].
    { exists preb, pret. cbn [strip_common]. by rewrite bool_decide_eq_false_2 by (unfold head_or_nil; simpl; congruence). }
    apply Forall_cons in HT as [[Ht Htn] HT]. cbn [strip_common head_or_nil].
    destruct (bool_decide_reflect (b = t)) as [-> | Hbt].
    + rewrite bool_decide_eq_true_2 by done. cbn [negb].
      destruct (next_comp preb t B) as [Eb' ->]. destruct (next_comp pret t T) as [Et' ->].
      rewrite Eb', Et'. apply IH; [done | done | congruence | simpl in Hf; lia].
    + rewrite bool_decide_eq_false_2 by (unfold head_or_nil; simpl; congruence). by exists preb, pret.
Qed.

Lemma count_seps_panics base : forall k i seps, (i + k = S (length base))%nat -> (1 <= k)%nat -> count_seps k base i seps = Panic.
Proof.
  induction k as [| k IH]; intros i seps Hi Hk; [lia |]. cbn [count_seps]. unfold at_.
  destruct (base !! i) as [c |] eqn:E; [| done]. apply lookup_lt_Some in E. rewrite bind_ret. apply IH; lia.
Qed.

Lemma strip_common_app B T : exists P, B = P ++ (strip_common B T).1 /\ T = P ++ (strip_common B T).2.
Proof.
  revert T. induction B as [| b B IH]; intros T; [by exists [] |]. destruct T as [| t T]; [by exists [] |].
  simpl. destruct (bool_decide_reflect (b = t)) as [-> | _]; [| by exists []].
  destruct (IH T) as (P & E1 & E2). exists (t :: P). simpl. by rewrite <- E1, <- E2.
Qed.

Definition rootpart (rooted : bool) : str := if rooted then [SLASH] else [].

(** The loop of [Rel] on two cleaned paths of the same kind. *)
Lemma Rel_loop_run rooted B T : Forall comp B -> Forall comp T -> B <> T ->
  let base := rootpart rooted ++ join B in let targ := rootpart rooted ++ join T in
  exists qb qt, let '(B', T') := strip_common B T in
    Rel_loop (S (length base + length targ)) base targ 0 0 0 0
      = Ret (length qb, (length qb + length (head_or_nil B'))%nat, length qt) /\
    base = qb ++ join B' /\ targ = qt ++ join T'.
Proof.
  intros HB HT Hne base targ.
  assert (Hl : (length B <= length (join B))%nat).
  { clear -HB. induction HB as [| x l [Hx _] _ IH]; [done |]. rewrite join_cons, !length_app.
    destruct x; [done |]. simpl. lia. }
  destruct rooted; [| apply (Rel_loop_spec B T [] []); [done | done | done |]].
  - subst base targ. cbn [rootpart app length]. cbn [Rel_loop].
    assert (Ets : forall s, to_slash (S (length (SLASH :: s))) (SLASH :: s) 0 = Ret 0%nat) by done.
    change (S (length (join B))) with (length (SLASH :: join B)).
    rewrite !Ets, !bind_ret.
    apply (Rel_loop_spec B T [SLASH] [SLASH]); [done | done | done |]. simpl. lia.
  - subst base. simpl. lia.
Qed.

(** * Rel *)

(** The components of the target as [Rel] sees them: [Clean] writes the empty relative
    path as a dot. *)
Definition targ_comps (t : str) : list str :=
  if IsAbs t then normalize t else match normalize t with [] => [lit "."] | T => T end.

(** What [Rel] computes; [None] is a panic. *)
Definition rel_ref (b t : str) : option (Result str) :=
  if bool_decide (render (IsAbs t) (normalize t) = render (IsAbs b) (normalize b)) then Some (Ok (lit "."))
  else if negb (Bool.eqb (IsAbs b) (IsAbs t)) then Some (Err Common)
  else match strip_common (normalize b) (targ_comps t) with
       | ([], T') => Some (Ok (join T'))
       | (x :: _, _) => if bool_decide (x = lit "..") then Some (Err Common) else None
       end.

Lemma normalize_comp p : Forall comp (normalize p).
Proof. eapply Forall_impl; [apply normalize_comps |]. by intros x (H1 & _ & H2). Qed.

Lemma targ_comp t : Forall comp (targ_comps t).
Proof.
  unfold targ_comps. pose proof (normalize_comp t). destruct (IsAbs t); [done |]. case_match; [| done].
  repeat constructor; [done |]. by apply (bool_decide_unpack _); vm_compute.
Qed.

Lemma base_text b : (if bool_decide (render (IsAbs b) (normalize b) = lit ".") then [] else render (IsAbs b) (normalize b))
  = rootpart (IsAbs b) ++ join (normalize b).
Proof.
  pose proof (normalize_comps b) as H. unfold render, rootpart. destruct (IsAbs b); [done |].
  destruct (normalize b) as [| x l]; [done |]. rewrite bool_decide_eq_false_2; [done |].
  intros E. apply (f_equal split) in E. rewrite split_join in E; [| done |].
  - apply Forall_cons in H as [(_ & H & _) _]. by injection E as -> _.
  - eapply Forall_impl; [exact H |]. naive_solver.
Qed.

Lemma targ_text t : render (IsAbs t) (normalize t) = rootpart (IsAbs t) ++ join (targ_comps t).
Proof. unfold render, targ_comps, rootpart. destruct (IsAbs t); [done |]. by case_match. Qed.

Lemma comps_differ b t : IsAbs b = IsAbs t -> render (IsAbs t) (normalize t) <> render (IsAbs b) (normalize b) ->
  normalize b <> targ_comps t.
Proof.
  intros Ea Hne E. apply Hne. unfold targ_comps in E. rewrite Ea. destruct (IsAbs t); [by rewrite E |].
  destruct (normalize t) as [| x l] eqn:En; [| by rewrite E].
  pose proof (normalize_comps b) as H. rewrite E in H. apply Forall_cons in H as [(_ & H & _) _]. done.
Qed.

Lemma head_dd B : bool_decide (head_or_nil B = lit "..") = match B with [] => false | x :: _ => bool_decide (x = lit "..") end.
Proof. by destruct B. Qed.

(** The part of [Rel] after the checks. *)
Lemma Rel_walk b t : utf8 t = true -> IsAbs b = IsAbs t -> normalize b <> targ_comps t ->
  let base := rootpart (IsAbs b) ++ join (normalize b) in
  let targ := rootpart (IsAbs t) ++ join (targ_comps t) in
  ('(b0, bi, t0) ← Rel_loop (S (length base + length targ)) base targ 0 0 0 0;
   bseg ← bslice base b0 bi;
   if bool_decide (bseg = lit "..") then Ret (Err Common)
   else if negb (b0 =? length base)%nat then
     seps ← count_seps (length base + 1 - b0) base b0 0;
     s ← Rel_up targ t0 seps; Ret (Ok s)
   else rest ← bslice targ t0 (length targ); s ← from_utf8 rest; Ret (Ok s)) =
  match strip_common (normalize b) (targ_comps t) with
  | ([], T') => Ret (Ok (join T'))
  | (x :: _, _) => if bool_decide (x = lit "..") then Ret (Err Common) else Panic
  end.
Proof.
  intros Ht Ea Hne base targ.
  destruct (Rel_loop_run (IsAbs t) _ _ (normalize_comp b) (targ_comp t) Hne) as (qb & qt & H).
  pose proof (strip_common_app (normalize b) (targ_comps t)) as (P & EB & ET).
  unfold base, targ. rewrite Ea. destruct (strip_common (normalize b) (targ_comps t)) as [B' T']. cbn [fst snd] in EB, ET.
  destruct H as (-> & Eb & Et). rewrite bind_ret, Eb, Et.
  destruct (join_head B') as (rest & Ej & _). rewrite Ej, bslice_app, bind_ret, <- Ej, head_dd.
  destruct B' as [| x B'].
  - rewrite !length_app. change (length (join [])) with 0%nat. rewrite Nat.add_0_r, Nat.eqb_refl. cbn [negb].
    pose proof (bslice_app qt (join T') []) as Es. rewrite (right_id_L [] (++)) in Es. rewrite Es, bind_ret.
    unfold from_utf8. replace (utf8 (join T')) with true; [done |]. symmetry. apply utf8_join.
    assert (HT : Forall (fun c => utf8 c = true) (targ_comps t)).
    { apply normalize_utf8 in Ht. unfold targ_comps. destruct (IsAbs t); [done |]. case_match; [by repeat constructor | done]. }
    rewrite ET in HT. by apply Forall_app in HT as [_ HT].
  - destruct (bool_decide (x = lit "..")); [done |].
    assert (Hx : (0 < length (join (x :: B')))%nat).
    { pose proof (normalize_comp b) as H. rewrite EB in H. apply Forall_app in H as [_ [[Hx _] _]%Forall_cons].
      rewrite join_cons, length_app. destruct x; [done | simpl; lia]. }
    rewrite length_app. destruct (Nat.eqb_spec (length qb) (length qb + length (join (x :: B')))); [lia |]. cbn [negb].
    rewrite count_seps_panics; [done | rewrite length_app; lia | lia].
Qed.

Lemma Rel_eq b t : utf8 b = true -> utf8 t = true ->
  Rel b t = match rel_ref b t with Some r => Ret r | None => Panic end.
Proof.
  intros Hb Ht. unfold Rel, VolumeName, volumeNameLen, rel_ref.
  change (slice b 0 0) with (bslice b 0 0). change (slice t 0 0) with (bslice t 0 0).
  rewrite (bslice_app [] [] b : bslice b 0 0 = Ret []), (bslice_app [] [] t : bslice t 0 0 = Ret []), !bind_ret.
  rewrite !Clean_eq by done. rewrite !bind_ret.
  destruct (bool_decide_reflect (render (IsAbs t) (normalize t) = render (IsAbs b) (normalize b))) as [E | E]; [done |].
  assert (Ebs : forall s : str, bslice s (length (@nil Z)) (length s) = Ret s).
  { intros s. pose proof (bslice_app [] s []) as H. by rewrite (right_id_L [] (++)) in H. }
  rewrite !Ebs, !bind_ret. cbv zeta. rewrite base_text, targ_text.
  assert (Hsb : forall r l, Forall comp l -> IsSlashed (rootpart r ++ join l) = r).
  { clear. intros r l H. destruct r; [done |]. destruct l as [| x l]; [done |]. rewrite join_cons. apply Forall_cons in H as [[Hx Hn] _].
    destruct x as [| c x]; [done |]. simpl. apply Z.eqb_neq. intros ->. apply Hn. left. }
  rewrite (Hsb _ _ (normalize_comp b)), (Hsb _ _ (targ_comp t)). rewrite (bool_decide_eq_true_2 ([] = [])) by done.
  rewrite orb_false_r. destruct (Bool.eqb (IsAbs b) (IsAbs t)) eqn:Ea; [| done]. apply eqb_prop in Ea. cbn [negb].
  rewrite Rel_walk by (done || by apply comps_differ). destruct (strip_common _ _) as [[| x B'] T']; [done |].
  by destruct (bool_decide (x = lit "..")).
Qed.

Lemma pushes_normalize p : pushes (IsAbs p) [] (normalize p) = reverse (normalize p).
Proof.
  destruct (normalize_ok p) as (k & names & Hs). apply pushes_stack in Hs. by rewrite reverse_involutive in Hs.
Qed.

(** Joining what [Rel] returns to the base gives the target. *)
Lemma rel_ref_join b t s : utf8 b = true -> utf8 t = true -> b <> [] -> rel_ref b t = Some (Ok s) -> Join b s = Clean t.
Proof.
  intros Hb Ht Hne. unfold rel_ref.
  destruct (bool_decide_reflect (render (IsAbs t) (normalize t) = render (IsAbs b) (normalize b))) as [E | E].
  { intros [=<-]. rewrite (Clean_eq t), E, <- Clean_eq by done. apply Join_same; try done. }
  destruct (Bool.eqb (IsAbs b) (IsAbs t)) eqn:Ea; [| done]. apply eqb_prop in Ea. cbn [negb].
  pose proof (comps_differ b t Ea E) as Hd. destruct (strip_common_app (normalize b) (targ_comps t)) as (P & EB & ET).
  destruct (strip_common _ _) as [[| x B'] T']; [| by case_bool_decide]. cbn [fst snd] in EB, ET. rewrite (right_id_L [] (++)) in EB.
  intros [=<-]. subst P.
  assert (HT0 : T' <> []) by (intros ->; by rewrite (right_id_L [] (++)) in ET).
  assert (HT : Forall comp T') by (pose proof (targ_comp t) as H; rewrite ET in H; by apply Forall_app in H as [_ H]).
  assert (HTu : Forall (fun c => utf8 c = true) (targ_comps t)).
  { pose proof (normalize_utf8 t Ht). unfold targ_comps. destruct (IsAbs t); [done |]. case_match; [by repeat constructor | done]. }
  apply Join_same; [done | done | | done | done |].
  - apply utf8_join. rewrite ET in HTu. by apply Forall_app in HTu as [_ HTu].
  - rewrite split_join; [| done | eapply Forall_impl; [exact HT |]; by intros x []].
    assert (Eb : pushes (IsAbs t) [] (split b) = pushes (IsAbs t) [] (normalize b)).
    { rewrite <- Ea, pushes_normalize. unfold normalize. by rewrite reverse_involutive. }
    rewrite Eb, <- pushes_app, <- ET. transitivity (reverse (normalize t)); [| unfold normalize; by rewrite reverse_involutive].
    unfold targ_comps. pose proof (pushes_normalize t) as Hp. destruct (IsAbs t) eqn:Ha; [done |].
    by destruct (normalize t).
Qed.

(** C37: [Rel] on valid paths, exactly: a dot for equal paths, an error if only one path is
    absolute, the remaining components of the target if the base is a prefix of it, and
    otherwise an error if the next component of the base is [..] and a panic if it is a
    name.  A path that is returned gives the target when it is joined to the (non-empty)
    base. *)
Theorem Rel_spec b t : utf8 b = true -> utf8 t = true ->
  Rel b t = match rel_ref b t with Some r => Ret r | None => Panic end /\
  (b <> [] -> forall s, rel_ref b t = Some (Ok s) -> Join b s = Clean t).
Proof. intros Hb Ht. split; [by apply Rel_eq |]. intros Hne s. by apply rel_ref_join. Qed.

Lemma Rel_witness : Rel (lit "/a/./b/") (lit "/a/b/c/d") = Ret (Ok (lit "c/d")) /\ Rel (lit "/a/b") (lit "/a/c") = Panic.
Proof.
  rewrite (proj1 (Rel_spec (lit "/a/./b/") (lit "/a/b/c/d") eq_refl eq_refl)).
  rewrite (proj1 (Rel_spec (lit "/a/b") (lit "/a/c") eq_refl eq_refl)). split; reflexivity.
Defined.

(** * Comparing paths as strings *)

(** What follows a valid prefix. *)
Lemma utf8_after p : forall k, utf8 p = true -> utf8 (p ++ k) = utf8 k.
Proof.
  remember (length p) as n eqn:Hn. revert p Hn. induction (lt_wf n) as [n _ IH]. intros p -> k.
  assert (Hk : forall p', (length p' < length p)%nat -> utf8 p' = true -> utf8 (p' ++ k) = utf8 k)
    by (intros p' Hl; by apply (IH _ Hl)). clear IH.
  destruct p as [| a [| b [| c [| d p]]]]; simpl in *; try zcase; try done.
  - apply (Hk [b]). simpl. lia.
  - by destruct (lead2 a && cont b).
  - apply (Hk [b; c]). simpl. lia.
  - destruct (lead2 a && cont b); [apply (Hk [c]); simpl; lia |]. by destruct (lead3 a b && cont c).
  - apply (Hk (b :: c :: d :: p)). simpl. lia.
  - destruct (lead2 a && cont b); [apply (Hk (c :: d :: p)); simpl; lia |].
    destruct (lead3 a b && cont c); [apply (Hk (d :: p)); simpl; lia |].
    destruct (lead4 a b && cont c && cont d); [apply Hk; lia | done].
Qed.

Lemma HasPrefix_eq s p : HasPrefix s p =
  if (length p <=? length s)%nat && negb (is_char_boundary s (length p)) then Panic
  else Ret (bool_decide (take (length p) s = p)).
Proof.
  unfold HasPrefix. destruct (Nat.leb_spec (length p) (length s)) as [Hl | Hl]; cbn [andb].
  - unfold slice. replace (is_char_boundary s 0) with true by done. destruct (is_char_boundary s (length p)); [| done].
    cbn [andb negb]. unfold bslice. destruct (Nat.leb_spec (length p) (length s)); [| lia]. simpl.
    by rewrite Nat.sub_0_r, drop_0.
  - rewrite bool_decide_eq_false_2; [done |]. rewrite take_ge by lia. intros ->. lia.
Qed.

(** [HasPrefix] decides whether one valid string is a prefix of another, except that it
    panics if the length of the prefix falls inside a character of the string: the
    extended attribute name [user] followed by an accented letter and tested for [user.]
    is such a name. *)
Theorem HasPrefix_spec s p : utf8 p = true -> utf8 s = true ->
  HasPrefix s p = (if (length p <=? length s)%nat && negb (is_char_boundary s (length p)) then Panic
                   else Ret (bool_decide (p `prefix_of` s))) /\
  (p `prefix_of` s -> HasPrefix s p = Ret true) /\
  HasPrefix (lit "user" ++ [195; 169]) (lit "user.") = Panic.
Proof.
  intros Hp Hs. assert (E : bool_decide (take (length p) s = p) = bool_decide (p `prefix_of` s)).
  { apply bool_decide_ext. split; [intros <-; by apply prefix_take | intros [k ->]; by rewrite take_app_length]. }
  rewrite HasPrefix_eq, E. split_and!; [done | | reflexivity]. intros Hk. rewrite (bool_decide_eq_true_2 _ Hk).
  destruct Hk as [k ->]. rewrite utf8_after in Hs by done. by rewrite is_char_boundary_app, andb_false_r.
Qed.

Lemma HasPrefix_witness : HasPrefix (lit "user.mime") (lit "user.") = Ret true.
Proof. apply (HasPrefix_spec (lit "user.mime") (lit "user.")); [reflexivity | reflexivity | by exists (lit "mime")]. Defined.

(** [IsSubpath] compares bytes, not components: [/foobar] is reported as a descendant
    of [/foo], the path it returns is not a clean relative one, and nothing is ever
    reported as a descendant of the root. *)
Theorem IsSubpath_wrong :
  IsSubpath (lit "/foobar") (lit "/foo") = Ret (lit "bar", true) /\
  IsSubpath (lit "/foo/bar") (lit "/foo") = Ret (lit "/bar", true) /\
  (forall sub, utf8 sub = true -> IsSubpath sub (lit "/") = Ret ([], false) \/ IsSubpath sub (lit "/") = Panic).
Proof.
  split_and!; [reflexivity | reflexivity |]. intros sub Hu. unfold IsSubpath.
  change (Clean (lit "/")) with (Ret (lit "/")). rewrite bind_ret, Clean_eq, bind_ret by done. cbv zeta.
  match goal with |- context [if ?b then lit "/" ++ lit "/" else lit "/"] => change (if b then lit "/" ++ lit "/" else lit "/") with [SLASH; SLASH] end.
  set (out := render (IsAbs sub) (normalize sub)).
  assert (Hn : ~ [SLASH; SLASH] `prefix_of` out).
  { intros [k E]. unfold out in E. rewrite targ_text in E. pose proof (targ_comp sub) as Ht.
    destruct (targ_comps sub) as [| x l]; [by destruct (IsAbs sub) |].
    apply Forall_cons in Ht as [[Hx Hns] _]. rewrite join_cons in E. destruct x as [| c x]; [done |].
    apply Hns. destruct (IsAbs sub); simplify_eq/=; left. }
  rewrite bool_decide_eq_false_2 by (intros E; apply Hn; by exists []). rewrite HasPrefix_eq.
  destruct (_ && _); [by right |]. left. rewrite bool_decide_eq_false_2; [done |].
  intros E. apply Hn. rewrite <- E. apply prefix_take.
Qed.

(** * Base *)

Lemma Base_end_slashes t c n k : c <> SLASH ->
  Base_end (length t + n) ((t ++ [c]) ++ replicate n SLASH ++ k) = Ret (Some (length t)).
Proof.
  intros Hc. revert k. induction n as [| n IH]; intros k.
  - rewrite Nat.add_0_r. cbn [replicate app]. rewrite <- (assoc_L (++)). cbn [app].
    destruct (length t) eqn:El; cbn [Base_end]; rewrite <- El, at_app, bind_ret; (destruct (Z.eqb_spec c SLASH); [done | done]).
  - rewrite Nat.add_succ_r. cbn [Base_end].
    assert (E : (t ++ [c]) ++ replicate (S n) SLASH ++ k = (t ++ [c]) ++ replicate n SLASH ++ SLASH :: k).
    { by rewrite replicate_S_end, <- !(assoc_L (++)). }
    assert (Hat : at_ ((t ++ [c]) ++ replicate n SLASH ++ SLASH :: k) (S (length t + n)) = Ret SLASH).
    { rewrite (assoc_L (++)). replace (S (length t + n)) with (length ((t ++ [c]) ++ replicate n SLASH)); [apply at_app |].
      rewrite !length_app, length_replicate. simpl. lia. }
    rewrite E, Hat, bind_ret. apply IH.
Qed.

Lemma Base_end_all n k : Base_end n (replicate (S n) SLASH ++ k) = Ret None.
Proof.
  revert k. induction n as [| n IH]; intros k; [done |]. cbn [Base_end].
  replace (replicate (S (S n)) SLASH ++ k) with (replicate (S n) SLASH ++ SLASH :: k)
    by (by rewrite (replicate_S_end (S n)), <- (assoc_L (++))).
  pose proof (at_app (replicate (S n) SLASH) SLASH k) as Hat. rewrite length_replicate in Hat.
  rewrite Hat, bind_ret. apply IH.
Qed.

(** [Base_start] stops behind the last slash of the prefix. *)
Lemma Base_start_spec a f k : no_slash f -> at_end (reverse a) ->
  Base_start (length a + length f) (a ++ f ++ k) = Ret (length a).
Proof.
  revert k. induction f as [| c f IH] using rev_ind; intros k Hn Ha.
  - rewrite Nat.add_0_r. destruct a as [| x a _] using rev_ind; [done |].
    rewrite reverse_app in Ha. simpl in Ha. subst x. rewrite length_app, Nat.add_1_r. cbn [Base_start].
    rewrite <- (assoc_L (++)). cbn [app]. rewrite at_app, bind_ret. cbn. f_equal. lia.
  - apply no_slash_snoc in Hn as [Hn Hc]. rewrite length_app, Nat.add_1_r, Nat.add_succ_r. cbn [Base_start].
    assert (Hat : at_ ((a ++ f) ++ c :: k) (length a + length f) = Ret c) by (rewrite <- length_app; apply at_app).
    rewrite <- (assoc_L (++) f), (assoc_L (++) a). cbn [app]. rewrite Hat, bind_ret.
    destruct (Z.eqb_spec c SLASH); [done |]. rewrite <- (assoc_L (++)). by apply IH.
Qed.

(** The last component that is not empty. *)
Definition last_comp (path : str) : option str := last (filter (fun c => c <> []) (split path)).

Lemma filter_slashes n : filter (fun c : str => c <> []) (split (replicate n SLASH)) = [].
Proof. induction n as [| n IH]; [done |]. simpl. by rewrite filter_cons_False by auto. Qed.

Lemma last_comp_snoc a f n : f <> [] -> no_slash f -> at_end (reverse a) ->
  last_comp ((a ++ f) ++ replicate n SLASH) = Some f.
Proof.
  intros Hf Hn Ha. unfold last_comp.
  assert (E : filter (fun c : str => c <> []) (split ((a ++ f) ++ replicate n SLASH)) = filter (fun c : str => c <> []) (split (a ++ f))).
  { destruct n as [| n]; cbn [replicate]; [by rewrite (right_id_L [] (++)) |].
    by rewrite split_app_slash, filter_app, filter_slashes, (right_id_L [] (++)). }
  rewrite E. destruct a as [| x a _] using rev_ind.
  - rewrite split_no_slash by done. by rewrite filter_cons_True.
  - rewrite reverse_app in Ha. simpl in Ha. subst x. rewrite <- (assoc_L (++)). cbn [app].
    rewrite split_app_slash, (split_no_slash f), filter_app, filter_cons_True by done. by rewrite last_app.
Qed.

(** [Base] returns the last component of a path that is not empty, except that it
    returns a slash, as for the root, for a component of one byte. *)
Theorem Base_spec path : utf8 path = true ->
  Base path = Ret (match path, last_comp path with
                   | [], _ => lit "."
                   | _, None => lit "/"
                   | _, Some c => if (length c =? 1)%nat then lit "/" else c
                   end).
Proof.
  intros Hu. destruct (decide (path = [])) as [-> | Hne]; [done |]. unfold Base. rewrite bool_decide_eq_false_2 by done.
  replace (match path with [] => lit "." | _ => _ end)
    with (match last_comp path with None => lit "/" | Some c => if (length c =? 1)%nat then lit "/" else c end) by (by destruct path).
  destruct (trim_split path Hne) as (t & n & -> & Ht).
  destruct (decide (t = lit "/")) as [-> | Hroot].
  - rewrite length_app, length_replicate. cbn [lit length]. change (lit "/" ++ replicate n SLASH) with (replicate (S n) SLASH).
    pose proof (Base_end_all n []) as E. rewrite (right_id_L [] (++)) in E. simpl Nat.sub. rewrite Nat.sub_0_r, E, bind_ret.
    unfold last_comp. by rewrite filter_slashes.
  - assert (Hc : exists c t', t = t' ++ [c] /\ c <> SLASH).
    { destruct Ht as [Ht | ?]; [| done]. destruct t as [| c [| ]]; try done. exists c, []. split; [done |]. intros ->. by apply Hroot. }
    destruct Hc as (c & t' & -> & Hc). rewrite utf8_trim in Hu.
    assert (Hs : exists a f, t' ++ [c] = a ++ f /\ no_slash f /\ at_end (reverse a) /\ f <> [] /\ utf8 f = true).
    { destruct (last_slash (t' ++ [c])) as [Hn | (a & f & E & Hn)].
      - exists [], (t' ++ [c]). split_and!; [done | done | done | by destruct t' | done].
      - exists (a ++ [SLASH]), f. rewrite E, utf8_slash in Hu. apply andb_true_iff in Hu as [_ Hf].
        split_and!; [by rewrite E, <- (assoc_L (++)) | done | by rewrite reverse_app | | done].
        intros ->. by apply app_inj_tail in E as [_ ->]. }
    destruct Hs as (a & f & E & Hn & Ha & Hf & Huf). rewrite E, last_comp_snoc by done.
    assert (Hl : length (a ++ f) = S (length t')) by (rewrite <- E, length_app; simpl; lia).
    rewrite (length_app (a ++ f)), length_replicate, Hl. replace (S (length t') + n - 1)%nat with (length t' + n)%nat by lia.
    pose proof (Base_end_slashes t' c n [] Hc) as Ee. rewrite (right_id_L [] (++)), E in Ee. rewrite Ee, bind_ret.
    destruct f as [| y f _] using rev_ind; [done |]. apply no_slash_snoc in Hn as [Hn Hy].
    assert (Hl' : length t' = (length a + length f)%nat) by (rewrite !length_app in Hl; simpl in Hl; lia).
    pose proof (Base_start_spec a f ([y] ++ replicate n SLASH) Hn Ha) as Es. rewrite <- Hl' in Es.
    replace (a ++ f ++ [y] ++ replicate n SLASH) with ((a ++ f ++ [y]) ++ replicate n SLASH) in Es by (by rewrite <- !(assoc_L (++))).
    rewrite Es, bind_ret. rewrite (length_app f). simpl. 
    destruct (Nat.eqb_spec (length a) (length t')), (Nat.eqb_spec (length f + 1) 1); [done | lia | lia |].
    rewrite <- (assoc_L (++)). replace (length t' + 1)%nat with (length a + length (f ++ [y]))%nat by (rewrite length_app; simpl; lia).
    apply slice_app; [by rewrite utf8_trim | apply utf8_replicate].
Qed.

Lemma Base_witness : Base (lit "/usr/bin//") = Ret (lit "bin") /\ Base (lit "/usr/a") = Ret (lit "/").
Proof. rewrite (Base_spec (lit "/usr/bin//") eq_refl), (Base_spec (lit "/usr/a") eq_refl). split; reflexivity. Defined.
