(* ===== verification/Mem.v ===== *)
(** Byte memory behind raw pointers.  An access to an address that is not mapped is
    undefined behaviour in the source and [Panic] here, so a theorem that an operation
    returns shows that every access is to mapped memory. *)
From S2P Require Import Prelude.
#[local] Open Scope Z_scope.

Abbreviation Mem := (gmap Z Z) (only parsing).

(** [n] bytes from [a] on. *)
Fixpoint load (mem : Mem) (a : Z) (n : nat) : outcome (list Z) :=
  match n with
  | O => Ret []
  | S n' =>
      match mem !! a with
      | Some b => l ← load mem (a + 1) n'; Ret (b :: l)
      | None => Panic
      end
  end.

Fixpoint store_bytes (mem : Mem) (a : Z) (l : list Z) : outcome Mem :=
  match l with
  | [] => Ret mem
  | b :: l' =>
      match mem !! a with
      | Some _ => store_bytes (<[a := b]> mem) (a + 1) l'
      | None => Panic
      end
  end.

(** The memory holds [l] from [a] on. *)
Definition region (mem : Mem) (a : Z) (l : list Z) : Prop :=
  forall (i : nat) b, l !! i = Some b -> mem !! (a + Z.of_nat i) = Some b.

Lemma region_cons mem a b l : region mem a (b :: l) <-> mem !! a = Some b /\ region mem (a + 1) l.
Proof.
  unfold region. split.
  - intros H. split; [by rewrite <- (H 0%nat b eq_refl), Z.add_0_r |].
    intros i c Hc. rewrite <- (H (S i) c Hc). f_equal. lia.
  - intros [H1 H2] [| i] c Hc; simpl in Hc.
    + injection Hc as <-. by rewrite Z.add_0_r.
    + rewrite <- (H2 i c Hc). f_equal. lia.
Qed.

Lemma region_nil mem a : region mem a [].
Proof. intros i b. by rewrite lookup_nil. Qed.

Lemma region_app mem a l1 l2 : region mem a (l1 ++ l2) <-> region mem a l1 /\ region mem (a + Z.of_nat (length l1)) l2.
Proof.
  revert a. induction l1 as [| b l1 IH]; intros a; simpl.
  - rewrite Z.add_0_r. split; [intros H; split; [apply region_nil | done] | tauto].
  - rewrite !region_cons, IH. replace (a + 1 + Z.of_nat (length l1)) with (a + Z.of_nat (S (length l1))) by lia. tauto.
Qed.

Lemma load_region mem a l : region mem a l -> load mem a (length l) = Ret l.
Proof.
  revert a. induction l as [| b l IH]; intros a H; [done |]. apply region_cons in H as [H1 H2].
  simpl. by rewrite H1, (IH _ H2).
Qed.

(** A store replaces the region and leaves every other address. *)
Lemma store_region mem a l old : region mem a old -> length l = length old -> exists mem',
  store_bytes mem a l = Ret mem' /\ region mem' a l /\
  (forall x, ~ (a <= x < a + Z.of_nat (length l)) -> mem' !! x = mem !! x).
Proof.
  revert mem a old. induction l as [| b l IH]; intros mem a old Hr Hl; destruct old as [| o old]; try done.
  - exists mem. split_and!; [done | apply region_nil | done].
  - apply region_cons in Hr as [H1 H2]. simpl. rewrite H1.
    destruct (IH (<[a := b]> mem) (a + 1) old) as (mem' & E & Hr' & Hf); [| simpl in Hl; lia |].
    { intros i c Hc. rewrite lookup_insert_ne by lia. by apply H2. }
    exists mem'. split_and!; [done | |].
    + apply region_cons. split; [| done]. rewrite Hf by lia. apply lookup_insert_eq.
    + intros x Hx. rewrite Hf by (simpl in Hx; lia). apply lookup_insert_ne. simpl in Hx. lia.
Qed.

Lemma region_frame mem mem' a l b n : region mem a l ->
  (forall x, ~ (b <= x < b + n) -> mem' !! x = mem !! x) ->
  a + Z.of_nat (length l) <= b \/ b + n <= a -> region mem' a l.
Proof.
  intros Hr Hf Hd i c Hc. pose proof (lookup_lt_Some _ _ _ Hc). rewrite Hf by lia. by apply Hr.
Qed.

(** A memory that holds just [l] at [a]. *)
Definition memory (a : Z) (l : list Z) : Mem := list_to_map (zip (seqZ a (Z.of_nat (length l))) l).

Lemma memory_region (l : list Z) a : region (memory a l) a l.
Proof.
  unfold memory. revert a. induction l as [| b l IH]; intros a; [apply region_nil |].
  cbn [length]. rewrite Nat2Z.inj_succ, seqZ_cons by lia. rewrite Z.pred_succ. cbn [zip zip_with list_to_map fst snd foldr].
  apply region_cons. split; [apply lookup_insert_eq |]. intros i c Hc.
  rewrite lookup_insert_ne by lia. rewrite <- (IH (Z.succ a) i c Hc). done.
Qed.
