(* ===== verification/RingBuf.v ===== *)
(** The socket byte stream: [SocketBufIovs], [RingBuf] and [ByteStreamIntern] of
    qlib/bytestream.rs.

    [buf] is the address of the ring in [Mem]; [headtail] and [waitingRW] are the two
    counters and the two flags.  A [u32] counter wraps, and so does [usize]
    subtraction.  Each method is split where the code publishes its progress ([store] to
    a counter), so that [RingSpsc] can run a reader and a writer interleaved. *)
From S2P Require Import Prelude Range Path Mem.
#[local] Open Scope Z_scope.
#[local] Open Scope u64_scope.

Definition B32 : Z := 4294967296.
Definition wrap32 (z : Z) : Z := z mod B32.

(** * SocketBufIovs *)

Record IoVec : Type := mkIoVec { iov_start : Z; iov_len : Z }.

(** [iovs: [IoVec; 2]] and [cnt: u32]. *)
Record SocketBufIovs : Type := mkIovs { iov0 : IoVec; iov1 : IoVec; iov_cnt : Z }.

Definition IoVec_default : IoVec := mkIoVec 0 0.
Definition Iovs_default : SocketBufIovs := mkIovs IoVec_default IoVec_default 0.

Definition Iovs_New (iovs : list IoVec) : Result SocketBufIovs :=
  match iovs with
  | [] => Ok (mkIovs IoVec_default IoVec_default 0)
  | [a] => Ok (mkIovs a IoVec_default 1)
  | [a; b] => Ok (mkIovs a b 2)
  | _ => Err (SysError EINVAL)
  end.

(** [&buf[0]] panics for an empty buffer. *)
Definition NewFromBuf (addr len : Z) : outcome SocketBufIovs :=
  if len =? 0 then Panic else Ret (mkIovs (mkIoVec addr len) IoVec_default 1).

(** [self.iovs[i]] for [i] in [0..cnt]. *)
Definition Iovs_Iovs (s : SocketBufIovs) : outcome (list IoVec) :=
  if iov_cnt s =? 0 then Ret []
  else if iov_cnt s =? 1 then Ret [iov0 s]
  else if iov_cnt s =? 2 then Ret [iov0 s; iov1 s]
  else Panic.

Definition Iovs_Count (s : SocketBufIovs) : outcome Z :=
  l ← Iovs_Iovs s; Ret (foldl (fun n v => n +w iov_len v) 0 l).

Definition Iovs_Consume (s : SocketBufIovs) (size : Z) : outcome SocketBufIovs :=
  count ← Iovs_Count s;
  if count <? size then Panic
  else if size <? iov_len (iov0 s) then
    Ret (mkIovs (mkIoVec (iov_start (iov0 s) +w size) (iov_len (iov0 s) -w size)) (iov1 s) (iov_cnt s))
  else if iov_len (iov0 s) =? size then
    Ret (mkIovs (iov1 s) (iov1 s) (wrap32 (iov_cnt s - 1)))
  else
    Ret (mkIovs (mkIoVec (iov_start (iov1 s) +w (size -w iov_len (iov0 s))) (count -w size)) (iov1 s) 1).

Definition ReadVec (mem : Mem) (s : SocketBufIovs) (size : Z) : outcome (SocketBufIovs * list Z) :=
  count ← Iovs_Count s;
  if count <? size then Panic
  else
    buf ← (if size <=? iov_len (iov0 s) then load mem (iov_start (iov0 s)) (Z.to_nat size)
           else
             first ← load mem (iov_start (iov0 s)) (Z.to_nat (iov_len (iov0 s)));
             second ← load mem (iov_start (iov0 s)) (Z.to_nat (size - iov_len (iov0 s)));
             Ret (first ++ second));
    s ← Iovs_Consume s size;
    Ret (s, buf).

Definition ReadString (mem : Mem) (s : SocketBufIovs) (size : Z)
  : outcome (SocketBufIovs * Result (list Z)) :=
  '(s, buf) ← ReadVec mem s size;
  s ← Iovs_Consume s size;
  Ret (s, if utf8 buf then Ok buf else Err (SysError EINVAL)).

(** Little-endian bytes of an integer. *)
Fixpoint le_bytes (n : nat) (z : Z) : list Z :=
  match n with O => [] | S n' => z mod 256 :: le_bytes n' (z / 256) end.

Fixpoint le_num (l : list Z) : Z := match l with [] => 0 | b :: l' => b + 256 * le_num l' end.

(** [ReadObj::<T>] for an unsigned integer [T] of [size] bytes. *)
Definition ReadObj (mem : Mem) (s : SocketBufIovs) (size : nat) : outcome (SocketBufIovs * Result Z) :=
  datasize ← Iovs_Count s;
  if datasize <? Z.of_nat size then Ret (s, Err (SysError EAGAIN))
  else if Z.of_nat size <=? iov_len (iov0 s) then
    data ← load mem (iov_start (iov0 s)) size;
    s ← Iovs_Consume s (Z.of_nat size);
    Ret (s, Ok (le_num data))
  else
    '(s, buf) ← ReadVec mem s (Z.of_nat size);
    s ← Iovs_Consume s (Z.of_nat size);
    Ret (s, Ok (le_num buf)).

Definition WriteSlice (mem : Mem) (s : SocketBufIovs) (data : list Z)
  : outcome (Mem * SocketBufIovs * Result unit) :=
  let size := Z.of_nat (length data) in
  count ← Iovs_Count s;
  if count <? size then Ret (mem, s, Err (SysError EAGAIN))
  else
    mem ← (if size <=? iov_len (iov0 s) then store_bytes mem (iov_start (iov0 s)) data
           else
             let n := Z.to_nat (iov_len (iov0 s)) in
             mem ← store_bytes mem (iov_start (iov0 s)) (take n data);
             store_bytes mem (iov_start (iov1 s)) (drop n data));
    s ← Iovs_Consume s size;
    Ret (mem, s, Ok tt).

Definition WriteObj (mem : Mem) (s : SocketBufIovs) (size : nat) (z : Z)
  : outcome (Mem * SocketBufIovs * Result unit) := WriteSlice mem s (le_bytes size z).

(** * RingBuf *)

(** [waitingRW[0]] is [rb_waitRead], [waitingRW[1]] is [rb_waitWrite]. *)
Record RingBuf : Type := mkRingBuf {
  rb_buf : Z;
  rb_ringMask : Z;
  rb_head : Z;
  rb_tail : Z;
  rb_waitRead : bool;
  rb_waitWrite : bool;
}.

Definition set_head (r : RingBuf) (h : Z) : RingBuf :=
  mkRingBuf (rb_buf r) (rb_ringMask r) h (rb_tail r) (rb_waitRead r) (rb_waitWrite r).
Definition set_tail (r : RingBuf) (t : Z) : RingBuf :=
  mkRingBuf (rb_buf r) (rb_ringMask r) (rb_head r) t (rb_waitRead r) (rb_waitWrite r).

(** Where counters, flags and buffer come from; the shared variant uses what is in the
    shared memory unless it has to initialise it. *)
Inductive RingeBufAllocator : Type :=
| HeapAllocator
| ShareAllocator (headTailAddr waitingRWAddr bufAddr : Z) (init : bool).

Definition AllocHeadTail (a : RingeBufAllocator) (cur : Z * Z) : Z * Z :=
  match a with
  | HeapAllocator => (0, 0)
  | ShareAllocator _ _ _ init => if init then (0, 0) else cur
  end.

Definition AllocWaitingRW (a : RingeBufAllocator) (cur : bool * bool) : bool * bool :=
  match a with
  | HeapAllocator => (true, false)
  | ShareAllocator _ _ _ init => if init then (true, false) else cur
  end.

Definition IsPowerOfTwo (x : Z) : bool := Z.land x (x -w 1) =? 0.

(** [heap] is the address the global allocator returns. *)
Definition AlllocBuf (a : RingeBufAllocator) (heap : Z) (pageCount : Z) : outcome Z :=
  match a with
  | HeapAllocator => if IsPowerOfTwo pageCount then Ret heap else Panic
  | ShareAllocator _ _ bufAddr _ => Ret bufAddr
  end.

Definition RingBuf_New (pagecount : Z) (a : RingeBufAllocator) (heap : Z) (ht : Z * Z) (rw : bool * bool)
  : outcome RingBuf :=
  let '(head, tail) := AllocHeadTail a ht in
  let '(wr, ww) := AllocWaitingRW a rw in
  buf ← AlllocBuf a heap pagecount;
  Ret (mkRingBuf buf (wrap32 (mul64 pagecount PAGE_SIZE -w 1)) head tail wr ww).

Definition Len (r : RingBuf) : Z := wrap32 (rb_ringMask r + 1).

Definition GetRawBuf (r : RingBuf) : Z * Z := (rb_buf r, Len r).

(** [tail.wrapping_sub(head) as usize] *)
Definition avail_of (head tail : Z) : Z := wrap32 (tail - head).

Definition AvailableDataSize (r : RingBuf) : Z := avail_of (rb_head r) (rb_tail r).
Definition AvailableSpace (r : RingBuf) : Z := Len r -w AvailableDataSize r.

Definition SetWaitingRead (r : RingBuf) : RingBuf :=
  mkRingBuf (rb_buf r) (rb_ringMask r) (rb_head r) (rb_tail r) true (rb_waitWrite r).
Definition SetWaitingWrite (r : RingBuf) : RingBuf :=
  mkRingBuf (rb_buf r) (rb_ringMask r) (rb_head r) (rb_tail r) (rb_waitRead r) true.
Definition ResetWaitingRead (r : RingBuf) : RingBuf * bool :=
  (mkRingBuf (rb_buf r) (rb_ringMask r) (rb_head r) (rb_tail r) false (rb_waitWrite r), rb_waitRead r).
Definition ResetWaitingWrite (r : RingBuf) : RingBuf * bool :=
  (mkRingBuf (rb_buf r) (rb_ringMask r) (rb_head r) (rb_tail r) (rb_waitRead r) false, rb_waitWrite r).

(** [self.Buf()[a..b]] *)
Definition Buf_slice (mem : Mem) (r : RingBuf) (a b : Z) : outcome (list Z) :=
  if (a <=? b) && (b <=? Len r) then load mem (rb_buf r + a) (Z.to_nat (b - a)) else Panic.

(** [self.Buf()[a..a + l.len()].copy_from_slice(l)] *)
Definition Buf_copy (mem : Mem) (r : RingBuf) (a : Z) (l : list Z) : outcome Mem :=
  if a + Z.of_nat (length l) <=? Len r then store_bytes mem (rb_buf r + a) l else Panic.

(** ** Reading *)

(** The copy out of the ring for counters [head] and [tail]: the new contents of the
    caller's buffer and how much was read. *)
Definition read_copy (mem : Mem) (r : RingBuf) (head tail : Z) (buf : list Z) : outcome (list Z * Z) :=
  let available := avail_of head tail in
  let available := if Z.of_nat (length buf) <? available then Z.of_nat (length buf) else available in
  let readpos := Z.land head (rb_ringMask r) in
  let toEnd := Len r -w readpos in
  let '(firstLen, hasSecond) := if toEnd <? available then (toEnd, true) else (available, false) in
  first ← Buf_slice mem r readpos (readpos +w firstLen);
  let buf := first ++ drop (Z.to_nat firstLen) buf in
  buf ← (if hasSecond : bool then
           second ← Buf_slice mem r 0 (available -w firstLen);
           Ret (take (Z.to_nat firstLen) buf ++ second ++ drop (Z.to_nat available) buf)
         else Ret buf);
  Ret (buf, available).

(** What the reader does once it has moved [head]. *)
Definition after_read (r : RingBuf) : RingBuf * bool :=
  let r := if AvailableDataSize r =? 0 then SetWaitingRead r else r in
  ResetWaitingWrite r.

Definition read_commit (r : RingBuf) (head available : Z) : RingBuf * bool :=
  after_read (set_head r (wrap32 (head + wrap32 available))).

(** The state, the caller's buffer, whether a writer waits, and how much was read. *)
Definition read (mem : Mem) (r : RingBuf) (buf : list Z) : outcome (RingBuf * list Z * (bool * Z)) :=
  let head := rb_head r in
  let tail := rb_tail r in
  '(buf, available) ← read_copy mem r head tail buf;
  let '(r, waitingWrite) := read_commit r head available in
  Ret (r, buf, (waitingWrite, available)).

Definition GetReadBuf (r : RingBuf) : option (Z * Z * bool) :=
  let available := AvailableDataSize r in
  if available =? 0 then None
  else
    let readpos := Z.land (rb_head r) (rb_ringMask r) in
    let toEnd := Len r -w readpos in
    if toEnd <? available then Some (rb_buf r +w readpos, toEnd, true)
    else Some (rb_buf r +w readpos, available, false).

Definition GetDataBuf (r : RingBuf) : Z * Z :=
  let available := AvailableDataSize r in
  if available =? 0 then (0, 0)
  else
    let readpos := Z.land (rb_head r) (rb_ringMask r) in
    let toEnd := Len r -w readpos in
    if toEnd <? available then (rb_buf r +w readpos, toEnd) else (rb_buf r +w readpos, available).

(** [&self.Buf()[i] as *const _ as u64] *)
Definition Buf_addr (r : RingBuf) (i : Z) : outcome Z :=
  if i <? Len r then Ret (rb_buf r +w i) else Panic.

Definition PrepareDataIovs (r : RingBuf) (data : SocketBufIovs) : outcome SocketBufIovs :=
  let available := AvailableDataSize r in
  if available =? 0 then Ret (mkIovs (iov0 data) (iov1 data) 0)
  else
    let readPos := Z.land (rb_head r) (rb_ringMask r) in
    let toEnd := Len r -w readPos in
    if toEnd <? available then
      a0 ← Buf_addr r readPos;
      a1 ← Buf_addr r 0;
      Ret (mkIovs (mkIoVec a0 toEnd) (mkIoVec a1 (available -w toEnd)) 2)
    else
      a0 ← Buf_addr r readPos;
      Ret (mkIovs (mkIoVec a0 available) (iov1 data) 1).

Definition Consume (r : RingBuf) (count : Z) : RingBuf * bool :=
  after_read (set_head r (wrap32 (rb_head r + wrap32 count))).

Definition ConsumeWithCheck (r : RingBuf) (count : Z) : RingBuf * Result bool :=
  if AvailableDataSize r <? count then (r, Err (SysError EINVAL))
  else let '(r, trigger) := Consume r count in (r, Ok trigger).

(** ** Writing *)

Definition GetWriteBuf (r : RingBuf) : option (Z * Z * bool) :=
  let available := AvailableDataSize r in
  if available =? Len r then None
  else
    let writePos := Z.land (rb_tail r) (rb_ringMask r) in
    let writeSize := Len r -w available in
    let toEnd := Len r -w writePos in
    if toEnd <? writeSize then Some (rb_buf r +w writePos, toEnd, true)
    else Some (rb_buf r +w writePos, writeSize, false).

Definition GetSpaceBuf (r : RingBuf) : Z * Z :=
  let available := AvailableDataSize r in
  if available =? Len r then (0, 0)
  else
    let writePos := Z.land (rb_tail r) (rb_ringMask r) in
    let writeSize := Len r -w available in
    let toEnd := Len r -w writePos in
    if toEnd <? writeSize then (rb_buf r +w writePos, toEnd) else (rb_buf r +w writePos, writeSize).

Definition PrepareSpaceIovs (r : RingBuf) (data : SocketBufIovs) : outcome SocketBufIovs :=
  let available := AvailableDataSize r in
  if available =? Len r then Ret (mkIovs (iov0 data) (iov1 data) 0)
  else
    let writePos := Z.land (rb_tail r) (rb_ringMask r) in
    let writeSize := Len r -w available in
    let toEnd := Len r -w writePos in
    if toEnd <? writeSize then
      a0 ← Buf_addr r writePos;
      a1 ← Buf_addr r 0;
      Ret (mkIovs (mkIoVec a0 toEnd) (mkIoVec a1 (writeSize -w toEnd)) 2)
    else
      a0 ← Buf_addr r writePos;
      Ret (mkIovs (mkIoVec a0 writeSize) (iov1 data) 1).

(** What the writer does once it has moved [tail]. *)
Definition after_write (r : RingBuf) : RingBuf * bool :=
  let r := if AvailableSpace r =? 0 then SetWaitingWrite r else r in
  ResetWaitingRead r.

Definition Produce (r : RingBuf) (count : Z) : RingBuf * bool :=
  after_write (set_tail r (wrap32 (rb_tail r + wrap32 count))).

Definition ProduceWithCheck (r : RingBuf) (count : Z) : RingBuf * Result bool :=
  if Len r <? AvailableDataSize r +w count then (r, Err (SysError EINVAL))
  else let '(r, trigger) := Produce r count in (r, Ok trigger).

(** The copy into the ring for counters [head] and [tail]. *)
Definition write_copy (mem : Mem) (r : RingBuf) (head tail : Z) (buf : list Z) : outcome (Mem * Z) :=
  let available := avail_of head tail in
  let writePos := Z.land tail (rb_ringMask r) in
  let writeSize := Len r -w available in
  let writeSize := if Z.of_nat (length buf) <? writeSize then Z.of_nat (length buf) else writeSize in
  let toEnd := Len r -w writePos in
  let '(firstLen, hasSecond) := if toEnd <? writeSize then (toEnd, true) else (writeSize, false) in
  mem ← Buf_copy mem r writePos (take (Z.to_nat firstLen) buf);
  mem ← (if hasSecond : bool
         then Buf_copy mem r 0 (take (Z.to_nat (writeSize -w firstLen)) (drop (Z.to_nat firstLen) buf))
         else Ret mem);
  Ret (mem, writeSize).

Definition write_commit (r : RingBuf) (tail writeSize : Z) : RingBuf * bool :=
  after_write (set_tail r (wrap32 (tail + wrap32 writeSize))).

Definition write (mem : Mem) (r : RingBuf) (buf : list Z) : outcome (Mem * RingBuf * (bool * Z)) :=
  let head := rb_head r in
  let tail := rb_tail r in
  '(mem, writeSize) ← write_copy mem r head tail buf;
  let '(r, trigger) := write_commit r tail writeSize in
  Ret (mem, r, (trigger, writeSize)).

(** [from_utf8(buf).unwrap()] for the message of the error path. *)
Definition writeFull (mem : Mem) (r : RingBuf) (buf : list Z)
  : outcome (Mem * RingBuf * Result (bool * Z)) :=
  if AvailableDataSize r <? Z.of_nat (length buf) then
    _ ← from_utf8 buf; Ret (mem, r, Err QueueFull)
  else
    '(mem, r, res) ← write mem r buf; Ret (mem, r, Ok res).

(** * ByteStreamIntern: a ring with the iovecs of its data and of its space *)

Record ByteStreamIntern : Type := mkStream {
  bs_buf : RingBuf;
  bs_dataIovs : SocketBufIovs;
  bs_spaceIovs : SocketBufIovs;
}.

Definition ByteStream_Init (pageCount : Z) (heap : Z) : outcome ByteStreamIntern :=
  if negb (IsPowerOfTwo pageCount) then Panic
  else
    buf ← RingBuf_New pageCount HeapAllocator heap (0, 0) (false, false);
    Ret (mkStream buf Iovs_default Iovs_default).

(** [ht] and [rw] are what the shared memory holds. *)
Definition InitWithShareMemory (pageCount headTailAddr waitingRWAddr bufAddr : Z) (init : bool)
    (ht : Z * Z) (rw : bool * bool) : outcome ByteStreamIntern :=
  if negb (IsPowerOfTwo pageCount) then Panic
  else
    buf ← RingBuf_New pageCount (ShareAllocator headTailAddr waitingRWAddr bufAddr init) 0 ht rw;
    Ret (mkStream buf Iovs_default Iovs_default).

Definition GetDataIovsVec (s : ByteStreamIntern) : outcome (ByteStreamIntern * list IoVec) :=
  d ← PrepareDataIovs (bs_buf s) (bs_dataIovs s);
  l ← Iovs_Iovs d;
  Ret (mkStream (bs_buf s) d (bs_spaceIovs s), l).

Definition GetSpaceIovsVec (s : ByteStreamIntern) : outcome (ByteStreamIntern * list IoVec) :=
  d ← PrepareSpaceIovs (bs_buf s) (bs_spaceIovs s);
  l ← Iovs_Iovs d;
  Ret (mkStream (bs_buf s) (bs_dataIovs s) d, l).

(** [for i in 0..iovs.cnt { iovs.iovs[i].start -= addr }] *)
Definition iovs_minus (addr : Z) (d : SocketBufIovs) : outcome SocketBufIovs :=
  let sub v := mkIoVec (iov_start v -w addr) (iov_len v) in
  if iov_cnt d =? 0 then Ret d
  else if iov_cnt d =? 1 then Ret (mkIovs (sub (iov0 d)) (iov1 d) 1)
  else if iov_cnt d =? 2 then Ret (mkIovs (sub (iov0 d)) (sub (iov1 d)) 2)
  else Panic.

Definition GetDataIovsVecOffset (s : ByteStreamIntern) (iovs : SocketBufIovs) : outcome SocketBufIovs :=
  let '(addr, _) := GetRawBuf (bs_buf s) in
  d ← PrepareDataIovs (bs_buf s) iovs; iovs_minus addr d.

Definition GetSpaceIovsOffset (s : ByteStreamIntern) (iovs : SocketBufIovs) : outcome SocketBufIovs :=
  let '(addr, _) := GetRawBuf (bs_buf s) in
  d ← PrepareSpaceIovs (bs_buf s) iovs; iovs_minus addr d.

Definition with_buf (s : ByteStreamIntern) (r : RingBuf) : ByteStreamIntern :=
  mkStream r (bs_dataIovs s) (bs_spaceIovs s).

Definition Stream_read (mem : Mem) (s : ByteStreamIntern) (buf : list Z)
  : outcome (ByteStreamIntern * list Z * (bool * Z)) :=
  '(r, buf, res) ← read mem (bs_buf s) buf; Ret (with_buf s r, buf, res).

Definition Stream_write (mem : Mem) (s : ByteStreamIntern) (buf : list Z)
  : outcome (Mem * ByteStreamIntern * (bool * Z)) :=
  '(mem, r, res) ← write mem (bs_buf s) buf; Ret (mem, with_buf s r, res).

Definition Stream_writeFull (mem : Mem) (s : ByteStreamIntern) (buf : list Z)
  : outcome (Mem * ByteStreamIntern * Result (bool * Z)) :=
  '(mem, r, res) ← writeFull mem (bs_buf s) buf; Ret (mem, with_buf s r, res).

Definition Stream_Consume (s : ByteStreamIntern) (count : Z) : ByteStreamIntern * bool :=
  let '(r, trigger) := Consume (bs_buf s) count in (with_buf s r, trigger).

Definition Stream_ConsumeWithCheck (s : ByteStreamIntern) (count : Z) : ByteStreamIntern * Result bool :=
  let '(r, res) := ConsumeWithCheck (bs_buf s) count in (with_buf s r, res).

Definition Stream_Produce (s : ByteStreamIntern) (count : Z) : ByteStreamIntern * bool :=
  let '(r, trigger) := Produce (bs_buf s) count in (with_buf s r, trigger).

Definition Stream_ProduceWithCheck (s : ByteStreamIntern) (count : Z) : ByteStreamIntern * Result bool :=
  let '(r, res) := ProduceWithCheck (bs_buf s) count in (with_buf s r, res).

Definition Stream_SetWaitingRead (s : ByteStreamIntern) : ByteStreamIntern := with_buf s (SetWaitingRead (bs_buf s)).
Definition Stream_SetWaitingWrite (s : ByteStreamIntern) : ByteStreamIntern := with_buf s (SetWaitingWrite (bs_buf s)).

(** The caller's buffer is [count] bytes at [buf], outside the ring. *)
Definition Stream_readViaAddr (mem : Mem) (s : ByteStreamIntern) (buf count : Z)
  : outcome (Mem * ByteStreamIntern * (bool * Z)) :=
  slice ← load mem buf (Z.to_nat count);
  '(s, slice, res) ← Stream_read mem s slice;
  mem ← store_bytes mem buf slice;
  Ret (mem, s, res).

Definition Stream_writeViaAddr (mem : Mem) (s : ByteStreamIntern) (buf count : Z)
  : outcome (Mem * ByteStreamIntern * (bool * Z)) :=
  slice ← load mem buf (Z.to_nat count);
  Stream_write mem s slice.
