(* ===== verification/RingThm.v ===== *)
(** The ring in memory: [ring mem buf L h X] says that the memory holds the [L] bytes [X]
    from position [h] of the ring on, around its end.  The copies of [read] and [write]
    are described for counters that may be older than the current ones. *)
From S2P Require Import Prelude Range Path Mem RingBuf.
#[local] Open Scope Z_scope.
#[local] Open Scope u64_scope.

Definition ring (mem : Mem) (buf L h : Z) (X : list Z) : Prop :=
  Z.of_nat (length X) = L /\
  forall (i : nat) b, X !! i = Some b -> mem !! (buf + (h + Z.of_nat i) mod L) = Some b.

(** Starting at another position. *)
Lemma ring_shift mem buf L h A B : 0 < L -> ring mem buf L h (A ++ B) -> ring mem buf L (h + Z.of_nat (length A)) (B ++ A).
Proof.
  intros HL [Hl Hr]. rewrite length_app in Hl. split; [rewrite length_app; lia |]. intros i b Hb.
  apply lookup_app_Some in Hb as [Hb | [Hi Hb]].
  - rewrite <- (Hr (length A + i)%nat b); [do 3 f_equal; lia |]. by rewrite lookup_app_r, Nat.add_comm, Nat.add_sub by lia.
  - rewrite <- (Hr (i - length B)%nat b); [| by apply lookup_app_l_Some].
    replace (h + Z.of_nat (length A) + Z.of_nat i) with (h + Z.of_nat (i - length B) + 1 * L) by lia.
    by rewrite Z_mod_plus_full.
Qed.

Lemma ring_mod mem buf L h h' X : h mod L = h' mod L -> ring mem buf L h X -> ring mem buf L h' X.
Proof.
  intros E [Hl Hr]. split; [done |]. intros i b Hb. rewrite <- (Hr i b Hb). f_equal. f_equal.
  rewrite <- (Zplus_mod_idemp_l h'), <- E. by rewrite Zplus_mod_idemp_l.
Qed.

(** The two pieces of the ring, up to its end and from its start. *)
Lemma ring_regions mem buf L h X : 0 < L -> Z.of_nat (length X) = L ->
  let e := Z.to_nat (L - h mod L) in
  ring mem buf L h X <-> region mem (buf + h mod L) (take e X) /\ region mem buf (drop e X).
Proof.
  intros HL Hl e. pose proof (Z.mod_pos_bound h L HL) as Hp.
  assert (Hidx : forall i : nat, (i < length X)%nat -> (h + Z.of_nat i) mod L =
    if (i <? e)%nat then h mod L + Z.of_nat i else Z.of_nat (i - e)).
  { intros i Hi. rewrite <- Zplus_mod_idemp_l. destruct (Nat.ltb_spec i e).
    - apply Z.mod_small. lia.
    - replace (h mod L + Z.of_nat i) with (Z.of_nat (i - e) + 1 * L) by lia. rewrite Z_mod_plus_full. apply Z.mod_small. lia. }
  unfold ring, region. split.
  - intros [_ Hr]. split; intros i b Hb.
    + apply lookup_take_Some in Hb as [Hb Hi]. pose proof (lookup_lt_Some _ _ _ Hb).
      rewrite <- (Hr i b Hb), Hidx by done. destruct (Nat.ltb_spec i e); [| lia]. f_equal. lia.
    + rewrite lookup_drop in Hb. pose proof (lookup_lt_Some _ _ _ Hb).
      rewrite <- (Hr _ b Hb), Hidx by done. destruct (Nat.ltb_spec (e + i) e); [lia |]. f_equal. lia.
  - intros [H1 H2]. split; [done |]. intros i b Hb. pose proof (lookup_lt_Some _ _ _ Hb). rewrite Hidx by done.
    destruct (Nat.ltb_spec i e).
    + rewrite Z.add_assoc. apply H1. by rewrite lookup_take_lt.
    + apply H2. rewrite lookup_drop. by replace (e + (i - e))%nat with i by lia.
Qed.

Lemma take_region mem a (l : list Z) n : region mem a l -> region mem a (take n l).
Proof. intros H i b [Hb _]%lookup_take_Some. by apply H. Qed.

Section Geometry.
Context (r : RingBuf) (k : Z) (Hk : 0 <= k <= 31) (Hmask : rb_ringMask r = 2 ^ k - 1).

Lemma Len_pow : Len r = 2 ^ k.
Proof.
  unfold Len, wrap32. rewrite Hmask, Z.sub_add. apply Z.mod_small. split; [lia |].
  change B32 with (2 ^ 32). apply Z.pow_lt_mono_r; lia.
Qed.

Lemma Len_bounds : 0 < Len r <= 2147483648.
Proof.
  rewrite Len_pow. split; [lia |]. change 2147483648 with (2 ^ 31). apply Z.pow_le_mono_r; lia.
Qed.

Lemma land_mask h : Z.land h (rb_ringMask r) = h mod Len r.
Proof. rewrite Hmask, Len_pow, <- Z.land_ones by lia. by rewrite Z.ones_equiv. Qed.

Lemma wrap32_mod h : wrap32 h mod Len r = h mod Len r.
Proof.
  unfold wrap32. rewrite Len_pow. replace B32 with (2 ^ k * 2 ^ (32 - k)).
  - apply Z.mod_mod_divide. by exists (2 ^ (32 - k)); rewrite Z.mul_comm.
  - rewrite <- Z.pow_add_r by lia. by replace (k + (32 - k)) with 32 by lia.
Qed.

(** [n] bytes from the position of [h] on, in the two slices the code takes. *)
Lemma ring_load mem h X n : ring mem (rb_buf r) (Len r) h X -> 0 <= n <= Len r ->
  let p := h mod Len r in
  if Len r - p <? n then
    Buf_slice mem r p (p + (Len r - p)) = Ret (take (Z.to_nat (Len r - p)) X) /\
    Buf_slice mem r 0 (n - (Len r - p)) = Ret (take (Z.to_nat (n - (Len r - p))) (drop (Z.to_nat (Len r - p)) X))
  else Buf_slice mem r p (p + n) = Ret (take (Z.to_nat n) X).
Proof.
  intros Hr Hn p. pose proof Len_bounds as HL. pose proof (Z.mod_pos_bound h (Len r) ltac:(lia)) as Hp. fold p in Hp.
  pose proof (proj1 Hr) as Hl. apply ring_regions in Hr as [H1 H2]; [| lia | done]. fold p in H1, H2.
  assert (Hload : forall a m (l : list Z), region mem a l -> 0 <= m <= Z.of_nat (length l) -> load mem a (Z.to_nat m) = Ret (take (Z.to_nat m) l)).
  { intros a m l Hl' Hm. rewrite <- (load_region mem a (take (Z.to_nat m) l)) by (by apply take_region).
    f_equal. rewrite length_take. lia. }
  unfold Buf_slice. destruct (Z.ltb_spec (Len r - p) n).
  - rewrite !(proj2 (Z.leb_le _ _)) by lia. cbn [andb]. rewrite Z.add_0_r.
    replace (p + (Len r - p) - p) with (Len r - p) by lia. rewrite Z.sub_0_r.
    rewrite (Hload _ _ _ H1), (Hload _ _ _ H2) by (rewrite ?length_take, ?length_drop; lia).
    split; [| done]. by rewrite take_take, Nat.min_id.
  - rewrite !(proj2 (Z.leb_le _ _)) by lia. cbn [andb]. replace (p + n - p) with n by lia.
    rewrite (Hload _ _ _ H1) by (rewrite length_take; lia). rewrite take_take. by rewrite Nat.min_l by lia.
Qed.

Lemma read_copy_spec mem head tail buf Q S : ring mem (rb_buf r) (Len r) head (Q ++ S) ->
  avail_of head tail <= Z.of_nat (length Q) ->
  let n := Z.min (avail_of head tail) (Z.of_nat (length buf)) in
  read_copy mem r head tail buf = Ret (take (Z.to_nat n) Q ++ drop (Z.to_nat n) buf, n).
Proof.
  intros Hr Ha n. pose proof Len_bounds as HL. unfold read_copy. rewrite land_mask.
  assert (Ha0 : 0 <= avail_of head tail) by (apply Z.mod_pos_bound; done).
  replace (if Z.of_nat (length buf) <? avail_of head tail then Z.of_nat (length buf) else avail_of head tail) with n
    by (unfold n; zcase; lia).
  pose proof (Z.mod_pos_bound head (Len r) ltac:(lia)) as Hp. pose proof (proj1 Hr) as Hl. rewrite length_app in Hl.
  assert (Hn : 0 <= n <= Len r) by lia. pose proof (ring_load mem head (Q ++ S) n Hr Hn) as Hld. cbv zeta in Hld |- *.
  set (p := head mod Len r) in *. rewrite (sub64_small (Len r) p) by u64.
  assert (Et : take (Z.to_nat n) (Q ++ S) = take (Z.to_nat n) Q) by (apply take_app_le; lia).
  destruct (Z.ltb_spec (Len r - p) n) as [Hlt | Hge].
  - destruct Hld as [E1 E2]. rewrite add64_small by u64. rewrite (sub64_small n) by u64.
    rewrite E1, bind_ret, E2, !bind_ret. set (e := Z.to_nat (Len r - p)) in *.
    assert (Hle : length (take e (Q ++ S)) = e) by (rewrite length_take, length_app; lia).
    f_equal. f_equal. rewrite <- Et, take_app_length' by done. rewrite <- (take_drop e (take (Z.to_nat n) (Q ++ S))).
    rewrite take_take, Nat.min_l by lia. rewrite <- (assoc_L (++)). f_equal. f_equal.
    + rewrite skipn_firstn_comm. f_equal. lia.
    + rewrite drop_app_ge by lia. rewrite Hle, drop_drop. f_equal. lia.
  - rewrite add64_small by u64. rewrite Hld, !bind_ret. by rewrite Et.
Qed.

(** Outside the ring nothing changes. *)
Definition outside_same (mem mem' : Mem) : Prop :=
  forall x, ~ (rb_buf r <= x < rb_buf r + Len r) -> mem' !! x = mem !! x.

(** Storing [d] from the position of [h] on, in one slice or around the end. *)
Lemma ring_store_one mem h X d : ring mem (rb_buf r) (Len r) h X -> 
  let p := h mod Len r in Z.of_nat (length d) <= Len r - p ->
  exists mem', Buf_copy mem r p d = Ret mem' /\ ring mem' (rb_buf r) (Len r) h (d ++ drop (length d) X) /\ outside_same mem mem'.
Proof.
  intros Hr p Hd. pose proof Len_bounds as HL. pose proof (Z.mod_pos_bound h (Len r) ltac:(lia)) as Hp. fold p in Hp.
  pose proof (proj1 Hr) as Hl. apply ring_regions in Hr as [H1 H2]; [| lia | done]. fold p in H1, H2.
  set (e := Z.to_nat (Len r - p)) in *. rewrite <- (take_drop (length d) (take e X)) in H1.
  apply region_app in H1 as [H1 H3]. rewrite take_take, Nat.min_l in H1, H3 by lia.
  assert (El : length (take (length d) X) = length d) by (rewrite length_take; lia). rewrite El in H3.
  destruct (store_region mem (rb_buf r + p) d _ H1) as (mem' & E & Hr' & Hf); [done |].
  exists mem'. unfold Buf_copy. rewrite (proj2 (Z.leb_le _ _)) by lia. split_and!; [done | |].
  - apply ring_regions; [lia | rewrite length_app, length_drop; lia |]. fold p e.
    rewrite take_app, drop_app. rewrite take_ge, (drop_ge d) by lia. split.
    + apply region_app. split; [done |]. rewrite skipn_firstn_comm in H3.
      eapply region_frame; [exact H3 | exact Hf |]. right. lia.
    + simpl. rewrite drop_drop. replace (length d + (e - length d))%nat with e by lia.
      eapply region_frame; [exact H2 | exact Hf |]. left. rewrite length_drop. lia.
  - intros x Hx. apply Hf. lia.
Qed.

Lemma ring_store_two mem h X d : ring mem (rb_buf r) (Len r) h X ->
  let p := h mod Len r in let e := Z.to_nat (Len r - p) in
  Len r - p < Z.of_nat (length d) <= Len r ->
  exists mem', (mem ← Buf_copy mem r p (take e d); Buf_copy mem r 0 (drop e d)) = Ret mem' /\
    ring mem' (rb_buf r) (Len r) h (d ++ drop (length d) X) /\ outside_same mem mem'.
Proof.
  intros Hr p e Hd. pose proof Len_bounds as HL. pose proof (Z.mod_pos_bound h (Len r) ltac:(lia)) as Hp. fold p in Hp.
  pose proof (proj1 Hr) as Hl. apply ring_regions in Hr as [H1 H2]; [| lia | done]. fold p in H1, H2. fold e in H1, H2.
  destruct (store_region mem (rb_buf r + p) (take e d) _ H1) as (mem1 & E1 & Hr1 & Hf1); [rewrite !length_take; lia |].
  assert (H2' : region mem1 (rb_buf r) (drop e X)).
  { eapply region_frame; [exact H2 | exact Hf1 |]. left. rewrite length_drop. lia. }
  rewrite <- (take_drop (length d - e) (drop e X)) in H2'. apply region_app in H2' as [H2a H2b].
  destruct (store_region mem1 (rb_buf r) (drop e d) _ H2a) as (mem2 & E2 & Hr2 & Hf2); [rewrite !length_take, !length_drop; lia |].
  rewrite length_take in Hf1. rewrite length_take, length_drop in H2b. rewrite length_drop in Hf2. exists mem2.
  unfold Buf_copy. rewrite length_take, length_drop. rewrite !(proj2 (Z.leb_le _ _)) by lia.
  rewrite E1, bind_ret, Z.add_0_r. split_and!; [done | |].
  - apply ring_regions; [lia | rewrite length_app, length_drop; lia |]. fold p e. rewrite take_app_le, drop_app_le by lia. split.
    + eapply region_frame; [exact Hr1 | exact Hf2 |]. right. lia.
    + apply region_app. split; [done |]. rewrite drop_drop in H2b. rewrite length_drop.
      replace (e + (length d - e))%nat with (length d) in H2b by lia.
      eapply region_frame; [| exact Hf2 |].
      * replace (Z.of_nat (length d - e)) with (Z.of_nat (Nat.min (length d - e) (length X - e))) by lia. exact H2b.
      * right. lia.
  - intros x Hx. rewrite Hf2 by lia. apply Hf1. lia.
Qed.

Lemma write_copy_spec mem head tail buf S Q : ring mem (rb_buf r) (Len r) tail (S ++ Q) ->
  Z.of_nat (length Q) <= avail_of head tail <= Len r ->
  let n := Z.min (Len r - avail_of head tail) (Z.of_nat (length buf)) in
  exists mem', write_copy mem r head tail buf = Ret (mem', n) /\
    ring mem' (rb_buf r) (Len r) tail (take (Z.to_nat n) buf ++ drop (Z.to_nat n) S ++ Q) /\ outside_same mem mem'.
Proof.
  intros Hr Ha n. pose proof Len_bounds as HL. unfold write_copy. rewrite land_mask.
  rewrite (sub64_small (Len r) (avail_of head tail)) by u64.
  replace (if Z.of_nat (length buf) <? Len r - avail_of head tail then Z.of_nat (length buf) else Len r - avail_of head tail)
    with n by (unfold n; zcase; lia).
  pose proof (Z.mod_pos_bound tail (Len r) ltac:(lia)) as Hp. pose proof (proj1 Hr) as Hl. rewrite length_app in Hl.
  set (d := take (Z.to_nat n) buf). assert (Hdl : Z.of_nat (length d) = n) by (unfold d; rewrite length_take; lia).
  assert (Ex : drop (Z.to_nat n) S ++ Q = drop (length d) (S ++ Q)) by (rewrite drop_app_le by lia; do 2 f_equal; lia).
  rewrite Ex. cbv zeta. rewrite (sub64_small (Len r) (tail mod Len r)) by u64.
  destruct (Z.ltb_spec (Len r - tail mod Len r) n) as [Hlt | Hge].
  - destruct (ring_store_two mem tail (S ++ Q) d Hr) as (mem' & E & Hr' & Ho); [lia |]. exists mem'.
    rewrite (sub64_small n) by u64. split; [| done].
    set (e := Z.to_nat (Len r - tail mod Len r)) in *.
    assert (E1 : take e d = take e buf) by (unfold d; rewrite take_take; f_equal; lia).
    assert (E2 : drop e d = take (Z.to_nat (n - (Len r - tail mod Len r))) (drop e buf)).
    { unfold d. rewrite skipn_firstn_comm. f_equal. lia. }
    rewrite E1, E2 in E. revert E. destruct (Buf_copy mem r (tail mod Len r) (take e buf)) as [mem1 | |]; [| done | done].
    rewrite !bind_ret. by intros ->.
  - destruct (ring_store_one mem tail (S ++ Q) d Hr) as (mem' & E & Hr' & Ho); [lia |]. exists mem'.
    fold d. by rewrite E.
Qed.
End Geometry.
