(* ===== verification/RingProps.v ===== *)
(** The ring buffer is a bounded queue of bytes, used sequentially. *)
From S2P Require Import Prelude Range Path Mem RingBuf RingThm.
#[local] Open Scope Z_scope.
#[local] Open Scope u64_scope.

Definition in32 (z : Z) : Prop := 0 <= z < B32.

Lemma wrap32_in z : in32 (wrap32 z).
Proof. apply Z.mod_pos_bound. done. Qed.

Lemma wrap32_small z : in32 z -> wrap32 z = z.
Proof. apply Z.mod_small. Qed.

(** Moving a counter. *)
Lemma avail_head h t n : 0 <= n <= avail_of h t -> avail_of (wrap32 (h + wrap32 n)) t = avail_of h t - n.
Proof.
  intros Hn. assert (Hb : in32 (avail_of h t)) by apply wrap32_in. unfold in32 in Hb.
  rewrite (wrap32_small n) by (unfold in32; lia). unfold avail_of, wrap32 in *.
  rewrite Zminus_mod_idemp_r. replace (t - (h + n)) with (t - h - n) by lia.
  rewrite <- Zminus_mod_idemp_l. apply Z.mod_small. lia.
Qed.

Lemma avail_tail h t n : 0 <= n -> avail_of h t + n < B32 -> avail_of h (wrap32 (t + wrap32 n)) = avail_of h t + n.
Proof.
  intros Hn Hs. assert (Hb : in32 (avail_of h t)) by apply wrap32_in. unfold in32 in Hb.
  rewrite (wrap32_small n) by (unfold in32; lia). unfold avail_of, wrap32 in *.
  rewrite Zminus_mod_idemp_l. replace (t + n - h) with (t - h + n) by lia.
  rewrite <- Zplus_mod_idemp_l. apply Z.mod_small. lia.
Qed.

(** The shape of a ring of [2^k] bytes. *)
Definition shape (r : RingBuf) : Prop := exists k, 0 <= k <= 31 /\ rb_ringMask r = 2 ^ k - 1.

Lemma shape_Len r : shape r -> 0 < Len r <= 2147483648.
Proof. intros (k & Hk & E). by apply (Len_bounds r k). Qed.

Lemma shape_wrap r h : shape r -> wrap32 h mod Len r = h mod Len r.
Proof. intros (k & Hk & E). by apply (wrap32_mod r k). Qed.

(** The counter [tail] is where the bytes after [head] end. *)
Lemma tail_mod r : shape r -> (rb_head r + AvailableDataSize r) mod Len r = rb_tail r mod Len r.
Proof.
  intros Hs. rewrite <- (shape_wrap r (rb_head r + _)) by done. unfold AvailableDataSize, avail_of, wrap32.
  rewrite Zplus_mod_idemp_r. replace (rb_head r + (rb_tail r - rb_head r)) with (rb_tail r) by lia. exact (shape_wrap r (rb_tail r) Hs).
Qed.

(** [Q] are the bytes between the counters, [F] the free ones. *)
Record RingRep (mem : Mem) (r : RingBuf) (Q F : list Z) : Prop := {
  rr_shape : shape r;
  rr_avail : AvailableDataSize r = Z.of_nat (length Q);
  rr_ring : ring mem (rb_buf r) (Len r) (rb_head r) (Q ++ F);
}.

Lemma rr_len mem r Q F : RingRep mem r Q F -> Z.of_nat (length Q) + Z.of_nat (length F) = Len r.
Proof. intros [_ _ [H _]]. rewrite length_app in H. lia. Qed.

(** The free bytes start at [tail]. *)
Lemma rr_tail mem r Q F : RingRep mem r Q F -> ring mem (rb_buf r) (Len r) (rb_tail r) (F ++ Q).
Proof.
  intros [Hs Ha Hr]. pose proof (shape_Len r Hs). eapply ring_mod; [| apply ring_shift, Hr; lia].
  rewrite <- Ha. by apply tail_mod.
Qed.

(** From the bytes after [tail] back to [head]. *)
Lemma rr_of_tail mem r Q F : shape r -> AvailableDataSize r = Z.of_nat (length Q) ->
  ring mem (rb_buf r) (Len r) (rb_tail r) (F ++ Q) -> RingRep mem r Q F.
Proof.
  intros Hs Ha Hr. pose proof (shape_Len r Hs). constructor; [done | done |].
  pose proof (proj1 Hr) as Hl. rewrite length_app in Hl.
  eapply ring_mod; [| apply ring_shift, Hr; lia].
  rewrite <- Zplus_mod_idemp_l, <- tail_mod, Zplus_mod_idemp_l, Ha by done.
  replace (rb_head r + Z.of_nat (length Q) + Z.of_nat (length F)) with (rb_head r + 1 * Len r) by lia.
  apply Z_mod_plus_full.
Qed.

(** Moving [head] over the first [m] bytes. *)
Lemma rr_head mem r Q F m : RingRep mem r Q F -> (m <= length Q)%nat ->
  RingRep mem (set_head r (wrap32 (rb_head r + wrap32 (Z.of_nat m)))) (drop m Q) (F ++ take m Q).
Proof.
  intros [Hs Ha Hr] Hm. pose proof (shape_Len r Hs). pose proof (proj1 Hr) as Hl. rewrite length_app in Hl. constructor; [done | |].
  - unfold AvailableDataSize in *. simpl. rewrite avail_head by lia. rewrite length_drop. lia.
  - cbn [rb_buf rb_head set_head]. change (Len (set_head _ _)) with (Len r).
    rewrite (wrap32_small (Z.of_nat m)) by (unfold in32, B32; lia). eapply ring_mod; [symmetry; by apply shape_wrap |].
    rewrite <- (take_drop m Q), <- (assoc_L (++)) in Hr. apply ring_shift in Hr; [| lia].
    rewrite length_take, Nat.min_l, <- (assoc_L (++)) in Hr by done. exact Hr.
Qed.

(** Moving [tail] over the first [m] free bytes. *)
Lemma rr_move_tail mem r Q F m : RingRep mem r Q F -> (m <= length F)%nat ->
  RingRep mem (set_tail r (wrap32 (rb_tail r + wrap32 (Z.of_nat m)))) (Q ++ take m F) (drop m F).
Proof.
  intros HR Hm. pose proof (rr_len _ _ _ _ HR) as Hl. destruct HR as [Hs Ha Hr]. pose proof (shape_Len r Hs). constructor; [done | |].
  - unfold AvailableDataSize in *. simpl. rewrite avail_tail by (unfold B32; lia). rewrite length_app, length_take. lia.
  - cbn [rb_buf rb_head set_tail]. change (Len (set_tail _ _)) with (Len r). by rewrite <- (assoc_L (++)), take_drop.
Qed.

Lemma rr_space mem r Q F : RingRep mem r Q F -> AvailableSpace r = Z.of_nat (length F).
Proof.
  intros HR. pose proof (rr_len _ _ _ _ HR). pose proof (shape_Len r (rr_shape _ _ _ _ HR)).
  unfold AvailableSpace. rewrite (rr_avail _ _ _ _ HR), sub64_small by u64. lia.
Qed.

(** What the two sides do with the flags after moving their counter. *)
Lemma after_read_spec mem r Q F : RingRep mem r Q F ->
  exists r', after_read r = (r', rb_waitWrite r) /\ RingRep mem r' Q F /\
    rb_waitRead r' = rb_waitRead r || bool_decide (Q = []) /\ rb_waitWrite r' = false /\
    rb_buf r' = rb_buf r /\ Len r' = Len r.
Proof.
  intros HR. unfold after_read. rewrite (rr_avail _ _ _ _ HR). destruct HR as [Hs Ha Hr].
  destruct (Z.eqb_spec (Z.of_nat (length Q)) 0) as [E | E]; (eexists; split; [reflexivity |]);
    (split_and!; [by constructor | simpl | done | done | done]).
  - rewrite bool_decide_eq_true_2, orb_true_r; [done |]. apply length_zero_iff_nil. lia.
  - rewrite bool_decide_eq_false_2, orb_false_r; [done |]. by intros ->.
Qed.

Lemma after_write_spec mem r Q F : RingRep mem r Q F ->
  exists r', after_write r = (r', rb_waitRead r) /\ RingRep mem r' Q F /\
    rb_waitRead r' = false /\ rb_waitWrite r' = rb_waitWrite r || bool_decide (F = []) /\
    rb_buf r' = rb_buf r /\ Len r' = Len r.
Proof.
  intros HR. unfold after_write. rewrite (rr_space _ _ _ _ HR). destruct HR as [Hs Ha Hr].
  destruct (Z.eqb_spec (Z.of_nat (length F)) 0) as [E | E]; (eexists; split; [reflexivity |]);
    (split_and!; [by constructor | done | simpl | done | done]).
  - rewrite bool_decide_eq_true_2, orb_true_r; [done |]. apply length_zero_iff_nil. lia.
  - rewrite bool_decide_eq_false_2, orb_false_r; [done |]. by intros ->.
Qed.

(** * The abstract stream: a bounded queue with two flags *)

Record Stream : Type := mkS { s_q : list Z; s_waitRead : bool; s_waitWrite : bool }.

(** A write takes what fits; the result says whether a reader waited. *)
Definition s_write (cap : nat) (s : Stream) (buf : list Z) : Stream * (bool * Z) :=
  let n := Nat.min (cap - length (s_q s)) (length buf) in
  let q := s_q s ++ take n buf in
  (mkS q false (s_waitWrite s || (length q =? cap)%nat), (s_waitRead s, Z.of_nat n)).

(** A read takes what is there; the result says whether a writer waited. *)
Definition s_read (s : Stream) (buf : list Z) : Stream * (list Z * (bool * Z)) :=
  let n := Nat.min (length (s_q s)) (length buf) in
  let q := drop n (s_q s) in
  (mkS q (s_waitRead s || bool_decide (q = [])) false, (take n (s_q s) ++ drop n buf, (s_waitWrite s, Z.of_nat n))).

Definition srep (mem : Mem) (r : RingBuf) (s : Stream) : Prop :=
  (exists F, RingRep mem r (s_q s) F) /\ rb_waitRead r = s_waitRead s /\ rb_waitWrite r = s_waitWrite s.

Lemma read_refines mem r s buf : srep mem r s -> exists r',
  read mem r buf = Ret (r', (s_read s buf).2.1, (s_read s buf).2.2) /\ srep mem r' (s_read s buf).1 /\
  rb_buf r' = rb_buf r /\ Len r' = Len r.
Proof.
  intros ((F & HR) & E1 & E2). destruct (rr_shape _ _ _ _ HR) as (k & Hk & Hm). pose proof (rr_avail _ _ _ _ HR) as Ha.
  set (m := Nat.min (length (s_q s)) (length buf)).
  assert (Hc : read_copy mem r (rb_head r) (rb_tail r) buf = Ret (take m (s_q s) ++ drop m buf, Z.of_nat m)).
  { rewrite (read_copy_spec r k Hk Hm mem _ _ buf (s_q s) F); [| apply HR | unfold AvailableDataSize in Ha; lia].
    unfold AvailableDataSize in Ha. rewrite Ha. replace (Z.min _ _) with (Z.of_nat m) by lia. by rewrite Nat2Z.id. }
  pose proof (rr_head mem r (s_q s) F m HR ltac:(lia)) as HR'.
  destruct (after_read_spec _ _ _ _ HR') as (r' & E & HR2 & Hw1 & Hw2 & Hb & HL).
  exists r'. unfold read. rewrite Hc, bind_ret. unfold read_commit. rewrite E. unfold s_read. fold m. simpl.
  split_and!; [by rewrite <- E2 | | done | done]. split_and!; [by eexists | by rewrite Hw1, <- E1 | done].
Qed.

Lemma write_refines mem r s buf : srep mem r s -> exists mem' r',
  write mem r buf = Ret (mem', r', (s_write (Z.to_nat (Len r)) s buf).2) /\
  srep mem' r' (s_write (Z.to_nat (Len r)) s buf).1 /\ outside_same r mem mem' /\
  rb_buf r' = rb_buf r /\ Len r' = Len r.
Proof.
  intros ((F & HR) & E1 & E2). destruct (rr_shape _ _ _ _ HR) as (k & Hk & Hm). pose proof (rr_avail _ _ _ _ HR) as Ha.
  pose proof (rr_len _ _ _ _ HR) as Hl. unfold AvailableDataSize in Ha.
  destruct (write_copy_spec r k Hk Hm mem (rb_head r) (rb_tail r) buf F (s_q s)) as (mem' & Hc & Hr' & Ho);
    [by apply rr_tail | lia |].
  set (m := Nat.min (length F) (length buf)). rewrite Ha in Hc, Hr'.
  replace (Z.min (Len r - Z.of_nat (length (s_q s))) (Z.of_nat (length buf))) with (Z.of_nat m) in Hc, Hr' by lia.
  rewrite Nat2Z.id, (assoc_L (++)) in Hr'. apply rr_of_tail in Hr'; [| apply HR | exact Ha].
  pose proof (rr_move_tail mem' r (s_q s) (take m buf ++ drop m F) m Hr' ltac:(rewrite length_app, length_take; lia)) as HR'.
  rewrite take_app_length' in HR' by (rewrite length_take; lia).
  rewrite drop_app_length' in HR' by (rewrite length_take; lia).
  destruct (after_write_spec _ _ _ _ HR') as (r' & E & HR2 & Hw1 & Hw2 & Hb & HL).
  assert (Em : Nat.min (Z.to_nat (Len r) - length (s_q s)) (length buf) = m) by lia.
  exists mem', r'. unfold write. rewrite Hc, bind_ret. unfold write_commit. rewrite E. unfold s_write. rewrite Em. simpl.
  split_and!; [by rewrite <- E1 | | done | done | done]. split_and!; [by eexists | done |].
  rewrite Hw2. simpl. rewrite E2. f_equal. apply eq_true_iff_eq. rewrite bool_decide_eq_true, Nat.eqb_eq, length_app, length_take.
  split; intros Hx.
  - apply (f_equal length) in Hx. rewrite length_drop in Hx. simpl in Hx. lia.
  - apply length_zero_iff_nil. rewrite length_drop. lia.
Qed.

(** * Sequential use *)

Inductive Op : Type :=
| OWrite (buf : list Z)
| ORead (buf : list Z).

(** What the caller of an operation sees: its buffer, the trigger, the count. *)
Definition Out : Type := list Z * (bool * Z).

Definition op_run (mem : Mem) (s : ByteStreamIntern) (op : Op) : outcome (Mem * ByteStreamIntern * Out) :=
  match op with
  | OWrite buf => '(mem, s, res) ← Stream_write mem s buf; Ret (mem, s, (buf, res))
  | ORead buf => '(s, buf, res) ← Stream_read mem s buf; Ret (mem, s, (buf, res))
  end.

Fixpoint ops_run (mem : Mem) (s : ByteStreamIntern) (ops : list Op) : outcome (list Out) :=
  match ops with
  | [] => Ret []
  | op :: ops => '(mem, s, o) ← op_run mem s op; l ← ops_run mem s ops; Ret (o :: l)
  end.

Definition op_spec (cap : nat) (s : Stream) (op : Op) : Stream * Out :=
  match op with
  | OWrite buf => let '(s, res) := s_write cap s buf in (s, (buf, res))
  | ORead buf => s_read s buf
  end.

Fixpoint ops_spec (cap : nat) (s : Stream) (ops : list Op) : list Out :=
  match ops with
  | [] => []
  | op :: ops => let '(s, o) := op_spec cap s op in o :: ops_spec cap s ops
  end.

Lemma ops_refine ops : forall mem bs s, srep mem (bs_buf bs) s ->
  ops_run mem bs ops = Ret (ops_spec (Z.to_nat (Len (bs_buf bs))) s ops).
Proof.
  induction ops as [| [buf | buf] ops IH]; intros mem bs s HR; [done | |]; cbn [ops_run op_run ops_spec op_spec].
  - destruct (write_refines mem (bs_buf bs) s buf HR) as (mem' & r' & E & HR' & _ & _ & HL).
    unfold Stream_write. rewrite E, !bind_ret, (IH mem' (with_buf bs r') _ HR'), bind_ret. simpl bs_buf. rewrite HL.
    by destruct (s_write _ s buf).
  - destruct (read_refines mem (bs_buf bs) s buf HR) as (r' & E & HR' & _ & HL).
    unfold Stream_read. rewrite E, !bind_ret, (IH mem (with_buf bs r') _ HR'), bind_ret. simpl bs_buf. rewrite HL.
    by destruct (s_read s buf) as [? [? ?]].
Qed.

(** ** A new stream *)

Lemma IsPowerOfTwo_pow x : 0 < x < B64 -> IsPowerOfTwo x = true -> x = 2 ^ Z.log2 x.
Proof.
  intros Hx. unfold IsPowerOfTwo. rewrite sub64_small by u64. intros E%Z.eqb_eq.
  pose proof (Z.log2_spec x ltac:(lia)) as [H1 H2]. destruct (decide (x = 2 ^ Z.log2 x)) as [| Hne]; [done |]. exfalso.
  assert (El : Z.log2 (x - 1) = Z.log2 x) by (apply Z.log2_unique; [apply Z.log2_nonneg | lia]).
  assert (Hb : Z.testbit (Z.land x (x - 1)) (Z.log2 x) = true).
  { rewrite Z.land_spec, Z.bit_log2 by lia. rewrite <- El, Z.bit_log2; [done |].
    pose proof (Z.pow_pos_nonneg 2 (Z.log2 x) ltac:(lia) (Z.log2_nonneg x)). lia. }
  by rewrite E, Z.bits_0 in Hb.
Qed.

Definition new_stream : Stream := mkS [] true false.

Lemma Init_rep pageCount heap mem l : 0 < pageCount <= 524288 -> IsPowerOfTwo pageCount = true ->
  region mem heap l -> Z.of_nat (length l) = pageCount * 4096 ->
  exists bs, ByteStream_Init pageCount heap = Ret bs /\ srep mem (bs_buf bs) new_stream /\
    Len (bs_buf bs) = pageCount * 4096.
Proof.
  intros Hp Hpow Hr Hl. unfold ByteStream_Init. rewrite Hpow. cbn [negb]. unfold RingBuf_New. cbn [AllocHeadTail AllocWaitingRW AlllocBuf].
  rewrite Hpow, !bind_ret. change PAGE_SIZE with 4096. unfold mul64. rewrite wrap64_small by u64. rewrite sub64_small by u64.
  rewrite (wrap32_small (_ - 1)) by (unfold in32, B32; lia). eexists. split; [reflexivity |]. cbn [bs_buf].
  set (r := mkRingBuf _ _ _ _ _ _). pose proof (IsPowerOfTwo_pow pageCount ltac:(u64) Hpow) as E.
  assert (Hs : shape r).
  { exists (Z.log2 pageCount + 12). split.
    - pose proof (Z.log2_nonneg pageCount). pose proof (Z.log2_le_mono pageCount 524288 ltac:(lia)) as H'.
      change (Z.log2 524288) with 19 in H'. lia.
    - simpl. rewrite Z.pow_add_r, <- E by (lia || apply Z.log2_nonneg). done. }
  assert (HL : Len r = pageCount * 4096).
  { unfold Len. simpl. rewrite wrap32_small by (unfold in32, B32; lia). lia. }
  split; [| done]. split; [| done]. exists l. constructor; [done | done |].
  apply ring_regions; [lia | cbn [s_q new_stream app]; lia |]. rewrite HL. simpl. rewrite Zmod_0_l, Z.sub_0_r, Z.add_0_r.
  rewrite take_ge, drop_ge by lia. split; [done | apply region_nil].
Qed.

(** C10: A byte stream of a power of two of pages (up to 2 GiB) behaves like a bounded
    queue under every sequence of writes and reads of any sizes: the writes take what
    fits, the reads return the oldest bytes in order, the trigger of a write tells whether
    a reader waited and that of a read whether a writer waited, the counters wrap without
    loss, and no operation panics or touches memory outside the buffer. *)
Theorem stream_refines pageCount heap mem l ops : 0 < pageCount <= 524288 -> IsPowerOfTwo pageCount = true ->
  region mem heap l -> Z.of_nat (length l) = pageCount * 4096 ->
  (bs ← ByteStream_Init pageCount heap; ops_run mem bs ops) =
  Ret (ops_spec (Z.to_nat (pageCount * 4096)) new_stream ops).
Proof.
  intros Hp Hpow Hr Hl. destruct (Init_rep pageCount heap mem l Hp Hpow Hr Hl) as (bs & -> & HR & HL).
  rewrite bind_ret, <- HL. by apply ops_refine.
Qed.

Lemma stream_refines_witness : exists mem : Mem,
  (bs ← ByteStream_Init 1 65536; ops_run mem bs [OWrite [1; 2; 3]; ORead [0; 0]; OWrite [4]; ORead [0; 0; 0]]) =
  Ret [([1; 2; 3], (true, 3)); ([1; 2], (false, 2)); ([4], (false, 1)); ([3; 4; 0], (false, 2))].
Proof.
  exists (memory 65536 (replicate 4096 0)).
  rewrite (stream_refines 1 65536 _ (replicate 4096 0)); [vm_compute; reflexivity | lia | reflexivity | apply memory_region |].
  rewrite length_replicate. lia.
Defined.
