(* ===== verification/RingSpsc.v ===== *)
(** One reader and one writer on the same ring (the guest and the host side of a shared
    byte stream), interleaved between the loads of the counters, the copy, the store that
    publishes the progress, and the update of the flags of [RingBuf::read] and
    [RingBuf::write].  Memory accesses are sequentially consistent. *)
From stdpp Require Import relations.
From S2P Require Import Prelude Range Path Mem RingBuf RingThm RingProps.
#[local] Open Scope Z_scope.

(** Where the reader is inside [read], with what it has in its local variables. *)
Inductive Reader : Type :=
| RIdle
| RLoaded (head tail : Z) (buf : list Z)
| RCopied (head available : Z) (buf : list Z)
| RStored.

Inductive Writer : Type :=
| WIdle
| WLoaded (head tail : Z) (buf : list Z)
| WCopied (tail writeSize : Z) (buf : list Z)
| WStored.

(** The shared state, both sides, and the bytes published and received so far. *)
Record Sys : Type := mkSys {
  sy_mem : Mem;
  sy_ring : RingBuf;
  sy_reader : Reader;
  sy_writer : Writer;
  sy_sent : list Z;
  sy_rcvd : list Z;
}.

Inductive sstep : Sys -> Sys -> Prop :=
| read_loads mem r w sent rcvd buf :
    sstep (mkSys mem r RIdle w sent rcvd)
          (mkSys mem r (RLoaded (rb_head r) (rb_tail r) buf) w sent rcvd)
| read_copies mem r w sent rcvd h t buf buf' n :
    read_copy mem r h t buf = Ret (buf', n) ->
    sstep (mkSys mem r (RLoaded h t buf) w sent rcvd) (mkSys mem r (RCopied h n buf') w sent rcvd)
| read_stores mem r w sent rcvd h n buf :
    sstep (mkSys mem r (RCopied h n buf) w sent rcvd)
          (mkSys mem (set_head r (wrap32 (h + wrap32 n))) RStored w sent (rcvd ++ take (Z.to_nat n) buf))
| read_flags mem r w sent rcvd :
    sstep (mkSys mem r RStored w sent rcvd) (mkSys mem (after_read r).1 RIdle w sent rcvd)
| write_loads mem r rd sent rcvd buf :
    sstep (mkSys mem r rd WIdle sent rcvd)
          (mkSys mem r rd (WLoaded (rb_head r) (rb_tail r) buf) sent rcvd)
| write_copies mem r rd sent rcvd h t buf mem' n :
    write_copy mem r h t buf = Ret (mem', n) ->
    sstep (mkSys mem r rd (WLoaded h t buf) sent rcvd) (mkSys mem' r rd (WCopied t n buf) sent rcvd)
| write_stores mem r rd sent rcvd t n buf :
    sstep (mkSys mem r rd (WCopied t n buf) sent rcvd)
          (mkSys mem (set_tail r (wrap32 (t + wrap32 n))) rd WStored (sent ++ take (Z.to_nat n) buf) rcvd)
| write_flags mem r rd sent rcvd :
    sstep (mkSys mem r rd WStored sent rcvd) (mkSys mem (after_write r).1 rd WIdle sent rcvd).

(** What the local variables of each side say about the bytes [Q] in the ring and the
    free bytes [F]: a side may see a counter of the other side that is too old, which only
    makes it more careful. *)
Definition reader_ok (r : RingBuf) (Q : list Z) (rd : Reader) : Prop :=
  match rd with
  | RIdle | RStored => True
  | RLoaded h t _ => h = rb_head r /\ avail_of h t <= Z.of_nat (length Q)
  | RCopied h n buf => h = rb_head r /\ 0 <= n <= Z.of_nat (length Q) /\ take (Z.to_nat n) buf = take (Z.to_nat n) Q
  end.

Definition writer_ok (r : RingBuf) (Q F : list Z) (w : Writer) : Prop :=
  match w with
  | WIdle | WStored => True
  | WLoaded h t _ => t = rb_tail r /\ Z.of_nat (length Q) <= avail_of h t <= Len r
  | WCopied t n buf => t = rb_tail r /\ 0 <= n <= Z.of_nat (length F) /\ take (Z.to_nat n) buf = take (Z.to_nat n) F
  end.

Definition sinv (s : Sys) : Prop := exists Q F,
  RingRep (sy_mem s) (sy_ring s) Q F /\ sy_sent s = sy_rcvd s ++ Q /\
  reader_ok (sy_ring s) Q (sy_reader s) /\ writer_ok (sy_ring s) Q F (sy_writer s).

Lemma sinv_read_copies mem r w sent rcvd h t buf buf' n : read_copy mem r h t buf = Ret (buf', n) ->
  sinv (mkSys mem r (RLoaded h t buf) w sent rcvd) -> sinv (mkSys mem r (RCopied h n buf') w sent rcvd).
Proof.
  intros E (Q & F & HR & Hs & (Eh & Ha) & Hw). exists Q, F. split_and!; [done | done | | done]. simpl in *. subst h.
  destruct (rr_shape _ _ _ _ HR) as (k & Hk & Hm).
  rewrite (read_copy_spec r k Hk Hm mem _ _ buf Q F) in E; [| apply HR | done]. injection E as <- <-.
  assert (0 <= avail_of (rb_head r) t) by apply wrap32_in.
  split_and!; [done | lia | lia |]. apply take_app_length'. rewrite length_take. lia.
Qed.

Lemma sinv_read_stores mem r w sent rcvd h n buf :
  sinv (mkSys mem r (RCopied h n buf) w sent rcvd) ->
  sinv (mkSys mem (set_head r (wrap32 (h + wrap32 n))) RStored w sent (rcvd ++ take (Z.to_nat n) buf)).
Proof.
  intros (Q & F & HR & Hs & (Eh & Hn & Hb) & Hw). simpl in *. subst h. set (m := Z.to_nat n) in *.
  replace n with (Z.of_nat m) by lia. exists (drop m Q), (F ++ take m Q). split_and!; simpl.
  - apply rr_head; [done | lia].
  - by rewrite Hs, Hb, <- (assoc_L (++)), take_drop.
  - done.
  - destruct w as [| h t b | t n' b |]; simpl in *; [done | | | done].
    + destruct Hw as [-> Hw]. change (Len (set_head _ _)) with (Len r). rewrite length_drop. split; [done | lia].
    + destruct Hw as (-> & Hn' & Hw). rewrite length_app, take_app_le by lia. split_and!; [done | lia | lia | done].
Qed.

Lemma sinv_write_copies mem r rd sent rcvd h t buf mem' n : write_copy mem r h t buf = Ret (mem', n) ->
  sinv (mkSys mem r rd (WLoaded h t buf) sent rcvd) -> sinv (mkSys mem' r rd (WCopied t n buf) sent rcvd).
Proof.
  intros E (Q & F & HR & Hs & Hr & (Et & Ha)). simpl in *. subst t. destruct (rr_shape _ _ _ _ HR) as (k & Hk & Hm).
  pose proof (rr_len _ _ _ _ HR) as Hl.
  destruct (write_copy_spec r k Hk Hm mem h (rb_tail r) buf F Q) as (mem1 & E1 & Hr1 & _); [by apply rr_tail | done |].
  rewrite E1 in E. injection E as <- <-. set (n := Z.min _ _) in *. rewrite (assoc_L (++)) in Hr1.
  apply rr_of_tail in Hr1; [| apply HR | apply HR].
  exists Q, (take (Z.to_nat n) buf ++ drop (Z.to_nat n) F). split_and!; [done | done | done |]. simpl.
  split_and!; [done | lia | rewrite length_app, length_take, length_drop; lia |].
  by rewrite take_app_length' by (rewrite length_take; lia).
Qed.

Lemma sinv_write_stores mem r rd sent rcvd t n buf :
  sinv (mkSys mem r rd (WCopied t n buf) sent rcvd) ->
  sinv (mkSys mem (set_tail r (wrap32 (t + wrap32 n))) rd WStored (sent ++ take (Z.to_nat n) buf) rcvd).
Proof.
  intros (Q & F & HR & Hs & Hr & (Et & Hn & Hb)). simpl in *. subst t. set (m := Z.to_nat n) in *.
  replace n with (Z.of_nat m) by lia. exists (Q ++ take m F), (drop m F). split_and!; simpl.
  - apply rr_move_tail; [done | lia].
  - by rewrite Hs, Hb, <- (assoc_L (++)).
  - destruct rd as [| h t b | h n' b |]; simpl in *; [done | | | done].
    + rewrite length_app. destruct Hr as [-> Hr]. split; [done | lia].
    + destruct Hr as (-> & Hn' & Hr). rewrite length_app, take_app_le by lia. split_and!; [done | lia | lia | done].
  - done.
Qed.

(** A change of the flags keeps the counters. *)
Lemma sinv_flags mem r r' rd rd' w w' sent rcvd : (forall Q F, RingRep mem r Q F -> RingRep mem r' Q F) ->
  rb_head r' = rb_head r -> rb_tail r' = rb_tail r -> Len r' = Len r ->
  (forall Q, reader_ok r Q rd -> reader_ok r Q rd') -> (forall Q F, writer_ok r Q F w -> writer_ok r Q F w') ->
  sinv (mkSys mem r rd w sent rcvd) -> sinv (mkSys mem r' rd' w' sent rcvd).
Proof.
  intros Hrep Eh Et EL Hr Hw (Q & F & HR & Hs & Hrd & Hwr). exists Q, F. simpl in *. split_and!; [auto | done | |].
  - apply Hr in Hrd. destruct rd'; simpl in *; rewrite ?Eh; done.
  - apply Hw in Hwr. destruct w'; simpl in *; rewrite ?Et, ?EL; done.
Qed.

Lemma after_read_counters r : rb_head (after_read r).1 = rb_head r /\ rb_tail (after_read r).1 = rb_tail r /\ Len (after_read r).1 = Len r.
Proof. unfold after_read. by case_match. Qed.

Lemma after_write_counters r : rb_head (after_write r).1 = rb_head r /\ rb_tail (after_write r).1 = rb_tail r /\ Len (after_write r).1 = Len r.
Proof. unfold after_write. by case_match. Qed.

Lemma sinv_step s s' : sstep s s' -> sinv s -> sinv s'.
Proof.
  intros Hst HI. destruct Hst.
  - destruct HI as (Q & F & HR & Hs & _ & Hw). exists Q, F. split_and!; [done | done | | done]. simpl.
    split; [done |]. rewrite <- (rr_avail _ _ _ _ HR). done.
  - by eapply sinv_read_copies.
  - by apply sinv_read_stores.
  - destruct (after_read_counters r) as (E1 & E2 & E3). revert HI. apply sinv_flags; auto.
    intros Q F HR. destruct (after_read_spec _ _ _ _ HR) as (r' & E & HR' & _). by rewrite E.
  - destruct HI as (Q & F & HR & Hs & Hr & _). exists Q, F. split_and!; [done | done | done |]. simpl.
    pose proof (rr_avail _ _ _ _ HR) as Ha. pose proof (rr_len _ _ _ _ HR). unfold AvailableDataSize in Ha. simpl in *. split; [done | lia].
  - by eapply sinv_write_copies.
  - by apply sinv_write_stores.
  - destruct (after_write_counters r) as (E1 & E2 & E3). revert HI. apply sinv_flags; auto.
    intros Q F HR. destruct (after_write_spec _ _ _ _ HR) as (r' & E & HR' & _). by rewrite E.
Qed.

(** Every copy a side can be about to make succeeds. *)
Definition can_copy (s : Sys) : Prop :=
  (forall h t buf, sy_reader s = RLoaded h t buf -> exists res, read_copy (sy_mem s) (sy_ring s) h t buf = Ret res) /\
  (forall h t buf, sy_writer s = WLoaded h t buf -> exists res, write_copy (sy_mem s) (sy_ring s) h t buf = Ret res).

Lemma sinv_can_copy s : sinv s -> can_copy s.
Proof.
  intros (Q & F & HR & _ & Hr & Hw). destruct (rr_shape _ _ _ _ HR) as (k & Hk & Hm). split; intros h t buf E.
  - rewrite E in Hr. destruct Hr as [-> Ha]. eexists. apply (read_copy_spec _ k Hk Hm _ _ _ _ Q F); [apply HR | done].
  - rewrite E in Hw. destruct Hw as [-> Ha].
    destruct (write_copy_spec _ k Hk Hm (sy_mem s) h _ buf F Q (rr_tail _ _ _ _ HR) Ha) as (mem' & E' & _). by eexists.
Qed.

(** C5: With one reader and one writer interleaved at every load, copy and store, the bytes
    received are always a prefix of the bytes sent, the rest is in the ring between the
    counters, never more than the ring holds, and no copy reads or writes outside the ring
    or panics. *)
Theorem spsc_fifo pageCount heap mem l bs s : 0 < pageCount <= 524288 -> IsPowerOfTwo pageCount = true ->
  region mem heap l -> Z.of_nat (length l) = pageCount * 4096 ->
  ByteStream_Init pageCount heap = Ret bs ->
  rtc sstep (mkSys mem (bs_buf bs) RIdle WIdle [] []) s ->
  (exists Q, sy_sent s = sy_rcvd s ++ Q /\ Z.of_nat (length Q) = AvailableDataSize (sy_ring s) /\
    AvailableDataSize (sy_ring s) <= Len (sy_ring s)) /\ can_copy s.
Proof.
  intros Hp Hpow Hr Hl Hb Hreach. destruct (Init_rep pageCount heap mem l Hp Hpow Hr Hl) as (bs' & E & ((F & HR) & _) & _).
  rewrite Hb in E. injection E as <-.
  assert (HI : sinv s).
  { assert (H0 : sinv (mkSys mem (bs_buf bs) RIdle WIdle [] [])) by (by exists [], F).
    revert H0. induction Hreach as [| s1 s2 s3 Hst _ IH]; [done |]. intros H1. by apply IH, (sinv_step s1). }
  split; [| by apply sinv_can_copy]. destruct HI as (Q & F' & HR' & Hs & _). exists Q.
  pose proof (rr_len _ _ _ _ HR'). rewrite (rr_avail _ _ _ _ HR'). split_and!; [done | done | lia].
Qed.

(** The writer has copied its bytes; the reader loaded its counters before. *)
Lemma spsc_fifo_witness : exists mem bs s, ByteStream_Init 1 65536 = Ret bs /\
  rtc sstep (mkSys mem (bs_buf bs) RIdle WIdle [] []) s /\
  sy_writer s = WLoaded 0 0 [7; 8] /\ sy_reader s = RLoaded 0 0 [0] /\ can_copy s.
Proof.
  set (mem := memory 65536 (replicate 4096 0)).
  set (bs := mkStream (mkRingBuf 65536 4095 0 0 true false) Iovs_default Iovs_default).
  assert (Hreach : rtc sstep (mkSys mem (bs_buf bs) RIdle WIdle [] [])
    (mkSys mem (bs_buf bs) (RLoaded 0 0 [0]) (WLoaded 0 0 [7; 8]) [] [])).
  { eapply rtc_l; [apply (read_loads _ _ _ _ _ [0]) |]. eapply rtc_l; [apply (write_loads _ _ _ _ _ [7; 8]) |]. apply rtc_refl. }
  exists mem, bs, (mkSys mem (bs_buf bs) (RLoaded 0 0 [0]) (WLoaded 0 0 [7; 8]) [] []).
  split_and!; [reflexivity | exact Hreach | reflexivity | reflexivity |].
  apply (spsc_fifo 1 65536 mem (replicate 4096 0) bs); [lia | reflexivity | apply memory_region | by rewrite length_replicate | reflexivity | exact Hreach].
Defined.
