(* ===== verification/UserMsg.v ===== *)
(** Messages over iovecs: the [MessageIO] trait of qlib/bytestream.rs and its
    implementations in qlib/kernel/socket/resilience/user_msg.rs. *)
From S2P Require Import Prelude Range Path Mem RingBuf.
#[local] Open Scope Z_scope.
#[local] Open Scope u64_scope.

(** * Reading and writing: state is the memory and the iovecs, [?] returns early *)

Definition IO (A : Type) : Type := Mem * SocketBufIovs -> outcome ((Mem * SocketBufIovs) * Result A).

Definition io_ret {A} (a : A) : IO A := fun st => Ret (st, Ok a).

Definition io_bind {A B} (m : IO A) (f : A -> IO B) : IO B := fun st =>
  '(st, res) ← m st;
  match res with
  | inl e => Ret (st, Err e)
  | inr a => f a st
  end.

Declare Scope io_scope.
Delimit Scope io_scope with io.
Notation "x <-? m ; k" := (io_bind m (fun x => k)) (at level 20, m at level 100, k at level 200, right associativity) : io_scope.
Notation "m ;? k" := (io_bind m (fun _ => k)) (at level 100, k at level 200, right associativity) : io_scope.
#[local] Open Scope io_scope.

Definition io_ReadObj (size : nat) : IO Z := fun '(mem, s) =>
  '(s, res) ← ReadObj mem s size; Ret ((mem, s), res).
Definition io_ReadVec (size : Z) : IO (list Z) := fun '(mem, s) =>
  '(s, buf) ← ReadVec mem s size; Ret ((mem, s), Ok buf).
Definition io_ReadString (size : Z) : IO (list Z) := fun '(mem, s) =>
  '(s, res) ← ReadString mem s size; Ret ((mem, s), res).
Definition io_WriteSlice (data : list Z) : IO unit := fun '(mem, s) =>
  '(mem, s, res) ← WriteSlice mem s data; Ret ((mem, s), res).
Definition io_WriteObj (size : nat) (z : Z) : IO unit := fun '(mem, s) =>
  '(mem, s, res) ← WriteObj mem s size z; Ret ((mem, s), res).

Class MessageIO (T : Type) : Type := {
  Size : T -> Z;
  Read : IO T;
  Write_ : T -> IO unit;
}.

(** The buffer is [len] bytes at [addr]. *)
Definition Serialize {T} `{MessageIO T} (m : T) (mem : Mem) (addr len : Z) : outcome (Mem * Result Z) :=
  if len <? Size m then Ret (mem, Err (SysError EAGAIN))
  else
    iovs ← NewFromBuf addr len;
    '((mem, _), res) ← Write_ m (mem, iovs);
    Ret (mem, match res with inl e => Err e | inr _ => Ok (Size m) end).

Definition Deserialize {T} `{MessageIO T} (mem : Mem) (addr len : Z) : outcome (Result T) :=
  iovs ← NewFromBuf addr len;
  '(_, res) ← Read (mem, iovs);
  Ret res.

(** * The messages *)

Record UserFuncCall : Type := mkCall { fc_userdata : Z; fc_funcName : list Z; fc_payload : list Z }.

Record UserFuncResp : Type := mkResp { fr_userdata : Z; fr_sessionId : Z; fr_payload : list Z }.

Inductive UserMsg : Type :=
| MsgUserFuncCall (m : UserFuncCall)
| MsgUserFuncResp (m : UserFuncResp).

(** [UserMsgType] *)
Definition TYPE_UserFuncCall : Z := 1.
Definition TYPE_UserFuncResp : Z := 2.

Definition len16 (l : list Z) : Z := Z.of_nat (length l) mod 65536.

Definition Call_Size (m : UserFuncCall) : Z :=
  8 + (2 + Z.of_nat (length (fc_funcName m))) + (2 + Z.of_nat (length (fc_payload m))).

Definition Call_Read : IO UserFuncCall :=
  userData <-? io_ReadObj 8;
  namelen <-? io_ReadObj 2;
  name <-? io_ReadString namelen;
  buflen <-? io_ReadObj 2;
  payload <-? io_ReadVec buflen;
  io_ret (mkCall userData name payload).

Definition Call_Write (m : UserFuncCall) : IO unit :=
  io_WriteObj 8 (fc_userdata m) ;?
  io_WriteObj 2 (len16 (fc_funcName m)) ;?
  io_WriteSlice (fc_funcName m) ;?
  io_WriteObj 2 (len16 (fc_payload m)) ;?
  io_WriteSlice (fc_payload m).

#[global] Instance UserFuncCall_MessageIO : MessageIO UserFuncCall :=
  {| Size := Call_Size; Read := Call_Read; Write_ := Call_Write |}.

Definition Resp_Size (m : UserFuncResp) : Z := 8 + 8 + (2 + Z.of_nat (length (fr_payload m))).

Definition Resp_Read : IO UserFuncResp :=
  userData <-? io_ReadObj 8;
  sessionId <-? io_ReadObj 8;
  buflen <-? io_ReadObj 2;
  payload <-? io_ReadVec buflen;
  io_ret (mkResp userData sessionId payload).

Definition Resp_Write (m : UserFuncResp) : IO unit :=
  io_WriteObj 8 (fr_userdata m) ;?
  io_WriteObj 8 (fr_sessionId m) ;?
  io_WriteObj 2 (len16 (fr_payload m)) ;?
  io_WriteSlice (fr_payload m).

#[global] Instance UserFuncResp_MessageIO : MessageIO UserFuncResp :=
  {| Size := Resp_Size; Read := Resp_Read; Write_ := Resp_Write |}.

Definition Msg_Size (m : UserMsg) : Z :=
  match m with
  | MsgUserFuncCall m => 1 + Call_Size m
  | MsgUserFuncResp m => 1 + Resp_Size m
  end.

Definition Msg_Read : IO UserMsg :=
  msgType <-? io_ReadObj 1;
  if msgType =? TYPE_UserFuncCall then
    m <-? Call_Read; io_ret (MsgUserFuncCall m)
  else if msgType =? TYPE_UserFuncResp then
    m <-? Resp_Read; io_ret (MsgUserFuncResp m)
  else fun st => Ret (st, Err (SysError EINVAL)).

Definition Msg_Write (m : UserMsg) : IO unit :=
  match m with
  | MsgUserFuncCall m => io_WriteObj 1 TYPE_UserFuncCall ;? Call_Write m
  | MsgUserFuncResp m => io_WriteObj 1 TYPE_UserFuncResp ;? Resp_Write m
  end.

#[global] Instance UserMsg_MessageIO : MessageIO UserMsg :=
  {| Size := Msg_Size; Read := Msg_Read; Write_ := Msg_Write |}.
