(* ===== verification/UserMsgProps.v ===== *)
(** Serialising a message into a buffer and reading it back. *)
From S2P Require Import Prelude Range Path Mem RingBuf UserMsg.
#[local] Open Scope Z_scope.
#[local] Open Scope u64_scope.
#[local] Open Scope io_scope.

(** * Little-endian integers *)

Lemma length_le_bytes n z : length (le_bytes n z) = n.
Proof. revert z. induction n as [| n IH]; intros z; simpl; [done |]. by rewrite IH. Qed.

Lemma le_num_bytes n z : 0 <= z < 256 ^ Z.of_nat n -> le_num (le_bytes n z) = z.
Proof.
  revert z. induction n as [| n IH]; intros z Hz; [simpl in *; lia |].
  rewrite Nat2Z.inj_succ, Z.pow_succ_r in Hz by lia. cbn [le_bytes le_num].
  rewrite IH; [pose proof (Z.div_mod z 256); lia |].
  split; [apply Z.div_pos; lia | apply Z.div_lt_upper_bound; lia].
Qed.

(** * One contiguous buffer *)

(** The iovecs are what is left of a buffer: [n] bytes from [a] on. *)
Definition left_at (s : SocketBufIovs) (a n : Z) : Prop :=
  iov1 s = IoVec_default /\ 0 <= a /\ a + n < B64 /\
  ((0 < n /\ iov0 s = mkIoVec a n /\ iov_cnt s = 1) \/ (n = 0 /\ iov0 s = IoVec_default /\ iov_cnt s = 0)).

Lemma left_Count s a n : left_at s a n -> Iovs_Count s = Ret n.
Proof.
  intros (E1 & Ha & Hn & [(Hp & E & Ec) | (-> & E & Ec)]); unfold Iovs_Count, Iovs_Iovs; rewrite Ec; [| done].
  change (1 =? 0) with false. change (1 =? 1) with true. cbn [mbind outcome_bind foldl]. rewrite E, add64_small by (simpl; u64). done.
Qed.

Lemma left_Consume s a n size : left_at s a n -> 0 <= size <= n ->
  exists s', Iovs_Consume s size = Ret s' /\ (0 < n -> left_at s' (a + size) (n - size)).
Proof.
  intros Hs Hsz. unfold Iovs_Consume. rewrite (left_Count s a n Hs), bind_ret.
  destruct (Z.ltb_spec n size); [lia |]. destruct Hs as (E1 & Ha & Hn & [(Hp & E & Ec) | (-> & E & Ec)]); rewrite E; cbn [iov_len iov_start].
  - destruct (Z.ltb_spec size n).
    + eexists. split; [reflexivity |]. intros _. rewrite add64_small, sub64_small by u64.
      split_and!; [done | simpl; lia | lia |]. left. split_and!; [lia | done | done].
    + destruct (Z.eqb_spec n size) as [-> |]; [| lia]. eexists. split; [reflexivity |]. intros _. rewrite Ec, E1.
      split_and!; [done | lia | lia |]. right. split_and!; [lia | done | done].
  - assert (size = 0) as -> by lia. eexists. split; [reflexivity |]. lia.
Qed.

(** * What a writer writes and a reader reads *)

(** [m] writes exactly [b] at the front of the buffer; a single write leaves the rest. *)
Definition writes_then (post : SocketBufIovs -> Z -> Z -> Prop) (m : IO unit) (b : list Z) : Prop :=
  forall mem s a n old, left_at s a n -> region mem a old -> Z.of_nat (length old) = n -> Z.of_nat (length b) <= n ->
  exists mem' s', m (mem, s) = Ret ((mem', s'), Ok tt) /\ region mem' a (b ++ drop (length b) old) /\
    (forall x, ~ (a <= x < a + n) -> mem' !! x = mem !! x) /\
    (0 < n -> post s' (a + Z.of_nat (length b)) (n - Z.of_nat (length b))).

Abbreviation writes_op := (writes_then left_at).
Abbreviation writes := (writes_then (fun _ _ _ => True)).

(** [m] reads [b] at the front of the buffer and returns [v]. *)
Definition reads_then (post : SocketBufIovs -> Z -> Z -> Prop) {A} (m : IO A) (v : A) (b : list Z) : Prop :=
  forall mem s a n rest, left_at s a n -> region mem a (b ++ rest) -> Z.of_nat (length (b ++ rest)) = n ->
  exists s', m (mem, s) = Ret ((mem, s'), Ok v) /\
    (0 < n -> post s' (a + Z.of_nat (length b)) (n - Z.of_nat (length b))).

Abbreviation reads_op := (reads_then left_at).
Abbreviation reads := (reads_then (fun _ _ _ => True)).

Lemma left_fits s a n size : left_at s a n -> size <= n -> (size <=? iov_len (iov0 s)) = true /\ (0 < size -> iov_start (iov0 s) = a).
Proof.
  intros (_ & _ & _ & [(Hp & E & _) | (-> & E & _)]) Hs; rewrite E; simpl; (split; [apply Z.leb_le; lia | lia || done]).
Qed.

Lemma writes_slice d : writes_op (io_WriteSlice d) d.
Proof.
  intros mem s a n old Hs Hr Hl Hd. unfold io_WriteSlice, WriteSlice. rewrite (left_Count s a n Hs), bind_ret.
  destruct (Z.ltb_spec n (Z.of_nat (length d))); [lia |]. destruct (left_fits s a n _ Hs Hd) as [-> Hst].
  destruct (left_Consume s a n (Z.of_nat (length d)) Hs ltac:(lia)) as (s' & Hc & Hleft).
  rewrite <- (take_drop (length d) old) in Hr. apply region_app in Hr as [Hr1 Hr2]. rewrite length_take, Nat.min_l in Hr2 by lia.
  destruct (decide (d = [])) as [-> | Hne].
  { exists mem, s'. cbn [store_bytes]. rewrite bind_ret, Hc, !bind_ret. rewrite Z.add_0_r in Hr2.
    split_and!; [done | done | done | done]. }
  rewrite Hst by (destruct d; [done | simpl; lia]).
  destruct (store_region mem a d _ Hr1) as (mem' & E & Hr' & Hf); [rewrite length_take; lia |].
  exists mem', s'. rewrite E, bind_ret, Hc, !bind_ret. split_and!; [done | | | done].
  - apply region_app. split; [done |]. eapply region_frame; [exact Hr2 | exact Hf |]. right. lia.
  - intros x Hx. apply Hf. lia.
Qed.

Lemma writes_obj k z : writes_op (io_WriteObj k z) (le_bytes k z).
Proof. apply writes_slice. Qed.

Lemma writes_weaken m b : writes_op m b -> writes m b.
Proof.
  intros H mem s a n old Hs Hr Hl Hb. destruct (H mem s a n old Hs Hr Hl Hb) as (mem' & s' & E & Hr' & Hf & _). by exists mem', s'.
Qed.

Lemma writes_seq m1 m2 b1 b2 : writes_op m1 b1 -> writes m2 b2 -> b1 ++ b2 <> [] -> writes (m1 ;? m2) (b1 ++ b2).
Proof.
  intros H1 H2 Hne mem s a n old Hs Hr Hl Hb.
  assert (0 < n) by (destruct (b1 ++ b2); [done | simpl in Hb; lia]). rewrite length_app in Hb.
  destruct (H1 mem s a n old Hs Hr Hl ltac:(lia)) as (mem1 & s1 & E1 & Hr1 & Hf1 & Hs1). apply region_app in Hr1 as [Hra Hrb].
  destruct (H2 mem1 s1 _ _ (drop (length b1) old) (Hs1 ltac:(lia)) Hrb) as (mem2 & s2 & E2 & Hr2 & Hf2 & _);
    [rewrite length_drop; lia | lia |].
  exists mem2, s2. unfold io_bind. rewrite E1, bind_ret. split_and!; [done | | | done].
  - rewrite <- (assoc_L (++)). apply region_app. split.
    + eapply region_frame; [exact Hra | exact Hf2 |]. left. lia.
    + rewrite length_app, <- drop_drop. exact Hr2.
  - intros x Hx. rewrite Hf2 by lia. by apply Hf1.
Qed.

Lemma reads_vec d : reads_op (io_ReadVec (Z.of_nat (length d))) d d.
Proof.
  intros mem s a n rest Hs Hr Hl. rewrite length_app in Hl. unfold io_ReadVec, ReadVec. rewrite (left_Count s a n Hs), bind_ret.
  destruct (Z.ltb_spec n (Z.of_nat (length d))); [lia |]. destruct (left_fits s a n (Z.of_nat (length d)) Hs ltac:(lia)) as [-> Hst].
  destruct (left_Consume s a n (Z.of_nat (length d)) Hs ltac:(lia)) as (s' & Hc & Hleft). apply region_app in Hr as [Hr _].
  exists s'. rewrite Nat2Z.id. split; [| done]. destruct (decide (d = [])) as [-> | Hne].
  - by rewrite (load_region mem (iov_start (iov0 s)) [] (region_nil _ _)), bind_ret, Hc.
  - rewrite Hst by (destruct d; [done | simpl; lia]). by rewrite (load_region mem a d Hr), bind_ret, Hc.
Qed.

Lemma reads_num d : d <> [] -> reads_op (io_ReadObj (length d)) (le_num d) d.
Proof.
  intros Hd mem s a n rest Hs Hr Hl. rewrite length_app in *. assert (0 < length d)%nat by (destruct d; [done | simpl; lia]).
  unfold io_ReadObj, ReadObj. rewrite (left_Count s a n Hs), bind_ret.
  destruct (Z.ltb_spec n (Z.of_nat (length d))); [lia |]. destruct (left_fits s a n (Z.of_nat (length d)) Hs ltac:(lia)) as [-> Hst].
  destruct (left_Consume s a n (Z.of_nat (length d)) Hs ltac:(lia)) as (s' & Hc & Hleft). apply region_app in Hr as [Hr _].
  exists s'. split; [| done]. rewrite Hst by lia. by rewrite (load_region mem a _ Hr), bind_ret, Hc.
Qed.

Lemma reads_obj k z : (0 < k)%nat -> 0 <= z < 256 ^ Z.of_nat k -> reads_op (io_ReadObj k) z (le_bytes k z).
Proof.
  intros Hk Hz. assert (Hne : le_bytes k z <> []) by (by destruct k; [lia |]).
  pose proof (reads_num (le_bytes k z) Hne) as H. by rewrite length_le_bytes, le_num_bytes in H.
Qed.

Lemma reads_weaken {A} (m : IO A) v b : reads_op m v b -> reads m v b.
Proof. intros H mem s a n rest Hs Hr Hl. destruct (H mem s a n rest Hs Hr Hl) as (s' & E & _). by exists s'. Qed.

Lemma reads_seq {A B} (m : IO A) (f : A -> IO B) v w b1 b2 : reads_op m v b1 -> reads (f v) w b2 -> b1 ++ b2 <> [] ->
  reads (io_bind m f) w (b1 ++ b2).
Proof.
  intros H1 H2 Hne mem s a n rest Hs Hr Hl.
  assert (0 < n) by (rewrite length_app in Hl; destruct (b1 ++ b2); [done | simpl in Hl; lia]).
  rewrite <- (assoc_L (++)) in Hr, Hl. destruct (H1 mem s a n _ Hs Hr Hl) as (s1 & E1 & Hs1). apply region_app in Hr as [_ Hr].
  rewrite length_app in Hl.
  destruct (H2 mem s1 _ _ rest (Hs1 ltac:(lia)) Hr ltac:(lia)) as (s2 & E2 & _).
  exists s2. unfold io_bind. by rewrite E1, bind_ret.
Qed.

Lemma reads_map {A B} (m : IO A) (f : A -> B) v b : reads m v b -> reads (x <-? m; io_ret (f x)) (f v) b.
Proof.
  intros H mem s a n rest Hs Hr Hl. destruct (H mem s a n rest Hs Hr Hl) as (s' & E & _). exists s'.
  unfold io_bind. by rewrite E.
Qed.

(** * Codecs *)

(** The bytes of a message, which its [Write] produces and its [Read] takes. *)
Class Codec (T : Type) `{MessageIO T} : Type := {
  wf : T -> Prop;
  enc : T -> list Z;
  enc_size m : Size m = Z.of_nat (length (enc m));
  enc_nonempty m : enc m <> [];
  enc_write m : wf m -> writes (Write_ m) (enc m);
  enc_read m : wf m -> reads Read m (enc m);
}.

Lemma NewFromBuf_left a n : 0 < n -> 0 <= a -> a + n < B64 -> exists s, NewFromBuf a n = Ret s /\ left_at s a n.
Proof.
  intros Hn Ha Hs. unfold NewFromBuf. destruct (Z.eqb_spec n 0); [lia |]. eexists. split; [done |]. split_and!; [done | done | done |].
  by left.
Qed.

Lemma codec_roundtrip {T} `{Codec T} (m : T) mem a old : wf m -> region mem a old -> 0 <= a ->
  a + Z.of_nat (length old) < B64 -> Size m <= Z.of_nat (length old) ->
  exists mem', Serialize m mem a (Z.of_nat (length old)) = Ret (mem', Ok (Size m)) /\
    Deserialize mem' a (Z.of_nat (length old)) = Ret (Ok m) /\
    region mem' a (enc m ++ drop (length (enc m)) old).
Proof.
  intros Hw Hr Ha Hb Hs. pose proof (enc_size m) as Hsz. pose proof (enc_nonempty m).
  assert (0 < Z.of_nat (length (enc m))) by (destruct (enc m); [done | simpl; lia]).
  destruct (NewFromBuf_left a (Z.of_nat (length old))) as (s & En & Hl); [lia | done | done |].
  destruct (enc_write m Hw mem s a _ old Hl Hr eq_refl ltac:(lia)) as (mem' & s' & Ew & Hr' & _).
  exists mem'. unfold Serialize, Deserialize. destruct (Z.ltb_spec (Z.of_nat (length old)) (Size m)); [lia |].
  rewrite En, !bind_ret, Ew, bind_ret. split_and!; [done | | done].
  destruct (enc_read m Hw mem' s a _ (drop (length (enc m)) old) Hl Hr') as (s2 & Er & _); [| by rewrite Er].
  rewrite length_app, length_drop. lia.
Qed.

Lemma len16_small l : Z.of_nat (length l) < 65536 -> len16 l = Z.of_nat (length l).
Proof. intros H. apply Z.mod_small. lia. Qed.

Definition in16 (l : list Z) : Prop := Z.of_nat (length l) < 65536.

(** A length and that many bytes. *)
Definition enc_vec (l : list Z) : list Z := le_bytes 2 (len16 l) ++ l.

(** ** Responses *)

Definition Resp_enc (m : UserFuncResp) : list Z :=
  le_bytes 8 (fr_userdata m) ++ le_bytes 8 (fr_sessionId m) ++ enc_vec (fr_payload m).

Definition Resp_wf (m : UserFuncResp) : Prop :=
  in64 (fr_userdata m) /\ in64 (fr_sessionId m) /\ in16 (fr_payload m).

Lemma Resp_writes m : writes (Resp_Write m) (Resp_enc m).
Proof.
  repeat (apply writes_seq; [apply writes_obj | | done]). apply writes_weaken, writes_slice.
Qed.

(** Reading a vector and going on with it. *)
Lemma reads_enc_vec {B} (f : list Z -> B) l : in16 l ->
  reads (buflen <-? io_ReadObj 2; payload <-? io_ReadVec buflen; io_ret (f payload)) (f l) (enc_vec l).
Proof.
  intros H. apply (reads_seq _ _ (Z.of_nat (length l))); [| | done].
  - unfold enc_vec. rewrite (len16_small l H). apply reads_obj; [lia |]. unfold in16 in H. simpl. lia.
  - apply reads_map, reads_weaken, reads_vec.
Qed.

Lemma Resp_reads m : Resp_wf m -> reads Resp_Read m (Resp_enc m).
Proof.
  intros (H1 & H2 & H3). destruct m as [u s p]. cbn [fr_userdata fr_sessionId fr_payload] in *.
  unfold Resp_Read, Resp_enc. cbn [fr_userdata fr_sessionId fr_payload].
  apply (reads_seq _ _ u); [apply reads_obj; [lia | exact H1] | | done].
  apply (reads_seq _ _ s); [apply reads_obj; [lia | exact H2] | | done]. by apply reads_enc_vec.
Qed.

Lemma Resp_enc_size m : Size m = Z.of_nat (length (Resp_enc m)).
Proof. unfold Resp_enc, enc_vec. rewrite !length_app, !length_le_bytes. simpl. unfold Resp_Size. lia. Qed.

(** ** Calls *)

Definition Call_enc (m : UserFuncCall) : list Z :=
  le_bytes 8 (fc_userdata m) ++ enc_vec (fc_funcName m) ++ enc_vec (fc_payload m).

Lemma Call_writes m : writes (Call_Write m) (Call_enc m).
Proof.
  unfold Call_enc, enc_vec. rewrite <- !(assoc_L (++)).
  apply writes_seq; [apply writes_obj | | done]. apply writes_seq; [apply writes_obj | | done].
  apply writes_seq; [apply writes_slice | | by destruct (fc_funcName m)].
  apply writes_seq; [apply writes_obj | | done]. apply writes_weaken, writes_slice.
Qed.

Lemma load_length mem k : forall a l, load mem a k = Ret l -> length l = k.
Proof.
  induction k as [| k IH]; intros a l; simpl; [by intros [=<-] |]. destruct (mem !! a); [| done].
  destruct (load mem (a + 1) k) as [l' | |] eqn:E; [| done | done]. intros [=<-]. simpl. by rewrite (IH _ _ E).
Qed.

(** A vector that was read is not longer than what was left. *)
Lemma ReadVec_bound mem s a n size s' buf : left_at s a n -> ReadVec mem s size = Ret (s', buf) ->
  Z.of_nat (length buf) <= n.
Proof.
  intros Hs. unfold ReadVec. rewrite (left_Count s a n Hs), bind_ret. destruct (Z.ltb_spec n size) as [| Hn]; [done |].
  destruct (left_fits s a n size Hs Hn) as [-> _]. destruct (load _ _ _) as [l | |] eqn:E; [| done | done].
  rewrite bind_ret. destruct (Iovs_Consume s size); [| done | done]. intros [=_ <-]. apply load_length in E.
  destruct Hs as (_ & _ & _ & [(? & _) | (? & _)]); lia.
Qed.

(** What a call reads after its name is a payload that fits in what is left. *)
Lemma Call_tail {B} (f : list Z -> B) mem s a n l st v : left_at s a n -> region mem a l -> Z.of_nat (length l) = n -> 0 < n ->
  (buflen <-? io_ReadObj 2; payload <-? io_ReadVec buflen; io_ret (f payload)) (mem, s) = Ret (st, Ok v) ->
  exists p, v = f p /\ Z.of_nat (length p) + 2 <= n.
Proof.
  intros Hs Hr Hl Hn. destruct (Z.lt_ge_cases n 2) as [Hlt | Hge].
  - unfold io_bind at 1, io_ReadObj, ReadObj. rewrite (left_Count s a n Hs), bind_ret.
    rewrite (proj2 (Z.ltb_lt n (Z.of_nat 2))) by (simpl; lia). done.
  - assert (Hd : length (take 2 l) = 2%nat) by (rewrite length_take; lia). rewrite <- (take_drop 2 l) in Hr, Hl.
    destruct (reads_num (take 2 l)) with (mem := mem) (s := s) (a := a) (n := n) (rest := drop 2 l) as (s1 & E1 & Hs1);
      [by destruct (take 2 l) | done | done | done |]. specialize (Hs1 Hn). rewrite Hd in E1, Hs1.
    unfold io_bind at 1. rewrite E1, bind_ret. unfold io_bind, io_ReadVec.
    destruct (ReadVec mem s1 (le_num (take 2 l))) as [[s2 buf] | |] eqn:E2; [| done | done].
    rewrite !bind_ret. intros [=_ <-]. exists buf. split; [done |].
    pose proof (ReadVec_bound _ _ _ _ _ _ _ Hs1 E2). lia.
Qed.

(** [ReadString] skips the string a second time. *)
Lemma ReadString_skips mem s a n str rest s' v : left_at s a n -> region mem a (str ++ rest) ->
  Z.of_nat (length (str ++ rest)) = n -> rest <> [] ->
  io_ReadString (Z.of_nat (length str)) (mem, s) = Ret ((mem, s'), Ok v) ->
  (length str <= length rest)%nat /\
  left_at s' (a + 2 * Z.of_nat (length str)) (n - 2 * Z.of_nat (length str)).
Proof.
  intros Hs Hr Hl Hne. assert (Hrest : (0 < length rest)%nat) by (destruct rest; [done | simpl; lia]). rewrite length_app in Hl.
  destruct (reads_vec str mem s a n rest Hs Hr ltac:(rewrite length_app; lia)) as (s1 & E1 & Hs1). specialize (Hs1 ltac:(lia)).
  unfold io_ReadVec in E1. unfold io_ReadString, ReadString. destruct (ReadVec mem s (Z.of_nat (length str))) as [[s2 buf] | |]; try done.
  revert E1. rewrite !bind_ret. intros [=-> ->].
  destruct (decide (length str <= length rest)%nat) as [Hle | Hgt].
  - destruct (left_Consume s1 _ _ (Z.of_nat (length str)) Hs1 ltac:(lia)) as (s3 & Ec & Hs3). specialize (Hs3 ltac:(lia)).
    rewrite Ec, !bind_ret. intros [=<- _]. split; [done |].
    replace (a + 2 * Z.of_nat (length str)) with (a + Z.of_nat (length str) + Z.of_nat (length str)) by lia.
    by replace (n - 2 * Z.of_nat (length str)) with (n - Z.of_nat (length str) - Z.of_nat (length str)) by lia.
  - unfold Iovs_Consume. rewrite (left_Count s1 _ _ Hs1), bind_ret.
    destruct (Z.ltb_spec (n - Z.of_nat (length str)) (Z.of_nat (length str))); [done | lia].
Qed.

(** Reading the part of a call after the user data. *)
Lemma Call_read_rest u mem s a n name p st c : left_at s a n -> region mem a (enc_vec name ++ enc_vec p) ->
  Z.of_nat (length (enc_vec name ++ enc_vec p)) = n -> in16 name -> name <> [] ->
  (namelen <-? io_ReadObj 2; name <-? io_ReadString namelen; buflen <-? io_ReadObj 2;
   payload <-? io_ReadVec buflen; io_ret (mkCall u name payload)) (mem, s) = Ret (st, Ok c) ->
  (length (fc_payload c) < length p)%nat.
Proof.
  intros Hs Hr Hl Hn Hne E. unfold enc_vec at 1 in Hr. unfold enc_vec at 1 in Hl. rewrite <- (assoc_L (++)), len16_small in Hr, Hl by done.
  assert (HL : 0 < Z.of_nat (length name)) by (destruct name; [done | simpl; lia]).
  destruct (reads_obj 2 (Z.of_nat (length name)) ltac:(lia) ltac:(unfold in16 in Hn; simpl; lia) mem s a n _ Hs Hr Hl) as (s1 & E1 & Hs1).
  rewrite !length_app, length_le_bytes in *. specialize (Hs1 ltac:(lia)).
  apply region_app in Hr as [_ Hr]. rewrite length_le_bytes in Hr. unfold io_bind at 1 in E. rewrite E1, bind_ret in E.
  unfold io_bind at 1 in E. destruct (io_ReadString (Z.of_nat (length name)) (mem, s1)) as [[[mem' s2] [e | v]] | |] eqn:E2; try done.
  assert (mem' = mem) as ->.
  { unfold io_ReadString in E2. destruct (ReadString mem s1 _) as [[? ?] | |]; try done. by injection E2. }
  rewrite bind_ret in E. 
  destruct (ReadString_skips mem s1 _ _ name (enc_vec p) s2 v Hs1 Hr ltac:(rewrite length_app; lia) ltac:(done) E2) as [Hle Hs2].
  apply region_app in Hr as [_ Hr]. rewrite <- (take_drop (length name) (enc_vec p)) in Hr. apply region_app in Hr as [_ Hr].
  rewrite length_take, Nat.min_l in Hr by done. unfold enc_vec in Hle, Hl. rewrite length_app, length_le_bytes in Hle, Hl.
  destruct (decide (length name = length (enc_vec p))) as [Heq | Hneq].
  - unfold enc_vec in Heq. rewrite length_app, length_le_bytes in Heq. exfalso. revert E.
    unfold io_bind at 1, io_ReadObj, ReadObj. rewrite (left_Count s2 _ _ Hs2), bind_ret.
    destruct (Z.ltb_spec (n - Z.of_nat 2 - 2 * Z.of_nat (length name)) (Z.of_nat 2)); [done | lia].
  - unfold enc_vec in Hneq. rewrite length_app, length_le_bytes in Hneq.
    destruct (Call_tail (mkCall u v) mem s2 _ _ (drop (length name) (enc_vec p)) st c Hs2) as (q & -> & Hq); [| | | done | simpl; lia].
    + replace (a + Z.of_nat 2 + 2 * Z.of_nat (length name)) with (a + Z.of_nat 2 + Z.of_nat (length name) + Z.of_nat (length name)) by lia. exact Hr.
    + rewrite length_drop. unfold enc_vec. rewrite length_app, length_le_bytes. lia.
    + lia.
Qed.

(** A call with a function name is never read back: [ReadString] consumes the name
    twice, so the payload that is read, if the reader gets that far without a panic, is
    shorter than the one that was written. *)
Theorem call_not_read_back c mem a old : in64 (fc_userdata c) -> in16 (fc_funcName c) -> fc_funcName c <> [] ->
  region mem a old -> 0 <= a -> a + Z.of_nat (length old) < B64 -> Z.of_nat (length old) = Size c ->
  exists mem', Serialize c mem a (Size c) = Ret (mem', Ok (Size c)) /\ Deserialize mem' a (Size c) <> Ret (Ok c).
Proof.
  intros Hu Hn Hne Hr Ha Hb Hl.
  assert (Hsz : Size c = Z.of_nat (length (Call_enc c))).
  { unfold Call_enc, enc_vec. rewrite !length_app, !length_le_bytes. simpl. unfold Call_Size. lia. }
  assert (Hpos : 0 < Size c) by (simpl; unfold Call_Size; lia).
  destruct (NewFromBuf_left a (Size c)) as (s & En & Hs); [lia | done | lia |].
  destruct (Call_writes c mem s a _ old Hs Hr ltac:(lia) ltac:(lia)) as (mem' & s' & Ew & Hr' & _).
  exists mem'. unfold Serialize, Deserialize. rewrite Z.ltb_irrefl, En, !bind_ret. cbn [Write_ UserFuncCall_MessageIO Read].
  rewrite Ew, bind_ret. split; [done |]. rewrite drop_ge, (right_id_L [] (++)) in Hr' by lia.
  destruct (reads_obj 8 (fc_userdata c) ltac:(lia) Hu mem' s a (Size c) _ Hs Hr' (eq_sym Hsz)) as (s1 & E1 & Hs1).
  specialize (Hs1 Hpos). apply region_app in Hr' as [_ Hr']. unfold Call_Read, io_bind at 1. rewrite E1, bind_ret.
  match goal with |- context [?m (mem', s1)] => destruct (m (mem', s1)) as [[st [e | c']] | |] eqn:E end; try done. rewrite bind_ret. intros [=->].
  rewrite length_le_bytes in Hs1, Hr'. unfold Call_enc in Hsz. rewrite length_app, length_le_bytes in Hsz.
  apply (Call_read_rest _ mem' s1 _ _ (fc_funcName c) (fc_payload c) st c Hs1 Hr' ltac:(lia) Hn Hne) in E. lia.
Qed.

Lemma call_not_read_back_witness : exists mem', let c := mkCall 5 [102] [1; 2; 3] in
  Serialize c (memory 65536 (replicate 16 0)) 65536 16 = Ret (mem', Ok 16) /\ Deserialize mem' 65536 16 <> Ret (Ok c).
Proof.
  apply (call_not_read_back (mkCall 5 [102] [1; 2; 3]) (memory 65536 (replicate 16 0)) 65536 (replicate 16 0));
    [done | done | done | apply memory_region | done | done | done].
Defined.

(** ** Messages *)

Definition Msg_enc (m : UserMsg) : list Z :=
  match m with
  | MsgUserFuncCall m => le_bytes 1 TYPE_UserFuncCall ++ Call_enc m
  | MsgUserFuncResp m => le_bytes 1 TYPE_UserFuncResp ++ Resp_enc m
  end.

Definition Msg_wf (m : UserMsg) : Prop :=
  match m with MsgUserFuncCall _ => False | MsgUserFuncResp m => Resp_wf m end.

Lemma Msg_enc_size m : Size m = Z.of_nat (length (Msg_enc m)).
Proof.
  destruct m as [m | m]; cbn [Size UserMsg_MessageIO Msg_Size Msg_enc]; rewrite length_app, length_le_bytes.
  - unfold Call_enc, enc_vec, Call_Size. rewrite !length_app, !length_le_bytes. lia.
  - rewrite Nat2Z.inj_add, <- (Resp_enc_size m). simpl. lia.
Qed.

Lemma Msg_enc_nonempty m : Msg_enc m <> [].
Proof. by destruct m. Qed.

Lemma Msg_enc_write m : Msg_wf m -> writes (Msg_Write m) (Msg_enc m).
Proof. destruct m as [m | m]; intros Hw; [done |]. apply writes_seq; [apply writes_obj | apply Resp_writes | done]. Qed.

Lemma Msg_enc_read m : Msg_wf m -> reads Msg_Read m (Msg_enc m).
Proof.
  destruct m as [m | m]; intros Hw; [done |]. apply (reads_seq _ _ TYPE_UserFuncResp); [apply reads_obj; [lia | done] | | done].
  by apply reads_map, Resp_reads.
Qed.

#[global] Instance Msg_Codec : Codec UserMsg :=
  {| wf := Msg_wf; enc := Msg_enc; enc_size := Msg_enc_size; enc_nonempty := Msg_enc_nonempty;
     enc_write := Msg_enc_write; enc_read := Msg_enc_read |}.

(** A response that is serialised into a buffer with room for it is read back unchanged,
    whatever the buffer held and whatever follows it; the reported size is the number of
    bytes of the message. *)
Theorem response_roundtrip r mem a old : Resp_wf r -> region mem a old -> 0 <= a ->
  a + Z.of_nat (length old) < B64 -> Size (MsgUserFuncResp r) <= Z.of_nat (length old) ->
  exists mem', Serialize (MsgUserFuncResp r) mem a (Z.of_nat (length old)) = Ret (mem', Ok (Size (MsgUserFuncResp r))) /\
    Deserialize mem' a (Z.of_nat (length old)) = Ret (Ok (MsgUserFuncResp r)) /\
    Size (MsgUserFuncResp r) = Z.of_nat (length (Msg_enc (MsgUserFuncResp r))).
Proof.
  intros Hw Hr Ha Hb Hs. destruct (codec_roundtrip (MsgUserFuncResp r) mem a old) as (mem' & E1 & E2 & _); [exact Hw | done | done | done | done |].
  exists mem'. split_and!; [done | done |]. apply Msg_enc_size.
Qed.

Lemma response_roundtrip_witness : exists mem', let r := MsgUserFuncResp (mkResp 5 77 [1; 2; 3]) in
  Serialize r (memory 65536 (replicate 22 0)) 65536 22 = Ret (mem', Ok 22) /\ Deserialize mem' 65536 22 = Ret (Ok r).
Proof.
  destruct (response_roundtrip (mkResp 5 77 [1; 2; 3]) (memory 65536 (replicate 22 0)) 65536 (replicate 22 0)) as (mem' & E1 & E2 & _);
    [done | apply memory_region | done | done | done |]. exists mem'. split; [exact E1 | exact E2].
Defined.
