(* ===== verification/RingIovs.v ===== *)
(** The byte stream through its iovecs ([GetSpaceIovs], [WriteSlice], [Produce] and
    [GetDataIovs], [ReadVec], [Consume]), and [writeFull]. *)
From S2P Require Import Prelude Range Path Mem RingBuf RingThm RingProps.
#[local] Open Scope Z_scope.
#[local] Open Scope u64_scope.

(** The ring does not wrap around the address space. *)
Definition buf_in64 (r : RingBuf) : Prop := 0 <= rb_buf r /\ rb_buf r + Len r < B64.

Section Iovs.
Context (mem : Mem) (r : RingBuf) (Q F : list Z) (HR : RingRep mem r Q F) (Hb : buf_in64 r).

(** The space up to the end of the ring. *)
Definition space_end : Z := Len r - rb_tail r mod Len r.
Definition data_end : Z := Len r - rb_head r mod Len r.

Lemma len_facts : 0 < Len r <= 2147483648 /\ 0 <= rb_tail r mod Len r < Len r /\ 0 <= rb_head r mod Len r < Len r /\
  Z.of_nat (length Q) + Z.of_nat (length F) = Len r.
Proof.
  pose proof (shape_Len r (rr_shape _ _ _ _ HR)). pose proof (rr_len _ _ _ _ HR).
  split_and!; try lia; apply Z.mod_pos_bound; lia.
Qed.

(** The iovecs of a piece of the ring: [n] bytes from position [p] on. *)
Definition piece (p n : Z) (s : SocketBufIovs) : Prop :=
  let e := Len r - p in
  iov0 s = mkIoVec (rb_buf r + p) (Z.min e n) /\
  (if e <? n then iov1 s = mkIoVec (rb_buf r) (n - e) /\ iov_cnt s = 2 else iov_cnt s = 1).

Lemma space_iovs d : F <> [] -> exists s, PrepareSpaceIovs r d = Ret s /\ piece (rb_tail r mod Len r) (Z.of_nat (length F)) s.
Proof.
  intros Hne. pose proof len_facts as (HL & Ht & _ & Hl). destruct Hb as [Hb0 Hb1]. destruct (rr_shape _ _ _ _ HR) as (k & Hk & Hm).
  assert (0 < Z.of_nat (length F)) by (destruct F; [done | simpl; lia]).
  unfold PrepareSpaceIovs. rewrite (rr_avail _ _ _ _ HR), (land_mask r k Hk Hm).
  destruct (Z.eqb_spec (Z.of_nat (length Q)) (Len r)); [lia |]. cbv zeta. rewrite !(sub64_small (Len r)) by u64.
  replace (Len r - Z.of_nat (length Q)) with (Z.of_nat (length F)) by lia. unfold Buf_addr, piece.
  destruct (Z.ltb_spec (Len r - rb_tail r mod Len r) (Z.of_nat (length F))) as [Hlt | Hge].
  - rewrite !(proj2 (Z.ltb_lt _ _)) by lia. rewrite !bind_ret, !add64_small by u64. rewrite sub64_small by u64.
    eexists. split; [reflexivity |]. cbn [iov0 iov1 iov_cnt]. rewrite Z.min_l, Z.add_0_r by lia. done.
  - rewrite (proj2 (Z.ltb_lt _ _)) by lia. rewrite bind_ret, add64_small by u64.
    eexists. split; [reflexivity |]. cbn [iov0 iov_cnt]. rewrite Z.min_r by lia. done.
Qed.

Lemma data_iovs d : Q <> [] -> exists s, PrepareDataIovs r d = Ret s /\ piece (rb_head r mod Len r) (Z.of_nat (length Q)) s.
Proof.
  intros Hne. pose proof len_facts as (HL & _ & Hh & Hl). destruct Hb as [Hb0 Hb1]. destruct (rr_shape _ _ _ _ HR) as (k & Hk & Hm).
  assert (0 < Z.of_nat (length Q)) by (destruct Q; [done | simpl; lia]).
  unfold PrepareDataIovs. rewrite (rr_avail _ _ _ _ HR), (land_mask r k Hk Hm).
  destruct (Z.eqb_spec (Z.of_nat (length Q)) 0); [lia |]. cbv zeta. rewrite !(sub64_small (Len r)) by u64. unfold Buf_addr, piece.
  destruct (Z.ltb_spec (Len r - rb_head r mod Len r) (Z.of_nat (length Q))) as [Hlt | Hge].
  - rewrite !(proj2 (Z.ltb_lt _ _)) by lia. rewrite !bind_ret, !add64_small by u64. rewrite sub64_small by u64.
    eexists. split; [reflexivity |]. cbn [iov0 iov1 iov_cnt]. rewrite Z.min_l, Z.add_0_r by lia. done.
  - rewrite (proj2 (Z.ltb_lt _ _)) by lia. rewrite bind_ret, add64_small by u64.
    eexists. split; [reflexivity |]. cbn [iov0 iov_cnt]. rewrite Z.min_r by lia. done.
Qed.

Lemma piece_Count p n s : piece p n s -> 0 <= p < Len r -> 0 <= n <= Len r -> Iovs_Count s = Ret n.
Proof.
  intros [E0 E] Hp Hn. pose proof len_facts as (HL & _). unfold Iovs_Count, Iovs_Iovs.
  destruct (Z.ltb_spec (Len r - p) n).
  - destruct E as [E1 ->]. cbn [Z.eqb Pos.eqb mbind outcome_bind foldl]. rewrite E0, E1. cbn [iov_len].
    rewrite Z.min_l by lia. rewrite (add64_small 0) by u64. rewrite add64_small by u64. f_equal. lia.
  - rewrite E. cbn [Z.eqb Pos.eqb mbind outcome_bind foldl]. rewrite E0. cbn [iov_len].
    rewrite Z.min_r by lia. by rewrite add64_small by u64.
Qed.

Lemma piece_Consume p n s size : piece p n s -> 0 <= p < Len r -> 0 <= n <= Len r -> size <= n -> exists s', Iovs_Consume s size = Ret s'.
Proof.
  intros Hpc Hp Hn Hs. unfold Iovs_Consume. rewrite (piece_Count p n s Hpc Hp Hn), bind_ret.
  destruct (Z.ltb_spec n size); [lia |]. repeat case_match; by eexists.
Qed.
End Iovs.

(** Writing through the space iovecs stores where [write] would. *)
Lemma WriteSlice_ring mem r Q F s d : RingRep mem r Q F -> buf_in64 r ->
  piece r (rb_tail r mod Len r) (Z.of_nat (length F)) s -> (length d <= length F)%nat ->
  exists mem' s', WriteSlice mem s d = Ret (mem', s', Ok tt) /\ RingRep mem' r Q (d ++ drop (length d) F).
Proof.
  intros HR Hb Hpc Hd. pose proof (len_facts mem r Q F HR) as (HL & Ht & _ & Hl). destruct (rr_shape _ _ _ _ HR) as (k & Hk & Hm).
  unfold WriteSlice. rewrite (piece_Count mem r Q F HR _ _ s Hpc Ht), bind_ret by lia.
  destruct (Z.ltb_spec (Z.of_nat (length F)) (Z.of_nat (length d))); [lia |].
  destruct (piece_Consume mem r Q F HR _ _ s (Z.of_nat (length d)) Hpc Ht) as (s' & Ec); [lia | lia |].
  assert (Hst : exists mem', (if Z.of_nat (length d) <=? iov_len (iov0 s) then store_bytes mem (iov_start (iov0 s)) d
      else mem ← store_bytes mem (iov_start (iov0 s)) (take (Z.to_nat (iov_len (iov0 s))) d);
           store_bytes mem (iov_start (iov1 s)) (drop (Z.to_nat (iov_len (iov0 s))) d))
    = Ret mem' /\ ring mem' (rb_buf r) (Len r) (rb_tail r) (d ++ drop (length d) (F ++ Q))).
  { destruct Hpc as [E0 E1]. rewrite E0. cbn [iov_len iov_start]. set (e := Len r - rb_tail r mod Len r) in *.
    destruct (Z.leb_spec (Z.of_nat (length d)) (Z.min e (Z.of_nat (length F)))) as [Hle | Hgt].
    - destruct (ring_store_one r k Hk Hm mem (rb_tail r) (F ++ Q) d (rr_tail _ _ _ _ HR)) as (mem' & E & Hr & _); [lia |].
      exists mem'. split; [| done]. unfold Buf_copy in E. by rewrite (proj2 (Z.leb_le _ _)) in E by lia.
    - destruct (ring_store_two r k Hk Hm mem (rb_tail r) (F ++ Q) d (rr_tail _ _ _ _ HR)) as (mem' & E & Hr & _); [lia |].
      exists mem'. split; [| done]. destruct (Z.ltb_spec e (Z.of_nat (length F))); [| lia]. destruct E1 as [-> _]. cbn [iov_start].
      rewrite Z.min_l by lia. fold e in E. unfold Buf_copy in E. rewrite length_take, length_drop in E.
      rewrite !(proj2 (Z.leb_le _ _)) in E by lia. by rewrite Z.add_0_r in E. }
  destruct Hst as (mem' & Es & Hr). cbv zeta. rewrite Es. exists mem', s'. rewrite !bind_ret, Ec, bind_ret. split; [done |].
  rewrite drop_app_le, (assoc_L (++)) in Hr by lia. apply rr_of_tail; [apply HR | apply HR | done].
Qed.

(** Data that fits and is written through the space iovecs and then produced is
    appended to the stream, also when the free space wraps around the end of the ring;
    producing more than the free space is refused. *)
Theorem produce_spec mem r s d iovs : srep mem r s -> buf_in64 r -> d <> [] ->
  Z.of_nat (length (s_q s)) + Z.of_nat (length d) <= Len r ->
  returns (iovs ← PrepareSpaceIovs r iovs;
           '(mem, iovs, res) ← WriteSlice mem iovs d;
           Ret (mem, res, ProduceWithCheck r (Z.of_nat (length d))))
    (fun '(mem', res, (r', res')) => res = Ok tt /\ res' = Ok (s_waitRead s) /\
       srep mem' r' (s_write (Z.to_nat (Len r)) s d).1 /\ s_q (s_write (Z.to_nat (Len r)) s d).1 = s_q s ++ d) /\
  (forall n, Len r < Z.of_nat (length (s_q s)) + n -> n < B32 -> ProduceWithCheck r n = (r, Err (SysError EINVAL))).
Proof.
  intros ((F & HR) & E1 & E2) Hb Hd Hl. pose proof (len_facts mem r _ F HR) as (HL & _ & _ & Hlen).
  assert (HF : F <> []) by (intros ->; destruct d; [done | simpl in *; lia]). split.
  - destruct (space_iovs mem r _ F HR Hb iovs HF) as (s1 & -> & Hpc). rewrite bind_ret.
    destruct (WriteSlice_ring mem r _ F s1 d HR Hb Hpc ltac:(lia)) as (mem' & s2 & -> & HR'). rewrite bind_ret. apply returns_ret.
    unfold ProduceWithCheck. rewrite (rr_avail _ _ _ _ HR), add64_small by u64.
    destruct (Z.ltb_spec (Len r) (Z.of_nat (length (s_q s)) + Z.of_nat (length d))); [lia |].
    pose proof (rr_move_tail mem' r _ _ (length d) HR' ltac:(rewrite length_app; lia)) as HR2.
    rewrite take_app_length, drop_app_length in HR2. unfold Produce.
    destruct (after_write_spec _ _ _ _ HR2) as (r' & -> & HR3 & Hw1 & Hw2 & _).
    assert (Em : Nat.min (Z.to_nat (Len r) - length (s_q s)) (length d) = length d) by lia.
    unfold s_write. rewrite Em, take_ge by done. simpl.
    split_and!; [done | by rewrite <- E1 | | done]. split_and!; [by eexists | done |]. rewrite Hw2. simpl. rewrite E2. f_equal.
    apply eq_true_iff_eq. rewrite bool_decide_eq_true, Nat.eqb_eq, length_app. split; intros Hx.
    + apply (f_equal length) in Hx. rewrite length_drop in Hx. simpl in Hx. lia.
    + apply length_zero_iff_nil. rewrite length_drop. lia.
  - intros n Hn Hn32. unfold ProduceWithCheck. rewrite (rr_avail _ _ _ _ HR), add64_small by (unfold B32 in *; u64).
    by rewrite (proj2 (Z.ltb_lt _ _)) by lia.
Qed.

(** Reading through the data iovecs gives the oldest bytes as long as they do not wrap
    around the end of the ring; of data that wraps, the part after the end is not read:
    the bytes from the start of the first piece are returned a second time. *)
Theorem read_iovs_spec mem r s n iovs : srep mem r s -> buf_in64 r ->
  let e := Z.to_nat (data_end r) in
  (0 < n <= length (s_q s))%nat -> (n <= e + e)%nat ->
  returns (iovs ← PrepareDataIovs r iovs; '(_, bytes) ← ReadVec mem iovs (Z.of_nat n); Ret bytes)
    (fun bytes => bytes = if (n <=? e)%nat then take n (s_q s) else take e (s_q s) ++ take (n - e) (s_q s)).
Proof.
  intros ((F & HR) & _) Hb e Hn Hne. pose proof (len_facts mem r _ F HR) as (HL & _ & Hh & Hlen).
  assert (HQ : s_q s <> []) by (intros E; rewrite E in Hn; simpl in Hn; lia).
  destruct (data_iovs mem r _ F HR Hb iovs HQ) as (s1 & -> & Hpc). rewrite bind_ret. unfold ReadVec.
  rewrite (piece_Count mem r _ F HR _ _ s1 Hpc Hh), bind_ret by lia.
  destruct (Z.ltb_spec (Z.of_nat (length (s_q s))) (Z.of_nat n)); [lia |].
  destruct (piece_Consume mem r _ F HR _ _ s1 (Z.of_nat n) Hpc Hh) as (s2 & Ec); [lia | lia |].
  destruct (proj1 (ring_regions mem (rb_buf r) (Len r) (rb_head r) (s_q s ++ F) ltac:(lia) (proj1 (rr_ring _ _ _ _ HR))) (rr_ring _ _ _ _ HR)) as [H1 _].
  fold (data_end r) in H1. fold e in H1. destruct Hpc as [E0 _]. rewrite E0. cbn [iov_len iov_start]. fold (data_end r).
  assert (Hld : forall m, (m <= e)%nat -> (m <= length (s_q s))%nat -> load mem (rb_buf r + rb_head r mod Len r) m = Ret (take m (s_q s))).
  { intros m Hm1 Hm2. apply (take_region _ _ _ m) in H1. rewrite take_take, Nat.min_l, take_app_le in H1 by lia.
    rewrite <- (load_region _ _ _ H1). f_equal. rewrite length_take. lia. }
  destruct (Z.leb_spec (Z.of_nat n) (Z.min (data_end r) (Z.of_nat (length (s_q s))))) as [Hle | Hgt].
  - rewrite Nat2Z.id, Hld by lia. rewrite bind_ret, Ec, !bind_ret. apply returns_ret. by rewrite (proj2 (Nat.leb_le _ _)) by lia.
  - replace (Z.to_nat (Z.min (data_end r) (Z.of_nat (length (s_q s))))) with e by lia.
    replace (Z.to_nat (Z.of_nat n - Z.min (data_end r) (Z.of_nat (length (s_q s))))) with (n - e)%nat by lia.
    rewrite !Hld by lia. rewrite !bind_ret, Ec, !bind_ret. apply returns_ret. by rewrite (proj2 (Nat.leb_gt _ _)) by lia.
Qed.

(** [writeFull] compares the length with the data in the ring instead of the space: it
    refuses a message longer than what is already queued, even by an empty ring, and
    otherwise writes only the part that fits and reports success. *)
Theorem writeFull_spec mem r s buf : srep mem r s -> utf8 buf = true ->
  if (length (s_q s) <? length buf)%nat then writeFull mem r buf = Ret (mem, r, Err QueueFull)
  else exists mem' r', writeFull mem r buf = Ret (mem', r', Ok (s_write (Z.to_nat (Len r)) s buf).2) /\
    srep mem' r' (s_write (Z.to_nat (Len r)) s buf).1.
Proof.
  intros HS Hu. pose proof HS as ((F & HR) & _). unfold writeFull. rewrite (rr_avail _ _ _ _ HR).
  destruct (Nat.ltb_spec (length (s_q s)) (length buf)).
  - rewrite (proj2 (Z.ltb_lt _ _)) by lia. unfold from_utf8. by rewrite Hu.
  - rewrite (proj2 (Z.ltb_ge _ _)) by lia. destruct (write_refines mem r s buf HS) as (mem' & r' & -> & HS' & _).
    exists mem', r'. by rewrite bind_ret.
Qed.

(** A ring of eight bytes whose data wraps around its end. *)
Definition demo_ring : RingBuf := mkRingBuf 4096 7 6 10 true false.
Definition demo_mem : Mem := memory 4096 [3; 4; 0; 0; 0; 0; 1; 2].

Lemma demo_ring_rep : srep demo_mem demo_ring (mkS [1; 2; 3; 4] true false).
Proof.
  split; [| done]. exists [0; 0; 0; 0]. constructor; [by exists 3 | reflexivity |].
  apply ring_regions; [reflexivity | reflexivity |]. pose proof (memory_region [3; 4; 0; 0; 0; 0; 1; 2] 4096) as H.
  split; [| exact (take_region _ _ _ 6 H)]. exact (proj2 (proj1 (region_app _ _ [3; 4; 0; 0; 0; 0] [1; 2]) H)).
Qed.

Lemma produce_witness : exists mem' r', srep mem' r' (mkS [1; 2; 3; 4; 5; 6; 7] false false).
Proof.
  destruct (produce_spec demo_mem demo_ring _ [5; 6; 7] Iovs_default demo_ring_rep) as (([[mem' res] [r' res']] & _ & _ & _ & Hs & _) & _);
    [by split | done | by vm_compute |]. by exists mem', r'.
Defined.

Lemma read_iovs_witness : (iovs ← PrepareDataIovs demo_ring Iovs_default; '(_, bytes) ← ReadVec demo_mem iovs 3; Ret bytes) = Ret [1; 2; 1].
Proof.
  destruct (read_iovs_spec demo_mem demo_ring _ 3 Iovs_default demo_ring_rep) as (bytes & E & ->);
    [by split | simpl; lia | vm_compute; lia |]. exact E.
Defined.

Lemma writeFull_witness : writeFull demo_mem demo_ring [1; 2; 3; 4; 5] = Ret (demo_mem, demo_ring, Err QueueFull).
Proof. exact (writeFull_spec demo_mem demo_ring _ [1; 2; 3; 4; 5] demo_ring_rep eq_refl). Defined.
