(* ===== verification/Auth.v ===== *)
(** Identities, capabilities, user namespaces and credentials: qlib/auth (id.rs,
    cap_set.rs, userns.rs, mod.rs).

    A [UserNameSpace] and a [Credentials] are shared pointers; [World] has the objects
    they point to.  Pointers are numbered in the order of creation, so the parent of a
    namespace has a smaller number, which bounds the walks towards the root.  Locks are
    not modelled: each method runs alone. *)
From S2P Require Import Prelude BTree.
#[local] Open Scope Z_scope.

Definition U32_MAX : Z := 4294967295.
Definition u32w (z : Z) : Z := z mod 4294967296.

(** * Identifiers ([UID], [GID], [KUID], [KGID] are [u32]) *)

Definition NO_ID : Z := U32_MAX.
Definition OVERFLOW_ID : Z := 65534.
Abbreviation NOBODY_ID := (65534)%Z (only parsing).
Abbreviation ROOT_ID := (0)%Z (only parsing).

Definition id_Ok (id : Z) : bool := negb (id =? NO_ID).
Definition OrOverflow (id : Z) : Z := if id_Ok id then id else OVERFLOW_ID.

(** * Capability sets: bit sets *)

Abbreviation CAP_CHOWN := (0)%Z (only parsing).
Abbreviation CAP_SETGID := (6)%Z (only parsing).
Abbreviation CAP_SETUID := (7)%Z (only parsing).
Abbreviation CAP_SETPCAP := (8)%Z (only parsing).
Abbreviation CAP_SYS_ADMIN := (21)%Z (only parsing).
Abbreviation CAP_AUDIT_READ := (37)%Z (only parsing).
Abbreviation CAP_LAST_CAP := (CAP_AUDIT_READ)%Z (only parsing).

Definition cap_Ok (cap : Z) : bool := (0 <=? cap) && (cap <=? CAP_LAST_CAP).

Definition ALL_CAP : Z := Z.shiftl 1 CAP_LAST_CAP - 1.

(** [1 << cap]; the shift count of a [u64] is taken modulo 64. *)
Definition CapSet_New (cap : Z) : Z := Z.shiftl 1 (cap mod 64).
Definition CapSet_NewWithCaps (caps : list Z) : Z := foldl (fun mask cap => Z.lor mask (CapSet_New cap)) 0 caps.
Definition MaskOf64 (i : Z) : Z := Z.shiftl 1 (i mod 64).
Definition CapSetOf (cp : Z) : Z := MaskOf64 cp.
Definition CapabilitySetOfMany (cps : list Z) : Z := foldl (fun cs cp => Z.lor cs (MaskOf64 cp)) 0 cps.

Record TaskCaps : Type := mkTaskCaps {
  tc_Permitted : Z; tc_Inheritable : Z; tc_Effective : Z; tc_Bounding : Z; tc_Ambient : Z;
}.

(** * Identifier maps *)

Record IdMapEntry : Type := mkEntry { FirstFromId : Z; FirstToId : Z; ELen : Z }.

Abbreviation IdMap := (list (Z * IdMapEntry)) (only parsing).

Definition AddEntry (m : IdMap) (from to len : Z) : Result IdMap :=
  let id := if from <? to then to else from in
  if U32_MAX - len <? id then Err (SysError EINVAL)
  else Ok (bt_insert from (mkEntry from to len) m).

Definition IdMap_All : IdMap :=
  match AddEntry [] 0 0 U32_MAX with inr m => m | inl _ => [] end.

Definition IdMap_RemoveAll (m : IdMap) : IdMap := [].

(** The first entry of [range(0..=id).rev()] decides. *)
Definition IdMap_Map (m : IdMap) (id : Z) : Z :=
  match bt_last_le id m with
  | None => NO_ID
  | Some (_, val) =>
      if (id <? FirstFromId val) || (u32w (FirstFromId val + ELen val) <=? id) then NO_ID
      else u32w (id - FirstFromId val + FirstToId val)
  end.

Definition IdMap_IsEmpty (m : IdMap) : bool := match m with [] => true | _ => false end.

(** * User namespaces *)

Record UserNS : Type := mkNS {
  ns_parent : option positive;
  ns_owner : Z;
  uidMapFromParent : IdMap;
  uidMapToParent : IdMap;
  gidMapFromParent : IdMap;
  gidMapToParent : IdMap;
}.

Definition GetIDMap (m : IdMap) : list IdMapEntry := snd <$> m.

(** [CredentialsInternal] *)
Record Creds : Type := mkCreds {
  RealKUID : Z; EffectiveKUID : Z; SavedKUID : Z;
  RealKGID : Z; EffectiveKGID : Z; SavedKGID : Z;
  ExtraKGIDs : list Z;
  PermittedCaps : Z; InheritableCaps : Z; EffectiveCaps : Z; BoundingCaps : Z;
  KeepCaps : bool;
  UserNamespace : positive;
}.

Record World : Type := mkWorld {
  w_ns : gmap positive UserNS;
  w_creds : gmap positive Creds;
  w_next : positive;
}.

Definition get_ns (w : World) (n : positive) : outcome UserNS :=
  match w_ns w !! n with Some ns => Ret ns | None => Panic end.
Definition get_creds (w : World) (c : positive) : outcome Creds :=
  match w_creds w !! c with Some cr => Ret cr | None => Panic end.
Definition put_ns (w : World) (n : positive) (ns : UserNS) : World :=
  mkWorld (<[n := ns]> (w_ns w)) (w_creds w) (w_next w).
Definition put_creds (w : World) (c : positive) (cr : Creds) : World :=
  mkWorld (w_ns w) (<[c := cr]> (w_creds w)) (w_next w).
Definition new_ns (w : World) (ns : UserNS) : World * positive :=
  (mkWorld (<[w_next w := ns]> (w_ns w)) (w_creds w) (w_next w + 1), w_next w).
Definition new_creds (w : World) (cr : Creds) : World * positive :=
  (mkWorld (w_ns w) (<[w_next w := cr]> (w_creds w)) (w_next w + 1), w_next w).

Definition NewRootUserNamespace (w : World) : World * positive :=
  new_ns w (mkNS None NOBODY_ID IdMap_All IdMap_All IdMap_All IdMap_All).

(** The two loops over the entries stop at the first error; the entries before it stay. *)
Fixpoint set_maps (to from : IdMap) (entries : list IdMapEntry) : IdMap * IdMap * Result unit :=
  match entries with
  | [] => (to, from, Ok tt)
  | e :: entries =>
      match AddEntry to (FirstFromId e) (FirstToId e) (ELen e) with
      | inl err => (to, from, Err err)
      | inr to =>
          match AddEntry from (FirstToId e) (FirstFromId e) (ELen e) with
          | inl err => (to, from, Err err)
          | inr from => set_maps to from entries
          end
      end
  end.

Definition trySetUidMap (w : World) (n : positive) (entries : list IdMapEntry) : outcome (World * Result unit) :=
  me ← get_ns w n;
  let '(to, from, res) := set_maps (uidMapToParent me) (uidMapFromParent me) entries in
  Ret (put_ns w n (mkNS (ns_parent me) (ns_owner me) from to (gidMapFromParent me) (gidMapToParent me)), res).

Definition trySetGidMap (w : World) (n : positive) (entries : list IdMapEntry) : outcome (World * Result unit) :=
  me ← get_ns w n;
  let '(to, from, res) := set_maps (gidMapToParent me) (gidMapFromParent me) entries in
  Ret (put_ns w n (mkNS (ns_parent me) (ns_owner me) (uidMapFromParent me) (uidMapToParent me) from to), res).

(** The recursion over the parents; [sel] is the map that is used. *)
Fixpoint map_chain (sel : UserNS -> IdMap) (fuel : nat) (w : World) (n : positive) (id : Z) : outcome Z :=
  match fuel with
  | O => OutOfFuel
  | S fuel' =>
      me ← get_ns w n;
      match ns_parent me with
      | None => Ret id
      | Some parent => id ← map_chain sel fuel' w parent id; Ret (IdMap_Map (sel me) id)
      end
  end.

Definition chain_fuel (n : positive) : nat := Pos.to_nat n.

Definition MapFromKUID (w : World) (n : positive) (kuid : Z) : outcome Z := map_chain uidMapFromParent (chain_fuel n) w n kuid.
Definition MapFromKGID (w : World) (n : positive) (kgid : Z) : outcome Z := map_chain gidMapFromParent (chain_fuel n) w n kgid.
Definition MapToKUID (w : World) (n : positive) (uid : Z) : outcome Z := map_chain uidMapToParent (chain_fuel n) w n uid.
Definition MapToKGID (w : World) (n : positive) (gid : Z) : outcome Z := map_chain gidMapToParent (chain_fuel n) w n gid.

Fixpoint Root_loop (fuel : nat) (w : World) (cur : positive) : outcome positive :=
  match fuel with
  | O => OutOfFuel
  | S fuel' =>
      me ← get_ns w cur;
      match ns_parent me with None => Ret cur | Some p => Root_loop fuel' w p end
  end.
Definition NS_Root (w : World) (n : positive) : outcome positive := Root_loop (chain_fuel n) w n.

Fixpoint Depth_loop (fuel : nat) (w : World) (i : Z) (n : positive) : outcome Z :=
  match fuel with
  | O => OutOfFuel
  | S fuel' =>
      me ← get_ns w n;
      match ns_parent me with None => Ret (i + 1) | Some p => Depth_loop fuel' w (i + 1) p end
  end.
Definition NS_Depth (w : World) (n : positive) : outcome Z := Depth_loop (chain_fuel n) w 0 n.

(** * Credentials *)

Abbreviation MAX_USER_NAMESPACE_DEPTH := (32)%Z (only parsing).

Definition InGroup (c : Creds) (kgid : Z) : bool :=
  if EffectiveKGID c =? kgid then true else existsb (fun extra => extra =? kgid) (ExtraKGIDs c).

Fixpoint HasCapabilityIn_loop (fuel : nat) (w : World) (c : Creds) (cp : Z) (ns : positive) : outcome bool :=
  match fuel with
  | O => OutOfFuel
  | S fuel' =>
      if bool_decide (UserNamespace c = ns) then Ret (negb (Z.land (CapSet_New cp) (EffectiveCaps c) =? 0))
      else
        nsInternal ← get_ns w ns;
        match ns_parent nsInternal with
        | Some parent =>
            if bool_decide (UserNamespace c = parent) && (EffectiveKUID c =? ns_owner nsInternal) then Ret true
            else HasCapabilityIn_loop fuel' w c cp parent
        | None => Ret false
        end
  end.

Definition HasCapabilityIn (w : World) (c : Creds) (cp : Z) (ns : positive) : outcome bool :=
  HasCapabilityIn_loop (chain_fuel ns) w c cp ns.
Definition HasCapability (w : World) (c : Creds) (cp : Z) : outcome bool :=
  HasCapabilityIn w c cp (UserNamespace c).

Definition creds_copy (c : Creds) : Creds :=
  mkCreds (RealKUID c) (EffectiveKUID c) (SavedKUID c) (RealKGID c) (EffectiveKGID c) (SavedKGID c)
    (ExtraKGIDs c) (PermittedCaps c) (InheritableCaps c) (EffectiveCaps c) (BoundingCaps c)
    (KeepCaps c) (UserNamespace c).

Definition NewAnaoCredentials (w : World) : World * positive :=
  let '(w, ns) := NewRootUserNamespace w in
  new_creds w (mkCreds NOBODY_ID NOBODY_ID NOBODY_ID NOBODY_ID NOBODY_ID NOBODY_ID []
    (CapSet_New 0) (CapSet_New 0) (CapSet_New 0) (CapSet_New 0) false ns).

Definition RootCreds (userns : positive) : Creds :=
  mkCreds ROOT_ID ROOT_ID ROOT_ID ROOT_ID ROOT_ID ROOT_ID []
    ALL_CAP (CapSet_New 0) ALL_CAP ALL_CAP false userns.
Definition NewRootCredentials (w : World) (userns : positive) : World * positive :=
  new_creds w (RootCreds userns).

Definition UserCreds (kuid kgid : Z) (extraKGIDs : list Z) (caps : option TaskCaps) (userns : positive) : Creds :=
  let '(p, i, e, b) :=
    match caps with
    | Some caps => (tc_Permitted caps, tc_Inheritable caps, tc_Effective caps, tc_Bounding caps)
    | None =>
        if kuid =? ROOT_ID then (ALL_CAP, CapSet_New 0, ALL_CAP, ALL_CAP)
        else (CapSet_New 0, CapSet_New 0, CapSet_New 0, ALL_CAP)
    end in
  mkCreds kuid kuid kuid kgid kgid kgid extraKGIDs p i e b false userns.
Definition NewUserCredentials (w : World) (kuid kgid : Z) (extraKGIDs : list Z) (caps : option TaskCaps)
    (userns : positive) : World * positive :=
  new_creds w (UserCreds kuid kgid extraKGIDs caps userns).

Definition Credentials_Fork (w : World) (c : positive) : outcome (World * positive) :=
  cr ← get_creds w c;
  Ret (new_creds w (creds_copy cr)).

Definition Credentials_FileOwner (c : Creds) : Z * Z := (EffectiveKUID c, EffectiveKGID c).

Definition UseUID (w : World) (me : Creds) (uid : Z) : outcome (Result Z) :=
  kuid ← MapToKUID w (UserNamespace me) uid;
  if negb (id_Ok kuid) then Ret (Err (SysError EINVAL))
  else
    cap ← HasCapability w me CAP_SETUID;
    if (cap : bool) then Ret (Ok kuid)
    else if (kuid =? RealKUID me) || (kuid =? EffectiveKUID me) || (kuid =? SavedKUID me)
    then Ret (Ok kuid) else Ret (Err (SysError EPERM)).

Definition UseGID (w : World) (me : Creds) (gid : Z) : outcome (Result Z) :=
  kgid ← MapToKGID w (UserNamespace me) gid;
  if negb (id_Ok kgid) then Ret (Err (SysError EINVAL))
  else
    cap ← HasCapability w me CAP_SETGID;
    if (cap : bool) then Ret (Ok kgid)
    else if (kgid =? RealKGID me) || (kgid =? EffectiveKGID me) || (kgid =? SavedKGID me)
    then Ret (Ok kgid) else Ret (Err (SysError EPERM)).

(** The two reads [self.lock()] of the source see the same credentials. *)
Definition NewChildUserNamespace (w : World) (c : Creds) : outcome (World * Result positive) :=
  let ns := UserNamespace c in
  depth ← NS_Depth w ns;
  if MAX_USER_NAMESPACE_DEPTH <=? depth then Ret (w, Err (SysError EUSERS))
  else
    uid ← MapFromKUID w ns (EffectiveKUID c);
    if negb (id_Ok uid) then Ret (w, Err (SysError EPERM))
    else let '(w, n) := new_ns w (mkNS (Some ns) (EffectiveKUID c) [] [] [] []) in Ret (w, Ok n).
