(* ===== verification/TaskIdentity.v ===== *)
(** The identity of a thread: qlib/kernel/threadmgr/task_identity.rs.

    A thread holds a pointer to its credentials.  Operations that [Fork] the credentials
    leave the old object untouched and move the pointer; [setKGIDsUncheckedLocked] writes
    through the pointer, so every holder of the same credentials sees the change.

    Each operation takes the objects and the thread and returns them changed, with the
    result of the call. *)
From S2P Require Import Prelude BTree Auth.
#[local] Open Scope Z_scope.

(** The fields of [ThreadInternal] the operations use, and the [creds] of its [Task]. *)
Record Thread : Type := mkThread {
  th_creds : positive;
  th_task_creds : positive;
  parentDeathSignal : Z;
}.

Abbreviation ThreadSys := (World * Thread)%type (only parsing).

Definition set_creds (t : Thread) (c : positive) : Thread := mkThread c (th_task_creds t) (parentDeathSignal t).
Definition set_task_creds (t : Thread) (c : positive) : Thread := mkThread (th_creds t) c (parentDeathSignal t).
Definition clear_death (t : Thread) : Thread := mkThread (th_creds t) (th_task_creds t) 0.

Definition with_kuids (c : Creds) (r e s : Z) : Creds :=
  mkCreds r e s (RealKGID c) (EffectiveKGID c) (SavedKGID c) (ExtraKGIDs c)
    (PermittedCaps c) (InheritableCaps c) (EffectiveCaps c) (BoundingCaps c) (KeepCaps c) (UserNamespace c).
Definition with_kgids (c : Creds) (r e s : Z) : Creds :=
  mkCreds (RealKUID c) (EffectiveKUID c) (SavedKUID c) r e s (ExtraKGIDs c)
    (PermittedCaps c) (InheritableCaps c) (EffectiveCaps c) (BoundingCaps c) (KeepCaps c) (UserNamespace c).
Definition with_extra (c : Creds) (g : list Z) : Creds :=
  mkCreds (RealKUID c) (EffectiveKUID c) (SavedKUID c) (RealKGID c) (EffectiveKGID c) (SavedKGID c) g
    (PermittedCaps c) (InheritableCaps c) (EffectiveCaps c) (BoundingCaps c) (KeepCaps c) (UserNamespace c).
Definition with_caps (c : Creds) (p i e b : Z) : Creds :=
  mkCreds (RealKUID c) (EffectiveKUID c) (SavedKUID c) (RealKGID c) (EffectiveKGID c) (SavedKGID c)
    (ExtraKGIDs c) p i e b (KeepCaps c) (UserNamespace c).
Definition with_keep (c : Creds) (k : bool) : Creds :=
  mkCreds (RealKUID c) (EffectiveKUID c) (SavedKUID c) (RealKGID c) (EffectiveKGID c) (SavedKGID c)
    (ExtraKGIDs c) (PermittedCaps c) (InheritableCaps c) (EffectiveCaps c) (BoundingCaps c) k (UserNamespace c).
Definition with_ns (c : Creds) (n : positive) : Creds :=
  mkCreds (RealKUID c) (EffectiveKUID c) (SavedKUID c) (RealKGID c) (EffectiveKGID c) (SavedKGID c)
    (ExtraKGIDs c) (PermittedCaps c) (InheritableCaps c) (EffectiveCaps c) (BoundingCaps c) (KeepCaps c) n.

(** [t.creds = t.creds.Fork()] followed by writes to the copy. *)
Definition fork_with (w : World) (t : Thread) (f : Creds -> Creds) : outcome ThreadSys :=
  '(w, c) ← Credentials_Fork w (th_creds t);
  cr ← get_creds w c;
  Ret (put_creds w c (f cr), set_creds t c).

(** The change of the capability sets when the user identifiers change. *)
Definition kuid_caps (root newR newE newS : Z) (old new : Creds) : Creds :=
  let new :=
    if ((RealKUID old =? root) || (EffectiveKUID old =? root) || (SavedKUID old =? root))
       && (negb (newR =? root) && negb (newE =? root) && negb (newS =? root))
    then
      if negb (KeepCaps new) then with_caps new 0 (InheritableCaps new) 0 (BoundingCaps new) else new
    else new in
  if (EffectiveKUID old =? root) && negb (newE =? root) then
    with_caps new (PermittedCaps new) (InheritableCaps new) 0 (BoundingCaps new)
  else if negb (EffectiveKUID old =? root) && (newE =? root) then
    with_caps new (PermittedCaps new) (InheritableCaps new) (PermittedCaps new) (BoundingCaps new)
  else new.

Definition setKUIDsUncheckedLocked (w : World) (t : Thread) (newR newE newS : Z) : outcome ThreadSys :=
  old ← get_creds w (th_creds t);
  root ← MapToKUID w (UserNamespace old) ROOT_ID;
  '(w, t) ← fork_with w t (fun c => kuid_caps root newR newE newS old (with_kuids c newR newE newS));
  Ret (w, if negb (EffectiveKUID old =? newE) then clear_death t else t).

Definition setKGIDsUncheckedLocked (w : World) (t : Thread) (newR newE newS : Z) : outcome ThreadSys :=
  creds ← get_creds w (th_creds t);
  Ret (put_creds w (th_creds t) (with_kgids creds newR newE newS),
       if negb (EffectiveKGID creds =? newE) then clear_death t else t).

Definition exec_creds (root : Z) (c : Creds) : Creds :=
  let '(newPermitted, fileEffective) :=
    if (EffectiveKUID c =? root) || (RealKUID c =? root)
    then (Z.lor (InheritableCaps c) (BoundingCaps c), EffectiveKUID c =? root)
    else (0, false) in
  let c' :=
    if negb (EffectiveKUID c =? RealKUID c) || negb (EffectiveKGID c =? RealKGID c)
    then with_kgids (with_kuids c (RealKUID c) (RealKUID c) (SavedKUID c)) (RealKGID c) (RealKGID c) (SavedKGID c)
    else c in
  let c' := with_kuids c' (RealKUID c') (EffectiveKUID c') (RealKUID c) in
  let c' := with_kgids c' (RealKGID c') (EffectiveKGID c') (RealKGID c) in
  let permitted := Z.land (PermittedCaps c') newPermitted in
  let c' := with_caps c' permitted (InheritableCaps c') (if (fileEffective : bool) then permitted else 0) (BoundingCaps c') in
  with_keep c' false.

Definition updateCredsForExecLocked (w : World) (t : Thread) : outcome ThreadSys :=
  c ← get_creds w (th_creds t);
  root ← MapToKUID w (UserNamespace c) ROOT_ID;
  '(w, t) ← fork_with w t (exec_creds root);
  Ret (w, if negb (EffectiveKUID c =? RealKUID c) || negb (EffectiveKGID c =? RealKGID c)
          then clear_death t else t).

Definition setUserNamespace (w : World) (t : Thread) (ns : positive) : outcome (ThreadSys * Result unit) :=
  c ← get_creds w (th_creds t);
  cap ← HasCapabilityIn w c CAP_SYS_ADMIN ns;
  if negb cap then Ret ((w, t), Err (SysError EPERM))
  else
    s ← fork_with w t (fun c => with_keep (with_caps (with_ns c ns) ALL_CAP 0 ALL_CAP ALL_CAP) false);
    Ret (s, Ok tt).

Definition SetUID (w : World) (t : Thread) (uid : Z) : outcome (ThreadSys * Result unit) :=
  if negb (id_Ok uid) then Ret ((w, t), Err (SysError EINVAL))
  else
    c ← get_creds w (th_creds t);
    kuid ← MapToKUID w (UserNamespace c) uid;
    if negb (id_Ok kuid) then Ret ((w, t), Err (SysError EINVAL))
    else
      cap ← HasCapability w c CAP_SETUID;
      if (cap : bool) then s ← setKUIDsUncheckedLocked w t kuid kuid kuid; Ret (s, Ok tt)
      else if negb (kuid =? RealKUID c) && negb (kuid =? SavedKUID c) then Ret ((w, t), Err (SysError EPERM))
      else s ← setKUIDsUncheckedLocked w t (RealKUID c) kuid (SavedKUID c); Ret (s, Ok tt).

(** An identifier that is left unchanged when the argument is -1, and otherwise mapped. *)
Definition mapped_or (mapTo : Z -> outcome Z) (id old : Z) : outcome (Result Z) :=
  if id_Ok id then
    k ← mapTo id; Ret (if id_Ok k then Ok k else Err (SysError EINVAL))
  else Ret (Ok old).

Definition SetREUID (w : World) (t : Thread) (r e : Z) : outcome (ThreadSys * Result unit) :=
  c ← get_creds w (th_creds t);
  rR ← mapped_or (MapToKUID w (UserNamespace c)) r (RealKUID c);
  match rR with
  | inl err => Ret ((w, t), Err err)
  | inr newR =>
  rE ← mapped_or (MapToKUID w (UserNamespace c)) e (EffectiveKUID c);
  match rE with
  | inl err => Ret ((w, t), Err err)
  | inr newE =>
  cap ← HasCapability w c CAP_SETUID;
  if negb cap && (negb (newE =? RealKUID c) && negb (newE =? EffectiveKUID c) && negb (newE =? SavedKUID c))
  then Ret ((w, t), Err (SysError EPERM))
  else if negb cap && (negb (newR =? RealKUID c) && negb (newR =? EffectiveKUID c))
  then Ret ((w, t), Err (SysError EPERM))
  else
    let newS := if id_Ok r || (id_Ok e && negb (newE =? EffectiveKUID c)) then newE else SavedKUID c in
    s ← setKUIDsUncheckedLocked w t newR newE newS; Ret (s, Ok tt)
  end end.

(** An identifier left unchanged when the argument is -1, and otherwise checked by [use]. *)
Definition used_or (use : Z -> outcome (Result Z)) (id old : Z) : outcome (Result Z) :=
  if id_Ok id then use id else Ret (Ok old).

Definition SetRESUID (w : World) (t : Thread) (r e s : Z) : outcome (ThreadSys * Result unit) :=
  c ← get_creds w (th_creds t);
  rR ← used_or (UseUID w c) r (RealKUID c);
  match rR with
  | inl err => Ret ((w, t), Err err)
  | inr newR =>
  rE ← used_or (UseUID w c) e (EffectiveKUID c);
  match rE with
  | inl err => Ret ((w, t), Err err)
  | inr newE =>
  rS ← used_or (UseUID w c) s (SavedKUID c);
  match rS with
  | inl err => Ret ((w, t), Err err)
  | inr newS => st ← setKUIDsUncheckedLocked w t newR newE newS; Ret (st, Ok tt)
  end end end.

Definition SetGID (w : World) (t : Thread) (gid : Z) : outcome (ThreadSys * Result unit) :=
  if negb (id_Ok gid) then Ret ((w, t), Err (SysError EINVAL))
  else
    c ← get_creds w (th_creds t);
    kgid ← MapToKGID w (UserNamespace c) gid;
    if negb (id_Ok kgid) then Ret ((w, t), Err (SysError EINVAL))
    else
      cap ← HasCapability w c CAP_SETGID;
      if (cap : bool) then s ← setKGIDsUncheckedLocked w t kgid kgid kgid; Ret (s, Ok tt)
      else if negb (kgid =? RealKGID c) || negb (kgid =? SavedKGID c) then Ret ((w, t), Err (SysError EPERM))
      else s ← setKGIDsUncheckedLocked w t (RealKGID c) kgid (SavedKGID c); Ret (s, Ok tt).

Definition SetREGID (w : World) (t : Thread) (r e : Z) : outcome (ThreadSys * Result unit) :=
  c ← get_creds w (th_creds t);
  rR ← mapped_or (MapToKGID w (UserNamespace c)) r (RealKGID c);
  match rR with
  | inl err => Ret ((w, t), Err err)
  | inr newR =>
  rE ← mapped_or (MapToKGID w (UserNamespace c)) e (EffectiveKGID c);
  match rE with
  | inl err => Ret ((w, t), Err err)
  | inr newE =>
  cap ← HasCapability w c CAP_SETGID;
  if negb cap && (negb (newE =? RealKGID c) && negb (newE =? EffectiveKGID c) && negb (newE =? SavedKGID c))
  then Ret ((w, t), Err (SysError EPERM))
  else if negb cap && (negb (newR =? RealKGID c) && negb (newR =? EffectiveKGID c))
  then Ret ((w, t), Err (SysError EPERM))
  else
    let newS := if id_Ok r || (id_Ok e && negb (newE =? EffectiveKGID c)) then newE else SavedKGID c in
    s ← setKGIDsUncheckedLocked w t newR newE newS; Ret (s, Ok tt)
  end end.

(** As [used_or], with the second test [SetRESGID] makes on the result. *)
Definition used_ok_or (use : Z -> outcome (Result Z)) (id old : Z) : outcome (Result Z) :=
  if id_Ok id then
    k ← use id;
    match k with
    | inl err => Ret (Err err)
    | inr k => Ret (if id_Ok k then Ok k else Err (SysError EINVAL))
    end
  else Ret (Ok old).

Definition SetRESGID (w : World) (t : Thread) (r e s : Z) : outcome (ThreadSys * Result unit) :=
  c ← get_creds w (th_creds t);
  rR ← used_ok_or (UseGID w c) r (RealKGID c);
  match rR with
  | inl err => Ret ((w, t), Err err)
  | inr newR =>
  rE ← used_ok_or (UseGID w c) e (EffectiveKGID c);
  match rE with
  | inl err => Ret ((w, t), Err err)
  | inr newE =>
  rS ← used_ok_or (UseGID w c) s (SavedKGID c);
  match rS with
  | inl err => Ret ((w, t), Err err)
  | inr newS => st ← setKGIDsUncheckedLocked w t newR newE newS; Ret (st, Ok tt)
  end end end.

Fixpoint map_gids (w : World) (ns : positive) (gids : list Z) : outcome (Result (list Z)) :=
  match gids with
  | [] => Ret (Ok [])
  | gid :: gids =>
      kgid ← MapToKGID w ns gid;
      if negb (id_Ok kgid) then Ret (Err (SysError EINVAL))
      else
        rest ← map_gids w ns gids;
        match rest with inl err => Ret (Err err) | inr kgids => Ret (Ok (kgid :: kgids)) end
  end.

Definition SetExtraGIDs (w : World) (t : Thread) (gids : list Z) : outcome (ThreadSys * Result unit) :=
  c ← get_creds w (th_creds t);
  cap ← HasCapability w c CAP_SETGID;
  if negb cap then Ret ((w, t), Err (SysError EPERM))
  else
    kgids ← map_gids w (UserNamespace c) gids;
    match kgids with
    | inl err => Ret ((w, t), Err err)
    | inr kgids => s ← fork_with w t (fun c => with_extra c kgids); Ret (s, Ok tt)
    end.

(** [a & !b] on [u64] is [Z.ldiff a b]. *)
Definition SetCapabilitySets (w : World) (t : Thread) (permitted inheritable effective : Z) : outcome (ThreadSys * Result unit) :=
  if negb (Z.ldiff effective permitted =? 0) then Ret ((w, t), Err (SysError EPERM))
  else
    c ← get_creds w (th_creds t);
    cap ← HasCapability w c CAP_SETPCAP;
    if negb cap && negb (Z.ldiff inheritable (Z.lor inheritable (PermittedCaps c)) =? 0)
    then Ret ((w, t), Err (SysError EPERM))
    else if negb (Z.ldiff permitted (PermittedCaps c) =? 0) then Ret ((w, t), Err (SysError EPERM))
    else if negb (Z.ldiff inheritable (Z.lor (InheritableCaps c) (BoundingCaps c)) =? 0)
    then Ret ((w, t), Err (SysError EPERM))
    else
      '(w, t) ← fork_with w t (fun c => with_caps c permitted inheritable effective (BoundingCaps c));
      Ret ((w, set_task_creds t (th_creds t)), Ok tt).

Definition DropBoundingCapability (w : World) (t : Thread) (cp : Z) : outcome (ThreadSys * Result unit) :=
  c ← get_creds w (th_creds t);
  cap ← HasCapability w c CAP_SETPCAP;
  if negb cap then Ret ((w, t), Err (SysError EPERM))
  else
    s ← fork_with w t (fun c => with_caps c (PermittedCaps c) (InheritableCaps c) (EffectiveCaps c)
                                  (Z.ldiff (BoundingCaps c) (CapSetOf cp)));
    Ret (s, Ok tt).

Definition SetKeepCaps (w : World) (t : Thread) (k : bool) : outcome ThreadSys :=
  fork_with w t (fun c => with_keep c k).

(** * One thread's calls, as a step function *)

Inductive IdOp : Type :=
| OpSetUID (uid : Z)
| OpSetREUID (r e : Z)
| OpSetRESUID (r e s : Z)
| OpSetGID (gid : Z)
| OpSetREGID (r e : Z)
| OpSetRESGID (r e s : Z)
| OpSetExtraGIDs (gids : list Z)
| OpSetCapabilitySets (p i e : Z)
| OpDropBounding (cp : Z)
| OpSetKeepCaps (k : bool)
| OpExec.

Definition ok_unit (m : outcome ThreadSys) : outcome (ThreadSys * Result unit) := s ← m; Ret (s, Ok tt).

Definition run_op (op : IdOp) (s : ThreadSys) : outcome (ThreadSys * Result unit) :=
  let '(w, t) := s in
  match op with
  | OpSetUID uid => SetUID w t uid
  | OpSetREUID r e => SetREUID w t r e
  | OpSetRESUID r e s => SetRESUID w t r e s
  | OpSetGID gid => SetGID w t gid
  | OpSetREGID r e => SetREGID w t r e
  | OpSetRESGID r e s => SetRESGID w t r e s
  | OpSetExtraGIDs gids => SetExtraGIDs w t gids
  | OpSetCapabilitySets p i e => SetCapabilitySets w t p i e
  | OpDropBounding cp => DropBoundingCapability w t cp
  | OpSetKeepCaps k => ok_unit (SetKeepCaps w t k)
  | OpExec => ok_unit (updateCredsForExecLocked w t)
  end.

(** A failed call leaves the thread running: the state after it is the state it returned. *)
Fixpoint run_ops (ops : list IdOp) (s : ThreadSys) : outcome ThreadSys :=
  match ops with
  | [] => Ret s
  | op :: ops => '(s, _) ← run_op op s; run_ops ops s
  end.

(** * A new user namespace ([Task::Unshare] with [NewUserNamespace]) *)

Definition Unshare_userns (w : World) (t : Thread) (chrooted : bool) : outcome (ThreadSys * Result unit) :=
  if chrooted then Ret ((w, t), Err (SysError EPERM))
  else
    let creds := th_creds t in
    c ← get_creds w creds;
    '(w, newUserNs) ← NewChildUserNamespace w c;
    match newUserNs with
    | inl err => Ret ((w, t), Err err)
    | inr newUserNs =>
        '((w, t), r) ← setUserNamespace w t newUserNs;
        match r with
        | inl err => Ret ((w, t), Err err)
        | inr _ => Ret ((w, set_task_creds t creds), Ok tt)
        end
    end.
