(* ===== verification/IdentityThm.v ===== *)
(** How one call of a thread can change its credentials: every operation of
    TaskIdentity.v returns, keeps the objects well formed, and makes one of the
    transitions [ctrans]. *)
From S2P Require Import Prelude BTree Auth TaskIdentity.
#[local] Open Scope Z_scope.

(** * Well-formed objects *)

Record wf (w : World) : Prop := {
  wf_ns : forall n ns, w_ns w !! n = Some ns ->
    (n < w_next w)%positive /\ (forall p, ns_parent ns = Some p -> (p < n)%positive /\ is_Some (w_ns w !! p));
  wf_creds : forall c cr, w_creds w !! c = Some cr -> (c < w_next w)%positive /\ is_Some (w_ns w !! UserNamespace cr);
}.

(** The thread's credentials are [c]. *)
Definition owns (s : World * Thread) (c : Creds) : Prop :=
  wf (fst s) /\ w_creds (fst s) !! th_creds (snd s) = Some c.

Definition sub (a b : Z) : Prop := Z.ldiff a b = 0.

#[global] Instance sub_dec a b : Decision (sub a b).
Proof. unfold sub. apply _. Defined.

Lemma sub_spec a b : sub a b <-> forall i, Z.testbit a i = true -> Z.testbit b i = true.
Proof.
  unfold sub. split.
  - intros H i Ha. destruct (Z.testbit b i) eqn:E; [done |].
    assert (Z.testbit (Z.ldiff a b) i = true) as Hd by (by rewrite Z.ldiff_spec, Ha, E).
    by rewrite H, Z.bits_0 in Hd.
  - intros H. apply Z.bits_inj_0. intros i. rewrite Z.ldiff_spec.
    destruct (Z.testbit a i) eqn:Ha; [by rewrite (H i Ha) | done].
Qed.

Lemma sub_refl a : sub a a.
Proof. apply sub_spec. auto. Qed.

Lemma sub_trans a b c : sub a b -> sub b c -> sub a c.
Proof. rewrite !sub_spec. auto. Qed.

Lemma sub_zero a : sub 0 a.
Proof. apply sub_spec. intros i. by rewrite Z.bits_0. Qed.

Lemma sub_land a b : sub (Z.land a b) a.
Proof. apply sub_spec. intros i. rewrite Z.land_spec. by intros [? _]%andb_true_iff. Qed.

Lemma sub_ldiff a b : sub (Z.ldiff a b) a.
Proof. apply sub_spec. intros i. rewrite Z.ldiff_spec. by intros [? _]%andb_true_iff. Qed.

#[export] Hint Resolve sub_refl sub_zero sub_land sub_ldiff : quark.

(** * Walks to the root end *)

Lemma map_chain_total sel fuel w n id :
  wf w -> is_Some (w_ns w !! n) -> (Pos.to_nat n <= fuel)%nat -> exists z, map_chain sel fuel w n id = Ret z.
Proof.
  intros Hwf. revert n id. induction fuel as [| fuel IH]; intros n id [ns Hns] Hf; [lia |].
  simpl. unfold get_ns. rewrite Hns. simpl. destruct (ns_parent ns) as [p |] eqn:Hp; [| by eexists].
  destruct (wf_ns w Hwf n ns Hns) as [_ Hpar]. destruct (Hpar p Hp) as [Hlt Hsome].
  destruct (IH p id Hsome) as [z ->]; [lia |]. simpl. by eexists.
Qed.

Lemma MapToKUID_total w n id : wf w -> is_Some (w_ns w !! n) -> exists z, MapToKUID w n id = Ret z.
Proof. intros. by apply map_chain_total. Qed.

Lemma MapToKGID_total w n id : wf w -> is_Some (w_ns w !! n) -> exists z, MapToKGID w n id = Ret z.
Proof. intros. by apply map_chain_total. Qed.

(** * Capabilities of the thread's own namespace *)

Definition has_cap (c : Creds) (cp : Z) : bool := negb (Z.land (CapSet_New cp) (EffectiveCaps c) =? 0).

Lemma HasCapability_eq w c cp : HasCapability w c cp = Ret (has_cap c cp).
Proof.
  unfold HasCapability, HasCapabilityIn, chain_fuel.
  destruct (Pos2Nat.is_succ (UserNamespace c)) as [m ->]. simpl.
  by rewrite bool_decide_eq_true_2.
Qed.

Lemma has_cap_testbit c cp : 0 <= cp < 64 -> has_cap c cp = Z.testbit (EffectiveCaps c) cp.
Proof.
  intros H. unfold has_cap, CapSet_New. rewrite Z.mod_small by lia.
  destruct (Z.testbit (EffectiveCaps c) cp) eqn:E; zcase; try done; exfalso.
  - assert (Z.testbit (Z.land (Z.shiftl 1 cp) (EffectiveCaps c)) cp = true) as Ht; [| by rewrite e, Z.bits_0 in Ht].
    rewrite Z.land_spec, E, Z.shiftl_spec, Z.sub_diag by lia. done.
  - apply n. apply Z.bits_inj_0. intros i. rewrite Z.land_spec.
    destruct (decide (i = cp)) as [-> | Hne]; [by rewrite E, andb_false_r |].
    destruct (decide (0 <= i)); [| by rewrite Z.testbit_neg_r by lia].
    rewrite Z.shiftl_spec by lia. destruct (decide (i < cp)); [by rewrite Z.testbit_neg_r by lia |].
    replace (Z.testbit 1 (i - cp)) with false; [done |].
    symmetry. apply (Z.bits_above_log2 1 (i - cp)); simpl; lia.
Qed.

(** * The transitions of one thread's credentials *)

Definition kuids (c : Creds) : list Z := [RealKUID c; EffectiveKUID c; SavedKUID c].
Definition kgids (c : Creds) : list Z := [RealKGID c; EffectiveKGID c; SavedKGID c].

Inductive ctrans (c : Creds) : Creds -> Prop :=
| ct_same : ctrans c c
| ct_kuids root r e s :
    has_cap c CAP_SETUID = true \/ [r; e; s] ⊆ kuids c ->
    ctrans c (kuid_caps root r e s c (with_kuids c r e s))
| ct_kgids r e s :
    has_cap c CAP_SETGID = true \/ [r; e; s] ⊆ kgids c -> ctrans c (with_kgids c r e s)
| ct_extra g : has_cap c CAP_SETGID = true -> ctrans c (with_extra c g)
| ct_caps p i e :
    sub e p -> sub p (PermittedCaps c) -> sub i (Z.lor (InheritableCaps c) (BoundingCaps c)) ->
    ctrans c (with_caps c p i e (BoundingCaps c))
| ct_drop cp :
    has_cap c CAP_SETPCAP = true ->
    ctrans c (with_caps c (PermittedCaps c) (InheritableCaps c) (EffectiveCaps c) (Z.ldiff (BoundingCaps c) (CapSetOf cp)))
| ct_keep k : ctrans c (with_keep c k)
| ct_exec root : ctrans c (exec_creds root c).
#[export] Hint Constructors ctrans : quark.

(** The call returns, and the thread's credentials made a transition. *)
Definition moves (c : Creds) (m : outcome (World * Thread * Result unit)) : Prop :=
  returns m (fun r => exists c', owns (fst r) c' /\ ctrans c c').

Lemma creds_copy_eq c : creds_copy c = c.
Proof. by destruct c. Qed.

Lemma kuid_caps_ns root r e s old c : UserNamespace (kuid_caps root r e s old c) = UserNamespace c.
Proof. unfold kuid_caps. repeat case_match; done. Qed.

Lemma exec_creds_ns root c : UserNamespace (exec_creds root c) = UserNamespace c.
Proof. unfold exec_creds. repeat case_match; done. Qed.

Lemma owns_ns w t c : owns (w, t) c -> is_Some (w_ns w !! UserNamespace c).
Proof. intros [Hwf Hc]. by apply (wf_creds w Hwf _ _ Hc). Qed.

Lemma owns_put w t c c' :
  owns (w, t) c -> UserNamespace c' = UserNamespace c -> owns (put_creds w (th_creds t) c', t) c'.
Proof.
  intros [Hwf Hc] Hns. split; simpl in *; [| by rewrite lookup_insert_eq].
  constructor; simpl; [apply (wf_ns w Hwf) |]. intros k cr.
  destruct (decide (k = th_creds t)) as [-> | Hne].
  - rewrite lookup_insert_eq. intros [= <-]. rewrite Hns. exact (wf_creds w Hwf _ _ Hc).
  - rewrite lookup_insert_ne by done. apply (wf_creds w Hwf).
Qed.

(** [Fork] and the writes to the copy: the old objects are untouched. *)
Lemma fork_with_gen w t c f :
  owns (w, t) c -> is_Some (w_ns w !! UserNamespace (f c)) ->
  returns (fork_with w t f) (fun s =>
    owns s (f c) /\ w_creds (fst s) = <[th_creds (snd s) := f c]> (w_creds w) /\
    w_creds w !! th_creds (snd s) = None /\ w_ns (fst s) = w_ns w).
Proof.
  intros [Hwf Hc] Hns. simpl in *.
  assert (w_creds w !! w_next w = None) as Hfresh.
  { destruct (w_creds w !! w_next w) eqn:E; [| done]. destruct (wf_creds w Hwf _ _ E). lia. }
  unfold fork_with, Credentials_Fork, get_creds. rewrite Hc. simpl. rewrite lookup_insert_eq. simpl. rewrite creds_copy_eq.
  apply returns_ret. unfold put_creds, owns. simpl.
  rewrite insert_insert_eq, lookup_insert_eq. split_and!; try done.
  constructor; simpl.
  - intros n ns Hn. destruct (wf_ns w Hwf n ns Hn). split; [lia | done].
  - intros k cr. destruct (decide (k = w_next w)) as [-> | Hne].
    + rewrite lookup_insert_eq. intros [= <-]. split; [lia | done].
    + rewrite lookup_insert_ne by done. intros Hk. destruct (wf_creds w Hwf _ _ Hk). split; [lia | done].
Qed.

Lemma fork_with_spec w t c f :
  owns (w, t) c -> UserNamespace (f c) = UserNamespace c ->
  returns (fork_with w t f) (fun s =>
    owns s (f c) /\ w_creds (fst s) = <[th_creds (snd s) := f c]> (w_creds w) /\
    w_creds w !! th_creds (snd s) = None).
Proof.
  intros Ho Hns. eapply returns_mono; [apply fork_with_gen; [exact Ho |] | naive_solver].
  rewrite Hns. by eapply owns_ns.
Qed.

Lemma owns_task w t t' c : owns (w, t) c -> th_creds t' = th_creds t -> owns (w, t') c.
Proof. intros [Hwf Hc] E. split; simpl in *; [done | by rewrite E]. Qed.

(** * Every operation makes a transition *)

Definition moved (c : Creds) (s : World * Thread) : Prop := exists c', owns s c' /\ ctrans c c'.

Lemma moves_ret c s r : owns s c -> moves c (Ret (s, r)).
Proof. intros Ho. apply returns_ret. exists c. eauto with quark. Qed.

Lemma moves_ok c m : returns m (moved c) -> moves c (s ← m; Ret (s, Ok tt)).
Proof. intros Hm. eapply returns_bind; [exact Hm |]. intros s Hs. by apply returns_ret. Qed.
#[export] Hint Resolve moves_ret moves_ok : quark.

Section Ops.
Context (w : World) (t : Thread) (c : Creds) (Howns : owns (w, t) c).

Lemma get_creds_eq : get_creds w (th_creds t) = Ret c.
Proof. unfold get_creds. destruct Howns as [_ Hc]. simpl in Hc. by rewrite Hc. Qed.

Lemma fork_moved f : UserNamespace (f c) = UserNamespace c -> ctrans c (f c) -> returns (fork_with w t f) (moved c).
Proof.
  intros Hns Hc. eapply returns_mono; [by apply fork_with_spec |]. intros s (Ho & _ & _). by exists (f c).
Qed.

Lemma MapToKUID_ret id : exists z, MapToKUID w (UserNamespace c) id = Ret z.
Proof. destruct Howns as [Hwf _]. apply MapToKUID_total; [done | by eapply owns_ns]. Qed.

Lemma MapToKGID_ret id : exists z, MapToKGID w (UserNamespace c) id = Ret z.
Proof. destruct Howns as [Hwf _]. apply MapToKGID_total; [done | by eapply owns_ns]. Qed.

Lemma setKUIDs_moved r e s :
  has_cap c CAP_SETUID = true \/ [r; e; s] ⊆ kuids c -> returns (setKUIDsUncheckedLocked w t r e s) (moved c).
Proof.
  intros Hcap. unfold setKUIDsUncheckedLocked. rewrite get_creds_eq, bind_ret.
  destruct (MapToKUID_ret ROOT_ID) as [root ->]. rewrite bind_ret.
  eapply returns_bind; [apply fork_moved; [by rewrite kuid_caps_ns | by apply ct_kuids] |].
  intros [w' t'] (c' & Ho & Hc). apply returns_ret. exists c'. split; [| done].
  eapply owns_task; [exact Ho |]. by case_match.
Qed.

Lemma setKGIDs_moved r e s :
  has_cap c CAP_SETGID = true \/ [r; e; s] ⊆ kgids c -> returns (setKGIDsUncheckedLocked w t r e s) (moved c).
Proof.
  intros Hcap. unfold setKGIDsUncheckedLocked. rewrite get_creds_eq, bind_ret.
  apply returns_ret. exists (with_kgids c r e s). split; [| by apply ct_kgids].
  eapply owns_task; [by eapply owns_put |]. by case_match.
Qed.

Lemma exec_moved : returns (updateCredsForExecLocked w t) (moved c).
Proof.
  unfold updateCredsForExecLocked. rewrite get_creds_eq, bind_ret.
  destruct (MapToKUID_ret ROOT_ID) as [root ->]. rewrite bind_ret.
  eapply returns_bind; [apply fork_moved; [by rewrite exec_creds_ns | by apply ct_exec] |].
  intros [w' t'] (c' & Ho & Hc). apply returns_ret. exists c'. split; [| done].
  eapply owns_task; [exact Ho |]. by case_match.
Qed.

(** An identifier a call accepted: it is unchanged, or the argument was mapped. *)
Lemma mapped_or_ret mapTo id old :
  (exists z, mapTo id = Ret z) ->
  exists r, mapped_or mapTo id old = Ret r.
Proof. intros [z Hz]. unfold mapped_or. case_match; [rewrite Hz |]; by eexists. Qed.

(** What [UseUID] and [UseGID] accept. *)
Lemma UseUID_ret id : exists r, UseUID w c id = Ret r /\
  forall k, r = Ok k -> has_cap c CAP_SETUID = true \/ k ∈ kuids c.
Proof.
  unfold UseUID. destruct (MapToKUID_ret id) as [k ->]. rewrite bind_ret, HasCapability_eq, bind_ret.
  repeat case_match; eexists; (split; [reflexivity |]); intros k' [= <-]; [by left | right].
  unfold kuids. rewrite !elem_of_cons. repeat (apply orb_true_iff in H1 as [H1 | H1]); apply Z.eqb_eq in H1; auto.
Qed.

Lemma UseGID_ret id : exists r, UseGID w c id = Ret r /\
  forall k, r = Ok k -> has_cap c CAP_SETGID = true \/ k ∈ kgids c.
Proof.
  unfold UseGID. destruct (MapToKGID_ret id) as [k ->]. rewrite bind_ret, HasCapability_eq, bind_ret.
  repeat case_match; eexists; (split; [reflexivity |]); intros k' [= <-]; [by left | right].
  unfold kgids. rewrite !elem_of_cons. repeat (apply orb_true_iff in H1 as [H1 | H1]); apply Z.eqb_eq in H1; auto.
Qed.

Lemma used_or_ret use id old (P : Z -> Prop) :
  (exists r, use id = Ret r /\ forall k, r = Ok k -> P k) -> P old ->
  exists r, used_or use id old = Ret r /\ forall k, r = Ok k -> P k.
Proof.
  intros Hu Ho. unfold used_or. case_match; [done |]. eexists. split; [reflexivity |]. by intros k [= <-].
Qed.

Lemma used_ok_or_ret use id old (P : Z -> Prop) :
  (exists r, use id = Ret r /\ forall k, r = Ok k -> P k) -> P old ->
  exists r, used_ok_or use id old = Ret r /\ forall k, r = Ok k -> P k.
Proof.
  intros (r & Hu & Hr) Ho. unfold used_ok_or. case_match; [rewrite Hu, bind_ret; destruct r as [err | k] |].
  - by eexists.
  - case_match; eexists; (split; [reflexivity |]); [intros k' [= <-]; by apply Hr | done].
  - eexists. split; [reflexivity |]. by intros k [= <-].
Qed.

Lemma map_gids_ret gids : exists r, map_gids w (UserNamespace c) gids = Ret r.
Proof.
  induction gids as [| g gids [r IH]]; [by eexists |]. simpl. destruct (MapToKGID_ret g) as [k ->].
  rewrite bind_ret. case_match; [by eexists |]. rewrite IH, bind_ret. destruct r; by eexists.
Qed.
End Ops.

(** Reads an inequality test off a boolean guard. *)
Ltac ids :=
  repeat match goal with
  | H : negb _ = true |- _ => apply negb_true_iff in H
  | H : negb _ = false |- _ => apply negb_false_iff in H
  | H : _ && _ = false |- _ => apply andb_false_iff in H as [H | H]
  | H : _ || _ = false |- _ => apply orb_false_iff in H as [? ?]
  | H : (_ =? _) = true |- _ => apply Z.eqb_eq in H
  end.

Lemma three_subset (a b d : Z) (l : list Z) : a ∈ l -> b ∈ l -> d ∈ l -> [a; b; d] ⊆ l.
Proof. set_solver. Qed.

Lemma priv_or_three (P : Prop) (a b d : Z) (l : list Z) :
  P \/ a ∈ l -> P \/ b ∈ l -> P \/ d ∈ l -> P \/ [a; b; d] ⊆ l.
Proof. intros [? | Ha] [? | Hb] [? | Hd]; auto using three_subset. Qed.

Section Setters.
Context (w : World) (t : Thread) (c : Creds) (Howns : owns (w, t) c).

Ltac enter := rewrite (get_creds_eq w t c Howns), bind_ret.

Lemma SetUID_moves uid : moves c (SetUID w t uid).
Proof.
  unfold SetUID. case_match; [by apply moves_ret |]. enter.
  destruct (MapToKUID_ret w t c Howns uid) as [k ->]. rewrite bind_ret.
  case_match; [by apply moves_ret |]. rewrite HasCapability_eq, bind_ret.
  destruct (has_cap c CAP_SETUID) eqn:Hcap; [by apply moves_ok, setKUIDs_moved; auto |].
  case_match; [by apply moves_ret |]. apply moves_ok, setKUIDs_moved; [done |]. right.
  ids; subst; unfold kuids; apply three_subset; set_solver.
Qed.

Lemma SetREUID_moves r e : moves c (SetREUID w t r e).
Proof.
  unfold SetREUID. enter.
  destruct (mapped_or_ret (MapToKUID w (UserNamespace c)) r (RealKUID c)) as [rR ->]; [by apply (MapToKUID_ret w t) |].
  rewrite bind_ret. destruct rR as [err | newR]; [by apply moves_ret |].
  destruct (mapped_or_ret (MapToKUID w (UserNamespace c)) e (EffectiveKUID c)) as [rE ->]; [by apply (MapToKUID_ret w t) |].
  rewrite bind_ret. destruct rE as [err | newE]; [by apply moves_ret |]. rewrite HasCapability_eq, bind_ret.
  destruct (has_cap c CAP_SETUID) eqn:Hcap; simpl; [by apply moves_ok, setKUIDs_moved; auto |].
  case_match; [by apply moves_ret |]. case_match; [by apply moves_ret |].
  apply moves_ok, setKUIDs_moved; [done |]. right. unfold kuids.
  ids; subst; case_match; apply three_subset; set_solver.
Qed.

Lemma SetRESUID_moves r e s : moves c (SetRESUID w t r e s).
Proof.
  unfold SetRESUID. enter.
  destruct (used_or_ret (UseUID w c) r (RealKUID c) _ (UseUID_ret w t c Howns r)) as (rR & -> & HR); [set_solver |].
  rewrite bind_ret. destruct rR as [err | newR]; [by apply moves_ret |].
  destruct (used_or_ret (UseUID w c) e (EffectiveKUID c) _ (UseUID_ret w t c Howns e)) as (rE & -> & HE); [set_solver |].
  rewrite bind_ret. destruct rE as [err | newE]; [by apply moves_ret |].
  destruct (used_or_ret (UseUID w c) s (SavedKUID c) _ (UseUID_ret w t c Howns s)) as (rS & -> & HS); [set_solver |].
  rewrite bind_ret. destruct rS as [err | newS]; [by apply moves_ret |].
  apply moves_ok, setKUIDs_moved; [done |]. apply priv_or_three; auto.
Qed.

Lemma SetGID_moves gid : moves c (SetGID w t gid).
Proof.
  unfold SetGID. case_match; [by apply moves_ret |]. enter.
  destruct (MapToKGID_ret w t c Howns gid) as [k ->]. rewrite bind_ret.
  case_match; [by apply moves_ret |]. rewrite HasCapability_eq, bind_ret.
  destruct (has_cap c CAP_SETGID) eqn:Hcap; [by apply moves_ok, setKGIDs_moved; auto |].
  case_match; [by apply moves_ret |]. apply moves_ok, setKGIDs_moved; [done |]. right.
  ids; subst; unfold kgids; apply three_subset; set_solver.
Qed.

Lemma SetREGID_moves r e : moves c (SetREGID w t r e).
Proof.
  unfold SetREGID. enter.
  destruct (mapped_or_ret (MapToKGID w (UserNamespace c)) r (RealKGID c)) as [rR ->]; [by apply (MapToKGID_ret w t) |].
  rewrite bind_ret. destruct rR as [err | newR]; [by apply moves_ret |].
  destruct (mapped_or_ret (MapToKGID w (UserNamespace c)) e (EffectiveKGID c)) as [rE ->]; [by apply (MapToKGID_ret w t) |].
  rewrite bind_ret. destruct rE as [err | newE]; [by apply moves_ret |]. rewrite HasCapability_eq, bind_ret.
  destruct (has_cap c CAP_SETGID) eqn:Hcap; simpl; [by apply moves_ok, setKGIDs_moved; auto |].
  case_match; [by apply moves_ret |]. case_match; [by apply moves_ret |].
  apply moves_ok, setKGIDs_moved; [done |]. right. unfold kgids.
  ids; subst; case_match; apply three_subset; set_solver.
Qed.

Lemma SetRESGID_moves r e s : moves c (SetRESGID w t r e s).
Proof.
  unfold SetRESGID. enter.
  destruct (used_ok_or_ret (UseGID w c) r (RealKGID c) _ (UseGID_ret w t c Howns r)) as (rR & -> & HR); [set_solver |].
  rewrite bind_ret. destruct rR as [err | newR]; [by apply moves_ret |].
  destruct (used_ok_or_ret (UseGID w c) e (EffectiveKGID c) _ (UseGID_ret w t c Howns e)) as (rE & -> & HE); [set_solver |].
  rewrite bind_ret. destruct rE as [err | newE]; [by apply moves_ret |].
  destruct (used_ok_or_ret (UseGID w c) s (SavedKGID c) _ (UseGID_ret w t c Howns s)) as (rS & -> & HS); [set_solver |].
  rewrite bind_ret. destruct rS as [err | newS]; [by apply moves_ret |].
  apply moves_ok, setKGIDs_moved; [done |]. apply priv_or_three; auto.
Qed.

Lemma SetExtraGIDs_moves gids : moves c (SetExtraGIDs w t gids).
Proof.
  unfold SetExtraGIDs. enter. rewrite HasCapability_eq, bind_ret.
  case_match; [by apply moves_ret |]. ids. destruct (map_gids_ret w t c Howns gids) as [r ->]. rewrite bind_ret.
  destruct r as [err | ks]; [by apply moves_ret |]. apply moves_ok, fork_moved; [done | done |]. by apply ct_extra.
Qed.

Lemma SetCapabilitySets_moves p i e : moves c (SetCapabilitySets w t p i e).
Proof.
  unfold SetCapabilitySets. case_match; [by apply moves_ret |]. enter. rewrite HasCapability_eq, bind_ret.
  do 3 (case_match; [by apply moves_ret |]). ids;
  (eapply returns_bind; [apply (fork_moved w t c Howns); [done | by apply ct_caps] |];
   intros [w' t'] (c' & Ho & Hc); apply returns_ret; exists c'; split; [by eapply owns_task | done]).
Qed.

Lemma DropBounding_moves cp : moves c (DropBoundingCapability w t cp).
Proof.
  unfold DropBoundingCapability. enter. rewrite HasCapability_eq, bind_ret.
  case_match; [by apply moves_ret |]. ids. apply moves_ok, fork_moved; [done | done |]. by apply ct_drop.
Qed.
End Setters.

#[export] Hint Resolve SetUID_moves SetREUID_moves SetRESUID_moves SetGID_moves SetREGID_moves SetRESGID_moves
  SetExtraGIDs_moves SetCapabilitySets_moves DropBounding_moves : quark.

Lemma run_op_moves op s c : owns s c -> moves c (run_op op s).
Proof.
  destruct s as [w t]. intros Ho. destruct op; simpl; auto with quark; unfold ok_unit; apply moves_ok.
  - apply fork_moved; [done | done | by apply ct_keep].
  - by apply exec_moved.
Qed.
