(* ===== verification/IdentityProps.v ===== *)
(** What the calls of one thread can do to its credentials and to those of others. *)
From S2P Require Import Prelude BTree Auth TaskIdentity IdentityThm.
#[local] Open Scope Z_scope.

(** Neither CAP_SETUID nor CAP_SETGID can be used or regained. *)
Definition unprivileged (c : Creds) : Prop :=
  Z.testbit (PermittedCaps c) CAP_SETUID = false /\ Z.testbit (PermittedCaps c) CAP_SETGID = false.

Record shrinks (c c' : Creds) : Prop := {
  sh_effective : sub (EffectiveCaps c') (PermittedCaps c');
  sh_permitted : sub (PermittedCaps c') (PermittedCaps c);
  sh_bounding : sub (BoundingCaps c') (BoundingCaps c);
  sh_ns : UserNamespace c' = UserNamespace c;
}.

Record confined (c c' : Creds) : Prop := {
  cf_uids : kuids c' ⊆ kuids c;
  cf_gids : kgids c' ⊆ kgids c;
  cf_extra : ExtraKGIDs c' = ExtraKGIDs c;
}.

Lemma kuid_caps_shrinks root r e s c :
  sub (EffectiveCaps c) (PermittedCaps c) -> shrinks c (kuid_caps root r e s c (with_kuids c r e s)).
Proof. intros H. unfold kuid_caps. repeat case_match; constructor; simpl; auto with quark. Qed.

Lemma exec_shrinks root c : shrinks c (exec_creds root c).
Proof. unfold exec_creds. repeat case_match; constructor; simplify_eq; simpl; auto with quark. Qed.

Lemma ctrans_shrinks c c' : sub (EffectiveCaps c) (PermittedCaps c) -> ctrans c c' -> shrinks c c'.
Proof.
  intros H Hc. destruct Hc; try (constructor; simpl; by auto with quark).
  - by apply kuid_caps_shrinks.
  - apply exec_shrinks.
Qed.

Lemma unprivileged_no_cap c cp :
  0 <= cp < 64 -> Z.testbit (PermittedCaps c) cp = false -> sub (EffectiveCaps c) (PermittedCaps c) -> has_cap c cp = false.
Proof.
  intros Hcp Hp Hs. rewrite has_cap_testbit by done. destruct (Z.testbit (EffectiveCaps c) cp) eqn:E; [| done].
  rewrite sub_spec in Hs. rewrite (Hs _ E) in Hp. done.
Qed.

Lemma kuid_caps_ids root r e s old c :
  kuids (kuid_caps root r e s old c) = kuids c /\ kgids (kuid_caps root r e s old c) = kgids c /\
  ExtraKGIDs (kuid_caps root r e s old c) = ExtraKGIDs c.
Proof. unfold kuid_caps. by repeat case_match. Qed.

Lemma exec_confined root c : confined c (exec_creds root c).
Proof. unfold exec_creds. repeat case_match; constructor; unfold kuids, kgids; simpl; set_solver. Qed.

Lemma ctrans_confined c c' :
  unprivileged c -> sub (EffectiveCaps c) (PermittedCaps c) -> ctrans c c' -> confined c c'.
Proof.
  intros [Hu Hg] Hs Hc.
  assert (has_cap c CAP_SETUID = false) as Nu by (by apply unprivileged_no_cap).
  assert (has_cap c CAP_SETGID = false) as Ng by (by apply unprivileged_no_cap).
  destruct Hc as [| root r e s [? | Hsub] | r e s [? | Hsub] | | | | | root]; try congruence;
    try (by constructor).
  - destruct (kuid_caps_ids root r e s c (with_kuids c r e s)) as (E1 & E2 & E3).
    constructor; [by rewrite E1 | by rewrite E2 | by rewrite E3].
  - apply exec_confined.
Qed.

Lemma unprivileged_shrinks c c' : unprivileged c -> shrinks c c' -> unprivileged c'.
Proof.
  intros [Hu Hg] [_ Hp _ _]. rewrite sub_spec in Hp.
  split; apply not_true_is_false; intros H%Hp; congruence.
Qed.

(** A relation that every transition makes and that composes holds after every run. *)
Lemma run_ops_rel (I : Creds -> Prop) (R : Creds -> Creds -> Prop) :
  (forall c, I c -> R c c) ->
  (forall a b c, R a b -> R b c -> R a c) ->
  (forall c c', I c -> ctrans c c' -> I c' /\ R c c') ->
  forall ops s c, owns s c -> I c -> returns (run_ops ops s) (fun s' => exists c', owns s' c' /\ R c c').
Proof.
  intros Hrefl Htrans Hstep ops. induction ops as [| op ops IH]; intros s c Ho Hi.
  { apply returns_ret. eauto. }
  simpl. eapply returns_bind; [by apply run_op_moves |]. intros [s1 r] (c1 & Ho1 & Hc).
  destruct (Hstep _ _ Hi Hc) as [Hi1 HR]. eapply returns_mono; [exact (IH s1 c1 Ho1 Hi1) |].
  intros s' (c' & Ho' & HR'). eauto.
Qed.

Lemma shrinks_trans a b c : shrinks a b -> shrinks b c -> shrinks a c.
Proof. intros [] []. constructor; [done | by eapply sub_trans | by eapply sub_trans | congruence]. Qed.

Lemma confined_trans a b c : confined a b -> confined b c -> confined a c.
Proof. intros [] []. constructor; [set_solver | set_solver | congruence]. Qed.

(** C12: whatever calls a thread makes (the set*id family, setgroups, capset, the
    bounding set, keep-caps, exec) and whether they succeed or fail, each one returns, its
    effective set stays within its permitted set, neither the permitted nor the bounding
    set ever gains a capability, and it stays in its user namespace. *)
Theorem caps_never_grow (ops : list IdOp) (s : World * Thread) (c : Creds) :
  owns s c -> sub (EffectiveCaps c) (PermittedCaps c) ->
  returns (run_ops ops s) (fun s' => exists c', owns s' c' /\ shrinks c c').
Proof.
  apply (run_ops_rel (fun c => sub (EffectiveCaps c) (PermittedCaps c)) shrinks).
  - intros d Hd. constructor; auto with quark.
  - apply shrinks_trans.
  - intros d d' Hd Hc. pose proof (ctrans_shrinks d d' Hd Hc) as Hs. split; [apply Hs | done].
Qed.

(** C11: a thread whose permitted set has neither CAP_SETUID nor CAP_SETGID can, by no
    sequence of calls, obtain a user or group identifier that is not one of the real,
    effective and saved ones it started with, and cannot change its supplementary groups. *)
Theorem identity_confined (ops : list IdOp) (s : World * Thread) (c : Creds) :
  owns s c -> unprivileged c -> sub (EffectiveCaps c) (PermittedCaps c) ->
  returns (run_ops ops s) (fun s' => exists c', owns s' c' /\ confined c c').
Proof.
  intros Ho Hu Hs.
  apply (run_ops_rel (fun c => unprivileged c /\ sub (EffectiveCaps c) (PermittedCaps c)) confined); try done.
  - apply confined_trans.
  - intros d d' [Hu' Hd] Hc. pose proof (ctrans_shrinks d d' Hd Hc) as Hsh.
    split; [split; [by eapply unprivileged_shrinks | apply Hsh] | by apply ctrans_confined].
Qed.

(** * A concrete thread *)

Definition world0 (c : Creds) : World :=
  let '(w, ns) := NewRootUserNamespace (mkWorld ∅ ∅ 1) in fst (new_creds w c).
Definition thread0 : Thread := mkThread 2 2 9.
Definition user0 : Creds := with_kuids (UserCreds 1000 100 [4] None 1) 1000 1000 1001.

Lemma owns0 c : UserNamespace c = 1%positive -> owns (world0 c, thread0) c.
Proof.
  intros Hns. split; [| done]. constructor.
  - intros n ns. unfold world0. simpl. rewrite lookup_insert_Some, lookup_empty.
    intros [[<- <-] | [_ [=]]]. split; [lia |]. intros p [=].
  - intros k cr. unfold world0. simpl. rewrite lookup_insert_Some, lookup_empty.
    intros [[<- <-] | [_ [=]]]. rewrite Hns. split; [lia |]. by eexists.
Qed.

Lemma caps_never_grow_witness :
  returns (run_ops [OpSetUID 1000; OpExec] (world0 (RootCreds 1), thread0))
    (fun s' => exists c', owns s' c' /\ shrinks (RootCreds 1) c').
Proof. apply caps_never_grow; [by apply owns0 | reflexivity]. Defined.

Lemma identity_confined_witness :
  returns (run_ops [OpSetUID 0; OpSetRESUID 1001 1001 1001; OpExec] (world0 user0, thread0))
    (fun s' => exists c', owns s' c' /\ confined user0 c').
Proof. apply identity_confined; [by apply owns0 | split; reflexivity | reflexivity]. Defined.

(** * Credentials that are shared *)

(** the calls that change user identifiers write to a fresh copy, so another thread
    that holds the same credentials keeps them; [SetGID] writes to the shared object, so
    the other thread's group identifiers change too.  A clone shares the credentials of
    its parent, also when it is a new process. *)
Theorem uid_private_gid_shared (w : World) (t u : Thread) (c : Creds) (id k : Z) :
  owns (w, t) c -> th_creds u = th_creds t -> id_Ok id = true ->
  has_cap c CAP_SETUID = true -> has_cap c CAP_SETGID = true ->
  MapToKUID w (UserNamespace c) id = Ret k -> MapToKGID w (UserNamespace c) id = Ret k -> id_Ok k = true ->
  returns (SetUID w t id) (fun r => w_creds (fst (fst r)) !! th_creds u = Some c /\ snd r = Ok tt) /\
  returns (SetGID w t id) (fun r => w_creds (fst (fst r)) !! th_creds u = Some (with_kgids c k k k) /\ snd r = Ok tt).
Proof.
  intros Ho Hu Hid Hcu Hcg Mu Mg Hk.
  unfold SetUID, SetGID. rewrite Hid. simpl. rewrite (get_creds_eq w t c Ho), !bind_ret, Mu, Mg, !bind_ret, Hk.
  simpl. rewrite !HasCapability_eq, !bind_ret, Hcu, Hcg. split.
  - unfold setKUIDsUncheckedLocked. rewrite (get_creds_eq w t c Ho), bind_ret.
    destruct (MapToKUID_ret w t c Ho ROOT_ID) as [root ->]. rewrite bind_ret.
    eapply returns_bind; [| intros s Hs; apply returns_ret; exact Hs].
    eapply returns_bind; [apply (fork_with_spec w t c); [done | by rewrite kuid_caps_ns] |].
    intros [w' t'] (_ & Hw & Hfresh). apply returns_ret. simpl in *. rewrite Hw, Hu. split; [| done].
    destruct Ho as [_ Hc]. simpl in Hc. rewrite lookup_insert_ne; [done | congruence].
  - unfold setKGIDsUncheckedLocked. rewrite (get_creds_eq w t c Ho), !bind_ret.
    apply returns_ret. simpl. by rewrite Hu, lookup_insert_eq.
Qed.

Lemma uid_private_gid_shared_witness :
  returns (SetUID (world0 (RootCreds 1)) thread0 5)
    (fun r => w_creds (fst (fst r)) !! 2%positive = Some (RootCreds 1) /\ snd r = Ok tt) /\
  returns (SetGID (world0 (RootCreds 1)) thread0 5)
    (fun r => w_creds (fst (fst r)) !! 2%positive = Some (with_kgids (RootCreds 1) 5 5 5) /\ snd r = Ok tt).
Proof.
  apply (uid_private_gid_shared (world0 (RootCreds 1)) thread0 (mkThread 2 2 0) (RootCreds 1) 5 5);
    [by apply owns0 | reflexivity..].
Defined.

(** * The capability sets *)

(** [SetCapabilitySets] succeeds exactly when the new effective set is within the new
    permitted set, that is within the old permitted set, and the new inheritable set is
    within the old inheritable and bounding sets; then the three sets are as given and the
    rest is unchanged, and otherwise it is EPERM and nothing changes.  CAP_SETPCAP plays no
    part: the test that should restrict the inheritable set of a thread without it never
    fails, because it compares the new set with itself. *)
Theorem SetCapabilitySets_spec (w : World) (t : Thread) (c : Creds) (p i e : Z) :
  owns (w, t) c ->
  returns (SetCapabilitySets w t p i e) (fun r =>
    if decide (sub e p /\ sub p (PermittedCaps c) /\ sub i (Z.lor (InheritableCaps c) (BoundingCaps c)))
    then snd r = Ok tt /\ owns (fst r) (with_caps c p i e (BoundingCaps c)) /\
         th_task_creds (snd (fst r)) = th_creds (snd (fst r))
    else r = ((w, t), Err (SysError EPERM))).
Proof.
  intros Ho. unfold SetCapabilitySets.
  assert (Z.ldiff i (Z.lor i (PermittedCaps c)) = 0) as Hvac.
  { apply sub_spec. intros j Hj. by rewrite Z.lor_spec, Hj. }
  unfold sub. destruct (Z.eqb_spec (Z.ldiff e p) 0) as [E1 | E1]; simpl;
    [| apply returns_ret; rewrite decide_False; [done | tauto]].
  rewrite (get_creds_eq w t c Ho), bind_ret, HasCapability_eq, bind_ret, Hvac, andb_false_r.
  destruct (Z.eqb_spec (Z.ldiff p (PermittedCaps c)) 0) as [E2 | E2]; simpl;
    [| apply returns_ret; rewrite decide_False; [done | tauto]].
  destruct (Z.eqb_spec (Z.ldiff i (Z.lor (InheritableCaps c) (BoundingCaps c))) 0) as [E3 | E3]; simpl;
    [| apply returns_ret; rewrite decide_False; [done | tauto]].
  eapply returns_bind; [apply (fork_with_spec w t c); [done | done] |].
  intros [w' t'] (Ho' & _ & _). apply returns_ret. rewrite decide_True by done. split_and!; [done | | done].
  by eapply owns_task.
Qed.

Lemma SetCapabilitySets_witness :
  returns (SetCapabilitySets (world0 user0) thread0 1 ALL_CAP 1) (fun r => snd r = Ok tt).
Proof.
  destruct (SetCapabilitySets_spec (world0 user0) thread0 user0 1 ALL_CAP 1) as (r & E & Hr); [by apply owns0 |].
  exists r. split; [exact E |]. rewrite decide_True in Hr by (split_and!; reflexivity). apply Hr.
Defined.
