(* ===== verification/UserNsProps.v ===== *)
(** User namespaces: who has capabilities in a namespace, and how identifiers are mapped
    between a namespace and the kernel's. *)
From S2P Require Import Prelude BTree Auth TaskIdentity IdentityThm.
#[local] Open Scope Z_scope.

(** * Capabilities in a namespace *)

(** The rules of user_namespaces(7): a capability in one's own namespace is an effective
    capability; the owner of a namespace who is in its parent has every capability in it;
    a capability in the parent is a capability in the namespace. *)
Inductive grants (w : World) (c : Creds) (cp : Z) : positive -> Prop :=
| gr_own : Z.testbit (EffectiveCaps c) cp = true -> grants w c cp (UserNamespace c)
| gr_owner n ns :
    n <> UserNamespace c -> w_ns w !! n = Some ns -> ns_parent ns = Some (UserNamespace c) ->
    ns_owner ns = EffectiveKUID c -> grants w c cp n
| gr_parent n ns p :
    n <> UserNamespace c -> w_ns w !! n = Some ns -> ns_parent ns = Some p -> grants w c cp p -> grants w c cp n.

Lemma grants_own_inv w c cp : grants w c cp (UserNamespace c) -> Z.testbit (EffectiveCaps c) cp = true.
Proof. intros H. inversion H; done. Qed.

Lemma grants_other_inv w c cp n ns :
  grants w c cp n -> n <> UserNamespace c -> w_ns w !! n = Some ns ->
  exists p, ns_parent ns = Some p /\ ((p = UserNamespace c /\ ns_owner ns = EffectiveKUID c) \/ grants w c cp p).
Proof. intros H Hne Hn. inversion H; simplify_eq; eauto. Qed.

Lemma HasCapabilityIn_loop_spec w c cp fuel n :
  wf w -> 0 <= cp < 64 -> is_Some (w_ns w !! n) -> (Pos.to_nat n <= fuel)%nat ->
  returns (HasCapabilityIn_loop fuel w c cp n) (fun b => b = true <-> grants w c cp n).
Proof.
  intros Hwf Hcp. revert n. induction fuel as [| fuel IH]; intros n [ns Hns] Hf; [lia |].
  simpl. case_bool_decide as Heq.
  { apply returns_ret. subst n. change (negb _) with (has_cap c cp). rewrite has_cap_testbit by done.
    split; [apply gr_own | apply grants_own_inv]. }
  unfold get_ns. rewrite Hns, bind_ret. destruct (ns_parent ns) as [p |] eqn:Hp.
  2: { apply returns_ret. split; [done |]. intros Hg.
       destruct (grants_other_inv _ _ _ _ _ Hg ltac:(done) Hns) as (p & Hp' & _). congruence. }
  destruct (proj2 (wf_ns w Hwf n ns Hns) p Hp) as [Hlt Hsome].
  case_match eqn:Hb.
  { apply returns_ret. apply andb_true_iff in Hb as [Hu%bool_decide_eq_true He%Z.eqb_eq]. subst p.
    split; [| done]. intros _. by eapply gr_owner. }
  eapply returns_mono; [apply (IH p Hsome); lia |]. intros b Hib. rewrite Hib. split.
  - intros Hg. by eapply gr_parent.
  - intros Hg. destruct (grants_other_inv _ _ _ _ _ Hg ltac:(done) Hns) as (p' & Hp' & Hc). simplify_eq.
    destruct Hc as [[-> Ho] | ?]; [| done].
    rewrite bool_decide_eq_true_2, Ho, Z.eqb_refl in Hb by done. done.
Qed.

Lemma grants_descendant w c cp n : wf w -> grants w c cp n -> (UserNamespace c <= n)%positive.
Proof.
  intros Hwf. induction 1 as [| n ns Hne Hn Hp _ | n ns p Hne Hn Hp _ IH]; [lia | |];
    destruct (proj2 (wf_ns w Hwf n ns Hn) _ Hp); lia.
Qed.

(** C15: [HasCapabilityIn] always answers, and answers as the rules of user_namespaces(7)
    say; in particular credentials have no capability at all in a namespace created before
    their own, so in no ancestor of it. *)
Theorem HasCapabilityIn_spec (w : World) (c : Creds) (cp : Z) (n : positive) :
  wf w -> 0 <= cp < 64 -> is_Some (w_ns w !! n) ->
  returns (HasCapabilityIn w c cp n) (fun b =>
    (b = true <-> grants w c cp n) /\ ((n < UserNamespace c)%positive -> b = false)).
Proof.
  intros Hwf Hcp Hn. eapply returns_mono; [by apply HasCapabilityIn_loop_spec |].
  intros b Hb. split; [exact Hb |]. intros Hlt. apply not_true_is_false. intros Ht%Hb%grants_descendant; [lia | done].
Qed.

(** * Identifier maps *)

Definition covers (e : IdMapEntry) (id : Z) : Prop := FirstFromId e <= id < FirstFromId e + ELen e.
#[global] Instance covers_dec e id : Decision (covers e id).
Proof. unfold covers. apply _. Defined.

Definition swap (e : IdMapEntry) : IdMapEntry := mkEntry (FirstToId e) (FirstFromId e) (ELen e).

Record valid_entry (e : IdMapEntry) : Prop := {
  ve_from : 0 <= FirstFromId e; ve_to : 0 <= FirstToId e; ve_len : 0 < ELen e;
  ve_from_end : FirstFromId e + ELen e <= U32_MAX; ve_to_end : FirstToId e + ELen e <= U32_MAX;
}.

Definition disjoint_entries (E : list IdMapEntry) : Prop :=
  forall e1 e2 id, e1 ∈ E -> e2 ∈ E -> covers e1 id -> covers e2 id -> e1 = e2.

(** What a list of entries means: the entry that covers [id], if there is one, shifts it. *)
Definition translate (E : list IdMapEntry) (id : Z) : Z :=
  match list_find (fun e => covers e id) E with
  | Some (_, e) => id - FirstFromId e + FirstToId e
  | None => NO_ID
  end.

(** [m] holds the entries [E], by their first identifier. *)
Definition holds (m : list (Z * IdMapEntry)) (E : list IdMapEntry) : Prop :=
  bt_sorted m /\ forall k v, bt_get k m = Some v <-> v ∈ E /\ FirstFromId v = k.

Lemma translate_covered E e id : disjoint_entries E -> e ∈ E -> covers e id -> translate E id = id - FirstFromId e + FirstToId e.
Proof.
  intros Hd He Hc. unfold translate. destruct (list_find _ E) as [[i e'] |] eqn:Hf.
  - apply list_find_Some in Hf as (Hi & Hc' & _). apply list_elem_of_lookup_2 in Hi. by rewrite (Hd e' e id).
  - apply list_find_None in Hf. rewrite Forall_forall in Hf. exfalso. by apply (Hf e He).
Qed.

Lemma translate_uncovered E id : (forall e, e ∈ E -> ~ covers e id) -> translate E id = NO_ID.
Proof.
  intros Hn. unfold translate. destruct (list_find _ E) as [[i e'] |] eqn:Hf; [| done].
  apply list_find_Some in Hf as (Hi & Hc' & _). exfalso. eapply Hn; [by eapply list_elem_of_lookup_2 | done].
Qed.

Lemma covered_dec (E : list IdMapEntry) (id : Z) : (exists e, e ∈ E /\ covers e id) \/ (forall e, e ∈ E -> ~ covers e id).
Proof.
  destruct (decide (Exists (fun e => covers e id) E)) as [H | H].
  - left. by apply Exists_exists in H.
  - right. intros e He Hc. apply H, Exists_exists. eauto.
Qed.

(** The search of [IdMap::Map] finds the entry that covers the identifier. *)
Lemma IdMap_Map_eq m E id :
  holds m E -> Forall valid_entry E -> disjoint_entries E -> IdMap_Map m id = translate E id.
Proof.
  intros [Hs Hm] Hv Hd. rewrite Forall_forall in Hv. unfold IdMap_Map.
  pose proof (bt_last_le_get m id Hs) as Hl. destruct (bt_last_le id m) as [[k v] |].
  - destruct Hl as ((Hin & Hk)%Hm & Hle & Hmax). destruct (Hv v Hin) as [? ? ? ? ?].
    unfold u32w. unfold U32_MAX in *. rewrite (Z.mod_small (FirstFromId v + ELen v)) by lia.
    destruct (decide (covers v id)) as [Hc | Hc].
    + rewrite (translate_covered E v id) by done. unfold covers in Hc.
      destruct (Z.ltb_spec id (FirstFromId v)); [lia |]. destruct (Z.leb_spec (FirstFromId v + ELen v) id); [lia |].
      simpl. apply Z.mod_small. lia.
    + rewrite translate_uncovered.
      { unfold covers in Hc. destruct (Z.ltb_spec id (FirstFromId v)); [done |].
        destruct (Z.leb_spec (FirstFromId v + ELen v) id); [done | lia]. }
      intros e He Hce. apply Hc. assert (FirstFromId e <= k) as Hek.
      { apply (Hmax (FirstFromId e) e); [by apply Hm | unfold covers in Hce; lia]. }
      rewrite (Hd v e (FirstFromId v)); try done; unfold covers in *; lia.
  - rewrite translate_uncovered; [done |]. intros e He Hc.
    assert (id < FirstFromId e) by (apply (Hl _ e), Hm; done). unfold covers in Hc. lia.
Qed.

Lemma AddEntry_holds m E e :
  holds m E -> valid_entry e -> disjoint_entries (E ++ [e]) -> Forall valid_entry E ->
  exists m', AddEntry m (FirstFromId e) (FirstToId e) (ELen e) = Ok m' /\ holds m' (E ++ [e]).
Proof.
  intros [Hs Hm] [? ? ? ? ?] Hd Hv. rewrite Forall_forall in Hv. unfold AddEntry.
  assert ((U32_MAX - ELen e <? (if FirstFromId e <? FirstToId e then FirstToId e else FirstFromId e)) = false) as ->
    by (apply Z.ltb_ge; case_match; lia).
  eexists. split; [reflexivity |]. split; [by apply bt_insert_sorted |]. intros k v.
  rewrite bt_get_insert by done. replace (mkEntry _ _ _) with e by (by destruct e).
  destruct (Z.eqb_spec k (FirstFromId e)) as [-> | Hne].
  - split; [intros [= <-]; set_solver |]. intros [Hin Hf]. f_equal. apply elem_of_app in Hin as [HvE | ->%list_elem_of_singleton]; [| done].
    destruct (Hv v HvE).
    symmetry. apply (Hd v e (FirstFromId e)); [set_solver | set_solver | |]; unfold covers; lia.
  - rewrite Hm. rewrite elem_of_app, list_elem_of_singleton. naive_solver.
Qed.

Lemma set_maps_holds E : forall to from E0,
  holds to E0 -> holds from (swap <$> E0) -> Forall valid_entry (E0 ++ E) ->
  disjoint_entries (E0 ++ E) -> disjoint_entries (swap <$> (E0 ++ E)) ->
  exists to' from', set_maps to from E = (to', from', Ok tt) /\ holds to' (E0 ++ E) /\ holds from' (swap <$> (E0 ++ E)).
Proof.
  induction E as [| e E IH]; intros to from E0 Ht Hf Hv Hd Hd'.
  { exists to, from. by rewrite app_nil_r. }
  replace (E0 ++ e :: E) with ((E0 ++ [e]) ++ E) in * by (by rewrite <- app_assoc).
  assert (Forall valid_entry (E0 ++ [e])) as Hv0 by (by apply Forall_app in Hv as [? _]).
  pose proof Hv0 as [HvE0 Hve]%Forall_app. apply Forall_inv in Hve.
  assert (forall L, disjoint_entries ((E0 ++ [e]) ++ L) -> disjoint_entries (E0 ++ [e])) as Hsub.
  { intros L HL e1 e2 id H1 H2. apply HL; set_solver. }
  destruct (AddEntry_holds to E0 e Ht Hve (Hsub E Hd) HvE0) as (to' & E1 & Ht').
  assert (valid_entry (swap e)) as Hvs by (destruct Hve; by constructor).
  assert (disjoint_entries (swap <$> E0 ++ [e])) as Hds.
  { intros e1 e2 id H1 H2. apply Hd'; rewrite fmap_app; set_solver. }
  rewrite fmap_app in Hds.
  destruct (AddEntry_holds from (swap <$> E0) (swap e) Hf Hvs Hds) as (from' & E2 & Hf').
  { apply Forall_fmap. eapply Forall_impl; [exact HvE0 |]. intros x []. by constructor. }
  simpl. rewrite E1. simpl in E2. rewrite E2. apply IH; try done. by rewrite fmap_app.
Qed.

Lemma holds_nil : holds [] [].
Proof. split; [constructor |]. intros k v. simpl. set_solver. Qed.

Lemma swap_valid E : Forall valid_entry E -> Forall valid_entry (swap <$> E).
Proof. intros Hv. apply Forall_fmap. eapply Forall_impl; [exact Hv |]. intros x []. by constructor. Qed.

Lemma translate_back E id :
  disjoint_entries E -> disjoint_entries (swap <$> E) -> translate E id <> NO_ID ->
  translate (swap <$> E) (translate E id) = id.
Proof.
  intros Hd Hd' Hn. destruct (covered_dec E id) as [(e & He & Hc) | Hu]; [| by rewrite translate_uncovered in Hn].
  rewrite (translate_covered E e id) by done.
  rewrite (translate_covered (swap <$> E) (swap e)); [simpl; lia | done | by apply list_elem_of_fmap_2 |].
  unfold covers in *. simpl. lia.
Qed.

(** A namespace whose parent is the root maps with its own table only. *)
Lemma map_chain_child sel w n ns p root id :
  (p < n)%positive -> w_ns w !! n = Some ns -> ns_parent ns = Some p ->
  w_ns w !! p = Some root -> ns_parent root = None ->
  map_chain sel (chain_fuel n) w n id = Ret (IdMap_Map (sel ns) id).
Proof.
  intros Hlt Hn Hp Hr Hroot. unfold chain_fuel.
  destruct (Pos.to_nat n) as [| [| m]] eqn:E; [lia | lia |].
  simpl. unfold get_ns. rewrite Hn. simpl. rewrite Hp, Hr. simpl. by rewrite Hroot.
Qed.

(** C30: writing the uid map of a fresh child of the root namespace with valid entries that
    do not overlap succeeds; after it [MapToKUID] and [MapFromKUID] are the translation by
    the entries and its inverse, unmapped identifiers give NO_ID, and a mapped identifier
    comes back from the kernel's identifier unchanged. *)
Theorem uid_map_roundtrip (w : World) (n p : positive) (ns root : UserNS) (E : list IdMapEntry) :
  wf w -> w_ns w !! n = Some ns -> ns_parent ns = Some p -> w_ns w !! p = Some root -> ns_parent root = None ->
  uidMapToParent ns = [] -> uidMapFromParent ns = [] ->
  Forall valid_entry E -> disjoint_entries E -> disjoint_entries (swap <$> E) ->
  returns (trySetUidMap w n E) (fun r =>
    snd r = Ok tt /\ forall id,
      MapToKUID (fst r) n id = Ret (translate E id) /\
      MapFromKUID (fst r) n id = Ret (translate (swap <$> E) id) /\
      (translate E id <> NO_ID -> MapFromKUID (fst r) n (translate E id) = Ret id)).
Proof.
  intros Hwf Hn Hp Hr Hroot Et Ef Hv Hd Hd'.
  destruct (set_maps_holds E [] [] [] holds_nil holds_nil) as (to & from & Hset & Hto & Hfrom); try done.
  unfold trySetUidMap, get_ns. rewrite Hn, bind_ret, Et, Ef, Hset. apply returns_ret. simpl. split; [done |].
  destruct (proj2 (wf_ns w Hwf n ns Hn) p Hp) as [Hlt _].
  set (ns' := mkNS _ _ _ _ _ _). set (w' := put_ns w n ns').
  assert (forall sel id, map_chain sel (chain_fuel n) w' n id = Ret (IdMap_Map (sel ns') id)) as Hmap.
  { intros sel id. apply (map_chain_child sel w' n ns' p root); simpl; try done.
    - by rewrite lookup_insert_eq.
    - rewrite lookup_insert_ne; [done | lia]. }
  intros id. unfold MapToKUID, MapFromKUID. rewrite !Hmap. simpl.
  rewrite (IdMap_Map_eq to E), !(IdMap_Map_eq from (swap <$> E)) by (try done; by apply swap_valid).
  split_and!; [done | done |]. intros Hid. by rewrite translate_back.
Qed.

(** * Nested namespaces *)

Lemma map_chain_step sel w n ns p id :
  wf w -> w_ns w !! n = Some ns -> ns_parent ns = Some p ->
  map_chain sel (chain_fuel n) w n id = (id' ← map_chain sel (chain_fuel p) w p id; Ret (IdMap_Map (sel ns) id')).
Proof.
  intros Hwf Hn Hp. destruct (proj2 (wf_ns w Hwf n ns Hn) p Hp) as [Hlt Hs].
  assert (forall f1 f2 m, (Pos.to_nat m <= f1)%nat -> (Pos.to_nat m <= f2)%nat -> is_Some (w_ns w !! m) ->
    map_chain sel f1 w m id = map_chain sel f2 w m id) as Hfuel.
  { induction f1 as [| f1 IH]; intros [| f2] m H1 H2 Hm; try lia. simpl. unfold get_ns.
    destruct Hm as [nsm Hm]. rewrite Hm, !bind_ret. destruct (ns_parent nsm) as [q |] eqn:Hq; [| done].
    destruct (proj2 (wf_ns w Hwf m nsm Hm) q Hq). rewrite (IH f2 q) by (done || lia). done. }
  unfold chain_fuel. destruct (Pos2Nat.is_succ n) as [k Ek]. rewrite Ek. simpl. unfold get_ns at 1.
  rewrite Hn, bind_ret, Hp. rewrite (Hfuel k (Pos.to_nat p) p) by (done || lia). done.
Qed.

(** for a namespace with a parent, both directions apply the parent's mapping first and
    then the namespace's own table.  That is the composition for [MapFromKUID]; for
    [MapToKUID] the identifier belongs to the namespace, whose own table should come first,
    so in a nested namespace the mapping to the kernel's identifier is wrong. *)
Theorem nested_map_order (w : World) (n p : positive) (ns : UserNS) (id : Z) :
  wf w -> w_ns w !! n = Some ns -> ns_parent ns = Some p ->
  MapToKUID w n id = (k ← MapToKUID w p id; Ret (IdMap_Map (uidMapToParent ns) k)) /\
  MapFromKUID w n id = (u ← MapFromKUID w p id; Ret (IdMap_Map (uidMapFromParent ns) u)).
Proof. intros Hwf Hn Hp. split; by apply map_chain_step. Qed.

(** Root namespace 1, a child 2 where 0..9 are 1000..1009, and its child 3 where 0 is 5. *)
Definition ns_table (p : positive) (e : IdMapEntry) : UserNS :=
  mkNS (Some p) 0 [(FirstToId e, swap e)] [(FirstFromId e, e)] [] [].
Definition nested : World :=
  mkWorld (<[1%positive := mkNS None NOBODY_ID IdMap_All IdMap_All IdMap_All IdMap_All]>
          (<[2%positive := ns_table 1 (mkEntry 0 1000 10)]> {[3%positive := ns_table 2 (mkEntry 0 5 1)]})) ∅ 4.

Lemma nested_wf : wf nested.
Proof.
  constructor; [| intros c cr Hc; simpl in Hc; by rewrite lookup_empty in Hc]. intros n ns. unfold nested. simpl.
  rewrite !lookup_insert_Some, lookup_singleton_Some.
  intros [[<- <-] | [_ [[<- <-] | [_ [<- <-]]]]]; split; try lia; intros p [= <-]; split; try lia; by eexists.
Qed.

Lemma nested_map_order_witness :
  MapFromKUID nested 3 1005 = Ret 0 /\ MapToKUID nested 3 0 = Ret NO_ID.
Proof.
  destruct (nested_map_order nested 3 2 (ns_table 2 (mkEntry 0 5 1)) 0 nested_wf eq_refl eq_refl) as [-> _].
  destruct (nested_map_order nested 3 2 (ns_table 2 (mkEntry 0 5 1)) 1005 nested_wf eq_refl eq_refl) as [_ ->].
  split; reflexivity.
Defined.

Lemma HasCapabilityIn_witness :
  returns (HasCapabilityIn nested (RootCreds 2) CAP_SETUID 1) (fun b => b = false) /\
  returns (HasCapabilityIn nested (RootCreds 2) CAP_SETUID 3) (fun b => b = true).
Proof.
  split.
  - destruct (HasCapabilityIn_spec nested (RootCreds 2) CAP_SETUID 1 nested_wf) as (b & Hb & _ & Hlt);
      [lia | by eexists |]. exists b. split; [exact Hb | by apply Hlt].
  - destruct (HasCapabilityIn_spec nested (RootCreds 2) CAP_SETUID 3 nested_wf) as (b & Hb & Hg & _);
      [lia | by eexists |]. exists b. split; [exact Hb |]. apply Hg.
    eapply (gr_owner _ _ _ 3 (ns_table 2 (mkEntry 0 5 1))); done.
Defined.

(** The root namespace 1 and a fresh child 2. *)
Definition fresh_child : World :=
  mkWorld (<[1%positive := mkNS None NOBODY_ID IdMap_All IdMap_All IdMap_All IdMap_All]>
          {[2%positive := mkNS (Some 1%positive) 0 [] [] [] []]}) ∅ 3.

Lemma fresh_child_wf : wf fresh_child.
Proof.
  constructor; [| intros c cr Hc; simpl in Hc; by rewrite lookup_empty in Hc]. intros n ns. unfold fresh_child. simpl.
  rewrite lookup_insert_Some, lookup_singleton_Some.
  intros [[<- <-] | [_ [<- <-]]]; split; try lia; intros p [= <-]; split; try lia; by eexists.
Qed.

Definition two_ranges : list IdMapEntry := [mkEntry 0 1000 1; mkEntry 1 2000 100].

Lemma uid_map_roundtrip_witness :
  returns (trySetUidMap fresh_child 2 two_ranges) (fun r =>
    snd r = Ok tt /\ MapToKUID (fst r) 2 7 = Ret 2006 /\ MapFromKUID (fst r) 2 2006 = Ret 7).
Proof.
  destruct (uid_map_roundtrip fresh_child 2 1 (mkNS (Some 1%positive) 0 [] [] [] [])
    (mkNS None NOBODY_ID IdMap_All IdMap_All IdMap_All IdMap_All) two_ranges fresh_child_wf
    eq_refl eq_refl eq_refl eq_refl eq_refl eq_refl) as (r & Hr & Hok & Hid).
  - repeat constructor; simpl; unfold U32_MAX; lia.
  - intros e1 e2 id. unfold two_ranges, covers. rewrite !elem_of_cons.
    intros [-> | [-> | []%not_elem_of_nil]] [-> | [-> | []%not_elem_of_nil]]; simpl; lia || done.
  - intros e1 e2 id. unfold two_ranges, covers, swap. simpl. rewrite !elem_of_cons.
    intros [-> | [-> | []%not_elem_of_nil]] [-> | [-> | []%not_elem_of_nil]]; simpl; lia || done.
  - exists r. destruct (Hid 7) as (H1 & _ & H2). split_and!; [exact Hr | exact Hok | exact H1 | by apply H2].
Defined.

(** * Unsharing *)

Lemma wf_new_ns w ns :
  wf w -> (forall p, ns_parent ns = Some p -> is_Some (w_ns w !! p)) -> wf (fst (new_ns w ns)).
Proof.
  intros Hwf Hp. constructor; simpl.
  - intros n ns' Hn. apply lookup_insert_Some in Hn as [[<- <-] | [Hne Hn]].
    + split; [lia |]. intros p Hpp. destruct (Hp p Hpp) as [nsp Hnsp].
      pose proof (proj1 (wf_ns w Hwf p nsp Hnsp)). split; [done |].
      rewrite lookup_insert_ne by lia. by eexists.
    + destruct (wf_ns w Hwf n ns' Hn) as [Hlt Hpar]. split; [lia |]. intros p Hpp.
      destruct (Hpar p Hpp) as [Hpn [nsp Hs]]. split; [done |]. rewrite lookup_insert_ne by lia. by eexists.
  - intros k cr Hk. destruct (wf_creds w Hwf k cr Hk) as [Hlt [ns' Hs]]. split; [lia |].
    destruct (wf_ns w Hwf _ _ Hs). rewrite lookup_insert_ne by lia. by eexists.
Qed.

(** The creator of a namespace has every capability in it. *)
Lemma creator_has_caps w c cp n ns :
  w_ns w !! n = Some ns -> ns_parent ns = Some (UserNamespace c) -> ns_owner ns = EffectiveKUID c ->
  UserNamespace c <> n -> HasCapabilityIn w c cp n = Ret true.
Proof.
  intros Hn Hp Ho Hne. unfold HasCapabilityIn, chain_fuel. destruct (Pos2Nat.is_succ n) as [m ->]. simpl.
  rewrite bool_decide_eq_false_2 by done. unfold get_ns. rewrite Hn, bind_ret, Hp.
  by rewrite bool_decide_eq_true_2, Ho, Z.eqb_refl.
Qed.

(** The credentials of a thread that entered the namespace [n]. *)
Definition entered (c : Creds) (n : positive) : Creds :=
  with_keep (with_caps (with_ns c n) ALL_CAP 0 ALL_CAP ALL_CAP) false.

Lemma setUserNamespace_ok w t c n :
  owns (w, t) c -> HasCapabilityIn w c CAP_SYS_ADMIN n = Ret true -> is_Some (w_ns w !! n) ->
  returns (setUserNamespace w t n) (fun r => snd r = Ok tt /\ owns (fst r) (entered c n) /\ w_ns (fst (fst r)) = w_ns w).
Proof.
  intros Ho Hcap Hn. unfold setUserNamespace. rewrite (get_creds_eq w t c Ho), bind_ret, Hcap. simpl.
  eapply returns_bind; [apply (fork_with_gen w t c); [exact Ho | exact Hn] |].
  intros s (Hs & _ & _ & Hw). by apply returns_ret.
Qed.

(** In the namespace it entered it has the capabilities of ALL_CAP, in an older one none. *)
Lemma entered_caps w c n m cp :
  wf w -> is_Some (w_ns w !! m) -> (m < n)%positive -> 0 <= cp < 64 ->
  HasCapabilityIn w (entered c n) cp n = Ret (Z.testbit ALL_CAP cp) /\ HasCapabilityIn w (entered c n) cp m = Ret false.
Proof.
  intros Hwf Hm Hlt Hcp. split.
  - change n with (UserNamespace (entered c n)) at 2. fold (HasCapability w (entered c n) cp).
    rewrite HasCapability_eq. f_equal. by apply has_cap_testbit.
  - destruct (HasCapabilityIn_loop_spec w (entered c n) cp (chain_fuel m) m) as (b & Hb & Hg); try done.
    unfold HasCapabilityIn. rewrite Hb. f_equal. apply not_true_is_false.
    intros Ht%Hg%grants_descendant; [simpl in Ht; lia | done].
Qed.

(** unsharing the user namespace, by any thread whose effective user is mapped and
    whose namespace is less than 32 deep, succeeds: the thread is in a new namespace with
    the full capability sets there and its identifiers unchanged, and it has no capability
    in the namespace it left.  The task keeps the old credentials. *)
Theorem Unshare_userns_spec (w : World) (t : Thread) (c : Creds) (depth uid : Z) :
  owns (w, t) c -> NS_Depth w (UserNamespace c) = Ret depth -> depth < MAX_USER_NAMESPACE_DEPTH ->
  MapFromKUID w (UserNamespace c) (EffectiveKUID c) = Ret uid -> id_Ok uid = true ->
  returns (Unshare_userns w t false) (fun r =>
    snd r = Ok tt /\ th_task_creds (snd (fst r)) = th_creds t /\
    owns (fst r) (entered c (w_next w)) /\
    forall cp, 0 <= cp < 64 ->
      HasCapabilityIn (fst (fst r)) (entered c (w_next w)) cp (w_next w) = Ret (Z.testbit ALL_CAP cp) /\
      HasCapabilityIn (fst (fst r)) (entered c (w_next w)) cp (UserNamespace c) = Ret false).
Proof.
  intros Ho Hd Hlt Hu Hok. pose proof (owns_ns w t c Ho) as [ns0 Hns0]. pose proof Ho as [Hwf Hc]. simpl in Hwf, Hc.
  pose proof (proj1 (wf_ns w Hwf _ _ Hns0)) as Hlow.
  unfold Unshare_userns. rewrite (get_creds_eq w t c Ho), bind_ret. unfold NewChildUserNamespace.
  rewrite Hd, bind_ret. destruct (Z.leb_spec MAX_USER_NAMESPACE_DEPTH depth); [lia |].
  rewrite Hu, bind_ret, Hok. simpl negb. cbv iota. set (ns := mkNS (Some (UserNamespace c)) _ _ _ _ _).
  assert (owns (fst (new_ns w ns), t) c) as Ho1.
  { split; [apply wf_new_ns; [done |] | done]. intros p [= <-]. by eexists. }
  simpl in Ho1. simpl. set (w1 := mkWorld _ _ _) in *.
  assert (w_ns w1 !! w_next w = Some ns) as Hnew by (simpl; by rewrite lookup_insert_eq).
  eapply returns_bind.
  { apply (setUserNamespace_ok w1 t c (w_next w) Ho1); [| by eexists].
    apply (creator_has_caps w1 c CAP_SYS_ADMIN (w_next w) ns Hnew); [done | done | lia]. }
  intros [[w2 t2] r] (Hr & Ho2 & Hn2). simpl in Hr, Ho2, Hn2. subst r. apply returns_ret. simpl.
  split_and!; [done | done | by eapply owns_task |].
  intros cp Hcp. apply entered_caps; [apply Ho2 | | done | done].
  rewrite Hn2, lookup_insert_ne by lia. by eexists.
Qed.

(** The root namespace 1 with the credentials 2 of an ordinary user. *)
Definition one_user : World :=
  mkWorld {[1%positive := mkNS None NOBODY_ID IdMap_All IdMap_All IdMap_All IdMap_All]}
          {[2%positive := UserCreds 1000 100 [] None 1]} 3.

Lemma one_user_owns : owns (one_user, mkThread 2 2 0) (UserCreds 1000 100 [] None 1).
Proof.
  split; [| done]. constructor; simpl.
  - intros n ns. rewrite lookup_singleton_Some. intros [<- <-]. split; [lia |]. intros p [=].
  - intros k cr. rewrite lookup_singleton_Some. intros [<- <-]. split; [lia |]. by eexists.
Qed.

Lemma Unshare_userns_witness :
  returns (Unshare_userns one_user (mkThread 2 2 0) false) (fun r => snd r = Ok tt).
Proof.
  destruct (Unshare_userns_spec one_user (mkThread 2 2 0) (UserCreds 1000 100 [] None 1) 1 1000)
    as (r & E & Hr & _); [exact one_user_owns | reflexivity.. |]. by exists r.
Defined.
