(* ===== verification/Perms.v ===== *)
(** Permission masks, owners and event masks of qlib/linux_def.rs, which the System V
    mechanisms share. *)
From S2P Require Import Prelude.
#[local] Open Scope Z_scope.

Abbreviation IPC_NOWAIT := (2048)%Z (only parsing).
Abbreviation CAP_IPC_OWNER := (15)%Z (only parsing).

Abbreviation EVENT_IN := (1)%Z (only parsing).
Abbreviation EVENT_ERR := (8)%Z (only parsing).
Abbreviation EVENT_HUP := (16)%Z (only parsing).
Abbreviation EVENT_RD_NORM := (64)%Z (only parsing).
Abbreviation EVENT_READ := (Z.lor (Z.lor (Z.lor EVENT_IN EVENT_HUP) EVENT_ERR) EVENT_RD_NORM)%Z (only parsing).
Abbreviation READABLE_EVENT := (Z.lor EVENT_IN EVENT_RD_NORM)%Z (only parsing).
Abbreviation EVENT_OUT := (4)%Z (only parsing).
Abbreviation EVENT_WR_NORM := (256)%Z (only parsing).
Abbreviation EVENT_WRITE := (Z.lor (Z.lor (Z.lor EVENT_OUT EVENT_HUP) EVENT_ERR) EVENT_WR_NORM)%Z (only parsing).

Record PermMask : Type := mkPerm { pm_read : bool; pm_write : bool; pm_execute : bool }.

Record FilePermissions : Type := mkFilePerms {
  fp_User : PermMask; fp_Group : PermMask; fp_Other : PermMask;
  fp_Sticky : bool; fp_SetUid : bool; fp_SetGid : bool;
}.

Definition PermMask_FromMode (mode : Z) : PermMask :=
  mkPerm (negb (Z.land mode 4 =? 0)) (negb (Z.land mode 2 =? 0)) (negb (Z.land mode 1 =? 0)).

Definition FilePermissions_FromMode (mode : Z) : FilePermissions :=
  let perm := Z.land mode 511 in
  mkFilePerms (PermMask_FromMode (Z.shiftr perm 6)) (PermMask_FromMode (Z.shiftr perm 3)) (PermMask_FromMode perm)
    (Z.land mode 512 =? 512) (Z.land mode 2048 =? 2048) (Z.land mode 1024 =? 1024).

Definition Perm_SupersetOf (p other : PermMask) : bool :=
  if negb (pm_read p) && pm_read other then false
  else if negb (pm_write p) && pm_write other then false
  else if negb (pm_execute p) && pm_execute other then false
  else true.

Definition perm_read : PermMask := mkPerm true false false.
Definition perm_write : PermMask := mkPerm false true false.

Record FileOwner : Type := mkOwner { fo_UID : Z; fo_GID : Z }.

Definition PermMask_Mode (p : PermMask) : Z :=
  Z.lor (Z.lor (if pm_read p then 4 else 0) (if pm_write p then 2 else 0)) (if pm_execute p then 1 else 0).

(** The second test is on [SetUid] as well. *)
Definition LinuxMode (p : FilePermissions) : Z :=
  let m := Z.lor (Z.lor (Z.shiftl (PermMask_Mode (fp_User p)) 6) (Z.shiftl (PermMask_Mode (fp_Group p)) 3)) (PermMask_Mode (fp_Other p)) in
  let m := if fp_SetUid p then Z.lor m 2048 else m in
  let m := if fp_SetUid p then Z.lor m 1024 else m in
  if fp_Sticky p then Z.lor m 512 else m.
