(* ===== verification/Semaphore.v ===== *)
(** System V semaphores: qlib/kernel/kernel/semaphore.rs.

    A semaphore set is a shared object, reached from the registry by its identifier and
    kept by a blocked task also after its removal; sets are cells of a store and the
    registry maps identifiers to them.  The queue of a semaphore is the list of wait
    entries in it with their masks: a task registers one entry in one queue at a time and
    takes it out again before the next wait.  [Notify] does not change a queue; the
    operations return the entries they trigger.  The time is an argument, and so are the
    process id of the caller and the identifier that [NewUID] returns.

    The registry is behind a spin lock that is not reentrant.  [FindOrCreate] and
    [RemoveId] hold it while they check permissions, and [checkCapability] takes it again;
    taking a lock the caller already holds spins for ever, which is [OutOfFuel]. *)
From S2P Require Import Prelude BTree Auth Perms.
#[local] Open Scope Z_scope.

(** * Constants and machine integers *)

Abbreviation SEMMNI := (32000)%Z (only parsing).
Abbreviation SEMMSL := (32000)%Z (only parsing).
Abbreviation SEMMNS := (SEMMNI * SEMMSL)%Z (only parsing).
Abbreviation SEMVMX := (32767)%Z (only parsing).
Abbreviation VALUE_MAX := (SEMMNI)%Z (only parsing).
Abbreviation SETS_MAX := (SEMMNI)%Z (only parsing).
Abbreviation SEMAPHORES_MAX := (SEMMSL)%Z (only parsing).
Abbreviation SEMAPHORES_TOTAL_MAX := (SEMMNS)%Z (only parsing).
Definition to_i16 (z : Z) : Z := (z + 32768) mod 65536 - 32768.

(** * Semaphores *)

Record Sem : Type := mkSem {
  value : Z; pid : Z;
  queue : list (Z * Z);
  waiters : list (Z * Z);
}.
Definition Sem_default : Sem := mkSem 0 0 [] [].

(** The entries that [Queue::Notify] triggers. *)
Definition Notify (q : list (Z * Z)) (mask : Z) : list Z :=
  fst <$> filter (fun e => Z.land mask (snd e) <> 0) q.
Definition EventRegister (q : list (Z * Z)) (e mask : Z) : list (Z * Z) := q ++ [(e, mask)].
Definition EventUnregister (q : list (Z * Z)) (e : Z) : list (Z * Z) := filter (fun x => fst x <> e) q.

Definition wakeWaiters (s : Sem) : list Z := Notify (queue s) EVENT_IN.

Record SetInternal : Type := mkSet {
  set_id : Z; set_key : Z; creator : FileOwner; owner : FileOwner; perms : FilePermissions;
  opTime : Z; changeTime : Z; sems : list Sem; dead : bool;
}.

Definition with_sems (s : SetInternal) (l : list Sem) : SetInternal :=
  mkSet (set_id s) (set_key s) (creator s) (owner s) (perms s) (opTime s) (changeTime s) l (dead s).
Definition with_changeTime (s : SetInternal) (t : Z) : SetInternal :=
  mkSet (set_id s) (set_key s) (creator s) (owner s) (perms s) (opTime s) t (sems s) (dead s).
Definition with_opTime (s : SetInternal) (t : Z) : SetInternal :=
  mkSet (set_id s) (set_key s) (creator s) (owner s) (perms s) t (changeTime s) (sems s) (dead s).
Definition with_id (s : SetInternal) (id : Z) : SetInternal :=
  mkSet id (set_key s) (creator s) (owner s) (perms s) (opTime s) (changeTime s) (sems s) (dead s).

Definition set_Size (s : SetInternal) : Z := Z.of_nat (length (sems s)).

Definition Set_New (now key : Z) (owner creator : FileOwner) (perms : FilePermissions) (nsems : Z) : SetInternal :=
  mkSet 0 key creator owner perms 0 now (replicate (Z.to_nat nsems) Sem_default) false.

(** [self.sems[num]]: [Some] of an index out of range panics. *)
Definition findSem_mut (s : SetInternal) (num : Z) : outcome (option Sem) :=
  if (num <? 0) || (set_Size s <? num) then Ret None
  else match sems s !! Z.to_nat num with Some x => Ret (Some x) | None => Panic end.

Definition findSem (s : SetInternal) (num : Z) : option Sem :=
  if (num <? 0) || (set_Size s <=? num) then None else sems s !! Z.to_nat num.

Definition checkCredentials (s : SetInternal) (c : Creds) : bool :=
  (fo_UID (owner s) =? EffectiveKUID c) || (fo_GID (owner s) =? EffectiveKGID c)
  || (fo_UID (creator s) =? EffectiveKUID c) || (fo_GID (creator s) =? EffectiveKGID c).

Section Sets.
(** The namespaces, the namespace of the registry, and whether the caller holds the lock
    of the registry. *)
Context (w : World) (userNS : positive) (locked : bool).

Definition registry_lock : outcome unit := if locked then OutOfFuel else Ret tt.

Definition checkCapability (s : SetInternal) (c : Creds) : outcome bool :=
  _ ← registry_lock;
  res ← HasCapabilityIn w c CAP_IPC_OWNER userNS;
  if (res : bool) then
    uid ← MapFromKUID w (UserNamespace c) (fo_UID (owner s)); Ret (id_Ok uid)
  else Ret false.

Definition checkPerms (s : SetInternal) (c : Creds) (req : PermMask) : outcome bool :=
  let p :=
    if fo_UID (owner s) =? EffectiveKUID c then fp_User (perms s)
    else if InGroup c (fo_GID (owner s)) then fp_Group (perms s)
    else fp_Other (perms s) in
  if Perm_SupersetOf p req then Ret true else checkCapability s c.
End Sets.

Definition destroy (s : SetInternal) : SetInternal * list Z :=
  (mkSet (set_id s) (set_key s) (creator s) (owner s) (perms s) (opTime s) (changeTime s) (sems s) true,
   concat (wakeWaiters <$> sems s)).

(** * Operations on one set *)

Record Sembuf : Type := mkSembuf { SemNum : Z; SemOp : Z; SemFlag : Z }.

(** What a loop over operations leaves: new values, or an early return. *)
Inductive OpsResult : Type :=
| Applied (tmpVals : list Z)
| Returned (s : SetInternal) (r : Result (Z * Z)).

(** [sem.waiters.insert(waiterId, op.SemOp); sem.queue.EventRegister(..)] *)
Definition add_waiter (s : SetInternal) (num : nat) (uid op e mask : Z) : SetInternal :=
  with_sems s (alter (fun x => mkSem (value x) (pid x) (EventRegister (queue x) e mask) (bt_insert uid op (waiters x)))
                 num (sems s)).

Fixpoint ops_loop (s : SetInternal) (uid e : Z) (tmpVals : list Z) (ops : list Sembuf) : outcome OpsResult :=
  match ops with
  | [] => Ret (Applied tmpVals)
  | op :: ops =>
      let num := Z.to_nat (SemNum op) in
      match sems s !! num, tmpVals !! num with
      | Some _, Some v =>
          let nowait := negb (Z.land (SemFlag op) IPC_NOWAIT =? 0) in
          if SemOp op =? 0 then
            if negb (v =? 0) then
              if nowait then Ret (Returned s (Err (SysError EWOULDBLOCK)))
              else Ret (Returned (add_waiter s num uid (SemOp op) e EVENT_READ) (Ok (uid, SemNum op)))
            else ops_loop s uid e tmpVals ops
          else
            let neg := to_i16 (- SemOp op) in
            if SemOp op <? 0 then
              if VALUE_MAX <? neg then Ret (Returned s (Err (SysError ERANGE)))
              else if v <? neg then
                if nowait then Ret (Returned s (Err (SysError EWOULDBLOCK)))
                else Ret (Returned (add_waiter s num uid (SemOp op) e READABLE_EVENT) (Ok (uid, SemNum op)))
              else ops_loop s uid e (<[num := to_i16 (v + SemOp op)]> tmpVals) ops
            else
              if to_i16 (VALUE_MAX - SemOp op) <? v then Ret (Returned s (Err (SysError ERANGE)))
              else ops_loop s uid e (<[num := to_i16 (v + SemOp op)]> tmpVals) ops
      | _, _ => Panic
      end
  end.

(** The store of the new values; the entries that are triggered. *)
Definition commit (s : SetInternal) (tmpVals : list Z) (p : Z) : SetInternal * list Z :=
  (with_sems s (zip_with (fun x v => mkSem v p (queue x) (waiters x)) (sems s) tmpVals),
   concat (wakeWaiters <$> sems s)).

(** The set, the entries that are triggered, and the result: -1 is success, another number
    the semaphore the entry waits for. *)
Definition executeOps (s : SetInternal) (uid e p now : Z) (ops : list Sembuf)
    : outcome (SetInternal * list Z * Result (Z * Z)) :=
  if dead s then Ret (s, [], Err (SysError EIDRM))
  else
    r ← ops_loop s uid e (value <$> sems s) ops;
    match r with
    | Returned s r => Ret (s, [], r)
    | Applied tmpVals =>
        let '(s, woken) := commit s tmpVals p in
        Ret (with_opTime s now, woken, Ok (0, -1))
    end.

Section SetOps.
Context (w : World) (userNS : positive).

Definition SetVal (s : SetInternal) (num val : Z) (c : Creds) (p now : Z) : outcome (SetInternal * list Z * Result unit) :=
  if (val <? 0) || (VALUE_MAX <? val) then Ret (s, [], Err (SysError ERANGE))
  else
    ok ← checkPerms w userNS false s c perm_write;
    if negb ok then Ret (s, [], Err (SysError EACCES))
    else
      sem ← findSem_mut s num;
      match sem with
      | None => Ret (s, [], Err (SysError ERANGE))
      | Some x =>
          Ret (with_changeTime (with_sems s (<[Z.to_nat num := mkSem val p (queue x) (waiters x)]> (sems s))) now,
               wakeWaiters x, Ok tt)
      end.

Definition SetValAll (s : SetInternal) (vals : list Z) (c : Creds) (p now : Z) : outcome (SetInternal * list Z * Result unit) :=
  if negb (Z.of_nat (length vals) =? set_Size s) then Panic
  else if existsb (fun val => VALUE_MAX <? val) vals then Ret (s, [], Err (SysError ERANGE))
  else
    ok ← checkPerms w userNS false s c perm_write;
    if negb ok then Ret (s, [], Err (SysError EACCES))
    else
      let '(s, woken) := commit s (to_i16 <$> vals) p in
      Ret (with_changeTime s now, woken, Ok tt).

Definition with_perm {A} (s : SetInternal) (c : Creds) (req : PermMask) (k : Result A) : outcome (Result A) :=
  ok ← checkPerms w userNS false s c req;
  Ret (if negb ok then Err (SysError EACCES) else k).

Definition GetVal (s : SetInternal) (num : Z) (c : Creds) : outcome (Result Z) :=
  with_perm s c perm_read (match findSem s num with None => Err (SysError ERANGE) | Some x => Ok (value x) end).
Definition GetValAll (s : SetInternal) (c : Creds) : outcome (Result (list Z)) :=
  with_perm s c perm_read (Ok (value <$> sems s)).
Definition GetPID (s : SetInternal) (num : Z) (c : Creds) : outcome (Result Z) :=
  with_perm s c perm_read (match findSem s num with None => Err (SysError ERANGE) | Some x => Ok (pid x) end).

Definition count_waiters (f : Z -> bool) (x : Sem) : Z := Z.of_nat (length (filter (fun e => f (snd e) = true) (waiters x))) mod 65536.
Definition GetZeroWaiters (s : SetInternal) (num : Z) (c : Creds) : outcome (Result Z) :=
  with_perm s c perm_read
    (match findSem s num with None => Err (SysError ERANGE) | Some x => Ok (count_waiters (fun v => v =? 0) x) end).
Definition GetNegativeWaiters (s : SetInternal) (num : Z) (c : Creds) : outcome (Result Z) :=
  with_perm s c perm_read
    (match findSem s num with None => Err (SysError ERANGE) | Some x => Ok (count_waiters (fun v => v <? 0) x) end).

Definition Change (s : SetInternal) (c : Creds) (o : FileOwner) (p : FilePermissions) (now : Z)
    : outcome (SetInternal * Result unit) :=
  ok ← (if checkCredentials s c then Ret true else checkCapability w userNS false s c);
  if negb ok then Ret (s, Err (SysError EACCES))
  else Ret (mkSet (set_id s) (set_key s) (creator s) o p (opTime s) now (sems s) (dead s), Ok tt).

Definition ExecuteOps (s : SetInternal) (uid e p now : Z) (c : Creds) (ops : list Sembuf)
    : outcome (SetInternal * list Z * Result (Z * Z)) :=
  if dead s then Ret (s, [], Err (SysError EIDRM))
  else if existsb (fun op => match findSem s (SemNum op) with None => true | Some _ => false end) ops
  then Ret (s, [], Err (SysError EFBIG))
  else
    let readonly := forallb (fun op => SemOp op =? 0) ops in
    ok ← checkPerms w userNS false s c (mkPerm readonly (negb readonly) false);
    if negb ok then Ret (s, [], Err (SysError EACCES))
    else executeOps s uid e p now ops.
End SetOps.

(** [self.sems[num]] is an index the caller got from [ExecuteOps]. *)
Definition AbortWait (s : SetInternal) (waiterid num e : Z) : outcome SetInternal :=
  match sems s !! Z.to_nat num with
  | None => Panic
  | Some x =>
      Ret (with_sems s (<[Z.to_nat num := mkSem (value x) (pid x) (EventUnregister (queue x) e) (bt_remove waiterid (waiters x))]> (sems s)))
  end.

(** * The registry *)

Record SemRegistry : Type := mkRegistry {
  rg_userNS : positive;
  semaphores : list (Z * positive);
  lastIDUsed : Z;
  rg_sets : gmap positive SetInternal;
  rg_fresh : positive;
}.

Definition SemRegistry_New (userNS : positive) : SemRegistry := mkRegistry userNS [] 0 ∅ 1.

Definition get_set (r : SemRegistry) (p : positive) : outcome SetInternal :=
  match rg_sets r !! p with Some s => Ret s | None => Panic end.
Definition put_set (r : SemRegistry) (p : positive) (s : SetInternal) : SemRegistry :=
  mkRegistry (rg_userNS r) (semaphores r) (lastIDUsed r) (<[p := s]> (rg_sets r)) (rg_fresh r).

Definition findByID (r : SemRegistry) (id : Z) : option positive := bt_get id (semaphores r).

Fixpoint findByKey_loop (r : SemRegistry) (key : Z) (m : list (Z * positive)) : outcome (option positive) :=
  match m with
  | [] => Ret None
  | (_, p) :: m => s ← get_set r p; if set_key s =? key then Ret (Some p) else findByKey_loop r key m
  end.
Definition findByKey (r : SemRegistry) (key : Z) : outcome (option positive) := findByKey_loop r key (semaphores r).

Definition HighestIndex (r : SemRegistry) : Z := match last (semaphores r) with None => 0 | Some (i, _) => i end.

Fixpoint totalSems_loop (r : SemRegistry) (m : list (Z * positive)) (n : Z) : outcome Z :=
  match m with
  | [] => Ret n
  | (_, p) :: m => s ← get_set r p; totalSems_loop r m (n + set_Size s)
  end.
Definition totalSems (r : SemRegistry) : outcome Z := totalSems_loop r (semaphores r) 0.

Fixpoint newSet_loop (fuel : nat) (r : SemRegistry) (id : Z) : outcome (option Z) :=
  match fuel with
  | O => OutOfFuel
  | S fuel' =>
      if id =? lastIDUsed r then Ret None
      else
        let id := if id <? 0 then 0 else id in
        match bt_get id (semaphores r) with
        | None => Ret (Some id)
        | Some _ => newSet_loop fuel' r (to_i32 (id + 1))
        end
  end.

Definition newSet (r : SemRegistry) (now key : Z) (owner creator : FileOwner) (perms : FilePermissions) (nsems : Z)
    : outcome (SemRegistry * Result positive) :=
  let set := Set_New now key owner creator perms nsems in
  id ← newSet_loop (S (S (length (semaphores r)))) r (to_i32 (lastIDUsed r + 1));
  match id with
  | None => Ret (r, Err (SysError ENOMEM))
  | Some id =>
      Ret (mkRegistry (rg_userNS r) (bt_insert id (rg_fresh r) (semaphores r)) id
             (<[rg_fresh r := with_id set id]> (rg_sets r)) (rg_fresh r + 1), Ok (rg_fresh r))
  end.

Definition FindOrCreate (w : World) (r : SemRegistry) (c : Creds) (now key nsems mode : Z) (private create exclusive : bool)
    : outcome (SemRegistry * Result positive) :=
  if (nsems <? 0) || (SEMAPHORES_MAX <? nsems) then Ret (r, Err (SysError EINVAL))
  else
    found ← (if negb private then findByKey r key else Ret None);
    match found with
    | Some p =>
        s ← get_set r p;
        ok ← checkPerms w (rg_userNS r) true s c (PermMask_FromMode mode);
        if negb ok then Ret (r, Err (SysError EACCES))
        else if set_Size s <? nsems then Ret (r, Err (SysError EINVAL))
        else if create && exclusive then Ret (r, Err (SysError EEXIST))
        else Ret (r, Ok p)
    | None =>
        if negb private && negb create then Ret (r, Err (SysError ENOENT))
        else if nsems =? 0 then Ret (r, Err (SysError EINVAL))
        else if SETS_MAX <=? Z.of_nat (length (semaphores r)) then Ret (r, Err (SysError ENOSPC))
        else
          total ← totalSems r;
          if SEMAPHORES_TOTAL_MAX - nsems <? total then Ret (r, Err (SysError ENOSPC))
          else
            let o := mkOwner (EffectiveKUID c) (EffectiveKGID c) in
            newSet r now key o o (FilePermissions_FromMode mode) nsems
    end.

Definition RemoveId (w : World) (r : SemRegistry) (id : Z) (c : Creds) : outcome (SemRegistry * list Z * Result unit) :=
  match bt_get id (semaphores r) with
  | None => Ret (r, [], Err (SysError EINVAL))
  | Some p =>
      s ← get_set r p;
      ok ← (if checkCredentials s c then Ret true else checkCapability w (rg_userNS r) true s c);
      if negb ok then Ret (r, [], Err (SysError EACCES))
      else
        let '(s', woken) := destroy s in
        let r := mkRegistry (rg_userNS r) (bt_remove (set_id s) (semaphores r)) (lastIDUsed r) (rg_sets r) (rg_fresh r) in
        Ret (put_set r p s', woken, Ok tt)
  end.

(** * What the information calls report *)

Record SemInfo : Type := mkSemInfo {
  SemMap : Z; SemMni : Z; SemMns : Z; SemMnu : Z; SemMsl : Z; SemOpm : Z; SemUme : Z; SemUsz : Z; SemVmx : Z; SemAem : Z;
}.

Definition IPCInfo : SemInfo := mkSemInfo SEMMNS SEMMNI SEMMNS SEMMNS SEMMSL 500 500 20 SEMVMX SEMVMX.

Definition Registry_SemInfo (r : SemRegistry) : outcome SemInfo :=
  total ← totalSems r;
  Ret (mkSemInfo (SemMap IPCInfo) (SemMni IPCInfo) (SemMns IPCInfo) (SemMnu IPCInfo) (SemMsl IPCInfo) (SemOpm IPCInfo)
         (SemUme IPCInfo) (u32w (Z.of_nat (length (semaphores r)))) (SemVmx IPCInfo) (u32w total)).

(** The fields of [SemidDS] that are set; the times are those of the set. *)
Record SemidDS : Type := mkSemidDS {
  ds_Key : Z; ds_UID : Z; ds_GID : Z; ds_CUID : Z; ds_CGID : Z; ds_Mode : Z; ds_Seq : Z;
  SemOTime : Z; SemCTime : Z; SemNSems : Z;
}.

Definition semStat (w : World) (userNS : positive) (s : SetInternal) (c : Creds) (permMask : PermMask) : outcome (Result SemidDS) :=
  ok ← checkPerms w userNS false s c permMask;
  if negb ok then Ret (Err (SysError EACCES))
  else
    uid ← MapFromKUID w (UserNamespace c) (fo_UID (owner s));
    gid ← MapFromKGID w (UserNamespace c) (fo_GID (owner s));
    cuid ← MapFromKUID w (UserNamespace c) (fo_UID (creator s));
    cgid ← MapFromKGID w (UserNamespace c) (fo_GID (creator s));
    Ret (Ok (mkSemidDS (u32w (set_key s)) uid gid cuid cgid (LinuxMode (perms s) mod 65536) 0
               (opTime s) (changeTime s) (set_Size s))).

Definition GetStat (w : World) (userNS : positive) (s : SetInternal) (c : Creds) : outcome (Result SemidDS) :=
  semStat w userNS s c perm_read.
Definition GetStatAny (w : World) (userNS : positive) (s : SetInternal) (c : Creds) : outcome (Result SemidDS) :=
  semStat w userNS s c (mkPerm false false false).
