(* ===== verification/SemProps.v ===== *)
(** The properties of semaphore sets: semop(2) is all or nothing and wakes the waiters, what
    its operations mean, with the one that wraps, and what [SetVal] does. *)
From S2P Require Import Prelude BTree Auth IdentityThm UserNsProps Perms Semaphore.
#[local] Open Scope Z_scope.

(** * What a list of operations means *)

(** The sum of the operations on semaphore [i]. *)
Fixpoint delta (ops : list Sembuf) (i : nat) : Z :=
  match ops with
  | [] => 0
  | op :: ops => (if decide (Z.to_nat (SemNum op) = i) then SemOp op else 0) + delta ops i
  end.

(** The value of semaphore [i] after the operations. *)
Definition after (vals : list Z) (ops : list Sembuf) (i : nat) : Z := default 0 (vals !! i) + delta ops i.

(** Whether an operation can be done on a semaphore with value [v]. *)
Definition doable (v : Z) (op : Sembuf) : Prop :=
  if decide (SemOp op = 0) then v = 0
  else if decide (SemOp op < 0) then - SemOp op <= v
  else v + SemOp op <= VALUE_MAX.

#[global] Instance doable_dec v op : Decision (doable v op).
Proof. unfold doable. repeat case_decide; apply _. Defined.

(** Each operation can be done after those before it. *)
Definition all_doable (vals : list Z) (ops : list Sembuf) : Prop :=
  forall k op, ops !! k = Some op -> doable (after vals (take k ops) (Z.to_nat (SemNum op))) op.

(** Operation [k] is the first that cannot. *)
Definition stuck (vals : list Z) (ops : list Sembuf) (k : nat) (op : Sembuf) : Prop :=
  ops !! k = Some op /\ ~ doable (after vals (take k ops) (Z.to_nat (SemNum op))) op /\ all_doable vals (take k ops).

(** An operation on a set of [n] semaphores, with the numbers a [Sembuf] can hold. *)
Definition op_ok (n : nat) (op : Sembuf) : Prop :=
  0 <= SemNum op < Z.of_nat n /\ -32768 <= SemOp op <= 32767.

Definition in_range (v : Z) : Prop := 0 <= v <= VALUE_MAX.

Definition is_i16 (v : Z) : Prop := -32768 <= v <= 32767.

(** ** The operation -32768

    The code works with [i16], in which -32768 is its own negation: both tests of its size
    pass, and adding it wraps.  What the code lets through is [doable] but for this
    operation, and for sizes above the maximum where a value already is out of range. *)
Definition passes (v : Z) (op : Sembuf) : Prop :=
  if decide (SemOp op = 0) then v = 0
  else if decide (SemOp op = -32768) then True
  else if decide (SemOp op < 0) then - SemOp op <= v /\ - SemOp op <= VALUE_MAX
  else v + SemOp op <= VALUE_MAX.

(** The value that the code has for semaphore [i] after the operations. *)
Definition i16_after (vals : list Z) (ops : list Sembuf) (i : nat) : Z := to_i16 (after vals ops i).

Definition all_pass (vals : list Z) (ops : list Sembuf) : Prop :=
  forall k op, ops !! k = Some op -> passes (i16_after vals (take k ops) (Z.to_nat (SemNum op))) op.

(** Operation [k] is the first that the code does not let through. *)
Definition refused (vals : list Z) (ops : list Sembuf) (k : nat) (op : Sembuf) : Prop :=
  ops !! k = Some op /\ ~ passes (i16_after vals (take k ops) (Z.to_nat (SemNum op))) op /\ all_pass vals (take k ops).

Definition nowait (op : Sembuf) : bool := negb (Z.land (SemFlag op) IPC_NOWAIT =? 0).
Definition wait_mask (op : Sembuf) : Z := if SemOp op =? 0 then EVENT_READ else READABLE_EVENT.

(** What a call does whose first operation that does not pass is [op]. *)
Definition stuck_result (s : SetInternal) (uid e : Z) (op : Sembuf) : SetInternal * Result (Z * Z) :=
  if (0 <? SemOp op) || (SemOp op <? - VALUE_MAX) then (s, Err (SysError ERANGE))
  else if nowait op then (s, Err (SysError EWOULDBLOCK))
  else (add_waiter s (Z.to_nat (SemNum op)) uid (SemOp op) e (wait_mask op), Ok (uid, SemNum op)).

(** * The loop over the operations *)

Lemma to_i16_small z : -32768 <= z <= 32767 -> to_i16 z = z.
Proof. intros H. unfold to_i16. rewrite Z.mod_small by lia. lia. Qed.

Lemma after_cons vals op ops i v :
  vals !! Z.to_nat (SemNum op) = Some v ->
  after vals (op :: ops) i = after (<[Z.to_nat (SemNum op) := v + SemOp op]> vals) ops i.
Proof.
  intros Hv. unfold after. simpl. case_decide as Hi.
  - subst i. rewrite list_lookup_insert_eq by (by eapply lookup_lt_Some). rewrite Hv. simpl. lia.
  - rewrite list_lookup_insert_ne by done. lia.
Qed.

Lemma all_doable_cons vals op ops v :
  vals !! Z.to_nat (SemNum op) = Some v ->
  all_doable vals (op :: ops) <->
  doable v op /\ all_doable (<[Z.to_nat (SemNum op) := v + SemOp op]> vals) ops.
Proof.
  intros Hv. split.
  - intros Ha. split.
    + specialize (Ha 0%nat op eq_refl). unfold after in Ha. simpl in Ha. rewrite Hv in Ha. simpl in Ha.
      by rewrite Z.add_0_r in Ha.
    + intros k op' Hk. specialize (Ha (S k) op' Hk). simpl in Ha. by erewrite after_cons in Ha.
  - intros [Hd Ha] [| k] op' Hk; simpl in *.
    + injection Hk as <-. unfold after. simpl. rewrite Hv. simpl. by rewrite Z.add_0_r.
    + erewrite after_cons by done. by apply Ha.
Qed.

Lemma to_i16_range z : is_i16 (to_i16 z).
Proof. unfold is_i16, to_i16. pose proof (Z.mod_pos_bound (z + 32768) 65536 eq_refl). lia. Qed.

Lemma to_i16_add a b : to_i16 (to_i16 a + b) = to_i16 (a + b).
Proof.
  unfold to_i16. replace ((a + 32768) mod 65536 - 32768 + b + 32768) with ((a + 32768) mod 65536 + b) by lia.
  rewrite Z.add_mod_idemp_l by done. do 2 f_equal. lia.
Qed.

Lemma i16_after_cons vals op ops i v :
  vals !! Z.to_nat (SemNum op) = Some v ->
  i16_after vals (op :: ops) i = i16_after (<[Z.to_nat (SemNum op) := to_i16 (v + SemOp op)]> vals) ops i.
Proof.
  intros Hv. unfold i16_after. rewrite (after_cons _ _ _ _ v) by done. unfold after.
  destruct (decide (i = Z.to_nat (SemNum op))) as [-> | N]; [| by rewrite !list_lookup_insert_ne by done].
  rewrite !list_lookup_insert_eq by (by eapply lookup_lt_Some). simpl. by rewrite to_i16_add.
Qed.

Lemma i16_after_nil vals i v : vals !! i = Some v -> is_i16 v -> i16_after vals [] i = v.
Proof. intros Hv Hr. unfold i16_after, after. rewrite Hv. simpl. rewrite Z.add_0_r. by apply to_i16_small. Qed.

Lemma all_pass_cons vals op ops v :
  vals !! Z.to_nat (SemNum op) = Some v -> is_i16 v ->
  all_pass vals (op :: ops) <-> passes v op /\ all_pass (<[Z.to_nat (SemNum op) := to_i16 (v + SemOp op)]> vals) ops.
Proof.
  intros Hv Hr. split.
  - intros Ha. split.
    + specialize (Ha 0%nat op eq_refl). simpl in Ha. by rewrite (i16_after_nil _ _ v) in Ha.
    + intros k op' Hk. specialize (Ha (S k) op' Hk). simpl in Ha. by rewrite (i16_after_cons _ _ _ _ v) in Ha.
  - intros [Hd Ha] [| k] op' Hk; simpl in *.
    + injection Hk as <-. by rewrite (i16_after_nil _ _ v).
    + rewrite (i16_after_cons _ _ _ _ v) by done. by apply Ha.
Qed.

Lemma refused_cons vals op ops v k op' :
  vals !! Z.to_nat (SemNum op) = Some v -> is_i16 v -> passes v op ->
  refused (<[Z.to_nat (SemNum op) := to_i16 (v + SemOp op)]> vals) ops k op' -> refused vals (op :: ops) (S k) op'.
Proof.
  intros Hv Hr Hd (Hk & Hn & Ha). split_and!; [done | |]; simpl.
  - by rewrite (i16_after_cons _ _ _ _ v).
  - by apply (all_pass_cons _ _ _ v).
Qed.

(** What the loop does: all the operations, or it stops at the first that does not pass. *)
Definition loop_post (s : SetInternal) (uid e : Z) (vals : list Z) (ops : list Sembuf) (r : OpsResult) : Prop :=
  match r with
  | Applied vals' => all_pass vals ops /\ length vals' = length vals /\
      forall i v, vals !! i = Some v -> vals' !! i = Some (to_i16 (v + delta ops i))
  | Returned s' r => exists k op, refused vals ops k op /\ (s', r) = stuck_result s uid e op
  end.

Lemma loop_post_step s uid e vals op ops v r :
  vals !! Z.to_nat (SemNum op) = Some v -> is_i16 v -> passes v op ->
  loop_post s uid e (<[Z.to_nat (SemNum op) := to_i16 (v + SemOp op)]> vals) ops r -> loop_post s uid e vals (op :: ops) r.
Proof.
  intros Hv Hr Hd. destruct r as [vals' | s' r]; simpl.
  - intros (Ha & Hl & Hd'). split_and!; [by apply (all_pass_cons _ _ _ v) | by rewrite Hl, length_insert |].
    intros i v0 Hi. case_decide as Hc.
    + subst i. simplify_eq. rewrite (Hd' _ (to_i16 (v + SemOp op))); [rewrite to_i16_add; do 2 f_equal; lia |].
      apply list_lookup_insert_eq. by eapply lookup_lt_Some.
    + rewrite (Hd' i v0); [do 2 f_equal; lia |]. by rewrite list_lookup_insert_ne.
  - intros (k & op' & Hs & Hres). exists (S k), op'. split; [by eapply refused_cons | done].
Qed.

Lemma loop_post_refused s uid e vals op ops v s' r :
  vals !! Z.to_nat (SemNum op) = Some v -> is_i16 v -> ~ passes v op -> stuck_result s uid e op = (s', r) ->
  returns (Ret (Returned s' r)) (loop_post s uid e vals (op :: ops)).
Proof.
  intros Hv Hr Hn Hres. apply returns_ret. exists 0%nat, op. split; [| done]. split_and!; [done | | by intros k op' Hk].
  simpl. by rewrite (i16_after_nil _ _ v).
Qed.

Lemma ops_loop_spec s uid e ops : forall vals,
  Forall (op_ok (length (sems s))) ops -> length vals = length (sems s) -> Forall is_i16 vals ->
  returns (ops_loop s uid e vals ops) (loop_post s uid e vals ops).
Proof.
  induction ops as [| op ops IH]; intros vals Hops Hlen Hr.
  { apply returns_ret. split_and!; [by intros k op Hk | done |]. intros i v Hv. rewrite Z.add_0_r, Hv. f_equal. symmetry. apply to_i16_small.
    by apply (proj1 (Forall_lookup _ _) Hr i). }
  apply Forall_cons in Hops as [[Hnum Hop] Hops]. cbn [ops_loop].
  destruct (lookup_lt_is_Some_2 (sems s) (Z.to_nat (SemNum op))) as [x Hx]; [lia |].
  destruct (lookup_lt_is_Some_2 vals (Z.to_nat (SemNum op))) as [v Hv]; [lia |].
  rewrite Hx, Hv. pose proof (proj1 (Forall_lookup _ _) Hr _ _ Hv) as Hvr.
  assert (Hstep : passes v op -> returns (ops_loop s uid e (<[Z.to_nat (SemNum op) := to_i16 (v + SemOp op)]> vals) ops)
    (loop_post s uid e vals (op :: ops))).
  { intros Hd. eapply returns_mono; [apply IH; [done | by rewrite length_insert |] | by intros r; apply loop_post_step].
    apply Forall_insert; [done | apply to_i16_range]. }
  pose proof (loop_post_refused s uid e vals op ops v) as Hstuck. specialize (fun s' r => Hstuck s' r Hv Hvr).
  unfold passes in Hstep, Hstuck. unfold stuck_result, wait_mask in Hstuck. fold (nowait op).
  unfold is_i16 in Hvr. destruct (Z.eqb_spec (SemOp op) 0) as [E0 | E0].
  - rewrite decide_True in Hstep, Hstuck by done. rewrite E0 in *. destruct (Z.eqb_spec v 0) as [-> | Hne]; cbn [negb].
    + change (to_i16 (0 + 0)) with 0 in Hstep. rewrite list_insert_id in Hstep by done. by apply Hstep.
    + destruct (nowait op); by apply Hstuck.
  - rewrite decide_False in Hstep, Hstuck by done. destruct (Z.ltb_spec (SemOp op) 0).
    + destruct (decide (SemOp op = -32768)) as [Em | Em].
      { rewrite Em in *. change (to_i16 (- -32768)) with (-32768). destruct (Z.ltb_spec 32000 (-32768)); [lia |].
        destruct (Z.ltb_spec v (-32768)); [lia |]. by apply Hstep. }
      rewrite decide_True in Hstep, Hstuck by lia. rewrite (to_i16_small (- SemOp op)) by lia. destruct (Z.ltb_spec 0 (SemOp op)); [lia |].
      destruct (Z.ltb_spec 32000 (- SemOp op)), (Z.ltb_spec (SemOp op) (Z.opp 32000)); try lia; [apply Hstuck; [lia | done] |].
      destruct (Z.ltb_spec v (- SemOp op)).
      * destruct (nowait op); (apply Hstuck; [lia | done]).
      * apply Hstep. lia.
    + rewrite (decide_False (P := SemOp op = -32768)), (decide_False (P := SemOp op < 0)) in Hstep, Hstuck by lia. destruct (Z.ltb_spec 0 (SemOp op)); [| lia].
      rewrite (to_i16_small (32000 - SemOp op)) by lia.
      destruct (Z.ltb_spec (32000 - SemOp op) v); [apply Hstuck; [lia | done] |]. apply Hstep. lia.
Qed.

(** ** Without the operation -32768 *)

Definition no_min (ops : list Sembuf) : Prop := Forall (fun op => SemOp op <> -32768) ops.

Lemma doable_in_range v op : in_range v -> doable v op -> in_range (v + SemOp op).
Proof. unfold doable, in_range. intros. repeat case_decide; lia. Qed.

Lemma passes_doable v op : in_range v -> SemOp op <> -32768 -> passes v op <-> doable v op.
Proof. unfold passes, doable, in_range. intros. repeat case_decide; try done; lia. Qed.

Lemma in_range_i16 v : in_range v -> is_i16 v.
Proof. unfold in_range, is_i16. lia. Qed.

Lemma and_iff_r (A B C : Prop) : (A -> B <-> C) -> A /\ B <-> A /\ C.
Proof. tauto. Qed.

Lemma all_pass_doable ops : forall vals, Forall in_range vals -> Forall (op_ok (length vals)) ops -> no_min ops -> all_pass vals ops <-> all_doable vals ops.
Proof.
  induction ops as [| op ops IH]; intros vals Hr Hops Hm; [by split |]. apply Forall_cons in Hops as [[Hnum _] Hops]. apply Forall_cons in Hm as [Hm1 Hm].
  destruct (lookup_lt_is_Some_2 vals (Z.to_nat (SemNum op))) as [v Hv]; [lia |]. pose proof (proj1 (Forall_lookup _ _) Hr _ _ Hv) as Hvr. simpl in Hvr.
  rewrite (all_pass_cons _ _ _ v), (all_doable_cons _ _ _ v), passes_doable by (try done; by apply in_range_i16).
  apply and_iff_r. intros Hd. pose proof (doable_in_range _ _ Hvr Hd) as Hr'. rewrite to_i16_small by (by apply in_range_i16).
  apply IH; [by apply Forall_insert | by rewrite length_insert | done].
Qed.

Lemma after_in_range ops : forall vals, Forall in_range vals -> Forall (op_ok (length vals)) ops -> all_doable vals ops ->
  forall i v, vals !! i = Some v -> in_range (v + delta ops i).
Proof.
  induction ops as [| op ops IH]; intros vals Hr Hops Ha i v0 Hi; [rewrite Z.add_0_r; by apply (proj1 (Forall_lookup _ _) Hr i) |].
  apply Forall_cons in Hops as [[Hnum _] Hops]. destruct (lookup_lt_is_Some_2 vals (Z.to_nat (SemNum op))) as [v Hv]; [lia |].
  apply (all_doable_cons _ _ _ v) in Ha as [Hd Ha]; [| done]. pose proof (doable_in_range _ _ (proj1 (Forall_lookup _ _) Hr _ _ Hv) Hd) as Hr'.
  specialize (IH (<[Z.to_nat (SemNum op) := v + SemOp op]> vals) ltac:(by apply Forall_insert) ltac:(by rewrite length_insert) Ha i). simpl.
  case_decide as Hc.
  - subst i. simplify_eq. rewrite Z.add_assoc. apply IH. apply list_lookup_insert_eq. by eapply lookup_lt_Some.
  - apply IH. by rewrite list_lookup_insert_ne.
Qed.

Lemma refused_stuck vals ops k op : Forall in_range vals -> Forall (op_ok (length vals)) ops -> no_min ops -> refused vals ops k op <-> stuck vals ops k op.
Proof.
  intros Hr Hops Hm. unfold refused, stuck. apply and_iff_r. intros Hk.
  rewrite (all_pass_doable (take k ops)) by (try done; by apply Forall_take).
  destruct (proj1 (Forall_lookup _ _) Hops k op Hk) as [Hnum _]. pose proof (proj1 (Forall_lookup _ _) Hm k op Hk) as Hm1. simpl in Hm1.
  destruct (lookup_lt_is_Some_2 vals (Z.to_nat (SemNum op))) as [v Hv]; [lia |].
  assert (E : all_doable vals (take k ops) -> passes (i16_after vals (take k ops) (Z.to_nat (SemNum op))) op <-> doable (after vals (take k ops) (Z.to_nat (SemNum op))) op).
  { intros Ha. pose proof (after_in_range _ _ Hr (Forall_take _ k _ Hops) Ha _ _ Hv) as Hb. unfold i16_after, after in *. rewrite Hv in *. simpl in *.
    rewrite to_i16_small by (by apply in_range_i16). by apply passes_doable. }
  tauto.
Qed.

(** * semop *)

Definition values (s : SetInternal) : list Z := value <$> sems s.

Lemma woken_in (l : list Sem) x e m :
  x ∈ l -> (e, m) ∈ queue x -> Z.land EVENT_IN m <> 0 -> e ∈ concat (wakeWaiters <$> l).
Proof.
  intros Hx Hq Hm. apply list_elem_of_In, in_concat. exists (wakeWaiters x). split.
  - apply list_elem_of_In. by apply list_elem_of_fmap_2.
  - apply list_elem_of_In. unfold wakeWaiters, Notify. apply list_elem_of_fmap. exists (e, m).
    split; [done |]. by apply list_elem_of_filter.
Qed.

Lemma commit_lookup s vals p i x v :
  sems s !! i = Some x -> vals !! i = Some v ->
  sems (commit s vals p).1 !! i = Some (mkSem v p (queue x) (waiters x)).
Proof. intros Hx Hv. simpl. rewrite lookup_zip_with, Hx. simpl. by rewrite Hv. Qed.

Lemma stuck_result_values s uid e op : values (stuck_result s uid e op).1 = values s.
Proof.
  unfold stuck_result. repeat case_match; try done. unfold values, add_waiter. simpl.
  apply list_eq. intros i. rewrite !list_lookup_fmap.
  destruct (decide (i = Z.to_nat (SemNum op))) as [-> | Hne].
  - rewrite list_lookup_alter_eq. by destruct (sems s !! _).
  - by rewrite list_lookup_alter_ne.
Qed.

(** C17: a semop is all or nothing.  If every operation passes after the ones before it, all
    are done: each semaphore changes by the sum of its operations, as an [i16], and every
    entry that waits for input on the set is triggered.  Otherwise no value changes, and the
    first operation that does not pass decides: ERANGE if it exceeds the maximum, EWOULDBLOCK
    if it must not wait, and else the caller's entry is registered as a waiter of that
    semaphore.  If the values are in range and no operation is -32768, to pass means that the
    operation can be done, and the new values are the sums and are in range.  The operation
    -32768 always passes, which leaves a value out of range: [semop_min_negative]. *)
Theorem semop_spec (s : SetInternal) (uid e p now : Z) (ops : list Sembuf) :
  dead s = false -> Forall (op_ok (length (sems s))) ops -> Forall is_i16 (values s) ->
  returns (executeOps s uid e p now ops) (fun '(s', woken, r) =>
    (all_pass (values s) ops /\ r = Ok (0, -1) /\ length (sems s') = length (sems s) /\
      (forall i x, sems s !! i = Some x -> sems s' !! i = Some (mkSem (to_i16 (value x + delta ops i)) p (queue x) (waiters x))) /\
      (forall x en m, x ∈ sems s -> (en, m) ∈ queue x -> Z.land EVENT_IN m <> 0 -> en ∈ woken))
    \/ (exists k op, refused (values s) ops k op /\ woken = [] /\ (s', r) = stuck_result s uid e op /\ values s' = values s)) /\
  (Forall in_range (values s) -> no_min ops ->
    (all_pass (values s) ops <-> all_doable (values s) ops) /\ (forall k op, refused (values s) ops k op <-> stuck (values s) ops k op) /\
    (all_doable (values s) ops -> forall i x, sems s !! i = Some x ->
       in_range (value x + delta ops i) /\ to_i16 (value x + delta ops i) = value x + delta ops i)).
Proof.
  intros Hd Hops Hr. split.
  - unfold executeOps. rewrite Hd.
    eapply returns_bind; [apply (ops_loop_spec s uid e ops (values s)); [done | apply length_fmap | done] |].
    intros [vals | s' r].
    + intros (Ha & Hl & Hv). apply returns_ret. left. split_and!; [done | done | | | by intros; eapply woken_in].
      * simpl. unfold values in Hl. rewrite length_fmap in Hl. rewrite length_zip_with. lia.
      * intros i x Hx. apply (commit_lookup s vals p i x); [done |]. apply Hv. unfold values. by rewrite list_lookup_fmap, Hx.
    + intros (k & op & Hs & Hres). apply returns_ret. right. exists k, op. split_and!; [done | done | done |].
      rewrite <- (stuck_result_values s uid e op). by rewrite <- Hres.
  - intros Hr' Hm. assert (Hops' : Forall (op_ok (length (values s))) ops) by (unfold values; by rewrite length_fmap).
    split_and!; [by apply all_pass_doable | intros; by apply refused_stuck |]. intros Ha i x Hx.
    assert (Hin : in_range (value x + delta ops i)) by (apply (after_in_range ops (values s)); [done | done | done | unfold values; by rewrite list_lookup_fmap, Hx]).
    split; [done | by apply to_i16_small, in_range_i16].
Qed.

(** A set of two semaphores with the values 1 and 0; entry 7 waits for input on the second. *)
Definition pair_set : SetInternal :=
  mkSet 1 5 (mkOwner 0 0) (mkOwner 0 0) (FilePermissions_FromMode 384) 0 0
    [mkSem 1 0 [] []; mkSem 0 0 [(7, READABLE_EVENT)] [(3, -1)]] false.

Lemma semop_witness :
  returns (executeOps pair_set 9 8 42 100 [mkSembuf 0 (-1) 0; mkSembuf 1 2 0]) (fun '(s', woken, r) =>
    r = Ok (0, -1) /\ values s' = [0; 2] /\ 7 ∈ woken /\ all_doable (values pair_set) [mkSembuf 0 (-1) 0; mkSembuf 1 2 0]).
Proof.
  destruct (semop_spec pair_set 9 8 42 100 [mkSembuf 0 (-1) 0; mkSembuf 1 2 0]) as [(r & E & Hr) Hin].
  - reflexivity.
  - repeat constructor; simpl; lia.
  - repeat constructor; simpl; lia.
  - vm_compute in E. injection E as <-. exists (with_opTime (commit pair_set [0; 2] 42).1 100, [7], Ok (0, -1)).
    split; [reflexivity |]. destruct Hr as [(Ha & _ & _ & _ & Hw) | (k & op & _ & Hw & _)]; [| done].
    destruct Hin as [Hdo _]; [repeat constructor; simpl; lia | repeat constructor; simpl; lia |].
    split_and!; [done | done | | by apply Hdo]. apply (Hw (mkSem 0 0 [(7, READABLE_EVENT)] [(3, -1)]) 7 READABLE_EVENT); [set_solver | set_solver | done].
Defined.

(** an operation of -32768, whose negation wraps, passes both tests on its size: the
    call succeeds at once and leaves a negative value, where it should fail with ERANGE. *)
Theorem semop_min_negative (s : SetInternal) (uid e p now flag : Z) (x : Sem) :
  dead s = false -> sems s !! 0%nat = Some x -> in_range (value x) ->
  returns (executeOps s uid e p now [mkSembuf 0 (-32768) flag]) (fun '(s', _, r) =>
    r = Ok (0, -1) /\ exists x', sems s' !! 0%nat = Some x' /\ value x' = value x - 32768 /\ value x' < 0).
Proof.
  intros Hd Hx Hr. unfold in_range in Hr. unfold executeOps. rewrite Hd.
  cbn [ops_loop SemNum SemOp SemFlag]. change (Z.to_nat 0) with 0%nat. rewrite list_lookup_fmap, Hx.
  change (value <$> Some x) with (Some (value x)). change (-32768 =? 0) with false. change (-32768 <? 0) with true.
  change (to_i16 (- -32768)) with (-32768). cbv zeta beta iota.
  rewrite (proj2 (Z.ltb_ge VALUE_MAX (-32768))) by (lia).
  rewrite (proj2 (Z.ltb_ge (value x) (-32768))) by lia. rewrite to_i16_small by lia. rewrite bind_ret. apply returns_ret.
  split; [done |]. exists (mkSem (value x + -32768) p (queue x) (waiters x)). split; [| simpl; lia].
  apply (commit_lookup s _ p 0 x); [done |]. apply list_lookup_insert_eq. rewrite length_fmap. by eapply lookup_lt_Some.
Qed.

Lemma semop_min_negative_witness :
  returns (executeOps pair_set 9 8 42 100 [mkSembuf 0 (-32768) 0]) (fun '(s', _, r) => r = Ok (0, -1)).
Proof.
  destruct (semop_min_negative pair_set 9 8 42 100 0 (mkSem 1 0 [] [])) as ([[s' wk] r] & E & Hr & _);
    [done | done | unfold in_range; simpl; lia |]. by exists (s', wk, r).
Defined.

(** * Values stay in range *)

Section Calls.
Context (w : World) (userNS : positive) (Hwf : wf w) (Hreg : is_Some (w_ns w !! userNS)).

Lemma checkCapability_ret s c : is_Some (w_ns w !! UserNamespace c) -> exists b, checkCapability w userNS false s c = Ret b.
Proof.
  intros Hc. unfold checkCapability. cbn [registry_lock]. rewrite bind_ret.
  destruct (HasCapabilityIn_loop_spec w c CAP_IPC_OWNER (chain_fuel userNS) userNS) as (b & Hb & _);
    [done | done | done | done |].
  unfold HasCapabilityIn. rewrite Hb, bind_ret. destruct b; [| by eexists].
  destruct (map_chain_total uidMapFromParent (chain_fuel (UserNamespace c)) w (UserNamespace c) (fo_UID (owner s)))
    as [z Hz]; [done | done | done |]. unfold MapFromKUID. rewrite Hz. by eexists.
Qed.

Lemma checkPerms_ret s c req : is_Some (w_ns w !! UserNamespace c) -> exists b, checkPerms w userNS false s c req = Ret b.
Proof. intros Hc. unfold checkPerms. case_match; [by eexists | by apply checkCapability_ret]. Qed.

(** [SetVal] on every branch: the value is checked first, then the permission, then
    the number.  For the number just past the last semaphore it panics: the bound of
    [findSem_mut] is one too large. *)
Theorem SetVal_spec (s : SetInternal) (num val : Z) (c : Creds) (p now : Z) :
  is_Some (w_ns w !! UserNamespace c) ->
  exists ok, checkPerms w userNS false s c perm_write = Ret ok /\
  SetVal w userNS s num val c p now =
    if decide (~ in_range val) then Ret (s, [], Err (SysError ERANGE))
    else if decide (ok = false) then Ret (s, [], Err (SysError EACCES))
    else if decide (num = set_Size s) then Panic
    else match sems s !! Z.to_nat num with
         | Some x =>
             if decide (num < 0) then Ret (s, [], Err (SysError ERANGE))
             else Ret (with_changeTime (with_sems s (<[Z.to_nat num := mkSem val p (queue x) (waiters x)]> (sems s))) now,
                       wakeWaiters x, Ok tt)
         | None => Ret (s, [], Err (SysError ERANGE))
         end.
Proof.
  intros Hc. destruct (checkPerms_ret s c perm_write Hc) as [ok Hok]. exists ok. split; [done |].
  unfold SetVal, in_range. destruct (Z.ltb_spec val 0), (Z.ltb_spec VALUE_MAX val); simpl;
    try (rewrite decide_True by lia; done). rewrite decide_False by lia. rewrite Hok, bind_ret.
  destruct ok; cbn [negb]; [rewrite decide_False by done | by rewrite decide_True]. unfold findSem_mut, set_Size.
  destruct (Z.ltb_spec num 0); simpl.
  { rewrite decide_False by lia. destruct (sems s !! Z.to_nat num); [by rewrite decide_True |]. done. }
  destruct (Z.ltb_spec (Z.of_nat (length (sems s))) num).
  { rewrite decide_False by lia. rewrite lookup_ge_None_2 by lia. done. }
  destruct (decide (num = Z.of_nat (length (sems s)))) as [-> | Hne].
  { by rewrite lookup_ge_None_2 by lia. }
  destruct (lookup_lt_is_Some_2 (sems s) (Z.to_nat num)) as [x ->]; [lia |]. rewrite bind_ret.
  by rewrite decide_False by lia.
Qed.
End Calls.

Lemma SetVal_witness :
  SetVal nested 1 pair_set 2 1 (RootCreds 1) 42 100 = Panic /\
  SetVal nested 1 pair_set 3 1 (RootCreds 1) 42 100 = Ret (pair_set, [], Err (SysError ERANGE)).
Proof.
  destruct (SetVal_spec nested 1 nested_wf ltac:(by eexists) pair_set 2 1 (RootCreds 1) 42 100 ltac:(by eexists)) as (b & Hb & ->).
  destruct (SetVal_spec nested 1 nested_wf ltac:(by eexists) pair_set 3 1 (RootCreds 1) 42 100 ltac:(by eexists)) as (b' & Hb' & ->).
  vm_compute in Hb, Hb'. injection Hb as <-. injection Hb' as <-. split; reflexivity.
Defined.
