(* ===== verification/SemRegProps.v ===== *)
(** Semaphore sets in use: their values under every sequence of calls, and the registry
    that creates, finds and removes them. *)
From S2P Require Import Prelude BTree Auth IdentityThm UserNsProps Perms Semaphore SemProps.
#[local] Open Scope Z_scope.

(** * Sequences of calls on one set *)

Inductive SemCall : Type :=
| CExecute (uid e p now : Z) (ops : list Sembuf)
| CAbortWait (waiterid num e : Z)
| CSetVal (num val p now : Z)
| CSetValAll (vals : list Z) (p now : Z)
| CChange (o : FileOwner) (perm : FilePermissions) (now : Z)
| CDestroy.

Definition run_call (w : World) (userNS : positive) (c : Creds) (call : SemCall) (s : SetInternal) : outcome SetInternal :=
  match call with
  | CExecute uid e p now ops => '(s, _, _) ← ExecuteOps w userNS s uid e p now c ops; Ret s
  | CAbortWait id num e => AbortWait s id num e
  | CSetVal num val p now => '(s, _, _) ← SetVal w userNS s num val c p now; Ret s
  | CSetValAll vals p now => '(s, _, _) ← SetValAll w userNS s vals c p now; Ret s
  | CChange o perm now => '(s, _) ← Change w userNS s c o perm now; Ret s
  | CDestroy => Ret (destroy s).1
  end.

Fixpoint run_calls (w : World) (userNS : positive) (calls : list (Creds * SemCall)) (s : SetInternal) : outcome SetInternal :=
  match calls with
  | [] => Ret s
  | (c, call) :: calls => s ← run_call w userNS c call s; run_calls w userNS calls s
  end.

(** The arguments that semop(2) and semctl(2) pass for a set of [n] semaphores: machine
    integers; for [SetValAll] as many values as the set has semaphores, which is how many
    semctl copies in; for [AbortWait] the semaphore that [ExecuteOps] answered with. *)
Definition call_ok (n : nat) (call : SemCall) : Prop :=
  match call with
  | CExecute _ _ _ _ ops => Forall (fun op => 0 <= SemNum op /\ -32768 <= SemOp op <= 32767) ops
  | CAbortWait _ num _ => 0 <= num < Z.of_nat n
  | CSetValAll vals _ _ => length vals = n /\ Forall (fun v => 0 <= v <= 65535) vals
  | CSetVal _ _ _ _ | CChange _ _ _ | CDestroy => True
  end.

(** No operation of the call is -32768. *)
Definition call_no_min (call : SemCall) : Prop := match call with CExecute _ _ _ _ ops => no_min ops | _ => True end.

(** The call with which [SetVal] reads past the end of the semaphores. *)
Definition past_end (n : nat) (call : SemCall) : Prop :=
  exists val p now, call = CSetVal (Z.of_nat n) val p now /\ in_range val.

(** A set of [n] semaphores with values in range, or, once an operation -32768 was let
    through ([wide]), with values that are [i16]. *)
Definition val_ok (wide : bool) (v : Z) : Prop := if wide then is_i16 v else in_range v.
Definition set_ok (wide : bool) (n : nat) (s : SetInternal) : Prop := length (sems s) = n /\ Forall (val_ok wide) (values s).
Definition fits (wide : bool) (call : SemCall) : Prop := wide = true \/ call_no_min call.

(** [m] returns a value with [P], or panics and [Q] holds. *)
Definition settles {A} (m : outcome A) (P : A -> Prop) (Q : Prop) : Prop :=
  match m with Ret a => P a | Panic => Q | OutOfFuel => False end.

Lemma settles_returns {A} (m : outcome A) P Q : returns m P -> settles m P Q.
Proof. by intros (a & -> & Ha). Qed.

Lemma settles_bind {A B} (m : outcome A) (f : A -> outcome B) P P' (Q Q' : Prop) :
  settles m P Q -> (Q -> Q') -> (forall a, P a -> settles (f a) P' Q') -> settles (m ≫= f) P' Q'.
Proof. destruct m; simpl; auto. Qed.

Lemma val_ok_i16 wide v : val_ok wide v -> is_i16 v.
Proof. destruct wide; [done | apply in_range_i16]. Qed.

Lemma in_range_val_ok wide v : in_range v -> val_ok wide v.
Proof. destruct wide; [apply in_range_i16 | done]. Qed.

Lemma set_ok_insert wide n s i x y :
  set_ok wide n s -> sems s !! i = Some x -> val_ok wide (value y) -> set_ok wide n (with_sems s (<[i := y]> (sems s))).
Proof.
  intros [Hl Hv] Hx Hy. split; simpl; [by rewrite length_insert |].
  unfold values in *. simpl. rewrite list_fmap_insert. by apply Forall_insert.
Qed.

Lemma set_ok_commit wide n s vals p : set_ok wide n s -> length vals = n -> Forall (val_ok wide) vals -> set_ok wide n (commit s vals p).1.
Proof.
  intros [Hl _] Hlen Hv. split; simpl; [rewrite length_zip_with; lia |].
  unfold values. simpl. apply Forall_fmap, Forall_lookup. intros i x. rewrite lookup_zip_with. intros (y & Hy & (v & Hv' & [= <-])%bind_Some)%bind_Some.
  simpl. by eapply Forall_lookup_1.
Qed.

(** The values after operations that all pass. *)
Lemma applied_ok wide vals vals' ops :
  Forall (val_ok wide) vals -> Forall (op_ok (length vals)) ops -> wide = true \/ no_min ops -> length vals' = length vals ->
  all_pass vals ops -> (forall i v, vals !! i = Some v -> vals' !! i = Some (to_i16 (v + delta ops i))) -> Forall (val_ok wide) vals'.
Proof.
  intros Hv Hops Hm Hl Ha Hd. apply Forall_lookup. intros i v' Hi'.
  destruct (lookup_lt_is_Some_2 vals i) as [v Hi]; [rewrite <- Hl; by eapply lookup_lt_Some |]. rewrite (Hd i v Hi) in Hi'. injection Hi' as <-.
  destruct wide; [apply to_i16_range |]. destruct Hm as [| Hm]; [done |]. apply (all_pass_doable ops vals Hv Hops Hm) in Ha.
  pose proof (after_in_range ops vals Hv Hops Ha i v Hi) as Hr. by rewrite to_i16_small by (by apply in_range_i16).
Qed.

Lemma executeOps_ok wide n s uid e p now ops :
  set_ok wide n s -> Forall (op_ok (length (sems s))) ops -> wide = true \/ no_min ops ->
  returns (executeOps s uid e p now ops) (fun r => set_ok wide n r.1.1).
Proof.
  intros [Hl Hv] Hops Hm. unfold executeOps. destruct (dead s); [by apply returns_ret |].
  eapply returns_bind; [apply (ops_loop_spec s uid e ops (values s)); [done | apply length_fmap | by eapply Forall_impl, val_ok_i16] |].
  assert (Hlv : length (values s) = length (sems s)) by apply length_fmap.
  intros [vals | s' r].
  - intros (Ha & Hlen & Hd). apply returns_ret. apply (set_ok_commit wide n s vals p); [done | lia |].
    eapply (applied_ok wide (values s)); [done | by rewrite Hlv | done | done | done | done].
  - intros (k & op & _ & Hres). apply returns_ret. simpl.
    assert (values s' = values s) as E by (rewrite <- (stuck_result_values s uid e op); by rewrite <- Hres).
    split; [| by rewrite E]. apply (f_equal length) in E. unfold values in E. rewrite !length_fmap in E. lia.
Qed.

Section Inv.
Context (w : World) (userNS : positive) (Hwf : wf w) (Hreg : is_Some (w_ns w !! userNS)).
Context (c : Creds) (Hc : is_Some (w_ns w !! UserNamespace c)).

Lemma ExecuteOps_ok wide n s uid e p now ops :
  set_ok wide n s -> call_ok n (CExecute uid e p now ops) -> wide = true \/ no_min ops ->
  returns (ExecuteOps w userNS s uid e p now c ops) (fun r => set_ok wide n r.1.1).
Proof.
  intros Hs Hops Hm. unfold ExecuteOps. destruct (dead s) eqn:Hd; [by apply returns_ret |].
  case_match eqn:Hf; [by apply returns_ret |].
  destruct (checkPerms_ret w userNS Hwf Hreg s c (mkPerm (forallb (fun op => SemOp op =? 0) ops) (negb (forallb (fun op => SemOp op =? 0) ops)) false) Hc) as [b Hb].
  cbv zeta. rewrite Hb, bind_ret. destruct b; simpl; [| by apply returns_ret].
  apply executeOps_ok; [done | | done]. apply Forall_forall. intros op Hop. simpl in Hops. rewrite Forall_forall in Hops.
  destruct (Hops op Hop) as [Hn Ho]. split; [| done]. destruct Hs as [Hl _]. split; [done |]. rewrite Hl.
  apply not_true_iff_false in Hf. apply Znot_ge_lt. intros Hge. apply Hf, existsb_exists. exists op.
  split; [by apply list_elem_of_In |]. unfold findSem, set_Size. rewrite Hl.
  destruct (Z.ltb_spec (SemNum op) 0); [done |]. destruct (Z.leb_spec (Z.of_nat n) (SemNum op)); [done | lia].
Qed.

Lemma SetVal_ok wide n s num val p now :
  set_ok wide n s -> settles (SetVal w userNS s num val c p now) (fun r => set_ok wide n r.1.1) (past_end n (CSetVal num val p now)).
Proof.
  intros Hs. destruct (SetVal_spec w userNS Hwf Hreg s num val c p now Hc) as (ok & _ & ->). unfold set_Size. rewrite (proj1 Hs).
  destruct (decide (~ in_range val)) as [| Hr]; [done |]. destruct (decide (ok = false)); [done |]. apply dec_stable in Hr.
  destruct (decide (num = Z.of_nat n)) as [-> | Hne]; [by exists val, p, now |].
  destruct (sems s !! Z.to_nat num) as [x |] eqn:Hx; [| done]. destruct (decide (num < 0)); [done |].
  apply (set_ok_insert _ _ s _ x); [done | done | by apply in_range_val_ok].
Qed.

Lemma SetValAll_ok wide n s vals p now :
  set_ok wide n s -> call_ok n (CSetValAll vals p now) -> returns (SetValAll w userNS s vals c p now) (fun r => set_ok wide n r.1.1).
Proof.
  intros Hs [Hlen Hv16]. unfold SetValAll, set_Size. rewrite Hlen, (proj1 Hs), Z.eqb_refl. simpl.
  destruct (existsb _ vals) eqn:Hex; [by apply returns_ret |].
  destruct (checkPerms_ret w userNS Hwf Hreg s c perm_write Hc) as [b ->]. rewrite bind_ret.
  destruct b; simpl; [| by apply returns_ret]. apply returns_ret.
  apply (set_ok_commit wide n s (to_i16 <$> vals) p); [done | by rewrite length_fmap |].
  apply Forall_fmap, Forall_forall. intros v Hv'. rewrite Forall_forall in Hv16. specialize (Hv16 v Hv').
  assert (~ VALUE_MAX < v) as Hle.
  { intros Hgt. apply not_true_iff_false in Hex. apply Hex, existsb_exists. exists v. split; [by apply list_elem_of_In | by apply Z.ltb_lt]. }
  simpl. apply in_range_val_ok. unfold in_range. rewrite to_i16_small; lia.
Qed.

Lemma run_call_ok wide n s call :
  set_ok wide n s -> call_ok n call -> fits wide call -> settles (run_call w userNS c call s) (set_ok wide n) (past_end n call).
Proof.
  intros Hs Hcall Hm. destruct call as [uid e p now ops | id num e | num val p now | vals p now | o perm now |]; simpl.
  - apply settles_returns. eapply returns_bind; [by apply (ExecuteOps_ok wide n) |]. intros [[s' wk] r] Hr. by apply returns_ret.
  - simpl in Hcall. unfold AbortWait. destruct Hs as [Hl Hv].
    destruct (lookup_lt_is_Some_2 (sems s) (Z.to_nat num)) as [x Hx]; [lia |]. rewrite Hx. simpl.
    eapply set_ok_insert; [done | done |]. simpl. apply (proj1 (Forall_lookup _ _) Hv (Z.to_nat num)).
    unfold values. by rewrite list_lookup_fmap, Hx.
  - eapply settles_bind; [by apply (SetVal_ok wide n) | done |]. by intros [[s' wk] r].
  - apply settles_returns. eapply returns_bind; [by apply (SetValAll_ok wide n) |]. intros [[s' wk] r] Hr. by apply returns_ret.
  - apply settles_returns. unfold Change. destruct (checkCredentials s c); simpl; [by apply returns_ret |].
    destruct (checkCapability_ret w userNS Hwf Hreg s c Hc) as [b ->]. rewrite bind_ret. destruct b; by apply returns_ret.
  - done.
Qed.
End Inv.

Lemma run_calls_ok w userNS calls wide n s :
  wf w -> is_Some (w_ns w !! userNS) ->
  Forall (fun x => is_Some (w_ns w !! UserNamespace x.1) /\ call_ok n x.2) calls -> Forall (fun x => fits wide x.2) calls -> set_ok wide n s ->
  settles (run_calls w userNS calls s) (set_ok wide n) (Exists (fun x => past_end n x.2) calls).
Proof.
  intros Hwf Hreg Hcalls. revert s. induction Hcalls as [| [c call] calls [Hc Hok] _ IH]; intros s Hm Hs; [done |].
  apply Forall_cons in Hm as [Hm1 Hm]. simpl in *. eapply settles_bind; [by apply (run_call_ok w userNS Hwf Hreg c Hc wide n) | by left |].
  intros s' Hs'. specialize (IH s' Hm Hs'). destruct (run_calls w userNS calls s'); simpl in *; [done | by right | done].
Qed.

(** C21: whatever calls are made on a semaphore set of [n] semaphores, by whomever, the set keeps
    its size and its values are [i16]; if they are in range at first and no operation of a
    semop is -32768, they are between 0 and the maximum also in the end.  No call goes on for
    ever, and the only one that panics is a [SetVal] with a value in range for semaphore
    number [n], one past the last.  After an operation -32768 a value can be negative:
    [semop_min_negative]. *)
Theorem sem_values_in_range (w : World) (userNS : positive) (calls : list (Creds * SemCall)) (n : nat) (s : SetInternal) :
  wf w -> is_Some (w_ns w !! userNS) ->
  Forall (fun x => is_Some (w_ns w !! UserNamespace x.1) /\ call_ok n x.2) calls -> length (sems s) = n -> Forall is_i16 (values s) ->
  match run_calls w userNS calls s with
  | Ret s' => length (sems s') = n /\ Forall is_i16 (values s') /\
      (Forall in_range (values s) -> Forall (fun x => call_no_min x.2) calls -> Forall in_range (values s'))
  | Panic => Exists (fun x => past_end n x.2) calls
  | OutOfFuel => False
  end.
Proof.
  intros Hwf Hreg Hcalls Hl Hv.
  pose proof (run_calls_ok w userNS calls true n s Hwf Hreg Hcalls) as Hwide. specialize (Hwide ltac:(apply Forall_true; by left) ltac:(done)).
  pose proof (run_calls_ok w userNS calls false n s Hwf Hreg Hcalls) as Hnarrow.
  destruct (run_calls w userNS calls s) as [s' | |]; [| done | done]. destruct Hwide as [Hl' Hv']. split_and!; [done | done |].
  intros Hr Hm. apply Hnarrow; [| done]. eapply Forall_impl; [exact Hm |]. intros x Hx. by right.
Qed.

Lemma sem_values_in_range_witness :
  match run_calls nested 1 [(RootCreds 1, CExecute 9 8 42 100 [mkSembuf 0 (-2) 0]); (RootCreds 1, CSetVal 1 7 42 100)] pair_set with
  | Ret s' => Forall in_range (values s')
  | _ => False
  end.
Proof.
  pose proof (sem_values_in_range nested 1 [(RootCreds 1, CExecute 9 8 42 100 [mkSembuf 0 (-2) 0]); (RootCreds 1, CSetVal 1 7 42 100)] 2 pair_set
    nested_wf ltac:(by eexists) ltac:(repeat constructor; simpl; try lia; by eexists) eq_refl ltac:(repeat constructor; simpl; lia)) as H.
  destruct (run_calls _ _ _ _) as [s' | |] eqn:E; [| by vm_compute in E | by vm_compute in E].
  apply H; repeat constructor; simpl; lia.
Defined.

(** * The registry *)

Definition I31 : Z := 2147483648.

Record rwf (r : SemRegistry) : Prop := {
  rw_sorted : bt_sorted (semaphores r);
  rw_last : 0 <= lastIDUsed r < I31;
  rw_sets : forall id p, bt_get id (semaphores r) = Some p ->
    (p < rg_fresh r)%positive /\ exists s, rg_sets r !! p = Some s /\ set_id s = id;
}.

(** The [j]-th identifier that is tried. *)
Definition candidate (r : SemRegistry) (j : nat) : Z := (lastIDUsed r + 1 + Z.of_nat j) mod I31.

Lemma bt_get_key {V} (m : list (Z * V)) k v : bt_get k m = Some v -> k ∈ m.*1.
Proof.
  induction m as [| [k' v'] m IH]; simpl; [done |]. destruct (Z.eqb_spec k k') as [-> |]; [constructor |].
  intros H. constructor. by apply IH.
Qed.

Lemma candidate_inj r i j :
  Z.of_nat i < I31 -> Z.of_nat j < I31 -> candidate r i = candidate r j -> i = j.
Proof.
  intros Hi Hj E. unfold candidate, I31 in *.
  pose proof (Z.div_mod (lastIDUsed r + 1 + Z.of_nat i) 2147483648 ltac:(lia)).
  pose proof (Z.div_mod (lastIDUsed r + 1 + Z.of_nat j) 2147483648 ltac:(lia)). nia.
Qed.

(** There are not more used candidates than sets. *)
Lemma used_candidates r j :
  Z.of_nat j < I31 -> (forall i, (i < j)%nat -> is_Some (bt_get (candidate r i) (semaphores r))) ->
  (j <= length (semaphores r))%nat.
Proof.
  intros Hj Hu. rewrite <- (length_fmap fst (semaphores r)).
  assert (length (candidate r <$> seq 0 j) = j) as <- by (by rewrite length_fmap, length_seq).
  apply submseteq_length, NoDup_submseteq.
  - apply NoDup_fmap_2_strong; [| apply NoDup_seq]. intros a b [_ Ha]%elem_of_seq [_ Hb]%elem_of_seq.
    apply candidate_inj; lia.
  - intros k (i & -> & [_ Hi]%elem_of_seq)%list_elem_of_fmap. destruct (Hu i ltac:(lia)) as [v Hv]. by eapply bt_get_key.
Qed.

Lemma candidate_not_last r j : 0 <= lastIDUsed r < I31 -> Z.of_nat (S j) < I31 -> candidate r j <> lastIDUsed r.
Proof.
  intros Hl Hj E. unfold candidate, I31 in *.
  pose proof (Z.div_mod (lastIDUsed r + 1 + Z.of_nat j) 2147483648 ltac:(lia)). nia.
Qed.

(** The increment of the loop, which wraps to a negative number, gives the next candidate. *)
Lemma candidate_next r j :
  0 <= lastIDUsed r < I31 -> Z.of_nat (S (S j)) < I31 ->
  let id := to_i32 (candidate r j + 1) in (if id <? 0 then 0 else id) = candidate r (S j) /\ id <> lastIDUsed r.
Proof.
  intros Hl Hj. cbv zeta. pose proof (candidate_not_last r (S j) Hl Hj) as Hn.
  assert (candidate r (S j) = (candidate r j + 1) mod I31) as Ec.
  { unfold candidate. rewrite Z.add_mod_idemp_l by done. f_equal. lia. }
  pose proof (Z.mod_pos_bound (lastIDUsed r + 1 + Z.of_nat j) I31 ltac:(done)) as Hb. fold (candidate r j) in Hb.
  unfold to_i32, I31 in *. destruct (decide (candidate r j = 2147483647)) as [Em | Em].
  - rewrite Ec, Em. change ((2147483647 + 1 + 2147483648) mod 4294967296 - 2147483648) with (-2147483648).
    split; [done | lia].
  - rewrite (Z.mod_small (candidate r j + 1)) in Ec by lia. rewrite Z.mod_small by lia.
    replace (candidate r j + 1 + 2147483648 - 2147483648) with (candidate r j + 1) by lia.
    destruct (Z.ltb_spec (candidate r j + 1) 0); [lia |]. split; lia.
Qed.

Lemma newSet_loop_spec r fuel j id :
  rwf r -> (if id <? 0 then 0 else id) = candidate r j -> id <> lastIDUsed r ->
  (forall i, (i < j)%nat -> is_Some (bt_get (candidate r i) (semaphores r))) ->
  (length (semaphores r) < j + fuel)%nat -> Z.of_nat (S (j + fuel)) < I31 ->
  returns (newSet_loop fuel r id) (fun o => exists k, o = Some (candidate r k) /\
    bt_get (candidate r k) (semaphores r) = None /\ forall i, (i < k)%nat -> is_Some (bt_get (candidate r i) (semaphores r))).
Proof.
  intros Hr. revert j id. induction fuel as [| fuel IH]; intros j id Hid Hne Hu Hf Hb.
  { pose proof (used_candidates r j ltac:(lia) Hu). lia. }
  simpl. destruct (Z.eqb_spec id (lastIDUsed r)); [done |]. rewrite Hid.
  destruct (bt_get (candidate r j) (semaphores r)) as [p |] eqn:Hg.
  - destruct (candidate_next r j (rw_last r Hr) ltac:(lia)) as [E1 E2].
    apply (IH (S j)); [done | done | | lia | lia].
    intros i Hi. destruct (decide (i = j)) as [-> |]; [by rewrite Hg | apply Hu; lia].
  - apply returns_ret. by exists j.
Qed.

(** The new set is found under the first unused identifier after the last one used. *)
Lemma newSet_spec r now key o cr perm nsems :
  rwf r -> Z.of_nat (length (semaphores r)) + 4 < I31 ->
  returns (newSet r now key o cr perm nsems) (fun '(r', res) => exists k,
    res = Ok (rg_fresh r) /\ bt_get (candidate r k) (semaphores r) = None /\
    (forall i, (i < k)%nat -> is_Some (bt_get (candidate r i) (semaphores r))) /\
    rwf r' /\ lastIDUsed r' = candidate r k /\
    rg_sets r' !! rg_fresh r = Some (with_id (Set_New now key o cr perm nsems) (candidate r k)) /\
    forall id, findByID r' id = if decide (id = candidate r k) then Some (rg_fresh r) else findByID r id).
Proof.
  intros Hr Hlen. unfold newSet. cbv zeta. eapply returns_bind.
  { apply (newSet_loop_spec r _ 0); [done | | | lia | lia | lia].
    - destruct (rw_last r Hr). unfold candidate, to_i32, I31 in *.
      destruct (decide (lastIDUsed r = 2147483647)) as [-> |]; [done |].
      rewrite !Z.mod_small by lia. destruct (Z.ltb_spec (lastIDUsed r + 1 + 2147483648 - 2147483648) 0); lia.
    - destruct (rw_last r Hr). unfold to_i32, I31 in *. destruct (decide (lastIDUsed r = 2147483647)) as [-> |]; [done |].
      rewrite Z.mod_small by lia. lia. }
  intros o' (k & -> & Hnone & Hu). apply returns_ret. exists k.
  assert (forall id, bt_get id (bt_insert (candidate r k) (rg_fresh r) (semaphores r)) =
    if decide (id = candidate r k) then Some (rg_fresh r) else bt_get id (semaphores r)) as Hget.
  { intros id. rewrite bt_get_insert by apply Hr. destruct (Z.eqb_spec id (candidate r k)); case_decide; done. }
  split_and!; [done | done | done | | done | by simpl; rewrite lookup_insert_eq | done].
  constructor; simpl; [apply bt_insert_sorted, Hr | by apply Z.mod_pos_bound |].
  intros id p. rewrite Hget. case_decide as Hid.
  - intros [= <-]. subst id. split; [lia |]. eexists. by rewrite lookup_insert_eq.
  - intros Hg. destruct (rw_sets r Hr id p Hg) as (Hlt & s & Hs & Hi). split; [lia |]. exists s.
    rewrite lookup_insert_ne by lia. done.
Qed.

(** C31: creating a semaphore set, privately or under a key that is not in use, when the
    limits allow it: it terminates with a set of [nsems] semaphores of value 0 that the
    caller owns, under the first unused identifier after the last one given out, and all
    other identifiers are as before. *)
Theorem FindOrCreate_creates (w : World) (r : SemRegistry) (c : Creds) (now key nsems mode : Z)
    (private create exclusive : bool) (total : Z) :
  rwf r -> 0 < nsems <= SEMAPHORES_MAX -> private = true \/ (create = true /\ findByKey r key = Ret None) ->
  Z.of_nat (length (semaphores r)) < SETS_MAX -> totalSems r = Ret total -> total + nsems <= SEMAPHORES_TOTAL_MAX ->
  let me := mkOwner (EffectiveKUID c) (EffectiveKGID c) in
  returns (FindOrCreate w r c now key nsems mode private create exclusive) (fun '(r', res) => exists k,
    res = Ok (rg_fresh r) /\ bt_get (candidate r k) (semaphores r) = None /\
    (forall i, (i < k)%nat -> is_Some (bt_get (candidate r i) (semaphores r))) /\
    rwf r' /\ lastIDUsed r' = candidate r k /\
    rg_sets r' !! rg_fresh r =
      Some (with_id (Set_New now key me me (FilePermissions_FromMode mode) nsems) (candidate r k)) /\
    forall id, findByID r' id = if decide (id = candidate r k) then Some (rg_fresh r) else findByID r id).
Proof.
  intros Hr Hn Hkey Hlen Ht Htot me. unfold FindOrCreate.
  destruct (Z.ltb_spec nsems 0); [lia |]. destruct (Z.ltb_spec SEMAPHORES_MAX nsems); [lia |]. simpl.
  assert ((if negb private then findByKey r key else Ret None) = Ret None) as ->.
  { destruct Hkey as [-> | [_ Hk]]; [done | by destruct private]. }
  rewrite bind_ret. assert (negb private && negb create = false) as ->.
  { destruct Hkey as [-> | [-> _]]; [done | by rewrite andb_false_r]. }
  destruct (Z.eqb_spec nsems 0); [lia |]. destruct (Z.leb_spec SETS_MAX (Z.of_nat (length (semaphores r)))); [lia |].
  rewrite Ht, bind_ret. destruct (Z.ltb_spec (SEMAPHORES_TOTAL_MAX - nsems) total); [lia |].
  apply newSet_spec; [done |]. unfold I31 in *. lia.
Qed.

Lemma FindOrCreate_witness :
  returns (FindOrCreate nested (SemRegistry_New 1) (RootCreds 1) 100 5 3 384 false true true) (fun '(r', res) =>
    res = Ok 1%positive /\ findByID r' 1 = Some 1%positive).
Proof.
  destruct (FindOrCreate_creates nested (SemRegistry_New 1) (RootCreds 1) 100 5 3 384 false true true 0)
    as ([r' res] & E & k & Hres & _ & Hu & _ & _ & _ & Hid).
  - constructor; [constructor | done | done].
  - done.
  - by right.
  - done.
  - done.
  - done.
  - exists (r', res). split; [exact E |]. split; [exact Hres |]. rewrite Hid.
    destruct k as [| k]; [done |]. destruct (Hu 0%nat ltac:(lia)) as [p Hp]. done.
Defined.

(** the permission checks of semget and of the removal run with the registry's lock
    held and take it again when the caller is not entitled by ownership or mode, so these
    calls never return: an unprivileged caller blocks every user of the registry. *)
Theorem registry_self_deadlock (w : World) (r : SemRegistry) (c : Creds) (id now key nsems mode : Z)
    (create exclusive : bool) (ptr : positive) (s : SetInternal) :
  0 <= nsems <= SEMAPHORES_MAX -> rg_sets r !! ptr = Some s ->
  fo_UID (owner s) <> EffectiveKUID c -> InGroup c (fo_GID (owner s)) = false ->
  Perm_SupersetOf (fp_Other (perms s)) (PermMask_FromMode mode) = false ->
  checkCredentials s c = false -> findByID r id = Some ptr -> findByKey r key = Ret (Some ptr) ->
  FindOrCreate w r c now key nsems mode false create exclusive = OutOfFuel /\ RemoveId w r id c = OutOfFuel.
Proof.
  intros Hn Hs Hu Hg Hp Hc Hid Hkey. unfold FindOrCreate, RemoveId, get_set.
  destruct (Z.ltb_spec nsems 0); [lia |]. destruct (Z.ltb_spec SEMAPHORES_MAX nsems); [lia |]. simpl.
  rewrite Hkey, bind_ret, Hs, bind_ret. unfold findByID in Hid. rewrite Hid, Hs. simpl. rewrite Hc.
  unfold checkPerms. rewrite (proj2 (Z.eqb_neq _ _) Hu), Hg, Hp. done.
Qed.

Definition root_registry : SemRegistry := mkRegistry 1 [(1, 1%positive)] 1 {[1%positive := pair_set]} 2.

Lemma registry_self_deadlock_witness :
  FindOrCreate nested root_registry (UserCreds 1000 100 [] None 1) 100 5 2 4 false true false = OutOfFuel /\
  RemoveId nested root_registry 1 (UserCreds 1000 100 [] None 1) = OutOfFuel.
Proof. apply (registry_self_deadlock nested root_registry _ 1 100 5 2 4 true false 1 pair_set); done. Defined.
