(* ===== verification/WaitList.v ===== *)
(** Waiting: waiters, wait entries and the intrusive lists that link them.

    Models src/qlib/kernel/kernel/waiter: waiter.rs ([Waiter]), entry.rs ([WaitEntry]),
    waitlist.rs ([WaitList]) and queue.rs ([Queue]), with the key of futex.rs that a thread's
    entry carries.  Waiters and entries are shared objects; [Waits] is the store of both,
    with the calls of the scheduler recorded in order.  An entry belongs to a thread or to
    nobody; entries of epoll and of asynchronous files are not modelled.  A weak reference
    to an entry upgrades as long as the entry is in the store.  A call that takes a lock it
    already holds never returns. *)
From S2P Require Import Prelude.
From stdpp Require Import countable.

#[local] Open Scope Z_scope.

(** * Keys *)

Inductive KeyKind : Set := KindPrivate | KindSharedPrivate | KindSharedMappable.

#[global] Instance KeyKind_eq_dec : EqDecision KeyKind.
Proof. solve_decision. Defined.

#[global] Instance KeyKind_countable : Countable KeyKind.
Proof.
  refine (inj_countable' (fun k => match k with KindPrivate => 0 | KindSharedPrivate => 1 | KindSharedMappable => 2 end)
    (fun n => match n with 0 => KindPrivate | 1 => KindSharedPrivate | _ => KindSharedMappable end) _).
  by intros [].
Defined.

Record Key : Set := mkKey { Kind : KeyKind; Addr : Z }.

#[global] Instance Key_eq_dec : EqDecision Key.
Proof. solve_decision. Defined.

#[global] Instance Key_countable : Countable Key.
Proof.
  refine (inj_countable' (fun k => (Kind k, Addr k)) (fun p => mkKey p.1 p.2) _). by intros [].
Defined.

Definition Key_default : Key := mkKey KindPrivate 0.

(** * The store of waiters and entries *)

Inductive WaitState : Set := Running | Waiting.

#[global] Instance WaitState_eq_dec : EqDecision WaitState.
Proof. solve_decision. Defined.

Record WaiterInternal : Set := mkWaiter {
  bitmap : Z;
  w_mask : Z;
  idCnt : Z;
  w_state : WaitState;
  w_taskId : Z }.

Record ThreadContext : Set := mkTC {
  waiterID : Z;
  waiter : positive;
  tid : Z;
  key : Key }.

Inductive WaitContext : Set :=
| WC_None
| WC_Thread (c : ThreadContext).

Record EntryInternal : Set := mkEntry {
  next : option positive;
  prev : option positive;
  mask : Z;
  context : WaitContext }.

Record WaitList : Set := mkWaitList { head : option positive; tail : option positive }.

Definition WaitList_default : WaitList := mkWaitList None None.

Record Waits : Type := mkWaits {
  entries : gmap positive EntryInternal;
  waiters : gmap positive WaiterInternal;
  scheduled : list (Z * bool) }.

Definition get_entry (h : Waits) (e : positive) : outcome EntryInternal :=
  match entries h !! e with Some s => Ret s | None => Panic end.

Definition put_entry (h : Waits) (e : positive) (s : EntryInternal) : Waits :=
  mkWaits (<[e := s]> (entries h)) (waiters h) (scheduled h).

Definition get_waiter (h : Waits) (w : positive) : outcome WaiterInternal :=
  match waiters h !! w with Some b => Ret b | None => Panic end.

Definition put_waiter (h : Waits) (w : positive) (b : WaiterInternal) : Waits :=
  mkWaits (entries h) (<[w := b]> (waiters h)) (scheduled h).

(** [b.lock().next = n] and the like, on the store. *)
Definition set_next (n : option positive) (s : EntryInternal) : EntryInternal :=
  mkEntry n (prev s) (mask s) (context s).
Definition set_prev (p : option positive) (s : EntryInternal) : EntryInternal :=
  mkEntry (next s) p (mask s) (context s).
Definition upd_entry (h : Waits) (e : positive) (f : EntryInternal -> EntryInternal) : outcome Waits :=
  s ← get_entry h e; Ret (put_entry h e (f s)).

(** * Waiters *)

Abbreviation GENERAL_WAITID := 0 (only parsing).
Abbreviation INTERRUPT_WAITID := 1 (only parsing).
Abbreviation TIMER_WAITID := 2 (only parsing).

Definition Waiter_New (taskId : Z) : WaiterInternal := mkWaiter 0 0 0 Running taskId.

(** [1 << id] on [u64]: the shift amount is taken modulo the width. *)
Definition bit (id : Z) : Z := Z.shiftl 1 (id mod 64).

Definition trailing_zeros (z : Z) : Z := Z.log2 (Z.land z (- z)).

Definition Waiter_Trigger (h : Waits) (w : positive) (id : Z) : outcome Waits :=
  b ← get_waiter h w;
  if negb (id <=? TIMER_WAITID) then Panic
  else
    let bm := Z.lor (bitmap b) (bit id) in
    if bool_decide (w_state b = Waiting) && negb (Z.land bm (w_mask b) =? 0) then
      let h' := put_waiter h w (mkWaiter bm (w_mask b) (idCnt b) Running (w_taskId b)) in
      Ret (mkWaits (entries h') (waiters h') (scheduled h' ++ [(w_taskId b, negb (id =? TIMER_WAITID))]))
    else Ret (put_waiter h w (mkWaiter bm (w_mask b) (idCnt b) (w_state b) (w_taskId b))).

Definition Waiter_Check (b : WaiterInternal) (m : Z) : option Z :=
  let bm := Z.land (bitmap b) m in
  if 0 <? bm then Some (trailing_zeros bm) else None.

(** One turn of the loop of [Waiter::Wait]: the thread goes on with the number of an event
    that happened, or is set to wait and then gives up the processor. *)
Definition Waiter_Wait_turn (b : WaiterInternal) (m : Z) : WaiterInternal * option Z :=
  let bm := Z.land (bitmap b) m in
  if negb (bm =? 0)
  then (mkWaiter (bitmap b) (w_mask b) (idCnt b) Running (w_taskId b), Some (trailing_zeros bm))
  else (mkWaiter (bitmap b) m (idCnt b) Waiting (w_taskId b), None).

Definition Waiter_Clear (h : Waits) (w : positive) (id : Z) : outcome Waits :=
  b ← get_waiter h w;
  Ret (put_waiter h w (mkWaiter (Z.ldiff (bitmap b) (bit id)) (w_mask b) (idCnt b) (w_state b) (w_taskId b))).

(** * Wait entries *)

(** [WaitContext::ThreadContext], which panics on the other contexts. *)
Definition thread_context (s : EntryInternal) : outcome ThreadContext :=
  match context s with WC_Thread c => Ret c | WC_None => Panic end.

Definition NewThreadContext (w : positive) (waiterId m : Z) : EntryInternal :=
  mkEntry None None m (WC_Thread (mkTC waiterId w 0 Key_default)).

Definition set_mask (m : Z) (s : EntryInternal) : EntryInternal :=
  mkEntry (next s) (prev s) m (context s).

Definition SetMask (h : Waits) (e : positive) (m : Z) : outcome Waits := upd_entry h e (set_mask m).

Definition SetTid (h : Waits) (e : positive) (t : Z) : outcome Waits :=
  s ← get_entry h e; c ← thread_context s;
  Ret (put_entry h e (mkEntry (next s) (prev s) (mask s) (WC_Thread (mkTC (waiterID c) (waiter c) t (key c))))).

Definition SetKey (h : Waits) (e : positive) (k : Key) : outcome Waits :=
  s ← get_entry h e; c ← thread_context s;
  Ret (put_entry h e (mkEntry (next s) (prev s) (mask s) (WC_Thread (mkTC (waiterID c) (waiter c) (tid c) k)))).

Definition CallBack (h : Waits) (c : WaitContext) : outcome Waits :=
  match c with
  | WC_Thread t => Waiter_Trigger h (waiter t) (waiterID t)
  | WC_None => Ret h
  end.

Definition WaitEntry_Notify (h : Waits) (e : positive) (m : Z) : outcome (Waits * bool) :=
  s ← get_entry h e;
  if negb (Z.land m (mask s) =? 0) then (h' ← CallBack h (context s); Ret (h', true)) else Ret (h, false).

Definition WaitEntry_Clear (h : Waits) (e : positive) : outcome Waits :=
  s ← get_entry h e;
  match context s with
  | WC_Thread t => Waiter_Clear h (waiter t) (waiterID t)
  | WC_None => Ret h
  end.

Definition WaitEntry_Reset (h : Waits) (e : positive) : outcome Waits :=
  h ← upd_entry h e (set_prev None); upd_entry h e (set_next None).

Definition InitState (s : EntryInternal) : bool :=
  bool_decide (prev s = None) && bool_decide (next s = None).

(** [Waiter::IsReady] and [Waiter::TryWait]. *)
Definition IsReady (h : Waits) (w e : positive) : outcome bool :=
  s ← get_entry h e; c ← thread_context s; b ← get_waiter h w;
  Ret (negb (Z.land (bitmap b) (bit (waiterID c)) =? 0)).

Definition TryWait (h : Waits) (w e : positive) (clear : bool) : outcome (Waits * bool) :=
  s ← get_entry h e; c ← thread_context s; b ← get_waiter h w;
  if negb (Z.land (bitmap b) (bit (waiterID c)) =? 0) then
    if clear then
      Ret (put_waiter h w (mkWaiter (Z.ldiff (bitmap b) (bit (waiterID c))) (w_mask b) (idCnt b) (w_state b) (w_taskId b)), true)
    else Ret (h, true)
  else Ret (h, false).

(** * Wait lists *)

(** Enough turns to walk a list of distinct entries of the store. *)
Definition walk_fuel (h : Waits) : nat := S (size (entries h)).

Definition Empty (q : WaitList) : bool := bool_decide (head q = None).

Fixpoint Reset_loop (fuel : nat) (h : Waits) (cur : option positive) : outcome Waits :=
  match fuel with
  | O => OutOfFuel
  | S fuel =>
    match cur with
    | None => Ret h
    | Some tmp => s ← get_entry h tmp; h ← WaitEntry_Reset h tmp; Reset_loop fuel h (next s)
    end
  end.
Definition WaitList_Reset (h : Waits) (q : WaitList) : outcome (Waits * WaitList) :=
  h' ← Reset_loop (walk_fuel h) h (head q); Ret (h', WaitList_default).

Definition PushFront (h : Waits) (q : WaitList) (e : positive) : outcome (Waits * WaitList) :=
  s ← get_entry h e;
  if negb (InitState s) then Panic
  else
    match head q with
    | None => Ret (h, mkWaitList (Some e) (Some e))
    | Some hd =>
      h ← upd_entry h e (set_next (Some hd));
      h ← upd_entry h hd (set_prev (Some e));
      Ret (h, mkWaitList (Some e) (tail q))
    end.

Definition PushBack (h : Waits) (q : WaitList) (e : positive) : outcome (Waits * WaitList) :=
  s ← get_entry h e;
  if negb (InitState s) then Panic
  else
    match head q with
    | None => Ret (h, mkWaitList (Some e) (Some e))
    | Some _ =>
      match tail q with
      | None => Panic
      | Some tl =>
        h ← upd_entry h e (set_prev (Some tl));
        h ← upd_entry h tl (set_next (Some e));
        Ret (h, mkWaitList (head q) (Some e))
      end
    end.

(** [Remove] holds the lock of [e] throughout: a link of [e] to itself is a deadlock. *)
Definition WaitList_Remove (h : Waits) (q : WaitList) (e : positive) : outcome (Waits * WaitList) :=
  s ← get_entry h e;
  '(h, q) ← match prev s with
            | None => Ret (h, mkWaitList (next s) (tail q))
            | Some p => if bool_decide (p = e) then OutOfFuel else h ← upd_entry h p (set_next (next s)); Ret (h, q)
            end;
  '(h, q) ← match next s with
            | None => Ret (h, mkWaitList (head q) (prev s))
            | Some n => if bool_decide (n = e) then OutOfFuel else h ← upd_entry h n (set_prev (prev s)); Ret (h, q)
            end;
  h ← upd_entry h e (fun s => set_next None (set_prev None s));
  Ret (h, q).

Definition WakeWaiterLocked (h : Waits) (q : WaitList) (w : positive) (m : Z) : outcome (Waits * WaitList * bool) :=
  '(h, triggered) ← WaitEntry_Notify h w m;
  '(h, q) ← if triggered : bool then WaitList_Remove h q w else Ret (h, q);
  h ← SetKey h w Key_default;
  Ret (h, q, triggered).

Fixpoint WakeLocked_loop (fuel : nat) (h : Waits) (q : WaitList) (m n done : Z) (entry : option positive)
  : outcome (Waits * WaitList * Z) :=
  match fuel with
  | O => OutOfFuel
  | S fuel =>
    if done <? n then
      match entry with
      | None => Ret (h, q, done)
      | Some tmp =>
        s ← get_entry h tmp;
        '(h, q, b) ← WakeWaiterLocked h q tmp m;
        WakeLocked_loop fuel h q m n (if b : bool then done + 1 else done) (next s)
      end
    else Ret (h, q, done)
  end.
Definition WakeLocked (h : Waits) (q : WaitList) (m n : Z) : outcome (Waits * WaitList * Z) :=
  WakeLocked_loop (walk_fuel h) h q m n 0 (head q).

Fixpoint RequeueLocked_loop (fuel : nat) (h : Waits) (q to : WaitList) (nKey : Key) (n done : Z) (w : option positive)
  : outcome (Waits * WaitList * WaitList * Z) :=
  match fuel with
  | O => OutOfFuel
  | S fuel =>
    match w with
    | None => Ret (h, q, to, done)
    | Some tmp =>
      if done <? n then
        s ← get_entry h tmp;
        '(h, q) ← WaitList_Remove h q tmp;
        '(h, to) ← PushBack h to tmp;
        h ← SetKey h tmp nKey;
        RequeueLocked_loop fuel h q to nKey n (done + 1) (next s)
      else Ret (h, q, to, done)
    end
  end.
Definition RequeueLocked (h : Waits) (q to : WaitList) (nKey : Key) (n : Z) : outcome (Waits * WaitList * WaitList * Z) :=
  RequeueLocked_loop (walk_fuel h) h q to nKey n 0 (head q).

(** * Queues *)

Definition Queue_EventRegister (h : Waits) (q : WaitList) (e : positive) (m : Z) : outcome (Waits * WaitList) :=
  h ← SetMask h e m; PushBack h q e.

Definition Queue_EventUnregister (h : Waits) (q : WaitList) (e : positive) : outcome (Waits * WaitList) :=
  h ← WaitEntry_Clear h e; WaitList_Remove h q e.

Fixpoint Notify_loop (fuel : nat) (h : Waits) (m : Z) (entry : option positive) : outcome Waits :=
  match fuel with
  | O => OutOfFuel
  | S fuel =>
    match entry with
    | None => Ret h
    | Some tmp => '(h, _) ← WaitEntry_Notify h tmp m; s ← get_entry h tmp; Notify_loop fuel h m (next s)
    end
  end.
Definition Queue_Notify (h : Waits) (q : WaitList) (m : Z) : outcome Waits := Notify_loop (walk_fuel h) h m (head q).

Fixpoint Clear_loop (fuel : nat) (h : Waits) (entry : option positive) : outcome Waits :=
  match fuel with
  | O => OutOfFuel
  | S fuel =>
    match entry with
    | None => Ret h
    | Some tmp => h ← WaitEntry_Clear h tmp; s ← get_entry h tmp; Clear_loop fuel h (next s)
    end
  end.
Definition Queue_Clear (h : Waits) (q : WaitList) : outcome Waits := Clear_loop (walk_fuel h) h (head q).

Fixpoint Events_loop (fuel : nat) (h : Waits) (ret : Z) (entry : option positive) : outcome Z :=
  match fuel with
  | O => OutOfFuel
  | S fuel =>
    match entry with
    | None => Ret ret
    | Some tmp => s ← get_entry h tmp; Events_loop fuel h (Z.lor ret (mask s)) (next s)
    end
  end.
Definition Events (h : Waits) (q : WaitList) : outcome Z := Events_loop (walk_fuel h) h 0 (head q).
