(* ===== verification/WaitListThm.v ===== *)
(** Wait lists as lists of entries.

    [wl_rep h q l]: the links of the store and the two ends of [q] stand for the list [l].
    Each operation of [WaitList.v] is shown to be an operation on such lists, and [relinked]
    says what it leaves alone.  [waits_ok] is the typing of the store: every pointer is
    valid, and an entry's number is one of the three that [Trigger] accepts. *)
From S2P Require Import Prelude WaitList.

#[local] Open Scope Z_scope.

(** * Links *)

Definition links (h : Waits) (e : positive) : option (option positive * option positive) :=
  (fun s => (prev s, next s)) <$> entries h !! e.

Definition payload (h : Waits) (e : positive) : option (Z * WaitContext) :=
  (fun s => (mask s, context s)) <$> entries h !! e.

Definition first_or (l : list positive) (n : option positive) : option positive :=
  match l with [] => n | e :: _ => Some e end.

Definition last_or (p : option positive) (l : list positive) : option positive :=
  match last l with Some e => Some e | None => p end.

(** The entries of [l] are linked in order, between [p] and [n]. *)
Fixpoint seg (h : Waits) (p : option positive) (l : list positive) (n : option positive) : Prop :=
  match l with
  | [] => True
  | e :: l' => links h e = Some (p, first_or l' n) /\ seg h (Some e) l' n
  end.

Record wl_rep (h : Waits) (q : WaitList) (l : list positive) : Prop := {
  rep_head : head q = first_or l None;
  rep_tail : tail q = last_or None l;
  rep_seg : seg h None l None;
  rep_nodup : NoDup l }.

(** Only links of entries of [l] differ. *)
Record relinked (l : list positive) (h h' : Waits) : Prop := {
  rl_waiters : waiters h' = waiters h;
  rl_scheduled : scheduled h' = scheduled h;
  rl_frame : forall x, x ∉ l -> entries h' !! x = entries h !! x;
  rl_payload : forall x, payload h' x = payload h x }.

Definition unlinked (h : Waits) (e : positive) : Prop := links h e = Some (None, None).

Lemma first_or_app l1 l2 n : first_or (l1 ++ l2) n = first_or l1 (first_or l2 n).
Proof. by destruct l1. Qed.

Lemma last_or_snoc p l e : last_or p (l ++ [e]) = Some e.
Proof. unfold last_or. by rewrite last_snoc. Qed.

Lemma last_or_cons p e l : last_or p (e :: l) = last_or (Some e) l.
Proof. unfold last_or. destruct l as [| x l]; [done |]. rewrite last_cons_cons. by destruct (last (x :: l)) eqn:E; [| apply last_None in E]. Qed.

Lemma seg_app h p l1 l2 n :
  seg h p (l1 ++ l2) n <-> seg h p l1 (first_or l2 n) /\ seg h (last_or p l1) l2 n.
Proof.
  revert p. induction l1 as [| e l1 IH]; intros p; simpl; [naive_solver |].
  rewrite IH, first_or_app, last_or_cons. naive_solver.
Qed.

Lemma seg_ext h h' p l n : (forall e, e ∈ l -> links h' e = links h e) -> seg h p l n -> seg h' p l n.
Proof.
  revert p. induction l as [| e l IH]; intros p Hl; simpl; [done |]. intros [He Hs].
  split; [rewrite Hl by set_solver; done |]. apply IH; [set_solver | done].
Qed.

Lemma seg_links h p l n e : seg h p l n -> e ∈ l -> is_Some (entries h !! e).
Proof.
  revert p. induction l as [| x l IH]; intros p; simpl; [by intros _ ?%elem_of_nil |].
  intros [Hx Hs] [-> | He]%elem_of_cons; [| by eapply IH].
  unfold links in Hx. destruct (entries h !! x); [by eexists | done].
Qed.

(** Neighbours point at each other, and the ends at nothing. *)
Lemma seg_neighbours h l e p n :
  seg h None l None -> e ∈ l -> links h e = Some (p, n) ->
  (forall y, n = Some y -> exists n', links h y = Some (Some e, n')) /\
  (forall y, p = Some y -> exists p', links h y = Some (p', Some e)).
Proof.
  intros Hs (l1 & l2 & ->)%list_elem_of_split He. apply seg_app in Hs as (H1 & He' & H2). rewrite He' in He. simplify_eq. split.
  - intros y Hy. destruct l2 as [| y' l2]; simplify_eq/=. destruct H2 as [H2 _]. eauto.
  - intros y Hy. destruct l1 as [| y' l0 _] using rev_ind; [done |].
    rewrite last_or_snoc in Hy. simplify_eq. apply seg_app in H1 as (_ & H1 & _). eauto.
Qed.

(** Changing what follows the last entry, or what precedes the first. *)
Lemma seg_relast h h' p l t n n' :
  seg h p (l ++ [t]) n -> (forall e, e ∈ l -> links h' e = links h e) ->
  links h' t = Some (last_or p l, n') -> seg h' p (l ++ [t]) n'.
Proof.
  rewrite !seg_app. simpl. intros (Hl & _ & _) He Ht. split; [by eapply seg_ext |]. done.
Qed.

Lemma seg_refirst h h' p p' x l n :
  seg h p (x :: l) n -> (forall e, e ∈ l -> links h' e = links h e) ->
  links h' x = Some (p', first_or l n) -> seg h' p' (x :: l) n.
Proof. simpl. intros (_ & Hs) He Hx. split; [done | by eapply seg_ext]. Qed.

(** * Updates of the store *)

Lemma links_some h e p n : links h e = Some (p, n) -> exists s, entries h !! e = Some s /\ prev s = p /\ next s = n.
Proof. unfold links. destruct (entries h !! e) as [s |]; [| done]. intros [= <- <-]. by exists s. Qed.

Lemma upd_entry_ok h e s f : entries h !! e = Some s -> upd_entry h e f = Ret (put_entry h e (f s)).
Proof. intros E. unfold upd_entry, get_entry. by rewrite E. Qed.

Lemma get_entry_ok h e s : entries h !! e = Some s -> get_entry h e = Ret s.
Proof. intros E. unfold get_entry. by rewrite E. Qed.

Lemma links_put_eq h e s : links (put_entry h e s) e = Some (prev s, next s).
Proof. unfold links. simpl. by rewrite lookup_insert_eq. Qed.

Lemma links_put_ne h e s x : x <> e -> links (put_entry h e s) x = links h x.
Proof. intros N. unfold links. simpl. by rewrite lookup_insert_ne by done. Qed.

Lemma entries_put_eq h e s : entries (put_entry h e s) !! e = Some s.
Proof. simpl. by rewrite lookup_insert_eq. Qed.

Lemma entries_put_ne h e s x : x <> e -> entries (put_entry h e s) !! x = entries h !! x.
Proof. intros N. simpl. by rewrite lookup_insert_ne by done. Qed.

Lemma relinked_refl l h : relinked l h h.
Proof. by split. Qed.

Lemma relinked_trans l h1 h2 h3 : relinked l h1 h2 -> relinked l h2 h3 -> relinked l h1 h3.
Proof.
  intros [W1 S1 F1 P1] [W2 S2 F2 P2].
  split; [congruence | congruence | intros; rewrite F2, F1; done | intros; rewrite P2; done].
Qed.

Lemma relinked_mono l l' h h' : l ⊆ l' -> relinked l h h' -> relinked l' h h'.
Proof. intros Hl [W S F P]. split; auto. Qed.

Lemma relinked_put l h e s s' :
  entries h !! e = Some s -> e ∈ l -> mask s' = mask s -> context s' = context s -> relinked l h (put_entry h e s').
Proof.
  intros E He Hm Hc. split; [done | done | |].
  - intros x Hx. apply entries_put_ne. by intros ->.
  - intros x. unfold payload. destruct (decide (x = e)) as [-> | N].
    + rewrite entries_put_eq, E. simpl. congruence.
    + by rewrite entries_put_ne by done.
Qed.

Lemma relinked_links l h h' x : relinked l h h' -> x ∉ l -> links h' x = links h x.
Proof. intros R Hx. unfold links. by rewrite (rl_frame _ _ _ R). Qed.

(** A list that shares no entry with the changed one is still there. *)
Lemma wl_rep_frame h h' q l l' : wl_rep h q l -> relinked l' h h' -> l ## l' -> wl_rep h' q l.
Proof.
  intros [Hh Ht Hs Hn] R Hd. split; [done | done | | done].
  eapply seg_ext; [| exact Hs]. intros e He. eapply relinked_links; [exact R |]. set_solver.
Qed.

Lemma wl_rep_empty h : wl_rep h WaitList_default [].
Proof. split; [done | done | done | constructor]. Qed.

Lemma wl_rep_length h q l : wl_rep h q l -> (length l < walk_fuel h)%nat.
Proof.
  intros [_ _ Hs Hn]. unfold walk_fuel. rewrite <- (size_dom (entries h)), <- (size_list_to_set (C := gset positive) l) by done.
  apply Nat.lt_succ_r, subseteq_size. intros e He%elem_of_list_to_set. apply elem_of_dom. by eapply seg_links.
Qed.

(** * Pushing and removing *)

Lemma NoDup_snoc {A} (l : list A) x : NoDup l -> x ∉ l -> NoDup (l ++ [x]).
Proof. intros Hl Hx. apply NoDup_app. split; [done |]. split; [set_solver | apply NoDup_singleton]. Qed.

Lemma wl_rep_init h e q : wl_rep h q [e] <-> head q = Some e /\ tail q = Some e /\ unlinked h e.
Proof.
  split; [by intros [Hh Ht [Hs _] _] |]. intros (Hh & Ht & Hu). split; [done | done | done | apply NoDup_singleton].
Qed.

Lemma unlinked_init h e : unlinked h e -> exists s, entries h !! e = Some s /\ InitState s = true.
Proof. intros (s & E & P & N)%links_some. exists s. split; [done |]. unfold InitState. by rewrite P, N. Qed.

Lemma PushBack_rep h q l e :
  wl_rep h q l -> e ∉ l -> unlinked h e ->
  returns (PushBack h q e) (fun '(h', q') => wl_rep h' q' (l ++ [e]) /\ relinked (e :: l) h h').
Proof.
  intros [Hh Ht Hs Hn] He Hu. destruct (unlinked_init h e Hu) as (s & E & Hi). destruct (links_some _ _ _ _ Hu) as (s' & E' & Pe & Ne).
  rewrite E in E'. injection E' as <-.
  unfold PushBack. rewrite (get_entry_ok _ _ _ E), bind_ret, Hi. cbn [negb].
  destruct l as [| t l _] using rev_ind.
  { simpl in Hh. rewrite Hh. apply returns_ret. split; [by apply wl_rep_init | apply relinked_refl]. }
  rewrite last_or_snoc in Ht. rewrite Hh, Ht. destruct (first_or (l ++ [t]) None) as [hd |] eqn:Eh; [| by destruct l].
  assert (Nt : t <> e) by set_solver.
  destruct (seg_links h None (l ++ [t]) None t Hs ltac:(set_solver)) as [st Et].
  pose proof Hs as Hs0. rewrite seg_app in Hs0. destruct Hs0 as (_ & Hlt & _).
  rewrite (upd_entry_ok _ _ _ _ E), bind_ret.
  rewrite (upd_entry_ok _ t st _ ltac:(by rewrite entries_put_ne)), bind_ret. apply returns_ret. split.
  - split; [by destruct l; simplify_eq/= | by rewrite last_or_snoc | | apply NoDup_snoc; done].
    + rewrite seg_app. split.
      * eapply seg_relast; [exact Hs | |].
        -- intros x Hx. apply NoDup_app in Hn as (_ & Hd & _).
           rewrite !links_put_ne by (intros ->; set_solver). done.
        -- rewrite links_put_eq. destruct (links_some _ _ _ _ Hlt) as (st' & Et' & Pt & Nt'). simplify_eq. simpl. by rewrite Pt.
      * rewrite last_or_snoc. split; [| done]. rewrite links_put_ne, links_put_eq by done. simpl. by rewrite Ne.
  - apply (relinked_trans _ _ (put_entry h e (set_prev (Some t) s))); [eapply (relinked_put _ _ _ _ _ E); [set_solver | done | done] |].
    eapply relinked_put; [by rewrite entries_put_ne | set_solver | done | done].
Qed.

Lemma PushFront_rep h q l e :
  wl_rep h q l -> e ∉ l -> unlinked h e ->
  returns (PushFront h q e) (fun '(h', q') => wl_rep h' q' (e :: l) /\ relinked (e :: l) h h').
Proof.
  intros [Hh Ht Hs Hn] He Hu. destruct (unlinked_init h e Hu) as (s & E & Hi). destruct (links_some _ _ _ _ Hu) as (s' & E' & Pe & Ne).
  rewrite E in E'. injection E' as <-.
  unfold PushFront. rewrite (get_entry_ok _ _ _ E), bind_ret, Hi. cbn [negb].
  destruct l as [| hd l].
  { simpl in Hh. rewrite Hh. apply returns_ret. split; [by apply wl_rep_init | apply relinked_refl]. }
  simpl in Hh. rewrite Hh. assert (Nt : hd <> e) by set_solver.
  pose proof Hs as [Hl _]. destruct (links_some _ _ _ _ Hl) as (st & Et & Pt & Nxt).
  rewrite (upd_entry_ok _ _ _ _ E), bind_ret.
  rewrite (upd_entry_ok _ hd st _ ltac:(by rewrite entries_put_ne)), bind_ret. apply returns_ret. split.
  - split; [done | by simpl; rewrite Ht, !last_or_cons | | by constructor].
    split; [rewrite links_put_ne, links_put_eq by done; simpl; by rewrite Pe |].
    eapply (seg_refirst h); [exact Hs | |].
    + intros x Hx. apply NoDup_cons in Hn as [Hn _]. rewrite !links_put_ne by (intros ->; set_solver). done.
    + rewrite links_put_eq. simpl. by rewrite Nxt.
  - apply (relinked_trans _ _ (put_entry h e (set_next (Some hd) s))); [eapply (relinked_put _ _ _ _ _ E); [set_solver | done | done] |].
    eapply relinked_put; [by rewrite entries_put_ne | set_solver | done | done].
Qed.

(** The two halves of [Remove]: the part of the list before [e], and the part after. *)
Lemma Remove_before h q l e n :
  seg h None l (Some e) -> NoDup l -> e ∉ l -> head q = first_or l (Some e) ->
  returns (match last_or None l with
           | None => Ret (h, mkWaitList n (tail q))
           | Some p => if bool_decide (p = e) then OutOfFuel else h ← upd_entry h p (set_next n); Ret (h, q)
           end)
    (fun '(h', q') => relinked l h h' /\ seg h' None l n /\ head q' = first_or l n /\ tail q' = tail q).
Proof.
  intros Hs Hn He Hh. destruct l as [| t l _] using rev_ind.
  { apply returns_ret. split; [apply relinked_refl | done]. }
  rewrite last_or_snoc, bool_decide_eq_false_2 by set_solver.
  pose proof Hs as (_ & Hlt & _)%seg_app. destruct (links_some _ _ _ _ Hlt) as (st & Et & Pt & _).
  rewrite (upd_entry_ok _ _ _ _ Et), bind_ret. apply returns_ret.
  split; [eapply relinked_put; [done | set_solver | done | done] |].
  split; [| split; [by rewrite Hh; destruct l | done]]. eapply seg_relast; [exact Hs | |].
  - intros x Hx. apply links_put_ne. apply NoDup_app in Hn as (_ & Hd & _). intros ->. set_solver.
  - rewrite links_put_eq. simpl. by rewrite Pt.
Qed.

Lemma Remove_after h q l e p :
  seg h (Some e) l None -> NoDup l -> e ∉ l -> tail q = last_or (Some e) l ->
  returns (match first_or l None with
           | None => Ret (h, mkWaitList (head q) p)
           | Some n => if bool_decide (n = e) then OutOfFuel else h ← upd_entry h n (set_prev p); Ret (h, q)
           end)
    (fun '(h', q') => relinked l h h' /\ seg h' p l None /\ head q' = head q /\ tail q' = last_or p l).
Proof.
  intros Hs Hn He Ht. destruct l as [| x l].
  { apply returns_ret. split; [apply relinked_refl | done]. }
  cbn [first_or]. rewrite bool_decide_eq_false_2 by set_solver.
  pose proof Hs as (Hl & _). destruct (links_some _ _ _ _ Hl) as (st & Et & _ & Nx).
  rewrite (upd_entry_ok _ _ _ _ Et), bind_ret. apply returns_ret.
  split; [eapply relinked_put; [done | set_solver | done | done] |].
  split; [| split; [done | by rewrite Ht, !last_or_cons]]. eapply seg_refirst; [exact Hs | |].
  - intros y Hy. apply links_put_ne. apply NoDup_cons in Hn as [Hn _]. intros ->. set_solver.
  - rewrite links_put_eq. simpl. by rewrite Nx.
Qed.

Lemma Remove_wl_rep h q l1 e l2 :
  wl_rep h q (l1 ++ e :: l2) ->
  returns (WaitList_Remove h q e)
    (fun '(h', q') => wl_rep h' q' (l1 ++ l2) /\ relinked (l1 ++ e :: l2) h h' /\ unlinked h' e).
Proof.
  intros [Hh Ht Hs Hn]. pose proof Hs as (Hs1 & [He Hs2])%seg_app. destruct (links_some _ _ _ _ He) as (s & E & Pe & Ne).
  apply NoDup_app in Hn as (Hn1 & Hd & [He2 Hn2]%NoDup_cons).
  assert (He1 : e ∉ l1) by set_solver.
  unfold WaitList_Remove. rewrite (get_entry_ok _ _ _ E), bind_ret, Pe, Ne. rewrite first_or_app in Hh.
  assert (Ht2 : tail q = last_or (Some e) l2).
  { rewrite Ht. unfold last_or. rewrite last_app, last_cons. by destruct (last l2). }
  eapply returns_bind; [by apply Remove_before |]. intros [h1 q1] (R1 & Hs1' & Hh1 & Ht1). simpl.
  assert (Hs2' : seg h1 (Some e) l2 None).
  { eapply seg_ext; [| exact Hs2]. intros x Hx. eapply relinked_links; [exact R1 |]. intros Hx'. set_solver. }
  eapply returns_bind; [apply (Remove_after h1 q1 l2 e (last_or None l1)); [done | done | done | congruence] |].
  intros [h2 q2] (R2 & Hs2'' & Hh2 & Ht2'). simpl.
  assert (E2 : entries h2 !! e = Some s) by (rewrite (rl_frame _ _ _ R2), (rl_frame _ _ _ R1); done).
  rewrite (upd_entry_ok _ _ _ _ E2), bind_ret. apply returns_ret. split_and!.
  - split; [by rewrite Hh2, Hh1, first_or_app | by rewrite Ht2'; unfold last_or; rewrite last_app; destruct (last l2) | |].
    + rewrite seg_app. split; (eapply seg_ext; [| eassumption || exact Hs1']); intros x Hx;
        rewrite links_put_ne by (intros ->; set_solver); [| done].
      eapply relinked_links; [exact R2 |]. intros Hx'. set_solver.
    + apply NoDup_app. set_solver.
  - eapply relinked_trans; [eapply relinked_mono; [| exact R1]; set_solver |].
    eapply relinked_trans; [eapply relinked_mono; [| exact R2]; set_solver |].
    eapply relinked_put; [done | set_solver | done | done].
  - unfold unlinked. by rewrite links_put_eq.
Qed.
