(* ===== verification/WaitListOps.v ===== *)
(** What waking, requeueing, notifying and resetting do to the lists of [WaitListThm.v].

    [effect l K k L h h'] is the frame of these operations: only entries of [l] change, the
    entries of [K] get the key [k], and the events [L] (a waiter and a number) happen.
    [rings] says what an event does: its bit is set, and a thread that sleeps with the bit
    in its mask runs and is handed to the scheduler. *)
From S2P Require Import Prelude WaitList WaitListThm.

#[local] Open Scope Z_scope.

(** * Typing of the store *)

(** Every thread's entry has a waiter of the store, and its number is one that [Trigger]
    accepts. *)
Definition waits_ok (h : Waits) : Prop :=
  forall e s c, entries h !! e = Some s -> context s = WC_Thread c ->
    is_Some (waiters h !! waiter c) /\ 0 <= waiterID c <= TIMER_WAITID.

(** The thread context of an entry, and where its event goes. *)
Definition ctx (h : Waits) (e : positive) : option ThreadContext :=
  s ← entries h !! e; match context s with WC_Thread c => Some c | WC_None => None end.

Definition slot (h : Waits) (e : positive) : option (positive * Z) :=
  (fun c => (waiter c, waiterID c)) <$> ctx h e.

Definition entry_key (h : Waits) (e : positive) : option Key := key <$> ctx h e.

Definition ready (h : Waits) (w : positive) (id : Z) : bool :=
  match waiters h !! w with Some b => Z.testbit (bitmap b) id | None => false end.

(** An entry answers to [m] when its mask and [m] have a bit in common. *)
Definition answers (h : Waits) (m : Z) (e : positive) : bool :=
  match entries h !! e with Some s => negb (Z.land m (mask s) =? 0) | None => false end.

(** * Events *)

Definition asleep (b : WaiterInternal) : Prop := w_state b = Waiting.

(** The events [L] happen and the tasks of [new] are scheduled. *)
Record rang (L : list (positive * Z)) (new : list (Z * bool)) (h h' : Waits) : Prop := {
  rg_ready : forall w id, 0 <= id -> is_Some (waiters h !! w) ->
    ready h' w id = ready h w id || bool_decide ((w, id) ∈ L);
  rg_scheduled : scheduled h' = scheduled h ++ new;
  rg_waiter : forall w b, waiters h !! w = Some b -> exists b', waiters h' !! w = Some b' /\
    w_mask b' = w_mask b /\ w_taskId b' = w_taskId b /\
    (w_state b' = w_state b \/ (asleep b /\ w_state b' = Running /\ w_taskId b ∈ new.*1)) /\
    (asleep b -> (exists id, (w, id) ∈ L /\ Z.testbit (w_mask b) id = true) -> w_state b' = Running) }.

Definition rings (L : list (positive * Z)) (h h' : Waits) : Prop := exists new, rang L new h h'.

Lemma rings_refl h h' : waiters h' = waiters h -> scheduled h' = scheduled h -> rings [] h h'.
Proof.
  intros Ew Es. exists []. split.
  - intros w id _ _. unfold ready. by rewrite Ew, orb_false_r.
  - by rewrite Es, app_nil_r.
  - intros w b Hb. exists b. rewrite Ew. split_and!; [done | done | done | by left |]. by intros _ (id & ?%elem_of_nil & _).
Qed.

Lemma rings_trans L1 L2 h1 h2 h3 : rings L1 h1 h2 -> rings L2 h2 h3 -> rings (L1 ++ L2) h1 h3.
Proof.
  intros [n1 [R1 S1 W1]] [n2 [R2 S2 W2]]. exists (n1 ++ n2). split.
  - intros w id Hid Hw. destruct Hw as [b Hb]. destruct (W1 w b Hb) as (b' & Hb' & _).
    rewrite R2, R1 by eauto. rewrite <- orb_assoc. f_equal. apply eq_true_iff_eq.
    rewrite orb_true_iff, !bool_decide_eq_true, elem_of_app. done.
  - by rewrite S2, S1, app_assoc.
  - intros w b Hb. destruct (W1 w b Hb) as (b1 & Hb1 & M1 & T1 & C1 & D1).
    destruct (W2 w b1 Hb1) as (b2 & Hb2 & M2 & T2 & C2 & D2). exists b2. unfold asleep in *. rewrite fmap_app.
    split_and!; [done | congruence | congruence | |].
    + destruct C1 as [C1 | (C1 & C1' & C1'')], C2 as [C2 | (C2 & C2' & C2'')]; [left; congruence | right | right | congruence].
      * split_and!; [congruence | done | rewrite elem_of_app; right; congruence].
      * split_and!; [done | congruence | rewrite elem_of_app; by left].
    + intros Ha (id & [Hi | Hi]%elem_of_app & Ht).
      * assert (w_state b1 = Running) by eauto. destruct C2 as [C2 | (_ & C2 & _)]; congruence.
      * destruct C1 as [C1 | (C1 & C1' & C1'')].
        -- apply D2; [congruence |]. exists id. split; [done | congruence].
        -- destruct C2 as [C2 | (_ & C2 & _)]; congruence.
Qed.

Lemma testbit_bit id i : 0 <= id < 64 -> 0 <= i -> Z.testbit (bit id) i = bool_decide (i = id).
Proof.
  intros Hid Hi. unfold bit. rewrite Z.mod_small by done. rewrite Z.shiftl_1_l, Z.pow2_bits_eqb by lia.
  apply eq_true_iff_eq. rewrite Z.eqb_eq, bool_decide_eq_true. naive_solver.
Qed.

Lemma land_bit_nonzero a m id : 0 <= id -> Z.testbit a id = true -> Z.testbit m id = true -> Z.land a m <> 0.
Proof. intros Hid Ha Hm E. assert (F : Z.testbit (Z.land a m) id = false) by (rewrite E; apply Z.bits_0). rewrite Z.land_spec, Ha, Hm in F. done. Qed.

Lemma Trigger_rings h w b id :
  waiters h !! w = Some b -> 0 <= id <= TIMER_WAITID ->
  returns (Waiter_Trigger h w id) (fun h' => entries h' = entries h /\ rings [(w, id)] h h').
Proof.
  intros Hb Hid. unfold Waiter_Trigger, get_waiter. rewrite Hb, bind_ret. rewrite (proj2 (Z.leb_le _ _)) by lia. cbn [negb].
  set (bm := Z.lor (bitmap b) (bit id)).
  assert (Hr : forall h' st w' id', 0 <= id' -> is_Some (waiters h !! w') ->
    waiters h' = <[w := mkWaiter bm (w_mask b) (idCnt b) st (w_taskId b)]> (waiters h) ->
    ready h' w' id' = ready h w' id' || bool_decide ((w', id') ∈ [(w, id)])).
  { intros h' st w' id' Hid' _ E. unfold ready. rewrite E. destruct (decide (w' = w)) as [-> | N].
    - rewrite lookup_insert_eq, Hb. simpl. unfold bm. rewrite Z.lor_spec, testbit_bit by lia. f_equal.
      apply bool_decide_ext. set_solver.
    - rewrite lookup_insert_ne by done. rewrite (bool_decide_eq_false_2 (_ ∈ _)) by set_solver. by rewrite orb_false_r. }
  destruct (bool_decide (w_state b = Waiting) && negb (Z.land bm (w_mask b) =? 0)) eqn:Ec; apply returns_ret.
  - apply andb_prop in Ec as [Ec1%bool_decide_eq_true Ec2]. split; [done |]. eexists. split; [by eauto | done |].
    intros w' b' Hb'. simpl. destruct (decide (w' = w)) as [-> | N].
    + rewrite lookup_insert_eq. rewrite Hb in Hb'. injection Hb' as <-. eexists.
      split_and!; [done | done | done | right; split_and!; [done | done | set_solver] | done].
    + rewrite lookup_insert_ne by done. exists b'. split_and!; [done | done | done | by left |].
      intros _ (i & Hi & _). set_solver.
  - split; [done |]. exists []. split; [by eauto | by simpl; rewrite app_nil_r |].
    intros w' b' Hb'. simpl. destruct (decide (w' = w)) as [-> | N].
    + rewrite lookup_insert_eq. rewrite Hb in Hb'. injection Hb' as <-. eexists.
      split_and!; [done | done | done | by left |]. intros Ha (i & Hi%list_elem_of_singleton & Ht). simplify_eq.
      exfalso. apply andb_false_iff in Ec as [Ec%bool_decide_eq_false | Ec]; [done |].
      apply negb_false_iff, Z.eqb_eq in Ec. revert Ec. apply (land_bit_nonzero _ _ id); [lia | | done].
      unfold bm. rewrite Z.lor_spec, testbit_bit by lia. by rewrite bool_decide_eq_true_2, orb_true_r.
    + rewrite lookup_insert_ne by done. exists b'. split_and!; [done | done | done | by left |].
      intros _ (i & Hi & _). set_solver.
Qed.

(** * The frame of an operation *)

Definition rekey (k : Key) (p : Z * WaitContext) : Z * WaitContext :=
  match p.2 with
  | WC_Thread c => (p.1, WC_Thread (mkTC (waiterID c) (waiter c) (tid c) k))
  | WC_None => p
  end.

Record effect (l K : list positive) (k : Key) (L : list (positive * Z)) (h h' : Waits) : Prop := {
  ef_frame : forall x, x ∉ l -> entries h' !! x = entries h !! x;
  ef_payload : forall x, payload h' x = (if decide (x ∈ K) then rekey k else id) <$> payload h x;
  ef_rings : rings L h h' }.

Lemma rekey_idem k p : rekey k (rekey k p) = rekey k p.
Proof. destruct p as [m [| c]]; done. Qed.

Lemma effect_relinked l k h h' : relinked l h h' -> effect l [] k [] h h'.
Proof.
  intros [W S F P]. split; [done | | by apply rings_refl]. intros x. rewrite decide_False by set_solver.
  by rewrite P, option_fmap_id.
Qed.

Lemma effect_trans l K1 K2 k L1 L2 h1 h2 h3 :
  effect l K1 k L1 h1 h2 -> effect l K2 k L2 h2 h3 -> effect l (K1 ++ K2) k (L1 ++ L2) h1 h3.
Proof.
  intros [F1 P1 R1] [F2 P2 R2]. split; [intros x Hx; rewrite F2, F1; done | | by eapply rings_trans].
  intros x. clear R1 R2 F1 F2. rewrite P2, P1, <- option_fmap_compose. apply option_fmap_ext. intros p. simpl.
  destruct (decide (x ∈ K1)), (decide (x ∈ K2)), (decide (x ∈ K1 ++ K2)) as [H | H];
    rewrite elem_of_app in H; try (exfalso; tauto); try done.
  apply rekey_idem.
Qed.

Lemma effect_mono l l' K k L h h' : l ⊆ l' -> effect l K k L h h' -> effect l' K k L h h'.
Proof. intros Hl [F P R]. split; auto. Qed.

Lemma effect_frame_rep l K k L h h' q l' : effect l K k L h h' -> wl_rep h q l' -> l' ## l -> wl_rep h' q l'.
Proof.
  intros [F P R] [Hh Ht Hs Hn] Hd. split; [done | done | | done].
  eapply seg_ext; [| exact Hs]. intros e He. unfold links. rewrite F; [done | set_solver].
Qed.

(** What an effect does to the contexts of the entries. *)
Lemma payload_ctx h e : ctx h e = p ← payload h e; match p.2 with WC_Thread c => Some c | WC_None => None end.
Proof. unfold ctx, payload. by destruct (entries h !! e). Qed.

Lemma effect_ctx l K k L h h' e c :
  effect l K k L h h' -> ctx h e = Some c ->
  ctx h' e = Some (if decide (e ∈ K) then mkTC (waiterID c) (waiter c) (tid c) k else c).
Proof.
  intros [_ P _]. rewrite !payload_ctx, P. destruct (payload h e) as [[m [| c']] |]; simpl; [done | | done].
  intros [= ->]. by destruct (decide (e ∈ K)).
Qed.

Lemma effect_ctx_inv l K k L h h' e c' :
  effect l K k L h h' -> ctx h' e = Some c' ->
  exists c, ctx h e = Some c /\ waiterID c' = waiterID c /\ waiter c' = waiter c /\ tid c' = tid c.
Proof.
  intros Ef. rewrite !payload_ctx, (ef_payload _ _ _ _ _ _ Ef).
  destruct (payload h e) as [[m [| c]] |]; simpl; [by case_decide | | done].
  destruct (decide (e ∈ K)); simpl; intros [= <-]; by exists c.
Qed.

Lemma effect_slot l K k L h h' e : effect l K k L h h' -> slot h' e = slot h e.
Proof.
  intros Ef. unfold slot. destruct (ctx h e) as [c |] eqn:E.
  - rewrite (effect_ctx _ _ _ _ _ _ _ _ Ef E). by case_decide.
  - destruct (ctx h' e) as [c' |] eqn:E'; [| done]. destruct (effect_ctx_inv _ _ _ _ _ _ _ _ Ef E') as (c & ? & _). congruence.
Qed.

Lemma effect_answers l K k L h h' m e : effect l K k L h h' -> answers h' m e = answers h m e.
Proof.
  intros [_ P _]. specialize (P e). unfold answers, payload in *.
  destruct (entries h !! e) as [s |], (entries h' !! e) as [s' |]; simpl in P; try done; try (by case_decide).
  assert (E : mask s' = mask s) by (case_decide; unfold rekey in P; simpl in P; [destruct (context s) |]; congruence).
  by rewrite E.
Qed.

Lemma effect_is_Some l K k L h h' e : effect l K k L h h' -> is_Some (entries h' !! e) <-> is_Some (entries h !! e).
Proof.
  intros [_ P _]. specialize (P e). unfold payload in P. destruct (entries h !! e), (entries h' !! e); simpl in P; try done; by case_decide.
Qed.

Lemma waits_ok_ctx h e c : waits_ok h -> ctx h e = Some c -> is_Some (waiters h !! waiter c) /\ 0 <= waiterID c <= TIMER_WAITID.
Proof.
  intros Ho. unfold ctx. destruct (entries h !! e) as [s |] eqn:E; [| done]. simpl.
  destruct (context s) eqn:Ec; [done |]. intros [= <-]. by eapply Ho.
Qed.

Lemma effect_ok l K k L h h' : effect l K k L h h' -> waits_ok h -> waits_ok h'.
Proof.
  intros Ef Ho e s' c' E' Ec'. assert (Hc : ctx h' e = Some c') by (unfold ctx; rewrite E'; simpl; by rewrite Ec').
  destruct (effect_ctx_inv _ _ _ _ _ _ _ _ Ef Hc) as (c & Hc0 & -> & -> & _).
  destruct (waits_ok_ctx _ _ _ Ho Hc0) as [[b Hb] Hid]. split; [| done].
  destruct (ef_rings _ _ _ _ _ _ Ef) as [new [_ _ W]]. destruct (W _ _ Hb) as (b' & ? & _). by exists b'.
Qed.

Lemma effect_K l K K' k L h h' : (forall x, x ∈ K <-> x ∈ K') -> effect l K k L h h' -> effect l K' k L h h'.
Proof.
  intros HK [F P R]. split; [done | | done]. intros x. rewrite P. by rewrite (decide_ext (x ∈ K) (x ∈ K')) by apply HK.
Qed.

Lemma effect_seq l K1 K2 K k L1 L2 L h1 h2 h3 :
  effect l K1 k L1 h1 h2 -> effect l K2 k L2 h2 h3 ->
  (forall x, x ∈ K <-> x ∈ K1 \/ x ∈ K2) -> L = L1 ++ L2 -> effect l K k L h1 h3.
Proof.
  intros E1 E2 HK ->. apply (effect_K _ (K1 ++ K2)); [intros x; rewrite HK; apply elem_of_app |].
  by eapply effect_trans.
Qed.

(** * Waking *)

Lemma SetKey_effect h e c k :
  ctx h e = Some c ->
  returns (SetKey h e k) (fun h' => effect [e] [e] k [] h h' /\ forall x, links h' x = links h x).
Proof.
  unfold ctx, SetKey, get_entry, thread_context. destruct (entries h !! e) as [s |] eqn:E; [| done]. simpl.
  destruct (context s) as [| c'] eqn:Ec; [done |]. intros [= ->]. simpl. apply returns_ret. split.
  - split; [intros x Hx; apply entries_put_ne; set_solver | | by apply rings_refl].
    intros x. unfold payload. destruct (decide (x ∈ [e])) as [->%list_elem_of_singleton | N].
    + rewrite entries_put_eq, E. simpl. unfold rekey. simpl. by rewrite Ec.
    + rewrite entries_put_ne by set_solver. by rewrite option_fmap_id.
  - intros x. destruct (decide (x = e)) as [-> | N]; [| by apply links_put_ne].
    rewrite links_put_eq. unfold links. by rewrite E.
Qed.

Lemma wl_rep_links h h' q l : (forall x, links h' x = links h x) -> wl_rep h q l -> wl_rep h' q l.
Proof. intros Hl [Hh Ht Hs Hn]. split; [done | done | eapply seg_ext; [| exact Hs]; auto | done]. Qed.

Lemma Notify_effect h e c m :
  waits_ok h -> ctx h e = Some c ->
  returns (WaitEntry_Notify h e m) (fun '(h', b) => b = answers h m e /\ (forall x, entries h' !! x = entries h !! x) /\
    rings (if b : bool then [(waiter c, waiterID c)] else []) h h').
Proof.
  intros Ho Hc. pose proof (waits_ok_ctx _ _ _ Ho Hc) as [[b Hb] Hid].
  revert Hc. unfold ctx, WaitEntry_Notify, answers, get_entry. destruct (entries h !! e) as [s |] eqn:E; [| done]. simpl.
  destruct (context s) as [| c'] eqn:Ec; [done |]. intros [= ->].
  destruct (Z.land m (mask s) =? 0); cbn [negb].
  { apply returns_ret. split_and!; [done | done | by apply rings_refl]. }
  simpl. eapply returns_bind; [by apply (Trigger_rings h (waiter c) b) |]. intros h' [He Hr]. apply returns_ret.
  split_and!; [done | by rewrite He | done].
Qed.

Lemma rings_effect l k L h h' : (forall x, entries h' !! x = entries h !! x) -> rings L h h' -> effect l [] k L h h'.
Proof.
  intros He Hr. split; [auto | | done]. intros x. rewrite decide_False by set_solver. unfold payload.
  by rewrite He, option_fmap_id.
Qed.

Lemma WakeWaiterLocked_rep h q l1 e l2 m c :
  wl_rep h q (l1 ++ e :: l2) -> waits_ok h -> ctx h e = Some c ->
  returns (WakeWaiterLocked h q e m) (fun '(h', q', b) => b = answers h m e /\
    wl_rep h' q' (l1 ++ if b : bool then l2 else e :: l2) /\ (b = true -> unlinked h' e) /\
    effect (l1 ++ e :: l2) [e] Key_default (if b : bool then [(waiter c, waiterID c)] else []) h h').
Proof.
  intros Hr Ho Hc. unfold WakeWaiterLocked. eapply returns_bind; [by apply (Notify_effect h e c m) |].
  intros [h1 b] (Hb & He & Hg). simpl. pose proof (rings_effect (l1 ++ e :: l2) Key_default _ _ _ He Hg) as Ef1.
  assert (Hl : forall x, links h1 x = links h x) by (intros x; unfold links; by rewrite He).
  pose proof (wl_rep_links _ _ _ _ Hl Hr) as Hr1.
  assert (Hc1 : ctx h1 e = Some c) by (unfold ctx; by rewrite He).
  set (P := fun '(h2, q2) => wl_rep h2 q2 (l1 ++ if b : bool then l2 else e :: l2) /\ (b = true -> unlinked h2 e) /\
    effect (l1 ++ e :: l2) [] Key_default [] h1 h2).
  apply (returns_bind _ _ P); unfold P.
  { destruct b.
    - eapply returns_mono; [by apply Remove_wl_rep |]. intros [h2 q2] (Hr2 & R2 & U2). split_and!; [done | done |].
      by apply effect_relinked.
    - apply returns_ret. split_and!; [done | done |]. by apply effect_relinked, relinked_refl. }
  intros [h2 q2] (Hr2 & U2 & Ef2). pose proof (effect_ctx _ _ _ _ _ _ _ _ Ef2 Hc1) as Hc2. simpl.
  eapply returns_bind; [by eapply SetKey_effect |]. intros h3 (Ef3 & Hl3). apply returns_ret. split_and!; [done | | |].
  - by apply (wl_rep_links h2).
  - intros Ht. unfold unlinked. rewrite Hl3. by apply U2.
  - apply (effect_seq _ [] [e] _ _ _ [] _ _ _ _ Ef1); [| set_solver | by rewrite app_nil_r].
    apply (effect_seq _ [] [e] _ _ [] [] _ _ _ _ Ef2); [eapply effect_mono; [| exact Ef3]; set_solver | set_solver | done].
Qed.

(** The reference for [WakeLocked]: of the list, the entries woken, those passed over and
    those not looked at. *)
Fixpoint wake_walk (f : positive -> bool) (n : nat) (l : list positive) : list positive * list positive * list positive :=
  match n, l with
  | O, _ => ([], [], l)
  | _, [] => ([], [], [])
  | S n', e :: l' =>
    if f e then let '(wk, sk, rest) := wake_walk f n' l' in (e :: wk, sk, rest)
    else let '(wk, sk, rest) := wake_walk f n l' in (wk, e :: sk, rest)
  end.

Lemma wake_walk_ext f g n l : (forall e, e ∈ l -> f e = g e) -> wake_walk f n l = wake_walk g n l.
Proof.
  revert n. induction l as [| e l IH]; intros n Hfg; [by destruct n |]. destruct n as [| n]; [done |]. simpl.
  rewrite (Hfg e) by set_solver. by rewrite !IH by set_solver.
Qed.

Lemma wake_walk_woken f n l wk sk rest : wake_walk f n l = (wk, sk, rest) -> wk = take n (List.filter f l).
Proof.
  revert n wk sk rest. induction l as [| e l IH]; intros n wk sk rest; [destruct n; by intros [= <- <- <-] |].
  destruct n as [| n]; [by intros [= <- <- <-] |]. simpl. destruct (f e).
  - destruct (wake_walk f n l) as [[w s] r] eqn:E. intros [= <- <- <-]. simpl. f_equal. by eapply IH.
  - destruct (wake_walk f (S n) l) as [[w s] r] eqn:E. intros [= <- <- <-]. by eapply IH.
Qed.

Lemma wake_walk_perm f n l wk sk rest : wake_walk f n l = (wk, sk, rest) -> l ≡ₚ wk ++ sk ++ rest.
Proof.
  revert n wk sk rest. induction l as [| e l IH]; intros n wk sk rest; [destruct n; by intros [= <- <- <-] |].
  destruct n as [| n]; [by intros [= <- <- <-] |]. simpl. destruct (f e).
  - destruct (wake_walk f n l) as [[w s] r] eqn:E. intros [= <- <- <-]. simpl. by rewrite <- (IH _ _ _ _ E).
  - destruct (wake_walk f (S n) l) as [[w s] r] eqn:E. intros [= <- <- <-]. rewrite (IH _ _ _ _ E).
    by rewrite Permutation_middle.
Qed.

Lemma filter_ext_in {A} (P Q : A -> Prop) `{!forall x, Decision (P x), !forall x, Decision (Q x)} (l : list A) :
  (forall x, x ∈ l -> P x <-> Q x) -> filter P l = filter Q l.
Proof.
  induction l as [| x l IH]; intros Hl; [done |]. rewrite !filter_cons, IH by set_solver.
  pose proof (Hl x ltac:(set_solver)). by destruct (decide (P x)), (decide (Q x)); try tauto.
Qed.

(** The entries left are the list without the woken ones, in order. *)
Lemma wake_walk_left f n l wk sk rest :
  NoDup l -> wake_walk f n l = (wk, sk, rest) -> sk ++ rest = filter (fun e => e ∉ wk) l.
Proof.
  revert n wk sk rest. induction l as [| e l IH]; intros n wk sk rest; [destruct n; by intros _ [= <- <- <-] |].
  intros [He Hn]%NoDup_cons. destruct n as [| n].
  { intros [= <- <- <-]. symmetry. apply (filter_all (fun x => x ∉ [])). apply Forall_forall. set_solver. }
  simpl. destruct (f e).
  - destruct (wake_walk f n l) as [[w s] r] eqn:E. intros [= <- <- <-]. rewrite (IH _ _ _ _ Hn E).
    rewrite filter_cons_False by set_solver. apply filter_ext_in. set_solver.
  - destruct (wake_walk f (S n) l) as [[w s] r] eqn:E. intros [= <- <- <-]. simpl. rewrite (IH _ _ _ _ Hn E).
    rewrite filter_cons_True; [done |]. intros Hw. apply He. rewrite (wake_walk_perm _ _ _ _ _ _ E). set_solver.
Qed.

(** If every entry answers, the first ones are woken and none is passed over. *)
Lemma wake_walk_all f n l : (forall e, e ∈ l -> f e = true) -> wake_walk f n l = (take n l, [], drop n l).
Proof.
  revert n. induction l as [| e l IH]; intros n Hf; [by destruct n |]. destruct n as [| n]; [done |]. simpl.
  rewrite (Hf e) by set_solver. by rewrite IH by set_solver.
Qed.

Definition threads (h : Waits) (l : list positive) : Prop := forall e, e ∈ l -> is_Some (ctx h e).

Lemma effect_threads l K k L h h' l' : effect l K k L h h' -> threads h l' -> threads h' l'.
Proof. intros Ef Ht e He. destruct (Ht e He) as [c Hc]. eexists. by eapply effect_ctx. Qed.

Lemma effect_slots l K k L h h' (w : list positive) : effect l K k L h h' -> omap (slot h') w = omap (slot h) w.
Proof. intros Ef. induction w as [| e w IH]; [done |]. unfold omap in *. simpl. by rewrite IH, (effect_slot _ _ _ _ _ _ e Ef). Qed.

Lemma unlinked_frame l K k L h h' e : effect l K k L h h' -> e ∉ l -> unlinked h e -> unlinked h' e.
Proof. intros Ef He. unfold unlinked, links. by rewrite (ef_frame _ _ _ _ _ _ Ef) by done. Qed.

Lemma WakeLocked_loop_rep fuel h q m n done S R wk sk rest :
  wl_rep h q (S ++ R) -> waits_ok h -> threads h R -> (length R < fuel)%nat ->
  wake_walk (answers h m) (Z.to_nat (n - done)) R = (wk, sk, rest) ->
  returns (WakeLocked_loop fuel h q m n done (first_or R None)) (fun '(h', q', d) => d = done + Z.of_nat (length wk) /\
    wl_rep h' q' (S ++ sk ++ rest) /\ Forall (unlinked h') wk /\
    effect (S ++ R) (wk ++ sk) Key_default (omap (slot h) wk) h h').
Proof.
  revert h q done S R wk sk rest.
  induction fuel as [| fuel IH]; intros h q done S R wk sk rest Hr Ho Ht Hf Hw; [lia |]. simpl.
  destruct (Z.ltb_spec done n) as [Hd | Hd].
  2: { rewrite Z2Nat.nonpos in Hw by lia. destruct R; injection Hw as <- <- <-; apply returns_ret;
         (split_and!; [simpl; lia | done | done | by apply effect_relinked, relinked_refl]). }
  destruct (Z.to_nat (n - done)) as [| k] eqn:Ek; [lia |]. destruct R as [| e R].
  { injection Hw as <- <- <-. apply returns_ret. split_and!; [simpl; lia | done | done | by apply effect_relinked, relinked_refl]. }
  simpl. destruct (Ht e ltac:(set_solver)) as [c Hc]. pose proof (rep_seg _ _ _ Hr) as (_ & Hl & _)%seg_app.
  destruct (links_some _ _ _ _ Hl) as (s & Es & _ & Ns). rewrite (get_entry_ok _ _ _ Es), bind_ret, Ns.
  eapply returns_bind; [by eapply WakeWaiterLocked_rep |]. intros [[h1 q1] b] (Hb & Hr1 & Hu & Ef1). simpl.
  pose proof (effect_ok _ _ _ _ _ _ Ef1 Ho) as Ho1. pose proof (effect_threads _ _ _ _ _ _ R Ef1 ltac:(intros x Hx; apply Ht; set_solver)) as Ht1.
  pose proof (rep_nodup _ _ _ Hr) as (_ & HdS & [HeR _]%NoDup_cons)%NoDup_app.
  assert (Hans : forall j, wake_walk (answers h1 m) j R = wake_walk (answers h m) j R).
  { intros j. apply wake_walk_ext. intros x _. by eapply effect_answers. }
  simpl in Hw. rewrite <- Hb in Hw. destruct b.
  - destruct (wake_walk (answers h m) k R) as [[wk' sk'] rest'] eqn:E. injection Hw as <- <- <-.
    eapply returns_mono; [apply (IH h1 q1 (done + 1) S R wk' sk' rest'); [done | done | done | simpl in Hf; lia |] |].
    { replace (Z.to_nat (n - (done + 1))) with k by lia. by rewrite Hans. }
    intros [[h2 q2] d] (-> & Hr2 & Hu2 & Ef2). split_and!; [simpl; lia | done | |].
    + constructor; [| done]. eapply unlinked_frame; [exact Ef2 | set_solver | by apply Hu].
    + apply (effect_seq _ [e] (wk' ++ sk') _ _ _ (omap (slot h1) wk') _ _ _ _ Ef1); [| set_solver |].
      * eapply effect_mono; [| exact Ef2]. set_solver.
      * rewrite (effect_slots _ _ _ _ _ _ _ Ef1). simpl. unfold slot at 1. by rewrite Hc.
  - destruct (wake_walk (answers h m) (Datatypes.S k) R) as [[wk' sk'] rest'] eqn:E. injection Hw as <- <- <-.
    eapply returns_mono; [apply (IH h1 q1 done (S ++ [e]) R wk' sk' rest'); [by rewrite <- app_assoc | done | done | simpl in Hf; lia |] |].
    { by rewrite Ek, Hans. }
    intros [[h2 q2] d] (-> & Hr2 & Hu2 & Ef2). rewrite <- app_assoc in Hr2, Ef2. split_and!; [done | done | done |].
    apply (effect_seq _ [e] (wk' ++ sk') _ _ _ (omap (slot h1) wk') _ _ _ _ Ef1 Ef2); [set_solver |].
    by rewrite (effect_slots _ _ _ _ _ _ _ Ef1).
Qed.

Lemma WakeLocked_rep h q m n l wk sk rest :
  wl_rep h q l -> waits_ok h -> threads h l -> wake_walk (answers h m) (Z.to_nat n) l = (wk, sk, rest) ->
  returns (WakeLocked h q m n) (fun '(h', q', d) => d = Z.of_nat (length wk) /\ wl_rep h' q' (sk ++ rest) /\
    Forall (unlinked h') wk /\ effect l (wk ++ sk) Key_default (omap (slot h) wk) h h').
Proof.
  intros Hr Ho Ht Hw. unfold WakeLocked. rewrite (rep_head _ _ _ Hr).
  eapply returns_mono; [apply (WakeLocked_loop_rep _ h q m n 0 [] l wk sk rest); try done |].
  - by eapply wl_rep_length.
  - by rewrite Z.sub_0_r.
  - by intros [[h' q'] d] (-> & ?).
Qed.

(** * Requeueing *)

Lemma Requeue_one h q to nKey e R T :
  wl_rep h q (e :: R) -> wl_rep h to T -> e :: R ## T -> is_Some (ctx h e) ->
  returns ('(h, q) ← WaitList_Remove h q e; '(h, to) ← PushBack h to e; h ← SetKey h e nKey; Ret (h, q, to))
    (fun '(h', q', to') => wl_rep h' q' R /\ wl_rep h' to' (T ++ [e]) /\ effect (e :: R ++ T) [e] nKey [] h h').
Proof.
  intros Hq Hto Hd [c Hc]. pose proof (rep_nodup _ _ _ Hq) as [HeR HR]%NoDup_cons.
  eapply returns_bind; [by apply (Remove_wl_rep h q [] e R) |]. intros [h1 q1] (Hq1 & R1 & U1). simpl in Hq1, R1 |- *.
  eapply returns_bind; [apply (PushBack_rep h1 to T e); [eapply wl_rep_frame; [exact Hto | exact R1 | set_solver] | set_solver | done] |].
  intros [h2 to2] (Hto2 & R2). simpl.
  pose proof (effect_relinked _ nKey _ _ R1) as Ef1. pose proof (effect_relinked _ nKey _ _ R2) as Ef2.
  assert (Hc2 : is_Some (ctx h2 e)).
  { eapply (effect_threads _ _ _ _ _ _ [e] Ef2); [| set_solver]. eapply (effect_threads _ _ _ _ _ _ [e] Ef1).
    by intros x ->%list_elem_of_singleton. }
  destruct Hc2 as [c2 Hc2]. eapply returns_bind; [by eapply SetKey_effect |]. intros h3 (Ef3 & Hl3). apply returns_ret.
  split_and!.
  - apply (wl_rep_links h2); [done |]. eapply wl_rep_frame; [done | exact R2 | set_solver].
  - by apply (wl_rep_links h2).
  - apply (effect_seq _ [] [e] _ _ [] [] _ _ h1); [eapply effect_mono; [| exact Ef1]; set_solver | | set_solver | done].
    apply (effect_seq _ [] [e] _ _ [] [] _ _ h2); [eapply effect_mono; [| exact Ef2]; set_solver | | set_solver | done].
    eapply effect_mono; [| exact Ef3]. set_solver.
Qed.

Lemma RequeueLocked_loop_rep fuel h q to nKey n done R T :
  wl_rep h q R -> wl_rep h to T -> R ## T -> threads h R -> (length R < fuel)%nat -> 0 <= done ->
  let k := Z.to_nat (n - done) in
  returns (RequeueLocked_loop fuel h q to nKey n done (first_or R None)) (fun '(h', q', to', d) =>
    d = done + Z.of_nat (length (take k R)) /\ wl_rep h' q' (drop k R) /\ wl_rep h' to' (T ++ take k R) /\
    effect (R ++ T) (take k R) nKey [] h h').
Proof.
  revert h q to done R T. induction fuel as [| fuel IH]; intros h q to done R T Hq Hto Hd Ht Hf H0 k; [lia |]. simpl.
  destruct R as [| e R].
  { apply returns_ret. rewrite take_nil, drop_nil, app_nil_r. split_and!; [simpl; lia | done | done |]. by apply effect_relinked, relinked_refl. }
  simpl. destruct (Z.ltb_spec done n) as [Hn | Hn].
  2: { apply returns_ret. subst k. rewrite Z2Nat.nonpos, take_0, drop_0, app_nil_r by lia.
       split_and!; [simpl; lia | done | done |]. by apply effect_relinked, relinked_refl. }
  pose proof (rep_seg _ _ _ Hq) as (Hl & _). destruct (links_some _ _ _ _ Hl) as (s & Es & _ & Ns).
  rewrite (get_entry_ok _ _ _ Es), bind_ret, Ns.
  assert (Hone := Requeue_one h q to nKey e R T Hq Hto Hd (Ht e ltac:(set_solver))).
  destruct Hone as ([[h1 q1] to1] & E1 & Hq1 & Hto1 & Ef1).
  destruct (WaitList_Remove h q e) as [[ha qa] | |]; simpl in E1 |- *; [| done | done].
  destruct (PushBack ha to e) as [[hb tob] | |]; simpl in E1 |- *; [| done | done].
  destruct (SetKey hb e nKey) as [hc | |]; simpl in E1 |- *; [| done | done]. injection E1 as -> -> ->.
  assert (HRT : R ## T ++ [e]) by (pose proof (rep_nodup _ _ _ Hq) as [? _]%NoDup_cons; set_solver).
  eapply returns_mono; [apply (IH h1 q1 to1 (done + 1) R (T ++ [e])); [done | done | done | | simpl in Hf; lia | lia] |].
  { eapply effect_threads; [exact Ef1 |]. intros x Hx. apply Ht. set_solver. }
  replace k with (S (Z.to_nat (n - (done + 1)))) by (subst k; lia). simpl.
  intros [[[h2 q2] to2] d] (-> & Hq2 & Hto2 & Ef2). rewrite <- app_assoc in Hto2. split_and!; [lia | done | done |].
  apply (effect_seq _ [e] (take (Z.to_nat (n - (done + 1))) R) _ _ [] [] _ _ h1); [done | | set_solver | done].
  eapply effect_mono; [| exact Ef2]. set_solver.
Qed.

Lemma RequeueLocked_rep h q to nKey n R T :
  wl_rep h q R -> wl_rep h to T -> R ## T -> threads h R ->
  let k := Z.to_nat n in
  returns (RequeueLocked h q to nKey n) (fun '(h', q', to', d) =>
    d = Z.of_nat (length (take k R)) /\ wl_rep h' q' (drop k R) /\ wl_rep h' to' (T ++ take k R) /\
    effect (R ++ T) (take k R) nKey [] h h').
Proof.
  intros Hq Hto Hd Ht k. unfold RequeueLocked. rewrite (rep_head _ _ _ Hq).
  pose proof (RequeueLocked_loop_rep (walk_fuel h) h q to nKey n 0 R T Hq Hto Hd Ht (wl_rep_length _ _ _ Hq) ltac:(lia)) as H.
  rewrite Z.sub_0_r in H. exact H.
Qed.
