(* ===== verification/WaitQueue.v ===== *)
(** What the operations of a queue (qlib/kernel/kernel/waiter/queue.rs) do to the list of
    its entries: registering, unregistering, notifying, clearing and asking for the events. *)
From S2P Require Import Prelude WaitList WaitListThm WaitListOps.

#[local] Open Scope Z_scope.

(** The entries of [l] that a notification with [m] reaches. *)
Definition reached (h : Waits) (m : Z) (l : list positive) : list (positive * Z) :=
  omap (fun e => if answers h m e then slot h e else None) l.

Lemma reached_ext h h' m l : (forall x, entries h' !! x = entries h !! x) -> reached h' m l = reached h m l.
Proof.
  intros He. unfold reached, omap. induction l as [| e l IH]; [done |]. simpl. rewrite IH. clear IH.
  unfold answers, slot, ctx. by rewrite !He.
Qed.

Lemma Notify_loop_ok fuel h m p l :
  waits_ok h -> seg h p l None -> threads h l -> (length l < fuel)%nat ->
  returns (Notify_loop fuel h m (first_or l None)) (fun h' => (forall x, entries h' !! x = entries h !! x) /\ rings (reached h m l) h h').
Proof.
  revert h p l. induction fuel as [| fuel IH]; intros h p l Ho Hs Ht Hf; [lia |]. destruct l as [| e l]; simpl.
  { apply returns_ret. split; [done | by apply rings_refl]. }
  destruct Hs as [Hl Hs]. destruct (Ht e ltac:(set_solver)) as [c Hc]. destruct (links_some _ _ _ _ Hl) as (s & Es & _ & Ns).
  eapply returns_bind; [by eapply (Notify_effect h e c m) |]. intros [h1 b] (-> & He & Hr). cbv beta iota.
  assert (Es1 : entries h1 !! e = Some s) by (by rewrite He). rewrite (get_entry_ok _ _ _ Es1), bind_ret, Ns.
  pose proof (rings_effect [] Key_default _ _ _ He Hr) as Ef.
  eapply returns_mono; [apply (IH h1 (Some e) l); [by eapply effect_ok | | | simpl in Hf; lia] |].
  - eapply seg_ext; [| exact Hs]. intros x _. unfold links. by rewrite He.
  - eapply effect_threads; [exact Ef |]. intros x Hx. apply Ht. set_solver.
  - intros h' [He' Hr']. split; [intros x; by rewrite He', He |]. rewrite (reached_ext h h1) in Hr' by done.
    pose proof (rings_trans _ _ _ _ _ Hr Hr') as Hrt. destruct (answers h m e); [| exact Hrt].
    unfold slot. rewrite Hc. exact Hrt.
Qed.

(** A notification gives its event to every entry of the queue whose mask answers, and
    changes nothing else. *)
Lemma Queue_Notify_ok h q l m :
  wl_rep h q l -> waits_ok h -> threads h l ->
  returns (Queue_Notify h q m) (fun h' => (forall x, entries h' !! x = entries h !! x) /\ rings (reached h m l) h h').
Proof.
  intros Hr Ho Ht. unfold Queue_Notify. rewrite (rep_head _ _ _ Hr).
  eapply Notify_loop_ok; [done | apply Hr | done | by eapply wl_rep_length].
Qed.

(** Registering sets the mask of the entry and appends it. *)
Lemma EventRegister_ok h q l e s m :
  wl_rep h q l -> e ∉ l -> unlinked h e -> entries h !! e = Some s ->
  returns (Queue_EventRegister h q e m) (fun '(h', q') => wl_rep h' q' (l ++ [e]) /\
    waiters h' = waiters h /\ scheduled h' = scheduled h /\ (forall x, x ∉ e :: l -> entries h' !! x = entries h !! x) /\
    forall x, payload h' x = if decide (x = e) then Some (m, context s) else payload h x).
Proof.
  intros Hr He Hu Hs. unfold Queue_EventRegister, SetMask. rewrite (upd_entry_ok _ _ s) by done. rewrite bind_ret.
  set (h1 := put_entry h e (set_mask m s)).
  assert (Hl : forall x, links h1 x = links h x).
  { intros x. unfold h1. destruct (decide (x = e)) as [-> | N]; [| by apply links_put_ne]. rewrite links_put_eq. unfold links. by rewrite Hs. }
  eapply returns_mono; [apply (PushBack_rep h1 q l e); [by eapply wl_rep_links | done | unfold unlinked; by rewrite Hl] |].
  intros [h' q'] [Hr' [W S F P]]. split_and!; [done | done | done | |].
  - intros x Hx. rewrite F by done. apply entries_put_ne. set_solver.
  - intros x. rewrite P. unfold payload, h1. destruct (decide (x = e)) as [-> | N]; [by rewrite entries_put_eq | by rewrite entries_put_ne].
Qed.

Lemma ready_clear h w id b x i :
  waiters h !! w = Some b -> 0 <= id < 64 -> 0 <= i ->
  ready (put_waiter h w (mkWaiter (Z.ldiff (bitmap b) (bit id)) (w_mask b) (idCnt b) (w_state b) (w_taskId b))) x i =
    ready h x i && negb (bool_decide (x = w /\ i = id)).
Proof.
  intros Hb Hid Hi. unfold ready. simpl. destruct (decide (x = w)) as [-> | N].
  - rewrite lookup_insert_eq, Hb. simpl. rewrite Z.ldiff_spec, testbit_bit by lia. f_equal. f_equal. apply bool_decide_ext. naive_solver.
  - rewrite lookup_insert_ne by done. rewrite (bool_decide_eq_false_2 (x = w /\ i = id)) by naive_solver. by rewrite andb_true_r.
Qed.

(** Unregistering takes the event of the entry, if there is one, and the entry. *)
Lemma EventUnregister_ok h q l1 e l2 c :
  wl_rep h q (l1 ++ e :: l2) -> waits_ok h -> ctx h e = Some c ->
  returns (Queue_EventUnregister h q e) (fun '(h', q') => wl_rep h' q' (l1 ++ l2) /\ unlinked h' e /\
    (forall x, x ∉ l1 ++ e :: l2 -> entries h' !! x = entries h !! x) /\ (forall x, payload h' x = payload h x) /\
    (forall x, is_Some (waiters h !! x) -> is_Some (waiters h' !! x)) /\
    forall x i, 0 <= i -> ready h' x i = ready h x i && negb (bool_decide (x = waiter c /\ i = waiterID c))).
Proof.
  intros Hr Ho Hc. destruct (waits_ok_ctx _ _ _ Ho Hc) as [[b Hb] Hid]. unfold Queue_EventUnregister, WaitEntry_Clear.
  revert Hc. unfold ctx. destruct (entries h !! e) as [s |] eqn:Es; [| done]. simpl. destruct (context s) as [| c'] eqn:Ec; [done |]. intros [= ->].
  rewrite (get_entry_ok _ _ _ Es), bind_ret, Ec. unfold Waiter_Clear, get_waiter. rewrite Hb, !bind_ret.
  eapply returns_mono; [apply (Remove_wl_rep _ q l1 e l2); by apply (wl_rep_links h) |].
  intros [h' q'] (Hr' & [W S F P] & Hu). split_and!; [done | done | done | done | |].
  - intros x [bx Hx]. rewrite W. simpl. destruct (decide (x = waiter c)) as [-> |]; [by rewrite lookup_insert_eq | rewrite lookup_insert_ne; by eauto].
  - intros x i Hi. unfold ready at 1. rewrite W. rewrite <- (ready_clear h _ _ b) by (done || lia). done.
Qed.

Lemma Clear_loop_ok fuel h p l :
  waits_ok h -> seg h p l None -> threads h l -> (length l < fuel)%nat ->
  returns (Clear_loop fuel h (first_or l None)) (fun h' => (forall x, entries h' !! x = entries h !! x) /\
    (forall x, is_Some (waiters h !! x) -> is_Some (waiters h' !! x)) /\
    forall x i, 0 <= i -> ready h' x i = ready h x i && negb (bool_decide ((x, i) ∈ omap (slot h) l))).
Proof.
  revert h p l. induction fuel as [| fuel IH]; intros h p l Ho Hs Ht Hf; [lia |]. destruct l as [| e l]; cbn [first_or Clear_loop].
  { apply returns_ret. split_and!; [done | done |]. intros x i _. by rewrite andb_true_r. }
  destruct Hs as [Hl Hs]. destruct (Ht e ltac:(set_solver)) as [c Hc]. destruct (waits_ok_ctx _ _ _ Ho Hc) as [[b Hb] Hid].
  destruct (links_some _ _ _ _ Hl) as (s & Es & _ & Ns). unfold WaitEntry_Clear. rewrite (get_entry_ok _ _ _ Es), bind_ret.
  pose proof Hc as Hcx. unfold ctx in Hcx. rewrite Es in Hcx. simpl in Hcx. destruct (context s) as [| c'] eqn:Ec; [done |]. injection Hcx as ->.
  unfold Waiter_Clear, get_waiter. rewrite Hb, !bind_ret. set (h1 := put_waiter _ _ _).
  assert (Es1 : entries h1 !! e = Some s) by done. rewrite (get_entry_ok _ _ _ Es1), bind_ret, Ns.
  assert (Hw1 : forall x, is_Some (waiters h !! x) -> is_Some (waiters h1 !! x)).
  { intros x [bx Hx]. unfold h1. simpl. destruct (decide (x = waiter c)) as [-> |]; [by rewrite lookup_insert_eq | rewrite lookup_insert_ne; by eauto]. }
  eapply returns_mono; [apply (IH h1 (Some e) l); [| by apply (seg_ext h) | | simpl in Hf; lia] |].
  - intros x sx cx Hx Hcx. destruct (Ho x sx cx Hx Hcx). auto.
  - intros x Hx. destruct (Ht x ltac:(set_solver)) as [cx Hcx]. by exists cx.
  - intros h' (He' & Hw' & Hr'). split_and!; [done | auto |]. intros x i Hi. rewrite Hr' by done. unfold h1 at 1. rewrite ready_clear by (done || lia).
    assert (E : omap (slot h) (e :: l) = (waiter c, waiterID c) :: omap (slot h1) l) by (unfold omap; simpl; unfold slot at 1; by rewrite Hc).
    rewrite E, <- andb_assoc. f_equal. rewrite <- negb_orb. f_equal. apply eq_true_iff_eq.
    rewrite orb_true_iff, !bool_decide_eq_true, elem_of_cons. naive_solver.
Qed.

(** Clearing a queue takes the events of its entries. *)
Lemma Queue_Clear_ok h q l :
  wl_rep h q l -> waits_ok h -> threads h l ->
  returns (Queue_Clear h q) (fun h' => (forall x, entries h' !! x = entries h !! x) /\
    (forall x, is_Some (waiters h !! x) -> is_Some (waiters h' !! x)) /\
    forall x i, 0 <= i -> ready h' x i = ready h x i && negb (bool_decide ((x, i) ∈ omap (slot h) l))).
Proof.
  intros Hr Ho Ht. unfold Queue_Clear. rewrite (rep_head _ _ _ Hr).
  eapply Clear_loop_ok; [done | apply Hr | done | by eapply wl_rep_length].
Qed.

Lemma Events_loop_ok fuel h acc p l :
  seg h p l None -> (length l < fuel)%nat ->
  Events_loop fuel h acc (first_or l None) =
    Ret (foldl (fun a e => Z.lor a (match entries h !! e with Some s => mask s | None => 0 end)) acc l).
Proof.
  revert acc p l. induction fuel as [| fuel IH]; intros acc p l Hs Hf; [lia |]. destruct l as [| e l]; [done |]. simpl.
  destruct Hs as [Hl Hs]. destruct (links_some _ _ _ _ Hl) as (s & Es & _ & Ns). rewrite (get_entry_ok _ _ _ Es), bind_ret, Ns, Es.
  by apply (IH _ (Some e)); [| simpl in Hf; lia].
Qed.

(** The events of a queue are the masks of its entries together. *)
Lemma Events_ok h q l :
  wl_rep h q l -> Events h q = Ret (foldl (fun a e => Z.lor a (match entries h !! e with Some s => mask s | None => 0 end)) 0 l).
Proof.
  intros Hr. unfold Events. rewrite (rep_head _ _ _ Hr). eapply Events_loop_ok; [apply Hr | by eapply wl_rep_length].
Qed.
