(* ===== verification/Ipc.v ===== *)
(** System V mechanisms and their registries: qlib/kernel/kernel/ipc_namespace.rs.

    A mechanism ([Mechanism<T>]) is a shared object with an owner and permissions around an
    object [T]; mechanisms are cells of a store.  The registry of a kind of object maps
    identifiers to mechanisms and keys to identifiers.  The trait [Object] is a class:
    destroying an object may wake the threads that wait for it, so it has the store of wait
    entries. *)
From S2P Require Import Prelude Auth Perms WaitList.
#[local] Open Scope Z_scope.

(** * Mechanisms *)

Class Object (T : Type) : Type := { Destory : Waits -> T -> outcome (Waits * T) }.

Record MechanismIntern (T : Type) : Type := mkMech {
  m_userNS : positive; m_id : Z; m_key : Z; m_creator : FileOwner; m_owner : FileOwner; m_perms : FilePermissions; m_obj : T;
}.
Arguments mkMech {T} _ _ _ _ _ _ _.
Arguments m_userNS {T} _.
Arguments m_id {T} _.
Arguments m_key {T} _.
Arguments m_creator {T} _.
Arguments m_owner {T} _.
Arguments m_perms {T} _.
Arguments m_obj {T} _.

Definition with_obj {T} (m : MechanismIntern T) (o : T) : MechanismIntern T :=
  mkMech (m_userNS m) (m_id m) (m_key m) (m_creator m) (m_owner m) (m_perms m) o.

(** The fields of [IPCPerm] that the code reads or sets. *)
Record IPCPerm : Type := mkIPCPerm { pe_Key : Z; pe_UID : Z; pe_GID : Z; pe_CUID : Z; pe_CGID : Z; pe_Mode : Z; pe_Seq : Z }.

Section Mechanisms.
Context {T : Type} (w : World).
Implicit Types (m : MechanismIntern T) (c : Creds).

Definition Mechanism_New (userns : positive) (key : Z) (creator owner : FileOwner) (perms : FilePermissions) (obj : T) : MechanismIntern T :=
  mkMech userns 0 key creator owner perms obj.

Definition checkOwnership m c : outcome bool :=
  if (fo_UID (m_owner m) =? EffectiveKUID c) || (fo_UID (m_creator m) =? EffectiveKUID c) then Ret true
  else HasCapabilityIn w c CAP_SYS_ADMIN (m_userNS m).

Definition checkPermission m c (req : PermMask) : outcome bool :=
  let p :=
    if fo_UID (m_owner m) =? EffectiveKUID c then fp_User (m_perms m)
    else if InGroup c (fo_GID (m_owner m)) then fp_Group (m_perms m)
    else fp_Other (m_perms m) in
  if Perm_SupersetOf p req then Ret true else HasCapabilityIn w c CAP_IPC_OWNER (m_userNS m).

Definition Mechanism_Set m c (perm : IPCPerm) : outcome (MechanismIntern T * Result unit) :=
  uid ← MapToKUID w (UserNamespace c) (pe_UID perm);
  gid ← MapToKGID w (UserNamespace c) (pe_GID perm);
  if negb (id_Ok uid) || negb (id_Ok gid) then Ret (m, Err (SysError EINVAL))
  else
    ok ← checkOwnership m c;
    if negb ok then Ret (m, Err (SysError EPERM))
    else
      Ret (mkMech (m_userNS m) (m_id m) (m_key m) (m_creator m) (mkOwner uid gid)
             (FilePermissions_FromMode (Z.land (pe_Mode perm) 511)) (m_obj m), Ok tt).
End Mechanisms.

(** * Registries *)

Record RegistryInternal : Type := mkReg {
  r_userNS : positive; objects : gmap Z positive; keyToID : gmap Z Z; lastIDUsed : Z;
}.

Definition Registry_New (userNS : positive) : RegistryInternal := mkReg userNS ∅ ∅ 0.

Fixpoint NewId_loop (fuel : nat) (r : RegistryInternal) (id : Z) : outcome (option Z) :=
  match fuel with
  | O => OutOfFuel
  | S fuel =>
      if id =? lastIDUsed r then Ret None
      else match objects r !! id with
           | None => Ret (Some id)
           | Some _ => NewId_loop fuel r (to_i32 (id + 1))
           end
  end.

Definition NewId (r : RegistryInternal) : outcome (RegistryInternal * Result Z) :=
  id ← NewId_loop (S (S (size (objects r)))) r (to_i32 (lastIDUsed r + 1));
  match id with
  | Some id => Ret (mkReg (r_userNS r) (objects r) (keyToID r) id, Ok id)
  | None => Ret (r, Err (SysError ENOSPC))
  end.

Definition Registry_FindById (r : RegistryInternal) (id : Z) : option positive := objects r !! id.
Definition ObjectCount (r : RegistryInternal) : Z := Z.of_nat (size (objects r)).
Definition DissociateKey (r : RegistryInternal) (key : Z) : RegistryInternal :=
  mkReg (r_userNS r) (objects r) (delete key (keyToID r)) (lastIDUsed r).
Definition DissociateId (r : RegistryInternal) (id : Z) : RegistryInternal :=
  mkReg (r_userNS r) (delete id (objects r)) (keyToID r) (lastIDUsed r).

Section Registries.
Context {T : Type} `{!Object T} (w : World).
Implicit Types (r : RegistryInternal) (ms : gmap positive (MechanismIntern T)).

Definition get_mech ms (p : positive) : outcome (MechanismIntern T) := match ms !! p with Some m => Ret m | None => Panic end.

Definition Register r ms (p : positive) : outcome (RegistryInternal * gmap positive (MechanismIntern T) * Result unit) :=
  '(r, res) ← NewId r;
  match res with
  | inl e => Ret (r, ms, Err e)
  | inr id =>
      m ← get_mech ms p;
      let m := mkMech (m_userNS m) id (m_key m) (m_creator m) (m_owner m) (m_perms m) (m_obj m) in
      Ret (mkReg (r_userNS r) (<[id := p]> (objects r)) (<[m_key m := id]> (keyToID r)) (lastIDUsed r), <[p := m]> ms, Ok tt)
  end.

Definition Registry_Remove r ms (h : Waits) (id : Z) (c : Creds)
  : outcome (RegistryInternal * gmap positive (MechanismIntern T) * Waits * Result unit) :=
  match objects r !! id with
  | None => Ret (r, ms, h, Err (SysError EINVAL))
  | Some p =>
      m ← get_mech ms p;
      ok ← checkOwnership w m c;
      if negb ok then Ret (r, ms, h, Err (SysError EPERM))
      else
        let r := mkReg (r_userNS r) (delete id (objects r)) (delete (m_key m) (keyToID r)) (lastIDUsed r) in
        '(h, o) ← Destory h (m_obj m);
        Ret (r, <[p := with_obj m o]> ms, h, Ok tt)
  end.

Definition Registry_Find r ms (c : Creds) (key mode : Z) (create exclusive : bool) : outcome (Result (option positive)) :=
  match keyToID r !! key with
  | Some id =>
      match objects r !! id with
      | None => Panic
      | Some p =>
          m ← get_mech ms p;
          ok ← checkPermission w m c (PermMask_FromMode mode);
          if negb ok then Ret (Err (SysError EINVAL))
          else if create && exclusive then Ret (Err (SysError EEXIST))
          else Ret (Ok (Some p))
      end
  | None => Ret (if negb create then Err (SysError ENOENT) else Ok None)
  end.

(** [ForAllObjects] with a function that adds up two numbers of each object. *)
Definition ForAllObjects_sum r ms (f : T -> Z * Z) : outcome (Z * Z) :=
  foldr (fun p acc => '(a, b) ← acc; m ← get_mech ms p; let '(x, y) := f (m_obj m) in Ret (wrap64 (a + x), wrap64 (b + y)))
    (Ret (0, 0)) (map_to_list (objects r)).*2.
End Registries.
