(* ===== verification/IpcThm.v ===== *)
(** Lemmas about System V mechanisms and registries.

    [reg_ok] is the consistency of a registry with the store of mechanisms: every identifier
    leads to a mechanism that has it, and every key to the identifier of a mechanism that has
    it.  A user namespace is fixed: the permission checks do not change it. *)
From S2P Require Import Prelude Auth IdentityThm UserNsProps Perms WaitList Ipc.
#[local] Open Scope Z_scope.

Definition in_i32 (z : Z) : Prop := -2147483648 <= z < 2147483648.

Lemma to_i32_range z : in_i32 (to_i32 z).
Proof. unfold to_i32, in_i32. pose proof (Z.mod_pos_bound (z + 2147483648) 4294967296 eq_refl). lia. Qed.

Lemma to_i32_id z : in_i32 z -> to_i32 z = z.
Proof. unfold to_i32, in_i32. intros H. rewrite Z.mod_small; lia. Qed.

Lemma to_i32_eq a b : to_i32 a = to_i32 b -> (a - b) mod 4294967296 = 0.
Proof.
  unfold to_i32. intros E. assert (E' : (a + 2147483648) mod 4294967296 = (b + 2147483648) mod 4294967296) by lia.
  replace (a - b) with ((a + 2147483648) - (b + 2147483648)) by lia. by rewrite Zminus_mod, E', Z.sub_diag.
Qed.

Lemma to_i32_succ a : to_i32 (to_i32 a + 1) = to_i32 (a + 1).
Proof.
  unfold to_i32. f_equal. replace ((a + 2147483648) mod 4294967296 - 2147483648 + 1 + 2147483648) with ((a + 2147483648) mod 4294967296 + 1) by lia.
  rewrite Zplus_mod_idemp_l. f_equal. lia.
Qed.

(** * Finding an identifier *)

(** The [j]-th identifier that is tried. *)
Definition nth_id (r : RegistryInternal) (j : nat) : Z := to_i32 (lastIDUsed r + 1 + Z.of_nat j).

Lemma nth_id_inj r i j : Z.of_nat i < 4294967296 -> Z.of_nat j < 4294967296 -> nth_id r i = nth_id r j -> i = j.
Proof.
  intros Hi Hj E%to_i32_eq. replace (lastIDUsed r + 1 + Z.of_nat i - (lastIDUsed r + 1 + Z.of_nat j)) with (Z.of_nat i - Z.of_nat j) in E by lia.
  apply Z.mod_divide in E as [q E]; [| done]. nia.
Qed.

Lemma nth_id_last r j : in_i32 (lastIDUsed r) -> Z.of_nat (S j) < 4294967296 -> nth_id r j <> lastIDUsed r.
Proof.
  intros Hl Hj E. assert (E' : nth_id r j = to_i32 (lastIDUsed r)) by (by rewrite to_i32_id). clear E. rename E' into E. apply to_i32_eq, Z.mod_divide in E as [q E]; [| done]. lia.
Qed.

Lemma nth_id_used r j :
  Z.of_nat j < 4294967296 -> (forall i, (i < j)%nat -> is_Some (objects r !! nth_id r i)) -> (j <= size (objects r))%nat.
Proof.
  intros Hj Hu. rewrite <- (size_dom (objects r)).
  assert (Hl : length (nth_id r <$> seq 0 j) = j) by (by rewrite length_fmap, length_seq). rewrite <- Hl at 1.
  rewrite <- (size_list_to_set (C := gset Z) (nth_id r <$> seq 0 j)).
  - apply subseteq_size. intros x (i & -> & [_ Hi]%elem_of_seq)%elem_of_list_to_set%list_elem_of_fmap. apply elem_of_dom. apply Hu. lia.
  - apply NoDup_fmap_2_strong; [| apply NoDup_seq]. intros a b [_ Ha]%elem_of_seq [_ Hb]%elem_of_seq. apply nth_id_inj; lia.
Qed.

Lemma NewId_loop_ok r fuel j :
  in_i32 (lastIDUsed r) -> (forall i, (i < j)%nat -> is_Some (objects r !! nth_id r i)) ->
  (size (objects r) < j + fuel)%nat -> Z.of_nat (S (j + fuel)) < 4294967296 ->
  returns (NewId_loop fuel r (nth_id r j)) (fun o => exists k, o = Some (nth_id r k) /\ objects r !! nth_id r k = None /\
    forall i, (i < k)%nat -> is_Some (objects r !! nth_id r i)).
Proof.
  intros Hl. revert j. induction fuel as [| fuel IH]; intros j Hu Hf Hb.
  { pose proof (nth_id_used r j ltac:(lia) Hu). lia. }
  simpl. destruct (Z.eqb_spec (nth_id r j) (lastIDUsed r)) as [E | _]; [by apply nth_id_last in E; [| | lia] |].
  destruct (objects r !! nth_id r j) as [p |] eqn:Hg; [| apply returns_ret; by exists j].
  replace (to_i32 (nth_id r j + 1)) with (nth_id r (S j)) by (unfold nth_id; rewrite to_i32_succ; f_equal; lia).
  apply IH; [| lia | lia]. intros i Hi. destruct (decide (i = j)) as [-> |]; [by rewrite Hg | apply Hu; lia].
Qed.

(** [NewId] ends with the first unused identifier after the last one, going round. *)
Lemma NewId_ok r :
  in_i32 (lastIDUsed r) -> Z.of_nat (size (objects r)) < 4294967290 ->
  returns (NewId r) (fun '(r', res) => exists id, res = Ok id /\ in_i32 id /\ objects r !! id = None /\
    r' = mkReg (r_userNS r) (objects r) (keyToID r) id).
Proof.
  intros Hl Hs. unfold NewId. replace (to_i32 (lastIDUsed r + 1)) with (nth_id r 0) by (unfold nth_id; f_equal; lia).
  eapply returns_bind; [apply (NewId_loop_ok r _ 0); [done | lia | lia | lia] |]. intros o (k & -> & Hn & _).
  apply returns_ret. exists (nth_id r k). split_and!; [done | apply to_i32_range | done | done].
Qed.

(** * The checks return *)

Section Checks.
Context {T : Type} (w : World) (Hwf : wf w).
Implicit Types (m : MechanismIntern T) (c : Creds).

Lemma HasCapabilityIn_ret c cp n : 0 <= cp < 64 -> is_Some (w_ns w !! n) -> exists b, HasCapabilityIn w c cp n = Ret b.
Proof. intros Hcp Hn. destruct (HasCapabilityIn_loop_spec w c cp (chain_fuel n) n) as (b & Hb & _); try done. by exists b. Qed.

Definition allowed m c req : bool := match checkPermission w m c req with Ret b => b | _ => false end.
Definition owner_ok m c : bool := match checkOwnership w m c with Ret b => b | _ => false end.

Lemma checkPermission_ret m c req : is_Some (w_ns w !! m_userNS m) -> checkPermission w m c req = Ret (allowed m c req).
Proof.
  intros Hn. unfold allowed. unfold checkPermission at 1. unfold checkPermission. case_match; [done |].
  by destruct (HasCapabilityIn_ret c CAP_IPC_OWNER (m_userNS m) ltac:(done) Hn) as [b ->].
Qed.

Lemma checkOwnership_ret m c : is_Some (w_ns w !! m_userNS m) -> checkOwnership w m c = Ret (owner_ok m c).
Proof.
  intros Hn. unfold owner_ok. unfold checkOwnership. case_match; [done |].
  by destruct (HasCapabilityIn_ret c CAP_SYS_ADMIN (m_userNS m) ltac:(done) Hn) as [b ->].
Qed.

(** Changing a mechanism: the object stays, and only the owner's fields change. *)
Lemma Mechanism_Set_ok m c perm :
  is_Some (w_ns w !! m_userNS m) -> is_Some (w_ns w !! UserNamespace c) ->
  returns (Mechanism_Set w m c perm) (fun '(m', r) =>
    m_userNS m' = m_userNS m /\ m_id m' = m_id m /\ m_key m' = m_key m /\ m_obj m' = m_obj m /\
    match r with inl e => m' = m | inr _ => owner_ok m c = true end).
Proof.
  intros Hn Hc. unfold Mechanism_Set. destruct (MapToKUID_total w (UserNamespace c) (pe_UID perm) Hwf Hc) as [u ->].
  destruct (MapToKGID_total w (UserNamespace c) (pe_GID perm) Hwf Hc) as [g ->]. rewrite !bind_ret.
  destruct (negb (id_Ok u) || negb (id_Ok g)); [by apply returns_ret |].
  rewrite checkOwnership_ret, bind_ret by done. destruct (owner_ok m c); by apply returns_ret.
Qed.
End Checks.

(** * Consistency *)

Record reg_ok {T} (w : World) (r : RegistryInternal) (ms : gmap positive (MechanismIntern T)) : Prop := {
  ro_obj : forall id p, objects r !! id = Some p -> exists m, ms !! p = Some m /\ m_id m = id;
  ro_key : forall k id, keyToID r !! k = Some id -> exists p m, objects r !! id = Some p /\ ms !! p = Some m /\ m_key m = k;
  ro_ns : is_Some (w_ns w !! r_userNS r);
  ro_last : in_i32 (lastIDUsed r) }.

Section Registry.
Context {T : Type} `{!Object T} (w : World) (Hwf : wf w).
Implicit Types (r : RegistryInternal) (ms : gmap positive (MechanismIntern T)).

Lemma reg_ok_New n : is_Some (w_ns w !! n) -> reg_ok w (Registry_New n) (∅ : gmap positive (MechanismIntern T)).
Proof. intros Hn. split; [by intros id p | by intros k id | done | done]. Qed.

(** Changing what is in a mechanism leaves the registry consistent. *)
Lemma reg_ok_put r ms p m m' :
  reg_ok w r ms -> ms !! p = Some m -> m_id m' = m_id m -> m_key m' = m_key m -> reg_ok w r (<[p := m']> ms).
Proof.
  intros [O K N L] Hp Hi Hk.
  assert (Hx : forall x mx, ms !! x = Some mx -> exists mx', <[p := m']> ms !! x = Some mx' /\ m_id mx' = m_id mx /\ m_key mx' = m_key mx).
  { intros x mx Hx. destruct (decide (x = p)) as [-> | Nx]; [rewrite lookup_insert_eq; exists m'; split; [done |]; split; congruence | rewrite lookup_insert_ne by done; by exists mx]. }
  split; [| | done | done].
  - intros id x Hid. destruct (O id x Hid) as (mx & Hmx & <-). destruct (Hx _ _ Hmx) as (mx' & ? & ? & _). by exists mx'.
  - intros k id Hid. destruct (K k id Hid) as (x & mx & Ho & Hmx & <-). destruct (Hx _ _ Hmx) as (mx' & ? & _ & ?). by exists x, mx'.
Qed.

Lemma Register_ok r ms p m :
  reg_ok w r ms -> ms !! p = Some m -> (forall id, objects r !! id <> Some p) -> Z.of_nat (size (objects r)) < 4294967290 ->
  returns (Register r ms p) (fun '(r', ms', res) => exists id, res = Ok tt /\ objects r !! id = None /\
    objects r' = <[id := p]> (objects r) /\ keyToID r' = <[m_key m := id]> (keyToID r) /\ r_userNS r' = r_userNS r /\
    ms' = <[p := mkMech (m_userNS m) id (m_key m) (m_creator m) (m_owner m) (m_perms m) (m_obj m)]> ms /\ reg_ok w r' ms').
Proof.
  intros [O K N L] Hp Hfr Hs. unfold Register. eapply returns_bind; [by apply NewId_ok |]. intros [r1 res] (id & -> & Hid & Hn & ->).
  cbv beta iota. unfold get_mech. rewrite Hp, bind_ret. apply returns_ret. exists id. simpl. split_and!; [done.. |].
  assert (Hx : forall x, x <> p -> <[p := mkMech (m_userNS m) id (m_key m) (m_creator m) (m_owner m) (m_perms m) (m_obj m)]> ms !! x = ms !! x)
    by (intros; by rewrite lookup_insert_ne).
  split; simpl; [| | done | done].
  - intros i x. destruct (decide (i = id)) as [-> | Ni]; [rewrite lookup_insert_eq; intros [= <-]; rewrite lookup_insert_eq; eauto |].
    rewrite lookup_insert_ne by done. intros Hi. rewrite Hx; [by apply O |]. intros ->. by apply (Hfr i).
  - intros k i. destruct (decide (k = m_key m)) as [-> | Nk].
    + rewrite lookup_insert_eq. intros [= <-]. exists p. rewrite lookup_insert_eq, lookup_insert_eq. eauto.
    + rewrite lookup_insert_ne by done. intros Hk. destruct (K k i Hk) as (x & mx & Ho & Hmx & <-). exists x, mx.
      assert (Ni : i <> id) by (intros ->; congruence). rewrite lookup_insert_ne by done.
      split_and!; [done | | done]. rewrite Hx; [done |]. intros ->. by apply (Hfr i).
Qed.

(** Removing by an owner: the identifier and the key are gone. *)
Lemma Remove_ok r ms h id c p m (h' : Waits) (o : T) :
  reg_ok w r ms -> objects r !! id = Some p -> ms !! p = Some m -> is_Some (w_ns w !! m_userNS m) ->
  owner_ok w m c = true -> Destory h (m_obj m) = Ret (h', o) ->
  let r' := mkReg (r_userNS r) (delete id (objects r)) (delete (m_key m) (keyToID r)) (lastIDUsed r) in
  Registry_Remove w r ms h id c = Ret (r', <[p := with_obj m o]> ms, h', Ok tt) /\ reg_ok w r' (<[p := with_obj m o]> ms).
Proof.
  intros Hr Hid Hp Hn Hok Hd r'. unfold Registry_Remove. rewrite Hid. unfold get_mech. rewrite Hp, bind_ret.
  rewrite checkOwnership_ret, Hok, bind_ret by done. cbn [negb]. rewrite Hd, bind_ret. split; [done |].
  pose proof (reg_ok_put r ms p m (with_obj m o) Hr Hp eq_refl eq_refl) as [O K N L]. split; simpl; [| | done | done].
  - intros i x [_ Hi]%lookup_delete_Some. by apply O.
  - intros k i [Nk Hk]%lookup_delete_Some. destruct (K k i Hk) as (x & mx & Ho & Hmx & Hkx). exists x, mx. split_and!; [| done | done].
    rewrite lookup_delete_ne; [done |]. intros <-. rewrite Hid in Ho. injection Ho as <-. rewrite lookup_insert_eq in Hmx. injection Hmx as <-. done.
Qed.

(** Looking up a key never meets a missing object. *)
Lemma Find_ok r ms c key mode create exclusive :
  reg_ok w r ms -> (forall p m, ms !! p = Some m -> is_Some (w_ns w !! m_userNS m)) ->
  returns (Registry_Find w r ms c key mode create exclusive) (fun res =>
    match keyToID r !! key with
    | Some id => exists p m, objects r !! id = Some p /\ ms !! p = Some m /\ m_key m = key /\
        res = if negb (allowed w m c (PermMask_FromMode mode)) then Err (SysError EINVAL)
              else if create && exclusive then Err (SysError EEXIST) else Ok (Some p)
    | None => res = if create then Ok None else Err (SysError ENOENT)
    end).
Proof.
  intros [O K N L] Hns. unfold Registry_Find. destruct (keyToID r !! key) as [id |] eqn:Hk.
  - destruct (K key id Hk) as (p & m & Ho & Hp & Hkm). rewrite Ho. unfold get_mech. rewrite Hp, bind_ret, checkPermission_ret, bind_ret by eauto.
    destruct (allowed w m c (PermMask_FromMode mode)) eqn:Ha, (create && exclusive) eqn:Ec; apply returns_ret; exists p, m; by rewrite Ha.
  - apply returns_ret. by destruct create.
Qed.
End Registry.
