(* ===== verification/MsgQueue.v ===== *)
(** System V message queues: qlib/kernel/kernel/msgqueue.rs.

    Messages are shared objects ([Arc<QMutex<..>>]): a queue holds references to them, and a
    receiver that asks for less than a message's size cuts the shared object.  So messages are
    cells of a store, and so are queues (as mechanisms).  The two queues of waiting threads are
    the wait lists of [WaitList.v].  The calling task is its credentials, its process number,
    its wait entry and the time; what happens while it blocks is a parameter. *)
From S2P Require Import Prelude Auth Perms WaitList Ipc.
#[local] Open Scope Z_scope.
#[local] Open Scope u64_scope.

Abbreviation MSGMNI := 32000 (only parsing).
Abbreviation MSGMAX := 8192 (only parsing).
Abbreviation MSGMNB := 16384 (only parsing).
Abbreviation MAX_QUEUES := MSGMNI (only parsing).
Abbreviation MAX_QUEUE_BYTES := MSGMNB (only parsing).
Abbreviation MAX_MESSAGE_BYTES := MSGMAX (only parsing).
Abbreviation CAP_SYS_RESOURCE := 24 (only parsing).

(** * Messages *)

Record MessageIntern : Type := mkMsg { msg_Type : Z; msg_Text : list Z; msg_Size : Z }.

Definition Message_New (Type_ : Z) (Text : list Z) : MessageIntern := mkMsg Type_ Text (Z.of_nat (length Text)).
Definition Truncate (m : MessageIntern) (maxSize : Z) : MessageIntern :=
  mkMsg (msg_Type m) (resize (Z.to_nat maxSize) 0 (msg_Text m)) maxSize.

(** * Queues *)

Record MsgQueue : Type := mkQueue {
  dead : bool; senders : WaitList; receivers : WaitList; messages : list positive;
  sendTime : Z; receiveTime : Z; changeTime : Z; byteCount : Z; maxBytes : Z; sendPID : Z; receivePID : Z;
}.

#[global] Instance MsgQueue_Object : Object MsgQueue := {
  Destory h q :=
    h ← Queue_Notify h (senders q) EVENT_OUT;
    h ← Queue_Notify h (receivers q) EVENT_IN;
    Ret (h, mkQueue true (senders q) (receivers q) (messages q) (sendTime q) (receiveTime q) (changeTime q) (byteCount q) (maxBytes q)
              (sendPID q) (receivePID q)) }.

(** The registry, and the shared objects that can be reached. *)
Record MQState : Type := mkMQ {
  mq_reg : RegistryInternal; mq_waits : Waits; mq_msgs : gmap positive MessageIntern; mq_mechs : gmap positive (MechanismIntern MsgQueue);
}.

Definition get_msg (ms : gmap positive MessageIntern) (m : positive) : outcome MessageIntern :=
  match ms !! m with Some x => Ret x | None => Panic end.
Definition put_queue_at (st : MQState) (p : positive) (mech : MechanismIntern MsgQueue) (q : MsgQueue) : MQState :=
  mkMQ (mq_reg st) (mq_waits st) (mq_msgs st) (<[p := with_obj mech q]> (mq_mechs st)).
Definition with_mq_waits (st : MQState) (h : Waits) : MQState := mkMQ (mq_reg st) h (mq_msgs st) (mq_mechs st).
Definition with_receivers (q : MsgQueue) (l : WaitList) : MsgQueue :=
  mkQueue (dead q) (senders q) l (messages q) (sendTime q) (receiveTime q) (changeTime q) (byteCount q) (maxBytes q) (sendPID q) (receivePID q).
Definition with_senders (q : MsgQueue) (l : WaitList) : MsgQueue :=
  mkQueue (dead q) l (receivers q) (messages q) (sendTime q) (receiveTime q) (changeTime q) (byteCount q) (maxBytes q) (sendPID q) (receivePID q).

(** ** Which message *)

Fixpoint msgOfType_loop (ms : gmap positive MessageIntern) (mType : Z) (except : bool) (i : nat) (l : list positive)
  : outcome (option (positive * nat)) :=
  match l with
  | [] => Ret None
  | m :: l =>
      x ← get_msg ms m;
      if (if except then negb (msg_Type x =? mType) else msg_Type x =? mType) then Ret (Some (m, i))
      else msgOfType_loop ms mType except (S i) l
  end.
Definition msgOfType (ms : gmap positive MessageIntern) (q : MsgQueue) (mType : Z) (except : bool) : outcome (option (positive * nat)) :=
  msgOfType_loop ms mType except 0 (messages q).

Fixpoint msgOfTypeLessThan_loop (ms : gmap positive MessageIntern) (mType min : Z) (m : option (positive * nat)) (i : nat) (l : list positive)
  : outcome (option (positive * nat)) :=
  match l with
  | [] => Ret m
  | p :: l =>
      msg ← get_msg ms p;
      if (msg_Type msg <=? mType) && (msg_Type msg <? min) then msgOfTypeLessThan_loop ms mType (msg_Type msg) (Some (p, i)) (S i) l
      else msgOfTypeLessThan_loop ms mType min m (S i) l
  end.
Definition msgOfTypeLessThan (ms : gmap positive MessageIntern) (q : MsgQueue) (mType : Z) : outcome (option (positive * nat)) :=
  msgOfTypeLessThan_loop ms mType mType None 0 (messages q).

(** An [i64] sum or negation that wraps. *)
Definition i64 (z : Z) : Z := (z + 2 ^ 63) mod 2 ^ 64 - 2 ^ 63.

Definition msgAtIndex (q : MsgQueue) (mType : Z) : outcome (option positive) :=
  if Z.of_nat (length (messages q)) <? wrap64 (i64 (mType + 1)) then Ret None
  else match messages q !! Z.to_nat mType with Some m => Ret (Some m) | None => Panic end.

(** [MsgQueue::Copy]; the copy is a new message. *)
Definition Copy (ms : gmap positive MessageIntern) (q : MsgQueue) (mType : Z) : outcome (Result MessageIntern) :=
  if (mType <? 0) || (Z.of_nat (length (messages q)) =? 0) then Ret (Err (SysError ENOMSG))
  else
    m ← msgAtIndex q mType;
    match m with
    | None => Ret (Err (SysError ENOMSG))
    | Some m => x ← get_msg ms m; Ret (Ok (mkMsg (msg_Type x) (msg_Text x) (msg_Size x)))
    end.

(** * Operations on a queue *)

Section Operations.
Context (w : World).

Definition Push (st : MQState) (p m : positive) (c : Creds) (pid now : Z) : outcome (MQState * Result unit) :=
  msg ← get_msg (mq_msgs st) m;
  if msg_Type msg <=? 0 then Ret (st, Err (SysError EINVAL))
  else
    mech ← get_mech (mq_mechs st) p;
    ok ← checkPermission w mech c perm_write;
    if negb ok then Ret (st, Err (SysError EACCES))
    else
      let q := m_obj mech in
      if dead q then Ret (st, Err (SysError EIDRM))
      else if (maxBytes q <? msg_Size msg +w byteCount q) || (maxBytes q <? Z.of_nat (length (messages q)) + 1)
      then Ret (st, Err (SysError EWOULDBLOCK))
      else
        let q := mkQueue (dead q) (senders q) (receivers q) (messages q ++ [m]) now (receiveTime q) (changeTime q)
                   (byteCount q +w msg_Size msg) (maxBytes q) pid (receivePID q) in
        h ← Queue_Notify (mq_waits st) (receivers q) EVENT_IN;
        Ret (with_mq_waits (put_queue_at st p mech q) h, Ok tt).

Definition Pop (st : MQState) (p : positive) (c : Creds) (mType maxSize : Z) (truncate except : bool) (pid now : Z)
  : outcome (MQState * Result positive) :=
  mech ← get_mech (mq_mechs st) p;
  ok ← checkPermission w mech c perm_read;
  if negb ok then Ret (st, Err (SysError EACCES))
  else
    let q := m_obj mech in
    if dead q then Ret (st, Err (SysError EIDRM))
    else
      sel ← match messages q with
            | [] => Ret None
            | m :: _ =>
                if mType =? 0 then Ret (Some (m, 0%nat))
                else if 0 <? mType then msgOfType (mq_msgs st) q mType except
                else msgOfTypeLessThan (mq_msgs st) q (i64 (- mType))
            end;
      match sel with
      | None => Ret (st, Err (SysError EWOULDBLOCK))
      | Some (m, idx) =>
          msg ← get_msg (mq_msgs st) m;
          let msgSize := msg_Size msg in
          if (maxSize <? msgSize) && negb truncate then Ret (st, Err (SysError E2BIG))
          else
            let msgs := if maxSize <? msgSize then <[m := Truncate msg maxSize]> (mq_msgs st) else mq_msgs st in
            let q := mkQueue (dead q) (senders q) (receivers q) (delete idx (messages q)) (sendTime q) now (changeTime q)
                       (byteCount q -w msgSize) (maxBytes q) (sendPID q) pid in
            h ← Queue_Notify (mq_waits st) (senders q) EVENT_OUT;
            Ret (mkMQ (mq_reg st) h msgs (<[p := with_obj mech q]> (mq_mechs st)), Ok m)
      end.

(** [MsqidDS], the fields that are used. *)
Record MsqidDS : Type := mkMsqidDS {
  MsgPerm : IPCPerm; MsgStime : Z; MsgRtime : Z; MsgCtime : Z; MsgCbytes : Z; MsgQnum : Z; MsgQbytes : Z; MsgLspid : Z; MsgLrpid : Z;
}.

Definition Queue_Set (st : MQState) (p : positive) (c : Creds) (ds : MsqidDS) (now : Z) : outcome (MQState * Result unit) :=
  mech ← get_mech (mq_mechs st) p;
  cap ← if MAX_QUEUE_BYTES <? MsgQbytes ds then HasCapabilityIn w c CAP_SYS_RESOURCE (m_userNS mech) else Ret true;
  if negb cap then Ret (st, Err (SysError EPERM))
  else
    '(mech, r) ← Mechanism_Set w mech c (MsgPerm ds);
    match r with
    | inl e => Ret (st, Err e)
    | inr _ =>
        let q := m_obj mech in
        Ret (put_queue_at st p mech
               (mkQueue (dead q) (senders q) (receivers q) (messages q) (sendTime q) (receiveTime q) now (byteCount q) (MsgQbytes ds)
                  (sendPID q) (receivePID q)), Ok tt)
    end.

(** [Time::TimeT]: division truncates. *)
Definition TimeT (t : Z) : Z := Z.quot t 1000000000.

Definition stat (st : MQState) (p : positive) (c : Creds) (mask : PermMask) : outcome (Result MsqidDS) :=
  mech ← get_mech (mq_mechs st) p;
  let q := m_obj mech in
  ok ← checkPermission w mech c mask;
  if negb ok then Ret (Err (SysError EACCES))
  else
    uid ← MapFromKUID w (UserNamespace c) (fo_UID (m_owner mech));
    gid ← MapFromKGID w (UserNamespace c) (fo_GID (m_owner mech));
    cuid ← MapFromKUID w (UserNamespace c) (fo_UID (m_creator mech));
    cgid ← MapFromKGID w (UserNamespace c) (fo_GID (m_creator mech));
    Ret (Ok (mkMsqidDS (mkIPCPerm (u32w (m_key mech)) uid gid cuid cgid (LinuxMode (m_perms mech) mod 65536) 0)
               (TimeT (sendTime q)) (TimeT (receiveTime q)) (TimeT (changeTime q)) (byteCount q)
               (Z.of_nat (length (messages q))) (maxBytes q) (sendPID q) (receivePID q))).
Definition Stat (st : MQState) (p : positive) (c : Creds) : outcome (Result MsqidDS) := stat st p c perm_read.
Definition StatAny (st : MQState) (p : positive) (c : Creds) : outcome (Result MsqidDS) := stat st p c (mkPerm false false false).

(** ** Blocking calls *)

Section Blocking.
(** [task.blocker.BlockWithMonoTimer(true, None)], and the time at a state. *)
Variable block : MQState -> outcome (MQState * Result unit).
Variable clock : MQState -> Z.

Definition receivers_upd (st : MQState) (p : positive) (f : Waits -> WaitList -> outcome (Waits * WaitList)) : outcome MQState :=
  mech ← get_mech (mq_mechs st) p;
  '(h, l) ← f (mq_waits st) (receivers (m_obj mech));
  Ret (with_mq_waits (put_queue_at st p mech (with_receivers (m_obj mech) l)) h).
Definition senders_upd (st : MQState) (p : positive) (f : Waits -> WaitList -> outcome (Waits * WaitList)) : outcome MQState :=
  mech ← get_mech (mq_mechs st) p;
  '(h, l) ← f (mq_waits st) (senders (m_obj mech));
  Ret (with_mq_waits (put_queue_at st p mech (with_senders (m_obj mech) l)) h).

(** What the loop returns when blocking fails. *)
Definition block_error (e : Error) : Error := match e with ErrInterrupted => SysError ERESTARTSYS | e => e end.

Fixpoint Send_loop (fuel : nat) (st : MQState) (p m : positive) (c : Creds) (pid : Z) : outcome (MQState * Result unit) :=
  match fuel with
  | O => OutOfFuel
  | S fuel =>
      '(st, r) ← Push st p m c pid (clock st);
      match r with
      | inl (SysError EWOULDBLOCK) =>
          '(st, b) ← block st;
          match b with
          | inl e => Ret (st, Err (block_error e))
          | inr _ => Send_loop fuel st p m c pid
          end
      | r => Ret (st, r)
      end
  end.
Definition Send (fuel : nat) (st : MQState) (p m e : positive) (c : Creds) (wait : bool) (pid : Z) : outcome (MQState * Result unit) :=
  '(st, r) ← Push st p m c pid (clock st);
  match r with
  | inl (SysError EWOULDBLOCK) =>
      if negb wait then Ret (st, Err (SysError EWOULDBLOCK))
      else
        st ← senders_upd st p (fun h l => Queue_EventRegister h l e EVENT_WRITE);
        '(st, r) ← Send_loop fuel st p m c pid;
        st ← senders_upd st p (fun h l => Queue_EventUnregister h l e);
        Ret (st, r)
  | r => Ret (st, r)
  end.

Fixpoint Receive_loop (fuel : nat) (st : MQState) (p : positive) (c : Creds) (mType max : Z) (truncate except : bool) (pid : Z)
  : outcome (MQState * Result positive) :=
  match fuel with
  | O => OutOfFuel
  | S fuel =>
      '(st, r) ← Pop st p c mType max truncate except pid (clock st);
      match r with
      | inl (SysError EWOULDBLOCK) =>
          '(st, b) ← block st;
          match b with
          | inl e => Ret (st, Err (block_error e))
          | inr _ => Receive_loop fuel st p c mType max truncate except pid
          end
      | r => Ret (st, r)
      end
  end.
Definition Receive (fuel : nat) (st : MQState) (p e : positive) (c : Creds) (mType maxSize : Z) (wait truncate except : bool) (pid : Z)
  : outcome (MQState * Result positive) :=
  if (maxSize <? 0) || (MAX_MESSAGE_BYTES <? maxSize) then Ret (st, Err (SysError EINVAL))
  else
    '(st, r) ← Pop st p c mType maxSize truncate except pid (clock st);
    match r with
    | inl (SysError EWOULDBLOCK) =>
        if negb wait then Ret (st, Err (SysError ENOMSG))
        else
          st ← receivers_upd st p (fun h l => Queue_EventRegister h l e EVENT_READ);
          '(st, r) ← Receive_loop fuel st p c mType maxSize truncate except pid;
          st ← receivers_upd st p (fun h l => Queue_EventUnregister h l e);
          Ret (st, r)
    | r => Ret (st, r)
    end.
End Blocking.

(** * The registry of queues *)

Definition NewQueue (st : MQState) (key : Z) (creator : FileOwner) (perms : FilePermissions) (now : Z) : outcome (MQState * Result positive) :=
  let queue := mkQueue false WaitList_default WaitList_default [] 0 0 now 0 MAX_QUEUE_BYTES 0 0 in
  let p := fresh (dom (mq_mechs st)) in
  let ms := <[p := Mechanism_New (r_userNS (mq_reg st)) key creator creator perms queue]> (mq_mechs st) in
  '(r, ms, res) ← Register (mq_reg st) ms p;
  Ret (mkMQ r (mq_waits st) (mq_msgs st) ms, match res with inl e => Err e | inr _ => Ok p end).

Definition MQ_FindOrCreate (st : MQState) (c : Creds) (key mode : Z) (private create exclusive : bool) (now : Z)
  : outcome (MQState * Result positive) :=
  found ← if private then Ret (Ok None) else Registry_Find w (mq_reg st) (mq_mechs st) c key mode create exclusive;
  match found with
  | inl e => Ret (st, Err e)
  | inr (Some p) => Ret (st, Ok p)
  | inr None =>
      if MAX_QUEUES <? ObjectCount (mq_reg st) then Ret (st, Err (SysError ENOSPC))
      else NewQueue st key (mkOwner (EffectiveKUID c) (EffectiveKGID c)) (FilePermissions_FromMode mode) now
  end.

Definition MQ_Remove (st : MQState) (id : Z) (c : Creds) : outcome (MQState * Result unit) :=
  '(r, ms, h, res) ← Registry_Remove w (mq_reg st) (mq_mechs st) (mq_waits st) id c;
  Ret (mkMQ r h (mq_msgs st) ms, res).

Definition MQ_FindById (st : MQState) (id : Z) : Result positive :=
  match Registry_FindById (mq_reg st) id with None => Err (SysError EINVAL) | Some p => Ok p end.

Record MsgInfo : Type := mkMsgInfo {
  MsgPool : Z; MsgMap : Z; MsgMax : Z; MsgMnb : Z; MsgMni : Z; MsgSsz : Z; MsgTql : Z; MsgSeg : Z;
}.
Definition MQ_IPCInfo : MsgInfo := mkMsgInfo (MSGMNI * MSGMNB / 1024) MSGMNB MSGMAX MSGMNB MSGMNI 16 MSGMNB 65535.
Definition MQ_MsgInfo (st : MQState) : outcome MsgInfo :=
  '(n, b) ← ForAllObjects_sum (mq_reg st) (mq_mechs st) (fun q => (Z.of_nat (length (messages q)), byteCount q));
  Ret (mkMsgInfo (to_i32 (ObjectCount (mq_reg st))) (to_i32 n) MSGMAX MSGMNB MSGMNI 16 (to_i32 b) 65535).
End Operations.
