(* ===== verification/MsgSys.v ===== *)
(** The system calls on message queues: qkernel/src/syscalls/sys_msgqueue.rs.

    Access to user memory is the class [MsgMem]: copying the type, the text and the structures
    of msgctl(2) in and out. *)
From S2P Require Import Prelude Auth Perms WaitList Ipc MsgQueue.
#[local] Open Scope Z_scope.

Abbreviation IPC_PRIVATE := 0 (only parsing).
Abbreviation IPC_CREAT := 512 (only parsing).
Abbreviation IPC_EXCL := 1024 (only parsing).
Abbreviation IPC_RMID := 0 (only parsing).
Abbreviation IPC_SET := 1 (only parsing).
Abbreviation IPC_STAT := 2 (only parsing).
Abbreviation IPC_INFO := 3 (only parsing).
Abbreviation MSG_STAT := 11 (only parsing).
Abbreviation MSG_INFO := 12 (only parsing).
Abbreviation MSG_STAT_ANY := 13 (only parsing).
Abbreviation MSG_NOERROR := 4096 (only parsing).
Abbreviation MSG_EXCEPT := 8192 (only parsing).
Abbreviation MSG_COPY := 16384 (only parsing).

Class MsgMem (M : Type) : Type := {
  CopyInType : M -> Z -> Result Z;
  CopyInVec : M -> Z -> Z -> Result (list Z);
  CopyOutType : M -> Z -> Z -> M * Result unit;
  CopyOutSlice : M -> list Z -> Z -> M * Result unit;
  CopyOutInfo : M -> MsgInfo -> Z -> M * Result unit;
  CopyOutDS : M -> MsqidDS -> Z -> M * Result unit;
  CopyInDS : M -> Z -> Result MsqidDS }.

(** [flags & bit == bit] *)
Definition has_flag (flags bit : Z) : bool := Z.land flags bit =? bit.

Section Calls.
Context {M : Type} `{!MsgMem M} (w : World).

(** The calling task. *)
Variables (c : Creds) (e : positive) (pid : Z) (fuel : nat).
Variable block : MQState -> outcome (MQState * Result unit).
Variable clock : MQState -> Z.

Definition SysMsgget (st : MQState) (arg0 arg1 : Z) : outcome (MQState * Result Z) :=
  let key := to_i32 arg0 in
  let flag := to_i32 arg1 in
  let private := key =? IPC_PRIVATE in
  let create := has_flag flag IPC_CREAT in
  let exclusive := has_flag flag IPC_EXCL in
  let mode := Z.land (flag mod 65536) 511 in
  '(st, r) ← MQ_FindOrCreate w st c key mode private create exclusive (clock st);
  match r with
  | inl err => Ret (st, Err err)
  | inr p => mech ← get_mech (mq_mechs st) p; Ret (st, Ok (m_id mech))
  end.

(** A new message in the store. *)
Definition new_msg (st : MQState) (m : MessageIntern) : MQState * positive :=
  let p := fresh (dom (mq_msgs st)) in
  (mkMQ (mq_reg st) (mq_waits st) (<[p := m]> (mq_msgs st)) (mq_mechs st), p).

Definition CopyInMsg (m : M) (addr size : Z) : Result MessageIntern :=
  match CopyInType m addr with
  | inl err => Err err
  | inr type => match CopyInVec m (add64 addr 8) size with
                | inl err => Err err
                | inr text => Ok (Message_New type text)
                end
  end.

Definition SysMsgsnd (st : MQState) (m : M) (arg0 arg1 arg2 arg3 : Z) : outcome (MQState * Result Z) :=
  let id := to_i32 arg0 in
  let size := i64 arg2 in
  let flags := (arg3 + 32768) mod 65536 - 32768 in
  if (size <? 0) || (MSGMAX <? size) then Ret (st, Err (SysError EINVAL))
  else
    let wait := negb (has_flag flags IPC_NOWAIT) in
    match CopyInMsg m arg1 size with
    | inl err => Ret (st, Err err)
    | inr x =>
        let '(st, msg) := new_msg st x in
        match MQ_FindById st id with
        | inl err => Ret (st, Err err)
        | inr p =>
            '(st, r) ← Send w block clock fuel st p msg e c wait pid;
            Ret (st, match r with inl err => Err err | inr _ => Ok 0 end)
        end
    end.

(** [Receive] of this file: the message that is copied or taken. *)
Definition Sys_Receive (st : MQState) (id mType maxSize : Z) (msgCopy wait truncate except : bool)
  : outcome (MQState * Result MessageIntern) :=
  match MQ_FindById st id with
  | inl err => Ret (st, Err err)
  | inr p =>
      if msgCopy then
        if wait || except then Ret (st, Err (SysError EINVAL))
        else mech ← get_mech (mq_mechs st) p; r ← Copy (mq_msgs st) (m_obj mech) mType; Ret (st, r)
      else
        '(st, r) ← Receive w block clock fuel st p e c mType maxSize wait truncate except pid;
        match r with
        | inl err => Ret (st, Err err)
        | inr msg => x ← get_msg (mq_msgs st) msg; Ret (st, Ok x)
        end
  end.

Definition CopyOutMsg (m : M) (addr : Z) (msg : MessageIntern) : M * Result unit :=
  let '(m, r) := CopyOutType m (msg_Type msg) addr in
  match r with
  | inl err => (m, Err err)
  | inr _ => CopyOutSlice m (msg_Text msg) (add64 addr 8)
  end.

Definition SysMsgrcv (st : MQState) (m : M) (arg0 arg1 arg2 arg3 arg4 : Z) : outcome (MQState * M * Result Z) :=
  let id := to_i32 arg0 in
  let size := i64 arg2 in
  let mType := i64 arg3 in
  let flags := to_i32 arg4 in
  let wait := negb (has_flag ((flags + 32768) mod 65536 - 32768) IPC_NOWAIT) in
  let except := has_flag flags MSG_EXCEPT in
  let truncate := has_flag flags MSG_NOERROR in
  let msgCopy := has_flag flags MSG_COPY in
  '(st, r) ← Sys_Receive st id mType size msgCopy wait truncate except;
  match r with
  | inl err => Ret (st, m, Err err)
  | inr msg =>
      let '(m, r) := CopyOutMsg m arg1 msg in
      Ret (st, m, match r with inl err => Err err | inr _ => Ok (msg_Size msg) end)
  end.

Definition SysMsgctl (st : MQState) (m : M) (arg0 arg1 arg2 : Z) : outcome (MQState * M * Result Z) :=
  let id := to_i32 arg0 in
  let cmd := to_i32 arg1 in
  let buf := arg2 in
  let out (r : M * Result unit) : MQState * M * Result Z := (st, r.1, match r.2 with inl err => Err err | inr _ => Ok 0 end) in
  let unit_result (r : MQState * Result unit) : MQState * M * Result Z := (r.1, m, match r.2 with inl err => Err err | inr _ => Ok 0 end) in
  let stat_result (r : Result MsqidDS) : MQState * M * Result Z :=
    match r with inl err => (st, m, Err err) | inr ds => out (CopyOutDS m ds buf) end in
  if cmd =? IPC_INFO then Ret (out (CopyOutInfo m MQ_IPCInfo buf))
  else if cmd =? MSG_INFO then info ← MQ_MsgInfo st; Ret (out (CopyOutInfo m info buf))
  else if cmd =? IPC_RMID then r ← MQ_Remove w st id c; Ret (unit_result r)
  else
    match MQ_FindById st id with
    | inl err => Ret (st, m, Err err)
    | inr p =>
        if (cmd =? MSG_STAT) || (cmd =? IPC_STAT) then r ← Stat w st p c; Ret (stat_result r)
        else if cmd =? MSG_STAT_ANY then r ← StatAny w st p c; Ret (stat_result r)
        else if cmd =? IPC_SET then
          match CopyInDS m buf with
          | inl _ => Ret (st, m, Err (SysError EINVAL))
          | inr ds => r ← Queue_Set w st p c ds (clock st); Ret (unit_result r)
          end
        else Ret (st, m, Err (SysError EINVAL))
    end.
End Calls.
