(* ===== verification/MsgThm.v ===== *)
(** What sending to and receiving from a message queue does.

    The contents of a queue are the types and texts of its messages in order.  The message
    that [Pop] takes is given by [abs_select] on the contents; [push_error] and [pop_error]
    say when a call fails, and [Push_ok] and [Pop_ok] what the calls do to the state. *)
From S2P Require Import Prelude Auth IdentityThm UserNsProps Perms WaitList WaitListThm WaitListOps WaitQueue Ipc IpcThm MsgQueue.
#[local] Open Scope Z_scope.
#[local] Open Scope u64_scope.

(** * Contents *)

Definition shown (ms : gmap positive MessageIntern) (x : positive) : Z * list Z :=
  match ms !! x with Some m => (msg_Type m, msg_Text m) | None => (0, []) end.
Definition contents (ms : gmap positive MessageIntern) (q : MsgQueue) : list (Z * list Z) := shown ms <$> messages q.
Definition total (l : list (Z * list Z)) : Z := foldr (fun m a => Z.of_nat (length m.2) + a) 0 l.

Lemma total_app l1 l2 : total (l1 ++ l2) = total l1 + total l2.
Proof. unfold total. induction l1 as [| m l1 IH]; simpl; [done |]. rewrite IH. lia. Qed.

Lemma total_nonneg l : 0 <= total l.
Proof. unfold total. induction l as [| m l IH]; simpl; lia. Qed.

Lemma delete_split {A} (l : list A) i x : l !! i = Some x -> exists l1 l2, l = l1 ++ x :: l2 /\ delete i l = l1 ++ l2 /\ length l1 = i.
Proof.
  intros Hx. exists (take i l), (drop (S i) l). rewrite delete_take_drop, length_take_le by (apply lookup_lt_Some in Hx; lia).
  by rewrite take_drop_middle.
Qed.

Lemma total_delete l i m : l !! i = Some m -> total (delete i l) = total l - Z.of_nat (length m.2).
Proof. intros (l1 & l2 & -> & -> & _)%delete_split. rewrite !total_app. simpl. lia. Qed.

Lemma elem_of_delete {A} (l : list A) i x : x ∈ delete i l -> x ∈ l.
Proof. rewrite delete_take_drop. intros [H | H]%elem_of_app; [by eapply subseteq_take | by eapply subseteq_drop]. Qed.

(** Cutting a message that is not in the list. *)
Lemma shown_insert_ne ms x m (l : list positive) : x ∉ l -> shown (<[x := m]> ms) <$> l = shown ms <$> l.
Proof.
  intros Hx. apply list_fmap_ext. intros i y Hy. unfold shown. rewrite lookup_insert_ne; [done |].
  intros ->. apply Hx. by eapply list_elem_of_lookup_2.
Qed.

Lemma list_find_ext_in {A} (P Q : A -> Prop) `{!forall x, Decision (P x), !forall x, Decision (Q x)} l :
  (forall x, x ∈ l -> P x <-> Q x) -> list_find P l = list_find Q l.
Proof.
  induction l as [| x l IH]; intros Hx; [done |]. simpl. rewrite IH by set_solver. assert (E : P x <-> Q x) by (apply Hx; set_solver).
  destruct (decide (P x)), (decide (Q x)); [done | exfalso; tauto | exfalso; tauto | done].
Qed.

(** * Which message *)

(** Whether a receiver that asks for [mType] takes a message of type [t]. *)
Definition wants (mType : Z) (except : bool) (m : Z * list Z) : Prop :=
  if decide (mType = 0) then True
  else if decide (0 < mType) then (if except then m.1 <> mType else m.1 = mType)
  else m.1 < i64 (- mType).
#[global] Instance wants_dec mType except m : Decision (wants mType except m).
Proof. unfold wants. repeat case_decide; [apply _ | destruct except; apply _ | apply _]. Defined.

Lemma wants_pos mType except m : 0 < mType -> wants mType except m <-> if except then m.1 <> mType else m.1 = mType.
Proof. intros H. unfold wants. by rewrite decide_False, decide_True by lia. Qed.

Lemma wants_neg mType except m : mType < 0 -> wants mType except m <-> m.1 < i64 (- mType).
Proof. intros H. unfold wants. by rewrite !decide_False by lia. Qed.

(** The first message that is wanted; for a negative type, the first of the lowest type. *)
Definition abs_select (mType : Z) (except : bool) (l : list (Z * list Z)) : option nat :=
  fst <$> list_find (fun m => wants mType except m /\ (mType < 0 -> Forall (fun m' => m.1 <= m'.1) l)) l.

Lemma least_type (l : list (Z * list Z)) : l <> [] -> exists m, m ∈ l /\ Forall (fun m' => m.1 <= m'.1) l.
Proof.
  induction l as [| m l IH]; [done |]. intros _. destruct l as [| m' l]; [exists m; split; [set_solver | by repeat constructor] |].
  destruct IH as (x & Hx & Hl); [done |]. destruct (Z.le_gt_cases m.1 x.1) as [Hle | Hgt].
  - exists m. split; [set_solver |]. constructor; [done |]. eapply Forall_impl; [exact Hl |]. simpl. lia.
  - exists x. split; [set_solver |]. constructor; [lia | done].
Qed.

(** A message is selected exactly if there is one that is wanted. *)
Lemma abs_select_some mType except l : is_Some (abs_select mType except l) <-> exists m, m ∈ l /\ wants mType except m.
Proof.
  unfold abs_select. rewrite fmap_is_Some. split.
  - intros [[i m] (Hi & (Hm & _) & _)%list_find_Some]. exists m. split; [by eapply list_elem_of_lookup_2 | done].
  - intros (m & Hm & Hw). destruct (decide (mType < 0)) as [Hneg | Hpos].
    + destruct (least_type l) as (x & Hx & Hl); [by intros ->; apply elem_of_nil in Hm |]. eapply list_find_elem_of; [exact Hx |]. split; [| done].
      revert Hw. rewrite !wants_neg by done. rewrite Forall_forall in Hl. specialize (Hl _ Hm). lia.
    + eapply list_find_elem_of; [exact Hm |]. split; [done | lia].
Qed.

(** The position of [pick]: the message there, with the index the loops count. *)
Definition pick (i : nat) (l : list positive) (o : option nat) : option (positive * nat) :=
  match o with Some j => (fun x => (x, (i + j)%nat)) <$> l !! j | None => None end.

Lemma pick_S i x l o : pick i (x :: l) (S <$> o) = pick (S i) l o.
Proof. destruct o as [j |]; [| done]. simpl. destruct (l !! j); [| done]. simpl. do 2 f_equal. lia. Qed.

Section Select.
Context (ms : gmap positive MessageIntern).
Let view (l : list positive) : list (Z * list Z) := shown ms <$> l.

Lemma get_msg_ok x m : ms !! x = Some m -> get_msg ms x = Ret m.
Proof. intros H. unfold get_msg. by rewrite H. Qed.

Lemma msgOfType_loop_ok mType except i l :
  0 < mType -> (forall x, x ∈ l -> is_Some (ms !! x)) ->
  msgOfType_loop ms mType except i l = Ret (pick i l (fst <$> list_find (wants mType except) (view l))).
Proof.
  intros Ht. revert i. induction l as [| x l IH]; intros i Hl; [done |]. destruct (Hl x) as [m Hm]; [set_solver |].
  simpl. rewrite (get_msg_ok x m), bind_ret, IH by (done || set_solver).
  assert (Es : shown ms x = (msg_Type m, msg_Text m)) by (unfold shown; by rewrite Hm). rewrite Es.
  assert (E : bool_decide (wants mType except (msg_Type m, msg_Text m)) = (if except then negb (msg_Type m =? mType) else msg_Type m =? mType)).
  { destruct (Z.eqb_spec (msg_Type m) mType), except; simpl; first [apply bool_decide_eq_true_2 | apply bool_decide_eq_false_2];
      rewrite wants_pos by done; simpl; auto. }
  rewrite <- E. destruct (decide (wants mType except (msg_Type m, msg_Text m))) as [Hw | Hw].
  - rewrite bool_decide_eq_true_2 by done. simpl. by rewrite Nat.add_0_r.
  - rewrite bool_decide_eq_false_2 by done. f_equal. rewrite <- (pick_S i x l). f_equal. by destruct (list_find _ (view l)) as [[j y] |].
Qed.

(** The reference for the second loop: the first message of the lowest type, below [b]. *)
Definition lowest (b : Z) (l : list (Z * list Z)) : option nat := fst <$> list_find (fun m => m.1 < b /\ Forall (fun m' => m.1 <= m'.1) l) l.

Lemma lowest_none b l : lowest b l = None -> Forall (fun m => b <= m.1) l.
Proof.
  intros H. apply Forall_forall. intros m Hm. apply Z.nlt_ge. intros Hlt. destruct (least_type l) as (x & Hx & Hl); [by intros ->; apply elem_of_nil in Hm |].
  unfold lowest in H. apply fmap_None, list_find_None in H. rewrite Forall_forall in H, Hl. apply (H x Hx). split; [specialize (Hl _ Hm); lia | by apply Forall_forall].
Qed.

Lemma lowest_cons b m l : lowest b (m :: l) =
  match lowest (Z.min b m.1) l with Some j => Some (S j) | None => if decide (m.1 < b) then Some 0%nat else None end.
Proof.
  unfold lowest at 1. simpl. destruct (lowest (Z.min b m.1) l) as [j |] eqn:Ej.
  - unfold lowest in Ej. destruct (list_find _ l) as [[j' x] |] eqn:Ef in Ej; [| done]. injection Ej as ->.
    pose proof Ef as (Hx & (Hlt & Hl) & _)%list_find_Some.
    rewrite decide_False by (intros [_ [_ Hm]%Forall_cons]; rewrite Forall_forall in Hm; specialize (Hm x (list_elem_of_lookup_2 _ _ _ Hx)); lia).
    rewrite (list_find_ext_in _ (fun m0 => m0.1 < Z.min b m.1 /\ Forall (fun m' => m0.1 <= m'.1) l)); [by rewrite Ef |].
    intros y Hy. rewrite Forall_cons. split; [intros (H1 & H2 & H3) | intros (H1 & H3)].
    + split; [| done]. rewrite Forall_forall in H3. specialize (H3 x (list_elem_of_lookup_2 _ _ _ Hx)). lia.
    + split_and!; [lia | lia | done].
  - pose proof (lowest_none _ _ Ej) as Hn. destruct (decide (m.1 < b)) as [Hlt | Hge].
    + rewrite decide_True; [done |]. split; [done |]. constructor; [done |]. eapply Forall_impl; [exact Hn |]. simpl. lia.
    + rewrite decide_False by lia. destruct (list_find _ l) as [[j x] |] eqn:Ef; [| done].
      apply list_find_Some in Ef as (Hx & (Hlt & _) & _). rewrite Forall_forall in Hn. specialize (Hn x (list_elem_of_lookup_2 _ _ _ Hx)). lia.
Qed.

Lemma msgOfTypeLessThan_loop_ok mType b acc i l :
  b <= mType -> (forall x, x ∈ l -> is_Some (ms !! x)) ->
  msgOfTypeLessThan_loop ms mType b acc i l = Ret (match lowest b (view l) with Some j => pick i l (Some j) | None => acc end).
Proof.
  revert b acc i. induction l as [| x l IH]; intros b acc i Hb Hl; [done |]. destruct (Hl x) as [m Hm]; [set_solver |].
  assert (Hl' : forall y, y ∈ l -> is_Some (ms !! y)) by set_solver.
  cbn [msgOfTypeLessThan_loop]. rewrite (get_msg_ok x m), bind_ret by done. unfold view. rewrite fmap_cons. fold (view l). rewrite lowest_cons.
  assert (Es : (shown ms x).1 = msg_Type m) by (unfold shown; by rewrite Hm). rewrite Es.
  destruct (Z.ltb_spec (msg_Type m) b) as [Hlt | Hge].
  - rewrite (proj2 (Z.leb_le (msg_Type m) mType)) by lia. cbn [andb]. rewrite IH by (done || lia). rewrite Z.min_r by lia.
    rewrite decide_True by done. destruct (lowest (msg_Type m) (view l)) as [j |]; f_equal; [symmetry; apply (pick_S i x l (Some j)) |].
    simpl. by rewrite Nat.add_0_r.
  - rewrite andb_false_r. rewrite IH by done. rewrite Z.min_l by lia. rewrite decide_False by lia.
    destruct (lowest b (view l)) as [j |]; f_equal. symmetry. apply (pick_S i x l (Some j)).
Qed.
End Select.

(** [Pop]'s choice. *)
Lemma select_ok ms q mType except :
  (forall x, x ∈ messages q -> is_Some (ms !! x)) ->
  match messages q with
  | [] => Ret None
  | m :: _ =>
      if mType =? 0 then Ret (Some (m, 0%nat))
      else if 0 <? mType then msgOfType ms q mType except else msgOfTypeLessThan ms q (i64 (- mType))
  end = Ret (pick 0 (messages q) (abs_select mType except (contents ms q))).
Proof.
  intros Hq. unfold contents, abs_select, msgOfType, msgOfTypeLessThan. destruct (messages q) as [| x l] eqn:El; [done |].
  destruct (Z.eqb_spec mType 0) as [-> | N0].
  { rewrite fmap_cons. cbn [list_find]. rewrite decide_True; [done |]. split; [done | lia]. }
  destruct (Z.ltb_spec 0 mType) as [Hp | Hn].
  - rewrite msgOfType_loop_ok by done. do 3 f_equal. apply list_find_ext_in. intros m _. split; [intros Hm; split; [done | lia] | by intros []].
  - rewrite msgOfTypeLessThan_loop_ok by done. unfold lowest. f_equal.
    rewrite (list_find_ext_in _ (fun m => wants mType except m /\ (mType < 0 -> Forall (fun m' => m.1 <= m'.1) (shown ms <$> x :: l)))).
    + by destruct (list_find _ _) as [[j m] |].
    + intros m _. rewrite wants_neg by lia. split; [intros [??]; done | intros [? H]; split; [done | apply H; lia]].
Qed.

(** * Sending and receiving *)

Definition full (q : MsgQueue) (n : Z) : bool := (maxBytes q <? n +w byteCount q) || (maxBytes q <? Z.of_nat (length (messages q)) + 1).

Definition push_error (ok : bool) (msg : MessageIntern) (q : MsgQueue) : option SysErr :=
  if msg_Type msg <=? 0 then Some EINVAL
  else if negb ok then Some EACCES
  else if dead q then Some EIDRM
  else if full q (msg_Size msg) then Some EWOULDBLOCK
  else None.

Definition pushed (q : MsgQueue) (x : positive) (n pid now : Z) : MsgQueue :=
  mkQueue (dead q) (senders q) (receivers q) (messages q ++ [x]) now (receiveTime q) (changeTime q) (byteCount q +w n) (maxBytes q) pid (receivePID q).

Definition popped (q : MsgQueue) (i : nat) (n pid now : Z) : MsgQueue :=
  mkQueue (dead q) (senders q) (receivers q) (delete i (messages q)) (sendTime q) now (changeTime q) (byteCount q -w n) (maxBytes q) (sendPID q) pid.

(** Why [Pop] fails, or the index of the message. *)
Definition pop_result (ok : bool) (ms : gmap positive MessageIntern) (q : MsgQueue) (mType maxSize : Z) (truncate except : bool) : SysErr + nat :=
  if negb ok then inl EACCES
  else if dead q then inl EIDRM
  else match abs_select mType except (contents ms q) with
       | None => inl EWOULDBLOCK
       | Some i =>
           match contents ms q !! i with
           | Some m => if (maxSize <? Z.of_nat (length m.2)) && negb truncate then inl E2BIG else inr i
           | None => inl EWOULDBLOCK
           end
       end.

Section Calls.
Context (w : World) (Hwf : wf w).

Lemma Push_ok st p x c pid now mech msg R :
  mq_msgs st !! x = Some msg -> mq_mechs st !! p = Some mech -> is_Some (w_ns w !! m_userNS mech) ->
  wl_rep (mq_waits st) (receivers (m_obj mech)) R -> waits_ok (mq_waits st) -> threads (mq_waits st) R ->
  returns (Push w st p x c pid now) (fun '(st', r) =>
    match push_error (allowed w mech c perm_write) msg (m_obj mech) with
    | Some e => st' = st /\ r = Err (SysError e)
    | None => r = Ok tt /\ exists h', (forall e, entries h' !! e = entries (mq_waits st) !! e) /\
        rings (reached (mq_waits st) EVENT_IN R) (mq_waits st) h' /\
        st' = mkMQ (mq_reg st) h' (mq_msgs st) (<[p := with_obj mech (pushed (m_obj mech) x (msg_Size msg) pid now)]> (mq_mechs st))
    end).
Proof.
  intros Hx Hp Hn Hr Ho Ht. unfold Push, push_error. rewrite (get_msg_ok _ _ _ Hx), bind_ret.
  destruct (msg_Type msg <=? 0); [by apply returns_ret |]. unfold get_mech. rewrite Hp, bind_ret, checkPermission_ret, bind_ret by done.
  destruct (allowed w mech c perm_write); cbn [negb]; [| by apply returns_ret]. destruct (dead (m_obj mech)) eqn:Ed; [by apply returns_ret |].
  change (_ || _) with (full (m_obj mech) (msg_Size msg)). destruct (full (m_obj mech) (msg_Size msg)); [by apply returns_ret |].
  eapply returns_bind; [by apply (Queue_Notify_ok _ _ R) |]. intros h' [He Hrg]. apply returns_ret. split; [done |]. exists h'. split_and!; [done | done |]. unfold pushed. by rewrite Ed.
Qed.

Lemma abs_select_lookup mType except l i : abs_select mType except l = Some i -> exists m, l !! i = Some m /\ wants mType except m.
Proof. unfold abs_select. intros ([j m] & (Hm & [Hw _] & _)%list_find_Some & ->)%fmap_Some. by exists m. Qed.

Lemma Pop_ok st p c mType maxSize truncate except pid now mech S :
  mq_mechs st !! p = Some mech -> is_Some (w_ns w !! m_userNS mech) -> 
  (forall x, x ∈ messages (m_obj mech) -> is_Some (mq_msgs st !! x)) ->
  (forall x m, mq_msgs st !! x = Some m -> msg_Size m = Z.of_nat (length (msg_Text m))) ->
  wl_rep (mq_waits st) (senders (m_obj mech)) S -> waits_ok (mq_waits st) -> threads (mq_waits st) S ->
  returns (Pop w st p c mType maxSize truncate except pid now) (fun '(st', r) =>
    match pop_result (allowed w mech c perm_read) (mq_msgs st) (m_obj mech) mType maxSize truncate except with
    | inl e => st' = st /\ r = Err (SysError e)
    | inr i => exists x msg h', messages (m_obj mech) !! i = Some x /\ mq_msgs st !! x = Some msg /\ r = Ok x /\
        (forall e, entries h' !! e = entries (mq_waits st) !! e) /\ rings (reached (mq_waits st) EVENT_OUT S) (mq_waits st) h' /\
        st' = mkMQ (mq_reg st) h' (if maxSize <? msg_Size msg then <[x := Truncate msg maxSize]> (mq_msgs st) else mq_msgs st)
                (<[p := with_obj mech (popped (m_obj mech) i (msg_Size msg) pid now)]> (mq_mechs st))
    end).
Proof.
  intros Hp Hn Hq Hsz Hs Ho Ht. unfold Pop, pop_result. unfold get_mech. rewrite Hp, bind_ret, checkPermission_ret, bind_ret by done.
  destruct (allowed w mech c perm_read); cbn [negb]; [| by apply returns_ret]. destruct (dead (m_obj mech)) eqn:Ed; [by apply returns_ret |].
  rewrite select_ok, bind_ret by done. destruct (abs_select mType except (contents (mq_msgs st) (m_obj mech))) as [i |] eqn:Ei; [| by apply returns_ret].
  destruct (abs_select_lookup _ _ _ _ Ei) as (m & Hm & _). pose proof Hm as (x & -> & Hx)%list_lookup_fmap_Some.
  cbn [pick]. rewrite Hx. cbn [fmap option_fmap option_map]. destruct (Hq x (list_elem_of_lookup_2 _ _ _ Hx)) as [msg Hmsg].
  rewrite (get_msg_ok _ _ _ Hmsg), bind_ret, Hm. assert (El : (shown (mq_msgs st) x).2 = msg_Text msg) by (unfold shown; by rewrite Hmsg).
  rewrite El, <- (Hsz _ _ Hmsg). cbv zeta. destruct (maxSize <? msg_Size msg) eqn:Em, truncate; cbn [negb andb]; try by apply returns_ret.
  all: eapply returns_bind; [by apply (Queue_Notify_ok _ _ S) |]; intros h' [He Hrg]; apply returns_ret; exists x, msg, h'; rewrite ?Em; unfold popped; rewrite Ed; by split_and!.
Qed.
End Calls.
