(* ===== verification/MsgInv.v ===== *)
(** The invariant of the message queues and that every operation preserves it.

    [mq_inv st Q]: the registry is consistent; a queue is alive exactly while it is
    registered; no message is in two places; the byte count is that of the messages; the
    waiting senders ([Q p false]) and receivers ([Q p true]) of queue [p] are well-formed
    lists, and no entry is in two of them. *)
From S2P Require Import Prelude Auth IdentityThm UserNsProps Perms WaitList WaitListThm WaitListOps WaitQueue Ipc IpcThm MsgQueue MsgThm.
#[local] Open Scope Z_scope.
#[local] Open Scope u64_scope.

Record queue_ok (ms : gmap positive MessageIntern) (q : MsgQueue) : Prop := {
  qo_msgs : forall x, x ∈ messages q -> is_Some (ms !! x);
  qo_nodup : NoDup (messages q);
  qo_bytes : byteCount q = wrap64 (total (contents ms q)) }.

Definition wait_list (q : MsgQueue) (b : bool) : WaitList := if b then receivers q else senders q.

Record mq_inv (w : World) (st : MQState) (Q : positive -> bool -> list positive) : Prop := {
  mi_reg : reg_ok w (mq_reg st) (mq_mechs st);
  mi_ns : forall p m, mq_mechs st !! p = Some m -> is_Some (w_ns w !! m_userNS m);
  mi_live : forall p m, mq_mechs st !! p = Some m -> dead (m_obj m) = false <-> objects (mq_reg st) !! m_id m = Some p;
  mi_queue : forall p m, mq_mechs st !! p = Some m -> queue_ok (mq_msgs st) (m_obj m);
  mi_sep : forall p p' m m' x, mq_mechs st !! p = Some m -> mq_mechs st !! p' = Some m' ->
    x ∈ messages (m_obj m) -> x ∈ messages (m_obj m') -> p = p';
  mi_size : forall x m, mq_msgs st !! x = Some m -> msg_Size m = Z.of_nat (length (msg_Text m));
  mi_rep : forall p m b, mq_mechs st !! p = Some m -> wl_rep (mq_waits st) (wait_list (m_obj m) b) (Q p b);
  mi_none : forall p b, mq_mechs st !! p = None -> Q p b = [];
  mi_disj : forall p b p' b' e, e ∈ Q p b -> e ∈ Q p' b' -> p = p' /\ b = b';
  mi_free : forall e, is_Some (entries (mq_waits st) !! e) -> (forall p b, e ∉ Q p b) -> unlinked (mq_waits st) e;
  mi_threads : forall e, is_Some (entries (mq_waits st) !! e) -> is_Some (ctx (mq_waits st) e);
  mi_ok : waits_ok (mq_waits st) }.

Section Inv.
Context (w : World) (Hwf : wf w).
Implicit Types (st : MQState) (Q : positive -> bool -> list positive).

Lemma mi_in st Q p b e : mq_inv w st Q -> e ∈ Q p b -> exists m, mq_mechs st !! p = Some m /\ is_Some (entries (mq_waits st) !! e).
Proof.
  intros Hi He. destruct (mq_mechs st !! p) as [m |] eqn:Hm; [| rewrite (mi_none _ _ _ Hi p b Hm) in He; by apply elem_of_nil in He].
  exists m. split; [done |]. eapply seg_links; [apply (mi_rep _ _ _ Hi p m b Hm) | done].
Qed.

Lemma mi_threads_in st Q p b : mq_inv w st Q -> threads (mq_waits st) (Q p b).
Proof. intros Hi e He. destruct (mi_in _ _ _ _ _ Hi He) as (m & _ & Hs). by apply (mi_threads _ _ _ Hi). Qed.

(** A queue changes, with its wait lists, and events happen. *)
Lemma inv_update st Q p mech m' ms' h' L :
  mq_inv w st Q -> mq_mechs st !! p = Some mech ->
  m_userNS m' = m_userNS mech -> m_id m' = m_id mech -> m_key m' = m_key mech ->
  dead (m_obj m') = dead (m_obj mech) -> (forall b, wait_list (m_obj m') b = wait_list (m_obj mech) b) ->
  queue_ok ms' (m_obj m') -> (forall p' m2, p' <> p -> mq_mechs st !! p' = Some m2 -> queue_ok ms' (m_obj m2)) ->
  (forall x, x ∈ messages (m_obj m') -> x ∈ messages (m_obj mech) \/ forall p' m2, mq_mechs st !! p' = Some m2 -> x ∉ messages (m_obj m2)) ->
  (forall x m, ms' !! x = Some m -> msg_Size m = Z.of_nat (length (msg_Text m))) ->
  (forall e, entries h' !! e = entries (mq_waits st) !! e) -> rings L (mq_waits st) h' ->
  mq_inv w (mkMQ (mq_reg st) h' ms' (<[p := m']> (mq_mechs st))) Q.
Proof.
  intros [Rg Ns Lv Qu Sp Sz Rp No Dj Fr Th Ok] Hp Eu Ei Ek Ed Ew Hq' Hqo Hm' Hs' He Hr.
  assert (Hl : forall x, links h' x = links (mq_waits st) x) by (intros x; unfold links; by rewrite He).
  assert (Hc : forall x, ctx h' x = ctx (mq_waits st) x) by (intros x; unfold ctx; by rewrite He).
  assert (Hx : forall x y, <[p := m']> (mq_mechs st) !! x = Some y -> (x = p /\ y = m') \/ (x <> p /\ mq_mechs st !! x = Some y)).
  { intros x y. destruct (decide (x = p)) as [-> | N]; [rewrite lookup_insert_eq; naive_solver | rewrite lookup_insert_ne by done; naive_solver]. }
  split; simpl.
  - by apply (reg_ok_put w _ _ p mech).
  - intros x y [[-> ->] | [_ Hy]]%Hx; [rewrite Eu |]; eauto.
  - intros x y [[-> ->] | [_ Hy]]%Hx; [rewrite Ed, Ei; by apply Lv | by apply Lv].
  - intros x y [[-> ->] | [N Hy]]%Hx; [done | by eapply Hqo].
  - intros x x' y y' z [[-> ->] | [N Hy]]%Hx [[-> ->] | [N' Hy']]%Hx Hz Hz'; [done | | | by eapply (Sp x x')].
    + destruct (Hm' z Hz) as [Hz0 | Hz0]; [by eapply (Sp p x') | by destruct (Hz0 _ _ Hy')].
    + destruct (Hm' z Hz') as [Hz0 | Hz0]; [by eapply (Sp x p) | by destruct (Hz0 _ _ Hy)].
  - done.
  - intros x y b [[-> ->] | [_ Hy]]%Hx; [rewrite Ew |]; apply (wl_rep_links (mq_waits st)); auto.
  - intros x b Hn. apply No. destruct (decide (x = p)) as [-> | N]; [by rewrite lookup_insert_eq in Hn | by rewrite lookup_insert_ne in Hn].
  - done.
  - intros e. rewrite He. unfold unlinked. rewrite Hl. apply Fr.
  - intros e. rewrite He, Hc. apply Th.
  - eapply (effect_ok [] [] Key_default L); [by apply rings_effect | done].
Qed.

Lemma queue_ok_msgs ms x m q : x ∉ messages q -> queue_ok ms q -> queue_ok (<[x := m]> ms) q.
Proof.
  intros Hx [M N B]. split; [| done |].
  - intros y Hy. destruct (decide (y = x)) as [-> | Ne]; [by rewrite lookup_insert_eq | rewrite lookup_insert_ne by done; auto].
  - rewrite B. unfold contents. by rewrite shown_insert_ne.
Qed.

Lemma queue_ok_pushed ms q x msg pid now :
  queue_ok ms q -> ms !! x = Some msg -> msg_Size msg = Z.of_nat (length (msg_Text msg)) -> x ∉ messages q -> queue_ok ms (pushed q x (msg_Size msg) pid now).
Proof.
  intros [M N B] Hx Hs Hn. split; simpl.
  - intros y [Hy | ->%list_elem_of_singleton]%elem_of_app; [by apply M | by rewrite Hx].
  - by apply NoDup_snoc.
  - unfold contents. simpl. rewrite fmap_app, total_app, B, Hs. unfold add64, wrap64. rewrite Zplus_mod_idemp_l. f_equal. f_equal.
    simpl. unfold shown. rewrite Hx. simpl. lia.
Qed.

Lemma NoDup_delete {A} (l : list A) i x : NoDup l -> l !! i = Some x -> NoDup (delete i l) /\ x ∉ delete i l.
Proof.
  intros Hn (l1 & l2 & -> & -> & _)%delete_split. rewrite <- Permutation_middle in Hn. by apply NoDup_cons in Hn as [??].
Qed.

Lemma queue_ok_popped ms q i x msg pid now :
  queue_ok ms q -> messages q !! i = Some x -> ms !! x = Some msg -> msg_Size msg = Z.of_nat (length (msg_Text msg)) ->
  queue_ok ms (popped q i (msg_Size msg) pid now).
Proof.
  intros [M N B] Hi Hx Hs. destruct (NoDup_delete _ _ _ N Hi) as [Hn _]. split; simpl; [| done |].
  - intros y Hy%elem_of_delete. by apply M.
  - unfold contents. simpl. rewrite list_fmap_delete, (total_delete _ i (shown ms x)) by (by rewrite list_lookup_fmap, Hi).
    rewrite B, Hs. unfold sub64, wrap64. rewrite Zminus_mod_idemp_l. do 2 f_equal. unfold shown. by rewrite Hx.
Qed.

(** ** Sending and receiving *)

Lemma push_inv st Q p x c pid now mech msg :
  mq_inv w st Q -> mq_mechs st !! p = Some mech -> mq_msgs st !! x = Some msg ->
  (forall p' m2, mq_mechs st !! p' = Some m2 -> x ∉ messages (m_obj m2)) ->
  returns (Push w st p x c pid now) (fun '(st', r) => mq_inv w st' Q /\
    match push_error (allowed w mech c perm_write) msg (m_obj mech) with
    | Some e => st' = st /\ r = Err (SysError e)
    | None => r = Ok tt /\ mq_reg st' = mq_reg st /\ mq_msgs st' = mq_msgs st /\
        mq_mechs st' = <[p := with_obj mech (pushed (m_obj mech) x (msg_Size msg) pid now)]> (mq_mechs st) /\
        (forall e, entries (mq_waits st') !! e = entries (mq_waits st) !! e) /\
        rings (reached (mq_waits st) EVENT_IN (Q p true)) (mq_waits st) (mq_waits st')
    end).
Proof.
  intros Hi Hp Hx Hf. eapply returns_mono.
  { apply (Push_ok w Hwf st p x c pid now mech msg (Q p true)); [done | done | by eapply mi_ns | by apply (mi_rep _ _ _ Hi p mech true) | apply Hi | by apply mi_threads_in]. }
  intros [st' r]. destruct (push_error _ msg (m_obj mech)) as [e |]; [by intros [-> ->] |].
  intros (-> & h' & He & Hr & ->). split; [| by split_and!]. pose proof (mi_queue _ _ _ Hi p mech Hp) as Hq.
  eapply (inv_update st Q p mech); [done | done | done | done | done | done | by intros [] | | | | apply Hi | done | done].
  - apply queue_ok_pushed; [done | done | by apply (mi_size _ _ _ Hi x) | by eapply Hf].
  - intros p' m2 _ Hm2. by apply (mi_queue _ _ _ Hi p').
  - intros y. simpl. intros [Hy | ->%list_elem_of_singleton]%elem_of_app; [by left | right; done].
Qed.

Lemma pop_inv st Q p c mType maxSize truncate except pid now mech :
  mq_inv w st Q -> mq_mechs st !! p = Some mech -> 0 <= maxSize ->
  returns (Pop w st p c mType maxSize truncate except pid now) (fun '(st', r) => mq_inv w st' Q /\
    match pop_result (allowed w mech c perm_read) (mq_msgs st) (m_obj mech) mType maxSize truncate except with
    | inl e => st' = st /\ r = Err (SysError e)
    | inr i => exists x msg, messages (m_obj mech) !! i = Some x /\ mq_msgs st !! x = Some msg /\ r = Ok x /\ mq_reg st' = mq_reg st /\
        mq_msgs st' = (if maxSize <? msg_Size msg then <[x := Truncate msg maxSize]> (mq_msgs st) else mq_msgs st) /\
        mq_mechs st' = <[p := with_obj mech (popped (m_obj mech) i (msg_Size msg) pid now)]> (mq_mechs st) /\
        (forall e, entries (mq_waits st') !! e = entries (mq_waits st) !! e) /\
        rings (reached (mq_waits st) EVENT_OUT (Q p false)) (mq_waits st) (mq_waits st')
    end).
Proof.
  intros Hi Hp Hmax. pose proof (mi_queue _ _ _ Hi p mech Hp) as Hq. eapply returns_mono.
  { apply (Pop_ok w Hwf st p c mType maxSize truncate except pid now mech (Q p false)); [done | by eapply mi_ns | apply Hq | apply Hi |
      by apply (mi_rep _ _ _ Hi p mech false) | apply Hi | by apply mi_threads_in]. }
  intros [st' r]. destruct (pop_result _ _ _ _ _ _ _) as [e | i]; [by intros [-> ->] |].
  intros (x & msg & h' & Hxi & Hx & -> & He & Hr & ->). split; [| exists x, msg; by split_and!].
  pose proof (mi_size _ _ _ Hi x msg Hx) as Hsz. destruct (NoDup_delete _ _ _ (qo_nodup _ _ Hq) Hxi) as [_ Hnx].
  assert (Hxin : x ∈ messages (m_obj mech)) by (by eapply list_elem_of_lookup_2).
  eapply (inv_update st Q p mech); [done | done | done | done | done | done | by intros [] | | | | | done | done].
  - assert (Hqp : queue_ok (mq_msgs st) (popped (m_obj mech) i (msg_Size msg) pid now)) by (by apply (queue_ok_popped _ _ _ x)).
    destruct (maxSize <? msg_Size msg); [by apply queue_ok_msgs | done].
  - intros p' m2 Np Hm2. pose proof (mi_queue _ _ _ Hi p' m2 Hm2) as Hq2. destruct (maxSize <? msg_Size msg); [| done].
    apply queue_ok_msgs; [| done]. intros Hx2. apply Np. by eapply (mi_sep _ _ _ Hi p' p).
  - intros y Hy%elem_of_delete. by left.
  - intros y m. destruct (maxSize <? msg_Size msg); [| apply Hi]. destruct (decide (y = x)) as [-> | N].
    + rewrite lookup_insert_eq. intros [= <-]. simpl. rewrite length_resize. lia.
    + rewrite lookup_insert_ne by done. apply Hi.
Qed.

(** ** Changing and removing a queue *)

Definition set_max (q : MsgQueue) (n now : Z) : MsgQueue :=
  mkQueue (dead q) (senders q) (receivers q) (messages q) (sendTime q) (receiveTime q) now (byteCount q) n (sendPID q) (receivePID q).

Lemma set_inv st Q p c ds now mech :
  mq_inv w st Q -> mq_mechs st !! p = Some mech -> is_Some (w_ns w !! UserNamespace c) ->
  returns (Queue_Set w st p c ds now) (fun '(st', r) => mq_inv w st' Q /\
    match r with
    | inl _ => st' = st
    | inr _ => mq_reg st' = mq_reg st /\ mq_waits st' = mq_waits st /\ mq_msgs st' = mq_msgs st /\
        exists m', mq_mechs st' = <[p := m']> (mq_mechs st) /\ m_obj m' = set_max (m_obj mech) (MsgQbytes ds) now
    end).
Proof.
  intros Hi Hp Hc. pose proof (mi_ns _ _ _ Hi p mech Hp) as Hn. unfold Queue_Set, get_mech. rewrite Hp, bind_ret.
  eapply (returns_bind _ _ (fun _ => True)).
  { destruct (MAX_QUEUE_BYTES <? MsgQbytes ds); [| by apply returns_ret].
    destruct (HasCapabilityIn_ret w Hwf c CAP_SYS_RESOURCE (m_userNS mech) ltac:(done) Hn) as [b ->]. by apply returns_ret. }
  intros [|] _; cbn [negb]; [| by apply returns_ret].
  eapply returns_bind; [by apply Mechanism_Set_ok |]. intros [m1 r] (E1 & E2 & E3 & E4 & Hr). cbv beta iota. destruct r as [e | u]; [by apply returns_ret |].
  apply returns_ret. rewrite E4. split; [| split_and!; [done.. |]; eexists; split; [done |]; done].
  eapply (inv_update st Q p mech); [done | done | done | done | done | done | by intros [] | | | | apply Hi | done | by apply rings_refl].
  - destruct (mi_queue _ _ _ Hi p mech Hp). by split.
  - intros p' m2 _ Hm2. by apply (mi_queue _ _ _ Hi p').
  - intros x Hx. by left.
Qed.

Definition killed (q : MsgQueue) : MsgQueue :=
  mkQueue true (senders q) (receivers q) (messages q) (sendTime q) (receiveTime q) (changeTime q) (byteCount q) (maxBytes q) (sendPID q) (receivePID q).

(** Events of senders and receivers. *)
Lemma destroy_ok st Q p mech :
  mq_inv w st Q -> mq_mechs st !! p = Some mech ->
  returns (Destory (mq_waits st) (m_obj mech)) (fun '(h', q') => q' = killed (m_obj mech) /\
    (forall e, entries h' !! e = entries (mq_waits st) !! e) /\
    rings (reached (mq_waits st) EVENT_OUT (Q p false) ++ reached (mq_waits st) EVENT_IN (Q p true)) (mq_waits st) h').
Proof.
  intros Hi Hp. simpl.
  eapply returns_bind; [apply (Queue_Notify_ok _ _ (Q p false)); [by apply (mi_rep _ _ _ Hi p mech false) | apply Hi | by apply mi_threads_in] |].
  intros h1 [He1 Hr1]. pose proof (rings_effect [] Key_default _ _ _ He1 Hr1) as Ef.
  eapply returns_bind.
  { apply (Queue_Notify_ok h1 _ (Q p true)); [| by eapply effect_ok; [exact Ef | apply Hi] | eapply effect_threads; [exact Ef | by apply mi_threads_in]].
    apply (wl_rep_links (mq_waits st)); [intros x; unfold links; by rewrite He1 | by apply (mi_rep _ _ _ Hi p mech true)]. }
  intros h2 [He2 Hr2]. apply returns_ret. split_and!; [done | intros e; by rewrite He2, He1 |].
  eapply rings_trans; [exact Hr1 |]. by rewrite (reached_ext (mq_waits st) h1) in Hr2.
Qed.

Lemma remove_inv st Q id c :
  mq_inv w st Q ->
  returns (MQ_Remove w st id c) (fun '(st', r) => mq_inv w st' Q /\
    match objects (mq_reg st) !! id with
    | None => st' = st /\ r = Err (SysError EINVAL)
    | Some p => exists mech, mq_mechs st !! p = Some mech /\ mq_msgs st' = mq_msgs st /\
        if owner_ok w mech c then
          r = Ok tt /\ objects (mq_reg st') = delete id (objects (mq_reg st)) /\
          mq_mechs st' = <[p := with_obj mech (killed (m_obj mech))]> (mq_mechs st) /\
          (forall e, entries (mq_waits st') !! e = entries (mq_waits st) !! e) /\
          rings (reached (mq_waits st) EVENT_OUT (Q p false) ++ reached (mq_waits st) EVENT_IN (Q p true)) (mq_waits st) (mq_waits st')
        else st' = st /\ r = Err (SysError EPERM)
    end).
Proof.
  intros Hi. unfold MQ_Remove. destruct (objects (mq_reg st) !! id) as [p |] eqn:Hid.
  2: { unfold Registry_Remove. rewrite Hid, bind_ret. apply returns_ret. by destruct st. }
  destruct (ro_obj _ _ _ (mi_reg _ _ _ Hi) id p Hid) as (mech & Hp & Em). pose proof (mi_ns _ _ _ Hi p mech Hp) as Hn.
  destruct (owner_ok w mech c) eqn:Eo.
  2: { unfold Registry_Remove, get_mech. rewrite Hid, Hp, bind_ret, checkOwnership_ret, Eo, !bind_ret by done. cbn [negb]. rewrite bind_ret.
       apply returns_ret. destruct st. split; [done |]. exists mech. by rewrite Eo. }
  destruct (destroy_ok st Q p mech Hi Hp) as ([h' q'] & Hd & -> & He & Hr).
  destruct (Remove_ok w Hwf (mq_reg st) (mq_mechs st) (mq_waits st) id c p mech h' _ (mi_reg _ _ _ Hi) Hid Hp Hn Eo Hd) as [-> Hreg].
  rewrite bind_ret. apply returns_ret. split; [| exists mech; rewrite Eo; by split_and!].
  assert (Hi' : mq_inv w (mkMQ (mq_reg st) h' (mq_msgs st) (<[p := mech]> (mq_mechs st))) Q).
  { eapply (inv_update st Q p mech mech); [done | done | done | done | done | done | done | by apply (mi_queue _ _ _ Hi p) | | by left | apply Hi | done | exact Hr].
    intros p' m2 _ Hm2. by apply (mi_queue _ _ _ Hi p'). }
  rewrite insert_id in Hi' by done. destruct Hi' as [_ Ns Lv Qu Sp Sz Rp No Dj Fr Th Ok]. simpl in *.
  assert (Hx : forall x y, <[p := with_obj mech (killed (m_obj mech))]> (mq_mechs st) !! x = Some y ->
    (x = p /\ y = with_obj mech (killed (m_obj mech))) \/ (x <> p /\ mq_mechs st !! x = Some y)).
  { intros x y. destruct (decide (x = p)) as [-> | N]; [rewrite lookup_insert_eq; naive_solver | rewrite lookup_insert_ne by done; naive_solver]. }
  split; simpl; try done.
  - intros x y [[-> ->] | [_ Hy]]%Hx; [done | eauto].
  - intros x y [[-> ->] | [N Hy]]%Hx; simpl.
    + rewrite Em, lookup_delete_eq. done.
    + rewrite (Lv x y Hy). destruct (decide (m_id y = id)) as [-> | Nid]; [rewrite lookup_delete_eq, Hid; naive_solver | by rewrite lookup_delete_ne].
  - intros x y [[-> ->] | [_ Hy]]%Hx; [| eauto]. destruct (Qu p mech Hp). by split.
  - intros x x' y y' z [[-> ->] | [N Hy]]%Hx [[-> ->] | [N' Hy']]%Hx Hz Hz'; [done | by eapply (Sp p x') | by eapply (Sp x p) | by eapply (Sp x x')].
  - intros x y b [[-> ->] | [_ Hy]]%Hx; [| eauto]. pose proof (Rp p mech b Hp). by destruct b.
  - intros x b Hnx. apply No. destruct (decide (x = p)) as [-> | N]; [by rewrite lookup_insert_eq in Hnx | by rewrite lookup_insert_ne in Hnx].
Qed.
End Inv.
