(* ===== verification/MsgOps.v ===== *)
(** Creating queues and messages, and registering as a waiting sender or receiver: the rest
    of the operations that preserve the invariant of [MsgInv.v]. *)
From S2P Require Import Prelude Auth IdentityThm UserNsProps Perms WaitList WaitListThm WaitListOps WaitQueue Ipc IpcThm MsgQueue MsgSys MsgThm MsgInv.
#[local] Open Scope Z_scope.

Section Ops.
Context (w : World) (Hwf : wf w).
Implicit Types (st : MQState) (Q : positive -> bool -> list positive).

(** * New objects *)

Definition empty_queue (now : Z) : MsgQueue := mkQueue false WaitList_default WaitList_default [] 0 0 now 0 MAX_QUEUE_BYTES 0 0.

Lemma newqueue_inv st Q key o perms now :
  mq_inv w st Q -> ObjectCount (mq_reg st) <= MAX_QUEUES ->
  returns (NewQueue st key o perms now) (fun '(st', r) => mq_inv w st' Q /\ exists p m, r = Ok p /\ mq_mechs st !! p = None /\
    mq_waits st' = mq_waits st /\ mq_msgs st' = mq_msgs st /\ mq_mechs st' = <[p := m]> (mq_mechs st) /\
    m_obj m = empty_queue now /\ m_key m = key /\ m_owner m = o /\ m_perms m = perms /\
    objects (mq_reg st) !! m_id m = None /\ objects (mq_reg st') = <[m_id m := p]> (objects (mq_reg st)) /\
    keyToID (mq_reg st') = <[key := m_id m]> (keyToID (mq_reg st))).
Proof.
  intros Hi Hcnt. unfold NewQueue. cbv zeta. fold (empty_queue now). set (p := fresh (dom (mq_mechs st))).
  assert (Hp : mq_mechs st !! p = None) by (apply not_elem_of_dom, is_fresh).
  set (m0 := Mechanism_New _ key o o perms (empty_queue now)). pose proof (mi_reg _ _ _ Hi) as [O K N L].
  assert (Hnp : forall x m, mq_mechs st !! x = Some m -> x <> p) by (intros x m Hx ->; congruence).
  assert (Hr0 : reg_ok w (mq_reg st) (<[p := m0]> (mq_mechs st))).
  { split; [| | done | done].
    - intros id x Hx. destruct (O id x Hx) as (m & Hm & <-). exists m. rewrite lookup_insert_ne; [done | by apply not_eq_sym; eauto].
    - intros k id Hk. destruct (K k id Hk) as (x & m & Ho & Hm & <-). exists x, m. rewrite lookup_insert_ne; [done | by apply not_eq_sym; eauto]. }
  eapply returns_bind.
  { apply (Register_ok w (mq_reg st) _ p m0 Hr0); [apply lookup_insert_eq | | unfold ObjectCount in Hcnt; lia].
    intros id Hid. destruct (O id p Hid) as (m & Hm & _). congruence. }
  intros [[r' ms'] res] (id & -> & Hid & Ho & Hk & Hu & -> & Hreg). cbv beta iota. rewrite insert_insert_eq in Hreg |- *.
  set (m := mkMech _ id _ _ _ _ _) in *. apply returns_ret. destruct Hi as [_ Ns Lv Qu Sp Sz Rp No Dj Fr Th Ok].
  split; [| exists p, m; by split_and!].
  assert (Hx : forall x y, <[p := m]> (mq_mechs st) !! x = Some y -> (x = p /\ y = m) \/ (x <> p /\ mq_mechs st !! x = Some y)).
  { intros x y. destruct (decide (x = p)) as [-> | Nx]; [rewrite lookup_insert_eq; naive_solver | rewrite lookup_insert_ne by done; naive_solver]. }
  split; simpl; try done.
  - intros x y [[-> ->] | [_ Hy]]%Hx; [done | eauto].
  - intros x y [[-> ->] | [Nx Hy]]%Hx; rewrite Ho; simpl; [by rewrite lookup_insert_eq |].
    rewrite (Lv x y Hy). destruct (decide (m_id y = id)) as [-> | Nid]; [rewrite lookup_insert_eq, Hid; naive_solver | by rewrite lookup_insert_ne].
  - intros x y [[-> ->] | [_ Hy]]%Hx; [| eauto]. split; [by intros z ?%elem_of_nil | constructor | done].
  - intros x x' y y' z [[-> ->] | [Nx Hy]]%Hx [[-> ->] | [Nx' Hy']]%Hx Hz Hz'; [done | by apply elem_of_nil in Hz | by apply elem_of_nil in Hz' | by eapply (Sp x x')].
  - intros x y b [[-> ->] | [_ Hy]]%Hx; [| eauto]. rewrite (No p b Hp). destruct b; apply wl_rep_empty.
  - intros x b Hn. apply No. destruct (decide (x = p)) as [-> | Nx]; [by rewrite lookup_insert_eq in Hn | by rewrite lookup_insert_ne in Hn].
Qed.

(** What [FindOrCreate] does on every branch. *)
Definition found_or_created st c key mode (private create exclusive : bool) now st' (r : Result positive) : Prop :=
  mq_waits st' = mq_waits st /\ mq_msgs st' = mq_msgs st /\
  match (if private then None else keyToID (mq_reg st) !! key) with
  | Some id => st' = st /\ exists p m, objects (mq_reg st) !! id = Some p /\ mq_mechs st !! p = Some m /\ m_key m = key /\ dead (m_obj m) = false /\
      r = if negb (allowed w m c (PermMask_FromMode mode)) then Err (SysError EINVAL) else if create && exclusive then Err (SysError EEXIST) else Ok p
  | None =>
      if negb private && negb create then st' = st /\ r = Err (SysError ENOENT)
      else if MAX_QUEUES <? ObjectCount (mq_reg st) then st' = st /\ r = Err (SysError ENOSPC)
      else exists p m, r = Ok p /\ mq_mechs st !! p = None /\ mq_mechs st' = <[p := m]> (mq_mechs st) /\
        m_obj m = empty_queue now /\ m_key m = key /\ m_owner m = mkOwner (EffectiveKUID c) (EffectiveKGID c) /\ m_perms m = FilePermissions_FromMode mode /\
        objects (mq_reg st) !! m_id m = None /\ objects (mq_reg st') = <[m_id m := p]> (objects (mq_reg st)) /\
        keyToID (mq_reg st') = <[key := m_id m]> (keyToID (mq_reg st))
  end.

Lemma create_inv st Q c key mode private create exclusive now :
  mq_inv w st Q ->
  returns (MQ_FindOrCreate w st c key mode private create exclusive now) (fun '(st', r) =>
    mq_inv w st' Q /\ found_or_created st c key mode private create exclusive now st' r).
Proof.
  intros Hi. unfold MQ_FindOrCreate, found_or_created. set (k := if private then None else keyToID (mq_reg st) !! key).
  apply (returns_bind _ _ (fun res => match k with
    | Some id => exists p m, objects (mq_reg st) !! id = Some p /\ mq_mechs st !! p = Some m /\ m_key m = key /\
        res = if negb (allowed w m c (PermMask_FromMode mode)) then Err (SysError EINVAL) else if create && exclusive then Err (SysError EEXIST) else Ok (Some p)
    | None => res = if negb private && negb create then Err (SysError ENOENT) else Ok None end)).
  { destruct private; [by apply returns_ret |]. eapply returns_mono; [apply (Find_ok w Hwf); [apply Hi | apply Hi] |].
    intros res. unfold k. destruct (keyToID (mq_reg st) !! key); [done | by destruct create]. }
  intros res Hres. destruct k as [id |].
  - destruct Hres as (p & m & Ho & Hm & Hk & ->). destruct (ro_obj _ _ _ (mi_reg _ _ _ Hi) id p Ho) as (m' & Hm' & Eid). rewrite Hm in Hm'. injection Hm' as <-.
    assert (Hd : dead (m_obj m) = false) by (apply (mi_live _ _ _ Hi p m Hm); by rewrite Eid).
    destruct (negb _) eqn:Ea; [| destruct (create && exclusive) eqn:Ec]; apply returns_ret; split_and!; try done; exists p, m; by rewrite Ea, ?Ec.
  - rewrite Hres. destruct (negb private && negb create); [by apply returns_ret |].
    destruct (Z.ltb_spec MAX_QUEUES (ObjectCount (mq_reg st))); [by apply returns_ret |].
    eapply returns_mono; [by apply (newqueue_inv st Q) |]. intros [st' r] (Hi' & p & m & -> & H1 & H2 & H3 & H4 & H5 & H6 & H7 & H8 & H9 & H10 & H11).
    split_and!; [done | done | done |]. exists p, m. by split_and!.
Qed.

Lemma new_msg_inv st Q m :
  mq_inv w st Q -> msg_Size m = Z.of_nat (length (msg_Text m)) ->
  let '(st', x) := new_msg st m in mq_inv w st' Q /\ mq_msgs st !! x = None /\
    (forall p mech, mq_mechs st' !! p = Some mech -> x ∉ messages (m_obj mech)) /\ st' = mkMQ (mq_reg st) (mq_waits st) (<[x := m]> (mq_msgs st)) (mq_mechs st).
Proof.
  intros Hi Hs. unfold new_msg. set (x := fresh _). assert (Hx : mq_msgs st !! x = None) by (apply not_elem_of_dom, is_fresh).
  assert (Hn : forall p mech, mq_mechs st !! p = Some mech -> x ∉ messages (m_obj mech)).
  { intros p mech Hp Hin. destruct (qo_msgs _ _ (mi_queue _ _ _ Hi p mech Hp) x Hin). congruence. }
  split_and!; [| done | done | done]. destruct Hi as [Rg Ns Lv Qu Sp Sz Rp No Dj Fr Th Ok]. split; simpl; try done.
  - intros p mech Hp. apply queue_ok_msgs; eauto.
  - intros y my. destruct (decide (y = x)) as [-> | N]; [rewrite lookup_insert_eq; by intros [= <-] | rewrite lookup_insert_ne by done; apply Sz].
Qed.

(** * Waiting *)

Definition wait_upd (b : bool) (st : MQState) (p : positive) (f : Waits -> WaitList -> outcome (Waits * WaitList)) : outcome MQState :=
  if b then receivers_upd st p f else senders_upd st p f.

Definition with_wait_list (q : MsgQueue) (b : bool) (l : WaitList) : MsgQueue := if b then with_receivers q l else with_senders q l.

Definition updW Q (p : positive) (b : bool) (l : list positive) : positive -> bool -> list positive :=
  fun p' b' => if decide (p' = p /\ b' = b) then l else Q p' b'.

Lemma wait_upd_ok b st p mech f h' l' :
  mq_mechs st !! p = Some mech -> f (mq_waits st) (wait_list (m_obj mech) b) = Ret (h', l') ->
  wait_upd b st p f = Ret (mkMQ (mq_reg st) h' (mq_msgs st) (<[p := with_obj mech (with_wait_list (m_obj mech) b l')]> (mq_mechs st))).
Proof. intros Hp Hf. unfold wait_upd, receivers_upd, senders_upd, get_mech. destruct b; rewrite Hp, bind_ret; simpl in Hf; by rewrite Hf. Qed.

(** One wait list and the links of its entries change. *)
Lemma inv_waitlist st Q p mech b h' l l' :
  mq_inv w st Q -> mq_mechs st !! p = Some mech -> wl_rep h' l l' ->
  (forall x, x ∉ Q p b -> x ∉ l' -> entries h' !! x = entries (mq_waits st) !! x) ->
  (forall x, x ∈ l' -> x ∈ Q p b \/ ((forall p' b', x ∉ Q p' b'))) ->
  (forall x, x ∈ Q p b -> x ∉ l' -> unlinked h' x) ->
  (forall x, is_Some (ctx (mq_waits st) x) -> is_Some (ctx h' x)) -> waits_ok h' ->
  (forall x, is_Some (entries h' !! x) -> is_Some (entries (mq_waits st) !! x)) ->
  mq_inv w (mkMQ (mq_reg st) h' (mq_msgs st) (<[p := with_obj mech (with_wait_list (m_obj mech) b l)]> (mq_mechs st))) (updW Q p b l').
Proof.
  intros [Rg Ns Lv Qu Sp Sz Rp No Dj Fr Th Ok] Hp Hr Hfr Hin Hout Hc Ho He.
  set (m' := with_obj mech (with_wait_list (m_obj mech) b l)).
  assert (Hx : forall x y, <[p := m']> (mq_mechs st) !! x = Some y -> (x = p /\ y = m') \/ (x <> p /\ mq_mechs st !! x = Some y)).
  { intros x y. destruct (decide (x = p)) as [-> | Nx]; [rewrite lookup_insert_eq; naive_solver | rewrite lookup_insert_ne by done; naive_solver]. }
  assert (Emsg : messages (m_obj m') = messages (m_obj mech)) by (by destruct b).
  assert (Hkeep : forall p' b' x, (p', b') <> (p, b) -> x ∈ Q p' b' -> entries h' !! x = entries (mq_waits st) !! x).
  { intros p' b' x Nx Hq. apply Hfr; [intros H; destruct (Dj _ _ _ _ _ Hq H); naive_solver |].
    intros [H | H]%Hin; [destruct (Dj _ _ _ _ _ Hq H); naive_solver | by apply (H p' b')]. }
  assert (Hrest : forall p' b' m2, (p', b') <> (p, b) -> mq_mechs st !! p' = Some m2 -> wl_rep h' (wait_list (m_obj m2) b') (Q p' b')).
  { intros p' b' m2 Nx Hm2. destruct (Rp p' m2 b' Hm2) as [R1 R2 R3 R4]. split; [done | done | | done].
    eapply seg_ext; [| exact R3]. intros x Hq. unfold links. by rewrite (Hkeep p' b'). }
  split; simpl; try done.
  - by apply (reg_ok_put w _ _ p mech).
  - intros x y [[-> ->] | [_ Hy]]%Hx; [by apply (Ns p mech) | eauto].
  - intros x y [[-> ->] | [_ Hy]]%Hx; [| eauto]. pose proof (Lv p mech Hp). by destruct b.
  - intros x y [[-> ->] | [_ Hy]]%Hx; [| eauto]. destruct (Qu p mech Hp) as [A B C]. by split; destruct b.
  - intros x x' y y' z [[-> ->] | [Nx Hy]]%Hx [[-> ->] | [Nx' Hy']]%Hx; rewrite ?Emsg; intros Hz Hz';
      [done | by eapply (Sp p x') | by eapply (Sp x p) | by eapply (Sp x x')].
  - intros x y b' [[-> ->] | [Nx Hy]]%Hx; unfold updW.
    + destruct (decide (p = p /\ b' = b)) as [[_ ->] | Nb]; [by destruct b |].
      assert (Ew : wait_list (m_obj m') b' = wait_list (m_obj mech) b') by (destruct b, b'; naive_solver). rewrite Ew. apply Hrest; naive_solver.
    + rewrite decide_False by naive_solver. apply Hrest; naive_solver.
  - intros x b' Hn. unfold updW. destruct (decide (x = p)) as [-> | Nx]; [by rewrite lookup_insert_eq in Hn |].
    rewrite decide_False by naive_solver. apply No. by rewrite lookup_insert_ne in Hn.
  - intros p1 b1 p2 b2 e. unfold updW. destruct (decide (p1 = p /\ b1 = b)) as [[-> ->] | N1], (decide (p2 = p /\ b2 = b)) as [[-> ->] | N2]; [done | | | apply Dj].
    + intros [H | H]%Hin H2; [by eapply Dj | by destruct (H p2 b2)].
    + intros H2 [H | H]%Hin; [by eapply Dj | by destruct (H p1 b1)].
  - intros e Hs Hnq. unfold updW in Hnq. assert (Hnl : e ∉ l') by (specialize (Hnq p b); by destruct (decide _) in Hnq; [| naive_solver]).
    destruct (decide (e ∈ Q p b)) as [Hq | Hq]; [by apply Hout |]. unfold unlinked, links. rewrite Hfr by done. apply (Fr e); [by apply He |].
    intros p' b'. specialize (Hnq p' b'). by destruct (decide (p' = p /\ b' = b)) as [[-> ->] | N].
  - intros e Hs. apply Hc, Th, He, Hs.
Qed.

Lemma register_inv st Q p mech b e s m :
  mq_inv w st Q -> mq_mechs st !! p = Some mech -> entries (mq_waits st) !! e = Some s -> (forall p' b', e ∉ Q p' b') ->
  returns (wait_upd b st p (fun h l => Queue_EventRegister h l e m)) (fun st' => mq_inv w st' (updW Q p b (Q p b ++ [e])) /\
    mq_reg st' = mq_reg st /\ mq_msgs st' = mq_msgs st /\ waiters (mq_waits st') = waiters (mq_waits st) /\
    (forall x, payload (mq_waits st') x = if decide (x = e) then Some (m, context s) else payload (mq_waits st) x) /\
    exists l, mq_mechs st' = <[p := with_obj mech (with_wait_list (m_obj mech) b l)]> (mq_mechs st)).
Proof.
  intros Hi Hp Hs Hn. pose proof (mi_free _ _ _ Hi e (mk_is_Some _ _ Hs) Hn) as Hu.
  destruct (EventRegister_ok _ _ _ e s m (mi_rep _ _ _ Hi p mech b Hp) (Hn p b) Hu Hs) as ([h' l'] & Hf & Hr & Ew & _ & Hfr & Hpay).
  rewrite (wait_upd_ok b st p mech _ h' l' Hp Hf). apply returns_ret. split; [| split_and!; [done | done | done | done | by exists l']].
  assert (Hc : forall x, ctx h' x = ctx (mq_waits st) x).
  { intros x. rewrite !payload_ctx, Hpay. destruct (decide (x = e)) as [-> |]; [| done]. unfold payload. by rewrite Hs. }
  assert (He : forall x, is_Some (entries h' !! x) -> is_Some (entries (mq_waits st) !! x)).
  { intros x Hx. specialize (Hpay x). destruct (decide (x = e)) as [-> |]; [by rewrite Hs |]. unfold payload in Hpay.
    by destruct (entries h' !! x), (entries (mq_waits st) !! x). }
  apply (inv_waitlist st Q p mech); [done | done | done | | | | intros x; by rewrite Hc | | done].
  - intros x H1 H2. apply Hfr. set_solver.
  - intros x [Hx | ->%list_elem_of_singleton]%elem_of_app; [by left | by right].
  - intros x Hx Hx'. destruct Hx'. apply elem_of_app. by left.
  - intros x sx cx Hx Hcx. rewrite Ew. assert (E : ctx (mq_waits st) x = Some cx) by (rewrite <- Hc; unfold ctx; rewrite Hx; simpl; by rewrite Hcx).
    by apply (waits_ok_ctx _ _ _ (mi_ok _ _ _ Hi) E).
Qed.

Lemma unregister_inv st Q p mech b e c l1 l2 :
  mq_inv w st Q -> mq_mechs st !! p = Some mech -> Q p b = l1 ++ e :: l2 -> ctx (mq_waits st) e = Some c ->
  returns (wait_upd b st p (fun h l => Queue_EventUnregister h l e)) (fun st' => mq_inv w st' (updW Q p b (l1 ++ l2)) /\
    mq_reg st' = mq_reg st /\ mq_msgs st' = mq_msgs st /\ (forall x, payload (mq_waits st') x = payload (mq_waits st) x) /\
    (forall x i, 0 <= i -> ready (mq_waits st') x i = ready (mq_waits st) x i && negb (bool_decide (x = waiter c /\ i = waiterID c))) /\
    exists l, mq_mechs st' = <[p := with_obj mech (with_wait_list (m_obj mech) b l)]> (mq_mechs st)).
Proof.
  intros Hi Hp HQ Hc. pose proof (mi_rep _ _ _ Hi p mech b Hp) as Hr. rewrite HQ in Hr.
  destruct (EventUnregister_ok _ _ l1 e l2 c Hr (mi_ok _ _ _ Hi) Hc) as ([h' l'] & Hf & Hr' & Hu & Hfr & Hpay & Hw & Hrd).
  rewrite (wait_upd_ok b st p mech _ h' l' Hp Hf). apply returns_ret. split; [| split_and!; [done | done | done | done | by exists l']].
  assert (Hcx : forall x, ctx h' x = ctx (mq_waits st) x) by (intros x; by rewrite !payload_ctx, Hpay).
  assert (He : forall x, is_Some (entries h' !! x) -> is_Some (entries (mq_waits st) !! x)).
  { intros x Hx. specialize (Hpay x). unfold payload in Hpay. by destruct (entries h' !! x), (entries (mq_waits st) !! x). }
  apply (inv_waitlist st Q p mech); [done | done | done | | | | intros x; by rewrite Hcx | | done].
  - intros x H1 _. apply Hfr. by rewrite <- HQ.
  - intros x Hx. left. rewrite HQ. set_solver.
  - intros x Hx Hx'. rewrite HQ in Hx. assert (x = e) as -> by set_solver. done.
  - intros x sx cx Hx Hcx'. assert (E : ctx (mq_waits st) x = Some cx) by (rewrite <- Hcx; unfold ctx; rewrite Hx; simpl; by rewrite Hcx').
    destruct (waits_ok_ctx _ _ _ (mi_ok _ _ _ Hi) E). auto.
Qed.
End Ops.
