(* ===== verification/MsgSteps.v ===== *)
(** Threads that send and receive on message queues, in any interleaving.

    [MsgQueue::Send] and [MsgQueue::Receive] try once, register the thread's entry with the
    queue, and then try and block in turns until they are done; each step of [mstep] is a
    part of them, or of the other calls, that runs under one lock.  [MInvQ] says of every
    thread where its entry is and that a sleeping thread that could go on has its event.

    [MsgQueue::Set] raises the limit of a queue without waking its senders, so a sender may
    sleep although its message fits by now.  The phase of a sleeping thread therefore
    remembers the limit that its last try met; the code does not read it. *)
From stdpp Require Import relations.
From S2P Require Import Prelude Auth IdentityThm UserNsProps Perms WaitList WaitListThm WaitListOps WaitQueue Ipc IpcThm MsgQueue MsgSys MsgThm MsgInv MsgOps.
#[local] Open Scope Z_scope.

(** A call: which queue, and the arguments of [Push] or [Pop]. *)
Inductive mcall : Type :=
| KSend (p x : positive) (c : Creds) (pid : Z)
| KRecv (p : positive) (c : Creds) (mType maxSize : Z) (truncate except : bool) (pid : Z).

Definition q_of (k : mcall) : positive := match k with KSend p _ _ _ => p | KRecv p _ _ _ _ _ _ => p end.
Definition dir (k : mcall) : bool := match k with KSend _ _ _ _ => false | KRecv _ _ _ _ _ _ _ => true end.
Definition mask_of (k : mcall) : Z := match k with KSend _ _ _ _ => EVENT_WRITE | KRecv _ _ _ _ _ _ _ => EVENT_READ end.
Definition msg_of (k : mcall) : option positive := match k with KSend _ x _ _ => Some x | KRecv _ _ _ _ _ _ _ => None end.

(** Where a thread is: in no call; tried once and about to register; registered and about to
    try; blocked, after a try that met the limit [lim]; done and about to unregister. *)
Inductive mphase : Type := MIdle | Entering (k : mcall) | Trying (k : mcall) | Asleep (k : mcall) (lim : Z) | Leaving (k : mcall).

Definition listed (ph : mphase) : option mcall := match ph with Trying k | Asleep k _ | Leaving k => Some k | _ => None end.
Definition holds (ph : mphase) : option mcall := match ph with Entering k | Trying k | Asleep k _ => Some k | _ => None end.

Record MSys : Type := mkMSys { msst : MQState; mphases : gmap positive mphase }.

Definition would_block {A} (r : Result A) : bool := match r with inl (SysError EWOULDBLOCK) => true | _ => false end.

Section Steps.
Context (w : World) (Hwf : wf w).

(** One try, and whether the call has to wait. *)
Definition attempt (st : MQState) (k : mcall) (now : Z) : outcome (MQState * bool) :=
  match k with
  | KSend p x c pid => '(st, r) ← Push w st p x c pid now; Ret (st, would_block r)
  | KRecv p c mType maxSize truncate except pid => '(st, r) ← Pop w st p c mType maxSize truncate except pid now; Ret (st, would_block r)
  end.

(** The limit of the queue of a call. *)
Definition limit_of (st : MQState) (k : mcall) : Z :=
  match mq_mechs st !! q_of k with Some mech => maxBytes (m_obj mech) | None => 0 end.

(** The highest limit with which the sum of the bytes of a queue and of a message does not
    exceed 64 bits. *)
Definition LIMIT_MAX : Z := 2 ^ 64 - 1 - MAX_MESSAGE_BYTES.

(** The calls of threads.  [IPC_SET] lowers and raises the limit of a queue, up to
    [LIMIT_MAX]. *)
Inductive mstep (s : MSys) : MSys -> Prop :=
| m_create c key mode private create exclusive now st' r :
    MQ_FindOrCreate w (msst s) c key mode private create exclusive now = Ret (st', r) -> mstep s (mkMSys st' (mphases s))
| m_remove id c st' r :
    MQ_Remove w (msst s) id c = Ret (st', r) -> mstep s (mkMSys st' (mphases s))
| m_set p mech c ds now st' r :
    mq_mechs (msst s) !! p = Some mech -> is_Some (w_ns w !! UserNamespace c) -> MsgQbytes ds <= LIMIT_MAX ->
    Queue_Set w (msst s) p c ds now = Ret (st', r) -> mstep s (mkMSys st' (mphases s))
| m_send e p mType text c pid now st1 x st2 blk :
    mphases s !! e = Some MIdle -> is_Some (mq_mechs (msst s) !! p) -> Z.of_nat (length text) <= MAX_MESSAGE_BYTES ->
    new_msg (msst s) (Message_New mType text) = (st1, x) -> attempt st1 (KSend p x c pid) now = Ret (st2, blk) ->
    mstep s (mkMSys st2 (if blk then <[e := Entering (KSend p x c pid)]> (mphases s) else mphases s))
| m_receive e p c mType maxSize truncate except pid now st' blk :
    mphases s !! e = Some MIdle -> is_Some (mq_mechs (msst s) !! p) -> 0 <= maxSize <= MAX_MESSAGE_BYTES ->
    attempt (msst s) (KRecv p c mType maxSize truncate except pid) now = Ret (st', blk) ->
    mstep s (mkMSys st' (if blk then <[e := Entering (KRecv p c mType maxSize truncate except pid)]> (mphases s) else mphases s))
| m_nowait e k :
    mphases s !! e = Some (Entering k) -> mstep s (mkMSys (msst s) (<[e := MIdle]> (mphases s)))
| m_register e k st' :
    mphases s !! e = Some (Entering k) -> wait_upd (dir k) (msst s) (q_of k) (fun h l => Queue_EventRegister h l e (mask_of k)) = Ret st' ->
    mstep s (mkMSys st' (<[e := Trying k]> (mphases s)))
| m_try e k now st' blk :
    mphases s !! e = Some (Trying k) -> attempt (msst s) k now = Ret (st', blk) ->
    mstep s (mkMSys st' (<[e := if blk then Asleep k (limit_of (msst s) k) else Leaving k]> (mphases s)))
| m_wake e k lim c h' :
    mphases s !! e = Some (Asleep k lim) -> ctx (mq_waits (msst s)) e = Some c -> ready (mq_waits (msst s)) (waiter c) (waiterID c) = true ->
    Waiter_Clear (mq_waits (msst s)) (waiter c) (waiterID c) = Ret h' ->
    mstep s (mkMSys (with_mq_waits (msst s) h') (<[e := Trying k]> (mphases s)))
| m_interrupt e k lim :
    mphases s !! e = Some (Asleep k lim) -> mstep s (mkMSys (msst s) (<[e := Leaving k]> (mphases s)))
| m_unregister e k st' :
    mphases s !! e = Some (Leaving k) -> wait_upd (dir k) (msst s) (q_of k) (fun h l => Queue_EventUnregister h l e) = Ret st' ->
    mstep s (mkMSys st' (<[e := MIdle]> (mphases s))).

(** * The invariant *)

(** The queue with another limit. *)
Definition limited (q : MsgQueue) (lim : Z) : MsgQueue := set_max q lim (changeTime q).

(** The queue is gone, has room for the message within the limit [lim], or has a message that
    is wanted. *)
Definition can_go (ms : gmap positive MessageIntern) (q : MsgQueue) (lim : Z) (k : mcall) : bool :=
  dead q || match k with
  | KSend _ x _ _ => match ms !! x with Some msg => negb (full (limited q lim) (msg_Size msg)) | None => false end
  | KRecv _ _ mType _ _ except _ => bool_decide (is_Some (abs_select mType except (contents ms q)))
  end.
Definition goes (st : MQState) (lim : Z) (k : mcall) : bool :=
  match mq_mechs st !! q_of k with Some mech => can_go (mq_msgs st) (m_obj mech) lim k | None => false end.

Definition in_no_queue (st : MQState) (x : positive) : Prop := forall p m, mq_mechs st !! p = Some m -> x ∉ messages (m_obj m).
Definition unheld (s : MSys) (x : positive) : Prop := forall e ph k, mphases s !! e = Some ph -> holds ph = Some k -> msg_of k <> Some x.
Definition bounded (ms : gmap positive MessageIntern) (q : MsgQueue) : Prop := maxBytes q <= LIMIT_MAX /\ total (contents ms q) <= LIMIT_MAX.

(** What a call that is not done has: its queue, and its message, which no queue has yet. *)
Definition ready_to_try (st : MQState) (k : mcall) : Prop :=
  is_Some (mq_mechs st !! q_of k) /\
  match k with
  | KSend _ x _ _ => in_no_queue st x /\ exists msg, mq_msgs st !! x = Some msg /\ msg_Size msg <= MAX_MESSAGE_BYTES
  | KRecv _ _ _ maxSize _ _ _ => 0 <= maxSize
  end.

Definition has_event (h : Waits) (e : positive) : Prop := exists c, ctx h e = Some c /\ ready h (waiter c) (waiterID c) = true.

Record MInvQ (s : MSys) (Q : positive -> bool -> list positive) : Prop := {
  ni_inv : mq_inv w (msst s) Q;
  ni_bound : forall p m, mq_mechs (msst s) !! p = Some m -> bounded (mq_msgs (msst s)) (m_obj m);
  ni_entry : forall e ph, mphases s !! e = Some ph -> is_Some (entries (mq_waits (msst s)) !! e);
  ni_listed : forall e p b, e ∈ Q p b <-> exists ph k, mphases s !! e = Some ph /\ listed ph = Some k /\ q_of k = p /\ dir k = b;
  ni_mask : forall e ph k, mphases s !! e = Some ph -> listed ph = Some k -> exists cx, payload (mq_waits (msst s)) e = Some (mask_of k, cx);
  ni_held : forall e ph k, mphases s !! e = Some ph -> holds ph = Some k -> ready_to_try (msst s) k;
  ni_own : forall e e' ph ph' k k' x, mphases s !! e = Some ph -> mphases s !! e' = Some ph' -> holds ph = Some k -> holds ph' = Some k' ->
    msg_of k = Some x -> msg_of k' = Some x -> e = e';
  ni_slots : forall e e' ph ph' x, mphases s !! e = Some ph -> mphases s !! e' = Some ph' ->
    slot (mq_waits (msst s)) e = Some x -> slot (mq_waits (msst s)) e' = Some x -> e = e';
  ni_awake : forall e k lim, mphases s !! e = Some (Asleep k lim) -> goes (msst s) lim k = true -> has_event (mq_waits (msst s)) e }.

Definition MInv (s : MSys) : Prop := exists Q, MInvQ s Q.

Lemma listed_at s Q e ph k : MInvQ s Q -> mphases s !! e = Some ph -> listed ph = Some k -> e ∈ Q (q_of k) (dir k).
Proof. intros Hi Hp Hl. apply (ni_listed _ _ Hi). eauto 6. Qed.

Lemma listed_ctx s Q e ph : MInvQ s Q -> mphases s !! e = Some ph -> exists c, ctx (mq_waits (msst s)) e = Some c.
Proof. intros Hi Hp. by apply (mi_threads _ _ _ (ni_inv _ _ Hi)), (ni_entry _ _ Hi e ph). Qed.

(** A notification that the mask of the call answers reaches the entry. *)
Lemma reached_slot s Q e ph k m c :
  MInvQ s Q -> mphases s !! e = Some ph -> listed ph = Some k -> Z.land m (mask_of k) <> 0 -> ctx (mq_waits (msst s)) e = Some c ->
  (waiter c, waiterID c) ∈ reached (mq_waits (msst s)) m (Q (q_of k) (dir k)).
Proof.
  intros Hi Hp Hl Hm Hc. apply list_elem_of_omap. exists e. split; [by eapply listed_at |].
  destruct (ni_mask _ _ Hi e ph k Hp Hl) as [cx Hx]. unfold payload in Hx. unfold answers, slot. rewrite Hc.
  destruct (entries (mq_waits (msst s)) !! e) as [se |]; [| done]. injection Hx as -> _. by rewrite (proj2 (Z.eqb_neq _ _) Hm).
Qed.

Lemma rings_event h h' L e c :
  waits_ok h -> (forall x, entries h' !! x = entries h !! x) -> rings L h h' -> ctx h e = Some c ->
  ready h (waiter c) (waiterID c) = true \/ (waiter c, waiterID c) ∈ L -> has_event h' e.
Proof.
  intros Ho He [new [Hr _ _]] Hc Hor. exists c. split; [unfold ctx; rewrite He; exact Hc |]. destruct (waits_ok_ctx _ _ _ Ho Hc) as [Hb Hid].
  rewrite Hr by (done || lia). destruct Hor as [-> | Hin]; [done |]. rewrite (bool_decide_eq_true_2 _ Hin). by rewrite orb_true_r.
Qed.

(** ** A thread changes its phase *)

Lemma minv_phase s Q e ph ph' :
  MInvQ s Q -> mphases s !! e = Some ph -> listed ph' = listed ph ->
  (forall k, holds ph' = Some k -> ready_to_try (msst s) k /\ (holds ph = Some k \/ forall x, msg_of k = Some x -> unheld s x)) ->
  (forall k lim, ph' = Asleep k lim -> goes (msst s) lim k = true -> has_event (mq_waits (msst s)) e) ->
  MInvQ (mkMSys (msst s) (<[e := ph']> (mphases s))) Q.
Proof.
  intros [In Bo En Li Ma He Ow Sl Aw] Hp El Hh Ha.
  assert (Hx : forall x y, <[e := ph']> (mphases s) !! x = Some y -> (x = e /\ y = ph') \/ (x <> e /\ mphases s !! x = Some y)).
  { intros x y. destruct (decide (x = e)) as [-> | N]; [rewrite lookup_insert_eq; naive_solver | rewrite lookup_insert_ne by done; naive_solver]. }
  assert (Hown : forall x phx k kx y, x <> e -> mphases s !! x = Some phx -> holds ph' = Some k -> holds phx = Some kx -> msg_of k = Some y -> msg_of kx <> Some y).
  { intros x phx k kx y N Hxp Hk Hkx Hy Hy'. destruct (Hh k Hk) as [_ [Hk0 | Hu]]; [apply N; by eapply (Ow x e) | by eapply Hu]. }
  split; simpl; try done.
  - intros x y [[-> ->] | [_ Hy]]%Hx; eauto.
  - intros x p b. rewrite Li. split; intros (y & k & Hy & Hk & E).
    + destruct (decide (x = e)) as [-> | N]; [exists ph', k; rewrite lookup_insert_eq, El; naive_solver | exists y, k; by rewrite lookup_insert_ne].
    + apply Hx in Hy as [[-> ->] | [_ Hy]]; [exists ph, k; by rewrite <- El | by exists y, k].
  - intros x y k [[-> ->] | [_ Hy]]%Hx Hk; [rewrite El in Hk |]; eauto.
  - intros x y k [[-> ->] | [_ Hy]]%Hx Hk; [by apply Hh | eauto].
  - intros x x' y y' k k' z [[-> ->] | [N Hy]]%Hx [[-> ->] | [N' Hy']]%Hx Hk Hk' Hz Hz'; [done | | | by eapply (Ow x x')].
    + by destruct (Hown x' y' k k' z).
    + by destruct (Hown x y k' k z).
  - intros x x' y y' z [[-> ->] | [N Hy]]%Hx [[-> ->] | [N' Hy']]%Hx; eauto.
  - intros x k lim [[-> E] | [_ Hy]]%Hx; [by apply Ha | by apply Aw].
Qed.

(** ** The queues change and events happen *)

Lemma minv_change s Q st' L :
  MInvQ s Q -> mq_inv w st' Q -> (forall e, entries (mq_waits st') !! e = entries (mq_waits (msst s)) !! e) ->
  rings L (mq_waits (msst s)) (mq_waits st') -> (forall p m, mq_mechs st' !! p = Some m -> bounded (mq_msgs st') (m_obj m)) ->
  (forall e ph k, mphases s !! e = Some ph -> holds ph = Some k -> ready_to_try st' k) ->
  (forall e k lim c, mphases s !! e = Some (Asleep k lim) -> ctx (mq_waits (msst s)) e = Some c -> goes (msst s) lim k = false -> goes st' lim k = true -> (waiter c, waiterID c) ∈ L) ->
  MInvQ (mkMSys st' (mphases s)) Q.
Proof.
  intros Hi Hi' He Hr Hb Hh Hg. split; simpl; try done; try apply Hi.
  - intros e ph Hp. rewrite He. by apply (ni_entry _ _ Hi e ph).
  - intros e ph k. unfold payload. rewrite He. apply (ni_mask _ _ Hi).
  - intros e e' ph ph' x. unfold slot, ctx. rewrite !He. apply (ni_slots _ _ Hi).
  - intros e k lim Hp Hk. destruct (listed_ctx _ _ _ _ Hi Hp) as [c Hc]. eapply rings_event; [apply (ni_inv _ _ Hi) | done | done | done |].
    destruct (goes (msst s) lim k) eqn:Eg; [left | right; eauto]. destruct (ni_awake _ _ Hi e k lim Hp Eg) as (c' & Hc' & Hrd). by rewrite Hc in Hc'; injection Hc' as <-.
Qed.
End Steps.
