(* ===== verification/MsgWake.v ===== *)
(** Every step of [MsgSteps.v] preserves its invariant: no thread that could go on, within the
    limit that it met, sleeps without its event. *)
From stdpp Require Import relations.
From S2P Require Import Prelude Auth IdentityThm UserNsProps Perms WaitList WaitListThm WaitListOps WaitQueue Ipc IpcThm MsgQueue MsgSys MsgThm MsgInv MsgOps MsgSteps.
#[local] Open Scope Z_scope.
#[local] Open Scope u64_scope.

Section Wake.
Context (w : World) (Hwf : wf w).
Implicit Types (s : MSys) (Q : positive -> bool -> list positive).

Lemma contents_ext ms ms' q : (forall x, x ∈ messages q -> ms' !! x = ms !! x) -> contents ms' q = contents ms q.
Proof. intros H. apply list_fmap_ext. intros i x Hx. unfold shown. by rewrite H by (by eapply list_elem_of_lookup_2). Qed.

Lemma can_go_ext ms ms' q lim k :
  (forall x, x ∈ messages q -> ms' !! x = ms !! x) -> (forall x, msg_of k = Some x -> ms' !! x = ms !! x) -> can_go ms' q lim k = can_go ms q lim k.
Proof. intros Hq Hk. unfold can_go. f_equal. destruct k as [p x c pid | p c mType max tr ex pid]; [by rewrite Hk | by rewrite (contents_ext ms)]. Qed.

Lemma held_msg s Q e ph k x :
  MInvQ w s Q -> mphases s !! e = Some ph -> holds ph = Some k -> msg_of k = Some x ->
  in_no_queue (msst s) x /\ exists msg, mq_msgs (msst s) !! x = Some msg /\ msg_Size msg <= MAX_MESSAGE_BYTES.
Proof. intros Hi Hp Hk Hx. destruct (ni_held _ _ _ Hi e ph k Hp Hk) as [_ H]. destruct k; [| done]. by injection Hx as ->. Qed.

(** One queue changes, and messages that are or were in it. *)
Lemma inv_queue s Q p mech mech' st' L :
  MInvQ w s Q -> mq_mechs (msst s) !! p = Some mech -> mq_inv w st' Q -> mq_mechs st' = <[p := mech']> (mq_mechs (msst s)) ->
  (forall e, entries (mq_waits st') !! e = entries (mq_waits (msst s)) !! e) -> rings L (mq_waits (msst s)) (mq_waits st') ->
  (forall x, x ∉ messages (m_obj mech) -> mq_msgs st' !! x = mq_msgs (msst s) !! x) ->
  (forall x, x ∈ messages (m_obj mech') -> x ∈ messages (m_obj mech) \/ unheld s x) -> bounded (mq_msgs st') (m_obj mech') ->
  (forall e k lim c, mphases s !! e = Some (Asleep k lim) -> q_of k = p -> ctx (mq_waits (msst s)) e = Some c ->
    can_go (mq_msgs (msst s)) (m_obj mech) lim k = false -> can_go (mq_msgs st') (m_obj mech') lim k = true -> (waiter c, waiterID c) ∈ L) ->
  MInvQ w (mkMSys st' (mphases s)) Q.
Proof.
  intros Hi Hp Hi' Em He Hr Hms Hin Hb Hg.
  assert (Hother : forall p' m', p' <> p -> mq_mechs (msst s) !! p' = Some m' -> forall x, x ∈ messages (m_obj m') -> mq_msgs st' !! x = mq_msgs (msst s) !! x).
  { intros p' m' N Hm' x Hx. apply Hms. intros Hx'. apply N. by eapply (mi_sep _ _ _ (ni_inv _ _ _ Hi) p' p). }
  assert (Hheld : forall e ph k x, mphases s !! e = Some ph -> holds ph = Some k -> msg_of k = Some x -> mq_msgs st' !! x = mq_msgs (msst s) !! x).
  { intros e ph k x He' Hk Hx. apply Hms. destruct (held_msg _ _ _ _ _ _ Hi He' Hk Hx) as [Hn _]. by apply (Hn p). }
  apply (minv_change w s Q st' L); [done | done | done | done | | |].
  - intros p' m'. rewrite Em. destruct (decide (p' = p)) as [-> | N]; [rewrite lookup_insert_eq; by intros [= <-] |].
    rewrite lookup_insert_ne by done. intros Hm'. unfold bounded. rewrite (contents_ext (mq_msgs (msst s))) by eauto. by apply (ni_bound _ _ _ Hi p').
  - intros e ph k He' Hk. destruct (ni_held _ _ _ Hi e ph k He' Hk) as [Hs Hk']. split.
    { rewrite Em. destruct (decide (q_of k = p)) as [-> | N]; [by rewrite lookup_insert_eq | by rewrite lookup_insert_ne]. }
    destruct k as [p' x c pid | ]; [| done]. destruct Hk' as [Hn Hx]. rewrite (Hheld e ph (KSend p' x c pid)) by done. split; [| done].
    intros p2 m2. rewrite Em. destruct (decide (p2 = p)) as [-> | N]; [| rewrite lookup_insert_ne by done; apply Hn].
    rewrite lookup_insert_eq. intros [= <-] [Hx' | Hu]%Hin; [by apply (Hn p mech) | by apply (Hu e ph _ He' Hk)].
  - intros e k lim c Hs Hc. unfold goes. rewrite Em. destruct (decide (q_of k = p)) as [E | N].
    + rewrite E, Hp, lookup_insert_eq. intros H1 H2. by eapply Hg.
    + rewrite lookup_insert_ne by done. destruct (mq_mechs (msst s) !! q_of k) as [m' |] eqn:Hm'; [| done].
      rewrite (can_go_ext (mq_msgs (msst s)) (mq_msgs st')); [congruence | by eapply Hother | intros x; by apply (Hheld e (Asleep k lim))].
Qed.

(** ** Sending and receiving *)

Lemma byteCount_total s Q p mech :
  MInvQ w s Q -> mq_mechs (msst s) !! p = Some mech -> byteCount (m_obj mech) = total (contents (mq_msgs (msst s)) (m_obj mech)).
Proof.
  intros Hi Hp. rewrite (qo_bytes _ _ (mi_queue _ _ _ (ni_inv _ _ _ Hi) p mech Hp)). destruct (ni_bound _ _ _ Hi p mech Hp) as [_ Hb].
  apply wrap64_small. pose proof (total_nonneg (contents (mq_msgs (msst s)) (m_obj mech))). unfold in64, B64, LIMIT_MAX in *. lia.
Qed.

Lemma byteCount_bounds s Q p mech :
  MInvQ w s Q -> mq_mechs (msst s) !! p = Some mech -> 0 <= byteCount (m_obj mech) <= LIMIT_MAX.
Proof.
  intros Hi Hp. rewrite (byteCount_total s Q p mech Hi Hp). split; [apply total_nonneg |]. by apply (ni_bound _ _ _ Hi p mech Hp).
Qed.

Lemma full_wrap q n : 0 <= n <= MAX_MESSAGE_BYTES -> 0 <= byteCount q <= LIMIT_MAX ->
  full q n = bool_decide (maxBytes q < n + byteCount q \/ maxBytes q < Z.of_nat (length (messages q)) + 1).
Proof.
  intros Hn Hb. unfold full, add64. rewrite wrap64_small by (unfold in64, B64, LIMIT_MAX in *; lia). apply eq_true_iff_eq.
  by rewrite orb_true_iff, !Z.ltb_lt, bool_decide_eq_true.
Qed.

Lemma full_limited q n : full (limited q (maxBytes q)) n = full q n.
Proof. done. Qed.

(** More bytes, more messages and a lower limit leave no more room. *)
Lemma full_mono q q' lim lim' n :
  0 <= n <= MAX_MESSAGE_BYTES -> 0 <= byteCount q <= LIMIT_MAX -> 0 <= byteCount q' <= LIMIT_MAX ->
  byteCount q <= byteCount q' -> (length (messages q) <= length (messages q'))%nat -> lim' <= lim ->
  full (limited q lim) n = true -> full (limited q' lim') n = true.
Proof. intros Hn Hb Hb' H1 H2 H3. rewrite !full_wrap by done. rewrite !bool_decide_eq_true. simpl. lia. Qed.

Lemma abs_select_mono mType except (l l' : list (Z * list Z)) :
  (forall m, m ∈ l' -> m ∈ l) -> is_Some (abs_select mType except l') -> is_Some (abs_select mType except l).
Proof. rewrite !abs_select_some. intros Hl (m & Hm & Hw). eauto. Qed.

Lemma push_step s Q p x c pid now msg mech :
  MInvQ w s Q -> mq_mechs (msst s) !! p = Some mech -> mq_msgs (msst s) !! x = Some msg -> msg_Size msg <= MAX_MESSAGE_BYTES ->
  in_no_queue (msst s) x -> unheld s x ->
  returns (attempt w (msst s) (KSend p x c pid) now) (fun '(st', blk) =>
    if blk then st' = msst s /\ goes (msst s) (limit_of (msst s) (KSend p x c pid)) (KSend p x c pid) = false else MInvQ w (mkMSys st' (mphases s)) Q).
Proof.
  intros Hi Hp Hx Hsz Hn Hu. unfold attempt. eapply returns_bind; [by apply (push_inv w Hwf (msst s) Q p x c pid now mech msg); [apply Hi | ..] |].
  pose proof (mi_size _ _ _ (ni_inv _ _ _ Hi) x msg Hx) as Hlen. pose proof (byteCount_total _ _ _ _ Hi Hp) as Hbc.
  destruct (ni_bound _ _ _ Hi p mech Hp) as [Hmax Htot]. pose proof (total_nonneg (contents (mq_msgs (msst s)) (m_obj mech))) as Hnn.
  intros [st' r] [Hi' Hres]. apply returns_ret. unfold push_error in Hres.
  destruct (msg_Type msg <=? 0); [destruct Hres as [-> ->]; by destruct s |]. destruct (allowed w mech c perm_write); [| destruct Hres as [-> ->]; by destruct s].
  destruct (dead (m_obj mech)) eqn:Ed; [destruct Hres as [-> ->]; by destruct s |]. cbn [negb] in Hres. destruct (full (m_obj mech) (msg_Size msg)) eqn:Ef.
  { destruct Hres as [-> ->]. split; [done |]. unfold goes, can_go, limit_of. cbn [q_of]. by rewrite Hp, Hx, Ed, full_limited, Ef. }
  destruct Hres as (-> & _ & Emsg & Em & He & Hr). simpl. pose proof Ef as Ef'. rewrite full_wrap in Ef' by lia. apply bool_decide_eq_false in Ef'.
  assert (Ebc : byteCount (pushed (m_obj mech) x (msg_Size msg) pid now) = byteCount (m_obj mech) + msg_Size msg).
  { simpl. unfold add64. apply wrap64_small. unfold in64, B64, LIMIT_MAX in *. lia. }
  eapply (inv_queue s Q p mech); [done | done | done | exact Em | exact He | exact Hr | intros y _; by rewrite Emsg | | |].
  - simpl. intros y [Hy | ->%list_elem_of_singleton]%elem_of_app; [by left | by right].
  - split; [done |]. rewrite Emsg. unfold contents. simpl. rewrite fmap_app, total_app. simpl. unfold shown at 2. rewrite Hx. simpl.
    unfold contents in *. lia.
  - intros e k lim cx Hs Eq Hcx Hno Hgo. rewrite Emsg in Hgo. unfold can_go in Hno, Hgo. simpl in Hgo. rewrite Ed in Hno, Hgo. simpl in Hno, Hgo.
    destruct k as [p' y c' pid' | p' c' mT mx tr ex pid']; simpl in Eq; subst p'.
    + exfalso. destruct (held_msg _ _ _ _ _ _ Hi Hs eq_refl eq_refl) as [_ (my & Hy & Hysz)]. rewrite Hy in Hno, Hgo.
      apply negb_false_iff in Hno. pose proof (mi_size _ _ _ (ni_inv _ _ _ Hi) y my Hy).
      rewrite (full_mono (m_obj mech) _ lim) in Hgo; [done | lia | lia | rewrite Ebc; lia | rewrite Ebc; lia | simpl; rewrite length_app; lia | done | done].
    + by apply (reached_slot w s Q e _ (KRecv p c' mT mx tr ex pid') EVENT_IN cx Hi Hs).
Qed.

Lemma pop_step s Q p c mType maxSize truncate except pid now mech :
  MInvQ w s Q -> mq_mechs (msst s) !! p = Some mech -> 0 <= maxSize ->
  returns (attempt w (msst s) (KRecv p c mType maxSize truncate except pid) now) (fun '(st', blk) =>
    if blk then st' = msst s /\ goes (msst s) (limit_of (msst s) (KRecv p c mType maxSize truncate except pid)) (KRecv p c mType maxSize truncate except pid) = false else MInvQ w (mkMSys st' (mphases s)) Q).
Proof.
  intros Hi Hp Hmx. unfold attempt. eapply returns_bind; [by apply (pop_inv w Hwf (msst s) Q p c mType maxSize truncate except pid now mech); [apply Hi | ..] |].
  pose proof (mi_queue _ _ _ (ni_inv _ _ _ Hi) p mech Hp) as Hq. destruct (ni_bound _ _ _ Hi p mech Hp) as [Hmax Htot].
  intros [st' r] [Hi' Hres]. apply returns_ret. destruct (pop_result _ _ _ _ _ _ _) as [er | i] eqn:Ep.
  { destruct Hres as [-> ->]. unfold pop_result in Ep. destruct (allowed w mech c perm_read); cbn [negb] in Ep; [| injection Ep as <-; by destruct s].
    destruct (dead (m_obj mech)) eqn:Ed; [injection Ep as <-; by destruct s |].
    destruct (abs_select mType except (contents (mq_msgs (msst s)) (m_obj mech))) eqn:Es.
    { destruct (abs_select_lookup _ _ _ _ Es) as (m0 & Em0 & _). rewrite Em0 in Ep. case_match; [injection Ep as <-; by destruct s | done]. }
    injection Ep as <-. split; [done |]. unfold goes, can_go. simpl. by rewrite Hp, Ed, Es. }
  destruct Hres as (x & msg & Hxi & Hx & -> & _ & Emsg & Em & He & Hr). simpl.
  destruct (NoDup_delete _ _ _ (qo_nodup _ _ Hq) Hxi) as [_ Hnx]. assert (Hxin : x ∈ messages (m_obj mech)) by (by eapply list_elem_of_lookup_2).
  assert (Hms : forall y, y <> x -> mq_msgs st' !! y = mq_msgs (msst s) !! y) by (intros y N; rewrite Emsg; case_match; [by rewrite lookup_insert_ne | done]).
  assert (Ec : contents (mq_msgs st') (popped (m_obj mech) i (msg_Size msg) pid now) = delete i (contents (mq_msgs (msst s)) (m_obj mech))).
  { rewrite (contents_ext (mq_msgs (msst s))); [apply list_fmap_delete |]. simpl. intros y Hy. apply Hms. by intros ->. }
  eapply (inv_queue s Q p mech); [done | done | done | exact Em | exact He | exact Hr | intros y Hy; apply Hms; by intros -> | | |].
  - simpl. intros y Hy%elem_of_delete. by left.
  - split; [done |]. cbn [m_obj with_obj]. rewrite Ec, (total_delete _ i (shown (mq_msgs (msst s)) x)) by (unfold contents; by rewrite list_lookup_fmap, Hxi). lia.
  - intros e k lim cx Hs Eq Hcx Hno Hgo. unfold can_go in Hno, Hgo. cbn [m_obj with_obj] in Hgo. rewrite Ec in Hgo. simpl in Hgo.
    apply orb_false_iff in Hno as [Ed Hno]. rewrite Ed in Hgo. simpl in Hgo. destruct k as [p' y c' pid' | p' c' mT mx tr ex pid']; simpl in Eq; subst p'.
    + by apply (reached_slot w s Q e _ (KSend p y c' pid') EVENT_OUT cx Hi Hs).
    + exfalso. apply bool_decide_eq_false in Hno. apply bool_decide_eq_true in Hgo. apply Hno. eapply abs_select_mono; [| exact Hgo].
      intros m Hm. by eapply elem_of_delete.
Qed.

(** ** Queues are created, changed and removed *)

Lemma create_step s Q c key mode private create exclusive now :
  MInvQ w s Q -> returns (MQ_FindOrCreate w (msst s) c key mode private create exclusive now) (fun '(st', _) => MInvQ w (mkMSys st' (mphases s)) Q).
Proof.
  intros Hi. eapply returns_mono; [apply (create_inv w Hwf), Hi |]. intros [st' r] (Hi' & Ew & Ems & Hr). destruct (if private then None else _); [destruct Hr as [-> _]; by destruct s |].
  destruct (negb private && negb create); [destruct Hr as [-> _]; by destruct s |]. destruct (MAX_QUEUES <? _); [destruct Hr as [-> _]; by destruct s |].
  destruct Hr as (p & m & -> & Hn & Em & Eo & _).
  assert (Hne : forall p' m', mq_mechs (msst s) !! p' = Some m' -> p' <> p) by (intros p' m' Hm' ->; congruence).
  apply (minv_change w s Q st' []); [done | done | intros e; by rewrite Ew | rewrite Ew; by apply rings_refl | | |].
  - intros p' m'. rewrite Em, Ems. destruct (decide (p' = p)) as [-> | N]; [rewrite lookup_insert_eq; intros [= <-]; by rewrite Eo |].
    rewrite lookup_insert_ne by done. apply (ni_bound _ _ _ Hi).
  - intros e ph k Hp Hk. destruct (ni_held _ _ _ Hi e ph k Hp Hk) as [[m' Hq] Hk']. unfold ready_to_try. rewrite Em, Ems.
    rewrite lookup_insert_ne by (apply not_eq_sym; by eapply Hne). split; [by eexists |]. destruct k as [p' x c' pid |]; [| done]. destruct Hk' as [Hx Hx']. split; [| done].
    intros p2 m2. rewrite Em. destruct (decide (p2 = p)) as [-> | N]; [| rewrite lookup_insert_ne by done; apply Hx].
    rewrite lookup_insert_eq. intros [= <-]. rewrite Eo. apply not_elem_of_nil.
  - intros e k lim cx Hp Hcx Hf. unfold goes in *. rewrite Em, Ems. destruct (ni_held _ _ _ Hi e _ k Hp eq_refl) as [[m' Hq] _].
    rewrite lookup_insert_ne by (apply not_eq_sym; by eapply Hne). congruence.
Qed.

Lemma remove_step s Q id c :
  MInvQ w s Q -> returns (MQ_Remove w (msst s) id c) (fun '(st', _) => MInvQ w (mkMSys st' (mphases s)) Q).
Proof.
  intros Hi. eapply returns_mono; [apply (remove_inv w Hwf), Hi |]. intros [st' r] (Hi' & Hr). destruct (objects _ !! id) as [p |]; [| destruct Hr as [-> _]; by destruct s].
  destruct Hr as (mech & Hp & Ems & Hr). destruct (owner_ok w mech c); [| destruct Hr as [-> _]; by destruct s]. destruct Hr as (_ & _ & Em & He & Hr).
  eapply (inv_queue s Q p mech); [done | done | done | exact Em | exact He | exact Hr | intros x _; by rewrite Ems | intros x Hx; by left | |].
  - rewrite Ems. apply (ni_bound _ _ _ Hi p mech Hp).
  - intros e k lim cx Hs Eq Hcx _ _. apply elem_of_app. destruct k as [p' y c' pid' | p' c' mT mx tr ex pid']; simpl in Eq; subst p'.
    + left. by apply (reached_slot w s Q e _ (KSend p y c' pid') EVENT_OUT cx Hi Hs).
    + right. by apply (reached_slot w s Q e _ (KRecv p c' mT mx tr ex pid') EVENT_IN cx Hi Hs).
Qed.

Lemma set_step s Q p mech c ds now :
  MInvQ w s Q -> mq_mechs (msst s) !! p = Some mech -> is_Some (w_ns w !! UserNamespace c) -> MsgQbytes ds <= LIMIT_MAX ->
  returns (Queue_Set w (msst s) p c ds now) (fun '(st', _) => MInvQ w (mkMSys st' (mphases s)) Q).
Proof.
  intros Hi Hp Hc Hle. eapply returns_mono; [apply (set_inv w Hwf (msst s) Q p c ds now mech); [apply Hi | done | done] |].
  intros [st' [e | u]] (Hi' & Hr); [subst; by destruct s |]. destruct Hr as (_ & Ew & Ems & m' & Em & Eo).
  destruct (ni_bound _ _ _ Hi p mech Hp) as [_ Htot].
  eapply (inv_queue s Q p mech m' st' []); [done | done | done | exact Em | intros x; by rewrite Ew | rewrite Ew; by apply rings_refl | intros x _; by rewrite Ems | | |].
  - rewrite Eo. intros x Hx. by left.
  - by rewrite Eo, Ems.
  - intros e k lim cx Hs Eq Hcx Hno Hgo. exfalso. rewrite Eo, Ems in Hgo.
    change (can_go (mq_msgs (msst s)) (m_obj mech) lim k = true) in Hgo. congruence.
Qed.

(** ** Messages *)

Lemma new_msg_step s Q mType text :
  MInvQ w s Q -> Z.of_nat (length text) <= MAX_MESSAGE_BYTES ->
  let '(st', x) := new_msg (msst s) (Message_New mType text) in MInvQ w (mkMSys st' (mphases s)) Q /\
    in_no_queue st' x /\ unheld s x /\ mq_msgs st' !! x = Some (Message_New mType text) /\ mq_mechs st' = mq_mechs (msst s).
Proof.
  intros Hi Hlen. assert (Hz : msg_Size (Message_New mType text) = Z.of_nat (length (msg_Text (Message_New mType text)))) by done.
  pose proof (new_msg_inv w (msst s) Q _ (ni_inv _ _ _ Hi) Hz) as Hn. destruct (new_msg _ _) as [st' x].
  destruct Hn as (Hi' & Hx & Hnq & ->). assert (Hne : forall y msg, mq_msgs (msst s) !! y = Some msg -> y <> x) by (intros y msg Hy ->; congruence).
  assert (Hnin : forall p m, mq_mechs (msst s) !! p = Some m -> forall y, y ∈ messages (m_obj m) -> <[x := Message_New mType text]> (mq_msgs (msst s)) !! y = mq_msgs (msst s) !! y).
  { intros p m Hp y Hy. rewrite lookup_insert_ne; [done |]. intros ->. by apply (Hnq p m Hp). }
  assert (Hu : unheld s x).
  { intros e ph k Hp Hk Hm. destruct (held_msg _ _ _ _ _ _ Hi Hp Hk Hm) as [_ (m & H & _)]. congruence. }
  split; [| simpl; rewrite lookup_insert_eq; by split_and!].
  eapply (minv_change w s Q _ []); [done | done | done | by apply rings_refl | | |]; simpl.
  - intros p m Hp. unfold bounded. rewrite (contents_ext (mq_msgs (msst s))) by eauto. by apply (ni_bound _ _ _ Hi p).
  - intros e ph k Hp Hk. destruct (ni_held _ _ _ Hi e ph k Hp Hk) as [Hq Hk']. split; [done |]. destruct k as [p y c pid |]; [| done].
    destruct Hk' as [Hy (m & Hm & Hs)]. split; [done |]. exists m. simpl. rewrite lookup_insert_ne; [done | by apply not_eq_sym; eauto].
  - intros e k lim c Hp Hc. unfold goes. simpl. destruct (mq_mechs (msst s) !! q_of k) as [m |] eqn:Hm; [| done].
    rewrite (can_go_ext (mq_msgs (msst s)) (<[_ := _]> _)); [congruence | by eapply Hnin |].
    intros y Hy. rewrite lookup_insert_ne; [done |]. intros ->. by apply (Hu e (Asleep k lim) k).
Qed.

(** ** A thread registers, takes its event and unregisters *)

(** What [can_go] looks at. *)
Definition gist (m : MechanismIntern MsgQueue) : bool * list positive * Z * Z :=
  (dead (m_obj m), messages (m_obj m), byteCount (m_obj m), maxBytes (m_obj m)).

Lemma gist_lookup st st' p m' :
  (forall p, gist <$> mq_mechs st' !! p = gist <$> mq_mechs st !! p) -> mq_mechs st' !! p = Some m' ->
  exists m, mq_mechs st !! p = Some m /\ dead (m_obj m') = dead (m_obj m) /\ messages (m_obj m') = messages (m_obj m) /\
    byteCount (m_obj m') = byteCount (m_obj m) /\ maxBytes (m_obj m') = maxBytes (m_obj m).
Proof.
  intros Hg Hp. specialize (Hg p). rewrite Hp in Hg. destruct (mq_mechs st !! p) as [m |]; [| done]. exists m. unfold gist in Hg. simpl in Hg. by injection Hg as -> -> -> ->.
Qed.

Lemma goes_gist st st' lim k :
  mq_msgs st' = mq_msgs st -> (forall p, gist <$> mq_mechs st' !! p = gist <$> mq_mechs st !! p) -> goes st' lim k = goes st lim k.
Proof.
  intros Ems Hg. unfold goes. rewrite Ems. destruct (mq_mechs st' !! q_of k) as [m' |] eqn:Hm.
  - destruct (gist_lookup _ _ _ _ Hg Hm) as (m & -> & E1 & E2 & E3 & E4). unfold can_go, full, contents. cbn. by rewrite E1, E2, E3.
  - specialize (Hg (q_of k)). rewrite Hm in Hg. by destruct (mq_mechs st !! q_of k).
Qed.

Lemma inv_own s Q e ph ph' st' Q' :
  MInvQ w s Q -> mphases s !! e = Some ph -> mq_inv w st' Q' -> mq_msgs st' = mq_msgs (msst s) ->
  (forall p, gist <$> mq_mechs st' !! p = gist <$> mq_mechs (msst s) !! p) ->
  (forall x, x <> e -> payload (mq_waits st') x = payload (mq_waits (msst s)) x) -> ctx (mq_waits st') e = ctx (mq_waits (msst s)) e ->
  (forall x phx c, x <> e -> mphases s !! x = Some phx -> ctx (mq_waits (msst s)) x = Some c ->
    ready (mq_waits st') (waiter c) (waiterID c) = ready (mq_waits (msst s)) (waiter c) (waiterID c)) ->
  (forall x p b, x ∈ Q' p b <-> (x <> e /\ x ∈ Q p b) \/ (x = e /\ exists k, listed ph' = Some k /\ q_of k = p /\ dir k = b)) ->
  (forall k, holds ph' = Some k -> holds ph = Some k) -> (forall k lim, ph' <> Asleep k lim) ->
  (forall k, listed ph' = Some k -> exists cx, payload (mq_waits st') e = Some (mask_of k, cx)) ->
  MInvQ w (mkMSys st' (<[e := ph']> (mphases s))) Q'.
Proof.
  intros Hi Hp Hi' Ems Hg Hpay Hce Hrd HQ Hh Has Hma.
  assert (Hx : forall x y, <[e := ph']> (mphases s) !! x = Some y -> (x = e /\ y = ph') \/ (x <> e /\ mphases s !! x = Some y)).
  { intros x y. destruct (decide (x = e)) as [-> | N]; [rewrite lookup_insert_eq; naive_solver | rewrite lookup_insert_ne by done; naive_solver]. }
  assert (Hctx : forall x, ctx (mq_waits st') x = ctx (mq_waits (msst s)) x).
  { intros x. destruct (decide (x = e)) as [-> | N]; [done |]. by rewrite !payload_ctx, Hpay. }
  assert (Htry : forall k, ready_to_try (msst s) k -> ready_to_try st' k).
  { intros k [[m Hm] Hk]. unfold ready_to_try. rewrite Ems. split; [specialize (Hg (q_of k)); rewrite Hm in Hg; by destruct (mq_mechs st' !! q_of k) |].
    destruct k as [p y c pid |]; [| done]. destruct Hk as [Hn Hk]. split; [| done]. intros p' m' Hm'. destruct (gist_lookup _ _ _ _ Hg Hm') as (m0 & H0 & _ & -> & _). by apply (Hn p'). }
  assert (Hold : forall x y k, (x = e /\ y = ph') \/ (x <> e /\ mphases s !! x = Some y) -> holds y = Some k -> exists y', mphases s !! x = Some y' /\ holds y' = Some k).
  { intros x y k [[-> ->] | [_ Hy]] Hk; eauto. }
  split; simpl; try done.
  - intros p m Hm. destruct (gist_lookup _ _ _ _ Hg Hm) as (m0 & H0 & _ & E2 & _ & E4). destruct (ni_bound _ _ _ Hi p m0 H0).
    unfold bounded, contents. by rewrite Ems, E2, E4.
  - intros x y Hy. assert (Hc : is_Some (ctx (mq_waits st') x)).
    { rewrite Hctx. destruct (Hx _ _ Hy) as [[-> _] | [_ Hy']]; [by destruct (listed_ctx w s Q e ph Hi Hp) as [c ->] | by destruct (listed_ctx w s Q x y Hi Hy') as [c ->]]. }
    unfold ctx in Hc. destruct (entries (mq_waits st') !! x); [done | by destruct Hc].
  - intros x p b. rewrite HQ, (ni_listed _ _ _ Hi). destruct (decide (x = e)) as [-> | N]; [rewrite lookup_insert_eq | rewrite lookup_insert_ne by done]; naive_solver.
  - intros x y k [[-> ->] | [N Hy]]%Hx Hk; [by apply Hma |]. rewrite Hpay by done. by eapply (ni_mask _ _ _ Hi).
  - intros x y k Hy%Hx Hk. destruct (Hold x y k Hy Hk) as (y' & Hy' & Hk'). apply Htry. by eapply (ni_held _ _ _ Hi).
  - intros x x' y y' k k' z Hy%Hx Hy'%Hx Hk Hk'. destruct (Hold x y k Hy Hk) as (? & ? & ?), (Hold x' y' k' Hy' Hk') as (? & ? & ?). by eapply (ni_own _ _ _ Hi).
  - intros x x' y y' z Hy%Hx Hy'%Hx. unfold slot. rewrite !Hctx. destruct Hy as [[-> _] | [_ Hy]], Hy' as [[-> _] | [_ Hy']]; by eapply (ni_slots _ _ _ Hi).
  - intros x k lim [[-> E] | [N Hy]]%Hx; [by destruct (Has k lim) |]. rewrite (goes_gist _ _ _ _ Ems Hg). intros Hgo.
    destruct (ni_awake _ _ _ Hi x k lim Hy Hgo) as (c & Hc & Hr). exists c. rewrite Hctx. split; [done |]. by erewrite Hrd.
Qed.

Lemma gist_with st p mech b l :
  mq_mechs st !! p = Some mech -> forall p', gist <$> <[p := with_obj mech (with_wait_list (m_obj mech) b l)]> (mq_mechs st) !! p' = gist <$> mq_mechs st !! p'.
Proof. intros Hp p'. destruct (decide (p' = p)) as [-> | N]; [rewrite lookup_insert_eq, Hp; by destruct b | by rewrite lookup_insert_ne]. Qed.

Lemma same_ctx s Q x y phx phy c c' :
  MInvQ w s Q -> mphases s !! x = Some phx -> mphases s !! y = Some phy -> ctx (mq_waits (msst s)) x = Some c -> ctx (mq_waits (msst s)) y = Some c' ->
  waiter c = waiter c' -> waiterID c = waiterID c' -> x = y.
Proof.
  intros Hi Hx Hy Hc Hc' E1 E2. eapply (ni_slots _ _ _ Hi x y phx phy (waiter c, waiterID c)); [done | done | |]; unfold slot; rewrite ?Hc, ?Hc'; simpl; congruence.
Qed.

Lemma register_step s Q e k :
  MInvQ w s Q -> mphases s !! e = Some (Entering k) ->
  returns (wait_upd (dir k) (msst s) (q_of k) (fun h l => Queue_EventRegister h l e (mask_of k))) (fun st' => MInv w (mkMSys st' (<[e := Trying k]> (mphases s)))).
Proof.
  intros Hi Hp. destruct (ni_held _ _ _ Hi e _ k Hp eq_refl) as [[mech Hm] _]. destruct (ni_entry _ _ _ Hi e _ Hp) as [se Hse].
  assert (Hn : forall p b, e ∉ Q p b) by (intros p b (ph & k' & H1 & H2 & _)%(ni_listed _ _ _ Hi); rewrite Hp in H1; by injection H1 as <-).
  eapply returns_mono; [by apply (register_inv w Hwf (msst s) Q (q_of k) mech (dir k) e se (mask_of k)); [apply Hi | ..] |].
  intros st' (Hi' & _ & Ems & Ew & Hpay & l & Em). eexists. eapply (inv_own s Q e (Entering k)); [done | done | exact Hi' | done | | | | | | naive_solver | done |].
  - rewrite Em. by apply gist_with.
  - intros x N. by rewrite Hpay, decide_False.
  - rewrite !payload_ctx, Hpay, decide_True by done. unfold payload. by rewrite Hse.
  - intros x phx c N Hx Hc. unfold ready. by rewrite Ew.
  - intros x p b. unfold updW. destruct (decide (p = q_of k /\ b = dir k)) as [[-> ->] | N].
    + rewrite elem_of_app, list_elem_of_singleton. destruct (decide (x = e)) as [-> | Nx]; [naive_solver | set_solver].
    + destruct (decide (x = e)) as [-> | Nx]; [| naive_solver]. split; [intros H; by destruct (Hn p b) |]. intros [[] | (_ & k' & [= <-] & <- & <-)]; naive_solver.
  - intros k' [= <-]. exists (context se). by rewrite Hpay, decide_True.
Qed.

Lemma unregister_step s Q e k :
  MInvQ w s Q -> mphases s !! e = Some (Leaving k) ->
  returns (wait_upd (dir k) (msst s) (q_of k) (fun h l => Queue_EventUnregister h l e)) (fun st' => MInv w (mkMSys st' (<[e := MIdle]> (mphases s)))).
Proof.
  intros Hi Hp. pose proof (listed_at w s Q e _ k Hi Hp eq_refl) as He. destruct (mi_in w _ _ _ _ _ (ni_inv _ _ _ Hi) He) as (mech & Hm & _).
  destruct (listed_ctx w s Q e _ Hi Hp) as [c Hc]. destruct (list_elem_of_split _ _ He) as (l1 & l2 & HQ).
  assert (Hnd : e ∉ l1 ++ l2).
  { pose proof (rep_nodup _ _ _ (mi_rep _ _ _ (ni_inv _ _ _ Hi) (q_of k) mech (dir k) Hm)) as Hnd. rewrite HQ, <- Permutation_middle in Hnd. by apply NoDup_cons in Hnd as [? _]. }
  eapply returns_mono; [by apply (unregister_inv w Hwf (msst s) Q (q_of k) mech (dir k) e c l1 l2); [apply Hi | ..] |].
  intros st' (Hi' & _ & Ems & Hpay & Hrd & l & Em). eexists. eapply (inv_own s Q e (Leaving k)); [done | done | exact Hi' | done | | | | | | done | done | done].
  - rewrite Em. by apply gist_with.
  - intros x _. apply Hpay.
  - by rewrite !payload_ctx, Hpay.
  - intros x phx cx N Hx Hcx. destruct (waits_ok_ctx _ _ _ (mi_ok _ _ _ (ni_inv _ _ _ Hi)) Hcx) as [_ Hid]. rewrite Hrd by lia.
    rewrite bool_decide_eq_false_2; [by rewrite andb_true_r |]. intros [E1 E2]. apply N. by eapply (same_ctx s Q x e).
  - intros x p b. unfold updW. destruct (decide (p = q_of k /\ b = dir k)) as [[-> ->] | N].
    + rewrite HQ. destruct (decide (x = e)) as [-> | Nx]; [naive_solver | set_solver].
    + split; [| naive_solver]. intros Hx. left. split; [| done]. intros ->. destruct (mi_disj _ _ _ (ni_inv _ _ _ Hi) _ _ _ _ _ Hx He). naive_solver.
Qed.

Lemma wake_step s Q e k lim c :
  MInvQ w s Q -> mphases s !! e = Some (Asleep k lim) -> ctx (mq_waits (msst s)) e = Some c ->
  returns (Waiter_Clear (mq_waits (msst s)) (waiter c) (waiterID c)) (fun h' => MInvQ w (mkMSys (with_mq_waits (msst s) h') (<[e := Trying k]> (mphases s))) Q).
Proof.
  intros Hi Hp Hc. pose proof (mi_ok _ _ _ (ni_inv _ _ _ Hi)) as Ho. destruct (waits_ok_ctx _ _ _ Ho Hc) as [[b Hb] Hid].
  unfold Waiter_Clear, get_waiter. rewrite Hb, bind_ret. apply returns_ret. set (h' := put_waiter _ _ _).
  assert (Hi' : mq_inv w (with_mq_waits (msst s) h') Q).
  { destruct (ni_inv _ _ _ Hi) as [Rg Ns Lv Qu Sp Sz Rp No Dj Fr Th Ok]. split; simpl; try done; [intros p m b' Hm; by apply (wl_rep_links (mq_waits (msst s))), Rp |].
    intros x sx cx Hx Hcx. destruct (Ok x sx cx Hx Hcx) as [Hwx Hidx]. split; [| done]. unfold h'. simpl.
    destruct (decide (waiter cx = waiter c)) as [-> | N]; [by rewrite lookup_insert_eq | by rewrite lookup_insert_ne]. }
  eapply (inv_own s Q e (Asleep k lim)); [done | done | exact Hi' | done | done | done | done | | | done | done | intros k' Hk'; by apply (ni_mask _ _ _ Hi e (Asleep k lim) k' Hp)].
  - intros x phx cx N Hx Hcx. destruct (waits_ok_ctx _ _ _ Ho Hcx) as [_ Hidx]. unfold h'. simpl. rewrite ready_clear by (done || lia).
    rewrite bool_decide_eq_false_2; [by rewrite andb_true_r |]. intros [E1 E2]. apply N. by eapply (same_ctx s Q x e).
  - intros x p b'. destruct (decide (x = e)) as [-> | N]; [| naive_solver]. rewrite (ni_listed _ _ _ Hi). naive_solver.
Qed.

(** ** All steps *)

Lemma attempt_step s Q k now :
  MInvQ w s Q -> ready_to_try (msst s) k -> (forall x, msg_of k = Some x -> unheld s x) ->
  returns (attempt w (msst s) k now) (fun '(st', blk) => if blk then st' = msst s /\ goes (msst s) (limit_of (msst s) k) k = false else MInvQ w (mkMSys st' (mphases s)) Q).
Proof.
  intros Hi [[mech Hm] Hk] Hu. destruct k as [p x c pid | p c mType maxSize tr ex pid]; [| by eapply pop_step].
  destruct Hk as (Hn & msg & Hx & Hs). eapply push_step; try done. by apply Hu.
Qed.

(** A thread that is done holds its message no longer. *)
Lemma leave_unheld s Q e ph k x :
  MInvQ w s Q -> mphases s !! e = Some ph -> holds ph = Some k -> msg_of k = Some x -> unheld (mkMSys (msst s) (<[e := Leaving k]> (mphases s))) x.
Proof.
  intros Hi Hp Hk Hx y phy ky. simpl. destruct (decide (y = e)) as [-> | N]; [rewrite lookup_insert_eq; by intros [= <-] |].
  rewrite lookup_insert_ne by done. intros Hy Hky Hxy. apply N. by eapply (ni_own _ _ _ Hi).
Qed.

Lemma try_step s Q e k now :
  MInvQ w s Q -> mphases s !! e = Some (Trying k) ->
  returns (attempt w (msst s) k now) (fun '(st', blk) => MInvQ w (mkMSys st' (<[e := if blk : bool then Asleep k (limit_of (msst s) k) else Leaving k]> (mphases s))) Q).
Proof.
  intros Hi Hp. pose proof (ni_held _ _ _ Hi e _ k Hp eq_refl) as Htry.
  assert (Hi1 : MInvQ w (mkMSys (msst s) (<[e := Leaving k]> (mphases s))) Q) by (by apply (minv_phase w s Q e (Trying k))).
  eapply returns_mono; [apply (attempt_step _ Q k now Hi1 Htry); intros x; by apply (leave_unheld s Q e (Trying k)) |].
  intros [st' [|]]; simpl; [| done]. intros [-> Hg]. apply (minv_phase w s Q e (Trying k)); [done | done | done | | intros k' lim [= <- <-]; by rewrite Hg].
  intros k' [= <-]. split; [done | by left].
Qed.

Lemma first_step s Q e k now :
  MInvQ w s Q -> mphases s !! e = Some MIdle -> ready_to_try (msst s) k -> (forall x, msg_of k = Some x -> unheld s x) ->
  returns (attempt w (msst s) k now) (fun '(st', blk) => MInvQ w (mkMSys st' (if blk : bool then <[e := Entering k]> (mphases s) else mphases s)) Q).
Proof.
  intros Hi Hp Htry Hu. eapply returns_mono; [by apply (attempt_step s Q k now) |]. intros [st' [|]]; [| done]. intros [-> _].
  apply (minv_phase w s Q e MIdle); [done | done | done | | done]. intros k' [= <-]. split; [done | by right].
Qed.

Lemma mstep_inv s s' : MInv w s -> mstep w s s' -> MInv w s'.
Proof.
  intros [Q Hi] Hs. destruct Hs.
  - exists Q. apply (returns_inv _ _ _ (create_step s Q c key mode private create exclusive now Hi) H).
  - exists Q. apply (returns_inv _ _ _ (remove_step s Q id c Hi) H).
  - exists Q. apply (returns_inv _ _ _ (set_step s Q p mech c ds now Hi H H0 H1) H2).
  - exists Q. pose proof (new_msg_step s Q mType text Hi H1) as Hn. rewrite H2 in Hn. destruct Hn as (Hi1 & Hq & Hu & Hx & Em).
    apply (returns_inv _ _ _ (first_step (mkMSys st1 (mphases s)) Q e (KSend p x c pid) now Hi1 H ltac:(split; simpl; rewrite ?Em; eauto) ltac:(by intros y [= <-])) H3).
  - exists Q. apply (returns_inv _ _ _ (first_step s Q e (KRecv p c mType maxSize truncate except pid) now Hi H ltac:(split; [done | simpl; lia]) ltac:(done)) H2).
  - exists Q. by apply (minv_phase w s Q e (Entering k)).
  - apply (returns_inv _ _ _ (register_step s Q e k Hi H) H0).
  - exists Q. apply (returns_inv _ _ _ (try_step s Q e k now Hi H) H0).
  - exists Q. apply (returns_inv _ _ _ (wake_step s Q e k lim c Hi H H0) H2).
  - exists Q. by apply (minv_phase w s Q e (Asleep k lim)).
  - apply (returns_inv _ _ _ (unregister_step s Q e k Hi H) H0).
Qed.

(** No queue, and threads that are in no call. *)
Record MInit (s : MSys) : Prop := {
  mn_reg : exists ns, mq_reg (msst s) = Registry_New ns /\ is_Some (w_ns w !! ns);
  mn_mechs : mq_mechs (msst s) = ∅;
  mn_msgs : mq_msgs (msst s) = ∅;
  mn_idle : forall e ph, mphases s !! e = Some ph -> ph = MIdle /\ is_Some (entries (mq_waits (msst s)) !! e);
  mn_slots : forall e e' x, slot (mq_waits (msst s)) e = Some x -> slot (mq_waits (msst s)) e' = Some x -> e = e';
  mn_free : forall e, is_Some (entries (mq_waits (msst s)) !! e) -> unlinked (mq_waits (msst s)) e /\ is_Some (ctx (mq_waits (msst s)) e);
  mn_ok : waits_ok (mq_waits (msst s)) }.

Lemma MInit_inv s : MInit s -> MInv w s.
Proof.
  intros [(ns & Er & Hns) Em Ex Id Sl Fr Ok]. exists (fun _ _ => []).
  assert (Hidle : forall e ph k, mphases s !! e = Some ph -> listed ph = Some k -> False) by (intros e ph k Hp; by destruct (Id e ph Hp) as [-> _]).
  assert (Hidle' : forall e ph k, mphases s !! e = Some ph -> holds ph = Some k -> False) by (intros e ph k Hp; by destruct (Id e ph Hp) as [-> _]).
  split; [split | ..]; rewrite ?Em; try done.
  - rewrite Er. by apply reg_ok_New.
  - by rewrite Ex.
  - by intros p b p' b' e ?%elem_of_nil.
  - intros e He _. by apply Fr.
  - intros e He. by apply Fr.
  - intros e ph Hp. by apply (Id e ph).
  - intros e p b. split; [by intros ?%elem_of_nil | intros (ph & k & Hp & Hk & _); by destruct (Hidle e ph k)].
  - intros e ph k Hp Hk. by destruct (Hidle e ph k).
  - intros e ph k Hp Hk. by destruct (Hidle' e ph k).
  - intros e e' ph ph' k k' x Hp _ Hk. by destruct (Hidle' e ph k).
  - intros e e' ph ph' x _ _. apply Sl.
  - intros e k lim Hp. by destruct (Hidle e _ k Hp).
Qed.

Lemma rtc_inv s0 s : MInv w s0 -> rtc (mstep w) s0 s -> MInv w s.
Proof. intros H0 Hs. induction Hs as [s | s1 s2 s3 Hs _ IH]; [done |]. apply IH. by eapply mstep_inv. Qed.
End Wake.
