(* ===== verification/MsgProps.v ===== *)
(** Message queues: what holds however calls interleave, and where the code wakes no one. *)
From stdpp Require Import relations.
From S2P Require Import Prelude Auth IdentityThm UserNsProps Perms WaitList WaitListThm WaitListOps WaitQueue Ipc IpcThm MsgQueue MsgSys MsgThm MsgInv MsgOps MsgSteps MsgWake.
#[local] Open Scope Z_scope.

(** * An example

    Two threads, with one entry and one waiter each, and no queue. *)

Definition mq_entry (i : positive) : EntryInternal := NewThreadContext i GENERAL_WAITID 0.
Definition mq_waits0 : Waits :=
  mkWaits (list_to_map [(1%positive, mq_entry 1); (2%positive, mq_entry 2)]) (list_to_map [(1%positive, Waiter_New 11); (2%positive, Waiter_New 12)]) [].
Definition mq_sys0 : MSys :=
  mkMSys (mkMQ (Registry_New 1) mq_waits0 ∅ ∅) (list_to_map [(1%positive, MIdle); (2%positive, MIdle)]).

Lemma mq_waits0_entry e s : entries mq_waits0 !! e = Some s -> (e = 1%positive \/ e = 2%positive) /\ s = mq_entry e.
Proof. intros E%elem_of_list_to_map_2. set_unfold. destruct E as [[= -> ->] | [[= -> ->] | []]]; auto. Qed.

Lemma mq_init0 : MInit nested mq_sys0.
Proof.
  assert (Hs : forall e x, slot mq_waits0 e = Some x -> x = (e, 0)).
  { intros e x. unfold slot, ctx. destruct (entries mq_waits0 !! e) as [s |] eqn:E; [| done]. destruct (mq_waits0_entry e s E) as [_ ->]. simpl. congruence. }
  split.
  - exists 1%positive. split; [done | by eexists].
  - done.
  - done.
  - intros e ph E%elem_of_list_to_map_2. set_unfold. destruct E as [[= -> ->] | [[= -> ->] | []]]; (split; [done | by eexists]).
  - intros e e' x E1%Hs E2%Hs. congruence.
  - intros e [s E]. destruct (mq_waits0_entry e s E) as [_ ->]. unfold unlinked, links, ctx. simpl in E |- *. rewrite E. split; [done | by eexists].
  - intros e s c E. destruct (mq_waits0_entry e s E) as [[-> | ->] ->]; intros [= <-]; (split; [by eexists | simpl; lia]).
Qed.

(** A thread waits for a message of type 3, and another sends one. *)
Definition recv3 : mcall := KRecv 1 (RootCreds 1) 3 100 false false 7.

Lemma mq_asleep : exists s mech, rtc (mstep nested) mq_sys0 s /\ mphases s !! 1%positive = Some (Asleep recv3 16384) /\
  mq_mechs (msst s) !! 1%positive = Some mech /\ contents (mq_msgs (msst s)) (m_obj mech) = [(3, [104; 105])].
Proof.
  eexists. eexists. split; [| split_and!].
  - eapply rtc_l; [eapply (m_create nested _ (RootCreds 1) 5 384 false true false 0); vm_compute; reflexivity |].
    eapply rtc_l; [eapply (m_receive nested _ 1 1 (RootCreds 1) 3 100 false false 7 0);
      [vm_compute; reflexivity | by eexists; vm_compute | done | vm_compute; reflexivity] |].
    eapply rtc_l; [eapply (m_register nested _ 1 recv3); vm_compute; reflexivity |].
    eapply rtc_l; [eapply (m_try nested _ 1 recv3 0); vm_compute; reflexivity |].
    eapply rtc_once. eapply (m_send nested _ 2 1 3 [104; 105] (RootCreds 1) 8 0); [vm_compute; reflexivity | by eexists; vm_compute | done | vm_compute; reflexivity | vm_compute; reflexivity].
  - by vm_compute.
  - vm_compute. reflexivity.
  - by vm_compute.
Qed.

(** * No lost wake-up *)

(** C7: However calls of msgget(2), msgsnd(2), msgrcv(2) and msgctl(2) interleave, a thread that
    sleeps in [Receive] without an event has a live queue in which no message is one that
    [Pop] takes for it.  A thread that sleeps in [Send] without an event has a live queue
    whose bytes and its message exceed [lim], the limit that its last try met, or whose
    messages are as many as [lim]: unless [IPC_SET] has raised the limit since, the queue is
    full for it.  After a raise it may sleep although there is room, which is
    [raised_limit_wakes_no_one].  What [Pop] takes is [wants], as the code has it: for a
    negative type, messages with a type strictly below its absolute value. *)
Theorem mq_no_lost_wakeup w s0 s :
  wf w -> MInit w s0 -> rtc (mstep w) s0 s ->
  forall e k lim, mphases s !! e = Some (Asleep k lim) ->
    exists mech c, mq_mechs (msst s) !! q_of k = Some mech /\ ctx (mq_waits (msst s)) e = Some c /\
      (ready (mq_waits (msst s)) (waiter c) (waiterID c) = true \/
       dead (m_obj mech) = false /\
       match k with
       | KSend _ x _ _ => exists msg, mq_msgs (msst s) !! x = Some msg /\
           (lim < msg_Size msg + byteCount (m_obj mech) \/ lim < Z.of_nat (length (messages (m_obj mech))) + 1) /\
           (maxBytes (m_obj mech) <= lim -> full (m_obj mech) (msg_Size msg) = true)
       | KRecv _ _ mType _ _ except _ => forall m, m ∈ contents (mq_msgs (msst s)) (m_obj mech) -> ~ wants mType except m
       end).
Proof.
  intros Hwf H0 Hs e k lim Hk. destruct (rtc_inv w Hwf s0 s (MInit_inv w s0 H0) Hs) as [Q Hi].
  destruct (ni_held _ _ _ Hi e _ k Hk eq_refl) as [[mech Hm] Htry]. destruct (listed_ctx w s Q e _ Hi Hk) as [c Hc]. exists mech, c. split_and!; [done | done |].
  pose proof (ni_awake _ _ _ Hi e k lim Hk) as Ha. unfold goes in Ha. rewrite Hm in Ha. destruct (can_go _ _ lim k) eqn:Eg.
  { left. destruct (Ha eq_refl) as (c' & Hc' & Hr). rewrite Hc in Hc'. by injection Hc' as <-. }
  right. unfold can_go in Eg. apply orb_false_iff in Eg as [Ed Eg]. split; [done |]. destruct k as [p x cr pid | p cr mType mx tr ex pid].
  - destruct Htry as (_ & msg & Hx & Hsz). exists msg. rewrite Hx in Eg. apply negb_false_iff in Eg.
    destruct (byteCount_bounds w s Q _ mech Hi Hm) as [Hb1 Hb2]. pose proof (mi_size _ _ _ (ni_inv _ _ _ Hi) x msg Hx) as Hz. split_and!; [done | |].
    + rewrite full_wrap in Eg by (simpl; lia). by apply bool_decide_eq_true in Eg.
    + intros Hle. rewrite <- full_limited. eapply full_mono; [.. | exact Eg]; lia.
  - intros m Hm' Hw. apply bool_decide_eq_false in Eg. apply Eg, abs_select_some. eauto.
Qed.

Lemma mq_no_lost_wakeup_witness :
  exists s c, rtc (mstep nested) mq_sys0 s /\ mphases s !! 1%positive = Some (Asleep recv3 16384) /\
    ctx (mq_waits (msst s)) 1 = Some c /\ ready (mq_waits (msst s)) (waiter c) (waiterID c) = true.
Proof.
  destruct mq_asleep as (s & mech & Hs & Hp & Hm & Hc).
  destruct (mq_no_lost_wakeup nested mq_sys0 s nested_wf mq_init0 Hs 1%positive recv3 _ Hp) as (mech' & c & Hm' & Hcx & [Hr | [_ Hn]]); [by exists s, c |].
  simpl in Hm'. rewrite Hm in Hm'. injection Hm' as <-. rewrite Hc in Hn. destruct (Hn (3, [104; 105])); [set_solver | done].
Defined.

(** * Consistency *)

(** Every operation of a thread returns: what a state promises to the calls made on it.  The
    arguments are those that msgsnd(2), msgrcv(2) and msgctl(2) let through. *)
Record calls_return (w : World) (s : MSys) : Prop := {
  cr_create : forall c key mode private create exclusive now, exists r, MQ_FindOrCreate w (msst s) c key mode private create exclusive now = Ret r;
  cr_remove : forall id c, exists r, MQ_Remove w (msst s) id c = Ret r;
  cr_set : forall p c ds now, is_Some (mq_mechs (msst s) !! p) -> is_Some (w_ns w !! UserNamespace c) -> exists r, Queue_Set w (msst s) p c ds now = Ret r;
  cr_send : forall e p mType text c pid now st x, mphases s !! e = Some MIdle -> is_Some (mq_mechs (msst s) !! p) ->
    Z.of_nat (length text) <= MAX_MESSAGE_BYTES -> new_msg (msst s) (Message_New mType text) = (st, x) -> exists r, Push w st p x c pid now = Ret r;
  cr_receive : forall p c mType maxSize truncate except pid now, is_Some (mq_mechs (msst s) !! p) -> 0 <= maxSize ->
    exists r, Pop w (msst s) p c mType maxSize truncate except pid now = Ret r;
  cr_register : forall e k, mphases s !! e = Some (Entering k) ->
    exists st, wait_upd (dir k) (msst s) (q_of k) (fun h l => Queue_EventRegister h l e (mask_of k)) = Ret st;
  cr_try : forall e k now, mphases s !! e = Some (Trying k) -> exists r, attempt w (msst s) k now = Ret r;
  cr_wake : forall e k lim c, mphases s !! e = Some (Asleep k lim) -> ctx (mq_waits (msst s)) e = Some c ->
    exists h, Waiter_Clear (mq_waits (msst s)) (waiter c) (waiterID c) = Ret h;
  cr_unregister : forall e k, mphases s !! e = Some (Leaving k) ->
    exists st, wait_upd (dir k) (msst s) (q_of k) (fun h l => Queue_EventUnregister h l e) = Ret st;
  cr_stat : forall p c mask, is_Some (mq_mechs (msst s) !! p) -> is_Some (w_ns w !! UserNamespace c) -> exists r, stat w (msst s) p c mask = Ret r;
  cr_copy : forall p mech mType, mq_mechs (msst s) !! p = Some mech -> mType < 2 ^ 63 -> exists r, Copy (mq_msgs (msst s)) (m_obj mech) mType = Ret r;
  cr_info : exists r, MQ_MsgInfo (msst s) = Ret r }.

(** The calls that only read. *)
Lemma stat_returns w st Q p c mask :
  wf w -> mq_inv w st Q -> is_Some (mq_mechs st !! p) -> is_Some (w_ns w !! UserNamespace c) -> exists r, stat w st p c mask = Ret r.
Proof.
  intros Hwf Hi [m Hm] Hc. unfold stat, get_mech. rewrite Hm, bind_ret. cbv zeta. rewrite (checkPermission_ret w Hwf), bind_ret by (by apply (mi_ns _ _ _ Hi p)).
  destruct (allowed w m c mask); [| by eexists]. cbn [negb].
  assert (Hmap : forall sel id, exists z, map_chain sel (chain_fuel (UserNamespace c)) w (UserNamespace c) id = Ret z) by (intros; by apply map_chain_total).
  unfold MapFromKUID, MapFromKGID. repeat match goal with |- context [map_chain ?f ?n w ?u ?i] => destruct (Hmap f i) as [? ->]; rewrite bind_ret end. by eexists.
Qed.

Lemma copy_returns ms q mType : queue_ok ms q -> mType < 2 ^ 63 -> exists r, Copy ms q mType = Ret r.
Proof.
  intros Hq Ht. unfold Copy, msgAtIndex. destruct (Z.ltb_spec mType 0); [by eexists |]. destruct (Z.eqb_spec (Z.of_nat (length (messages q))) 0); [by eexists |]. simpl.
  destruct (Z.ltb_spec (Z.of_nat (length (messages q))) (wrap64 (i64 (mType + 1)))) as [| Hle]; [rewrite bind_ret; by eexists |].
  destruct (messages q !! Z.to_nat mType) as [x |] eqn:Hx.
  - destruct (qo_msgs _ _ Hq x (list_elem_of_lookup_2 _ _ _ Hx)) as [msg Hmsg]. rewrite bind_ret, (get_msg_ok _ _ _ Hmsg), bind_ret. by eexists.
  - apply lookup_ge_None in Hx. exfalso. unfold i64, wrap64, B64 in Hle.
    destruct (decide (mType = 2 ^ 63 - 1)) as [-> | N]; [assert (E : ((2 ^ 63 - 1 + 1 + 2 ^ 63) mod 2 ^ 64 - 2 ^ 63) mod 18446744073709551616 = 2 ^ 63) by done; rewrite E in Hle; lia |]. rewrite (Z.mod_small (mType + 1 + 2 ^ 63)) in Hle by lia.
    rewrite Z.mod_small in Hle by lia. lia.
Qed.

Lemma info_returns w st Q : mq_inv w st Q -> exists r, MQ_MsgInfo st = Ret r.
Proof.
  intros Hi. unfold MQ_MsgInfo, ForAllObjects_sum. set (f := fun _ _ => _).
  assert (Hf : forall l, (forall p, p ∈ l -> is_Some (mq_mechs st !! p)) -> exists ab, foldr f (Ret (0, 0)) l = Ret ab).
  { induction l as [| p l IH]; intros Hl; [by eexists |]. simpl. destruct IH as [[a b] ->]; [set_solver |]. destruct (Hl p) as [m Hm]; [set_solver |].
    unfold f, get_mech. rewrite bind_ret, Hm, bind_ret. by eexists. }
  destruct (Hf (map_to_list (objects (mq_reg st))).*2) as [[a b] ->]; [| by eexists].
  intros p ([id p'] & -> & Hp%elem_of_map_to_list)%list_elem_of_fmap. destruct (ro_obj _ _ _ (mi_reg _ _ _ Hi) id p' Hp) as (m & Hm & _). by eexists.
Qed.

Lemma inv_calls_return w s Q : wf w -> MInvQ w s Q -> calls_return w s.
Proof.
  intros Hwf Hi. pose proof (ni_inv _ _ _ Hi) as Hq. split.
  - intros c key mode private create exclusive now. by eapply returns_some, (create_step w Hwf s Q).
  - intros id c. by eapply returns_some, (remove_step w Hwf s Q).
  - intros p c ds now [m Hm] Hc. by eapply returns_some, (set_inv w Hwf (msst s) Q p c ds now m).
  - intros e p mType text c pid now st x He [m Hm] Hlen Hn. pose proof (new_msg_step w s Q mType text Hi Hlen) as Hs. rewrite Hn in Hs.
    destruct Hs as (Hi1 & Hnq & _ & Hx & Em). eapply returns_some, (push_inv w Hwf st Q p x c pid now m); [apply Hi1 | by rewrite Em | done | done].
  - intros p c mType maxSize truncate except pid now [m Hm] Hmx. by eapply returns_some, (pop_inv w Hwf (msst s) Q p c mType maxSize truncate except pid now m).
  - intros e k He. by eapply returns_some, (register_step w Hwf s Q e k).
  - intros e k now He. by eapply returns_some, (try_step w Hwf s Q e k).
  - intros e k lim c He Hc. by eapply returns_some, (wake_step w s Q e k lim c).
  - intros e k He. by eapply returns_some, (unregister_step w Hwf s Q e k).
  - intros p c mask. by apply (stat_returns w (msst s) Q).
  - intros p mech mType Hm. apply copy_returns. by apply (mi_queue _ _ _ Hq p).
  - by apply (info_returns w (msst s) Q).
Qed.

(** C18: In every state that calls can reach, a queue is alive exactly while its identifier finds
    it, and a key finds a live queue with that key; no message is in two queues or twice in
    one; the byte count of a queue is the length of its messages, so that it has not wrapped;
    its lists of waiting threads hold exactly the threads that wait for it.  From such a state
    every operation returns, neither panicking nor waiting for ever: creating, removing,
    changing and inspecting a queue, the first try and every later try of a send or a receive,
    registering with the queue and leaving it, and taking an event.  [IPC_SET] may lower and
    raise limits, up to [LIMIT_MAX]. *)
Theorem mq_reachable_ok w s0 s :
  wf w -> MInit w s0 -> rtc (mstep w) s0 s ->
  let st := msst s in
  (forall p m, mq_mechs st !! p = Some m -> (dead (m_obj m) = false <-> objects (mq_reg st) !! m_id m = Some p) /\
    byteCount (m_obj m) = total (contents (mq_msgs st) (m_obj m)) /\ NoDup (messages (m_obj m)) /\
    (forall b, exists l, wl_rep (mq_waits st) (wait_list (m_obj m) b) l /\
       forall e, e ∈ l <-> exists ph k, mphases s !! e = Some ph /\ listed ph = Some k /\ q_of k = p /\ dir k = b) /\
    forall p' m' x, mq_mechs st !! p' = Some m' -> x ∈ messages (m_obj m) -> x ∈ messages (m_obj m') -> p = p') /\
  (forall key id, keyToID (mq_reg st) !! key = Some id -> exists p m, objects (mq_reg st) !! id = Some p /\ mq_mechs st !! p = Some m /\ m_key m = key) /\
  calls_return w s.
Proof.
  intros Hwf H0 Hs st. destruct (rtc_inv w Hwf s0 s (MInit_inv w s0 H0) Hs) as [Q Hi]. pose proof (ni_inv _ _ _ Hi) as Hq. split_and!.
  - intros p m Hm. split_and!; [by apply (mi_live _ _ _ Hq) | by apply (byteCount_total w s Q p) | by apply (qo_nodup _ _ (mi_queue _ _ _ Hq p m Hm)) | |].
    + intros b. exists (Q p b). split; [by apply (mi_rep _ _ _ Hq) | intros e; by apply (ni_listed _ _ _ Hi)].
    + intros p' m' x. by apply (mi_sep _ _ _ Hq).
  - apply (ro_key _ _ _ (mi_reg _ _ _ Hq)).
  - by apply (inv_calls_return w s Q).
Qed.

Lemma mq_reachable_ok_witness : exists s m, rtc (mstep nested) mq_sys0 s /\ mq_mechs (msst s) !! 1%positive = Some m /\ byteCount (m_obj m) = 2.
Proof.
  destruct mq_asleep as (s & m & Hs & _ & Hm & Hc). exists s, m. split_and!; [done | done |].
  destruct (mq_reachable_ok nested mq_sys0 s nested_wf mq_init0 Hs) as [H _]. destruct (H 1%positive m Hm) as (_ & -> & _). by rewrite Hc.
Defined.

(** * Where the code falls short *)

(** [IPC_SET] raises the limit of a queue so that the message of a
    sleeping sender fits, and the sender gets no event: [MsgQueue::Set] does not notify the
    senders, so they sleep until some message is received. *)
Theorem raised_limit_wakes_no_one w s0 s e p x c pid lim mech msg c' ds now st' :
  wf w -> MInit w s0 -> rtc (mstep w) s0 s ->
  mphases s !! e = Some (Asleep (KSend p x c pid) lim) -> ~ has_event (mq_waits (msst s)) e ->
  mq_mechs (msst s) !! p = Some mech -> mq_msgs (msst s) !! x = Some msg -> is_Some (w_ns w !! UserNamespace c') ->
  Queue_Set w (msst s) p c' ds now = Ret (st', Ok tt) ->
  msg_Size msg + byteCount (m_obj mech) <= MsgQbytes ds -> Z.of_nat (length (messages (m_obj mech))) + 1 <= MsgQbytes ds ->
  goes st' (limit_of st' (KSend p x c pid)) (KSend p x c pid) = true /\ ~ has_event (mq_waits st') e.
Proof.
  intros Hwf H0 Hs Hk Hn Hm Hx Hc Hset H1 H2. destruct (rtc_inv w Hwf s0 s (MInit_inv w s0 H0) Hs) as [Q Hi].
  destruct (returns_inv _ _ _ (set_inv w Hwf (msst s) Q p c' ds now mech (ni_inv _ _ _ Hi) Hm Hc) Hset) as (Hi' & _ & Ew & Ems & m' & Em & Eo).
  split; [| by rewrite Ew]. pose proof (byteCount_total w s Q p mech Hi Hm) as Hb. destruct (ni_bound _ _ _ Hi p mech Hm) as [_ Ht].
  pose proof (total_nonneg (contents (mq_msgs (msst s)) (m_obj mech))) as Hnn. pose proof (mi_size _ _ _ (ni_inv _ _ _ Hi) x msg Hx) as Hz.
  destruct (held_msg w s Q e _ _ x Hi Hk eq_refl eq_refl) as (_ & msg' & Hx' & Hsz). rewrite Hx in Hx'. injection Hx' as <-.
  unfold goes, can_go, limit_of. cbn [q_of]. rewrite Em, lookup_insert_eq, Ems, Hx, full_limited, Eo. rewrite full_wrap by (simpl; lia).
  rewrite bool_decide_eq_false_2 by (simpl; lia). by rewrite orb_true_r.
Qed.

(** A thread waits to send two bytes on a queue whose limit is one byte. *)
Definition mq_limit (n : Z) : MsqidDS := mkMsqidDS (mkIPCPerm 5 0 0 0 0 384 0) 0 0 0 0 0 n 0 0.
Definition send2 : mcall := KSend 1 1 (RootCreds 1) 8.

Lemma mq_full : exists s mech msg st', rtc (mstep nested) mq_sys0 s /\ mphases s !! 2%positive = Some (Asleep send2 1) /\
  ready (mq_waits (msst s)) 2 0 = false /\ slot (mq_waits (msst s)) 2 = Some (2%positive, 0) /\
  mq_mechs (msst s) !! 1%positive = Some mech /\ mq_msgs (msst s) !! 1%positive = Some msg /\
  Queue_Set nested (msst s) 1 (RootCreds 1) (mq_limit 100) 0 = Ret (st', Ok tt) /\ msg_Size msg = 2 /\ byteCount (m_obj mech) = 0 /\ messages (m_obj mech) = [].
Proof.
  do 4 eexists. split.
  - eapply rtc_l; [eapply (m_create nested _ (RootCreds 1) 5 384 false true false 0); vm_compute; reflexivity |].
    eapply rtc_l; [eapply (m_set nested _ 1 _ (RootCreds 1) (mq_limit 1) 0); [vm_compute; reflexivity | by eexists | by vm_compute | vm_compute; reflexivity] |].
    eapply rtc_l; [eapply (m_send nested _ 2 1 3 [104; 105] (RootCreds 1) 8 0);
      [vm_compute; reflexivity | by eexists; vm_compute | done | vm_compute; reflexivity | vm_compute; reflexivity] |].
    eapply rtc_l; [eapply (m_register nested _ 2 send2); vm_compute; reflexivity |].
    eapply rtc_once. eapply (m_try nested _ 2 send2 0); vm_compute; reflexivity.
  - split_and!; vm_compute; reflexivity.
Qed.

Lemma raised_limit_wakes_no_one_witness : exists st', goes st' (limit_of st' send2) send2 = true /\ ~ has_event (mq_waits st') 2.
Proof.
  destruct mq_full as (s & mech & msg & st' & Hs & Hp & Hr & Hc & Hm & Hx & Hset & E1 & E2 & E3). exists st'.
  apply (raised_limit_wakes_no_one nested mq_sys0 s 2 1 1 (RootCreds 1) 8 1 mech msg (RootCreds 1) (mq_limit 100) 0 st'); try done.
  - exact nested_wf.
  - exact mq_init0.
  - intros (c & Hcx & Hrc). unfold slot in Hc. rewrite Hcx in Hc. simpl in Hc. injection Hc as E4 E5. rewrite E4, E5 in Hrc. congruence.
  - rewrite E1, E2. simpl. lia.
  - rewrite E3. simpl. lia.
Defined.

(** A negative type asks for a message whose type is at most its absolute value; a message
    whose type is exactly that value is not found. *)
Theorem bound_type_not_taken w st Q p c n maxSize truncate except pid now mech :
  wf w -> mq_inv w st Q -> mq_mechs st !! p = Some mech -> 0 <= maxSize -> 0 < n < 2 ^ 63 ->
  allowed w mech c perm_read = true -> dead (m_obj mech) = false -> (forall m, m ∈ contents (mq_msgs st) (m_obj mech) -> m.1 = n) ->
  Pop w st p c (- n) maxSize truncate except pid now = Ret (st, Err (SysError EWOULDBLOCK)).
Proof.
  intros Hwf Hi Hm Hmx Hn Hal Hd Hall. destruct (pop_inv w Hwf st Q p c (- n) maxSize truncate except pid now mech Hi Hm Hmx) as ([st' r] & E & _ & Hres).
  assert (Hs : abs_select (- n) except (contents (mq_msgs st) (m_obj mech)) = None).
  { apply eq_None_not_Some. rewrite abs_select_some. intros (m & Hin & Hw). apply wants_neg in Hw; [| lia]. rewrite (Hall m Hin) in Hw.
    unfold i64 in Hw. rewrite Z.mod_small in Hw by lia. lia. }
  unfold pop_result in Hres. rewrite Hal, Hd, Hs in Hres. destruct Hres as [-> ->]. exact E.
Qed.
