(* ===== verification/MsgCalls.v ===== *)
(** Message queues against an abstract queue, and the system calls that use them. *)
From S2P Require Import Prelude Auth IdentityThm UserNsProps Perms WaitList WaitListThm WaitListOps WaitQueue Ipc IpcThm MsgQueue MsgSys MsgThm MsgInv MsgOps MsgSteps MsgWake MsgProps.
#[local] Open Scope Z_scope.
#[local] Open Scope u64_scope.

(** * The abstract queue

    A list of typed messages with a limit on their number and on their bytes. *)

Record AbsQ : Type := mkAbsQ { a_dead : bool; a_max : Z; a_msgs : list (Z * list Z) }.

Inductive qop : Type :=
| QPush (mType : Z) (text : list Z) (c : Creds) (pid now : Z)
| QPop (c : Creds) (mType maxSize : Z) (truncate except : bool) (pid now : Z).

Inductive qres : Type := RPush (r : Result unit) | RPop (r : Result (Z * list Z)).

(** [may b c]: whether [c] may write ([b = true]) or read. *)
Definition abs_qop (may : bool -> Creds -> bool) (a : AbsQ) (op : qop) : AbsQ * qres :=
  match op with
  | QPush mType text c _ _ =>
      if mType <=? 0 then (a, RPush (Err (SysError EINVAL)))
      else if negb (may true c) then (a, RPush (Err (SysError EACCES)))
      else if a_dead a then (a, RPush (Err (SysError EIDRM)))
      else if bool_decide (a_max a < Z.of_nat (length text) + total (a_msgs a) \/ a_max a < Z.of_nat (length (a_msgs a)) + 1)
      then (a, RPush (Err (SysError EWOULDBLOCK)))
      else (mkAbsQ (a_dead a) (a_max a) (a_msgs a ++ [(mType, text)]), RPush (Ok tt))
  | QPop c mType maxSize truncate except _ _ =>
      if negb (may false c) then (a, RPop (Err (SysError EACCES)))
      else if a_dead a then (a, RPop (Err (SysError EIDRM)))
      else match abs_select mType except (a_msgs a) with
           | None => (a, RPop (Err (SysError EWOULDBLOCK)))
           | Some i =>
               match a_msgs a !! i with
               | None => (a, RPop (Err (SysError EWOULDBLOCK)))
               | Some (type, text) =>
                   if (maxSize <? Z.of_nat (length text)) && negb truncate then (a, RPop (Err (SysError E2BIG)))
                   else (mkAbsQ (a_dead a) (a_max a) (delete i (a_msgs a)), RPop (Ok (type, take (Z.to_nat maxSize) text)))
               end
           end
  end.

Fixpoint abs_qops (may : bool -> Creds -> bool) (a : AbsQ) (ops : list qop) : AbsQ * list qres :=
  match ops with
  | [] => (a, [])
  | op :: ops => let '(a, r) := abs_qop may a op in let '(a, rs) := abs_qops may a ops in (a, r :: rs)
  end.

(** The sizes that msgsnd(2) and msgrcv(2) let through. *)
Definition qop_ok (op : qop) : Prop :=
  match op with QPush _ text _ _ _ => Z.of_nat (length text) <= MAX_MESSAGE_BYTES | QPop _ _ maxSize _ _ _ _ => 0 <= maxSize end.

Section Refinement.
Context (w : World) (Hwf : wf w).

Definition run_qop (st : MQState) (p : positive) (op : qop) : outcome (MQState * qres) :=
  match op with
  | QPush mType text c pid now =>
      let '(st, x) := new_msg st (Message_New mType text) in
      '(st, r) ← Push w st p x c pid now; Ret (st, RPush r)
  | QPop c mType maxSize truncate except pid now =>
      '(st, r) ← Pop w st p c mType maxSize truncate except pid now;
      match r with
      | inl e => Ret (st, RPop (Err e))
      | inr x => m ← get_msg (mq_msgs st) x; Ret (st, RPop (Ok (msg_Type m, msg_Text m)))
      end
  end.

Fixpoint run_qops (st : MQState) (p : positive) (ops : list qop) : outcome (MQState * list qres) :=
  match ops with
  | [] => Ret (st, [])
  | op :: ops => '(st, r) ← run_qop st p op; '(st, rs) ← run_qops st p ops; Ret (st, r :: rs)
  end.

Definition may_use (m : MechanismIntern MsgQueue) (b : bool) (c : Creds) : bool := allowed w m c (if b then perm_write else perm_read).
Definition abs_queue (ms : gmap positive MessageIntern) (q : MsgQueue) : AbsQ := mkAbsQ (dead q) (maxBytes q) (contents ms q).

(** The other queues have the messages they had. *)
Definition others_kept (p : positive) (st st' : MQState) : Prop :=
  forall p' m, p' <> p -> mq_mechs st !! p' = Some m -> mq_mechs st' !! p' = Some m /\ contents (mq_msgs st') (m_obj m) = contents (mq_msgs st) (m_obj m).

Definition refined (st : MQState) (Q : positive -> bool -> list positive) (p : positive) (m : MechanismIntern MsgQueue) (st' : MQState) (a : AbsQ) : Prop :=
  mq_inv w st' Q /\ others_kept p st st' /\
  exists q, mq_mechs st' !! p = Some (with_obj m q) /\ bounded (mq_msgs st') q /\ abs_queue (mq_msgs st') q = a.

Lemma byteCount_bounded ms q : queue_ok ms q -> bounded ms q -> byteCount q = total (contents ms q).
Proof. intros Hq [_ Hb]. rewrite (qo_bytes _ _ Hq). pose proof (total_nonneg (contents ms q)). apply wrap64_small. unfold in64, B64, LIMIT_MAX in *. lia. Qed.

Lemma others_refl p st : others_kept p st st.
Proof. intros p' m _ Hm. done. Qed.

Lemma refined_refl st Q p m : mq_inv w st Q -> mq_mechs st !! p = Some m -> bounded (mq_msgs st) (m_obj m) ->
  refined st Q p m st (abs_queue (mq_msgs st) (m_obj m)).
Proof. intros Hi Hm Hb. split_and!; [done | apply others_refl |]. exists (m_obj m). by destruct m. Qed.

Lemma refined_push st Q p m ty text c pid now :
  mq_inv w st Q -> mq_mechs st !! p = Some m -> bounded (mq_msgs st) (m_obj m) -> Z.of_nat (length text) <= MAX_MESSAGE_BYTES ->
  returns (run_qop st p (QPush ty text c pid now)) (fun '(st', r) =>
    let '(a, r') := abs_qop (may_use m) (abs_queue (mq_msgs st) (m_obj m)) (QPush ty text c pid now) in r = r' /\ refined st Q p m st' a).
Proof.
  intros Hi Hm Hb Hlen. set (msg := Message_New ty text). pose proof (new_msg_inv w st Q msg Hi eq_refl) as Hn.
  assert (E : run_qop st p (QPush ty text c pid now) = let '(st, x) := new_msg st msg in '(st, r) ← Push w st p x c pid now; Ret (st, RPush r)) by done.
  rewrite E. clear E. destruct (new_msg st msg) as [st1 x]. destruct Hn as (Hi1 & Hfr & Hnq & ->). set (st1 := mkMQ _ _ _ _) in *.
  assert (Hext : forall p' m', mq_mechs st !! p' = Some m' -> contents (<[x := msg]> (mq_msgs st)) (m_obj m') = contents (mq_msgs st) (m_obj m')).
  { intros p' m' Hm'. apply contents_ext. intros y Hy. rewrite lookup_insert_ne; [done |]. intros <-. by apply (Hnq p' m'). }
  assert (Hr1 : refined st Q p m st1 (abs_queue (mq_msgs st) (m_obj m))).
  { split_and!; [done | intros p' m' _ Hm'; by rewrite <- (Hext p' m' Hm') |]. exists (m_obj m). destruct Hb as [B1 B2].
    unfold bounded, abs_queue. simpl. rewrite (Hext p m Hm). by destruct m. }
  eapply returns_bind; [by apply (push_inv w Hwf st1 Q p x c pid now m msg); [.. | apply lookup_insert_eq | apply Hnq] |].
  intros [st' r] [Hi' Hres]. apply returns_ret. unfold push_error in Hres. cbn [abs_qop]. change (msg_Type msg) with ty in Hres.
  destruct (ty <=? 0); [destruct Hres as [-> ->]; done |]. unfold may_use. destruct (allowed w m c perm_write); cbn [negb] in *; [| destruct Hres as [-> ->]; done].
  cbn [a_dead a_max a_msgs abs_queue]. destruct (dead (m_obj m)) eqn:Ed; [by destruct Hres as [-> ->] |].
  pose proof (byteCount_bounded _ _ (mi_queue _ _ _ Hi p m Hm) Hb) as Ebc. destruct Hb as [Hmax Htot]. pose proof (total_nonneg (contents (mq_msgs st) (m_obj m))) as Hnn.
  assert (Ef : full (m_obj m) (msg_Size msg) =
    bool_decide (maxBytes (m_obj m) < Z.of_nat (length text) + total (contents (mq_msgs st) (m_obj m)) \/ maxBytes (m_obj m) < Z.of_nat (length (contents (mq_msgs st) (m_obj m))) + 1)).
  { rewrite full_wrap by (simpl; lia). rewrite Ebc. unfold contents. by rewrite length_fmap. }
  rewrite Ef in Hres. case_bool_decide as Hfull; [by destruct Hres as [-> ->] |]. destruct Hres as (-> & _ & Ems & Em & _). split; [done |].
  assert (Ec : contents (mq_msgs st') (pushed (m_obj m) x (msg_Size msg) pid now) = contents (mq_msgs st) (m_obj m) ++ [(ty, text)]).
  { rewrite <- (Hext p m Hm), Ems. unfold contents. simpl. rewrite fmap_app. simpl. unfold shown at 2. by rewrite lookup_insert_eq. }
  split_and!; [done | |].
  - intros p' m' N Hm'. rewrite Em, Ems, lookup_insert_ne by done. split; [exact Hm' | by apply (Hext p')].
  - eexists. rewrite Em, lookup_insert_eq. split; [done |]. unfold bounded, abs_queue. rewrite Ec, total_app. simpl. split; [split; simpl; lia |]. by rewrite Ed.
Qed.

Lemma Truncate_take msg n : 0 <= n < Z.of_nat (length (msg_Text msg)) -> msg_Text (Truncate msg n) = take (Z.to_nat n) (msg_Text msg).
Proof. intros Hn. simpl. apply resize_le. lia. Qed.

Lemma refined_pop st Q p m c ty mx tr ex pid now :
  mq_inv w st Q -> mq_mechs st !! p = Some m -> bounded (mq_msgs st) (m_obj m) -> 0 <= mx ->
  returns (run_qop st p (QPop c ty mx tr ex pid now)) (fun '(st', r) =>
    let '(a, r') := abs_qop (may_use m) (abs_queue (mq_msgs st) (m_obj m)) (QPop c ty mx tr ex pid now) in r = r' /\ refined st Q p m st' a).
Proof.
  intros Hi Hm Hb Hmx. unfold run_qop. eapply returns_bind; [by apply (pop_inv w Hwf st Q p c ty mx tr ex pid now m) |].
  pose proof (refined_refl st Q p m Hi Hm Hb) as Hr0. intros [st' r] [Hi' Hres]. unfold pop_result in Hres. cbn [abs_qop]. unfold may_use.
  destruct (allowed w m c perm_read); cbn [negb] in *; [| destruct Hres as [-> ->]; by apply returns_ret].
  cbn [a_dead a_max a_msgs abs_queue]. destruct (dead (m_obj m)) eqn:Ed; [destruct Hres as [-> ->]; by apply returns_ret |].
  destruct (abs_select ty ex _) as [i |] eqn:Es; [| destruct Hres as [-> ->]; by apply returns_ret].
  destruct (contents (mq_msgs st) (m_obj m) !! i) as [[ty' text] |] eqn:Ei; [| destruct Hres as [-> ->]; by apply returns_ret]. simpl in Hres.
  destruct ((mx <? _) && negb tr) eqn:Eb; [destruct Hres as [-> ->]; by apply returns_ret |].
  destruct Hres as (x & msg & Hxi & Hx & -> & _ & Ems & Em & _). pose proof (mi_size _ _ _ Hi x msg Hx) as Hz.
  assert (Exm : msg_Type msg = ty' /\ msg_Text msg = text).
  { unfold contents in Ei. rewrite list_lookup_fmap, Hxi in Ei. injection Ei as Ei. unfold shown in Ei. rewrite Hx in Ei. by injection Ei. }
  destruct Exm as [<- <-]. destruct (NoDup_delete _ _ _ (qo_nodup _ _ (mi_queue _ _ _ Hi p m Hm)) Hxi) as [_ Hnx].
  assert (Hms : forall y, y <> x -> mq_msgs st' !! y = mq_msgs st !! y) by (intros y N; rewrite Ems; case_match; [by rewrite lookup_insert_ne | done]).
  assert (Hgot : exists m', mq_msgs st' !! x = Some m' /\ msg_Type m' = msg_Type msg /\ msg_Text m' = take (Z.to_nat mx) (msg_Text msg)).
  { rewrite Ems. destruct (Z.ltb_spec mx (msg_Size msg)); [exists (Truncate msg mx); rewrite lookup_insert_eq; split_and!; [done | done | apply Truncate_take; lia] |].
    exists msg. split_and!; [done | done | rewrite take_ge by lia; done]. }
  destruct Hgot as (m' & Hm' & Et & Ex). rewrite (get_msg_ok _ _ _ Hm'), bind_ret. apply returns_ret. rewrite Et, Ex. split; [done |].
  assert (Ec : contents (mq_msgs st') (popped (m_obj m) i (msg_Size msg) pid now) = delete i (contents (mq_msgs st) (m_obj m))).
  { rewrite (contents_ext (mq_msgs st)); [apply list_fmap_delete |]. simpl. intros y Hy. apply Hms. by intros ->. }
  split_and!; [done | |].
  - intros p' m2 N Hm2. rewrite Em, lookup_insert_ne by done. split; [done |]. apply contents_ext. intros y Hy. apply Hms. intros ->. apply N.
    eapply (mi_sep _ _ _ Hi p' p); [done | done | done | by eapply list_elem_of_lookup_2].
  - eexists. rewrite Em, lookup_insert_eq. split; [done |]. unfold bounded, abs_queue. rewrite Ec, (total_delete _ _ _ Ei). destruct Hb. split; [split; simpl; lia |]. simpl. by rewrite Ed.
Qed.

Lemma refined_op st Q p m op :
  mq_inv w st Q -> mq_mechs st !! p = Some m -> bounded (mq_msgs st) (m_obj m) -> qop_ok op ->
  returns (run_qop st p op) (fun '(st', r) =>
    let '(a, r') := abs_qop (may_use m) (abs_queue (mq_msgs st) (m_obj m)) op in r = r' /\ refined st Q p m st' a).
Proof. intros Hi Hm Hb Hop. destruct op; [by apply refined_push | by apply refined_pop]. Qed.
End Refinement.

(** C9: A message queue is an abstract queue: any sequence of [Push] and [Pop] on it returns,
    with the results of the abstract queue, and leaves the queue with the messages of the
    abstract queue; the other queues keep their messages.  [Pop] takes the first message of
    the type, the first of another type, or the first of the lowest type below the bound, and
    cuts it to the size that was asked for. *)
Theorem msgqueue_refines w st Q p m ops :
  wf w -> mq_inv w st Q -> mq_mechs st !! p = Some m -> bounded (mq_msgs st) (m_obj m) -> Forall qop_ok ops ->
  returns (run_qops w st p ops) (fun '(st', rs) =>
    let '(a, rs') := abs_qops (may_use w m) (abs_queue (mq_msgs st) (m_obj m)) ops in
    rs = rs' /\ mq_inv w st' Q /\ others_kept p st st' /\ exists q, mq_mechs st' !! p = Some (with_obj m q) /\ abs_queue (mq_msgs st') q = a).
Proof.
  intros Hwf Hi Hm Hb Hops. revert st m Hi Hm Hb. induction Hops as [| op ops Hop _ IH]; intros st m Hi Hm Hb; simpl.
  { apply returns_ret. split_and!; [done | done | apply others_refl |]. exists (m_obj m). by destruct m. }
  eapply returns_bind; [by apply (refined_op w Hwf st Q p m op) |]. intros [st1 r]. destruct (abs_qop _ _ op) as [a r'].
  intros (-> & Hi1 & Ho1 & q1 & Hm1 & Hb1 & Ha1). specialize (IH st1 (with_obj m q1) Hi1 Hm1 Hb1). simpl in IH. rewrite Ha1 in IH.
  change (may_use w (with_obj m q1)) with (may_use w m) in IH. eapply returns_bind; [exact IH |].
  intros [st2 rs]. destruct (abs_qops _ _ ops) as [a2 rs']. intros (-> & Hi2 & Ho2 & q2 & Hm2 & Ha2). apply returns_ret.
  split_and!; [done | done | | by exists q2].
  intros p' m' N Hm'. destruct (Ho1 p' m' N Hm') as [H1 E1]. destruct (Ho2 p' m' N H1) as [H2 E2]. split; [done | congruence].
Qed.

(** The queue of an example: alive and empty. *)
Lemma mq_created : exists st Q m, mq_inv nested st Q /\ MQ_FindById st 1 = Ok 1%positive /\ mq_mechs st !! 1%positive = Some m /\ bounded (mq_msgs st) (m_obj m) /\
  (forall b, may_use nested m b (RootCreds 1) = true) /\ abs_queue (mq_msgs st) (m_obj m) = mkAbsQ false MAX_QUEUE_BYTES [].
Proof.
  destruct (MInit_inv nested mq_sys0 mq_init0) as [Q Hi].
  destruct (create_inv nested nested_wf _ Q (RootCreds 1) 5 384 false true false 0 (ni_inv _ _ _ Hi)) as ([st r] & E & Hi' & _).
  exists st, Q. vm_compute in E. injection E as <- <-. eexists. split_and!; [exact Hi' | by vm_compute | vm_compute; reflexivity | done | by intros [] | done].
Qed.

Lemma msgqueue_refines_witness : exists st, returns (run_qops nested st 1
    [QPush 3 [104; 105] (RootCreds 1) 8 0; QPush 2 [106; 107] (RootCreds 1) 8 0; QPop (RootCreds 1) (-5) 1 true false 9 0; QPop (RootCreds 1) 4 9 false false 9 0])
  (fun '(st', rs) => rs = [RPush (Ok tt); RPush (Ok tt); RPop (Ok (2, [106])); RPop (Err (SysError EWOULDBLOCK))]).
Proof.
  destruct mq_created as (st & Q & m & Hi & _ & Hm & Hb & Hmay & Ha). exists st. eapply returns_mono.
  - apply (msgqueue_refines nested st Q 1 m _ nested_wf Hi Hm Hb). repeat constructor; simpl; lia.
  - intros [st' rs]. rewrite Ha. simpl. rewrite !Hmay. by intros [-> _].
Defined.

(** * msgget(2) *)

(** The queue that [FindOrCreate] gives is alive and its identifier finds it. *)
Lemma created_found w st Q c key mode private create exclusive now st' p :
  mq_inv w st' Q -> found_or_created w st c key mode private create exclusive now st' (Ok p) ->
  exists m, mq_mechs st' !! p = Some m /\ dead (m_obj m) = false /\ m_key m = key /\ MQ_FindById st' (m_id m) = Ok p.
Proof.
  intros Hi (_ & _ & Hr). assert (Hfin : forall m, mq_mechs st' !! p = Some m -> dead (m_obj m) = false -> MQ_FindById st' (m_id m) = Ok p).
  { intros m Hm Hd. unfold MQ_FindById, Registry_FindById. apply (mi_live _ _ _ Hi p m Hm) in Hd. by rewrite Hd. }
  destruct (if private then None else _) as [id |].
  - destruct Hr as (-> & p' & m & _ & Hm & Hk & Hd & E). destruct (negb _); [done |]. destruct (create && exclusive); [done |]. injection E as ->. exists m. by split_and!; auto.
  - destruct (negb private && negb create); [by destruct Hr |]. destruct (MAX_QUEUES <? _); [by destruct Hr |]. destruct Hr as (p' & m & [= <-] & _ & Em & Eo & Hk & _).
    assert (Hm : mq_mechs st' !! p = Some m) by (rewrite Em; apply lookup_insert_eq). exists m. split_and!; [done | by rewrite Eo | done |]. apply Hfin; [done | by rewrite Eo].
Qed.

(** C32: msgget(2) on every branch: a private queue is always new; a key that is known gives its
    queue, or an error that depends on the permissions and the flags; a new queue is empty,
    has a fresh identifier, belongs to the caller and is the only thing that changes; there
    is a limit on the number of queues.  The identifier that is returned finds a live queue
    with the key that was asked for. *)
Theorem SysMsgget_spec w st Q c clock arg0 arg1 :
  wf w -> mq_inv w st Q ->
  let key := to_i32 arg0 in
  let flag := to_i32 arg1 in
  returns (SysMsgget w c clock st arg0 arg1) (fun '(st', r) => mq_inv w st' Q /\ exists found,
    found_or_created w st c key (Z.land (flag mod 65536) 511) (key =? IPC_PRIVATE) (has_flag flag IPC_CREAT) (has_flag flag IPC_EXCL) (clock st) st' found /\
    match found with
    | inl e => r = Err e
    | inr p => exists m, mq_mechs st' !! p = Some m /\ dead (m_obj m) = false /\ m_key m = key /\ MQ_FindById st' (m_id m) = Ok p /\ r = Ok (m_id m)
    end).
Proof.
  intros Hwf Hi key flag. unfold SysMsgget. eapply returns_bind; [by apply (create_inv w Hwf st Q) |]. intros [st' [e | p]] [Hi' Hf]; [apply returns_ret; split; [done | by exists (Err e)] |].
  destruct (created_found _ _ _ _ _ _ _ _ _ _ _ _ Hi' Hf) as (m & Hm & Hd & Hk & Hfd). unfold get_mech. rewrite Hm, bind_ret. apply returns_ret. split; [done |].
  exists (Ok p). split; [done |]. by exists m.
Qed.

Lemma SysMsgget_witness : returns (SysMsgget nested (RootCreds 1) (fun _ => 0) (msst mq_sys0) 5 (512 + 384)) (fun '(st', r) => exists p, MQ_FindById st' 1 = Ok p /\ r = Ok 1).
Proof.
  destruct (MInit_inv nested mq_sys0 mq_init0) as [Q Hi].
  destruct (SysMsgget_spec nested (msst mq_sys0) Q (RootCreds 1) (fun _ => 0) 5 (512 + 384) nested_wf (ni_inv _ _ _ Hi)) as ([st' r] & E & _ & found & _ & Hf).
  exists (st', r). split; [exact E |]. vm_compute in E. injection E as <- <-. destruct found as [e | p]; [done |].
  destruct Hf as (m & _ & _ & _ & Hfd & [= Hid]). rewrite <- Hid in Hfd. by exists p.
Defined.
