(* ===== verification/MsgTransfer.v ===== *)
(** A message goes from the memory of one task to that of another: msgsnd(2) and msgrcv(2). *)
From S2P Require Import Prelude Auth IdentityThm UserNsProps Perms WaitList WaitListThm WaitListOps WaitQueue Ipc IpcThm MsgQueue MsgSys MsgThm MsgInv MsgOps MsgSteps MsgWake MsgProps MsgCalls.
#[local] Open Scope Z_scope.

(** What copying does, when it succeeds: the bytes that are read are those that were
    written. *)
Class MsgMemLaws (M : Type) `{!MsgMem M} : Prop := {
  CopyOutType_read : forall m m' v a, CopyOutType m v a = (m', Ok tt) -> CopyInType m' a = Ok v;
  CopyOutSlice_read : forall m m' l a, CopyOutSlice m l a = (m', Ok tt) -> CopyInVec m' a (Z.of_nat (length l)) = Ok l;
  CopyOutSlice_after : forall m m' l a v, CopyInType m a = Ok v -> CopyOutSlice m l (add64 a 8) = (m', Ok tt) -> CopyInType m' a = Ok v }.

Section Transfer.
Context {M : Type} `{!MsgMem M, !MsgMemLaws M} (w : World) (Hwf : wf w).
Variable block : MQState -> outcome (MQState * Result unit).
Variable clock : MQState -> Z.

Lemma CopyOutMsg_read m a msg m' :
  CopyOutMsg m a msg = (m', Ok tt) -> CopyInMsg m' a (Z.of_nat (length (msg_Text msg))) = Ok (Message_New (msg_Type msg) (msg_Text msg)).
Proof.
  unfold CopyOutMsg, CopyInMsg. destruct (CopyOutType m (msg_Type msg) a) as [m1 [e | []]] eqn:E1; [done |]. intros E2.
  apply CopyOutType_read in E1. by rewrite (CopyOutSlice_after _ _ _ _ _ E1 E2), (CopyOutSlice_read _ _ _ _ E2).
Qed.

(** A push or a pop that succeeds at once is all that the system call does. *)
Lemma msgsnd_push st m c e pid fuel arg0 arg1 arg2 arg3 ty text p st' now :
  0 <= arg2 <= MSGMAX -> CopyInMsg m arg1 arg2 = Ok (Message_New ty text) -> MQ_FindById st (to_i32 arg0) = Ok p ->
  now = clock (new_msg st (Message_New ty text)).1 ->
  run_qop w st p (QPush ty text c pid now) = Ret (st', RPush (Ok tt)) ->
  SysMsgsnd w c e pid fuel block clock st m arg0 arg1 arg2 arg3 = Ret (st', Ok 0).
Proof.
  intros Ha Hin Hfd -> Hrun. assert (Ei : i64 arg2 = arg2) by (unfold i64; rewrite Z.mod_small; lia). unfold SysMsgsnd. rewrite Ei, Hin.
  destruct (Z.ltb_spec arg2 0), (Z.ltb_spec MSGMAX arg2); [lia.. |]. cbn [orb]. unfold run_qop in Hrun.
  change (MQ_FindById (new_msg st (Message_New ty text)).1 (to_i32 arg0)) with (MQ_FindById st (to_i32 arg0)).
  unfold new_msg in *. cbv zeta in *. cbn [fst] in Hrun. unfold MQ_FindById in *. cbn [mq_reg]. destruct (Registry_FindById (mq_reg st) (to_i32 arg0)); [| done].
  injection Hfd as ->. unfold Send. destruct (Push w _ p _ c pid _) as [[st1 [er | []]] | |]; simpl in Hrun; [congruence | | done | done].
  injection Hrun as <-. done.
Qed.

Lemma msgrcv_pop st m c e pid fuel arg0 arg1 arg2 arg3 arg4 p st' ty text Q :
  0 <= arg2 <= MSGMAX -> i64 arg3 = arg3 -> has_flag (to_i32 arg4) MSG_COPY = false -> MQ_FindById st (to_i32 arg0) = Ok p -> mq_inv w st' Q ->
  run_qop w st p (QPop c arg3 arg2 (has_flag (to_i32 arg4) MSG_NOERROR) (has_flag (to_i32 arg4) MSG_EXCEPT) pid (clock st)) = Ret (st', RPop (Ok (ty, text))) ->
  let '(m', r) := CopyOutMsg m arg1 (Message_New ty text) in
  SysMsgrcv w c e pid fuel block clock st m arg0 arg1 arg2 arg3 arg4 =
    Ret (st', m', match r with inl err => Err err | inr _ => Ok (Z.of_nat (length text)) end).
Proof.
  intros Ha Ht Hcp Hfd Hi Hrun. assert (Ei : i64 arg2 = arg2) by (unfold i64; rewrite Z.mod_small; lia). unfold SysMsgrcv, Sys_Receive. rewrite Ei, Ht, Hcp, Hfd.
  unfold Receive. destruct (Z.ltb_spec arg2 0), (Z.ltb_spec MAX_MESSAGE_BYTES arg2); [lia.. |]. cbn [orb]. unfold run_qop in Hrun.
  destruct (Pop w st p c arg3 arg2 _ _ pid (clock st)) as [[st1 [er | x]] | |]; simpl in Hrun; [congruence | | done | done].
  unfold get_msg in Hrun. destruct (mq_msgs st1 !! x) as [msg |] eqn:Hx; [| done]. simpl in Hrun. injection Hrun as <- <- <-.
  pose proof (mi_size _ _ _ Hi x msg Hx) as Hz. assert (Em : msg = Message_New (msg_Type msg) (msg_Text msg)) by (destruct msg; simpl in *; by subst).
  rewrite <- Em. destruct (CopyOutMsg m arg1 msg) as [m' r] eqn:Eo. rewrite !bind_ret. cbv beta iota. unfold get_msg. rewrite Hx, !bind_ret. cbv beta iota. by rewrite Eo, Hz.
Qed.
End Transfer.

(** A message of a type that the queue does not have is the one that is selected. *)
Lemma abs_select_new ty text (l : list (Z * list Z)) :
  0 < ty -> (forall m, m ∈ l -> m.1 <> ty) -> abs_select ty false (l ++ [(ty, text)]) = Some (length l).
Proof.
  intros Ht Hl. unfold abs_select. apply fmap_Some. exists (length l, (ty, text)). split; [| done]. apply list_find_Some. split_and!.
  - by rewrite lookup_app_r, Nat.sub_diag by done.
  - by apply wants_pos.
  - lia.
  - intros j y Hj Hlt. rewrite lookup_app_l in Hj by done. intros [Hw _]. apply wants_pos in Hw; [| done]. apply (Hl y); [by eapply list_elem_of_lookup_2 | done].
Qed.

Lemma delete_snoc {A} (l : list A) x : delete (length l) (l ++ [x]) = l.
Proof. induction l as [| y l IH]; [done |]. simpl. by rewrite IH. Qed.

(** A send to an abstract queue with room, and a receive of the new type. *)
Lemma abs_send may a ty text c pid now :
  0 < ty -> may true c = true -> a_dead a = false ->
  Z.of_nat (length text) + total (a_msgs a) <= a_max a -> Z.of_nat (length (a_msgs a)) + 1 <= a_max a ->
  abs_qop may a (QPush ty text c pid now) = (mkAbsQ false (a_max a) (a_msgs a ++ [(ty, text)]), RPush (Ok tt)).
Proof.
  intros Ht Hmay Hd H1 H2. unfold abs_qop. rewrite (proj2 (Z.leb_gt _ _)) by lia. rewrite Hmay, Hd. cbn [negb]. by rewrite bool_decide_eq_false_2 by lia.
Qed.

Lemma abs_receive may n l ty text c size tr pid now :
  0 < ty -> may false c = true -> (forall m, m ∈ l -> m.1 <> ty) -> Z.of_nat (length text) <= size ->
  abs_qop may (mkAbsQ false n (l ++ [(ty, text)])) (QPop c ty size tr false pid now) = (mkAbsQ false n l, RPop (Ok (ty, text))).
Proof.
  intros Ht Hmay Hl Hs. unfold abs_qop. rewrite Hmay. cbn [negb a_dead a_msgs a_max]. rewrite abs_select_new by done.
  rewrite lookup_app_r, Nat.sub_diag by done. simpl. rewrite (proj2 (Z.ltb_ge _ _)) by lia. cbn [andb]. by rewrite delete_snoc, take_ge by lia.
Qed.

Lemma found_kept w st st1 Q p mech q1 id :
  mq_inv w st Q -> mq_inv w st1 Q -> MQ_FindById st id = Ok p -> mq_mechs st !! p = Some mech ->
  mq_mechs st1 !! p = Some (with_obj mech q1) -> dead q1 = false -> MQ_FindById st1 id = Ok p.
Proof.
  unfold MQ_FindById, Registry_FindById. intros Hi Hi1 Hfd Hm Hm1 Hd. destruct (objects (mq_reg st) !! id) as [p' |] eqn:Ho; [| done]. injection Hfd as ->.
  destruct (ro_obj _ _ _ (mi_reg _ _ _ Hi) id p Ho) as (m' & Hm' & Eid). rewrite Hm in Hm'. injection Hm' as <-.
  apply (mi_live _ _ _ Hi1 p _ Hm1) in Hd. simpl in Hd. rewrite Eid in Hd. by rewrite Hd.
Qed.

(** C19: A message that msgsnd(2) takes from the memory of one task arrives in the memory of the
    task that receives its type: both calls return at once, the second with the length, the
    type and the text are those that were sent, and the queue has the messages it had.  If
    the memory of the receiver faults, its call fails with that error. *)
Theorem msg_roundtrip {M} `{!MsgMem M, !MsgMemLaws M} w block clock st Q p mech (m1 m2 : M) c1 c2 e1 e2 pid1 pid2 fuel id a1 a2 flags1 flags2 ty text size :
  wf w -> mq_inv w st Q -> MQ_FindById st (to_i32 id) = Ok p -> mq_mechs st !! p = Some mech -> bounded (mq_msgs st) (m_obj mech) ->
  dead (m_obj mech) = false -> allowed w mech c1 perm_write = true -> allowed w mech c2 perm_read = true ->
  CopyInMsg m1 a1 (Z.of_nat (length text)) = Ok (Message_New ty text) -> 0 < ty < 2 ^ 63 -> Z.of_nat (length text) <= size <= MSGMAX ->
  Z.of_nat (length text) + total (contents (mq_msgs st) (m_obj mech)) <= maxBytes (m_obj mech) ->
  Z.of_nat (length (contents (mq_msgs st) (m_obj mech))) + 1 <= maxBytes (m_obj mech) ->
  (forall m, m ∈ contents (mq_msgs st) (m_obj mech) -> m.1 <> ty) ->
  has_flag (to_i32 flags2) MSG_COPY = false -> has_flag (to_i32 flags2) MSG_EXCEPT = false ->
  returns (SysMsgsnd w c1 e1 pid1 fuel block clock st m1 id a1 (Z.of_nat (length text)) flags1) (fun '(st1, r1) => r1 = Ok 0 /\
    returns (SysMsgrcv w c2 e2 pid2 fuel block clock st1 m2 id a2 size ty flags2) (fun '(st2, m2', r2) =>
      match (CopyOutMsg m2 a2 (Message_New ty text)).2 with
      | inl err => r2 = Err err
      | inr _ => r2 = Ok (Z.of_nat (length text)) /\ CopyInMsg m2' a2 (Z.of_nat (length text)) = Ok (Message_New ty text)
      end /\
      exists q, mq_mechs st2 !! p = Some (with_obj mech q) /\ contents (mq_msgs st2) q = contents (mq_msgs st) (m_obj mech))).
Proof.
  intros Hwf Hi Hfd Hm Hb Hd Hal1 Hal2 Hin Hty Hsz Hr1 Hr2 Hnew Hcp Hex.
  destruct (refined_op w Hwf st Q p mech (QPush ty text c1 pid1 (clock (new_msg st (Message_New ty text)).1)) Hi Hm Hb) as ([st1 r1] & E1 & H1); [simpl; lia |].
  rewrite abs_send in H1 by (done || lia). destruct H1 as (-> & Hi1 & _ & q1 & Hm1 & Hb1 & Ha1).
  exists (st1, Ok 0). split; [eapply msgsnd_push; [lia | exact Hin | exact Hfd | reflexivity | exact E1] |]. split; [done |].
  assert (Hd1 : dead q1 = false) by (by injection Ha1). pose proof (found_kept w st st1 Q p mech q1 _ Hi Hi1 Hfd Hm Hm1 Hd1) as Hfd1.
  destruct (refined_op w Hwf st1 Q p (with_obj mech q1) (QPop c2 ty size (has_flag (to_i32 flags2) MSG_NOERROR) false pid2 (clock st1)) Hi1 Hm1 Hb1)
    as ([st2 r2] & E2 & H2); [simpl; lia |].
  simpl in Ha1. cbn [m_obj with_obj] in H2. rewrite Ha1, abs_receive in H2 by (done || lia). destruct H2 as (-> & Hi2 & _ & q2 & Hm2 & _ & Ha2).
  pose proof (msgrcv_pop w block clock st1 m2 c2 e2 pid2 fuel id a2 size ty flags2 p st2 ty text Q ltac:(lia)) as Hrcv.
  rewrite Hex in Hrcv. specialize (Hrcv ltac:(unfold i64; rewrite Z.mod_small; lia) Hcp Hfd1 Hi2 E2).
  destruct (CopyOutMsg m2 a2 (Message_New ty text)) as [m2' r2] eqn:Eo. eexists. split; [exact Hrcv |].
  split; [| exists q2; split; [done | by injection Ha2]]. destruct r2 as [err | []]; [done |]. split; [done |]. by apply (CopyOutMsg_read m2 a2 (Message_New ty text)).
Qed.

(** A memory with a cell for a type and one for a text at every address. *)
Record Cells : Type := mkCells { c_types : gmap Z Z; c_texts : gmap Z (list Z) }.

#[local] Instance Cells_mem : MsgMem Cells := {
  CopyInType m a := match c_types m !! a with Some v => Ok v | None => Err (SysError EFAULT) end;
  CopyInVec m a n := match c_texts m !! a with
                     | Some l => if Z.of_nat (length l) =? n then Ok l else Err (SysError EFAULT)
                     | None => Err (SysError EFAULT)
                     end;
  CopyOutType m v a := (mkCells (<[a := v]> (c_types m)) (c_texts m), Ok tt);
  CopyOutSlice m l a := (mkCells (c_types m) (<[a := l]> (c_texts m)), Ok tt);
  CopyOutInfo m _ _ := (m, Err (SysError EFAULT));
  CopyOutDS m _ _ := (m, Err (SysError EFAULT));
  CopyInDS _ _ := Err (SysError EFAULT) }.

#[local] Instance Cells_laws : MsgMemLaws Cells.
Proof.
  split; simpl.
  - intros m m' v a [= <-]. simpl. by rewrite lookup_insert_eq.
  - intros m m' l a [= <-]. simpl. by rewrite lookup_insert_eq, Z.eqb_refl.
  - by intros m m' l a v Hv [= <-].
Qed.

Lemma msg_roundtrip_witness : exists st,
  returns (SysMsgsnd nested (RootCreds 1) 1 8 0 (fun _ => Panic) (fun _ => 0) st (mkCells {[4096 := 3]} {[4104 := [104; 105]]}) 1 4096 2 0) (fun '(st1, r1) =>
    r1 = Ok 0 /\
    returns (SysMsgrcv nested (RootCreds 1) 2 9 0 (fun _ => Panic) (fun _ => 0) st1 (mkCells ∅ ∅) 1 8192 100 3 0) (fun '(_, m2, r2) =>
      r2 = Ok 2 /\ CopyInMsg m2 8192 2 = Ok (Message_New 3 [104; 105]))).
Proof.
  destruct mq_created as (st & Q & m & Hi & Hfd & Hm & Hb & Hmay & Ha). exists st. injection Ha as Hd Hmax Hc.
  eapply returns_mono; [apply (msg_roundtrip nested (fun _ => Panic) (fun _ => 0) st Q 1 m _ (mkCells ∅ ∅) (RootCreds 1) (RootCreds 1) 1 2 8 9 0 1 4096 8192 0 0 3 [104; 105] 100) |].
  all: try done.
  - exact nested_wf.
  - apply (Hmay true).
  - apply (Hmay false).
  - rewrite Hc, Hmax. simpl. lia.
  - rewrite Hc, Hmax. simpl. lia.
  - rewrite Hc. by intros x ?%elem_of_nil.
  - intros [st1 r1] [-> H2]. split; [done |]. eapply returns_mono; [exact H2 |]. intros [[st2 m2] r2] [Hr _]. exact Hr.
Defined.
