(* ===== verification/MsgRun.v ===== *)
(** The blocking calls of message queues are runs of the steps of [MsgSteps.v]: [Send] and
    [Receive] try, register, and try and block in turns, while other threads take steps. *)
From stdpp Require Import relations.
From S2P Require Import Prelude Auth IdentityThm UserNsProps Perms WaitList WaitListThm WaitListOps WaitQueue Ipc IpcThm MsgQueue MsgSys MsgThm MsgInv MsgOps MsgSteps MsgWake MsgProps.
#[local] Open Scope Z_scope.

Section Run.
Context (w : World) (Hwf : wf w) (e : positive) (k : mcall).
Variable block : MQState -> outcome (MQState * Result unit).
Variable clock : MQState -> Z.

(** What blocking does: other threads take steps; the thread is woken, or it gives up. *)
Definition mblocks (s : MSys) : Prop :=
  forall s1 lim, rtc (mstep w) s s1 -> mphases s1 !! e = Some (Asleep k lim) ->
    exists s2 r, block (msst s1) = Ret (msst s2, r) /\ rtc (mstep w) s1 s2 /\
      mphases s2 !! e = Some (match r with inl _ => Leaving k | inr _ => Trying k end).

(** The thread tries [n] times in vain, blocks each time and is woken each time. *)
Inductive turns : nat -> MSys -> MSys -> Prop :=
| turns_O s : turns 0 s s
| turns_S n s st1 s2 s3 :
    attempt w (msst s) k (clock (msst s)) = Ret (st1, true) -> rtc (mstep w) (mkMSys st1 (<[e := Asleep k (limit_of (msst s) k)]> (mphases s))) s2 ->
    mphases s2 !! e = Some (Trying k) -> turns n s2 s3 -> turns (S n) s s3.

(** * The two calls have one shape *)

Section Shape.
Context {A : Type} (tries : MQState -> Z -> outcome (MQState * Result A)) (nowait : SysErr).

Fixpoint call_loop (fuel : nat) (st : MQState) : outcome (MQState * Result A) :=
  match fuel with
  | O => OutOfFuel
  | S fuel =>
      '(st, r) ← tries st (clock st);
      if would_block r then
        '(st, b) ← block st;
        match b with inl err => Ret (st, Err (block_error err)) | inr _ => call_loop fuel st end
      else Ret (st, r)
  end.

Definition call (fuel : nat) (st : MQState) (wait : bool) : outcome (MQState * Result A) :=
  '(st, r) ← tries st (clock st);
  if would_block r then
    if negb wait then Ret (st, Err (SysError nowait))
    else
      st ← wait_upd (dir k) st (q_of k) (fun h l => Queue_EventRegister h l e (mask_of k));
      '(st, r) ← call_loop fuel st;
      st ← wait_upd (dir k) st (q_of k) (fun h l => Queue_EventUnregister h l e);
      Ret (st, r)
  else Ret (st, r).

Hypothesis tries_attempt : forall st now, attempt w st k now = ('(st, r) ← tries st now; Ret (st, would_block r)).

Lemma attempt_tries st now st' blk : attempt w st k now = Ret (st', blk) -> exists r, tries st now = Ret (st', r) /\ would_block r = blk.
Proof. rewrite tries_attempt. destruct (tries st now) as [[st1 r] | |]; simpl; [| done | done]. intros [= <- <-]. by exists r. Qed.

Lemma mblocks_rtc s s' : mblocks s -> rtc (mstep w) s s' -> mblocks s'.
Proof. intros Hb Hs s1 lim Hs1. apply Hb. by etrans. Qed.

(** The loop ends with the entry still registered, or has gone around as often as the fuel
    says, each time for lack of room or of a message. *)
Lemma call_loop_run fuel s :
  MInv w s -> mphases s !! e = Some (Trying k) -> mblocks s ->
  match call_loop fuel (msst s) with
  | Ret (st', _) => exists s', rtc (mstep w) s s' /\ msst s' = st' /\ mphases s' !! e = Some (Leaving k)
  | OutOfFuel => exists s', turns fuel s s'
  | Panic => False
  end.
Proof.
  revert s. induction fuel as [| fuel IH]; intros s Hi Hp Hb; simpl; [exists s; constructor |]. pose proof Hi as [Q HQ].
  destruct (try_step w Hwf s Q e k (clock (msst s)) HQ Hp) as ([st1 blk] & Ha & Hi1). pose proof (m_try w s e k _ _ _ Hp Ha) as Hs1.
  destruct (attempt_tries _ _ _ _ Ha) as (r & -> & Hbl). simpl. rewrite Hbl. destruct blk.
  2: { eexists. split; [by apply rtc_once | split; [done |]]. apply lookup_insert_eq. }
  destruct (Hb _ _ (rtc_once _ _ Hs1) (lookup_insert_eq _ _ _)) as (s2 & rb & Hblk & Hs2 & Hp2). simpl in Hblk. rewrite Hblk. simpl.
  assert (Hs : rtc (mstep w) s s2) by (by eapply rtc_l). destruct rb as [err | u]; [by exists s2 |].
  specialize (IH s2 (rtc_inv w Hwf _ _ Hi Hs) Hp2 (mblocks_rtc _ _ Hb Hs)). destruct (call_loop fuel (msst s2)) as [[st' r'] | |]; [| done |].
  - destruct IH as (s' & Hs' & H'). exists s'. split; [by etrans | done].
  - destruct IH as (s' & Ht). exists s'. by eapply turns_S.
Qed.

(** The state in which the first try is made: the message of a send is new. *)
Definition starts (s : MSys) (st : MQState) : Prop :=
  is_Some (mq_mechs (msst s) !! q_of k) /\
  match k with
  | KSend _ x _ _ => exists mType text, Z.of_nat (length text) <= MAX_MESSAGE_BYTES /\ new_msg (msst s) (Message_New mType text) = (st, x)
  | KRecv _ _ _ maxSize _ _ _ => 0 <= maxSize <= MAX_MESSAGE_BYTES /\ st = msst s
  end.

Lemma first_try s st now :
  MInv w s -> mphases s !! e = Some MIdle -> starts s st ->
  returns (attempt w st k now) (fun '(st', blk) => mstep w s (mkMSys st' (if blk : bool then <[e := Entering k]> (mphases s) else mphases s))).
Proof.
  intros [Q Hi] Hp [Hq Hst]. destruct k as [p x c pid | p c mType maxSize tr ex pid] eqn:Ek.
  - destruct Hst as (mType & text & Hlen & Hn). pose proof (new_msg_step w s Q mType text Hi Hlen) as Hm. rewrite Hn in Hm. destruct Hm as (Hi1 & Hnq & Hu & Hx & Em).
    destruct (first_step w Hwf (mkMSys st (mphases s)) Q e (KSend p x c pid) now Hi1 Hp) as ([st' blk] & Ha & _).
    { split; simpl; [by rewrite Em | eauto]. }
    { by intros y [= <-]. }
    exists (st', blk). split; [exact Ha |]. by eapply (m_send w s e p mType text c pid now st x st' blk).
  - destruct Hst as [Hmx ->]. destruct (first_step w Hwf s Q e (KRecv p c mType maxSize tr ex pid) now Hi Hp) as ([st' blk] & Ha & _); [split; [done | simpl; lia] | done |].
    exists (st', blk). split; [exact Ha |]. by eapply (m_receive w s e p c mType maxSize tr ex pid now st' blk).
Qed.

Lemma call_run fuel s st wait :
  MInv w s -> mphases s !! e = Some MIdle -> starts s st -> mblocks s ->
  match call fuel st wait with
  | Ret (st', _) => exists s', rtc (mstep w) s s' /\ msst s' = st' /\ mphases s' !! e = Some MIdle
  | OutOfFuel => wait = true /\ exists s1 s2, rtc (mstep w) s s1 /\ mphases s1 !! e = Some (Trying k) /\ turns fuel s1 s2
  | Panic => False
  end.
Proof.
  intros Hi Hp Hst Hb. unfold call. destruct (first_try s st (clock st) Hi Hp Hst) as ([st1 blk] & Ha & Hs1).
  destruct (attempt_tries _ _ _ _ Ha) as (r & -> & Hbl). simpl. rewrite Hbl. destruct blk; [| eexists; split; [by apply rtc_once | done]].
  set (s1 := mkMSys st1 (<[e := Entering k]> (mphases s))) in *. assert (Hp1 : mphases s1 !! e = Some (Entering k)) by apply lookup_insert_eq.
  destruct wait; simpl.
  2: { eexists. split; [eapply rtc_l; [exact Hs1 |]; apply rtc_once; by apply (m_nowait w s1 e k) | split; [done |]]. apply lookup_insert_eq. }
  pose proof (mstep_inv w Hwf _ _ Hi Hs1) as [Q1 Hi1]. destruct (register_step w Hwf s1 Q1 e k Hi1 Hp1) as (st2 & Hreg & Hi2). pose proof (m_register w s1 e k st2 Hp1 Hreg) as Hs2.
  set (s2 := mkMSys st2 _) in *. assert (Hr2 : rtc (mstep w) s s2) by (eapply rtc_l; [exact Hs1 | by apply rtc_once]).
  simpl in Hreg. rewrite Hreg. simpl. pose proof (call_loop_run fuel s2 Hi2 (lookup_insert_eq _ _ _) (mblocks_rtc _ _ Hb Hr2)) as Hl. simpl in Hl.
  destruct (call_loop fuel st2) as [[st3 r3] | |]; simpl; [| done |].
  - destruct Hl as (s3 & Hs3 & <- & Hp3). pose proof (rtc_inv w Hwf _ _ Hi2 Hs3) as [Q3 Hi3]. destruct (unregister_step w Hwf s3 Q3 e k Hi3 Hp3) as (st4 & Hun & Hi4).
    rewrite Hun. simpl. eexists. split; [etrans; [exact Hr2 | etrans; [exact Hs3 |]]; apply rtc_once; by apply (m_unregister w s3 e k st4) | split; [done |]]. apply lookup_insert_eq.
  - destruct Hl as (s' & Ht). split; [done |]. exists s2, s'. split_and!; [done | apply lookup_insert_eq | done].
Qed.
End Shape.
End Run.

Section Shapes.
Context (w : World) (e : positive).
Variable block : MQState -> outcome (MQState * Result unit).
Variable clock : MQState -> Z.

Lemma would_block_true {A} (r : Result A) : would_block r = true -> r = Err (SysError EWOULDBLOCK).
Proof. by destruct r as [[[] | | | | | | | | |] |]. Qed.

Lemma Send_loop_shape fuel st p x c pid :
  Send_loop w block clock fuel st p x c pid = call_loop block clock (fun st now => Push w st p x c pid now) fuel st.
Proof.
  revert st. induction fuel as [| fuel IH]; intros st; [done |]. simpl. destruct (Push w st p x c pid (clock st)) as [[st1 r] | |]; [| done | done]. simpl.
  destruct (would_block r) eqn:Hr; [| by destruct r as [[[] | | | | | | | | |] |]]. apply would_block_true in Hr as ->. destruct (block st1) as [[st2 [er | u]] | |]; [done | apply IH | done | done].
Qed.

Lemma Send_shape fuel st p x c wait pid :
  Send w block clock fuel st p x e c wait pid = call e (KSend p x c pid) block clock (fun st now => Push w st p x c pid now) EWOULDBLOCK fuel st wait.
Proof.
  unfold Send, call. destruct (Push w st p x c pid (clock st)) as [[st1 r] | |]; [| done | done]. simpl.
  destruct (would_block r) eqn:Hr; [| by destruct r as [[[] | | | | | | | | |] |]]. apply would_block_true in Hr as ->. destruct wait; [| done]. simpl. destruct (senders_upd _ _ _) as [st2 | |]; [| done | done]. simpl. by rewrite Send_loop_shape.
Qed.

Lemma Receive_loop_shape fuel st p c mType mx tr ex pid :
  Receive_loop w block clock fuel st p c mType mx tr ex pid = call_loop block clock (fun st now => Pop w st p c mType mx tr ex pid now) fuel st.
Proof.
  revert st. induction fuel as [| fuel IH]; intros st; [done |]. simpl. destruct (Pop w st p c mType mx tr ex pid (clock st)) as [[st1 r] | |]; [| done | done]. simpl.
  destruct (would_block r) eqn:Hr; [| by destruct r as [[[] | | | | | | | | |] |]]. apply would_block_true in Hr as ->. destruct (block st1) as [[st2 [er | u]] | |]; [done | apply IH | done | done].
Qed.

Lemma Receive_shape fuel st p c mType mx wait tr ex pid :
  0 <= mx <= MAX_MESSAGE_BYTES ->
  Receive w block clock fuel st p e c mType mx wait tr ex pid =
    call e (KRecv p c mType mx tr ex pid) block clock (fun st now => Pop w st p c mType mx tr ex pid now) ENOMSG fuel st wait.
Proof.
  intros Hmx. unfold Receive, call. destruct (Z.ltb_spec mx 0), (Z.ltb_spec MAX_MESSAGE_BYTES mx); [lia.. |]. cbn [orb].
  destruct (Pop w st p c mType mx tr ex pid (clock st)) as [[st1 r] | |]; [| done | done]. simpl.
  destruct (would_block r) eqn:Hr; [| by destruct r as [[[] | | | | | | | | |] |]]. apply would_block_true in Hr as ->. destruct wait; [| done]. simpl. destruct (receivers_upd _ _ _) as [st2 | |]; [| done | done]. simpl. by rewrite Receive_loop_shape.
Qed.
End Shapes.

(** What a call of thread [e] on a state comes to. *)
Definition runs {A} (w : World) (clock : MQState -> Z) (e : positive) (k : mcall) (fuel : nat) (wait : bool) (s : MSys) (o : outcome (MQState * Result A)) : Prop :=
  match o with
  | Ret (st', _) => exists s', rtc (mstep w) s s' /\ msst s' = st' /\ mphases s' !! e = Some MIdle
  | OutOfFuel => wait = true /\ exists s1 s2, rtc (mstep w) s s1 /\ mphases s1 !! e = Some (Trying k) /\ turns w e k clock fuel s1 s2
  | Panic => False
  end.

(** C8: [Send] and [Receive] are runs of the interleaved system: from a reachable state, with
    other threads taking steps whenever the thread blocks, a call ends in a reachable state
    with the thread registered with no queue, whatever it returns and also when it was
    interrupted; it does not panic.  A call that does not wait always ends.  A call that
    waits is still in its loop after [fuel] turns only if each of these tries found the queue
    full, or without a message it wants. *)
Theorem msg_calls_run w s0 s e block clock fuel :
  wf w -> MInit w s0 -> rtc (mstep w) s0 s -> mphases s !! e = Some MIdle ->
  (forall p x c pid wait mType text st, is_Some (mq_mechs (msst s) !! p) -> Z.of_nat (length text) <= MAX_MESSAGE_BYTES ->
    new_msg (msst s) (Message_New mType text) = (st, x) -> mblocks w e (KSend p x c pid) block s ->
    runs w clock e (KSend p x c pid) fuel wait s (Send w block clock fuel st p x e c wait pid)) /\
  (forall p c mType maxSize wait tr ex pid, is_Some (mq_mechs (msst s) !! p) -> mblocks w e (KRecv p c mType maxSize tr ex pid) block s ->
    runs w clock e (KRecv p c mType maxSize tr ex pid) fuel wait s (Receive w block clock fuel (msst s) p e c mType maxSize wait tr ex pid)).
Proof.
  intros Hwf H0 Hs Hp. pose proof (rtc_inv w Hwf s0 s (MInit_inv w s0 H0) Hs) as Hi. split.
  - intros p x c pid wait mType text st Hq Hlen Hn Hb. rewrite Send_shape. eapply (call_run w Hwf); [done | done | done | | done]. split; [done | by exists mType, text].
  - intros p c mType maxSize wait tr ex pid Hq Hb. destruct (decide (0 <= maxSize <= MAX_MESSAGE_BYTES)) as [Hmx | Hmx].
    + rewrite Receive_shape by done. eapply (call_run w Hwf); [done | done | done | by split | done].
    + unfold Receive. assert (E : (maxSize <? 0) || (MAX_MESSAGE_BYTES <? maxSize) = true) by (apply orb_true_iff; rewrite !Z.ltb_lt; lia).
      rewrite E. exists s. split; [apply rtc_refl | done].
Qed.

(** A thread that is interrupted as soon as it blocks. *)
Lemma interrupt_blocks w e k s : mblocks w e k (fun st => Ret (st, Err ErrInterrupted)) s.
Proof.
  intros s1 lim _ Hp. exists (mkMSys (msst s1) (<[e := Leaving k]> (mphases s1))), (Err ErrInterrupted). split_and!; [done | by eapply rtc_once, m_interrupt | apply lookup_insert_eq].
Qed.

Lemma msg_calls_run_witness : exists s st s',
  rtc (mstep nested) mq_sys0 s /\
  Receive nested (fun st => Ret (st, Err ErrInterrupted)) (fun _ => 0) 1 (msst s) 1 1 (RootCreds 1) 3 100 true false false 7 = Ret (st, Err (SysError ERESTARTSYS)) /\
  rtc (mstep nested) s s' /\ msst s' = st /\ mphases s' !! 1%positive = Some MIdle.
Proof.
  assert (E : exists st p, MQ_FindOrCreate nested (msst mq_sys0) (RootCreds 1) 5 384 false true false 0 = Ret (st, Ok p) /\ is_Some (mq_mechs st !! 1%positive) /\
    exists st', Receive nested (fun st => Ret (st, Err ErrInterrupted)) (fun _ => 0) 1 st 1 1 (RootCreds 1) 3 100 true false false 7 = Ret (st', Err (SysError ERESTARTSYS))).
  { do 2 eexists. split_and!; [vm_compute; reflexivity | by eexists; vm_compute | eexists; vm_compute; reflexivity]. }
  destruct E as (st & p & E & Hq & st' & Hr). set (s := mkMSys st (mphases mq_sys0)).
  assert (Hs : rtc (mstep nested) mq_sys0 s) by (by eapply rtc_once, m_create).
  destruct (msg_calls_run nested mq_sys0 s 1 (fun st => Ret (st, Err ErrInterrupted)) (fun _ => 0) 1 nested_wf mq_init0 Hs eq_refl) as [_ H].
  specialize (H 1%positive (RootCreds 1) 3 100 true false false 7 Hq (interrupt_blocks _ _ _ _)). simpl in H. unfold runs in H. rewrite Hr in H.
  destruct H as (s' & H1 & H2 & H3). exists s, st', s'. by split_and!.
Defined.
