(* ===== verification/Futex.v ===== *)
(** The futex manager: src/qlib/kernel/kernel/futex.rs.

    A manager has two buckets, one of its own and one it shares with the managers forked
    from it; buckets are shared objects of [FState].  A bucket has the queues by key and a
    spin lock per hash.  A queue is only reached through its bucket with the lock of its hash
    held, so it is kept in the map by value.  Taking a lock that is held never returns: the
    operations are run one at a time, and what other threads may do between two of them is
    the subject of [FutexSteps.v].

    User memory is the class [Target], the trait of the source.  Its operations change the
    memory even when they only load: other threads of the process write to it at any time. *)
From S2P Require Import Prelude WaitList.

#[local] Open Scope Z_scope.
#[local] Open Scope u64_scope.

Abbreviation BUCKET_COUNT := 1024 (only parsing).

Definition HashCode (k : Key) : Z :=
  let addr := Addr k in
  let h1 := (Z.shiftr addr 2 +w Z.shiftr addr 12) +w Z.shiftr addr 22 in
  let h2 := Z.shiftr addr 32 +w Z.shiftr addr 42 in
  (h1 +w h2) mod BUCKET_COUNT.

(** * User memory *)

Class Target (M : Type) : Type := {
  SwapU32 : M -> Z -> Z -> M * Result Z;
  CompareAndSwapU32 : M -> Z -> Z -> Z -> M * Result Z;
  LoadU32 : M -> Z -> M * Result Z;
  GetSharedKey : M -> Z -> Result Key }.

Abbreviation FUTEX_OP_SET := 0 (only parsing).
Abbreviation FUTEX_OP_ADD := 1 (only parsing).
Abbreviation FUTEX_OP_OR := 2 (only parsing).
Abbreviation FUTEX_OP_ANDN := 3 (only parsing).
Abbreviation FUTEX_OP_XOR := 4 (only parsing).
Abbreviation FUTEX_OP_OPARG_SHIFT := 8 (only parsing).
Abbreviation FUTEX_TID_MASK := 1073741823 (only parsing).
Abbreviation FUTEX_WAITERS := 2147483648 (only parsing).
Abbreviation FUTEX_OWNER_DIED := 1073741824 (only parsing).
Abbreviation FUTEX_BITSET_MATCH_ANY := 4294967295 (only parsing).

(** * Buckets and managers *)

Record Bucket : Type := mkBucket { queues : gmap Key WaitList; locks : gset Z }.

Definition Bucket_default : Bucket := mkBucket ∅ ∅.

Record FutexMgr : Set := mkMgr { private : positive; shared : positive }.

Record FState : Type := mkFState { waits : Waits; buckets : gmap positive Bucket }.

Definition get_bucket (st : FState) (b : positive) : outcome Bucket :=
  match buckets st !! b with Some bk => Ret bk | None => Panic end.

Definition put_bucket (st : FState) (b : positive) (bk : Bucket) : FState :=
  mkFState (waits st) (<[b := bk]> (buckets st)).

Definition with_waits (st : FState) (h : Waits) : FState := mkFState h (buckets st).

Definition Bucket_Lock (st : FState) (b : positive) (k : Key) : outcome FState :=
  bk ← get_bucket st b;
  if bool_decide (HashCode k ∈ locks bk) then OutOfFuel
  else Ret (put_bucket st b (mkBucket (queues bk) ({[ HashCode k ]} ∪ locks bk))).

Definition Bucket_Unlock (st : FState) (b : positive) (k : Key) : outcome FState :=
  bk ← get_bucket st b; Ret (put_bucket st b (mkBucket (queues bk) (locks bk ∖ {[ HashCode k ]}))).

Definition Bucket_GetCreateQueues (st : FState) (b : positive) (k : Key) : outcome (FState * WaitList) :=
  bk ← get_bucket st b;
  match queues bk !! k with
  | Some q => Ret (st, q)
  | None => Ret (put_bucket st b (mkBucket (<[k := WaitList_default]> (queues bk)) (locks bk)), WaitList_default)
  end.

Definition Bucket_RemoveQueue (st : FState) (b : positive) (k : Key) : outcome FState :=
  bk ← get_bucket st b; Ret (put_bucket st b (mkBucket (delete k (queues bk)) (locks bk))).

Definition Fork (st : FState) (mgr : FutexMgr) : FState * FutexMgr :=
  let b := fresh (dom (buckets st)) in
  (put_bucket st b Bucket_default, mkMgr b (shared mgr)).

Definition bucket_of (mgr : FutexMgr) (k : Key) : positive :=
  match Kind k with KindSharedMappable => shared mgr | _ => private mgr end.

Definition lockQueue (st : FState) (mgr : FutexMgr) (k : Key) : outcome (FState * option WaitList) :=
  st ← Bucket_Lock st (bucket_of mgr k) k; bk ← get_bucket st (bucket_of mgr k); Ret (st, queues bk !! k).

Definition lockQueueWithCreate (st : FState) (mgr : FutexMgr) (k : Key) : outcome (FState * WaitList) :=
  st ← Bucket_Lock st (bucket_of mgr k) k; Bucket_GetCreateQueues st (bucket_of mgr k) k.

Definition removeQueue (st : FState) (mgr : FutexMgr) (k : Key) : outcome FState :=
  Bucket_RemoveQueue st (bucket_of mgr k) k.

Definition unlock (st : FState) (mgr : FutexMgr) (k : Key) : outcome FState := Bucket_Unlock st (bucket_of mgr k) k.

(** [*q.write() = q], for the queue of [k]. *)
Definition put_queue (st : FState) (mgr : FutexMgr) (k : Key) (q : WaitList) : outcome FState :=
  bk ← get_bucket st (bucket_of mgr k);
  Ret (put_bucket st (bucket_of mgr k) (mkBucket (<[k := q]> (queues bk)) (locks bk))).

Definition lockQueues (st : FState) (mgr : FutexMgr) (k1 k2 : Key) : outcome (FState * WaitList * WaitList) :=
  if bool_decide (k1 = k2) then Panic
  else
    let i1 := HashCode k1 in
    let i2 := HashCode k2 in
    st ← if i1 <? i2 then (st ← Bucket_Lock st (bucket_of mgr k1) k1; Bucket_Lock st (bucket_of mgr k2) k2)
         else if i2 <? i1 then (st ← Bucket_Lock st (bucket_of mgr k2) k2; Bucket_Lock st (bucket_of mgr k1) k1)
         else Bucket_Lock st (bucket_of mgr k1) k1;
    '(st, q1) ← Bucket_GetCreateQueues st (bucket_of mgr k1) k1;
    '(st, q2) ← Bucket_GetCreateQueues st (bucket_of mgr k2) k2;
    Ret (st, q1, q2).

(** [if q.read().Empty() { self.removeQueue(&k) }]. *)
Definition remove_if_empty (st : FState) (mgr : FutexMgr) (k : Key) (q : WaitList) : outcome FState :=
  if Empty q then removeQueue st mgr k else Ret st.

(** * Operations *)

Section Ops.
Context {M : Type} `{!Target M}.

Definition Check (m : M) (addr val : Z) : M * Result unit :=
  let '(m, r) := LoadU32 m addr in
  match r with
  | inl e => (m, Err e)
  | inr cur => if negb (cur =? val) then (m, Err (SysError EAGAIN)) else (m, Ok tt)
  end.

(** The value that [FUTEX_OP_ADD] and the other operations store. *)
Definition AtomicOp_new (opType oldVal opArg : Z) : option Z :=
  if opType =? FUTEX_OP_ADD then Some ((oldVal + opArg) mod 2 ^ 32)
  else if opType =? FUTEX_OP_OR then Some (Z.lor oldVal opArg)
  else if opType =? FUTEX_OP_ANDN then Some (Z.ldiff oldVal opArg)
  else if opType =? FUTEX_OP_XOR then Some (Z.lxor oldVal opArg)
  else None.

Fixpoint AtomicOp_loop (fuel : nat) (m : M) (addr opType opArg : Z) : outcome (M * Result Z) :=
  match fuel with
  | O => OutOfFuel
  | S fuel =>
    let '(m, r) := LoadU32 m addr in
    match r with
    | inl e => Ret (m, Err e)
    | inr oldVal =>
      match AtomicOp_new opType oldVal opArg with
      | None => Ret (m, Err (SysError ENOSYS))
      | Some newVal =>
        let '(m, r) := CompareAndSwapU32 m addr oldVal newVal in
        match r with
        | inl e => Ret (m, Err e)
        | inr prev => if prev =? oldVal then Ret (m, Ok oldVal) else AtomicOp_loop fuel m addr opType opArg
        end
      end
    end
  end.

(** The comparison of [FUTEX_OP_CMP_EQ] to [FUTEX_OP_CMP_GE], numbered from 0. *)
Definition AtomicOp_cmp (cmp oldVal cmpArg : Z) : Result bool :=
  match cmp with
  | 0 => Ok (oldVal =? cmpArg)
  | 1 => Ok (negb (oldVal =? cmpArg))
  | 2 => Ok (oldVal <? cmpArg)
  | 3 => Ok (oldVal <=? cmpArg)
  | 4 => Ok (oldVal <? cmpArg)
  | 5 => Ok (cmpArg <=? oldVal)
  | _ => Err (SysError ENOSYS)
  end.

Definition AtomicOp (fuel : nat) (m : M) (addr opIn : Z) : outcome (M * Result bool) :=
  let opType := Z.land (Z.shiftr opIn 28) 15 in
  let cmp := Z.land (Z.shiftr opIn 24) 15 in
  let opArg := Z.land (Z.shiftr opIn 12) 4095 in
  let cmpArg := Z.land opIn 4095 in
  let '(opType, opArg) :=
    if negb (Z.land opType FUTEX_OP_OPARG_SHIFT =? 0)
    then (Z.ldiff opType FUTEX_OP_OPARG_SHIFT, Z.shiftl 1 (opArg mod 32)) else (opType, opArg) in
  '(m, r) ← if opType =? FUTEX_OP_SET then Ret (SwapU32 m addr opArg) else AtomicOp_loop fuel m addr opType opArg;
  Ret (m, match r with inl e => Err e | inr oldVal => AtomicOp_cmp cmp oldVal cmpArg end).

Definition Getkey (m : M) (addr : Z) (private : bool) : Result Key :=
  if negb (Z.land addr 3 =? 0) then Err (SysError EINVAL)
  else if private then Ok (mkKey KindPrivate addr)
  else GetSharedKey m addr.

Definition Wake (st : FState) (mgr : FutexMgr) (m : M) (addr : Z) (private : bool) (bitmask n : Z)
  : outcome (FState * Result Z) :=
  match Getkey m addr private with
  | inl e => Ret (st, Err e)
  | inr k =>
    '(st, temp) ← lockQueue st mgr k;
    '(st, res) ← match temp with
                 | None => Ret (st, Ok 0)
                 | Some q =>
                   '(h, q, res) ← WakeLocked (waits st) q bitmask n;
                   st ← put_queue (with_waits st h) mgr k q;
                   st ← remove_if_empty st mgr k q;
                   Ret (st, Ok res)
                 end;
    st ← unlock st mgr k;
    Ret (st, res)
  end.

Definition doRequeue (st : FState) (mgr : FutexMgr) (m : M) (addr naddr : Z) (private checkval : bool) (val nwake nreq : Z)
  : outcome (FState * M * Result Z) :=
  match Getkey m addr private with
  | inl e => Ret (st, m, Err e)
  | inr k1 =>
    match Getkey m naddr private with
    | inl e => Ret (st, m, Err e)
    | inr k2 =>
      '(st, q1, q2) ← lockQueues st mgr k1 k2;
      let '(m, c) := if checkval then Check m addr val else (m, Ok tt) in
      match c with
      | inl e => st ← unlock st mgr k1; st ← unlock st mgr k2; Ret (st, m, Err e)
      | inr _ =>
        '(h, q1, done) ← WakeLocked (waits st) q1 U64_MAX nwake;
        '(h, q1, q2, _) ← RequeueLocked h q1 q2 k2 nreq;
        st ← put_queue (with_waits st h) mgr k1 q1;
        st ← put_queue st mgr k2 q2;
        st ← remove_if_empty st mgr k1 q1;
        st ← remove_if_empty st mgr k2 q2;
        st ← unlock st mgr k1;
        st ← unlock st mgr k2;
        Ret (st, m, Ok done)
      end
    end
  end.

Definition Requeue (st : FState) (mgr : FutexMgr) (m : M) (addr naddr : Z) (private : bool) (nwake nreq : Z) :=
  doRequeue st mgr m addr naddr private false 0 nwake nreq.

Definition RequeueCmp (st : FState) (mgr : FutexMgr) (m : M) (addr naddr : Z) (private : bool) (val nwake nreq : Z) :=
  doRequeue st mgr m addr naddr private true val nwake nreq.

Definition WakeOp (fuel : nat) (st : FState) (mgr : FutexMgr) (m : M) (addr1 addr2 : Z) (private : bool) (nwake1 nwake2 op : Z)
  : outcome (FState * M * Result Z) :=
  match Getkey m addr1 private with
  | inl e => Ret (st, m, Err e)
  | inr k1 =>
    match Getkey m addr2 private with
    | inl e => Ret (st, m, Err e)
    | inr k2 =>
      '(st, q1, q2) ← lockQueues st mgr k1 k2;
      '(m, c) ← AtomicOp fuel m addr2 op;
      match c with
      | inl e => st ← unlock st mgr k1; st ← unlock st mgr k2; Ret (st, m, Err e)
      | inr cond =>
        '(h, q1, done) ← WakeLocked (waits st) q1 U64_MAX nwake1;
        st ← put_queue (with_waits st h) mgr k1 q1;
        '(st, done) ← if cond : bool then
                        ('(h, q2, d) ← WakeLocked (waits st) q2 U64_MAX nwake2;
                         st ← put_queue (with_waits st h) mgr k2 q2;
                         Ret (st, to_i32 (done + d)))
                      else Ret (st, done);
        st ← unlock st mgr k1;
        st ← unlock st mgr k2;
        Ret (st, m, Ok done)
      end
    end
  end.

Definition WaitPrepare (st : FState) (mgr : FutexMgr) (m : M) (w : positive) (addr : Z) (private : bool) (val bitmask : Z)
  : outcome (FState * M * Result unit) :=
  match Getkey m addr private with
  | inl e => Ret (st, m, Err e)
  | inr k =>
    h ← WaitEntry_Clear (waits st) w;
    h ← SetMask h w bitmask;
    h ← SetKey h w k;
    '(st, q) ← lockQueueWithCreate (with_waits st h) mgr k;
    let '(m, c) := Check m addr val in
    match c with
    | inl e => st ← unlock st mgr k; Ret (st, m, Err e)
    | inr _ =>
      '(h, q) ← PushBack (waits st) q w;
      st ← put_queue (with_waits st h) mgr k q;
      st ← unlock st mgr k;
      Ret (st, m, Ok tt)
    end
  end.

(** The key of an entry, [w.lock().context.ThreadContext().key]. *)
Definition get_key (st : FState) (w : positive) : outcome Key :=
  s ← get_entry (waits st) w; c ← thread_context s; Ret (key c).

(** The part of a turn of [WaitComplete] after the key was read; the result says whether the
    loop is left. *)
Definition WaitComplete_locked (st : FState) (mgr : FutexMgr) (w : positive) (k : Key) : outcome (FState * bool) :=
  '(st, q) ← lockQueueWithCreate st mgr k;
  k' ← get_key st w;
  if negb (bool_decide (k = k')) then (st ← unlock st mgr k; Ret (st, false))
  else
    '(h, q) ← WaitList_Remove (waits st) q w;
    st ← put_queue (with_waits st h) mgr k q;
    st ← remove_if_empty st mgr k q;
    h ← SetKey (waits st) w Key_default;
    st ← unlock (with_waits st h) mgr k;
    Ret (st, true).

Fixpoint WaitComplete (fuel : nat) (st : FState) (mgr : FutexMgr) (w : positive) : outcome FState :=
  match fuel with
  | O => OutOfFuel
  | S fuel =>
    k ← get_key st w;
    if bool_decide (k = Key_default) then Ret st
    else '(st, stop) ← WaitComplete_locked st mgr w k; if stop : bool then Ret st else WaitComplete fuel st mgr w
  end.

(** [lockPILocked] pushes [w] on the queue [q]; the result has the queue if it did. *)
Fixpoint lockPILocked (fuel : nat) (h : Waits) (m : M) (w : positive) (addr tid : Z) (q : WaitList) (tryit : bool)
  : outcome (Waits * WaitList * M * Result bool) :=
  match fuel with
  | O => OutOfFuel
  | S fuel =>
    let '(m, r) := LoadU32 m addr in
    match r with
    | inl e => Ret (h, q, m, Err e)
    | inr cur =>
      if Z.land cur FUTEX_TID_MASK =? tid then Ret (h, q, m, Err (SysError EDEADLK))
      else if Z.land cur FUTEX_TID_MASK =? 0 then
        let val := Z.lor tid (Z.land cur FUTEX_OWNER_DIED) in
        let '(m, r) := CompareAndSwapU32 m addr cur val in
        match r with
        | inl e => Ret (h, q, m, Err e)
        | inr prev =>
          if negb (prev =? cur) then lockPILocked fuel h m w addr tid q tryit else Ret (h, q, m, Ok true)
        end
      else if tryit then Ret (h, q, m, Ok false)
      else if Z.land cur FUTEX_WAITERS =? 0 then
        let '(m, r) := CompareAndSwapU32 m addr cur (Z.lor cur FUTEX_WAITERS) in
        match r with
        | inl e => Ret (h, q, m, Err e)
        | inr prev =>
          if negb (prev =? cur) then lockPILocked fuel h m w addr tid q tryit
          else '(h, q) ← PushBack h q w; Ret (h, q, m, Ok false)
        end
      else '(h, q) ← PushBack h q w; Ret (h, q, m, Ok false)
    end
  end.

Definition LockPI (fuel : nat) (st : FState) (mgr : FutexMgr) (m : M) (w : positive) (addr tid : Z) (private retry : bool)
  : outcome (FState * M * Result bool) :=
  match Getkey m addr private with
  | inl e => Ret (st, m, Err e)
  | inr k =>
    h ← WaitEntry_Clear (waits st) w;
    h ← SetKey h w k;
    h ← SetTid h w tid;
    h ← SetMask h w U64_MAX;
    '(st, q) ← lockQueueWithCreate (with_waits st h) mgr k;
    '(h, q, m, r) ← lockPILocked fuel (waits st) m w addr tid q retry;
    st ← put_queue (with_waits st h) mgr k q;
    st ← unlock st mgr k;
    Ret (st, m, r)
  end.

Definition unlockPILocked (h : Waits) (m : M) (addr tid0 : Z) (q : WaitList) : outcome (Waits * WaitList * M * Result unit) :=
  let '(m, r) := LoadU32 m addr in
  match r with
  | inl e => Ret (h, q, m, Err e)
  | inr cur =>
    if negb (Z.land cur FUTEX_TID_MASK =? tid0) then Ret (h, q, m, Err (SysError EPERM))
    else
      match head q with
      | None =>
        let '(m, r) := CompareAndSwapU32 m addr cur 0 in
        match r with
        | inl e => Ret (h, q, m, Err e)
        | inr prev => if negb (prev =? cur) then Ret (h, q, m, Err (SysError EAGAIN)) else Ret (h, q, m, Ok tt)
        end
      | Some nxt =>
        s ← get_entry h nxt;
        c ← thread_context s;
        let val := if bool_decide (next s = None) then tid c else Z.lor (tid c) FUTEX_WAITERS in
        let '(m, r) := CompareAndSwapU32 m addr cur val in
        match r with
        | inl e => Ret (h, q, m, Err e)
        | inr prev =>
          if negb (prev =? cur) then Ret (h, q, m, Err (SysError EINVAL))
          else '(h, q, _) ← WakeWaiterLocked h q nxt U64_MAX; Ret (h, q, m, Ok tt)
        end
      end
  end.

Definition UnlockPI (st : FState) (mgr : FutexMgr) (m : M) (addr tid : Z) (private : bool) : outcome (FState * M * Result unit) :=
  match Getkey m addr private with
  | inl e => Ret (st, m, Err e)
  | inr k =>
    '(st, q) ← lockQueueWithCreate st mgr k;
    '(h, q, m, r) ← unlockPILocked (waits st) m addr tid q;
    st ← put_queue (with_waits st h) mgr k q;
    st ← unlock st mgr k;
    Ret (st, m, r)
  end.
End Ops.
