(* ===== verification/FutexThm.v ===== *)
(** The futex manager's queues as lists.

    [futex_inv st Q]: the queue of key [k] in bucket [b] stands for the list [Q b k], no
    entry is in two queues, an entry in no queue has no links, and all entries are threads'.
    [same] relates states that differ in locks and empty queues only; [futex_inv] respects
    it.  [inv_change] is the one place where the invariant is re-established after queues
    changed. *)
From S2P Require Import Prelude WaitList WaitListThm WaitListOps Futex.

#[local] Open Scope Z_scope.

Definition queue_at (st : FState) (b : positive) (k : Key) : WaitList :=
  match buckets st !! b with Some bk => default WaitList_default (queues bk !! k) | None => WaitList_default end.

Definition locks_of (st : FState) (b : positive) : gset Z :=
  match buckets st !! b with Some bk => locks bk | None => ∅ end.

Record futex_inv (st : FState) (Q : positive -> Key -> list positive) : Prop := {
  fi_rep : forall b k, wl_rep (waits st) (queue_at st b k) (Q b k);
  fi_disj : forall b k b' k' e, e ∈ Q b k -> e ∈ Q b' k' -> b = b' /\ k = k';
  fi_free : forall e, is_Some (entries (waits st) !! e) -> (forall b k, e ∉ Q b k) -> unlinked (waits st) e;
  fi_threads : forall e, is_Some (entries (waits st) !! e) -> is_Some (ctx (waits st) e);
  fi_ok : waits_ok (waits st) }.

Definition mgr_ok (st : FState) (mgr : FutexMgr) : Prop :=
  is_Some (buckets st !! private mgr) /\ is_Some (buckets st !! shared mgr).

(** [st'] has the entries and queues of [st]. *)
Record same (st st' : FState) : Prop := {
  sm_waits : waits st' = waits st;
  sm_queues : forall b k, queue_at st' b k = queue_at st b k;
  sm_dom : forall b, is_Some (buckets st' !! b) <-> is_Some (buckets st !! b) }.

#[global] Instance same_equiv : Equivalence same.
Proof.
  split.
  - by intros st.
  - intros st st' [W Q D]. split; [done | done | intros b; symmetry; apply D].
  - intros s1 s2 s3 [W1 Q1 D1] [W2 Q2 D2].
    split; [congruence | intros; rewrite Q2; apply Q1 | intros b; rewrite D2; apply D1].
Qed.

#[global] Instance futex_inv_same : Proper (same ==> (=) ==> iff) futex_inv.
Proof.
  assert (H : forall st st' Q, same st st' -> futex_inv st Q -> futex_inv st' Q).
  { intros st st' Q [W HQ D] [R Dj F T O]. split; rewrite ?W; auto. intros b k. rewrite HQ. apply R. }
  intros st st' Hs Q Q' ->. split; apply H; [done | by symmetry].
Qed.

#[global] Instance mgr_ok_same : Proper (same ==> (=) ==> iff) mgr_ok.
Proof. intros st st' Hs mgr mgr' ->. unfold mgr_ok. by rewrite !(sm_dom _ _ Hs). Qed.

Lemma mgr_ok_bucket st mgr k : mgr_ok st mgr -> is_Some (buckets st !! bucket_of mgr k).
Proof. intros [Hp Hs]. unfold bucket_of. by destruct (Kind k). Qed.

(** A change of lock state: [b] gains or loses the lock [i]. *)
Definition add_lock (b : positive) (i : Z) (f : positive -> gset Z) : positive -> gset Z :=
  fun b' => if decide (b' = b) then {[ i ]} ∪ f b' else f b'.
Definition del_lock (b : positive) (i : Z) (f : positive -> gset Z) : positive -> gset Z :=
  fun b' => if decide (b' = b) then f b' ∖ {[ i ]} else f b'.

Lemma locks_of_put st b bk b' : locks_of (put_bucket st b bk) b' = if decide (b' = b) then locks bk else locks_of st b'.
Proof.
  unfold locks_of. simpl. destruct (decide (b' = b)) as [-> | N]; [by rewrite lookup_insert_eq | by rewrite lookup_insert_ne].
Qed.

Lemma queue_at_put st b bk b' k :
  queue_at (put_bucket st b bk) b' k = if decide (b' = b) then default WaitList_default (queues bk !! k) else queue_at st b' k.
Proof.
  unfold queue_at. simpl. destruct (decide (b' = b)) as [-> | N]; [by rewrite lookup_insert_eq | by rewrite lookup_insert_ne].
Qed.

Lemma buckets_put st b bk b' :
  is_Some (buckets st !! b) -> is_Some (buckets (put_bucket st b bk) !! b') <-> is_Some (buckets st !! b').
Proof. intros Hb. simpl. rewrite lookup_insert_is_Some. destruct (decide (b' = b)) as [-> |]; naive_solver. Qed.

Lemma same_put st b bk bk' :
  buckets st !! b = Some bk ->
  (forall k, default WaitList_default (queues bk' !! k) = default WaitList_default (queues bk !! k)) ->
  same st (put_bucket st b bk').
Proof.
  intros Hb Hq. split; [done | | intros b'; apply buckets_put; eauto].
  intros b' k. rewrite queue_at_put. destruct (decide (b' = b)) as [-> |]; [| done]. unfold queue_at. by rewrite Hb, Hq.
Qed.

Lemma get_bucket_ok st b : is_Some (buckets st !! b) -> exists bk, get_bucket st b = Ret bk /\ buckets st !! b = Some bk.
Proof. intros [bk Hb]. exists bk. unfold get_bucket. by rewrite Hb. Qed.

Lemma Lock_ok st b k :
  is_Some (buckets st !! b) -> HashCode k ∉ locks_of st b ->
  returns (Bucket_Lock st b k) (fun st' => same st st' /\ forall b', locks_of st' b' = add_lock b (HashCode k) (locks_of st) b').
Proof.
  intros (bk & Eb & Hb)%get_bucket_ok Hl. unfold Bucket_Lock. rewrite Eb, bind_ret.
  unfold locks_of in Hl. rewrite Hb in Hl. rewrite bool_decide_eq_false_2 by done. apply returns_ret.
  split; [by eapply same_put |]. intros b'. rewrite locks_of_put. unfold add_lock, locks_of. simpl.
  destruct (decide (b' = b)) as [-> |]; [by rewrite Hb | done].
Qed.

Lemma Unlock_ok st b k :
  is_Some (buckets st !! b) ->
  returns (Bucket_Unlock st b k) (fun st' => same st st' /\ forall b', locks_of st' b' = del_lock b (HashCode k) (locks_of st) b').
Proof.
  intros (bk & Eb & Hb)%get_bucket_ok. unfold Bucket_Unlock. rewrite Eb, bind_ret. apply returns_ret.
  split; [by eapply same_put |]. intros b'. rewrite locks_of_put. unfold del_lock, locks_of. simpl.
  destruct (decide (b' = b)) as [-> |]; [by rewrite Hb | done].
Qed.

Lemma GetCreate_ok st b k :
  is_Some (buckets st !! b) ->
  returns (Bucket_GetCreateQueues st b k) (fun '(st', q) => same st st' /\ q = queue_at st b k /\ forall b', locks_of st' b' = locks_of st b').
Proof.
  intros (bk & Eb & Hb)%get_bucket_ok. unfold Bucket_GetCreateQueues. rewrite Eb, bind_ret.
  assert (Eq : queue_at st b k = default WaitList_default (queues bk !! k)) by (unfold queue_at; by rewrite Hb).
  rewrite Eq. destruct (queues bk !! k) as [q |] eqn:Ek; apply returns_ret; simpl; [done |]. split_and!; [| done |].
  - apply (same_put _ _ bk); [done |]. intros k'. simpl. destruct (decide (k' = k)) as [-> | N].
    + by rewrite lookup_insert_eq, Ek.
    + by rewrite lookup_insert_ne.
  - intros b'. rewrite locks_of_put. unfold locks_of. destruct (decide (b' = b)) as [-> |]; [by rewrite Hb | done].
Qed.

(** Writing a queue back. *)
Lemma put_queue_ok st mgr k q :
  mgr_ok st mgr ->
  returns (put_queue st mgr k q) (fun st' => waits st' = waits st /\
    (forall b' k', queue_at st' b' k' = if decide (b' = bucket_of mgr k /\ k' = k) then q else queue_at st b' k') /\
    (forall b', locks_of st' b' = locks_of st b') /\ (forall b', is_Some (buckets st' !! b') <-> is_Some (buckets st !! b'))).
Proof.
  intros Hm. destruct (get_bucket_ok _ _ (mgr_ok_bucket st mgr k Hm)) as (bk & Eb & Hb). unfold put_queue. rewrite Eb, bind_ret.
  apply returns_ret. split_and!; [done | | | intros b'; apply buckets_put; eauto].
  - intros b' k'. rewrite queue_at_put. simpl. destruct (decide (b' = bucket_of mgr k)) as [-> | N].
    + destruct (decide (k' = k)) as [-> | N'].
      * rewrite lookup_insert_eq. by rewrite decide_True.
      * rewrite lookup_insert_ne by done. rewrite decide_False by naive_solver. unfold queue_at. by rewrite Hb.
    + rewrite decide_False by naive_solver. done.
  - intros b'. rewrite locks_of_put. unfold locks_of. destruct (decide (b' = bucket_of mgr k)) as [-> |]; [by rewrite Hb | done].
Qed.

Lemma wl_rep_nil h q l : wl_rep h q l -> Empty q = bool_decide (l = []).
Proof. intros Hr. unfold Empty. rewrite (rep_head _ _ _ Hr). apply bool_decide_ext. by destruct l. Qed.

Lemma wl_rep_default h q : wl_rep h q [] -> q = WaitList_default.
Proof. destruct q. intros [Hh Ht _ _]. simpl in Hh, Ht. by subst. Qed.

(** Removing an empty queue from the map changes nothing that is seen. *)
Lemma remove_if_empty_ok st mgr k q h l :
  mgr_ok st mgr -> q = queue_at st (bucket_of mgr k) k -> wl_rep h q l ->
  returns (remove_if_empty st mgr k q) (fun st' => same st st' /\ forall b', locks_of st' b' = locks_of st b').
Proof.
  intros Hm Eq Hr. unfold remove_if_empty. rewrite (wl_rep_nil _ _ _ Hr).
  destruct (bool_decide (l = [])) eqn:El; [| by apply returns_ret].
  apply bool_decide_eq_true in El as ->. apply wl_rep_default in Hr.
  destruct (get_bucket_ok _ _ (mgr_ok_bucket st mgr k Hm)) as (bk & Eb & Hb).
  unfold removeQueue, Bucket_RemoveQueue. rewrite Eb, bind_ret. apply returns_ret. split.
  - apply (same_put _ _ bk); [done |]. intros k'. simpl. destruct (decide (k' = k)) as [-> | N].
    + rewrite lookup_delete_eq. simpl. unfold queue_at in Eq. rewrite Hb in Eq. congruence.
    + by rewrite lookup_delete_ne.
  - intros b'. rewrite locks_of_put. unfold locks_of. destruct (decide (b' = bucket_of mgr k)) as [-> |]; [by rewrite Hb | done].
Qed.

(** ** The invariant after a change of some queues

    The queues for which [C] holds change, and only entries of [X] are touched. *)
Lemma inv_change st st' Q Q' (C : positive -> Key -> Prop) X K kk L :
  futex_inv st Q -> effect X K kk L (waits st) (waits st') ->
  (forall b k, C b k \/ (queue_at st' b k = queue_at st b k /\ Q' b k = Q b k)) ->
  (forall b k, C b k -> wl_rep (waits st') (queue_at st' b k) (Q' b k) /\ Q b k ⊆ X /\ Q' b k ⊆ X) ->
  (forall e, e ∈ X -> (exists b k, C b k /\ e ∈ Q b k) \/ forall b k, e ∉ Q b k) ->
  (forall b k b' k' e, C b k -> C b' k' -> e ∈ Q' b k -> e ∈ Q' b' k' -> b = b' /\ k = k') ->
  (forall e, e ∈ X -> (forall b k, C b k -> e ∉ Q' b k) -> unlinked (waits st') e) ->
  futex_inv st' Q'.
Proof.
  intros [R Dj F T O] Ef HC Hrep HX Hdj Hun.
  split.
  - intros b k. destruct (HC b k) as [Hc | [Eq EQ]]; [by apply Hrep |]. rewrite Eq, EQ.
    destruct (decide (Exists (fun e => e ∈ X) (Q b k))) as [Hx | Hx].
    + apply Exists_exists in Hx as (e & He & Hx). destruct (HX e Hx) as [(b' & k' & Hc & He') | Hf]; [| by destruct (Hf b k)].
      destruct (Dj _ _ _ _ _ He He') as [<- <-]. rewrite <- Eq, <- EQ. by apply Hrep.
    + eapply effect_frame_rep; [exact Ef | apply R |]. intros e He Hx'. apply Hx, Exists_exists. eauto.
  - intros b k b' k' e He He'.
    assert (Hc : forall b0 k0, e ∈ Q' b0 k0 -> C b0 k0 \/ (e ∈ Q b0 k0)) by (intros b0 k0 H; destruct (HC b0 k0) as [|[_ <-]]; auto).
    assert (Hmix : forall b0 k0 b1 k1, C b0 k0 -> e ∈ Q' b0 k0 -> e ∈ Q b1 k1 -> C b1 k1).
    { intros b0 k0 b1 k1 H0 H0' H1. destruct (HX e) as [(b2 & k2 & H2 & H2') | Hf]; [by apply (Hrep b0 k0) | | by destruct (Hf b1 k1)].
      by destruct (Dj _ _ _ _ _ H1 H2') as [-> ->]. }
    destruct (Hc _ _ He) as [C1 | H1], (Hc _ _ He') as [C2 | H2]; [by eapply Hdj | | | by eapply Dj];
      (eapply Hdj; [| | exact He | exact He']); try done; by eapply Hmix.
  - intros e He Hn. destruct (decide (e ∈ X)) as [Hx | Hx].
    + apply Hun; [done |]. auto.
    + eapply unlinked_frame; [exact Ef | done |]. apply F; [by apply (effect_is_Some _ _ _ _ _ _ _ Ef) |].
      intros b k HeQ. destruct (HC b k) as [Hc | [_ EQ]]; [destruct (Hrep b k Hc) as (_ & Hs & _); by apply Hx, Hs |]. apply (Hn b k). by rewrite EQ.
  - intros e He%(effect_is_Some _ _ _ _ _ _ _ Ef). destruct (T e He) as [c Hc]. eexists. by eapply effect_ctx.
  - by eapply effect_ok.
Qed.

(** The lists with the one of [b] and [k] replaced. *)
Definition updQ (Q : positive -> Key -> list positive) (b : positive) (k : Key) (l : list positive) : positive -> Key -> list positive :=
  fun b' k' => if decide (b' = b /\ k' = k) then l else Q b' k'.

Lemma updQ_eq Q b k l : updQ Q b k l b k = l.
Proof. unfold updQ. by rewrite decide_True. Qed.

Lemma updQ_ne Q b k l b' k' : ~ (b' = b /\ k' = k) -> updQ Q b k l b' k' = Q b' k'.
Proof. intros N. unfold updQ. by rewrite decide_False. Qed.

Lemma inv_put st st' Q b k l' X K kk L :
  futex_inv st Q -> effect X K kk L (waits st) (waits st') ->
  (forall b' k', ~ (b' = b /\ k' = k) -> queue_at st' b' k' = queue_at st b' k') ->
  wl_rep (waits st') (queue_at st' b k) l' -> Q b k ⊆ X -> l' ⊆ X ->
  (forall e, e ∈ X -> e ∈ Q b k \/ forall b k, e ∉ Q b k) ->
  (forall e, e ∈ X -> e ∉ l' -> unlinked (waits st') e) ->
  futex_inv st' (updQ Q b k l').
Proof.
  intros Hi Ef Hq Hr HX1 HX2 HX Hu.
  apply (inv_change st st' Q _ (fun b' k' => b' = b /\ k' = k) X K kk L Hi Ef).
  - intros b' k'. destruct (decide (b' = b /\ k' = k)) as [D | D]; [by left | right]. by rewrite updQ_ne, Hq.
  - intros b' k' [-> ->]. by rewrite updQ_eq.
  - intros e He. destruct (HX e He); [left | by right]. by exists b, k.
  - by intros b1 k1 b2 k2 e [-> ->] [-> ->].
  - intros e He Hn. apply Hu; [done |]. specialize (Hn b k ltac:(done)). by rewrite updQ_eq in Hn.
Qed.

(** No lock is held or released in the end, and the buckets are the same. *)
Definition quiet (st st' : FState) : Prop :=
  (forall b, locks_of st' b = locks_of st b) /\ (forall b, is_Some (buckets st' !! b) <-> is_Some (buckets st !! b)).

Lemma mgr_ok_quiet st st' mgr : quiet st st' -> mgr_ok st mgr -> mgr_ok st' mgr.
Proof. intros [_ D] [Hp Hs]. by split; apply D. Qed.

Lemma add_del_lock b i f b' : i ∉ f b -> del_lock b i (add_lock b i f) b' = f b'.
Proof. intros Hi. unfold del_lock, add_lock. destruct (decide (b' = b)) as [-> |]; [set_solver | done]. Qed.

Lemma del_lock_ext b i f g : (forall b', f b' = g b') -> forall b', del_lock b i f b' = del_lock b i g b'.
Proof. intros H b'. unfold del_lock. by rewrite H. Qed.

(** ** Taking the lock of a key *)

Lemma lockQueue_ok st mgr k :
  mgr_ok st mgr -> HashCode k ∉ locks_of st (bucket_of mgr k) ->
  returns (lockQueue st mgr k) (fun '(st', oq) => same st st' /\ default WaitList_default oq = queue_at st (bucket_of mgr k) k /\
    forall b', locks_of st' b' = add_lock (bucket_of mgr k) (HashCode k) (locks_of st) b').
Proof.
  intros Hm Hl. unfold lockQueue. eapply returns_bind; [apply Lock_ok; [by apply mgr_ok_bucket | done] |].
  intros st1 [Hs Hlk]. destruct (get_bucket_ok st1 (bucket_of mgr k)) as (bk & Eb & Hb).
  { apply (sm_dom _ _ Hs). by apply mgr_ok_bucket. }
  rewrite Eb, bind_ret. apply returns_ret. split_and!; [done | | done].
  rewrite <- (sm_queues _ _ Hs). unfold queue_at. by rewrite Hb.
Qed.

Lemma lockQueueWithCreate_ok st mgr k :
  mgr_ok st mgr -> HashCode k ∉ locks_of st (bucket_of mgr k) ->
  returns (lockQueueWithCreate st mgr k) (fun '(st', q) => same st st' /\ q = queue_at st (bucket_of mgr k) k /\
    forall b', locks_of st' b' = add_lock (bucket_of mgr k) (HashCode k) (locks_of st) b').
Proof.
  intros Hm Hl. unfold lockQueueWithCreate. eapply returns_bind; [apply Lock_ok; [by apply mgr_ok_bucket | done] |].
  intros st1 [Hs Hlk]. eapply returns_mono; [apply GetCreate_ok; apply (sm_dom _ _ Hs); by apply mgr_ok_bucket |].
  intros [st2 q] (Hs2 & -> & Hlk2). split_and!; [by etransitivity | apply (sm_queues _ _ Hs) |].
  intros b'. by rewrite Hlk2.
Qed.

(** [stored st st' b k h q]: [st'] is [st] with the entries [h] and the queue [q] for [k]. *)
Record stored (st st' : FState) (b : positive) (k : Key) (h : Waits) (q : WaitList) : Prop := {
  st_waits : waits st' = h;
  st_queue : queue_at st' b k = q;
  st_queues : forall b' k', ~ (b' = b /\ k' = k) -> queue_at st' b' k' = queue_at st b' k';
  st_quiet : quiet st st' }.

Lemma put_stored st mgr k h q :
  mgr_ok st mgr -> returns (put_queue (with_waits st h) mgr k q) (fun st' => stored st st' (bucket_of mgr k) k h q).
Proof.
  intros Hm. eapply returns_mono; [by apply put_queue_ok |]. intros st' (W & HQ & HL & D). split; [done | | | done].
  - rewrite HQ. by rewrite decide_True.
  - intros b' k' N. rewrite HQ. by rewrite decide_False.
Qed.

Lemma remove_stored st st1 mgr k h q l :
  mgr_ok st mgr -> stored st st1 (bucket_of mgr k) k h q -> wl_rep h q l ->
  returns (remove_if_empty st1 mgr k q) (fun st' => stored st st' (bucket_of mgr k) k h q).
Proof.
  intros Hm [W1 Q1 O1 D1] Hr. eapply returns_mono; [eapply remove_if_empty_ok; [by eapply mgr_ok_quiet | done | exact Hr] |].
  intros st2 [S2 L2]. split.
  - by rewrite (sm_waits _ _ S2).
  - by rewrite (sm_queues _ _ S2).
  - intros b' k' N. rewrite (sm_queues _ _ S2). auto.
  - split; [intros b; rewrite L2; apply D1 | intros b; rewrite (sm_dom _ _ S2); apply D1].
Qed.

(** Unlocking after the lock of [k] was taken in [st0]. *)
Lemma unlock_ok st0 st mgr k :
  mgr_ok st mgr -> HashCode k ∉ locks_of st0 (bucket_of mgr k) ->
  (forall b', locks_of st b' = add_lock (bucket_of mgr k) (HashCode k) (locks_of st0) b') ->
  returns (unlock st mgr k) (fun st' => same st st' /\ forall b', locks_of st' b' = locks_of st0 b').
Proof.
  intros Hm Hl Hlk. eapply returns_mono; [apply Unlock_ok; by apply mgr_ok_bucket |]. intros st' [S L]. split; [done |].
  intros b'. rewrite L. erewrite del_lock_ext; [by apply add_del_lock | done].
Qed.

Lemma updQ_id st Q b k l : futex_inv st Q -> Q b k = l -> futex_inv st (updQ Q b k l).
Proof.
  intros [R D F T O] E. assert (HQ : forall b' k', updQ Q b k l b' k' = Q b' k').
  { intros b' k'. unfold updQ. destruct (decide _) as [[-> ->] |]; done. }
  split; [intros b' k'; rewrite HQ; apply R | | | done | done].
  - intros b1 k1 b2 k2 e. rewrite !HQ. apply D.
  - intros e He Hn. apply F; [done |]. intros b' k'. rewrite <- HQ. apply Hn.
Qed.

Lemma inv_ext st Q Q' : (forall b k, Q' b k = Q b k) -> futex_inv st Q -> futex_inv st Q'.
Proof.
  intros HQ [R D F T O]. split; [intros b k; rewrite HQ; apply R | | | done | done].
  - intros b1 k1 b2 k2 e. rewrite !HQ. apply D.
  - intros e He Hn. apply F; [done |]. intros b' k'. rewrite <- HQ. apply Hn.
Qed.

(** The invariant after the queue of one key was stored. *)
Lemma inv_stored st st' Q b k h q l' X K kk L :
  futex_inv st Q -> stored st st' b k h q -> effect X K kk L (waits st) h -> wl_rep h q l' ->
  Q b k ⊆ X -> l' ⊆ X -> (forall e, e ∈ X -> e ∈ Q b k \/ forall b k, e ∉ Q b k) ->
  (forall e, e ∈ X -> e ∉ l' -> unlinked h e) -> futex_inv st' (updQ Q b k l').
Proof.
  intros Hi [W HQ HO _] Ef Hr H1 H2 H3 H4. subst h q. by eapply inv_put.
Qed.

(** The invariant after [WakeLocked] on one queue. *)
Lemma inv_woken st st' Q b k h q f n wk sk rest L :
  futex_inv st Q -> stored st st' b k h q -> wake_walk f n (Q b k) = (wk, sk, rest) ->
  effect (Q b k) (wk ++ sk) Key_default L (waits st) h -> wl_rep h q (sk ++ rest) -> Forall (unlinked h) wk ->
  futex_inv st' (updQ Q b k (sk ++ rest)).
Proof.
  intros Hi Hs Hp%wake_walk_perm Ef Hr Hu. eapply inv_stored; [done | exact Hs | exact Ef | done | done | | by left |].
  - intros e He. rewrite Hp, elem_of_app. by right.
  - intros e He Hn. rewrite Hp, elem_of_app in He. destruct He as [He | He]; [| done].
    rewrite Forall_forall in Hu. by apply Hu.
Qed.

(** ** Preparing an entry

    [WaitPrepare] and [LockPI] clear the entry's event and set its mask, key and thread
    before they take the lock. *)
Definition prepared (h : Waits) (w : positive) (s : EntryInternal) (c : ThreadContext) (b : WaiterInternal) (m t : Z) (k : Key) : Waits :=
  mkWaits (<[w := mkEntry (next s) (prev s) m (WC_Thread (mkTC (waiterID c) (waiter c) t k))]> (entries h))
    (<[waiter c := mkWaiter (Z.ldiff (bitmap b) (bit (waiterID c))) (w_mask b) (idCnt b) (w_state b) (w_taskId b)]> (waiters h))
    (scheduled h).

Section Prepare.
Variables (h : Waits) (w : positive) (s : EntryInternal) (c : ThreadContext) (b : WaiterInternal).
Hypotheses (Hs : entries h !! w = Some s) (Hc : context s = WC_Thread c) (Hb : waiters h !! waiter c = Some b).

Lemma prepare_wait {A} m k (K : Waits -> outcome A) :
  (h ← WaitEntry_Clear h w; h ← SetMask h w m; h ← SetKey h w k; K h) = K (prepared h w s c b m (tid c) k).
Proof.
  unfold WaitEntry_Clear, get_entry. rewrite Hs, bind_ret, Hc. unfold Waiter_Clear, get_waiter. rewrite Hb, !bind_ret.
  unfold SetMask. rewrite (upd_entry_ok _ w s) by done. rewrite bind_ret. unfold SetKey, get_entry. rewrite entries_put_eq, bind_ret.
  unfold thread_context. cbn [context set_mask]. rewrite Hc, !bind_ret. unfold prepared, put_entry. simpl. by rewrite insert_insert_eq.
Qed.

Lemma prepare_lock {A} m t k (K : Waits -> outcome A) :
  (h ← WaitEntry_Clear h w; h ← SetKey h w k; h ← SetTid h w t; h ← SetMask h w m; K h) = K (prepared h w s c b m t k).
Proof.
  unfold WaitEntry_Clear, get_entry. rewrite Hs, bind_ret, Hc. unfold Waiter_Clear, get_waiter. rewrite Hb, !bind_ret.
  unfold SetKey, get_entry. simpl. rewrite Hs, bind_ret. unfold thread_context. rewrite Hc, !bind_ret.
  unfold SetTid, get_entry. rewrite entries_put_eq, bind_ret. unfold thread_context. cbn [context]. rewrite !bind_ret.
  unfold SetMask. rewrite (upd_entry_ok _ w _ _ (entries_put_eq _ _ _)), bind_ret. unfold prepared, put_entry. simpl. by rewrite !insert_insert_eq.
Qed.

Lemma prepared_links m t k x : links (prepared h w s c b m t k) x = links h x.
Proof.
  unfold links, prepared. simpl. destruct (decide (x = w)) as [-> |]; [by rewrite lookup_insert_eq, Hs | by rewrite lookup_insert_ne].
Qed.

Lemma prepared_ctx m t k x :
  ctx (prepared h w s c b m t k) x = if decide (x = w) then Some (mkTC (waiterID c) (waiter c) t k) else ctx h x.
Proof.
  unfold ctx, prepared. simpl. destruct (decide (x = w)) as [-> |]; [by rewrite lookup_insert_eq | by rewrite lookup_insert_ne].
Qed.

Lemma prepared_ok m t k : waits_ok h -> waits_ok (prepared h w s c b m t k).
Proof.
  intros Ho e s' c' He Hc'. simpl in He |- *.
  assert (H : is_Some (waiters h !! waiter c') /\ 0 <= waiterID c' <= TIMER_WAITID).
  { destruct (decide (e = w)) as [-> | N].
    - rewrite lookup_insert_eq in He. injection He as <-. injection Hc' as <-. by apply (Ho w s c).
    - rewrite lookup_insert_ne in He by done. by eapply Ho. }
  split; [| apply H]. destruct (decide (waiter c' = waiter c)) as [-> |]; [by rewrite lookup_insert_eq | rewrite lookup_insert_ne by done; apply H].
Qed.

Lemma prepared_ready m t k w' id :
  0 <= waiterID c < 64 -> 0 <= id ->
  ready (prepared h w s c b m t k) w' id = ready h w' id && negb (bool_decide (w' = waiter c /\ id = waiterID c)).
Proof.
  intros Hid Hi. unfold ready, prepared. simpl. destruct (decide (w' = waiter c)) as [-> | N].
  - rewrite lookup_insert_eq, Hb. simpl. rewrite Z.ldiff_spec, testbit_bit by done. f_equal. f_equal. apply bool_decide_ext. naive_solver.
  - rewrite lookup_insert_ne by done. rewrite (bool_decide_eq_false_2 (_ /\ _)) by naive_solver. by rewrite andb_true_r.
Qed.
End Prepare.

Lemma prepared_inv st Q w s c b m t k :
  futex_inv st Q -> entries (waits st) !! w = Some s -> context s = WC_Thread c -> waiters (waits st) !! waiter c = Some b ->
  futex_inv (with_waits st (prepared (waits st) w s c b m t k)) Q.
Proof.
  intros [R D F T O] Hs Hc Hb. set (h' := prepared _ _ _ _ _ _ _ _).
  assert (Hl : forall x, links h' x = links (waits st) x) by (intros x; by apply prepared_links).
  assert (Hd : forall x, is_Some (entries h' !! x) -> is_Some (entries (waits st) !! x)).
  { intros x Hx. assert (Hx' : is_Some (links h' x)) by (unfold links; by apply fmap_is_Some). rewrite Hl in Hx'. by apply fmap_is_Some in Hx'. }
  split; simpl.
  - intros b' k'. by apply (wl_rep_links (waits st)), R.
  - done.
  - intros e He Hn. unfold unlinked. rewrite Hl. apply F; auto.
  - intros e He. unfold h'. rewrite prepared_ctx by done. destruct (decide (e = w)); [done | auto].
  - by apply prepared_ok.
Qed.
