(* ===== verification/FutexOps.v ===== *)
(** What the operations of the futex manager do to the lists of [FutexThm.v]. *)
From S2P Require Import Prelude WaitList WaitListThm WaitListOps Futex FutexThm.

#[local] Open Scope Z_scope.

(** Locking is a change to the same queues: the invariant goes through. *)
Lemma fi_threads_at st Q b k : futex_inv st Q -> threads (waits st) (Q b k).
Proof. intros Hi e He. apply (fi_threads _ _ Hi). eapply seg_links; [apply (rep_seg _ _ _ (fi_rep _ _ Hi b k)) | done]. Qed.

Section Ops.
Context {M : Type} `{!Target M}.

(** ** Waking *)

Lemma Wake_ok st mgr (m : M) addr pr bitmask n Q k wk sk rest :
  futex_inv st Q -> mgr_ok st mgr -> Getkey m addr pr = Ok k -> HashCode k ∉ locks_of st (bucket_of mgr k) ->
  wake_walk (answers (waits st) bitmask) (Z.to_nat n) (Q (bucket_of mgr k) k) = (wk, sk, rest) ->
  returns (Wake st mgr m addr pr bitmask n) (fun '(st', r) => r = Ok (Z.of_nat (length wk)) /\
    futex_inv st' (updQ Q (bucket_of mgr k) k (sk ++ rest)) /\ quiet st st' /\
    effect (Q (bucket_of mgr k) k) (wk ++ sk) Key_default (omap (slot (waits st)) wk) (waits st) (waits st')).
Proof.
  intros Hi Hm Hk Hl Hw. unfold Wake. rewrite Hk. set (b := bucket_of mgr k) in *.
  eapply returns_bind; [by apply lockQueue_ok |]. intros [st1 temp] (S1 & Eq & L1). fold b in Eq, L1. simpl.
  assert (Hi1 : futex_inv st1 Q) by (by rewrite <- S1). assert (Hm1 : mgr_ok st1 mgr) by (by rewrite <- S1).
  set (P := fun '((st', r) : FState * Result Z) => r = Ok (Z.of_nat (length wk)) /\ futex_inv st' (updQ Q b k (sk ++ rest)) /\ quiet st1 st' /\
    effect (Q b k) (wk ++ sk) Key_default (omap (slot (waits st)) wk) (waits st) (waits st')).
  apply (returns_bind _ _ P); unfold P.
  - destruct temp as [q |]; simpl in Eq.
    + pose proof (fi_rep _ _ Hi b k) as Hr. rewrite <- Eq in Hr. rewrite (sm_waits _ _ S1).
      eapply returns_bind; [eapply WakeLocked_rep; [exact Hr | apply (fi_ok _ _ Hi) | by apply (fi_threads_at st) | exact Hw] |].
      intros [[h q'] res] (-> & Hr' & Hu & Ef). simpl.
      eapply returns_bind; [by apply put_stored |]. intros st2 S2.
      eapply returns_bind; [eapply remove_stored; [exact Hm1 | exact S2 | exact Hr'] |]. intros st3 S3. apply returns_ret.
      split_and!; [done | | apply (st_quiet _ _ _ _ _ _ S3) | by rewrite (st_waits _ _ _ _ _ _ S3)].
      rewrite <- (sm_waits _ _ S1) in Ef. eapply (inv_woken st1); [exact Hi1 | exact S3 | exact Hw | exact Ef | exact Hr' | exact Hu].
    + assert (E : Q b k = []).
      { pose proof (rep_head _ _ _ (fi_rep _ _ Hi b k)) as Hh. rewrite <- Eq in Hh. by destruct (Q b k). }
      rewrite E in Hw. destruct (Z.to_nat n); injection Hw as <- <- <-; apply returns_ret;
        (split_and!; [done | by apply updQ_id | done | rewrite (sm_waits _ _ S1); apply effect_relinked, relinked_refl]).
  - intros [st2 r] (-> & Hi2 & Hq2 & Ef2). simpl.
    eapply returns_bind; [apply (unlock_ok st); [by eapply mgr_ok_quiet | done |] |].
    { intros b'. rewrite (proj1 Hq2). apply L1. }
    intros st3 [S3 L3]. apply returns_ret. split_and!; [done | by rewrite <- S3 | | by rewrite (sm_waits _ _ S3)].
    split; [done |]. intros b'. rewrite (sm_dom _ _ S3), (proj2 Hq2). apply (sm_dom _ _ S1).
Qed.

(** ** Waiting *)

Lemma fi_entry st Q w :
  futex_inv st Q -> is_Some (entries (waits st) !! w) ->
  exists s c b, entries (waits st) !! w = Some s /\ context s = WC_Thread c /\ ctx (waits st) w = Some c /\
    waiters (waits st) !! waiter c = Some b /\ 0 <= waiterID c <= TIMER_WAITID.
Proof.
  intros Hi [s Hs]. destruct (fi_threads _ _ Hi w ltac:(eauto)) as [c Hc].
  destruct (waits_ok_ctx _ _ _ (fi_ok _ _ Hi) Hc) as [[b Hb] Hid]. exists s, c, b.
  split_and!; try done; try lia. unfold ctx in Hc. rewrite Hs in Hc. simpl in Hc. destruct (context s); congruence.
Qed.

(** The result of the check decides whether the entry is queued. *)
Lemma WaitPrepare_ok st mgr (m : M) w addr pr val bitmask Q k s c b :
  futex_inv st Q -> mgr_ok st mgr -> Getkey m addr pr = Ok k -> HashCode k ∉ locks_of st (bucket_of mgr k) ->
  (forall b k, w ∉ Q b k) -> entries (waits st) !! w = Some s -> context s = WC_Thread c -> waiters (waits st) !! waiter c = Some b ->
  returns (WaitPrepare st mgr m w addr pr val bitmask) (fun '(st', m', r) => (m', r) = Check m addr val /\ quiet st st' /\
    futex_inv st' (match r with inr _ => updQ Q (bucket_of mgr k) k (Q (bucket_of mgr k) k ++ [w]) | inl _ => Q end) /\
    effect (w :: Q (bucket_of mgr k) k) [] k [] (prepared (waits st) w s c b bitmask (tid c) k) (waits st')).
Proof.
  intros Hi Hm Hk Hl Hw Hs Hc Hb. unfold WaitPrepare. rewrite Hk, (prepare_wait _ _ s c b) by done.
  set (h0 := prepared _ _ _ _ _ _ _ _). set (bu := bucket_of mgr k) in *.
  assert (Hi0 : futex_inv (with_waits st h0) Q) by (by apply prepared_inv).
  eapply returns_bind; [by apply lockQueueWithCreate_ok |]. intros [st1 q] (S1 & Eq & L1). fold bu in Eq, L1. simpl.
  assert (Hi1 : futex_inv st1 Q) by (by rewrite <- S1). assert (Hm1 : mgr_ok st1 mgr) by (by rewrite <- S1).
  destruct (Check m addr val) as [m' r] eqn:Ec. destruct r as [e | []].
  - eapply returns_bind; [by apply (unlock_ok (with_waits st h0)) |]. intros st2 [S2 L2]. apply returns_ret.
    split_and!; [done | | by rewrite <- S2 | rewrite (sm_waits _ _ S2), (sm_waits _ _ S1); apply effect_relinked, relinked_refl].
    split; [done |]. intros b'. rewrite (sm_dom _ _ S2). apply (sm_dom _ _ S1).
  - pose proof (fi_rep _ _ Hi0 bu k) as Hr. rewrite <- Eq in Hr. rewrite (sm_waits _ _ S1).
    eapply returns_bind; [apply (PushBack_rep h0 q (Q bu k) w); [done | done |] |].
    { apply (fi_free _ _ Hi0); [| done]. simpl. by rewrite lookup_insert_eq. }
    intros [h q'] (Hr' & R). simpl. pose proof (effect_relinked _ k _ _ R) as Ef.
    eapply returns_bind; [by apply put_stored |]. intros st2 S2. fold bu in S2.
    eapply returns_bind; [apply (unlock_ok (with_waits st h0)); [eapply mgr_ok_quiet; [apply S2 | done] | done |] |].
    { intros b'. rewrite (proj1 (st_quiet _ _ _ _ _ _ S2)). apply L1. }
    intros st3 [S3 L3]. apply returns_ret. split_and!; [done | | | by rewrite (sm_waits _ _ S3), (st_waits _ _ _ _ _ _ S2)].
    + split; [done |]. intros b'. rewrite (sm_dom _ _ S3), (proj2 (st_quiet _ _ _ _ _ _ S2)). apply (sm_dom _ _ S1).
    + rewrite <- S3. eapply inv_stored; [exact Hi1 | exact S2 | by rewrite (sm_waits _ _ S1) | exact Hr' | set_solver | set_solver | |].
      * intros e [-> | He]%elem_of_cons; [by right | by left].
      * intros e He Hn. set_solver.
Qed.

Lemma get_key_ok st w c : ctx (waits st) w = Some c -> get_key st w = Ret (key c).
Proof.
  unfold ctx, get_key, get_entry, thread_context. destruct (entries (waits st) !! w) as [s |]; [| done]. simpl.
  destruct (context s); [done |]. by intros [= ->].
Qed.

Lemma stored_waits st st' b k h h' q : stored st st' b k h q -> stored st (with_waits st' h') b k h' q.
Proof. intros [W Q1 O D]. by split. Qed.

(** The key was read before the lock was taken; it still is the entry's key, or not. *)
Lemma WaitComplete_locked_moved st mgr w k Q c :
  futex_inv st Q -> mgr_ok st mgr -> HashCode k ∉ locks_of st (bucket_of mgr k) -> ctx (waits st) w = Some c -> key c <> k ->
  returns (WaitComplete_locked st mgr w k) (fun '(st', stop) => stop = false /\ same st st' /\ quiet st st').
Proof.
  intros Hi Hm Hl Hc Hk. unfold WaitComplete_locked. eapply returns_bind; [by apply lockQueueWithCreate_ok |].
  intros [st1 q] (S1 & _ & L1). simpl. rewrite (get_key_ok _ _ c) by (by rewrite (sm_waits _ _ S1)). rewrite bind_ret.
  rewrite bool_decide_eq_false_2 by done. cbn [negb].
  eapply returns_bind; [apply (unlock_ok st); [by rewrite <- S1 | done | done] |]. intros st2 [S2 L2]. apply returns_ret.
  split_and!; [done | by etransitivity |]. split; [done |]. intros b. by rewrite (sm_dom _ _ S2), (sm_dom _ _ S1).
Qed.

Lemma WaitComplete_locked_ok st mgr w k Q c l1 l2 :
  futex_inv st Q -> mgr_ok st mgr -> HashCode k ∉ locks_of st (bucket_of mgr k) -> ctx (waits st) w = Some c -> key c = k ->
  Q (bucket_of mgr k) k = l1 ++ w :: l2 ->
  returns (WaitComplete_locked st mgr w k) (fun '(st', stop) => stop = true /\ quiet st st' /\
    futex_inv st' (updQ Q (bucket_of mgr k) k (l1 ++ l2)) /\
    effect (l1 ++ w :: l2) [w] Key_default [] (waits st) (waits st')).
Proof.
  intros Hi Hm Hl Hc Hk HQ. unfold WaitComplete_locked. set (bu := bucket_of mgr k) in *.
  eapply returns_bind; [by apply lockQueueWithCreate_ok |]. intros [st1 q] (S1 & Eq & L1). fold bu in Eq, L1. simpl.
  assert (Hi1 : futex_inv st1 Q) by (by rewrite <- S1). assert (Hm1 : mgr_ok st1 mgr) by (by rewrite <- S1).
  rewrite (get_key_ok _ _ c) by (by rewrite (sm_waits _ _ S1)). rewrite bind_ret, bool_decide_eq_true_2 by done. cbn [negb].
  pose proof (fi_rep _ _ Hi bu k) as Hr. rewrite <- Eq, HQ in Hr. rewrite (sm_waits _ _ S1).
  eapply returns_bind; [by apply Remove_wl_rep |]. intros [h q'] (Hr' & R & U). simpl.
  pose proof (effect_relinked _ Key_default _ _ R) as Ef.
  eapply returns_bind; [by apply put_stored |]. intros st2 S2.
  eapply returns_bind; [eapply remove_stored; [exact Hm1 | exact S2 | exact Hr'] |]. intros st3 S3.
  rewrite (st_waits _ _ _ _ _ _ S3). pose proof (effect_ctx _ _ _ _ _ _ _ _ Ef Hc) as Hc'.
  eapply returns_bind; [by eapply SetKey_effect |]. intros h' [Ef' Hl'].
  pose proof (stored_waits _ _ _ _ _ h' _ S3) as S4. fold bu in S4.
  eapply returns_bind; [apply (unlock_ok st); [eapply mgr_ok_quiet; [apply S4 | done] | done |] |].
  { intros b'. rewrite (proj1 (st_quiet _ _ _ _ _ _ S4)). apply L1. }
  intros st5 [S5 L5]. apply returns_ret. assert (Ef2 : effect (l1 ++ w :: l2) [w] Key_default [] (waits st) h').
  { apply (effect_seq _ [] [w] _ _ [] [] _ _ _ _ Ef); [eapply effect_mono; [| exact Ef']; set_solver | set_solver | done]. }
  split_and!; [done | | | by rewrite (sm_waits _ _ S5)].
  - split; [done |]. intros b'. rewrite (sm_dom _ _ S5), (proj2 (st_quiet _ _ _ _ _ _ S4)). apply (sm_dom _ _ S1).
  - rewrite <- S5. eapply inv_stored; [exact Hi1 | exact S4 | rewrite (sm_waits _ _ S1); exact Ef2 | | by rewrite HQ | set_solver | |].
    + by apply (wl_rep_links h).
    + intros e He. left. by rewrite HQ.
    + intros e He Hn. assert (e = w) as -> by set_solver. unfold unlinked. by rewrite Hl'.
Qed.

Lemma WaitComplete_ok fuel st mgr w Q c l1 l2 :
  futex_inv st Q -> mgr_ok st mgr -> HashCode (key c) ∉ locks_of st (bucket_of mgr (key c)) -> ctx (waits st) w = Some c ->
  key c <> Key_default -> Q (bucket_of mgr (key c)) (key c) = l1 ++ w :: l2 ->
  returns (WaitComplete (S fuel) st mgr w) (fun st' => quiet st st' /\
    futex_inv st' (updQ Q (bucket_of mgr (key c)) (key c) (l1 ++ l2)) /\
    effect (l1 ++ w :: l2) [w] Key_default [] (waits st) (waits st')).
Proof.
  intros Hi Hm Hl Hc Hd HQ. simpl. rewrite (get_key_ok _ _ c) by done. rewrite bind_ret, bool_decide_eq_false_2 by done.
  eapply returns_bind; [by apply (WaitComplete_locked_ok st mgr w (key c) Q c l1 l2) |]. intros [st' stop] (-> & H). by apply returns_ret.
Qed.

(** *** An entry that is in no list *)

(** Removing it empties the list. *)
Lemma Remove_unlinked h q e :
  unlinked h e -> returns (WaitList_Remove h q e) (fun '(h', q') => q' = WaitList_default /\ relinked [e] h h' /\ unlinked h' e).
Proof.
  intros (s & Hs & Hp & Hn)%links_some. unfold WaitList_Remove. rewrite (get_entry_ok _ _ _ Hs), bind_ret, Hp, Hn, !bind_ret. cbv beta iota.
  rewrite (upd_entry_ok _ _ s) by done. apply returns_ret. split_and!; [done | eapply relinked_put; [done | set_solver | done | done] |].
  unfold unlinked, links. by rewrite entries_put_eq.
Qed.

(** Ending a wait that was not started: the queue of the entry's key is emptied. *)
Lemma WaitComplete_unlinked fuel st mgr w Q c :
  futex_inv st Q -> mgr_ok st mgr -> HashCode (key c) ∉ locks_of st (bucket_of mgr (key c)) -> ctx (waits st) w = Some c ->
  key c <> Key_default -> unlinked (waits st) w ->
  returns (WaitComplete (S fuel) st mgr w) (fun st' => stored st st' (bucket_of mgr (key c)) (key c) (waits st') WaitList_default /\
    effect [w] [w] Key_default [] (waits st) (waits st') /\ unlinked (waits st') w).
Proof.
  intros Hi Hm Hl Hc Hd Hu. set (k := key c) in *. set (bu := bucket_of mgr k) in *. simpl. rewrite (get_key_ok _ _ c) by done. fold k.
  rewrite bind_ret, bool_decide_eq_false_2 by done.
  apply (returns_bind _ _ (fun '(st', stop) => stop = true /\ stored st st' bu k (waits st') WaitList_default /\
    effect [w] [w] Key_default [] (waits st) (waits st') /\ unlinked (waits st') w)); [| intros [st' stop] (-> & H); by apply returns_ret].
  unfold WaitComplete_locked. eapply returns_bind; [by apply lockQueueWithCreate_ok |]. intros [st1 q] (S1 & Eq & L1). fold bu in Eq, L1. cbv beta iota.
  assert (Hm1 : mgr_ok st1 mgr) by (by rewrite <- S1).
  rewrite (get_key_ok _ _ c) by (by rewrite (sm_waits _ _ S1)). rewrite bind_ret, bool_decide_eq_true_2 by done. cbn [negb].
  rewrite (sm_waits _ _ S1). eapply returns_bind; [by apply Remove_unlinked |]. intros [h q'] (-> & R & U). cbv beta iota.
  eapply returns_bind; [by apply put_stored |]. intros st2 S2.
  eapply returns_bind; [eapply remove_stored; [exact Hm1 | exact S2 | apply wl_rep_empty] |]. intros st3 S3. rewrite (st_waits _ _ _ _ _ _ S3).
  pose proof (effect_relinked _ Key_default _ _ R) as Ef. pose proof (effect_ctx _ _ _ _ _ _ _ _ Ef Hc) as Hc'.
  eapply returns_bind; [by eapply SetKey_effect |]. intros h' [Ef' Hl'].
  pose proof (stored_waits _ _ _ _ _ h' _ S3) as S4. fold bu in S4.
  eapply returns_bind; [apply (unlock_ok st); [eapply mgr_ok_quiet; [apply S4 | done] | done |] |].
  { intros b'. rewrite (proj1 (st_quiet _ _ _ _ _ _ S4)). apply L1. }
  intros st5 [S5 L5]. apply returns_ret. rewrite (sm_waits _ _ S5). simpl. split_and!; [done | | | unfold unlinked; by rewrite Hl'].
  - split; [by rewrite (sm_waits _ _ S5) | rewrite (sm_queues _ _ S5); apply S4 | |].
    + intros b' k' N. rewrite (sm_queues _ _ S5), (st_queues _ _ _ _ _ _ S4) by done. apply (sm_queues _ _ S1).
    + split; [done |]. intros b'. rewrite (sm_dom _ _ S5), (proj2 (st_quiet _ _ _ _ _ _ S4)). apply (sm_dom _ _ S1).
  - apply (effect_seq _ [] [w] _ _ [] [] _ _ _ _ Ef); [exact Ef' | set_solver | done].
Qed.

(** With nobody in that queue no harm is done. *)
Lemma WaitComplete_nobody fuel st mgr w Q c :
  futex_inv st Q -> mgr_ok st mgr -> HashCode (key c) ∉ locks_of st (bucket_of mgr (key c)) -> ctx (waits st) w = Some c ->
  key c <> Key_default -> (forall b k, w ∉ Q b k) -> Q (bucket_of mgr (key c)) (key c) = [] ->
  returns (WaitComplete (S fuel) st mgr w) (fun st' => quiet st st' /\ futex_inv st' Q /\ effect [w] [w] Key_default [] (waits st) (waits st')).
Proof.
  intros Hi Hm Hl Hc Hd Hw HQ. assert (Hu : unlinked (waits st) w).
  { apply (fi_free _ _ Hi); [| done]. unfold ctx in Hc. by destruct (entries (waits st) !! w). }
  eapply returns_mono; [by apply (WaitComplete_unlinked fuel st mgr w Q c) |]. intros st' (S & Ef & U). split_and!; [apply S | | done].
  eapply inv_ext; [| eapply (inv_stored _ _ _ _ _ _ _ []); [exact Hi | exact S | exact Ef | apply wl_rep_empty | rewrite HQ; set_solver | set_solver | |]].
  - intros b k. unfold updQ. destruct (decide _) as [[-> ->] |]; [by rewrite HQ | done].
  - intros e ->%list_elem_of_singleton. by right.
  - by intros e ->%list_elem_of_singleton _.
Qed.

(** ** Two keys *)

(** Unlocking both keys gives the locks of [st0] back. *)
Definition both_locked (st0 st : FState) (mgr : FutexMgr) (k1 k2 : Key) : Prop :=
  forall b, del_lock (bucket_of mgr k2) (HashCode k2) (del_lock (bucket_of mgr k1) (HashCode k1) (locks_of st)) b = locks_of st0 b.

Lemma both_locked_ext st0 st st' mgr k1 k2 :
  (forall b, locks_of st' b = locks_of st b) -> both_locked st0 st mgr k1 k2 -> both_locked st0 st' mgr k1 k2.
Proof. intros H Hb b. rewrite <- Hb. apply del_lock_ext, del_lock_ext, H. Qed.

Lemma unlock_two f b1 i1 b2 i2 b :
  i1 ∉ f b1 -> i2 ∉ f b2 ->
  del_lock b2 i2 (del_lock b1 i1 (add_lock b2 i2 (add_lock b1 i1 f))) b = f b /\
  del_lock b2 i2 (del_lock b1 i1 (add_lock b1 i1 (add_lock b2 i2 f))) b = f b.
Proof.
  intros H1 H2. unfold del_lock, add_lock.
  destruct (decide (b = b1)), (decide (b = b2)); subst; split; set_solver.
Qed.

(** Keys with the same hash: only the first bucket was locked. *)
Lemma unlock_one f b1 b2 i b : i ∉ f b1 -> i ∉ f b2 -> del_lock b2 i (del_lock b1 i (add_lock b1 i f)) b = f b.
Proof.
  intros H1 H2. unfold del_lock, add_lock.
  destruct (decide (b = b1)), (decide (b = b2)); subst; set_solver.
Qed.

Lemma both_locked_eq st0 st mgr k1 k2 f :
  (forall b, locks_of st b = f b) ->
  (forall b, del_lock (bucket_of mgr k2) (HashCode k2) (del_lock (bucket_of mgr k1) (HashCode k1) f) b = locks_of st0 b) ->
  both_locked st0 st mgr k1 k2.
Proof. intros H Hf b. rewrite <- Hf. apply del_lock_ext, del_lock_ext, H. Qed.

Lemma lockQueues_ok st mgr k1 k2 :
  mgr_ok st mgr -> k1 <> k2 -> HashCode k1 ∉ locks_of st (bucket_of mgr k1) -> HashCode k2 ∉ locks_of st (bucket_of mgr k2) ->
  returns (lockQueues st mgr k1 k2) (fun '(st', q1, q2) => same st st' /\ q1 = queue_at st (bucket_of mgr k1) k1 /\
    q2 = queue_at st (bucket_of mgr k2) k2 /\ both_locked st st' mgr k1 k2).
Proof.
  intros Hm Hk Hl1 Hl2. unfold lockQueues. rewrite bool_decide_eq_false_2 by done.
  set (b1 := bucket_of mgr k1) in *. set (b2 := bucket_of mgr k2) in *.
  apply (returns_bind _ _ (fun st' => same st st' /\ both_locked st st' mgr k1 k2)).
  - assert (Htwo : forall a b, HashCode a <> HashCode b -> HashCode a ∉ locks_of st (bucket_of mgr a) -> HashCode b ∉ locks_of st (bucket_of mgr b) ->
      returns (st ← Bucket_Lock st (bucket_of mgr a) a; Bucket_Lock st (bucket_of mgr b) b) (fun st' => same st st' /\
        forall b', locks_of st' b' = add_lock (bucket_of mgr b) (HashCode b) (add_lock (bucket_of mgr a) (HashCode a) (locks_of st)) b')).
    { intros a b Hab Ha Hb. eapply returns_bind; [apply Lock_ok; [by apply mgr_ok_bucket | done] |]. intros st1 [S1 L1].
      eapply returns_mono; [apply Lock_ok; [apply (sm_dom _ _ S1); by apply mgr_ok_bucket |] |].
      - rewrite L1. unfold add_lock. case_decide; set_solver.
      - intros st2 [S2 L2]. split; [by etransitivity |]. intros b'. rewrite L2. unfold add_lock at 1 2. by rewrite L1. }
    destruct (Z.ltb_spec (HashCode k1) (HashCode k2)) as [H | H]; [| destruct (Z.ltb_spec (HashCode k2) (HashCode k1)) as [H' | H']].
    + eapply returns_mono; [apply Htwo; [lia | done | done] |]. intros st' [S L]. split; [done |]. eapply both_locked_eq; [exact L |]. intros b. by apply unlock_two.
    + eapply returns_mono; [apply (Htwo k2 k1); [lia | done | done] |]. intros st' [S L]. split; [done |]. eapply both_locked_eq; [exact L |]. intros b. by apply unlock_two.
    + eapply returns_mono; [apply Lock_ok; [by apply mgr_ok_bucket | done] |]. intros st' [S L]. split; [done |]. eapply both_locked_eq; [exact L |].
      assert (E : HashCode k1 = HashCode k2) by lia. rewrite <- E in *. intros b. by apply unlock_one.
  - intros st1 [S1 B1]. assert (Hm1 : mgr_ok st1 mgr) by (by rewrite <- S1).
    eapply returns_bind; [apply GetCreate_ok; by apply mgr_ok_bucket |]. intros [st2 q1] (S2 & -> & L2). simpl.
    assert (Hm2 : mgr_ok st2 mgr) by (by rewrite <- S2).
    eapply returns_bind; [apply GetCreate_ok; by apply mgr_ok_bucket |]. intros [st3 q2] (S3 & -> & L3). simpl. apply returns_ret.
    split_and!; [by rewrite S1, S2 | by rewrite (sm_queues _ _ S1) | by rewrite (sm_queues _ _ S2), (sm_queues _ _ S1) |].
    eapply both_locked_ext; [| exact B1]. intros b. by rewrite L3.
Qed.

Lemma unlock2_bind {A} st0 st mgr k1 k2 (K : FState -> outcome A) P :
  mgr_ok st mgr -> both_locked st0 st mgr k1 k2 ->
  (forall st', same st st' -> (forall b, locks_of st' b = locks_of st0 b) -> returns (K st') P) ->
  returns (st ← unlock st mgr k1; st ← unlock st mgr k2; K st) P.
Proof.
  intros Hm Hb HK. eapply returns_bind; [apply Unlock_ok; by apply mgr_ok_bucket |]. intros st1 [S1 L1].
  eapply returns_bind; [apply Unlock_ok; apply mgr_ok_bucket; by rewrite <- S1 |]. intros st2 [S2 L2].
  apply HK; [by etransitivity |]. intros b. rewrite L2, <- Hb. by apply del_lock_ext.
Qed.

Lemma with_waits_id st : with_waits st (waits st) = st.
Proof. by destruct st. Qed.
End Ops.
