(* ===== verification/FutexPairs.v ===== *)
(** The futex operations on two keys, requeueing and [WakeOp], and the locks that hand
    themselves over, [LockPI] and [UnlockPI], on the lists of [FutexThm.v]. *)
From S2P Require Import Prelude WaitList WaitListThm WaitListOps Futex FutexThm FutexOps.

#[local] Open Scope Z_scope.

Section Pairs.
Context {M : Type} `{!Target M}.

Lemma stored_same st st1 st2 b k h q : stored st st1 b k h q -> same st1 st2 -> (forall b, locks_of st2 b = locks_of st1 b) -> stored st st2 b k h q.
Proof.
  intros [W Q1 O [L D]] [W2 Q2 D2] L2. split; [congruence | by rewrite Q2 | intros; rewrite Q2; auto |].
  split; intros b'; [by rewrite L2 | by rewrite D2].
Qed.

Lemma inv_Q_disj st Q b1 k1 b2 k2 : futex_inv st Q -> k1 <> k2 -> Q b1 k1 ## Q b2 k2.
Proof. intros Hi Hk e H1 H2. by destruct (fi_disj _ _ Hi _ _ _ _ _ H1 H2). Qed.

(** [requeued Q b1 k1 b2 k2 R j]: the lists after the first [j] entries of [R], what is left
    for [k1], were moved to [k2]. *)
Definition requeued (Q : positive -> Key -> list positive) (b1 : positive) (k1 : Key) (b2 : positive) (k2 : Key) (R : list positive) (j : nat) :=
  updQ (updQ Q b1 k1 (drop j R)) b2 k2 (Q b2 k2 ++ take j R).

Lemma inv_requeued st st' Q b1 k1 b2 k2 j q1 q2 h :
  k1 <> k2 -> futex_inv st Q -> waits st' = h ->
  (forall b k, ~ (b = b1 /\ k = k1) -> ~ (b = b2 /\ k = k2) -> queue_at st' b k = queue_at st b k) ->
  queue_at st' b1 k1 = q1 -> queue_at st' b2 k2 = q2 ->
  wl_rep h q1 (drop j (Q b1 k1)) -> wl_rep h q2 (Q b2 k2 ++ take j (Q b1 k1)) ->
  effect (Q b1 k1 ++ Q b2 k2) (take j (Q b1 k1)) k2 [] (waits st) h ->
  futex_inv st' (requeued Q b1 k1 b2 k2 (Q b1 k1) j).
Proof.
  intros Hk Hi <- Ho E1 E2 Hr1 Hr2 Ef. unfold requeued. set (R := Q b1 k1) in *. set (T := Q b2 k2) in *.
  assert (HQ1 : updQ (updQ Q b1 k1 (drop j R)) b2 k2 (T ++ take j R) b1 k1 = drop j R).
  { rewrite updQ_ne by naive_solver. apply updQ_eq. }
  assert (HRT : R ## T) by (by eapply inv_Q_disj).
  assert (Hsplit : forall e, e ∈ R -> e ∈ take j R \/ e ∈ drop j R) by (intros e He; by rewrite <- elem_of_app, take_drop).
  assert (Htd : forall e, e ∈ take j R -> e ∈ drop j R -> False).
  { intros e. pose proof (rep_nodup _ _ _ (fi_rep _ _ Hi b1 k1)) as Hn. fold R in Hn. rewrite <- (take_drop j R) in Hn.
    apply NoDup_app in Hn as (_ & Hd & _). apply Hd. }
  pose proof (subseteq_take j R) as Ht. pose proof (subseteq_drop j R) as Hdr.
  apply (inv_change st st' Q _ (fun b k => (b = b1 /\ k = k1) \/ (b = b2 /\ k = k2)) _ _ _ _ Hi Ef).
  - intros b k. destruct (decide (b = b1 /\ k = k1)) as [|N1]; [by left; left |].
    destruct (decide (b = b2 /\ k = k2)) as [|N2]; [by left; right |]. right. split; [by apply Ho |]. by rewrite !updQ_ne.
  - intros b k [[-> ->] | [-> ->]].
    + rewrite HQ1, E1. fold R. split_and!; [done | set_solver | set_solver].
    + rewrite updQ_eq, E2. fold T. split_and!; [done | set_solver | set_solver].
  - intros e [He | He]%elem_of_app; left; [exists b1, k1 | exists b2, k2]; auto.
  - intros b k b' k' e [[-> ->] | [-> ->]] [[-> ->] | [-> ->]]; rewrite ?HQ1, ?updQ_eq; try done; set_solver.
  - intros e He Hn. exfalso. pose proof (Hn b1 k1 ltac:(by left)) as H1. pose proof (Hn b2 k2 ltac:(by right)) as H2.
    rewrite HQ1 in H1. rewrite updQ_eq in H2. set_solver.
Qed.

(** Storing two queues and dropping the empty ones. *)
Lemma store_two {A} st mgr k1 k2 h q1 q2 l1 l2 (K : FState -> outcome A) P :
  mgr_ok st mgr -> k1 <> k2 -> wl_rep h q1 l1 -> wl_rep h q2 l2 ->
  (forall st', waits st' = h -> quiet st st' -> queue_at st' (bucket_of mgr k1) k1 = q1 -> queue_at st' (bucket_of mgr k2) k2 = q2 ->
    (forall b k, ~ (b = bucket_of mgr k1 /\ k = k1) -> ~ (b = bucket_of mgr k2 /\ k = k2) -> queue_at st' b k = queue_at st b k) ->
    returns (K st') P) ->
  returns (st ← put_queue (with_waits st h) mgr k1 q1; st ← put_queue st mgr k2 q2;
           st ← remove_if_empty st mgr k1 q1; st ← remove_if_empty st mgr k2 q2; K st) P.
Proof.
  intros Hm Hk Hr1 Hr2 HK. eapply returns_bind; [by apply put_stored |]. intros st1 [W1 Q1 O1 D1].
  assert (Hm1 : mgr_ok st1 mgr) by (by eapply mgr_ok_quiet). rewrite <- (with_waits_id st1).
  eapply returns_bind; [by apply put_stored |]. intros st2 [W2 Q2 O2 D2].
  assert (Hm2 : mgr_ok st2 mgr) by (by eapply mgr_ok_quiet).
  assert (N1 : ~ (bucket_of mgr k1 = bucket_of mgr k2 /\ k1 = k2)) by naive_solver.
  eapply returns_bind; [eapply remove_if_empty_ok; [done | by rewrite O2 | exact Hr1] |]. intros st3 [S3 L3].
  eapply returns_bind; [eapply remove_if_empty_ok; [by rewrite <- S3 | by rewrite (sm_queues _ _ S3) | exact Hr2] |]. intros st4 [S4 L4].
  apply HK.
  - by rewrite (sm_waits _ _ S4), (sm_waits _ _ S3), W2.
  - split; intros b; [rewrite L4, L3, (proj1 D2); apply D1 | rewrite (sm_dom _ _ S4), (sm_dom _ _ S3), (proj2 D2); apply D1].
  - by rewrite (sm_queues _ _ S4), (sm_queues _ _ S3), O2.
  - by rewrite (sm_queues _ _ S4), (sm_queues _ _ S3).
  - intros b k N N'. rewrite (sm_queues _ _ S4), (sm_queues _ _ S3), O2, O1; done.
Qed.

Lemma updQ_disj_other Q b1 k1 l b2 k2 : k1 <> k2 -> updQ Q b1 k1 l b2 k2 = Q b2 k2.
Proof. intros Hk. apply updQ_ne. naive_solver. Qed.

Lemma requeued_updQ Q b1 k1 b2 k2 R j b k :
  k1 <> k2 -> requeued (updQ Q b1 k1 R) b1 k1 b2 k2 R j b k = requeued Q b1 k1 b2 k2 R j b k.
Proof. intros Hk. unfold requeued. rewrite (updQ_disj_other Q b1 k1 R b2 k2) by done. unfold updQ. by repeat case_decide. Qed.

(** Waking on one key and requeueing on the other, with both locked. *)
Lemma requeue_core {A} st mgr Q k1 k2 q1 q2 nwake nreq wk sk rest (K : FState -> Z -> outcome A) P :
  futex_inv st Q -> mgr_ok st mgr -> k1 <> k2 ->
  q1 = queue_at st (bucket_of mgr k1) k1 -> q2 = queue_at st (bucket_of mgr k2) k2 ->
  wake_walk (answers (waits st) U64_MAX) (Z.to_nat nwake) (Q (bucket_of mgr k1) k1) = (wk, sk, rest) ->
  (forall st' h, quiet st st' ->
    futex_inv st' (requeued Q (bucket_of mgr k1) k1 (bucket_of mgr k2) k2 (sk ++ rest) (Z.to_nat nreq)) ->
    effect (Q (bucket_of mgr k1) k1) (wk ++ sk) Key_default (omap (slot (waits st)) wk) (waits st) h ->
    effect ((sk ++ rest) ++ Q (bucket_of mgr k2) k2) (take (Z.to_nat nreq) (sk ++ rest)) k2 [] h (waits st') ->
    returns (K st' (Z.of_nat (length wk))) P) ->
  returns ('(h, q1, done) ← WakeLocked (waits st) q1 U64_MAX nwake;
           '(h, q1, q2, _) ← RequeueLocked h q1 q2 k2 nreq;
           st ← put_queue (with_waits st h) mgr k1 q1; st ← put_queue st mgr k2 q2;
           st ← remove_if_empty st mgr k1 q1; st ← remove_if_empty st mgr k2 q2; K st done) P.
Proof.
  intros Hi Hm Hk E1 E2 Hw HK. set (b1 := bucket_of mgr k1) in *. set (b2 := bucket_of mgr k2) in *.
  pose proof (fi_rep _ _ Hi b1 k1) as Hr1. pose proof (fi_rep _ _ Hi b2 k2) as Hr2. rewrite <- E1 in Hr1. rewrite <- E2 in Hr2.
  eapply returns_bind; [eapply WakeLocked_rep; [exact Hr1 | apply (fi_ok _ _ Hi) | by apply (fi_threads_at st) | exact Hw] |].
  intros [[h q1'] d] (-> & Hr1' & Hu & Ef). simpl.
  destruct (put_stored st mgr k1 h q1' Hm) as (stV & _ & SV). fold b1 in SV.
  assert (HiV : futex_inv stV (updQ Q b1 k1 (sk ++ rest))) by (eapply inv_woken; [exact Hi | exact SV | exact Hw | exact Ef | done | done]).
  pose proof (st_waits _ _ _ _ _ _ SV) as WV. pose proof (inv_Q_disj _ _ b1 k1 b2 k2 HiV Hk) as Hd.
  rewrite updQ_eq, updQ_disj_other in Hd by done.
  assert (Hr2' : wl_rep h q2 (Q b2 k2)).
  { rewrite E2, <- WV. replace (queue_at st b2 k2) with (queue_at stV b2 k2) by (apply SV; naive_solver).
    rewrite <- (updQ_disj_other Q b1 k1 (sk ++ rest) b2 k2 Hk). apply HiV. }
  eapply returns_bind; [eapply (RequeueLocked_rep h q1' q2 k2 nreq); [done | done | exact Hd |] |].
  { pose proof (fi_threads_at stV _ b1 k1 HiV) as H. rewrite updQ_eq, WV in H. exact H. }
  intros [[[h2 q1''] q2''] d'] (_ & Hr1'' & Hr2'' & Ef2). simpl.
  eapply store_two; [done | done | exact Hr1'' | exact Hr2'' |]. fold b1 b2. intros st' W' D' E1' E2' O'.
  apply (HK st' h); [done | | done | by rewrite W'].
  eapply inv_ext; [intros b k; symmetry; by apply requeued_updQ |].
  pose proof (inv_requeued stV st' _ b1 k1 b2 k2 (Z.to_nat nreq) q1'' q2'' h2 Hk HiV W') as HR.
  rewrite updQ_eq, (updQ_disj_other Q b1 k1 _ b2 k2 Hk) in HR. apply HR; try done.
  - intros b k N1 N2. rewrite O', (st_queues _ _ _ _ _ _ SV) by done. done.
  - by rewrite WV.
Qed.

Lemma doRequeue_ok st mgr (m : M) addr naddr pr checkval val nwake nreq Q k1 k2 wk sk rest :
  futex_inv st Q -> mgr_ok st mgr -> Getkey m addr pr = Ok k1 -> Getkey m naddr pr = Ok k2 -> k1 <> k2 ->
  HashCode k1 ∉ locks_of st (bucket_of mgr k1) -> HashCode k2 ∉ locks_of st (bucket_of mgr k2) ->
  wake_walk (answers (waits st) U64_MAX) (Z.to_nat nwake) (Q (bucket_of mgr k1) k1) = (wk, sk, rest) ->
  returns (doRequeue st mgr m addr naddr pr checkval val nwake nreq) (fun '(st', m', r) => quiet st st' /\
    match if checkval then Check m addr val else (m, Ok tt) with
    | (m1, inl e) => m' = m1 /\ r = Err e /\ futex_inv st' Q /\ waits st' = waits st
    | (m1, inr _) => m' = m1 /\ r = Ok (Z.of_nat (length wk)) /\
        futex_inv st' (requeued Q (bucket_of mgr k1) k1 (bucket_of mgr k2) k2 (sk ++ rest) (Z.to_nat nreq)) /\
        exists h, effect (Q (bucket_of mgr k1) k1) (wk ++ sk) Key_default (omap (slot (waits st)) wk) (waits st) h /\
          effect ((sk ++ rest) ++ Q (bucket_of mgr k2) k2) (take (Z.to_nat nreq) (sk ++ rest)) k2 [] h (waits st')
    end).
Proof.
  intros Hi Hm Hk1 Hk2 Hk Hl1 Hl2 Hw. unfold doRequeue. rewrite Hk1, Hk2.
  eapply returns_bind; [by apply lockQueues_ok |]. intros [[st1 q1] q2] (S1 & E1 & E2 & B1). simpl.
  assert (Hi1 : futex_inv st1 Q) by (by rewrite <- S1). assert (Hm1 : mgr_ok st1 mgr) by (by rewrite <- S1).
  destruct (if checkval then Check m addr val else (m, Ok tt)) as [m1 c]. destruct c as [e | []].
  - eapply unlock2_bind; [done | exact B1 |]. intros st2 S2 L2. apply returns_ret. split_and!; [| done | done | by rewrite <- S2 |].
    + split; [done |]. intros b. by rewrite (sm_dom _ _ S2), (sm_dom _ _ S1).
    + by rewrite (sm_waits _ _ S2), (sm_waits _ _ S1).
  - rewrite <- (sm_waits _ _ S1) in Hw.
    eapply requeue_core; [exact Hi1 | done | done | by rewrite (sm_queues _ _ S1) | by rewrite (sm_queues _ _ S1) | exact Hw |].
    rewrite (sm_waits _ _ S1). intros st2 h D2 Hi2 Ef1 Ef2.
    eapply (unlock2_bind st); [by eapply mgr_ok_quiet | eapply both_locked_ext; [apply D2 | exact B1] |].
    intros st3 S3 L3. apply returns_ret. split_and!; [| done | done | by rewrite <- S3 |].
    + split; [done |]. intros b. rewrite (sm_dom _ _ S3), (proj2 D2). apply (sm_dom _ _ S1).
    + exists h. by rewrite (sm_waits _ _ S3).
Qed.

(** Waking one queue and storing it. *)
Lemma wake_store {A} st mgr Q k q mask n wk sk rest (K : FState -> Z -> outcome A) P :
  futex_inv st Q -> mgr_ok st mgr -> q = queue_at st (bucket_of mgr k) k ->
  wake_walk (answers (waits st) mask) (Z.to_nat n) (Q (bucket_of mgr k) k) = (wk, sk, rest) ->
  (forall st', quiet st st' -> futex_inv st' (updQ Q (bucket_of mgr k) k (sk ++ rest)) ->
    (forall b' k', ~ (b' = bucket_of mgr k /\ k' = k) -> queue_at st' b' k' = queue_at st b' k') ->
    effect (Q (bucket_of mgr k) k) (wk ++ sk) Key_default (omap (slot (waits st)) wk) (waits st) (waits st') ->
    returns (K st' (Z.of_nat (length wk))) P) ->
  returns ('(h, q, done) ← WakeLocked (waits st) q mask n; st ← put_queue (with_waits st h) mgr k q; K st done) P.
Proof.
  intros Hi Hm Eq Hw HK. pose proof (fi_rep _ _ Hi (bucket_of mgr k) k) as Hr. rewrite <- Eq in Hr.
  eapply returns_bind; [eapply WakeLocked_rep; [exact Hr | apply (fi_ok _ _ Hi) | by apply (fi_threads_at st) | exact Hw] |].
  intros [[h q'] d] (-> & Hr' & Hu & Ef). simpl. eapply returns_bind; [by apply put_stored |]. intros st' S'.
  apply HK; [apply S' | | apply S' | by rewrite (st_waits _ _ _ _ _ _ S')].
  eapply inv_woken; [exact Hi | exact S' | exact Hw | exact Ef | done | done].
Qed.

(** [WakeOp], once the operation on memory has returned. *)
Lemma WakeOp_ok fuel st mgr (m m' : M) addr1 addr2 pr n1 n2 op Q k1 k2 c wk1 sk1 rest1 wk2 sk2 rest2 :
  futex_inv st Q -> mgr_ok st mgr -> Getkey m addr1 pr = Ok k1 -> Getkey m addr2 pr = Ok k2 -> k1 <> k2 ->
  HashCode k1 ∉ locks_of st (bucket_of mgr k1) -> HashCode k2 ∉ locks_of st (bucket_of mgr k2) ->
  AtomicOp fuel m addr2 op = Ret (m', c) ->
  wake_walk (answers (waits st) U64_MAX) (Z.to_nat n1) (Q (bucket_of mgr k1) k1) = (wk1, sk1, rest1) ->
  wake_walk (answers (waits st) U64_MAX) (Z.to_nat n2) (Q (bucket_of mgr k2) k2) = (wk2, sk2, rest2) ->
  let Q1 := updQ Q (bucket_of mgr k1) k1 (sk1 ++ rest1) in
  returns (WakeOp fuel st mgr m addr1 addr2 pr n1 n2 op) (fun '(st', m2, r) => m2 = m' /\ quiet st st' /\
    match c with
    | inl e => r = Err e /\ futex_inv st' Q /\ waits st' = waits st
    | inr true => r = Ok (to_i32 (Z.of_nat (length wk1) + Z.of_nat (length wk2))) /\
        futex_inv st' (updQ Q1 (bucket_of mgr k2) k2 (sk2 ++ rest2)) /\
        effect (Q (bucket_of mgr k1) k1 ++ Q (bucket_of mgr k2) k2) ((wk1 ++ sk1) ++ (wk2 ++ sk2)) Key_default
          (omap (slot (waits st)) (wk1 ++ wk2)) (waits st) (waits st')
    | inr false => r = Ok (Z.of_nat (length wk1)) /\ futex_inv st' Q1 /\
        effect (Q (bucket_of mgr k1) k1) (wk1 ++ sk1) Key_default (omap (slot (waits st)) wk1) (waits st) (waits st')
    end).
Proof.
  intros Hi Hm Hk1 Hk2 Hk Hl1 Hl2 Ha Hw1 Hw2 Q1. unfold WakeOp. rewrite Hk1, Hk2.
  eapply returns_bind; [by apply lockQueues_ok |]. intros [[st1 q1] q2] (S1 & E1 & E2 & B1). cbv beta iota.
  assert (Hi1 : futex_inv st1 Q) by (by rewrite <- S1). assert (Hm1 : mgr_ok st1 mgr) by (by rewrite <- S1).
  rewrite Ha, bind_ret. destruct c as [e | cond].
  { eapply unlock2_bind; [done | exact B1 |]. intros st2 S2 L2. apply returns_ret. split_and!; [done | | done | by rewrite <- S2 |].
    - split; [done |]. intros b. by rewrite (sm_dom _ _ S2), (sm_dom _ _ S1).
    - by rewrite (sm_waits _ _ S2), (sm_waits _ _ S1). }
  rewrite <- (sm_waits _ _ S1) in Hw1, Hw2.
  eapply wake_store; [exact Hi1 | done | by rewrite (sm_queues _ _ S1) | exact Hw1 |]. rewrite (sm_waits _ _ S1).
  intros st2 D2 Hi2 O2 Ef1. fold Q1 in Hi2.
  assert (Hm2 : mgr_ok st2 mgr) by (by eapply mgr_ok_quiet).
  assert (Hend : forall st3 st4, quiet st2 st3 -> same st3 st4 -> (forall b, locks_of st4 b = locks_of st b) -> quiet st st4).
  { intros st3 st4 D3 S4 L4. split; [done |]. intros b. rewrite (sm_dom _ _ S4), (proj2 D3), (proj2 D2). apply (sm_dom _ _ S1). }
  destruct cond.
  - assert (Eq2 : Q1 (bucket_of mgr k2) k2 = Q (bucket_of mgr k2) k2) by (by apply updQ_disj_other).
    set (P := fun '((st', d) : FState * Z) => quiet st2 st' /\ d = to_i32 (Z.of_nat (length wk1) + Z.of_nat (length wk2)) /\
      futex_inv st' (updQ Q1 (bucket_of mgr k2) k2 (sk2 ++ rest2)) /\
      effect (Q (bucket_of mgr k2) k2) (wk2 ++ sk2) Key_default (omap (slot (waits st2)) wk2) (waits st2) (waits st')).
    apply (returns_bind _ _ P); unfold P.
    + eapply wake_store; [exact Hi2 | done | | rewrite Eq2, <- Hw2; apply wake_walk_ext; intros x _; rewrite (sm_waits _ _ S1); by eapply effect_answers |].
      { rewrite O2 by naive_solver. by rewrite (sm_queues _ _ S1). }
      rewrite Eq2. intros st3 D3 Hi3 _ Ef3. by apply returns_ret.
    + intros [st3 d] (D3 & -> & Hi3 & Ef3). cbv beta iota.
      eapply (unlock2_bind st); [by eapply mgr_ok_quiet | eapply both_locked_ext; [| exact B1]; intros b; rewrite (proj1 D3); apply D2 |].
      intros st4 S4 L4. apply returns_ret. split_and!; [done | by eapply Hend | done | by rewrite <- S4 |].
      rewrite (sm_waits _ _ S4). rewrite (effect_slots _ _ _ _ _ _ _ Ef1) in Ef3.
      apply (effect_seq _ (wk1 ++ sk1) (wk2 ++ sk2) _ _ (omap (slot (waits st)) wk1) (omap (slot (waits st)) wk2) _ _ (waits st2));
        [eapply effect_mono; [| exact Ef1]; set_solver | eapply effect_mono; [| exact Ef3]; set_solver | intros x; apply elem_of_app | apply omap_app].
  - cbv beta iota. eapply (unlock2_bind st); [done | eapply both_locked_ext; [apply D2 | exact B1] |].
    intros st4 S4 L4. apply returns_ret. split_and!; [done | by eapply Hend | done | by rewrite <- S4 | by rewrite (sm_waits _ _ S4)].
Qed.
End Pairs.
