(* ===== verification/FutexMem.v ===== *)
(** User memory seen through the trait [Target], and the operations on futex words.

    [TargetLaws] states what the futex code relies on: every access is one atomic step, and
    before it other threads may have changed the memory, [env], finitely often ([pending]).
    [UserMem] is an instance, memory with a list of writes other threads are going to make. *)
From S2P Require Import Prelude WaitList Futex.

#[local] Open Scope Z_scope.

Definition u32 (z : Z) : Prop := 0 <= z < 2 ^ 32.

Class TargetLaws (M : Type) `{!Target M} : Type := {
  peek : M -> Z -> Result Z;
  poke : M -> Z -> Z -> M;
  env : M -> M;
  pending : M -> nat;
  law_load m a : LoadU32 m a = (env m, peek (env m) a);
  law_swap m a v : SwapU32 m a v =
    match peek (env m) a with inr old => (poke (env m) a v, Ok old) | inl e => (env m, Err e) end;
  law_cas m a o v : CompareAndSwapU32 m a o v =
    match peek (env m) a with
    | inr old => (if old =? o then poke (env m) a v else env m, Ok old)
    | inl e => (env m, Err e)
    end;
  law_env m : env m = m \/ (pending (env m) < pending m)%nat;
  law_peek m a v : peek m a = Ok v -> u32 v;
  law_poke_eq m a v o : peek m a = Ok o -> u32 v -> peek (poke m a v) a = Ok v;
  law_poke_ne m a v a' : a' <> a -> peek (poke m a v) a' = peek m a';
  law_poke_pending m a v : pending (poke m a v) = pending m;
  law_key m a k : GetSharedKey m a = Ok k -> Kind k <> KindPrivate }.

(** Memory some accesses later, if the thread itself writes nothing. *)
Inductive later {M} `{TargetLaws M} : M -> M -> Prop :=
| later_refl m : later m m
| later_env m m' : later (env m) m' -> later m m'.

Lemma later_trans {M} `{TargetLaws M} (m1 m2 m3 : M) : later m1 m2 -> later m2 m3 -> later m1 m3.
Proof. induction 1; [done |]. intros. apply later_env. auto. Qed.

Lemma later_quiet {M} `{TargetLaws M} (m m1 : M) : pending m = 0%nat -> later m m1 -> m1 = m.
Proof.
  intros H0 Hl. induction Hl as [| m m' _ IH]; [done |]. destruct (law_env m) as [E | ?]; [| lia]. rewrite E in IH. auto.
Qed.

(** * An instance *)

Record UserMem : Type := mkMem {
  cells : gmap Z Z;
  mappable : gmap Z Z;
  others : list (list (Z * Z)) }.

Definition um_write (c : gmap Z Z) (w : Z * Z) : gmap Z Z := alter (fun _ => w.2 mod 2 ^ 32) w.1 c.

Definition um_env (m : UserMem) : UserMem :=
  match others m with
  | [] => m
  | ws :: os => mkMem (foldl um_write (cells m) ws) (mappable m) os
  end.

Definition um_peek (m : UserMem) (a : Z) : Result Z :=
  match cells m !! a with Some v => Ok (v mod 2 ^ 32) | None => Err (SysError EFAULT) end.

Definition um_poke (m : UserMem) (a v : Z) : UserMem := mkMem (um_write (cells m) (a, v)) (mappable m) (others m).

#[global] Instance um_target : Target UserMem := {
  LoadU32 m a := (um_env m, um_peek (um_env m) a);
  SwapU32 m a v := match um_peek (um_env m) a with inr old => (um_poke (um_env m) a v, Ok old) | inl e => (um_env m, Err e) end;
  CompareAndSwapU32 m a o v :=
    match um_peek (um_env m) a with
    | inr old => (if old =? o then um_poke (um_env m) a v else um_env m, Ok old)
    | inl e => (um_env m, Err e)
    end;
  GetSharedKey m a :=
    match mappable m !! a with Some p => Ok (mkKey KindSharedMappable p) | None => Ok (mkKey KindSharedPrivate a) end }.

#[global] Program Instance um_laws : TargetLaws UserMem := {
  peek := um_peek;
  poke := um_poke;
  env := um_env;
  pending m := length (others m) }.
Next Obligation. done. Qed.
Next Obligation. done. Qed.
Next Obligation. done. Qed.
Next Obligation. intros m. unfold um_env. destruct (others m) as [| w os] eqn:E; [by left | right]. simpl. lia. Qed.
Next Obligation. intros m a v. unfold um_peek. destruct (cells m !! a); [| done]. intros [= <-]. apply Z.mod_pos_bound. done. Qed.
Next Obligation.
  intros m a v o. unfold um_peek, um_poke, um_write. simpl. destruct (cells m !! a) eqn:E; [| done]. intros _ Hv.
  rewrite lookup_alter_eq, E. simpl. rewrite Zmod_mod. by rewrite Z.mod_small.
Qed.
Next Obligation. intros m a v a' N. unfold um_peek, um_poke, um_write. simpl. by rewrite lookup_alter_ne. Qed.
Next Obligation. done. Qed.
Next Obligation. intros m a k. simpl. destruct (mappable m !! a); by intros [= <-]. Qed.

(** * Operations on a futex word *)

(** The reference: what futex(2) says of the operations and comparisons of [FUTEX_WAKE_OP],
    and of the word that encodes them. *)
Definition futex_op (o old arg : Z) : option Z :=
  match o with
  | 0 => Some arg
  | 1 => Some ((old + arg) mod 2 ^ 32)
  | 2 => Some (Z.lor old arg)
  | 3 => Some (Z.ldiff old arg)
  | 4 => Some (Z.lxor old arg)
  | _ => None
  end.

Definition futex_cmp (c old arg : Z) : option bool :=
  match c with
  | 0 => Some (old =? arg)
  | 1 => Some (negb (old =? arg))
  | 2 => Some (old <? arg)
  | 3 => Some (old <=? arg)
  | 4 => Some (arg <? old)
  | 5 => Some (arg <=? old)
  | _ => None
  end.

Definition op_word (op cmp oparg cmparg : Z) : Z := op * 2 ^ 28 + cmp * 2 ^ 24 + oparg * 2 ^ 12 + cmparg.
Definition op_arg (op oparg : Z) : Z := if 8 <=? op then 2 ^ (oparg mod 32) else oparg.

Lemma op_word_fields op cmp oparg cmparg :
  0 <= op < 16 -> 0 <= cmp < 16 -> 0 <= oparg < 4096 -> 0 <= cmparg < 4096 ->
  let w := op_word op cmp oparg cmparg in
  Z.land (Z.shiftr w 28) 15 = op /\ Z.land (Z.shiftr w 24) 15 = cmp /\ Z.land (Z.shiftr w 12) 4095 = oparg /\ Z.land w 4095 = cmparg.
Proof.
  intros H1 H2 H3 H4 w. change 15 with (Z.ones 4). change 4095 with (Z.ones 12).
  rewrite !Z.land_ones, !Z.shiftr_div_pow2 by lia. unfold w, op_word.
  change (2 ^ 28) with 268435456. change (2 ^ 24) with 16777216. change (2 ^ 12) with 4096. change (2 ^ 4) with 16.
  split_and!; Z.to_euclidean_division_equations; lia.
Qed.

Lemma op_shift op : 0 <= op < 16 ->
  negb (Z.land op FUTEX_OP_OPARG_SHIFT =? 0) = (8 <=? op) /\ Z.ldiff op FUTEX_OP_OPARG_SHIFT = op mod 8 /\ (op < 8 -> op = op mod 8).
Proof.
  intros H. assert (Hc : op = 0 \/ op = 1 \/ op = 2 \/ op = 3 \/ op = 4 \/ op = 5 \/ op = 6 \/ op = 7 \/ op = 8 \/ op = 9 \/
    op = 10 \/ op = 11 \/ op = 12 \/ op = 13 \/ op = 14 \/ op = 15) by lia.
  repeat destruct Hc as [-> | Hc]; [.. | subst op]; (split_and!; [done | done | by intros]).
Qed.

Lemma AtomicOp_new_ref o old arg : o <> 0 -> AtomicOp_new o old arg = futex_op o old arg.
Proof.
  intros H. unfold AtomicOp_new, futex_op.
  destruct (Z.eqb_spec o 1) as [-> |]; [done |]. destruct (Z.eqb_spec o 2) as [-> |]; [done |].
  destruct (Z.eqb_spec o 3) as [-> |]; [done |]. destruct (Z.eqb_spec o 4) as [-> |]; [done |].
  destruct o as [| p | p]; [done | | done]. by repeat (destruct p as [p | p |]; try done).
Qed.

Section Word.
Context {M : Type} `{TargetLaws M}.

Lemma pending_env (m : M) : (pending (env m) <= pending m)%nat.
Proof. destruct (law_env m) as [-> |]; lia. Qed.

Lemma later_1 (m : M) : later m (env m).
Proof. apply later_env, later_refl. Qed.

(** The operation happens at one point in time. *)
Definition op_at (m : M) (addr o arg : Z) (m' : M) (r : Result Z) : Prop :=
  exists m1, later m m1 /\
    match peek m1 addr with
    | inl e => m' = m1 /\ r = Err e
    | inr old => match futex_op o old arg with
                 | None => m' = m1 /\ r = Err (SysError ENOSYS)
                 | Some v => m' = poke m1 addr v /\ r = Ok old
                 end
    end.

Lemma AtomicOp_loop_at fuel (m : M) addr o arg :
  o <> 0 -> (pending m < fuel)%nat -> returns (AtomicOp_loop fuel m addr o arg) (fun '(m', r) => op_at m addr o arg m' r).
Proof.
  intros Ho. revert m. induction fuel as [| fuel IH]; intros m Hf; [lia |]. simpl. rewrite law_load.
  destruct (peek (env m) addr) as [e | old] eqn:E1.
  { apply returns_ret. exists (env m). rewrite E1. auto using later_1. }
  rewrite AtomicOp_new_ref by done. destruct (futex_op o old arg) as [v |] eqn:Ev.
  2: { apply returns_ret. exists (env m). rewrite E1, Ev. auto using later_1. }
  rewrite law_cas. assert (Hl : later m (env (env m))) by (do 2 apply later_env; apply later_refl).
  destruct (peek (env (env m)) addr) as [e | old2] eqn:E2.
  { apply returns_ret. exists (env (env m)). by rewrite E2. }
  destruct (Z.eqb_spec old2 old) as [-> | N].
  { apply returns_ret. exists (env (env m)). by rewrite E2, Ev. }
  assert (Hp : (pending (env (env m)) < fuel)%nat).
  { pose proof (pending_env m). destruct (law_env (env m)) as [Ee | ?]; [| lia]. rewrite Ee in E2. congruence. }
  eapply returns_mono; [by apply IH |]. intros [m' r] (m1 & Hm1 & Hr). exists m1. split; [by eapply later_trans | done].
Qed.

Lemma AtomicOp_at fuel (m : M) addr op cmp oparg cmparg :
  0 <= op < 16 -> 0 <= cmp < 16 -> 0 <= oparg < 4096 -> 0 <= cmparg < 4096 -> (pending m < fuel)%nat ->
  returns (AtomicOp fuel m addr (op_word op cmp oparg cmparg)) (fun '(m', r) => exists r0,
    op_at m addr (op mod 8) (op_arg op oparg) m' r0 /\
    r = match r0 with inl e => Err e | inr old => AtomicOp_cmp cmp old cmparg end).
Proof.
  intros H1 H2 H3 H4 Hf. unfold AtomicOp. destruct (op_word_fields op cmp oparg cmparg H1 H2 H3 H4) as (-> & -> & -> & ->).
  destruct (op_shift op H1) as (-> & -> & Hs).
  assert (E : (if 8 <=? op then (op mod 8, Z.shiftl 1 (oparg mod 32)) else (op, oparg)) = (op mod 8, op_arg op oparg)).
  { unfold op_arg. destruct (Z.leb_spec 8 op); [by rewrite Z.shiftl_1_l | by rewrite <- Hs]. }
  rewrite E. cbv beta iota. apply (returns_bind _ _ (fun '(m', r) => op_at m addr (op mod 8) (op_arg op oparg) m' r)).
  - destruct (Z.eqb_spec (op mod 8) 0) as [E0 | N0]; [| by apply AtomicOp_loop_at]. apply returns_ret. rewrite law_swap.
    destruct (peek (env m) addr) as [e | old] eqn:Ep; exists (env m); (split; [apply later_1 | by rewrite Ep, ?E0]).
  - intros [m' r0] Hr. apply returns_ret. by exists r0.
Qed.
End Word.

(** * Priority-inheritance futexes

    The word of such a futex has the owner's thread number, a bit that says there are
    waiters and a bit that says the owner died. *)
Inductive pi_outcome : Set := PiErr (e : Error) | PiTaken | PiBusy | PiQueued.

Section Pi.
Context {M : Type} `{TargetLaws M}.

(** The reference for [lockPILocked]: one atomic step on the word. *)
Definition pi_step (m : M) (addr tid : Z) (tryit : bool) : M * pi_outcome :=
  match peek m addr with
  | inl e => (m, PiErr e)
  | inr cur =>
    let owner := Z.land cur FUTEX_TID_MASK in
    if owner =? tid then (m, PiErr (SysError EDEADLK))
    else if owner =? 0 then (poke m addr (Z.lor tid (Z.land cur FUTEX_OWNER_DIED)), PiTaken)
    else if tryit then (m, PiBusy)
    else (if Z.land cur FUTEX_WAITERS =? 0 then poke m addr (Z.lor cur FUTEX_WAITERS) else m, PiQueued)
  end.

Lemma lockPILocked_at fuel h (m : M) w addr tid q tryit :
  (pending m < fuel)%nat ->
  exists m1, later m m1 /\ lockPILocked fuel h m w addr tid q tryit =
    match pi_step m1 addr tid tryit with
    | (m', PiErr e) => Ret (h, q, m', Err e)
    | (m', PiTaken) => Ret (h, q, m', Ok true)
    | (m', PiBusy) => Ret (h, q, m', Ok false)
    | (m', PiQueued) => '(h, q) ← PushBack h q w; Ret (h, q, m', Ok false)
    end.
Proof.
  revert m. induction fuel as [| fuel IH]; intros m Hf; [lia |]. simpl. rewrite law_load. unfold pi_step.
  destruct (peek (env m) addr) as [e | cur] eqn:E1; [exists (env m); rewrite E1; auto using later_1 |].
  assert (Hl : later m (env (env m))) by (do 2 apply later_env; apply later_refl).
  assert (Hretry : forall cur2, peek (env (env m)) addr = Ok cur2 -> cur2 <> cur -> exists m1, later m m1 /\
    lockPILocked fuel h (env (env m)) w addr tid q tryit = match pi_step m1 addr tid tryit with
    | (m', PiErr e) => Ret (h, q, m', Err e) | (m', PiTaken) => Ret (h, q, m', Ok true) | (m', PiBusy) => Ret (h, q, m', Ok false)
    | (m', PiQueued) => '(h, q) ← PushBack h q w; Ret (h, q, m', Ok false) end).
  { intros cur2 E2 N. destruct (IH (env (env m))) as (m1 & Hm1 & Hr).
    - pose proof (pending_env m). destruct (law_env (env m)) as [Ee | ?]; [| lia]. rewrite Ee in E2. congruence.
    - exists m1. split; [by eapply later_trans | done]. }
  destruct (Z.land cur FUTEX_TID_MASK =? tid) eqn:Eo; [exists (env m); rewrite E1, Eo; auto using later_1 |].
  destruct (Z.land cur FUTEX_TID_MASK =? 0) eqn:Ez.
  { rewrite law_cas. destruct (peek (env (env m)) addr) as [e | cur2] eqn:E2; [exists (env (env m)); by rewrite E2 |].
    destruct (Z.eqb_spec cur2 cur) as [-> | N]; cbn [negb]; [| by eapply Hretry].
    exists (env (env m)). by rewrite E2, Eo, Ez. }
  destruct tryit; [exists (env m); rewrite E1, Eo, Ez; auto using later_1 |].
  destruct (Z.land cur FUTEX_WAITERS =? 0) eqn:Ew; [| exists (env m); rewrite E1, Eo, Ez, Ew; auto using later_1].
  rewrite law_cas. destruct (peek (env (env m)) addr) as [e | cur2] eqn:E2; [exists (env (env m)); by rewrite E2 |].
  destruct (Z.eqb_spec cur2 cur) as [-> | N]; cbn [negb]; [| by eapply Hretry].
  exists (env (env m)). by rewrite E2, Eo, Ez, Ew.
Qed.

(** The reference for [unlockPILocked]; [nw] is the word for the next owner, if there is one. *)
Definition pi_release (m : M) (addr tid : Z) (nw : option Z) : M * Result unit :=
  match peek (env m) addr with
  | inl e => (env m, Err e)
  | inr cur =>
    if negb (Z.land cur FUTEX_TID_MASK =? tid) then (env m, Err (SysError EPERM))
    else
      match peek (env (env m)) addr with
      | inl e => (env (env m), Err e)
      | inr cur2 =>
        if cur2 =? cur then (poke (env (env m)) addr (default 0 nw), Ok tt)
        else (env (env m), Err (SysError (if nw is Some _ then EINVAL else EAGAIN)))
      end
  end.
End Pi.
