(* ===== verification/FutexPi.v ===== *)
(** [LockPI] and [UnlockPI] on the lists of [FutexThm.v] and the words of [FutexMem.v]. *)
From S2P Require Import Prelude WaitList WaitListThm WaitListOps Futex FutexThm FutexOps FutexMem.

#[local] Open Scope Z_scope.

Section Pi.
Context {M : Type} `{TargetLaws M}.

(** Storing the queue of [k] and unlocking it. *)
Lemma close_ok {A} st0 st mgr Q k h q l' X K kk L (C : FState -> outcome A) P :
  futex_inv st Q -> mgr_ok st mgr -> HashCode k ∉ locks_of st0 (bucket_of mgr k) ->
  (forall b', locks_of st b' = add_lock (bucket_of mgr k) (HashCode k) (locks_of st0) b') ->
  (forall b', is_Some (buckets st !! b') <-> is_Some (buckets st0 !! b')) ->
  effect X K kk L (waits st) h -> wl_rep h q l' -> Q (bucket_of mgr k) k ⊆ X -> l' ⊆ X ->
  (forall e, e ∈ X -> e ∈ Q (bucket_of mgr k) k \/ forall b k, e ∉ Q b k) -> (forall e, e ∈ X -> e ∉ l' -> unlinked h e) ->
  (forall st', waits st' = h -> quiet st0 st' -> futex_inv st' (updQ Q (bucket_of mgr k) k l') -> returns (C st') P) ->
  returns (st ← put_queue (with_waits st h) mgr k q; st ← unlock st mgr k; C st) P.
Proof.
  intros Hi Hm Hl HL HD Ef Hr H1 H2 H3 H4 HC. eapply returns_bind; [by apply put_stored |]. intros st1 S1.
  eapply returns_bind; [apply (unlock_ok st0); [eapply mgr_ok_quiet; [apply S1 | done] | done |] |].
  { intros b'. rewrite (proj1 (st_quiet _ _ _ _ _ _ S1)). apply HL. }
  intros st2 [S2 L2]. apply HC.
  - by rewrite (sm_waits _ _ S2), (st_waits _ _ _ _ _ _ S1).
  - split; [done |]. intros b'. rewrite (sm_dom _ _ S2), (proj2 (st_quiet _ _ _ _ _ _ S1)). apply HD.
  - rewrite <- S2. eapply inv_stored; [exact Hi | exact S1 | exact Ef | exact Hr | done | done | done | done].
Qed.

Lemma LockPI_ok fuel st mgr (m : M) w addr tid pr tryit Q k s c b :
  futex_inv st Q -> mgr_ok st mgr -> Getkey m addr pr = Ok k -> HashCode k ∉ locks_of st (bucket_of mgr k) ->
  (forall b k, w ∉ Q b k) -> entries (waits st) !! w = Some s -> context s = WC_Thread c -> waiters (waits st) !! waiter c = Some b ->
  (pending m < fuel)%nat ->
  returns (LockPI fuel st mgr m w addr tid pr tryit) (fun '(st', m', r) => quiet st st' /\
    effect (w :: Q (bucket_of mgr k) k) [] k [] (prepared (waits st) w s c b U64_MAX tid k) (waits st') /\
    exists m1 o, later m m1 /\ pi_step m1 addr tid tryit = (m', o) /\
      r = match o with PiErr e => Err e | PiTaken => Ok true | PiBusy | PiQueued => Ok false end /\
      futex_inv st' (match o with PiQueued => updQ Q (bucket_of mgr k) k (Q (bucket_of mgr k) k ++ [w]) | _ => Q end)).
Proof.
  intros Hi Hm Hk Hl Hw Hs Hc Hb Hf. unfold LockPI. rewrite Hk, (prepare_lock _ _ s c b) by done.
  set (h0 := prepared _ _ _ _ _ _ _ _). set (bu := bucket_of mgr k) in *.
  assert (Hi0 : futex_inv (with_waits st h0) Q) by (by apply prepared_inv).
  eapply returns_bind; [by apply lockQueueWithCreate_ok |]. intros [st1 q] (S1 & Eq & L1). fold bu in Eq, L1. cbv beta iota.
  assert (Hi1 : futex_inv st1 Q) by (by rewrite <- S1). assert (Hm1 : mgr_ok st1 mgr) by (by rewrite <- S1).
  pose proof (fi_rep _ _ Hi0 bu k) as Hr. rewrite <- Eq in Hr. rewrite (sm_waits _ _ S1). cbn [waits with_waits] in *.
  destruct (lockPILocked_at fuel h0 m w addr tid q tryit Hf) as (m1 & Hlt & ->).
  destruct (pi_step m1 addr tid tryit) as [m' o] eqn:Eo.
  assert (Hd : forall b', is_Some (buckets st1 !! b') <-> is_Some (buckets st !! b')) by apply (sm_dom _ _ S1).
  assert (Hstay : forall r, r = match o with PiErr e => Err e | PiTaken => Ok true | PiBusy | PiQueued => Ok false end -> o <> PiQueued ->
    returns (st ← put_queue (with_waits st1 h0) mgr k q; st ← unlock st mgr k; Ret (st, m', r)) (fun '(st', m', r) => quiet st st' /\
      effect (w :: Q bu k) [] k [] h0 (waits st') /\ exists m1 o, later m m1 /\ pi_step m1 addr tid tryit = (m', o) /\
      r = match o with PiErr e => Err e | PiTaken => Ok true | PiBusy | PiQueued => Ok false end /\
      futex_inv st' (match o with PiQueued => updQ Q bu k (Q bu k ++ [w]) | _ => Q end))).
  { intros r -> No. eapply (close_ok st st1 mgr Q k h0 q (Q bu k) (Q bu k) [] k []); [done | done | done | done | done | | done | done | done | by left | done |].
    - rewrite (sm_waits _ _ S1). by apply effect_relinked, relinked_refl.
    - intros st' W' D' Hi'. apply returns_ret. split_and!; [done | rewrite W'; by apply effect_relinked, relinked_refl |].
      exists m1, o. split_and!; [done | done | done |]. eapply inv_ext; [| exact Hi'].
      intros b' k'. destruct o; try done; unfold updQ; case_decide as Hd'; try done; by destruct Hd' as [-> ->]. }
  destruct o as [e | | |]; [by apply Hstay | by apply Hstay | by apply Hstay |].
  assert (Hu : unlinked h0 w) by (apply (fi_free _ _ Hi0); [simpl; by rewrite lookup_insert_eq | done]).
  destruct (PushBack_rep h0 q (Q bu k) w Hr (Hw bu k) Hu) as ([h q'] & -> & Hr' & R). rewrite !bind_ret. cbv beta iota.
  pose proof (effect_relinked _ k _ _ R) as Ef.
  eapply (close_ok st st1 mgr Q k h q' (Q bu k ++ [w])); [done | done | done | done | done | rewrite (sm_waits _ _ S1); exact Ef | done | set_solver | set_solver | | set_solver |].
  - intros e [-> | He]%elem_of_cons; [by right | by left].
  - intros st' W' D' Hi'. apply returns_ret. split_and!; [done | by rewrite W' |]. by exists m1, PiQueued.
Qed.

(** The word that hands the futex to the first of [l]. *)
Definition next_word (h : Waits) (l : list positive) : option Z :=
  match l with
  | [] => None
  | e :: rest => (fun c => if rest is [] then tid c else Z.lor (tid c) FUTEX_WAITERS) <$> ctx h e
  end.

(** [unlockPILocked] on a list: the first waiter leaves it if the word was handed over. *)
Lemma unlockPILocked_ok h (m : M) addr tid0 q l :
  wl_rep h q l -> waits_ok h -> threads h l -> (forall e rest, l = e :: rest -> answers h U64_MAX e = true) ->
  returns (unlockPILocked h m addr tid0 q) (fun '(h', q', m', r) => (m', r) = pi_release m addr tid0 (next_word h l) /\
    match r with
    | inl _ => h' = h /\ q' = q
    | inr _ => wl_rep h' q' (drop 1 l) /\ effect l (take 1 l) Key_default (omap (slot h) (take 1 l)) h h' /\ Forall (unlinked h') (take 1 l)
    end).
Proof.
  intros Hr Ho Ht Ha. unfold unlockPILocked, pi_release. rewrite law_load.
  destruct (peek (env m) addr) as [e | cur]; [by apply returns_ret |].
  destruct (Z.land cur FUTEX_TID_MASK =? tid0); cbn [negb]; [| by apply returns_ret].
  rewrite (rep_head _ _ _ Hr). destruct l as [| e rest]; cbn [first_or next_word].
  - rewrite law_cas. destruct (peek (env (env m)) addr) as [er | cur2]; [by apply returns_ret |].
    destruct (Z.eqb_spec cur2 cur) as [-> | N]; cbn [negb]; [| by apply returns_ret].
    apply returns_ret. split_and!; [done | done | by apply effect_relinked, relinked_refl | done].
  - destruct (Ht e ltac:(set_solver)) as [c Hc]. pose proof (rep_seg _ _ _ Hr) as (Hl & _).
    destruct (links_some _ _ _ _ Hl) as (s & Es & _ & Ns). rewrite (get_entry_ok _ _ _ Es), bind_ret.
    assert (Hs : thread_context s = Ret c).
    { unfold ctx in Hc. rewrite Es in Hc. simpl in Hc. unfold thread_context. destruct (context s); congruence. }
    rewrite Hs, bind_ret, Ns, Hc, law_cas. destruct (peek (env (env m)) addr) as [er | cur2]; [by apply returns_ret |].
    destruct (Z.eqb_spec cur2 cur) as [-> | N]; cbn [negb]; [| by apply returns_ret].
    eapply returns_bind; [by apply (WakeWaiterLocked_rep h q [] e rest U64_MAX c) |]. intros [[h' q'] b] (Hb & Hr' & Hu & Ef).
    rewrite (Ha e rest) in Hb by done. subst b. apply returns_ret. split_and!; [by destruct rest | done | | by constructor; auto].
    simpl. unfold slot. by rewrite Hc.
Qed.

Lemma UnlockPI_ok st mgr (m : M) addr tid0 pr Q k :
  futex_inv st Q -> mgr_ok st mgr -> Getkey m addr pr = Ok k -> HashCode k ∉ locks_of st (bucket_of mgr k) ->
  (forall e rest, Q (bucket_of mgr k) k = e :: rest -> answers (waits st) U64_MAX e = true) ->
  let l := Q (bucket_of mgr k) k in
  returns (UnlockPI st mgr m addr tid0 pr) (fun '(st', m', r) => quiet st st' /\
    (m', r) = pi_release m addr tid0 (next_word (waits st) l) /\
    match r with
    | inl _ => waits st' = waits st /\ futex_inv st' Q
    | inr _ => futex_inv st' (updQ Q (bucket_of mgr k) k (drop 1 l)) /\
        effect l (take 1 l) Key_default (omap (slot (waits st)) (take 1 l)) (waits st) (waits st')
    end).
Proof.
  intros Hi Hm Hk Hl Ha l. unfold UnlockPI. rewrite Hk. set (bu := bucket_of mgr k) in *.
  eapply returns_bind; [by apply lockQueueWithCreate_ok |]. intros [st1 q] (S1 & Eq & L1). fold bu in Eq, L1. cbv beta iota.
  assert (Hi1 : futex_inv st1 Q) by (by rewrite <- S1). assert (Hm1 : mgr_ok st1 mgr) by (by rewrite <- S1).
  pose proof (fi_rep _ _ Hi bu k) as Hr. rewrite <- Eq in Hr. rewrite (sm_waits _ _ S1).
  eapply returns_bind; [apply (unlockPILocked_ok (waits st) m addr tid0 q l); [done | apply (fi_ok _ _ Hi) | by apply fi_threads_at | done] |].
  intros [[[h q'] m'] r] (Hrel & Hpost). cbv beta iota. destruct r as [e | []].
  - destruct Hpost as [-> ->].
    eapply (close_ok st st1 mgr Q k (waits st) q l l [] k []); [done | done | done | done | apply (sm_dom _ _ S1) | | done | done | done | by left | done |].
    + rewrite (sm_waits _ _ S1). by apply effect_relinked, relinked_refl.
    + intros st' W' D' Hi'. apply returns_ret. split_and!; [done | done | done |]. eapply inv_ext; [| exact Hi'].
      intros b' k'. unfold updQ. case_decide as Hd'; [by destruct Hd' as [-> ->] | done].
  - destruct Hpost as (Hr' & Ef & Hu).
    eapply (close_ok st st1 mgr Q k h q' (drop 1 l)); [done | done | done | done | apply (sm_dom _ _ S1) | rewrite (sm_waits _ _ S1); exact Ef | done | done | | by left | |].
    + intros e He. unfold l in *. destruct (Q bu k); [done | set_solver].
    + intros e He Hn. rewrite Forall_forall in Hu. apply Hu. unfold l in *. destruct (Q bu k); simpl in *; set_solver.
    + intros st' W' D' Hi'. apply returns_ret. split_and!; [done | done | done |]. by rewrite W'.
Qed.
End Pi.
