(* ===== verification/FutexSteps.v ===== *)
(** Threads of one process that wait on futexes and wake each other, in any interleaving.

    A thread calls [WaitPrepare] (or [LockPI]), blocks, and then calls [WaitComplete], which
    reads the key of its entry before it takes the lock; in between, other threads wake and
    requeue.  Each step of [fstep] is a part of the code that runs under one lock, or under
    the two locks of a requeue.  The invariant [FInv] says where every waiting thread's entry
    is.

    Five things that a thread can do break the queues; they are no steps of [fstep], and
    [FutexFaults.v] has a theorem for each that shows what they do:
    - a [FUTEX_WAKE_BITSET] that passes over a waiter ([bitset_wake_forgets]);
    - a [FUTEX_TRYLOCK_PI] that fails while others wait for the lock
      ([trylock_loses_waiters]);
    - waiting at, or requeueing to, the private address 0, whose key is the one of an entry
      that was woken ([requeue_to_null_panics]);
    - waiting with a deadline that is not a time, which returns with the entry queued
      ([bad_deadline_stays_queued]);
    - a requeue or a [FUTEX_WAKE_OP] on two keys with the same hash in different buckets,
      which takes one lock only ([requeue_releases_lock]). *)
From S2P Require Import Prelude WaitList WaitListThm WaitListOps Futex FutexThm FutexOps FutexPairs FutexMem FutexPi.
From stdpp Require Import relations.

#[local] Open Scope Z_scope.

(** Where a thread is: not waiting; blocked; back from blocking; in [WaitComplete] with the
    key it has read; about to call [WaitComplete] because [TryLockPid] did not get the lock. *)
Inductive phase : Set := Idle | Blocked | Back | Completing (k : Key) | Refused.

#[global] Instance phase_eq_dec : EqDecision phase.
Proof. solve_decision. Defined.

Record FSys (M : Type) : Type := mkFSys { fs : FState; mem : M; phases : gmap positive phase }.
Arguments mkFSys {M} _ _ _.
Arguments fs {M} _.
Arguments mem {M} _.
Arguments phases {M} _.

Section Steps.
Context {M : Type} `{TargetLaws M} (mgr : FutexMgr).

Definition waits_in_phase (p : phase) : bool := match p with Idle | Refused => false | _ => true end.

(** The key of the private address 0 is the one of an entry that was woken. *)
Definition not_null (pr : bool) (addr : Z) : Prop := pr = true -> addr <> 0.

Lemma not_null_key (m : M) addr pr k : not_null pr addr -> Getkey m addr pr = Ok k -> k <> Key_default.
Proof.
  intros Ha. unfold Getkey. destruct (negb _); [done |]. destruct pr.
  - intros [= <-] E. injection E as E. by apply Ha.
  - intros Hk ->. by apply law_key in Hk.
Qed.

(** Every thread that waits at [k] answers to the mask: a wake-up with it passes over no one. *)
Definition wakes_all (s : FSys M) (k : Key) (bitmask : Z) : Prop :=
  k <> Key_default -> forall w p c, phases s !! w = Some p -> waits_in_phase p = true -> ctx (waits (fs s)) w = Some c -> key c = k ->
    answers (waits (fs s)) bitmask w = true.

(** [lockQueues] locks both keys. *)
Definition two_locks (k1 k2 : Key) : Prop := bucket_of mgr k1 = bucket_of mgr k2 \/ HashCode k1 <> HashCode k2.
Definition pair_locked (m : M) (addr1 addr2 : Z) (pr : bool) : Prop :=
  forall k1 k2, Getkey m addr1 pr = Ok k1 -> Getkey m addr2 pr = Ok k2 -> two_locks k1 k2.

(** Nobody waits at the key of the entry of [w]. *)
Definition nobody_at (s : FSys M) (w : positive) : Prop :=
  forall c, ctx (waits (fs s)) w = Some c -> queue_at (fs s) (bucket_of mgr (key c)) (key c) = WaitList_default.

(** The parts of the system calls.  Waiters wait with a bit mask that is not zero, as
    [SysFutex] sees to. *)
Inductive fstep (s : FSys M) : FSys M -> Prop :=
| s_memory m' :
    fstep s (mkFSys (fs s) m' (phases s))
| s_prepare w addr pr val bitmask st' m' r :
    phases s !! w = Some Idle -> not_null pr addr -> 0 < bitmask < 2 ^ 32 ->
    WaitPrepare (fs s) mgr (mem s) w addr pr val bitmask = Ret (st', m', r) ->
    fstep s (mkFSys st' m' (if r is inr _ then <[w := Blocked]> (phases s) else phases s))
| s_wake addr pr bitmask n st' r :
    (forall k, Getkey (mem s) addr pr = Ok k -> wakes_all s k bitmask) -> Wake (fs s) mgr (mem s) addr pr bitmask n = Ret (st', r) ->
    fstep s (mkFSys st' (mem s) (phases s))
| s_requeue addr naddr pr checkval val nwake nreq st' m' r :
    not_null pr naddr -> pair_locked (mem s) addr naddr pr ->
    doRequeue (fs s) mgr (mem s) addr naddr pr checkval val nwake nreq = Ret (st', m', r) ->
    fstep s (mkFSys st' m' (phases s))
| s_wake_op fuel addr1 addr2 pr n1 n2 op st' m' r :
    pair_locked (mem s) addr1 addr2 pr -> WakeOp fuel (fs s) mgr (mem s) addr1 addr2 pr n1 n2 op = Ret (st', m', r) ->
    fstep s (mkFSys st' m' (phases s))
| s_lock fuel w addr tid pr st' m' r :
    phases s !! w = Some Idle -> not_null pr addr -> (pending (mem s) < fuel)%nat ->
    LockPI fuel (fs s) mgr (mem s) w addr tid pr false = Ret (st', m', r) ->
    fstep s (mkFSys st' m' (if r is inr false then <[w := Blocked]> (phases s) else phases s))
| s_trylock fuel w addr tid pr st' m' r :
    phases s !! w = Some Idle -> (pending (mem s) < fuel)%nat -> LockPI fuel (fs s) mgr (mem s) w addr tid pr true = Ret (st', m', r) ->
    fstep s (mkFSys st' m' (if r is inr false then <[w := Refused]> (phases s) else phases s))
| s_give_up fuel w st' :
    phases s !! w = Some Refused -> nobody_at s w -> WaitComplete (S fuel) (fs s) mgr w = Ret st' ->
    fstep s (mkFSys st' (mem s) (<[w := Idle]> (phases s)))
| s_unlock addr tid pr st' m' r :
    UnlockPI (fs s) mgr (mem s) addr tid pr = Ret (st', m', r) -> fstep s (mkFSys st' m' (phases s))
| s_timeout w :
    phases s !! w = Some Blocked -> fstep s (mkFSys (fs s) (mem s) (<[w := Back]> (phases s)))
| s_event w c h' :
    phases s !! w = Some Blocked -> ctx (waits (fs s)) w = Some c -> ready (waits (fs s)) (waiter c) (waiterID c) = true ->
    Waiter_Clear (waits (fs s)) (waiter c) (waiterID c) = Ret h' ->
    fstep s (mkFSys (with_waits (fs s) h') (mem s) (<[w := Back]> (phases s)))
| s_read w k :
    phases s !! w = Some Back -> get_key (fs s) w = Ret k ->
    fstep s (mkFSys (fs s) (mem s) (<[w := if decide (k = Key_default) then Idle else Completing k]> (phases s)))
| s_complete w k st' stop :
    phases s !! w = Some (Completing k) -> WaitComplete_locked (fs s) mgr w k = Ret (st', stop) ->
    fstep s (mkFSys st' (mem s) (<[w := if stop : bool then Idle else Back]> (phases s))).

(** * The invariant *)

(** A waiting thread is in the queue of its key, or was woken: its key is gone and it is in
    no queue.  While it is blocked ([blk]), its event is there exactly if it was woken. *)
Definition waiting_ok (blk : bool) (h : Waits) (Q : positive -> Key -> list positive) (w : positive) : Prop :=
  exists c, ctx h w = Some c /\
    ((key c = Key_default /\ (forall b k, w ∉ Q b k) /\ (blk = true -> ready h (waiter c) (waiterID c) = true)) \/
     (key c <> Key_default /\ w ∈ Q (bucket_of mgr (key c)) (key c) /\ (blk = true -> ready h (waiter c) (waiterID c) = false))).

Definition blocked (p : phase) : bool := match p with Blocked => true | _ => false end.

Record FInvQ (s : FSys M) (Q : positive -> Key -> list positive) : Prop := {
  in_futex : futex_inv (fs s) Q;
  in_mgr : mgr_ok (fs s) mgr;
  in_locks : forall b, locks_of (fs s) b = ∅;
  in_entry : forall w p, phases s !! w = Some p -> is_Some (entries (waits (fs s)) !! w);
  in_resting : forall w p b k, phases s !! w = Some p -> waits_in_phase p = false -> w ∉ Q b k;
  in_waiting : forall w p, phases s !! w = Some p -> waits_in_phase p = true -> waiting_ok (blocked p) (waits (fs s)) Q w;
  in_queued : forall b k e, e ∈ Q b k -> b = bucket_of mgr k /\ k <> Key_default /\
    (exists p, phases s !! e = Some p /\ waits_in_phase p = true) /\
    answers (waits (fs s)) FUTEX_BITSET_MATCH_ANY e = true /\ answers (waits (fs s)) U64_MAX e = true;
  in_slots : forall w w' p p' x, phases s !! w = Some p -> phases s !! w' = Some p' ->
    slot (waits (fs s)) w = Some x -> slot (waits (fs s)) w' = Some x -> w = w';
  in_completing : forall w k, phases s !! w = Some (Completing k) -> k <> Key_default }.

Definition FInv (s : FSys M) : Prop := exists Q, FInvQ s Q.

Lemma in_idle s Q (Hi : FInvQ s Q) w b k : phases s !! w = Some Idle -> w ∉ Q b k.
Proof. intros Hp. by apply (in_resting _ _ Hi w Idle). Qed.

(** Who is in the queue of a key waits there. *)
Lemma queued_key s Q b k e : FInvQ s Q -> e ∈ Q b k -> exists p c, phases s !! e = Some p /\ waits_in_phase p = true /\ ctx (waits (fs s)) e = Some c /\ key c = k.
Proof.
  intros Hi He. destruct (in_queued _ _ Hi _ _ _ He) as (_ & _ & (p & Hp & Hwp) & _). destruct (in_waiting _ _ Hi e p Hp Hwp) as (c & Hc & [(_ & Hn & _) | (_ & Hin & _)]).
  - by destruct (Hn b k).
  - exists p, c. split_and!; [done | done | done |]. by destruct (fi_disj _ _ (in_futex _ _ Hi) _ _ _ _ _ Hin He).
Qed.

(** [FUTEX_WAKE] passes over no one. *)
Lemma wakes_all_any s Q k : FInvQ s Q -> wakes_all s k FUTEX_BITSET_MATCH_ANY.
Proof.
  intros Hi Hk w p c Hp Hwp Hc Ek. destruct (in_waiting _ _ Hi w p Hp Hwp) as (c' & Hc' & Hcase). rewrite Hc in Hc'. injection Hc' as <-.
  destruct Hcase as [(Hd & _) | (_ & Hin & _)]; [congruence |]. by apply (in_queued _ _ Hi _ _ _ Hin).
Qed.

(** ** Steps that leave the phases alone *)

Lemma inv_move s Q st' m' Q' :
  FInvQ s Q -> quiet (fs s) st' -> futex_inv st' Q' ->
  (forall e, slot (waits st') e = slot (waits (fs s)) e) ->
  (forall mk e, answers (waits st') mk e = answers (waits (fs s)) mk e) ->
  (forall e, is_Some (entries (waits (fs s)) !! e) -> is_Some (entries (waits st') !! e)) ->
  (forall b k e, e ∈ Q' b k -> b = bucket_of mgr k /\ k <> Key_default /\ exists b0 k0, e ∈ Q b0 k0) ->
  (forall blk w, waiting_ok blk (waits (fs s)) Q w -> (exists p, phases s !! w = Some p) -> waiting_ok blk (waits st') Q' w) ->
  FInvQ (mkFSys st' m' (phases s)) Q'.
Proof.
  intros [If Im Il Ie Ii Iw Iq Is Ic] Hq Hf Hs Ha He HQ Hw. split; simpl; auto.
  - by eapply mgr_ok_quiet.
  - intros b. by rewrite (proj1 Hq).
  - eauto.
  - intros w p b k Hp Hwp Hk. destruct (HQ _ _ _ Hk) as (_ & _ & b0 & k0 & H0). by apply (Ii w p b0 k0).
  - intros w p Hp Hwp. apply Hw; eauto.
  - intros b k e Hk. destruct (HQ _ _ _ Hk) as (-> & Hd & b0 & k0 & H0). destruct (Iq _ _ _ H0) as (_ & _ & Hp & A1 & A2).
    by rewrite !Ha.
  - intros w w' p p' x. rewrite !Hs. apply Is.
Qed.

Lemma same_slot s Q w w' c c' :
  FInvQ s Q -> (exists p, phases s !! w = Some p) -> (exists p, phases s !! w' = Some p) ->
  ctx (waits (fs s)) w = Some c -> ctx (waits (fs s)) w' = Some c' -> waiter c = waiter c' -> waiterID c = waiterID c' -> w = w'.
Proof.
  intros Hi [p Hp] [p' Hp'] Hc Hc' E1 E2. eapply (in_slots _ _ Hi w w' p p' (waiter c, waiterID c)); [done | done | |];
    unfold slot; rewrite ?Hc, ?Hc'; simpl; congruence.
Qed.

(** What an effect whose events are those of [wk] does to the event of a thread. *)
Lemma effect_ready s Q X K kk wk h' w c :
  FInvQ s Q -> effect X K kk (omap (slot (waits (fs s))) wk) (waits (fs s)) h' -> (forall e, e ∈ wk -> exists b k, e ∈ Q b k) ->
  (exists p, phases s !! w = Some p) -> ctx (waits (fs s)) w = Some c ->
  ready h' (waiter c) (waiterID c) = ready (waits (fs s)) (waiter c) (waiterID c) || bool_decide (w ∈ wk).
Proof.
  intros Hi Ef Hwk Hp Hc. destruct (ef_rings _ _ _ _ _ _ Ef) as [new [Hr _ _]].
  destruct (waits_ok_ctx _ _ _ (fi_ok _ _ (in_futex _ _ Hi)) Hc) as [Hb Hid]. rewrite Hr by (done || lia). f_equal.
  apply bool_decide_ext. rewrite list_elem_of_omap. split.
  - intros (e & He & Hse). destruct (Hwk e He) as (b & k & HeQ). destruct (in_queued _ _ Hi _ _ _ HeQ) as (_ & _ & (p & Hpe & _) & _).
    unfold slot in Hse. destruct (ctx (waits (fs s)) e) as [ce |] eqn:Hce; [| done]. simpl in Hse. injection Hse as E1 E2.
    replace w with e; [done |]. eapply same_slot; eauto.
  - intros Hw. exists w. split; [done |]. unfold slot. by rewrite Hc.
Qed.

(** Waking the entries [wk], which leave their queues. *)
Lemma wake_waiting s Q Q' X wk h' blk w :
  FInvQ s Q -> effect X wk Key_default (omap (slot (waits (fs s))) wk) (waits (fs s)) h' ->
  (forall e, e ∈ wk -> exists b k, e ∈ Q b k) -> (forall x b k, x ∈ Q' b k <-> x ∈ Q b k /\ x ∉ wk) ->
  waiting_ok blk (waits (fs s)) Q w -> (exists p, phases s !! w = Some p) -> waiting_ok blk h' Q' w.
Proof.
  intros Hi Ef Hsub HQ' (c & Hc & Hcase) Hp.
  pose proof (effect_ready s Q _ _ _ wk h' w c Hi Ef Hsub Hp Hc) as Hrd.
  pose proof (effect_ctx _ _ _ _ _ _ _ _ Ef Hc) as Hc'.
  destruct Hcase as [(Hk & Hn & Hr) | (Hk & Hin & Hr)].
  - exists c. rewrite decide_False in Hc' by (intros (b & k & Hw)%Hsub; by apply (Hn b k)). split; [done |]. left.
    split_and!; [done | intros b k [Hw _]%HQ'; by apply (Hn b k) | intros Hs; by rewrite Hrd, Hr].
  - destruct (decide (w ∈ wk)) as [Hw | Hw].
    + eexists. split; [exact Hc' |]. left. simpl. split_and!; [done | | intros _; by rewrite Hrd, bool_decide_eq_true_2, orb_true_r].
      by intros b k [_ ?]%HQ'.
    + exists c. split; [done |]. right. split_and!; [done | by apply HQ' | intros Hs; by rewrite Hrd, Hr, bool_decide_eq_false_2].
Qed.

(** The lists after the first [n] of one of them were woken. *)
Lemma updQ_drop st Q b0 k0 n x b k :
  futex_inv st Q -> x ∈ updQ Q b0 k0 (drop n (Q b0 k0)) b k <-> x ∈ Q b k /\ x ∉ take n (Q b0 k0).
Proof.
  intros Hi. pose proof (rep_nodup _ _ _ (fi_rep _ _ Hi b0 k0)) as Hnd. rewrite <- (take_drop n (Q b0 k0)) in Hnd.
  apply NoDup_app in Hnd as (_ & Hd & _). unfold updQ. destruct (decide (b = b0 /\ k = k0)) as [[-> ->] | N].
  - rewrite <- (take_drop n (Q b0 k0)) at 2. rewrite elem_of_app. naive_solver.
  - split; [| by intros [? _]]. intros Hx. split; [done |]. intros Ht%subseteq_take. by apply N, (fi_disj _ _ Hi _ _ _ _ x).
Qed.

Lemma waiting_ext blk h Q Q' w : (forall b k, Q' b k = Q b k) -> waiting_ok blk h Q w -> waiting_ok blk h Q' w.
Proof.
  intros HQ (c & Hc & Hcase). exists c. split; [done |]. destruct Hcase as [(Hk & Hn & Hr) | (Hk & Hin & Hr)]; [left | right].
  - split_and!; [done | intros b k; by rewrite HQ | done].
  - split_and!; [done | by rewrite HQ | done].
Qed.

(** Moving the first [j] of the queue of [k1] to that of [k2]. *)
Lemma requeue_waiting blk h h' Q X b1 k1 k2 j w :
  (forall b k b' k' e, e ∈ Q b k -> e ∈ Q b' k' -> b = b' /\ k = k') -> k2 <> Key_default -> waits_ok h ->
  effect X (take j (Q b1 k1)) k2 [] h h' -> waiting_ok blk h Q w ->
  waiting_ok blk h' (requeued Q b1 k1 (bucket_of mgr k2) k2 (Q b1 k1) j) w.
Proof.
  intros Hdj Hk2 Ho Ef (c & Hc & Hcase). set (R := Q b1 k1) in *. set (b2 := bucket_of mgr k2) in *.
  pose proof (effect_ctx _ _ _ _ _ _ _ _ Ef Hc) as Hc'. destruct (waits_ok_ctx _ _ _ Ho Hc) as [Hb Hid].
  assert (Hrd : ready h' (waiter c) (waiterID c) = ready h (waiter c) (waiterID c)).
  { destruct (ef_rings _ _ _ _ _ _ Ef) as [new [Hr _ _]]. rewrite Hr by (done || lia). by rewrite orb_false_r. }
  assert (Hsub : forall e, e ∈ take j R -> e ∈ R) by (intros e; apply subseteq_take).
  destruct Hcase as [(Hk & Hn & Hr) | (Hk & Hin & Hr)].
  - rewrite decide_False in Hc' by (intros Hw; by apply (Hn b1 k1), Hsub). exists c. split; [done |]. left.
    split_and!; [done | | by rewrite Hrd]. intros b k. unfold requeued, updQ.
    destruct (decide (b = b2 /\ k = k2)); [| destruct (decide (b = b1 /\ k = k1)); [| apply Hn]].
    + intros [Hw | Hw]%elem_of_app; [by apply (Hn b2 k2) | by apply (Hn b1 k1), Hsub].
    + intros Hw. apply (Hn b1 k1). by eapply subseteq_drop.
  - destruct (decide (w ∈ take j R)) as [Hw | Hw].
    + eexists. split; [exact Hc' |]. right. simpl. split_and!; [done | | by rewrite Hrd]. fold b2. unfold requeued. rewrite updQ_eq.
      apply elem_of_app. by right.
    + exists c. split; [done |]. right. split_and!; [done | | by rewrite Hrd]. unfold requeued, updQ.
      destruct (decide (bucket_of mgr (key c) = b2 /\ key c = k2)) as [[E1 E2] | N2].
      * rewrite E1, E2 in Hin. apply elem_of_app. by left.
      * destruct (decide (bucket_of mgr (key c) = b1 /\ key c = k1)) as [[E1 E2] | N1]; [| done].
        rewrite E1, E2 in Hin. fold R in Hin. rewrite <- (take_drop j R), elem_of_app in Hin. by destruct Hin.
Qed.

Lemma unlocked_at s Q b i : FInvQ s Q -> i ∉ locks_of (fs s) b.
Proof. intros Hi. rewrite (in_locks _ _ Hi). set_solver. Qed.

Lemma inv_woke s Q st' m' Q' wk K X :
  FInvQ s Q -> quiet (fs s) st' -> futex_inv st' Q' ->
  effect X K Key_default (omap (slot (waits (fs s))) wk) (waits (fs s)) (waits st') -> (forall x, x ∈ K <-> x ∈ wk) ->
  (forall e, e ∈ wk -> exists b k, e ∈ Q b k) -> (forall x b k, x ∈ Q' b k <-> x ∈ Q b k /\ x ∉ wk) ->
  FInvQ (mkFSys st' m' (phases s)) Q'.
Proof.
  intros Hi Hq Hf Ef HK Hsub HQ'. apply (effect_K _ _ wk) in Ef; [| done]. apply (inv_move s Q); [done | done | done | | | | |].
  - intros e. by eapply effect_slot.
  - intros mk e. by eapply effect_answers.
  - intros e. by eapply effect_is_Some.
  - intros b k x [Hx _]%HQ'. destruct (in_queued _ _ Hi _ _ _ Hx) as (? & ? & _). eauto.
  - intros blk w Hw' Hp. by eapply (wake_waiting s).
Qed.

(** Waking the first [n] of the queue of one key. *)
Lemma inv_woke_first s Q st' m' b0 k0 n K X :
  FInvQ s Q -> quiet (fs s) st' -> futex_inv st' (updQ Q b0 k0 (drop n (Q b0 k0))) ->
  effect X K Key_default (omap (slot (waits (fs s))) (take n (Q b0 k0))) (waits (fs s)) (waits st') ->
  (forall x, x ∈ K <-> x ∈ take n (Q b0 k0)) -> FInvQ (mkFSys st' m' (phases s)) (updQ Q b0 k0 (drop n (Q b0 k0))).
Proof.
  intros Hi Hq Hf Ef HK. eapply inv_woke; [exact Hi | done | done | exact Ef | done | |].
  - intros x Hx%subseteq_take. eauto.
  - intros x b k. apply (updQ_drop (fs s)), Hi.
Qed.

Lemma step_wake s Q addr pr bitmask n st' r :
  FInvQ s Q -> (forall k, Getkey (mem s) addr pr = Ok k -> wakes_all s k bitmask) -> Wake (fs s) mgr (mem s) addr pr bitmask n = Ret (st', r) ->
  exists Q', FInvQ (mkFSys st' (mem s) (phases s)) Q'.
Proof.
  intros Hi Hans Hret. destruct (Getkey (mem s) addr pr) as [e | k] eqn:Hk.
  { unfold Wake in Hret. rewrite Hk in Hret. injection Hret as <- <-. exists Q. by destruct s. }
  pose proof (wake_walk_all (answers (waits (fs s)) bitmask) (Z.to_nat n) (Q (bucket_of mgr k) k)) as Hw.
  assert (Ha : forall x, x ∈ Q (bucket_of mgr k) k -> answers (waits (fs s)) bitmask x = true).
  { intros x Hx. destruct (queued_key s Q _ _ _ Hi Hx) as (p & c & Hp & Hwp & Hc & Ek). apply (Hans k eq_refl) with p c; [| done..]. by apply (in_queued _ _ Hi _ _ _ Hx). }
  specialize (Hw Ha).
  pose proof (Wake_ok _ _ _ _ _ _ _ _ _ _ _ _ (in_futex _ _ Hi) (in_mgr _ _ Hi) Hk (unlocked_at _ _ _ _ Hi) Hw) as Hok.
  pose proof (returns_inv _ _ _ Hok Hret) as (_ & Hf & Hq & Ef). rewrite app_nil_r in Ef. simpl in Hf.
  eexists. by eapply inv_woke_first.
Qed.

(** Operations on two keys panic if the keys are equal. *)
Lemma same_key_panics s fuel addr1 addr2 pr n1 n2 op chk val k :
  Getkey (mem s) addr1 pr = Ok k -> Getkey (mem s) addr2 pr = Ok k ->
  doRequeue (fs s) mgr (mem s) addr1 addr2 pr chk val n1 n2 = Panic /\ WakeOp fuel (fs s) mgr (mem s) addr1 addr2 pr n1 n2 op = Panic.
Proof. intros H1 H2. unfold doRequeue, WakeOp, lockQueues. by rewrite H1, H2, bool_decide_eq_true_2. Qed.

Lemma requeued_sub Q b1 k1 b2 k2 R j b k e :
  (forall x, x ∈ R -> x ∈ Q b1 k1) -> e ∈ requeued Q b1 k1 b2 k2 R j b k -> e ∈ Q b k \/ (b = b2 /\ k = k2 /\ e ∈ Q b1 k1).
Proof.
  intros HR. unfold requeued, updQ. destruct (decide (b = b2 /\ k = k2)) as [[-> ->] | N].
  - intros [He | He]%elem_of_app; [by left | right]. split_and!; [done | done |]. apply HR. by eapply subseteq_take.
  - destruct (decide (b = b1 /\ k = k1)) as [[-> ->] |]; [| by left]. intros He. left. apply HR. by eapply subseteq_drop.
Qed.

Lemma step_requeue s Q addr naddr pr cv val nwake nreq st' m' r :
  FInvQ s Q -> not_null pr naddr -> doRequeue (fs s) mgr (mem s) addr naddr pr cv val nwake nreq = Ret (st', m', r) ->
  exists Q', FInvQ (mkFSys st' m' (phases s)) Q'.
Proof.
  intros Hi Hna Hret. destruct (Getkey (mem s) addr pr) as [e | k1] eqn:Hk1.
  { unfold doRequeue in Hret. rewrite Hk1 in Hret. injection Hret as <- <- <-. exists Q. by destruct s. }
  destruct (Getkey (mem s) naddr pr) as [e | k2] eqn:Hk2.
  { unfold doRequeue in Hret. rewrite Hk1, Hk2 in Hret. injection Hret as <- <- <-. exists Q. by destruct s. }
  destruct (decide (k1 = k2)) as [-> | Hk]; [by rewrite (proj1 (same_key_panics s 0 _ _ _ _ _ 0 _ _ k2 Hk1 Hk2)) in Hret |].
  pose proof (not_null_key _ _ _ _ Hna Hk2) as Hd2. set (R0 := Q (bucket_of mgr k1) k1).
  pose proof (wake_walk_all (answers (waits (fs s)) U64_MAX) (Z.to_nat nwake) R0) as Hw.
  specialize (Hw ltac:(intros x Hx; by destruct (in_queued _ _ Hi _ _ _ Hx) as (_ & _ & _ & _ & ?))).
  pose proof (doRequeue_ok _ _ _ _ _ _ cv val _ nreq _ _ _ _ _ _ (in_futex _ _ Hi) (in_mgr _ _ Hi) Hk1 Hk2 Hk
    (unlocked_at _ _ _ _ Hi) (unlocked_at _ _ _ _ Hi) Hw) as Hok.
  pose proof (returns_inv _ _ _ Hok Hret) as (Hq & Hcase). clear Hok Hret.
  destruct (if cv then Check (mem s) addr val else (mem s, Ok tt)) as [m1 [e | []]].
  { destruct Hcase as (-> & -> & Hf & Ew). exists Q. apply (inv_move s Q); [done | done | done | by rewrite Ew | by rewrite Ew | by rewrite Ew | | by rewrite Ew].
    intros b k x Hx. destruct (in_queued _ _ Hi _ _ _ Hx) as (? & ? & _). eauto. }
  destruct Hcase as (-> & -> & Hf & h & Ef1 & Ef2). fold R0 in Ef1. rewrite app_nil_r in Ef1. simpl in Hf, Ef2.
  set (R := drop (Z.to_nat nwake) R0) in *. assert (HR : forall x, x ∈ R -> x ∈ R0) by (intros x; apply subseteq_drop).
  eexists. eapply (inv_move s Q); [done | done | exact Hf | | | | |].
  - intros x. by rewrite (effect_slot _ _ _ _ _ _ x Ef2), (effect_slot _ _ _ _ _ _ x Ef1).
  - intros mk x. by rewrite (effect_answers _ _ _ _ _ _ mk x Ef2), (effect_answers _ _ _ _ _ _ mk x Ef1).
  - intros x Hx. apply (effect_is_Some _ _ _ _ _ _ _ Ef2). by apply (effect_is_Some _ _ _ _ _ _ _ Ef1).
  - intros b k x Hx. apply requeued_sub in Hx as [Hx | (-> & -> & Hx)]; [| | done].
    + destruct (in_queued _ _ Hi _ _ _ Hx) as (? & ? & _). eauto.
    + split_and!; [done | done |]. eauto.
  - intros blk w Hwt Hp. eapply waiting_ext; [intros b k; symmetry; by apply requeued_updQ |].
    assert (Hw1 : waiting_ok blk h (updQ Q (bucket_of mgr k1) k1 R) w).
    { eapply (wake_waiting s); [done | exact Ef1 | intros x Hx%subseteq_take; eauto | | done | done].
      intros x b k. apply (updQ_drop (fs s)), Hi. }
    pose proof (requeue_waiting blk h (waits st') (updQ Q (bucket_of mgr k1) k1 R) (R ++ Q (bucket_of mgr k2) k2) (bucket_of mgr k1) k1 k2 (Z.to_nat nreq) w) as Hrq.
    rewrite updQ_eq in Hrq. apply Hrq; [| done | eapply effect_ok; [exact Ef1 | apply (fi_ok _ _ (in_futex _ _ Hi))] | done | done].
    intros b k b' k' x [Hx _]%(updQ_drop _ _ _ _ _ _ _ _ (in_futex _ _ Hi)) [Hx' _]%(updQ_drop _ _ _ _ _ _ _ _ (in_futex _ _ Hi)).
    by eapply (fi_disj _ _ (in_futex _ _ Hi)).
Qed.

(** The lists after the first [n1] of one and the first [n2] of another were woken. *)
Lemma updQ_drop2 st Q b1 k1 n1 b2 k2 n2 x b k :
  futex_inv st Q -> k1 <> k2 ->
  x ∈ updQ (updQ Q b1 k1 (drop n1 (Q b1 k1))) b2 k2 (drop n2 (Q b2 k2)) b k <->
  x ∈ Q b k /\ x ∉ take n1 (Q b1 k1) ++ take n2 (Q b2 k2).
Proof.
  intros Hi Hk. rewrite elem_of_app. unfold updQ at 1. destruct (decide (b = b2 /\ k = k2)) as [[-> ->] | N].
  - pose proof (updQ_drop st Q b2 k2 n2 x b2 k2 Hi) as H2. rewrite updQ_eq in H2. rewrite H2.
    split; [| naive_solver]. intros [Hx Hn]. split; [done |]. intros [Ht%subseteq_take | Ht]; [| done].
    by destruct (fi_disj _ _ Hi _ _ _ _ _ Hx Ht).
  - rewrite (updQ_drop st Q b1 k1 n1 x b k Hi). split; [| naive_solver]. intros [Hx Hn]. split; [done |].
    intros [Ht | Ht%subseteq_take]; [done |]. by apply N, (fi_disj _ _ Hi _ _ _ _ x).
Qed.

Lemma step_wake_op s Q fuel addr1 addr2 pr n1 n2 op st' m' r :
  FInvQ s Q -> WakeOp fuel (fs s) mgr (mem s) addr1 addr2 pr n1 n2 op = Ret (st', m', r) ->
  exists Q', FInvQ (mkFSys st' m' (phases s)) Q'.
Proof.
  intros Hi Hret. destruct (Getkey (mem s) addr1 pr) as [e | k1] eqn:Hk1.
  { unfold WakeOp in Hret. rewrite Hk1 in Hret. injection Hret as <- <- <-. exists Q. by destruct s. }
  destruct (Getkey (mem s) addr2 pr) as [e | k2] eqn:Hk2.
  { unfold WakeOp in Hret. rewrite Hk1, Hk2 in Hret. injection Hret as <- <- <-. exists Q. by destruct s. }
  destruct (decide (k1 = k2)) as [-> | Hk].
  { by rewrite (proj2 (same_key_panics s fuel _ _ _ _ _ _ false 0 k2 Hk1 Hk2)) in Hret. }
  set (b1 := bucket_of mgr k1). set (b2 := bucket_of mgr k2).
  assert (Hw : forall n k, wake_walk (answers (waits (fs s)) U64_MAX) n (Q (bucket_of mgr k) k) = (take n (Q (bucket_of mgr k) k), [], drop n (Q (bucket_of mgr k) k))).
  { intros n k. apply wake_walk_all. intros x Hx. by destruct (in_queued _ _ Hi _ _ _ Hx) as (_ & _ & _ & _ & ?). }
  destruct (AtomicOp fuel (mem s) addr2 op) as [[m1 c] | |] eqn:Ea.
  2,3: exfalso; destruct (lockQueues_ok _ _ _ _ (in_mgr _ _ Hi) Hk (unlocked_at _ _ _ _ Hi) (unlocked_at _ _ _ _ Hi)) as ([[? ?] ?] & El & _);
    unfold WakeOp in Hret; rewrite Hk1, Hk2, El, bind_ret, Ea in Hret; discriminate Hret.
  pose proof (WakeOp_ok _ _ _ _ _ _ _ _ _ _ _ _ _ _ _ _ _ _ _ _ _ (in_futex _ _ Hi) (in_mgr _ _ Hi) Hk1 Hk2 Hk
    (unlocked_at _ _ _ _ Hi) (unlocked_at _ _ _ _ Hi) Ea (Hw (Z.to_nat n1) k1) (Hw (Z.to_nat n2) k2)) as Hok.
  pose proof (returns_inv _ _ _ Hok Hret) as (-> & Hq & Hcase). clear Hok Hret. fold b1 b2 in Hcase.
  destruct c as [e | [|]].
  - destruct Hcase as (-> & Hf & Ew). exists Q. apply (inv_move s Q); [done | done | done | by rewrite Ew | by rewrite Ew | by rewrite Ew | | by rewrite Ew].
    intros b k x Hx. destruct (in_queued _ _ Hi _ _ _ Hx) as (? & ? & _). eauto.
  - destruct Hcase as (-> & Hf & Ef). eexists. eapply inv_woke; [exact Hi | done | exact Hf | exact Ef | set_solver | |].
    + intros x [Hx%subseteq_take | Hx%subseteq_take]%elem_of_app; eauto.
    + intros x b k. by apply (updQ_drop2 (fs s)), Hk; apply Hi.
  - destruct Hcase as (-> & Hf & Ef). eexists. eapply inv_woke_first; [exact Hi | done | exact Hf | exact Ef | set_solver].
Qed.

(** ** Steps of a thread that starts to wait *)

Section Prep.
Variables (s : FSys M) (Q : positive -> Key -> list positive) (w : positive) (e0 : EntryInternal) (c0 : ThreadContext) (b0 : WaiterInternal).
Variables (mk t : Z) (k : Key) (st' : FState) (X : list positive).
Hypotheses (Hi : FInvQ s Q) (Hidle : phases s !! w = Some Idle).
Hypotheses (He0 : entries (waits (fs s)) !! w = Some e0) (Hc0 : context e0 = WC_Thread c0) (Hb0 : waiters (waits (fs s)) !! waiter c0 = Some b0).
Hypothesis (Ef : effect X [] k [] (prepared (waits (fs s)) w e0 c0 b0 mk t k) (waits st')).

Lemma prep_ctx0 : ctx (waits (fs s)) w = Some c0.
Proof. unfold ctx. rewrite He0. simpl. by rewrite Hc0. Qed.

Lemma prep_ctx x c : ctx (waits (fs s)) x = Some c ->
  ctx (waits st') x = Some (if decide (x = w) then mkTC (waiterID c0) (waiter c0) t k else c).
Proof.
  intros Hx. pose proof (prepared_ctx (waits (fs s)) w e0 c0 b0 mk t k x) as Hp.
  assert (Hp' : ctx (prepared (waits (fs s)) w e0 c0 b0 mk t k) x = Some (if decide (x = w) then mkTC (waiterID c0) (waiter c0) t k else c)).
  { rewrite Hp. by destruct (decide (x = w)). }
  rewrite (effect_ctx _ _ _ _ _ _ _ _ Ef Hp'). by rewrite decide_False by set_solver.
Qed.

Lemma prep_is_Some x : is_Some (entries (waits (fs s)) !! x) -> is_Some (entries (waits st') !! x).
Proof.
  intros Hx. apply (effect_is_Some _ _ _ _ _ _ _ Ef). simpl. destruct (decide (x = w)) as [-> |].
  - by rewrite lookup_insert_eq.
  - by rewrite lookup_insert_ne.
Qed.

Lemma prep_slot x p : phases s !! x = Some p -> slot (waits st') x = slot (waits (fs s)) x.
Proof.
  intros Hp. destruct (fi_threads _ _ (in_futex _ _ Hi) x (in_entry _ _ Hi _ _ Hp)) as [c Hc]. unfold slot.
  rewrite (prep_ctx x c Hc), Hc. destruct (decide (x = w)) as [-> |]; [| done]. rewrite prep_ctx0 in Hc. by injection Hc as <-.
Qed.

Lemma prep_answers m x : answers (waits st') m x = if decide (x = w) then negb (Z.land m mk =? 0) else answers (waits (fs s)) m x.
Proof.
  rewrite (effect_answers _ _ _ _ _ _ m x Ef). unfold answers, prepared. simpl. destruct (decide (x = w)) as [-> |].
  - by rewrite lookup_insert_eq.
  - by rewrite lookup_insert_ne.
Qed.

Lemma prep_ready x p c : phases s !! x = Some p -> ctx (waits (fs s)) x = Some c ->
  ready (waits st') (waiter c) (waiterID c) = ready (waits (fs s)) (waiter c) (waiterID c) && negb (bool_decide (x = w)).
Proof.
  intros Hp Hc. destruct (waits_ok_ctx _ _ _ (fi_ok _ _ (in_futex _ _ Hi)) Hc) as [[b Hb] Hid].
  destruct (waits_ok_ctx _ _ _ (fi_ok _ _ (in_futex _ _ Hi)) prep_ctx0) as [_ Hid0].
  destruct (ef_rings _ _ _ _ _ _ Ef) as [new [Hr _ _]]. rewrite Hr, orb_false_r; [| lia |].
  - rewrite (prepared_ready _ w e0 c0 b0) by (done || lia). f_equal. f_equal. apply bool_decide_ext. split.
    + intros [E1 E2]. eapply same_slot; [exact Hi | | | exact Hc | exact prep_ctx0 | |]; eauto.
    + intros ->. rewrite prep_ctx0 in Hc. by injection Hc as ->.
  - simpl. destruct (decide (waiter c = waiter c0)) as [-> |]; [by rewrite lookup_insert_eq | by rewrite lookup_insert_ne by done; eauto].
Qed.

(** The other threads are where they were. *)
Lemma prep_waiting x p Q' : x <> w -> phases s !! x = Some p -> waits_in_phase p = true ->
  (forall b k, x ∈ Q' b k <-> x ∈ Q b k) -> waiting_ok (blocked p) (waits st') Q' x.
Proof.
  intros N Hp Hwp HQ. destruct (in_waiting _ _ Hi x p Hp Hwp) as (c & Hc & Hcase). exists c.
  rewrite (prep_ctx x c Hc), decide_False by done. split; [done |].
  rewrite (prep_ready x p c Hp Hc), (bool_decide_eq_false_2 (x = w)), andb_true_r by done.
  destruct Hcase as [(Hk & Hn & Hr) | (Hk & Hin & Hr)]; [left | right].
  - split_and!; [done | intros b k'; by rewrite HQ | done].
  - split_and!; [done | by rewrite HQ | done].
Qed.

Lemma prep_stays m' : quiet (fs s) st' -> futex_inv st' Q -> FInvQ (mkFSys st' m' (phases s)) Q.
Proof.
  intros Hq Hf. split; simpl; [done | eapply mgr_ok_quiet; [done | apply Hi] | | | apply Hi | | | | apply Hi].
  - intros b. rewrite (proj1 Hq). apply Hi.
  - intros x p Hp. apply prep_is_Some. by eapply (in_entry _ _ Hi).
  - intros x p Hp Hwp. apply (prep_waiting x p); [intros -> | done | done | done]. rewrite Hidle in Hp. by injection Hp as <-.
  - intros b k' x Hx. destruct (in_queued _ _ Hi _ _ _ Hx) as (? & ? & (p & Hp & Hwp) & A1 & A2).
    rewrite !prep_answers. destruct (decide (x = w)) as [-> |]; [by destruct (in_idle _ _ Hi w b k' Hidle) |]. eauto 10.
  - intros x x' p p' y Hp Hp'. rewrite (prep_slot x p Hp), (prep_slot x' p' Hp'). by eapply (in_slots _ _ Hi).
Qed.

Lemma prep_queued m' : quiet (fs s) st' -> futex_inv st' (updQ Q (bucket_of mgr k) k (Q (bucket_of mgr k) k ++ [w])) -> k <> Key_default ->
  Z.land FUTEX_BITSET_MATCH_ANY mk <> 0 -> Z.land U64_MAX mk <> 0 ->
  FInvQ (mkFSys st' m' (<[w := Blocked]> (phases s))) (updQ Q (bucket_of mgr k) k (Q (bucket_of mgr k) k ++ [w])).
Proof.
  intros Hq Hf Hkd Hm1 Hm2. set (Q' := updQ _ _ _ _) in *.
  assert (HQ : forall x b k', x <> w -> x ∈ Q' b k' <-> x ∈ Q b k').
  { intros x b k' N. unfold Q', updQ. destruct (decide _) as [[-> ->] |]; [set_solver | done]. }
  assert (HQw : forall b k', w ∈ Q' b k' -> b = bucket_of mgr k /\ k' = k).
  { intros b k'. unfold Q', updQ. destruct (decide _) as [|]; [done |]. intros Hx. by destruct (in_idle _ _ Hi w b k' Hidle). }
  split; simpl; [done | eapply mgr_ok_quiet; [done | apply Hi] | | | | | | |].
  - intros b. rewrite (proj1 Hq). apply Hi.
  - intros x p. destruct (decide (x = w)) as [-> | N]; [intros _; apply prep_is_Some; by eexists |].
    rewrite lookup_insert_ne by done. intros Hp. apply prep_is_Some. by eapply (in_entry _ _ Hi).
  - intros x p b k'. destruct (decide (x = w)) as [-> | N]; [rewrite lookup_insert_eq; by intros [= <-] |].
    rewrite lookup_insert_ne by done. intros Hp Hwp. rewrite HQ by done. by apply (in_resting _ _ Hi x p).
  - intros x p. destruct (decide (x = w)) as [-> | N].
    + intros _ _. eexists. rewrite (prep_ctx w c0 prep_ctx0), decide_True by done. split; [done |]. right. simpl. split_and!; [done | |].
      * unfold Q'. rewrite updQ_eq. set_solver.
      * rewrite (prep_ready w Idle c0 Hidle prep_ctx0), bool_decide_eq_true_2 by done. intros _. apply andb_false_r.
    + rewrite lookup_insert_ne by done. intros Hp Hwp. apply (prep_waiting x p); [done | done | done |]. intros b k'. by apply HQ.
  - intros b k' x Hx. rewrite !prep_answers. destruct (decide (x = w)) as [-> | N].
    + destruct (HQw _ _ Hx) as [-> ->]. split_and!; [done | done | exists Blocked; by rewrite lookup_insert_eq | |];
        apply negb_true_iff, Z.eqb_neq; done.
    + apply HQ in Hx; [| done]. destruct (in_queued _ _ Hi _ _ _ Hx) as (? & ? & (p & Hp & Hwp) & A1 & A2).
      split_and!; [done | done | exists p; by rewrite lookup_insert_ne | done | done].
  - assert (Hph : forall x p, <[w := Blocked]> (phases s) !! x = Some p -> exists p', phases s !! x = Some p').
    { intros x p. destruct (decide (x = w)) as [-> | N]; [eauto | rewrite lookup_insert_ne by done; eauto]. }
    intros x x' p p' y [p1 Hp]%Hph [p2 Hp']%Hph. rewrite (prep_slot x p1 Hp), (prep_slot x' p2 Hp'). by eapply (in_slots _ _ Hi).
  - intros x k'. destruct (decide (x = w)) as [-> | N]; [by rewrite lookup_insert_eq |]. rewrite lookup_insert_ne by done. apply (in_completing _ _ Hi).
Qed.
End Prep.

Lemma mask_answers mk : 0 < mk < 2 ^ 32 -> Z.land FUTEX_BITSET_MATCH_ANY mk <> 0 /\ Z.land U64_MAX mk <> 0.
Proof.
  intros Hm. rewrite !(Z.land_comm _ mk). change FUTEX_BITSET_MATCH_ANY with (Z.ones 32). change U64_MAX with (Z.ones 64).
  rewrite !Z.land_ones, !Z.mod_small by lia. lia.
Qed.

Lemma step_prepare s Q w addr pr val bitmask st' m' r :
  FInvQ s Q -> phases s !! w = Some Idle -> not_null pr addr -> 0 < bitmask < 2 ^ 32 ->
  WaitPrepare (fs s) mgr (mem s) w addr pr val bitmask = Ret (st', m', r) ->
  exists Q', FInvQ (mkFSys st' m' (if r is inr _ then <[w := Blocked]> (phases s) else phases s)) Q'.
Proof.
  intros Hi Hp Ha Hm Hret. destruct (Getkey (mem s) addr pr) as [e | k] eqn:Hk.
  { unfold WaitPrepare in Hret. rewrite Hk in Hret. injection Hret as <- <- <-. exists Q. by destruct s. }
  destruct (fi_entry _ _ w (in_futex _ _ Hi) (in_entry _ _ Hi _ _ Hp)) as (e0 & c0 & b0 & He0 & Hc0 & _ & Hb0 & _).
  pose proof (WaitPrepare_ok _ _ _ w _ _ val bitmask _ _ _ _ _ (in_futex _ _ Hi) (in_mgr _ _ Hi) Hk (unlocked_at _ _ _ _ Hi)
    ltac:(intros; by apply (in_idle _ _ Hi)) He0 Hc0 Hb0) as Hok.
  pose proof (returns_inv _ _ _ Hok Hret) as (_ & Hq & Hf & Ef). destruct r as [e | []]; eexists.
  - by eapply prep_stays.
  - destruct (mask_answers _ Hm). eapply prep_queued; eauto using not_null_key.
Qed.

Lemma step_lock s Q fuel w addr tid pr st' m' r :
  FInvQ s Q -> phases s !! w = Some Idle -> not_null pr addr -> (pending (mem s) < fuel)%nat ->
  LockPI fuel (fs s) mgr (mem s) w addr tid pr false = Ret (st', m', r) ->
  exists Q', FInvQ (mkFSys st' m' (if r is inr false then <[w := Blocked]> (phases s) else phases s)) Q'.
Proof.
  intros Hi Hp Ha Hfl Hret. destruct (Getkey (mem s) addr pr) as [e | k] eqn:Hk.
  { unfold LockPI in Hret. rewrite Hk in Hret. injection Hret as <- <- <-. exists Q. by destruct s. }
  destruct (fi_entry _ _ w (in_futex _ _ Hi) (in_entry _ _ Hi _ _ Hp)) as (e0 & c0 & b0 & He0 & Hc0 & _ & Hb0 & _).
  pose proof (LockPI_ok fuel _ _ _ w _ tid _ false _ _ _ _ _ (in_futex _ _ Hi) (in_mgr _ _ Hi) Hk (unlocked_at _ _ _ _ Hi)
    ltac:(intros; by apply (in_idle _ _ Hi)) He0 Hc0 Hb0 Hfl) as Hok.
  pose proof (returns_inv _ _ _ Hok Hret) as (Hq & Ef & m1 & o & _ & Ho & -> & Hf). destruct o as [e | | |].
  - eexists. by eapply prep_stays.
  - eexists. by eapply prep_stays.
  - exfalso. revert Ho. unfold pi_step. destruct (peek m1 addr); [done |]. by repeat case_match.
  - eexists. eapply prep_queued; eauto using not_null_key.
Qed.

Lemma step_unlock s Q addr tid pr st' m' r :
  FInvQ s Q -> UnlockPI (fs s) mgr (mem s) addr tid pr = Ret (st', m', r) -> exists Q', FInvQ (mkFSys st' m' (phases s)) Q'.
Proof.
  intros Hi Hret. destruct (Getkey (mem s) addr pr) as [e | k] eqn:Hk.
  { unfold UnlockPI in Hret. rewrite Hk in Hret. injection Hret as <- <- <-. exists Q. by destruct s. }
  pose proof (UnlockPI_ok _ _ _ _ tid _ _ _ (in_futex _ _ Hi) (in_mgr _ _ Hi) Hk (unlocked_at _ _ _ _ Hi)) as Hok.
  specialize (Hok ltac:(intros x rest Hx; apply (in_queued _ _ Hi (bucket_of mgr k) k); rewrite Hx; set_solver)).
  pose proof (returns_inv _ _ _ Hok Hret) as (Hq & _ & Hcase). destruct r as [e | []].
  - destruct Hcase as [Ew Hf]. exists Q. apply (inv_move s Q); [done | done | done | by rewrite Ew | by rewrite Ew | by rewrite Ew | | by rewrite Ew].
    intros b k' x Hx. destruct (in_queued _ _ Hi _ _ _ Hx) as (? & ? & _). eauto.
  - destruct Hcase as [Hf Ef]. eexists. by eapply inv_woke_first.
Qed.

(** ** Steps of a thread that ends its wait *)

Lemma inv_phase s Q w p0 p :
  FInvQ s Q -> phases s !! w = Some p0 -> (waits_in_phase p = false -> forall b k, w ∉ Q b k) ->
  (forall k, p = Completing k -> k <> Key_default) -> (waits_in_phase p = true -> waiting_ok (blocked p) (waits (fs s)) Q w) ->
  (waits_in_phase p0 = true -> waits_in_phase p = true \/ forall b k, w ∉ Q b k) ->
  FInvQ (mkFSys (fs s) (mem s) (<[w := p]> (phases s))) Q.
Proof.
  intros Hi Hp Hid Hcm Hwt Hp0.
  assert (Hph : forall x p', <[w := p]> (phases s) !! x = Some p' -> (x = w /\ p' = p) \/ (x <> w /\ phases s !! x = Some p')).
  { intros x p'. destruct (decide (x = w)) as [-> | N]; [rewrite lookup_insert_eq; naive_solver | rewrite lookup_insert_ne by done; naive_solver]. }
  split; simpl; try apply Hi.
  - intros x p' [[-> ->] | [_ Hx]]%Hph; by eapply (in_entry _ _ Hi).
  - intros x p' b k [[-> ->] | [_ Hx]]%Hph; [intros; by apply Hid | by apply (in_resting _ _ Hi)].
  - intros x p' [[-> ->] | [_ Hx]]%Hph; [done | by apply (in_waiting _ _ Hi)].
  - intros b k x Hx. destruct (in_queued _ _ Hi _ _ _ Hx) as (? & ? & (p' & Hp' & Hwp) & A). split_and!; [done | done | | apply A | apply A].
    destruct (decide (x = w)) as [-> | N]; [| exists p'; by rewrite lookup_insert_ne].
    exists p. rewrite lookup_insert_eq. split; [done |]. rewrite Hp in Hp'. injection Hp' as ->. destruct (Hp0 Hwp) as [| Hn]; [done |]. by destruct (Hn b k).
  - intros x x' p1 p2 y H1%Hph H2%Hph. destruct H1 as [[-> ->] | [_ H1]], H2 as [[-> ->] | [_ H2]]; by eapply (in_slots _ _ Hi).
  - intros x k [[-> E] | [_ Hx]]%Hph; [by apply Hcm | by eapply (in_completing _ _ Hi)].
Qed.

Lemma step_read s Q w k :
  FInvQ s Q -> phases s !! w = Some Back -> get_key (fs s) w = Ret k ->
  FInvQ (mkFSys (fs s) (mem s) (<[w := if decide (k = Key_default) then Idle else Completing k]> (phases s))) Q.
Proof.
  intros Hi Hp Hk. destruct (in_waiting _ _ Hi w Back Hp eq_refl) as (c & Hc & Hcase).
  rewrite (get_key_ok _ _ c Hc) in Hk. injection Hk as Hk. eapply inv_phase; [done | exact Hp | | | |].
  - destruct (decide (k = Key_default)); [| done]. intros _. destruct Hcase as [(_ & Hn & _) | (Hd & _)]; [done | congruence].
  - intros k'. destruct (decide (k = Key_default)); [done |]. by intros [= <-].
  - intros _. exists c. split; [done |]. by destruct (decide (k = Key_default)).
  - intros _. destruct (decide (k = Key_default)); [right | by left]. destruct Hcase as [(_ & Hn & _) | (Hd & _)]; [done | congruence].
Qed.

Lemma same_inv s Q st' : FInvQ s Q -> same (fs s) st' -> quiet (fs s) st' -> FInvQ (mkFSys st' (mem s) (phases s)) Q.
Proof.
  intros Hi Hs Hq. apply (inv_move s Q); [done | done | rewrite <- Hs; apply Hi | by rewrite (sm_waits _ _ Hs) | by rewrite (sm_waits _ _ Hs)
    | by rewrite (sm_waits _ _ Hs) | | by rewrite (sm_waits _ _ Hs)].
  intros b k x Hx. destruct (in_queued _ _ Hi _ _ _ Hx) as (? & ? & _). eauto.
Qed.

(** A thread whose entry left the queues stops waiting; the others are where they were. *)
Lemma leave_waiting s Q Q' X w h' x p :
  FInvQ s Q -> effect X [w] Key_default [] (waits (fs s)) h' -> (forall x b k, x ∈ Q' b k <-> x <> w /\ x ∈ Q b k) ->
  phases s !! x = Some p -> waits_in_phase p = true -> x <> w -> waiting_ok (blocked p) h' Q' x.
Proof.
  intros Hi Ef HQ' Hx Hwp N. destruct (in_waiting _ _ Hi x p Hx Hwp) as (cx & Hcx & Hcase). exists cx.
  rewrite (effect_ctx _ _ _ _ _ _ _ _ Ef Hcx), decide_False by set_solver. split; [done |].
  rewrite (effect_ready s Q _ _ _ [] h' x cx Hi Ef ltac:(set_solver) ltac:(eauto) Hcx), orb_false_r.
  destruct Hcase as [(? & Hn & ?) | (? & Hin & ?)]; [left | right]; (split_and!; [done | | done]).
  - intros b k'. rewrite HQ'. naive_solver.
  - by rewrite HQ'.
Qed.

Lemma inv_leave s Q Q' X w p0 st' :
  FInvQ s Q -> phases s !! w = Some p0 -> quiet (fs s) st' -> futex_inv st' Q' ->
  effect X [w] Key_default [] (waits (fs s)) (waits st') -> (forall x b k, x ∈ Q' b k <-> x <> w /\ x ∈ Q b k) ->
  FInvQ (mkFSys st' (mem s) (<[w := Idle]> (phases s))) Q'.
Proof.
  intros Hi Hp Hq Hf Ef HQ'.
  assert (Hph : forall x p, <[w := Idle]> (phases s) !! x = Some p -> (x = w /\ p = Idle) \/ (x <> w /\ phases s !! x = Some p)).
  { intros x p. destruct (decide (x = w)) as [-> | N]; [rewrite lookup_insert_eq; naive_solver | rewrite lookup_insert_ne by done; naive_solver]. }
  split; simpl.
  - done.
  - eapply mgr_ok_quiet; [done | apply Hi].
  - intros b. rewrite (proj1 Hq). apply Hi.
  - intros x p Hx. apply (effect_is_Some _ _ _ _ _ _ _ Ef). destruct (Hph _ _ Hx) as [[-> _] | [_ Hx']]; by eapply (in_entry _ _ Hi).
  - intros x p b k' Hx Hwp. rewrite HQ'. destruct (Hph _ _ Hx) as [[-> _] | [_ Hx']]; [naive_solver |]. intros [_ ?]. by eapply (in_resting _ _ Hi).
  - intros x p Hx Hwp. destruct (Hph _ _ Hx) as [[-> ->] | [N Hx']]; [done | by eapply leave_waiting].
  - intros b k' x [N Hx]%HQ'. destruct (in_queued _ _ Hi _ _ _ Hx) as (? & ? & (p & Hpx & Hwp) & A).
    rewrite !(effect_answers _ _ _ _ _ _ _ x Ef). split_and!; [done | done | exists p; by rewrite lookup_insert_ne | apply A | apply A].
  - intros x x' p p' y Hx Hx'. rewrite !(effect_slot _ _ _ _ _ _ _ Ef).
    destruct (Hph _ _ Hx) as [[-> _] | [_ H1]], (Hph _ _ Hx') as [[-> _] | [_ H2]]; by eapply (in_slots _ _ Hi).
  - intros x k' Hx. destruct (Hph _ _ Hx) as [[_ ?] | [_ Hx']]; [done | by eapply (in_completing _ _ Hi)].
Qed.

Lemma step_complete s Q w k st' stop :
  FInvQ s Q -> phases s !! w = Some (Completing k) -> WaitComplete_locked (fs s) mgr w k = Ret (st', stop) ->
  exists Q', FInvQ (mkFSys st' (mem s) (<[w := if stop : bool then Idle else Back]> (phases s))) Q'.
Proof.
  intros Hi Hp Hret. pose proof (in_completing _ _ Hi w k Hp) as Hkd.
  destruct (in_waiting _ _ Hi w _ Hp eq_refl) as (c & Hc & Hcase).
  destruct (decide (key c = k)) as [Ek | Nk].
  2: { pose proof (WaitComplete_locked_moved _ _ w k _ c (in_futex _ _ Hi) (in_mgr _ _ Hi) (unlocked_at _ _ _ _ Hi) Hc Nk) as Hok.
       pose proof (returns_inv _ _ _ Hok Hret) as (-> & Hs & Hq). exists Q.
       pose proof (same_inv s Q st' Hi Hs Hq) as Hi'. apply (inv_phase _ Q w _ Back Hi' Hp); [done | done | | by left].
       intros _. simpl. rewrite (sm_waits _ _ Hs). by exists c. }
  destruct Hcase as [(Hd & _) | (_ & Hin & _)]; [congruence |]. rewrite Ek in Hin. apply list_elem_of_split in Hin as (l1 & l2 & HQ).
  pose proof (WaitComplete_locked_ok _ _ w k _ c l1 l2 (in_futex _ _ Hi) (in_mgr _ _ Hi) (unlocked_at _ _ _ _ Hi) Hc Ek HQ) as Hok.
  pose proof (returns_inv _ _ _ Hok Hret) as (-> & Hq & Hf & Ef). eexists. eapply (inv_leave s Q); [done | exact Hp | done | exact Hf | exact Ef |].
  assert (Hnd : w ∉ l1 ++ l2).
  { pose proof (rep_nodup _ _ _ (fi_rep _ _ (in_futex _ _ Hi) (bucket_of mgr k) k)) as Hn. rewrite HQ in Hn.
    rewrite <- Permutation_middle in Hn. by apply NoDup_cons in Hn as [? _]. }
  intros x b k'. unfold updQ. destruct (decide (b = bucket_of mgr k /\ k' = k)) as [[-> ->] | N]; [rewrite HQ; set_solver |].
  split; [| by intros [_ ?]]. intros Hx. split; [| done]. intros ->. apply N.
  eapply (fi_disj _ _ (in_futex _ _ Hi)); [exact Hx |]. rewrite HQ. set_solver.
Qed.

(** The event is taken: the bit of the thread's own entry is cleared. *)
Lemma step_event s Q w c h' :
  FInvQ s Q -> phases s !! w = Some Blocked -> ctx (waits (fs s)) w = Some c ->
  Waiter_Clear (waits (fs s)) (waiter c) (waiterID c) = Ret h' ->
  FInvQ (mkFSys (with_waits (fs s) h') (mem s) (<[w := Back]> (phases s))) Q.
Proof.
  intros Hi Hp Hc Hret. destruct (waits_ok_ctx _ _ _ (fi_ok _ _ (in_futex _ _ Hi)) Hc) as [[b Hb] Hid].
  unfold Waiter_Clear, get_waiter in Hret. rewrite Hb, bind_ret in Hret. injection Hret as <-.
  set (h' := put_waiter _ _ _).
  assert (Hr : forall x p cx, x <> w -> phases s !! x = Some p -> ctx (waits (fs s)) x = Some cx ->
    ready h' (waiter cx) (waiterID cx) = ready (waits (fs s)) (waiter cx) (waiterID cx)).
  { intros x p cx N Hx Hcx. unfold ready, h'. simpl. destruct (decide (waiter cx = waiter c)) as [E | N']; [| by rewrite lookup_insert_ne].
    rewrite E, lookup_insert_eq, Hb. simpl. destruct (waits_ok_ctx _ _ _ (fi_ok _ _ (in_futex _ _ Hi)) Hcx) as [_ Hidx].
    assert (N' : waiterID cx <> waiterID c) by (intros E'; apply N; eapply (same_slot s Q x w cx c); eauto).
    rewrite Z.ldiff_spec, testbit_bit by lia. by rewrite bool_decide_eq_false_2, andb_true_r. }
  assert (Hf : futex_inv (with_waits (fs s) h') Q).
  { destruct (in_futex _ _ Hi) as [R D F T O]. split; simpl; [intros b' k; apply (wl_rep_links (waits (fs s))); [done | apply R] | done | done | done |].
    intros e se ce He Hce. destruct (O e se ce He Hce) as [Hw ?]. split; [| done]. simpl.
    destruct (decide (waiter ce = waiter c)) as [-> |]; [by rewrite lookup_insert_eq | by rewrite lookup_insert_ne]. }
  assert (Hph : forall x p, <[w := Back]> (phases s) !! x = Some p -> (x = w /\ p = Back) \/ (x <> w /\ phases s !! x = Some p)).
  { intros x p. destruct (decide (x = w)) as [-> | N]; [rewrite lookup_insert_eq; naive_solver | rewrite lookup_insert_ne by done; naive_solver]. }
  assert (Hw : forall x p, <[w := Back]> (phases s) !! x = Some p -> waits_in_phase p = true -> waiting_ok (blocked p) h' Q x).
  { intros x p Hx Hwp. destruct (Hph _ _ Hx) as [[-> ->] | [N Hx']].
    - destruct (in_waiting _ _ Hi w _ Hp eq_refl) as (c' & Hc' & Hcase). exists c'. split; [done |]. simpl. naive_solver.
    - destruct (in_waiting _ _ Hi x p Hx' Hwp) as (c' & Hc' & Hcase). exists c'. split; [done |]. by rewrite (Hr x p c'). }
  split; simpl; [done | apply Hi | apply Hi | | | done | | |].
  - intros x p Hx. destruct (Hph _ _ Hx) as [[-> _] | [_ Hx']]; by eapply (in_entry _ _ Hi).
  - intros x p b' k Hx Hwp. destruct (Hph _ _ Hx) as [[_ ->] | [_ Hx']]; [done | by eapply (in_resting _ _ Hi)].
  - intros b' k x Hx. destruct (in_queued _ _ Hi _ _ _ Hx) as (? & ? & (p & Hpx & Hwp) & A). split_and!; [done | done | | apply A | apply A].
    destruct (decide (x = w)) as [-> | N]; [exists Back; by rewrite lookup_insert_eq | exists p; by rewrite lookup_insert_ne].
  - intros x x' p p' y Hx Hx'. destruct (Hph _ _ Hx) as [[-> _] | [_ H1]], (Hph _ _ Hx') as [[-> _] | [_ H2]]; by eapply (in_slots _ _ Hi).
  - intros x k Hx. destruct (Hph _ _ Hx) as [[_ ?] | [_ Hx']]; [done | by eapply (in_completing _ _ Hi)].
Qed.

(** A thread that tried a lock in vain is in no queue. *)
Lemma step_trylock s Q fuel w addr tid pr st' m' r :
  FInvQ s Q -> phases s !! w = Some Idle -> (pending (mem s) < fuel)%nat -> LockPI fuel (fs s) mgr (mem s) w addr tid pr true = Ret (st', m', r) ->
  FInvQ (mkFSys st' m' (if r is inr false then <[w := Refused]> (phases s) else phases s)) Q.
Proof.
  intros Hi Hp Hfl Hret. destruct (Getkey (mem s) addr pr) as [e | k] eqn:Hk.
  { unfold LockPI in Hret. rewrite Hk in Hret. injection Hret as <- <- <-. by destruct s. }
  destruct (fi_entry _ _ w (in_futex _ _ Hi) (in_entry _ _ Hi _ _ Hp)) as (e0 & c0 & b0 & He0 & Hc0 & _ & Hb0 & _).
  pose proof (LockPI_ok fuel _ _ _ w _ tid _ true _ _ _ _ _ (in_futex _ _ Hi) (in_mgr _ _ Hi) Hk (unlocked_at _ _ _ _ Hi)
    ltac:(intros; by apply (in_idle _ _ Hi)) He0 Hc0 Hb0 Hfl) as Hok.
  pose proof (returns_inv _ _ _ Hok Hret) as (Hq & Ef & m1 & o & _ & Ho & -> & Hf).
  assert (Hi' : futex_inv st' Q -> FInvQ (mkFSys st' m' (phases s)) Q) by (intros; by eapply prep_stays).
  destruct o as [e | | |]; [by apply Hi'.. | |].
  - apply (inv_phase (mkFSys st' m' (phases s)) Q w Idle); [by apply Hi' | done | intros _ b k'; by apply (in_idle _ _ Hi) | done | done | done].
  - exfalso. revert Ho. unfold pi_step. destruct (peek m1 addr); [done |]. by repeat case_match.
Qed.

Lemma step_give_up s Q fuel w st' :
  FInvQ s Q -> phases s !! w = Some Refused -> nobody_at s w -> WaitComplete (S fuel) (fs s) mgr w = Ret st' ->
  FInvQ (mkFSys st' (mem s) (<[w := Idle]> (phases s))) Q.
Proof.
  intros Hi Hp Hno Hret. assert (Hn : forall b k, w ∉ Q b k) by (intros; by apply (in_resting _ _ Hi w Refused)).
  destruct (fi_threads _ _ (in_futex _ _ Hi) w (in_entry _ _ Hi _ _ Hp)) as [c Hc]. destruct (decide (key c = Key_default)) as [Hd | Hd].
  - simpl in Hret. rewrite (get_key_ok _ _ c Hc), bind_ret, bool_decide_eq_true_2 in Hret by done. injection Hret as <-. by apply (inv_phase s Q w Refused).
  - assert (HQ : Q (bucket_of mgr (key c)) (key c) = []).
    { pose proof (rep_head _ _ _ (fi_rep _ _ (in_futex _ _ Hi) (bucket_of mgr (key c)) (key c))) as Hh. rewrite (Hno c Hc) in Hh. by destruct (Q _ _). }
    pose proof (WaitComplete_nobody fuel (fs s) mgr w Q c (in_futex _ _ Hi) (in_mgr _ _ Hi) (unlocked_at _ _ _ _ Hi) Hc Hd Hn HQ) as Hok.
    pose proof (returns_inv _ _ _ Hok Hret) as (Hq & Hf & Ef). eapply (inv_leave s Q); [done | exact Hp | done | exact Hf | exact Ef |].
    intros x b k. split; [| by intros [_ ?]]. intros Hx. split; [| done]. intros ->. by apply (Hn b k).
Qed.

Lemma fstep_inv s s' : FInv s -> fstep s s' -> FInv s'.
Proof.
  intros [Q Hi] Hs. destruct Hs.
  - exists Q. apply (inv_move s Q); [done | done | apply Hi | done | done | done | | done].
    intros b k x Hx. destruct (in_queued _ _ Hi _ _ _ Hx) as (? & ? & _). eauto.
  - by eapply step_prepare.
  - by eapply step_wake.
  - by eapply step_requeue.
  - by eapply step_wake_op.
  - by eapply step_lock.
  - exists Q. by eapply step_trylock.
  - exists Q. by eapply step_give_up.
  - by eapply step_unlock.
  - exists Q. apply (inv_phase s Q w Blocked); [done | done | done | done | | by left].
    intros _. destruct (in_waiting _ _ Hi w _ H0 eq_refl) as (c & Hc & Hcase). exists c. split; [done |]. naive_solver.
  - exists Q. by apply (step_event s Q w c).
  - exists Q. by apply step_read.
  - by eapply step_complete.
Qed.
End Steps.
