(* ===== verification/FutexSys.v ===== *)
(** Blocking and the futex system call, on top of [Futex.v].

    Models the parts of src/qlib/kernel/threadmgr/task_block.rs that decide how a wait ends,
    src/qlib/kernel/threadmgr/task_futex.rs (the robust list of a thread that exits) and
    src/qkernel/src/syscalls/sys_futex.rs.  Timers are not modelled.  While a thread blocks,
    the rest of the system runs: blocking is a parameter of the system call. *)
From S2P Require Import Prelude WaitList Futex.

#[local] Open Scope Z_scope.
#[local] Open Scope u64_scope.

(** * Blocking *)

Record Blocker : Set := mkBlocker {
  bl_waiter : positive;
  timerEntry : positive;
  interruptEntry : positive;
  generalEntry : positive }.

(** [Blocker::New]: a waiter and three entries. *)
Definition Blocker_New (h : Waits) (taskId : Z) : Waits * Blocker :=
  let w := fresh (dom (waiters h)) in
  let h := put_waiter h w (Waiter_New taskId) in
  let te := fresh (dom (entries h)) in
  let h := put_entry h te (NewThreadContext w TIMER_WAITID 1) in
  let ie := fresh (dom (entries h)) in
  let h := put_entry h ie (NewThreadContext w INTERRUPT_WAITID 1) in
  let ge := fresh (dom (entries h)) in
  let h := put_entry h ge (NewThreadContext w GENERAL_WAITID 0) in
  (h, mkBlocker w te ie ge).

Definition interruptSelf (h : Waits) (bl : Blocker) : outcome Waits :=
  '(h, _) ← WaitEntry_Notify h (interruptEntry bl) 1; Ret h.

Definition Blocker_Interrupted (h : Waits) (bl : Blocker) (clear : bool) : outcome (Waits * bool) :=
  TryWait h (bl_waiter bl) (interruptEntry bl) clear.

(** [Blocker::Check]; the bit sets are written in hexadecimal in the source. *)
Definition Blocker_Check (h : Waits) (bl : Blocker) (waitGeneral : bool) : outcome (Waits * Result unit) :=
  let bm := if waitGeneral then 17 else 16 in
  b ← get_waiter h (bl_waiter bl);
  match Waiter_Check b bm with
  | None => Ret (h, Err (SysError ETIMEDOUT))
  | Some id =>
    if id =? GENERAL_WAITID then (h ← Waiter_Clear h (bl_waiter bl) GENERAL_WAITID; Ret (h, Ok tt))
    else (h ← interruptSelf h bl; Ret (h, Err ErrInterrupted))
  end.

(** One turn of [Blocker::block]: the wait ends, or the thread sleeps. *)
Definition Blocker_block (h : Waits) (bl : Blocker) (waitGeneral waitTimer : bool) : outcome (Waits * option (Result unit)) :=
  let m := Z.lor (Z.lor 2 (if waitTimer then 4 else 0)) (if waitGeneral then 1 else 0) in
  b ← get_waiter h (bl_waiter bl);
  let '(b, oid) := Waiter_Wait_turn b m in
  let h := put_waiter h (bl_waiter bl) b in
  match oid with
  | None => Ret (h, None)
  | Some id =>
    if id =? GENERAL_WAITID then (h ← Waiter_Clear h (bl_waiter bl) GENERAL_WAITID; Ret (h, Some (Ok tt)))
    else if id =? TIMER_WAITID then (h ← Waiter_Clear h (bl_waiter bl) TIMER_WAITID; Ret (h, Some (Err (SysError ETIMEDOUT))))
    else if id =? INTERRUPT_WAITID then (h ← interruptSelf h bl; Ret (h, Some (Err ErrInterrupted)))
    else Panic
  end.

(** * The robust list of a thread that exits *)

(** [CopyInObj] of a structure of [n] words. *)
Class CopyIn (M : Type) : Type := { CopyInWords : M -> Z -> nat -> M * Result (list Z) }.

Abbreviation ROBUST_LIST_LIMIT := 2048 (only parsing).

Section Calls.
Context {M : Type} `{!Target M, !CopyIn M}.

Fixpoint WakeRobustListOne_loop (fuel : nat) (st : FState) (mgr : FutexMgr) (m : M) (tid addr f : Z) (pi : bool) : outcome (FState * M) :=
  match fuel with
  | O => OutOfFuel
  | S fuel =>
    if negb (Z.land f FUTEX_TID_MASK =? tid) then Ret (st, m)
    else
      let newF := Z.lor (Z.land f FUTEX_WAITERS) FUTEX_OWNER_DIED in
      let '(m, r) := CompareAndSwapU32 m addr f newF in
      match r with
      | inl _ => Ret (st, m)
      | inr curF =>
        if negb (curF =? f) then WakeRobustListOne_loop fuel st mgr m tid addr curF pi
        else if negb (Z.land f FUTEX_WAITERS =? 0) then
          let private := negb (Z.land f FUTEX_WAITERS =? 0) in
          if pi then ('(st, m, _) ← UnlockPI st mgr m addr tid private; Ret (st, m))
          else ('(st, _) ← Wake st mgr m addr private FUTEX_BITSET_MATCH_ANY 1; Ret (st, m))
        else Ret (st, m)
      end
  end.

Definition WakeRobustListOne (fuel : nat) (st : FState) (mgr : FutexMgr) (m : M) (tid addr : Z) : outcome (FState * M) :=
  let pi := Z.land addr 1 =? 1 in
  let addr := Z.ldiff addr 1 in
  let '(m, r) := LoadU32 m addr in
  match r with
  | inl _ => Ret (st, m)
  | inr f => WakeRobustListOne_loop fuel st mgr m tid addr f pi
  end.

(** The loop over the list; the fuel is what [ROBUST_LIST_LIMIT] leaves. *)
Fixpoint ExitRobustList_loop (limit : nat) (fuel : nat) (st : FState) (mgr : FutexMgr) (m : M)
  (tid addr offset pendingLockAddr next : Z) : outcome (FState * M * bool) :=
  if next =? addr then Ret (st, m, true)
  else
    let thisLockAddr := next +w offset in
    let '(m, r) := CopyInWords m next 1 in
    '(st, m) ← (if negb (thisLockAddr =? pendingLockAddr) then WakeRobustListOne fuel st mgr m tid thisLockAddr else Ret (st, m));
    match r with
    | inr [next] =>
      match limit with
      | O | S O => Ret (st, m, true)
      | S limit => ExitRobustList_loop limit fuel st mgr m tid addr offset pendingLockAddr next
      end
    | _ => Ret (st, m, false)
    end.

(** The result has the thread's [robust_list_head] after the call. *)
Definition ExitRobustList (fuel : nat) (st : FState) (mgr : FutexMgr) (m : M) (tid robust_list_head : Z) : outcome (FState * M * Z) :=
  let addr := robust_list_head in
  if addr =? 0 then Ret (st, m, 0)
  else
    let '(m, r) := CopyInWords m addr 3 in
    match r with
    | inr [List; FutexOffset; ListOpPending] =>
      let pendingLockAddr := if negb (ListOpPending =? 0) then ListOpPending +w FutexOffset else 0 in
      '(st, m, go) ← ExitRobustList_loop (Z.to_nat ROBUST_LIST_LIMIT) fuel st mgr m tid addr FutexOffset pendingLockAddr List;
      if go && negb (pendingLockAddr =? 0)
      then ('(st, m) ← WakeRobustListOne fuel st mgr m tid pendingLockAddr; Ret (st, m, 0))
      else Ret (st, m, 0)
    | _ => Ret (st, m, 0)
    end.
End Calls.

(** * The system call *)

Abbreviation I64_MAX := 9223372036854775807 (only parsing).
Abbreviation MAX_SEC_IN_DURATION := 9223372036 (only parsing).

Record Timespec : Set := mkTimespec { tv_sec : Z; tv_nsec : Z }.

Definition ToNs (ts : Timespec) : Result Z :=
  if (tv_sec ts <? 0) || (tv_nsec ts <? 0) then Err (SysError EINVAL)
  else Ok ((tv_sec ts * 1000000000 + tv_nsec ts + 2 ^ 63) mod 2 ^ 64 - 2 ^ 63).

Definition ToDuration (ts : Timespec) : Result Z :=
  if MAX_SEC_IN_DURATION <? tv_sec ts then Ok I64_MAX else ToNs ts.

Abbreviation FUTEX_WAIT := 0 (only parsing).
Abbreviation FUTEX_WAKE := 1 (only parsing).
Abbreviation FUTEX_REQUEUE := 3 (only parsing).
Abbreviation FUTEX_CMP_REQUEUE := 4 (only parsing).
Abbreviation FUTEX_WAKE_OP := 5 (only parsing).
Abbreviation FUTEX_LOCK_PI := 6 (only parsing).
Abbreviation FUTEX_UNLOCK_PI := 7 (only parsing).
Abbreviation FUTEX_TRYLOCK_PI := 8 (only parsing).
Abbreviation FUTEX_WAIT_BITSET := 9 (only parsing).
Abbreviation FUTEX_WAKE_BITSET := 10 (only parsing).
Abbreviation FUTEX_PRIVATE_FLAG := 128 (only parsing).
Abbreviation FUTEX_CLOCK_REALTIME := 256 (only parsing).

Record FutexWaitRestartBlock : Set := mkRestart { rb_dur : Z; rb_addr : Z; rb_private : bool; rb_val : Z; rb_mask : Z }.

Section SysFutex.
Context {M : Type} `{!Target M, !CopyIn M}.

(** The calling task, and what happens while it blocks: with a deadline on one of the two
    clocks, or with a timeout of which some remains. *)
Variables (mgr : FutexMgr) (w : positive) (tid : Z) (fuel : nat).
Variable BlockWithTimer : bool -> option Z -> FState -> M -> outcome (FState * M * Result unit).
Variable BlockWithMonoTimeout : option Z -> FState -> M -> outcome (FState * M * (Z * Result unit)).

Definition FutexWaitAbsolute (st : FState) (m : M) (realtime : bool) (ts : option Timespec) (addr : Z) (private : bool) (val mask : Z)
  : outcome (FState * M * Result Z) :=
  '(st, m, r) ← WaitPrepare st mgr m w addr private val mask;
  match r with
  | inl e => Ret (st, m, Err e)
  | inr _ =>
    let wait rt deadline :=
      '(st, m, res) ← BlockWithTimer rt deadline st m;
      st ← WaitComplete fuel st mgr w;
      Ret (st, m, match res with
                  | inl ErrInterrupted => Err (SysError ERESTARTSYS)
                  | inl e => Err e
                  | inr _ => Ok 0
                  end) in
    match ts with
    | None => wait true None
    | Some ts => match ToDuration ts with inl e => Ret (st, m, Err e) | inr ns => wait realtime (Some ns) end
    end
  end.

Definition FutexWaitDuration (st : FState) (m : M) (dur : option Z) (addr : Z) (private : bool) (val mask : Z)
  : outcome (FState * M * option FutexWaitRestartBlock * Result Z) :=
  '(st, m, r) ← WaitPrepare st mgr m w addr private val mask;
  match r with
  | inl e => Ret (st, m, None, Err e)
  | inr _ =>
    '(st, m, (remain, res)) ← BlockWithMonoTimeout dur st m;
    st ← WaitComplete fuel st mgr w;
    match res with
    | inr _ => Ret (st, m, None, Ok 0)
    | inl ErrInterrupted =>
      match dur with
      | None => Ret (st, m, None, Err (SysError ERESTARTSYS))
      | Some _ => Ret (st, m, Some (mkRestart remain addr private val mask), Err (SysError ERESTART_RESTARTBLOCK))
      end
    | inl e => Ret (st, m, None, Err e)
    end
  end.

Definition FutexLockPI (st : FState) (m : M) (ts : option Timespec) (addr : Z) (private : bool) : outcome (FState * M * Result unit) :=
  '(st, m, r) ← LockPI fuel st mgr m w addr tid private false;
  match r with
  | inl e => Ret (st, m, Err e)
  | inr true => Ret (st, m, Ok tt)
  | inr false =>
    let wait deadline :=
      '(st, m, res) ← BlockWithTimer true deadline st m;
      st ← WaitComplete fuel st mgr w;
      Ret (st, m, match res with
                  | inl ErrInterrupted => Err (SysError ERESTARTSYS)
                  | inl e => Err e
                  | inr _ => Ok tt
                  end) in
    match ts with
    | None => wait None
    | Some ts => match ToDuration ts with inl e => Ret (st, m, Err e) | inr ns => wait (Some ns) end
    end
  end.

Definition TryLockPid (st : FState) (m : M) (addr : Z) (private : bool) : outcome (FState * M * Result unit) :=
  '(st, m, r) ← LockPI fuel st mgr m w addr tid private true;
  match r with
  | inl e => Ret (st, m, Err e)
  | inr true => Ret (st, m, Ok tt)
  | inr false => st ← WaitComplete fuel st mgr w; Ret (st, m, Err (SysError EWOULDBLOCK))
  end.

(** [task.CopyInObj::<Timespec>(timeout)?], or [None] without a timeout. *)
Definition copy_timeout (m : M) (timeout : Z) : M * Result (option Timespec) :=
  if timeout =? 0 then (m, Ok None)
  else
    let '(m, r) := CopyInWords m timeout 2 in
    let i64 z := (z + 2 ^ 63) mod 2 ^ 64 - 2 ^ 63 in
    (m, match r with
        | inr [s; n] => Ok (Some (mkTimespec (i64 s) (i64 n)))
        | inr _ => Err (SysError EFAULT)
        | inl e => Err e
        end).

Definition SysFutex (st : FState) (m : M) (arg0 arg1 arg2 arg3 arg4 arg5 : Z)
  : outcome (FState * M * option FutexWaitRestartBlock * Result Z) :=
  let addr := arg0 in
  let futexOp := to_i32 arg1 in
  let val := to_i32 arg2 in
  let nreq := to_i32 arg3 in
  let timeout := arg3 in
  let naddr := arg4 in
  let val3 := to_i32 arg5 in
  let cmd := Z.ldiff futexOp (Z.lor FUTEX_PRIVATE_FLAG FUTEX_CLOCK_REALTIME) in
  let private := negb (Z.land futexOp FUTEX_PRIVATE_FLAG =? 0) in
  let realtime := negb (Z.land futexOp FUTEX_CLOCK_REALTIME =? 0) in
  let mask := val3 mod 2 ^ 32 in
  let plain (r : FState * M * Result Z) : FState * M * option FutexWaitRestartBlock * Result Z :=
    let '(st, m, r) := r in (st, m, None, r) in
  let unit_result (r : FState * M * Result unit) : FState * M * option FutexWaitRestartBlock * Result Z :=
    let '(st, m, r) := r in (st, m, None, match r with inl e => Err e | inr _ => Ok 0 end) in
  if (cmd =? FUTEX_WAIT) || (cmd =? FUTEX_WAIT_BITSET) then
    let '(m, r) := copy_timeout m timeout in
    match r with
    | inl e => Ret (st, m, None, Err e)
    | inr ts =>
      if cmd =? FUTEX_WAIT then
        match ts with
        | None => FutexWaitDuration st m None addr private (val mod 2 ^ 32) (2 ^ 32 - 1)
        | Some ts =>
          match ToDuration ts with
          | inl e => Ret (st, m, None, Err e)
          | inr d => FutexWaitDuration st m (Some d) addr private (val mod 2 ^ 32) (2 ^ 32 - 1)
          end
        end
      else if mask =? 0 then Ret (st, m, None, Err (SysError EINVAL))
      else r ← FutexWaitAbsolute st m realtime ts addr private (val mod 2 ^ 32) mask; Ret (plain r)
    end
  else if (cmd =? FUTEX_WAKE) || (cmd =? FUTEX_WAKE_BITSET) then
    if (cmd =? FUTEX_WAKE_BITSET) && (mask =? 0) then Ret (st, m, None, Err (SysError EINVAL))
    else
      '(st, r) ← Wake st mgr m addr private (if cmd =? FUTEX_WAKE then 2 ^ 32 - 1 else mask) (if val =? 0 then 1 else val);
      Ret (st, m, None, r)
  else if cmd =? FUTEX_REQUEUE then (r ← Requeue st mgr m addr naddr private val nreq; Ret (plain r))
  else if cmd =? FUTEX_CMP_REQUEUE then (r ← RequeueCmp st mgr m addr naddr private (val3 mod 2 ^ 32) val nreq; Ret (plain r))
  else if cmd =? FUTEX_WAKE_OP then (r ← WakeOp fuel st mgr m addr naddr private val nreq (val3 mod 2 ^ 32); Ret (plain r))
  else if cmd =? FUTEX_LOCK_PI then
    let '(m, r) := copy_timeout m timeout in
    match r with
    | inl e => Ret (st, m, None, Err e)
    | inr ts => r ← FutexLockPI st m ts addr private; Ret (unit_result r)
    end
  else if cmd =? FUTEX_TRYLOCK_PI then (r ← TryLockPid st m addr private; Ret (unit_result r))
  else if cmd =? FUTEX_UNLOCK_PI then (r ← UnlockPI st mgr m addr tid private; Ret (unit_result r))
  else Ret (st, m, None, Err (SysError ENOSYS)).
End SysFutex.
