(* ===== verification/FutexRun.v ===== *)
(** The calls of a thread, from any state of the interleaved system of [FutexSteps.v].

    Each call returns, and what it does is a run of that system; [ran] composes these
    runs along the branches of the system call. *)
From S2P Require Import Prelude WaitList WaitListThm WaitListOps Futex FutexThm FutexOps FutexPairs FutexMem FutexPi FutexSteps FutexSys.
From stdpp Require Import relations.

#[local] Open Scope Z_scope.

(** Starting a wait returns: an error of the address at once, the rest by what the calls do. *)
Lemma start_returns {M} `{TargetLaws M} mgr (s : FSys M) Q fuel w addr pr n k tid try :
  FInvQ mgr s Q -> (pending (mem s) < fuel)%nat -> phases s !! w = Some Idle ->
  (exists x, WaitPrepare (fs s) mgr (mem s) w addr pr n k = Ret x) /\ (exists x, LockPI fuel (fs s) mgr (mem s) w addr tid pr try = Ret x).
Proof.
  intros Hi Hf Hw. pose proof (in_futex _ _ _ Hi) as If. pose proof (in_mgr _ _ _ Hi) as Im.
  destruct (fi_entry _ _ w If (in_entry _ _ _ Hi _ _ Hw)) as (e0 & c0 & b0 & He0 & Hc0 & _ & Hb0 & _).
  assert (Hn : forall b k, w ∉ Q b k) by (intros; by apply (in_idle _ _ _ Hi)).
  destruct (Getkey (mem s) addr pr) as [e | k1] eqn:Hk.
  - unfold WaitPrepare, LockPI. rewrite Hk. eauto.
  - assert (Hl : HashCode k1 ∉ locks_of (fs s) (bucket_of mgr k1)) by (by eapply unlocked_at). split.
    + destruct (WaitPrepare_ok (fs s) mgr (mem s) w addr pr n k Q k1 e0 c0 b0) as (x & ? & _); eauto.
    + destruct (LockPI_ok fuel (fs s) mgr (mem s) w addr tid pr try Q k1 e0 c0 b0) as (x & ? & _); eauto.
Qed.

Section Returns.
Context {M : Type} `{TargetLaws M} (mgr : FutexMgr).
Implicit Types (s : FSys M).

Lemma wake_returns s Q addr pr bitmask n : FInvQ mgr s Q -> exists x, Wake (fs s) mgr (mem s) addr pr bitmask n = Ret x.
Proof.
  intros Hi. destruct (Getkey (mem s) addr pr) as [e | k1] eqn:Hk; [unfold Wake; rewrite Hk; eauto |].
  destruct (wake_walk (answers (waits (fs s)) bitmask) (Z.to_nat n) (Q (bucket_of mgr k1) k1)) as [[wk sk] rest] eqn:Hw.
  eapply returns_some. eapply Wake_ok; [apply Hi | apply Hi | exact Hk | by eapply unlocked_at | exact Hw].
Qed.

Lemma unlock_returns s Q addr tid pr : FInvQ mgr s Q -> exists x, UnlockPI (fs s) mgr (mem s) addr tid pr = Ret x.
Proof.
  intros Hi. destruct (Getkey (mem s) addr pr) as [e | k1] eqn:Hk; [unfold UnlockPI; rewrite Hk; eauto |].
  eapply returns_some. eapply (UnlockPI_ok (fs s) mgr (mem s) addr tid pr Q k1); [apply Hi | apply Hi | done | by eapply unlocked_at |].
  intros x rest Hx. apply (in_queued _ _ _ Hi (bucket_of mgr k1) k1). rewrite Hx. set_solver.
Qed.

Lemma requeue_returns s Q addr naddr pr chk val n k :
  FInvQ mgr s Q -> (forall k, Getkey (mem s) addr pr = Ok k -> Getkey (mem s) naddr pr <> Ok k) ->
  exists x, doRequeue (fs s) mgr (mem s) addr naddr pr chk val n k = Ret x.
Proof.
  intros Hi Hne. destruct (Getkey (mem s) addr pr) as [e | k1] eqn:Hk1; [unfold doRequeue; rewrite Hk1; eauto |].
  destruct (Getkey (mem s) naddr pr) as [e | k2] eqn:Hk2; [unfold doRequeue; rewrite Hk1, Hk2; eauto |].
  destruct (wake_walk (answers (waits (fs s)) U64_MAX) (Z.to_nat n) (Q (bucket_of mgr k1) k1)) as [[wk sk] rest] eqn:Hw.
  eapply returns_some. eapply (doRequeue_ok (fs s) mgr (mem s) addr naddr pr chk val n k Q k1 k2); try done.
  all: first [apply Hi | by intros ->; destruct (Hne k2) | by eapply unlocked_at].
Qed.

Lemma AtomicOp_returns fuel (m : M) addr op : (pending m < fuel)%nat -> exists x, AtomicOp fuel m addr op = Ret x.
Proof.
  intros Hf. unfold AtomicOp. destruct (if negb _ then _ else _) as [o arg].
  destruct (Z.eqb_spec o FUTEX_OP_SET) as [-> | N]; [rewrite bind_ret; destruct (SwapU32 m addr arg); eauto |].
  destruct (AtomicOp_loop_at fuel m addr o arg N Hf) as ([m' r] & -> & _). rewrite bind_ret. eauto.
Qed.

Lemma wake_op_returns s Q fuel addr1 addr2 pr n1 n2 op :
  FInvQ mgr s Q -> (forall k, Getkey (mem s) addr1 pr = Ok k -> Getkey (mem s) addr2 pr <> Ok k) -> (pending (mem s) < fuel)%nat ->
  exists x, WakeOp fuel (fs s) mgr (mem s) addr1 addr2 pr n1 n2 op = Ret x.
Proof.
  intros Hi Hne Hf. destruct (Getkey (mem s) addr1 pr) as [e | k1] eqn:Hk1; [unfold WakeOp; rewrite Hk1; eauto |].
  destruct (Getkey (mem s) addr2 pr) as [e | k2] eqn:Hk2; [unfold WakeOp; rewrite Hk1, Hk2; eauto |].
  destruct (AtomicOp_returns fuel (mem s) addr2 op Hf) as [[m' c] Ha].
  destruct (wake_walk (answers (waits (fs s)) U64_MAX) (Z.to_nat n1) (Q (bucket_of mgr k1) k1)) as [[wk1 sk1] rest1] eqn:Hw1.
  destruct (wake_walk (answers (waits (fs s)) U64_MAX) (Z.to_nat n2) (Q (bucket_of mgr k2) k2)) as [[wk2 sk2] rest2] eqn:Hw2.
  eapply returns_some. eapply (WakeOp_ok fuel (fs s) mgr (mem s) m' addr1 addr2 pr n1 n2 op Q k1 k2); try done.
  all: first [apply Hi | by intros ->; destruct (Hne k2) | by eapply unlocked_at].
Qed.

(** Ending the wait of a thread that is in no queue returns, whoever is in the queue. *)
Lemma give_up_returns s Q fuel w :
  FInvQ mgr s Q -> phases s !! w = Some Refused -> (0 < fuel)%nat -> exists st', WaitComplete fuel (fs s) mgr w = Ret st'.
Proof.
  intros Hi Hp Hf. destruct fuel as [| fuel]; [lia |]. pose proof (in_entry _ _ _ Hi _ _ Hp) as He.
  destruct (fi_threads _ _ (in_futex _ _ _ Hi) w He) as [c Hc]. destruct (decide (key c = Key_default)) as [Hd | Hd].
  - simpl. rewrite (get_key_ok _ _ c Hc), bind_ret, bool_decide_eq_true_2 by done. eauto.
  - eapply returns_some, (WaitComplete_unlinked fuel (fs s) mgr w Q c); [apply Hi | apply Hi | by eapply unlocked_at | done | done |].
    apply (fi_free _ _ (in_futex _ _ _ Hi)); [done |]. intros b k. by apply (in_resting _ _ _ Hi w Refused).
Qed.

(** Ending a wait is a run of the system at whose end the thread does not wait. *)
Lemma complete_run s Q fuel w :
  FInvQ mgr s Q -> phases s !! w = Some Back -> (0 < fuel)%nat ->
  exists st', WaitComplete fuel (fs s) mgr w = Ret st' /\
    rtc (fstep mgr) s (mkFSys st' (mem s) (<[w := Idle]> (phases s))).
Proof.
  intros Hi Hw Hf. destruct fuel as [| fuel]; [lia |].
  destruct (in_waiting _ _ _ Hi w Back Hw eq_refl) as (c & Hc & Hcase).
  pose proof (get_key_ok (fs s) w c Hc) as Hg. pose proof (s_read mgr s w (key c) Hw Hg) as Hs1.
  destruct Hcase as [(Hk & _) | (Hk & Hq & _)].
  - exists (fs s). simpl. rewrite Hg, bind_ret, bool_decide_eq_true_2 by done. split; [done |].
    rewrite decide_True in Hs1 by done. by apply rtc_once.
  - rewrite decide_False in Hs1 by done. apply list_elem_of_split in Hq as (l1 & l2 & HQ).
    destruct (WaitComplete_locked_ok (fs s) mgr w (key c) Q c l1 l2) as ([st' stop] & He & -> & _);
      [apply Hi | apply Hi | by eapply unlocked_at | done | done | done |].
    exists st'. simpl. rewrite Hg, bind_ret, bool_decide_eq_false_2, He by done. split; [done |].
    eapply rtc_l; [exact Hs1 |]. apply rtc_once.
    pose proof (s_complete mgr (mkFSys (fs s) (mem s) (<[w := Completing (key c)]> (phases s))) w (key c) st' true) as Hs2.
    simpl in Hs2. rewrite insert_insert_eq in Hs2. apply Hs2; [by rewrite lookup_insert_eq | done].
Qed.
End Returns.

(** * The system call *)

Section Calls.
Context {M : Type} `{TargetLaws M} `{!CopyIn M} (mgr : FutexMgr) (w : positive) (tid : Z) (fuel : nat).
Implicit Types (s : FSys M).

(** The state [(st', m')] ends a run from [s] after which [w] does not wait. *)
Definition ran s (st' : FState) (m' : M) : Prop :=
  exists ph, rtc (fstep mgr) s (mkFSys st' m' ph) /\ ph !! w = Some Idle.

(** What blocking does to the states that follow [s]: other threads run, and [w] is back. *)
Definition blocks {B} s (block : FState -> M -> outcome (FState * M * B)) : Prop :=
  forall s', rtc (fstep mgr) s s' -> phases s' !! w = Some Blocked ->
    exists st' m' ph b, block (fs s') (mem s') = Ret (st', m', b) /\
      rtc (fstep mgr) s' (mkFSys st' m' ph) /\ ph !! w = Some Back.

Lemma ran_refl s m' : phases s !! w = Some Idle -> ran s (fs s) m'.
Proof. intros Hw. exists (phases s). split; [apply rtc_once, s_memory | done]. Qed.

Lemma ran_once s st' m' : phases s !! w = Some Idle -> fstep mgr s (mkFSys st' m' (phases s)) -> ran s st' m'.
Proof. intros Hw Hs. exists (phases s). split; [by apply rtc_once | done]. Qed.

Lemma ran_memory s m st' m' : ran (mkFSys (fs s) m (phases s)) st' m' -> ran s st' m'.
Proof. intros (ph & Hr & Hi). exists ph. split; [| done]. eapply rtc_l; [apply (s_memory mgr s m) | exact Hr]. Qed.

Lemma blocks_step {B} s s' (block : FState -> M -> outcome (FState * M * B)) : fstep mgr s s' -> blocks s block -> blocks s' block.
Proof. intros Hs Hb s2 Hr. apply Hb. by eapply rtc_l. Qed.

Lemma run_inv s s' : FInv mgr s -> rtc (fstep mgr) s s' -> FInv mgr s'.
Proof. intros Hi. induction 1 as [| s1 s2 s3 Hs _ IH]; [done |]. apply IH. by eapply fstep_inv. Qed.

(** Blocking and then ending the wait. *)
Lemma block_run {B C} s st m ph0 block (k : FState * M * B -> outcome C) P :
  FInv mgr s -> fstep mgr s (mkFSys st m (<[w := Blocked]> ph0)) -> blocks s block -> (0 < fuel)%nat ->
  (forall st1 m1 b st2, WaitComplete fuel st1 mgr w = Ret st2 -> ran s st2 m1 -> returns (k (st1, m1, b)) P) ->
  returns (x ← block st m; k x) P.
Proof.
  intros Hi Hs Hb Hf Hk. destruct (Hb _ (rtc_once _ _ Hs) (lookup_insert_eq _ _ _)) as (st1 & m1 & ph & b & He & Hr & Hw).
  simpl in He. rewrite He.
  assert (Hi1 : FInv mgr (mkFSys st1 m1 ph)) by (eapply run_inv; [exact Hi | by eapply rtc_l]). destruct Hi1 as [Q Hi1].
  destruct (complete_run mgr _ Q fuel w Hi1 Hw Hf) as (st2 & Hc & Hr2). simpl in Hc, Hr2.
  rewrite bind_ret. apply (Hk st1 m1 b st2 Hc). eexists. split; [| apply lookup_insert_eq].
  eapply rtc_l; [exact Hs |]. by etrans.
Qed.

Section Waits.
Variable s : FSys M.
Hypothesis Hi : FInv mgr s.
Hypothesis Hw : phases s !! w = Some Idle.
Hypothesis Hf : (pending (mem s) < fuel)%nat.

Lemma wait_duration_run block dur addr pr val mask :
  not_null pr addr -> 0 < mask < 2 ^ 32 -> blocks s (block dur) ->
  returns (FutexWaitDuration mgr w fuel block (fs s) (mem s) dur addr pr val mask) (fun '(st', m', rb, r) => ran s st' m' /\
    (is_Some rb -> r = Err (SysError ERESTART_RESTARTBLOCK))).
Proof.
  intros Ha Hm Hb. pose proof Hi as [Q HQ]. destruct (start_returns mgr s Q fuel w addr pr val mask tid false HQ Hf Hw) as [([[st' m'] r] & He) _].
  pose proof (s_prepare mgr s w addr pr val mask st' m' r Hw Ha Hm He) as Hs. unfold FutexWaitDuration. rewrite He, bind_ret.
  destruct r as [e | u]; [apply returns_ret; split; [by apply ran_once | by intros []] |].
  eapply block_run; [exact Hi | exact Hs | done | lia |].
  intros st1 m1 [rem res] st2 Hc Hran. rewrite Hc, bind_ret. destruct res as [e | ?]; [| apply returns_ret; split; [done | by intros []]].
  destruct e; try (apply returns_ret; split; [done | by intros []]).
  destruct dur; apply returns_ret; (split; [done |]); [done | by intros []].
Qed.

Lemma wait_absolute_run block rt ts addr pr val mask :
  not_null pr addr -> 0 < mask < 2 ^ 32 -> (forall rt d, blocks s (block rt d)) ->
  (forall t, ts = Some t -> exists ns, ToDuration t = Ok ns) ->
  returns (FutexWaitAbsolute mgr w fuel block (fs s) (mem s) rt ts addr pr val mask) (fun '(st', m', r) => ran s st' m').
Proof.
  intros Ha Hm Hb Ht. pose proof Hi as [Q HQ]. destruct (start_returns mgr s Q fuel w addr pr val mask tid false HQ Hf Hw) as [([[st' m'] r] & He) _].
  pose proof (s_prepare mgr s w addr pr val mask st' m' r Hw Ha Hm He) as Hs. unfold FutexWaitAbsolute. rewrite He, bind_ret.
  destruct r as [e | u]; [apply returns_ret; by apply ran_once |]. cbv zeta.
  destruct ts as [t |]; [destruct (Ht t eq_refl) as [ns ->] |].
  all: eapply block_run; [exact Hi | exact Hs | apply Hb | lia |].
  all: intros st1 m1 b st2 Hc Hran; rewrite Hc, bind_ret; by apply returns_ret.
Qed.

Lemma lock_run block ts addr pr :
  not_null pr addr -> (forall rt d, blocks s (block rt d)) -> (forall t, ts = Some t -> exists ns, ToDuration t = Ok ns) ->
  returns (FutexLockPI mgr w tid fuel block (fs s) (mem s) ts addr pr) (fun '(st', m', r) => ran s st' m').
Proof.
  intros Ha Hb Ht. pose proof Hi as [Q HQ]. destruct (start_returns mgr s Q fuel w addr pr 0 0 tid false HQ Hf Hw) as [_ ([[st' m'] r] & He)].
  pose proof (s_lock mgr s fuel w addr tid pr st' m' r Hw Ha Hf He) as Hs. unfold FutexLockPI. rewrite He, bind_ret.
  destruct r as [e | [|]]; [apply returns_ret; by apply ran_once.. |]. cbv zeta.
  destruct ts as [t |]; [destruct (Ht t eq_refl) as [ns ->] |].
  all: eapply block_run; [exact Hi | exact Hs | apply Hb | lia |].
  all: intros st1 m1 b st2 Hc Hran; rewrite Hc, bind_ret; by apply returns_ret.
Qed.
(** After a lock was tried in vain, nobody waits at the key of the entry if nobody did before. *)
Lemma refused_nobody addr pr st' m' :
  (forall k, Getkey (mem s) addr pr = Ok k -> queue_at (fs s) (bucket_of mgr k) k = WaitList_default) ->
  LockPI fuel (fs s) mgr (mem s) w addr tid pr true = Ret (st', m', Ok false) ->
  nobody_at mgr (mkFSys st' m' (<[w := Refused]> (phases s))) w.
Proof.
  intros Hno Hret. pose proof Hi as [Q HQ]. destruct (Getkey (mem s) addr pr) as [e | k] eqn:Hk; [unfold LockPI in Hret; by rewrite Hk in Hret |].
  destruct (fi_entry _ _ w (in_futex _ _ _ HQ) (in_entry _ _ _ HQ _ _ Hw)) as (e0 & c0 & b0 & He0 & Hc0 & _ & Hb0 & _).
  pose proof (LockPI_ok fuel _ _ _ w _ tid _ true _ _ _ _ _ (in_futex _ _ _ HQ) (in_mgr _ _ _ HQ) Hk (unlocked_at _ _ _ _ _ HQ)
    ltac:(intros; by apply (in_idle _ _ _ HQ)) He0 Hc0 Hb0 Hf) as Hok.
  pose proof (returns_inv _ _ _ Hok Hret) as (_ & Ef & m1 & o & _ & Ho & Er & Hf').
  assert (Hfq : futex_inv st' Q) by (destruct o as [| | |]; try done; exfalso; revert Ho; unfold pi_step; destruct (peek m1 addr); [done |]; by repeat case_match).
  intros c. simpl. pose proof (prepared_ctx (waits (fs s)) w e0 c0 b0 U64_MAX tid k w) as Hpc. rewrite decide_True in Hpc by done.
  rewrite (effect_ctx _ _ _ _ _ _ _ _ Ef Hpc), decide_False by set_solver. intros [= <-]. simpl.
  assert (HQn : Q (bucket_of mgr k) k = []).
  { pose proof (rep_head _ _ _ (fi_rep _ _ (in_futex _ _ _ HQ) (bucket_of mgr k) k)) as Hh. rewrite (Hno k eq_refl) in Hh. by destruct (Q _ _). }
  destruct (fi_rep _ _ Hfq (bucket_of mgr k) k) as [Hh Ht _ _]. rewrite HQn in Hh, Ht. destruct (queue_at st' _ _). simpl in *. by subst.
Qed.

Lemma trylock_run addr pr :
  (forall k, Getkey (mem s) addr pr = Ok k -> queue_at (fs s) (bucket_of mgr k) k = WaitList_default) ->
  returns (TryLockPid mgr w tid fuel (fs s) (mem s) addr pr) (fun '(st', m', r) => ran s st' m').
Proof.
  intros Hno. pose proof Hi as [Q HQ]. destruct (start_returns mgr s Q fuel w addr pr 0 0 tid true HQ Hf Hw) as [_ ([[st' m'] r] & He)].
  pose proof (s_trylock mgr s fuel w addr tid pr st' m' r Hw Hf He) as Hs. unfold TryLockPid. rewrite He, bind_ret.
  destruct r as [e | [|]]; [apply returns_ret; by apply ran_once.. |]. set (s1 := mkFSys st' m' (<[w := Refused]> (phases s))) in *.
  pose proof (refused_nobody addr pr st' m' Hno He) as Hn. assert (Hp1 : phases s1 !! w = Some Refused) by apply lookup_insert_eq.
  destruct (fstep_inv _ _ _ Hi Hs) as [Q1 HQ1]. destruct fuel as [| fuel'] eqn:Efuel; [lia |].
  destruct (give_up_returns mgr s1 Q1 (S fuel') w HQ1 Hp1 ltac:(lia)) as [st2 He2]. change (fs s1) with st' in He2. rewrite He2, bind_ret. apply returns_ret.
  exists (<[w := Idle]> (phases s1)). split; [| apply lookup_insert_eq]. eapply rtc_l; [exact Hs |]. apply rtc_once. by apply (s_give_up mgr s1 fuel' w st2).
Qed.
End Waits.
End Calls.
