(* ===== verification/WaitProps.v ===== *)
(** Theorems about wait lists, waiters and blocking. *)
From stdpp Require Import relations.
From S2P Require Import Prelude WaitList WaitListThm WaitListOps Futex FutexSys.

#[local] Open Scope Z_scope.

(** * Wait lists *)

Inductive wl_op : Set := OpFront (e : positive) | OpBack (e : positive) | OpRemove (e : positive).

Definition run_op (hq : Waits * WaitList) (o : wl_op) : outcome (Waits * WaitList) :=
  match o with
  | OpFront e => PushFront hq.1 hq.2 e
  | OpBack e => PushBack hq.1 hq.2 e
  | OpRemove e => WaitList_Remove hq.1 hq.2 e
  end.

Fixpoint run_ops (hq : Waits * WaitList) (os : list wl_op) : outcome (Waits * WaitList) :=
  match os with
  | [] => Ret hq
  | o :: os => hq ← run_op hq o; run_ops hq os
  end.

(** The abstract operations, and when they may be called. *)
Definition abs_op (l : list positive) (o : wl_op) : list positive :=
  match o with
  | OpFront e => e :: l
  | OpBack e => l ++ [e]
  | OpRemove e => filter (fun x => x <> e) l
  end.

Definition op_ok (h : Waits) (l : list positive) (o : wl_op) : Prop :=
  match o with
  | OpFront e | OpBack e => (e ∉ l) /\ is_Some (entries h !! e)
  | OpRemove e => e ∈ l
  end.

Fixpoint ops_ok (h : Waits) (l : list positive) (os : list wl_op) : Prop :=
  match os with
  | [] => True
  | o :: os =>
    op_ok h l o /\ ops_ok h (abs_op l o) os
  end.

(** The list, and entries outside it that have no links. *)
Definition wl_inv (h : Waits) (q : WaitList) (l : list positive) : Prop :=
  wl_rep h q l /\ forall e, e ∉ l -> is_Some (entries h !! e) -> unlinked h e.

Lemma relinked_some l h h' e : relinked l h h' -> is_Some (entries h' !! e) <-> is_Some (entries h !! e).
Proof. intros R. pose proof (rl_payload _ _ _ R e) as P. unfold payload in P. destruct (entries h !! e), (entries h' !! e); simpl in P; naive_solver. Qed.

Lemma ops_ok_ext h h' l os : (forall e, is_Some (entries h' !! e) <-> is_Some (entries h !! e)) -> ops_ok h l os -> ops_ok h' l os.
Proof.
  intros He. revert l. induction os as [| o os IH]; intros l; simpl; [done |]. intros [Ho Hs]. split; [| by apply IH].
  destruct o; unfold op_ok in *; rewrite ?He; done.
Qed.

Lemma filter_remove (l1 : list positive) e l2 : NoDup (l1 ++ e :: l2) -> filter (fun x => x <> e) (l1 ++ e :: l2) = l1 ++ l2.
Proof.
  intros (_ & H1 & [H2 _]%NoDup_cons)%NoDup_app. rewrite filter_app, filter_cons_False by naive_solver.
  by rewrite !filter_all by (apply Forall_forall; set_solver).
Qed.

Lemma run_op_ok h q l o :
  wl_inv h q l -> op_ok h l o ->
  returns (run_op (h, q) o) (fun '(h', q') => wl_inv h' q' (abs_op l o) /\ (forall e, payload h' e = payload h e) /\
    waiters h' = waiters h /\ forall e, is_Some (entries h' !! e) <-> is_Some (entries h !! e)).
Proof.
  intros [Hr Hu] Ho.
  assert (Hpush : forall e (m : outcome (Waits * WaitList)) l', e ∉ l -> (forall x, x ∈ l' <-> x = e \/ x ∈ l) ->
    returns m (fun '(h', q') => wl_rep h' q' l' /\ relinked (e :: l) h h') ->
    returns m (fun '(h', q') => wl_inv h' q' l' /\ (forall e, payload h' e = payload h e) /\
      waiters h' = waiters h /\ forall e, is_Some (entries h' !! e) <-> is_Some (entries h !! e))).
  { intros e m l' He Hl' Hm. eapply returns_mono; [exact Hm |]. intros [h' q'] [Hr' R].
    split_and!; [split; [done |] | apply R | apply R | intros x; by eapply relinked_some].
    intros x Hx Hs. unfold unlinked. rewrite (relinked_links _ _ _ x R) by set_solver. apply Hu; [set_solver |]. by apply (relinked_some _ _ _ _ R). }
  destruct o as [e | e | e]; simpl.
  - destruct Ho as [He Hs]. apply (Hpush e); [done | set_solver |]. apply PushFront_rep; auto.
  - destruct Ho as [He Hs]. apply (Hpush e); [done | set_solver |]. apply PushBack_rep; auto.
  - apply list_elem_of_split in Ho as (l1 & l2 & ->). rewrite filter_remove by apply Hr.
    eapply returns_mono; [by apply Remove_wl_rep |]. intros [h' q'] (Hr' & R & U).
    split_and!; [split; [done |] | apply R | apply R | intros x; by eapply relinked_some].
    intros x Hx Hs. destruct (decide (x = e)) as [-> | N]; [done |]. unfold unlinked. rewrite (relinked_links _ _ _ x R) by set_solver.
    apply Hu; [set_solver |]. by apply (relinked_some _ _ _ _ R).
Qed.

(** C14: Wait lists refine lists: every sequence of pushes of entries that are not in the list,
    at either end, and of removals of entries that are in it, at any place, returns, and leaves
    the doubly linked cells standing for the list that the sequence describes; both ends, the
    masks and the contexts of all entries, and the links of the entries outside are right. *)
Theorem wait_list_refines h q l os :
  wl_inv h q l -> ops_ok h l os ->
  returns (run_ops (h, q) os) (fun '(h', q') => let l' := fold_left abs_op os l in wl_inv h' q' l' /\
    head q' = first_or l' None /\ tail q' = last_or None l' /\ Empty q' = bool_decide (l' = []) /\
    forall e, payload h' e = payload h e).
Proof.
  revert h q l. induction os as [| o os IH]; intros h q l Hi Ho; simpl.
  - apply returns_ret. pose proof (proj1 Hi) as Hr. split_and!; [done | apply Hr | apply Hr | | done].
    unfold Empty. rewrite (rep_head _ _ _ Hr). apply bool_decide_ext. by destruct l.
  - destruct Ho as [Ho Hs]. eapply returns_bind; [by apply (run_op_ok h q l) |]. intros [h1 q1] (Hi1 & Hp1 & _ & He1).
    eapply returns_mono; [apply (IH h1 q1 (abs_op l o)); [done | by eapply ops_ok_ext] |].
    intros [h' q'] (? & ? & ? & ? & Hp'). split_and!; [done | done | done | done |]. intros e. by rewrite Hp'.
Qed.

Definition ex_store : Waits :=
  mkWaits (list_to_map ((fun i => (i, NewThreadContext i GENERAL_WAITID 0)) <$> [1; 2; 3; 4]%positive))
    (list_to_map ((fun i => (i, Waiter_New (Zpos i))) <$> [1; 2; 3; 4]%positive)) [].

Lemma ex_store_inv : wl_inv ex_store WaitList_default [].
Proof.
  split; [apply wl_rep_empty |]. intros e _ [s Hs]. unfold unlinked, links. rewrite Hs. simpl.
  assert (H : map_Forall (fun _ s => prev s = None /\ next s = None) (entries ex_store)) by (apply (bool_decide_unpack _); by vm_compute).
  by destruct (H e s Hs) as [-> ->].
Qed.

Lemma wait_list_refines_witness :
  returns (run_ops (ex_store, WaitList_default) (OpBack <$> [1; 2; 3]%positive ++ [4%positive]))
    (fun '(_, q') => head q' = Some 1%positive /\ tail q' = Some 4%positive).
Proof.
  eapply returns_mono; [apply (wait_list_refines ex_store WaitList_default [] (OpBack <$> [1; 2; 3]%positive ++ [4%positive])) |].
  - exact ex_store_inv.
  - split_and!; try done; try (apply (bool_decide_unpack _); by vm_compute).
  - intros [h' q'] (_ & Hh & Ht & _). rewrite Hh, Ht. split; reflexivity.
Defined.

(** * Waiters *)

(** What can happen to the waiters: an event, its removal, a turn of the loop of [Wait]. *)
Inductive waiter_step (h : Waits) : Waits -> Prop :=
| ws_trigger w id h' : Waiter_Trigger h w id = Ret h' -> waiter_step h h'
| ws_clear w id h' : Waiter_Clear h w id = Ret h' -> waiter_step h h'
| ws_turn w b m : waiters h !! w = Some b -> waiter_step h (put_waiter h w (Waiter_Wait_turn b m).1).

Definition sleep_ok (h : Waits) : Prop :=
  forall w b, waiters h !! w = Some b -> w_state b = Waiting -> Z.land (bitmap b) (w_mask b) = 0.

Lemma sleep_ok_put h w b : sleep_ok h -> (w_state b = Waiting -> Z.land (bitmap b) (w_mask b) = 0) -> sleep_ok (put_waiter h w b).
Proof.
  intros Hs Hb w' b'. simpl. destruct (decide (w' = w)) as [-> | N].
  - rewrite lookup_insert_eq. by intros [= <-].
  - rewrite lookup_insert_ne by done. apply Hs.
Qed.

Lemma land_ldiff a c m : Z.land a m = 0 -> Z.land (Z.ldiff a c) m = 0.
Proof.
  intros E. apply Z.bits_inj'. intros i Hi. apply (f_equal (fun z => Z.testbit z i)) in E.
  rewrite Z.land_spec, Z.bits_0 in *. rewrite Z.ldiff_spec. by destruct (Z.testbit a i), (Z.testbit m i), (Z.testbit c i).
Qed.

Lemma waiter_step_ok h h' : sleep_ok h -> waiter_step h h' -> sleep_ok h'.
Proof.
  intros Hs [w id h1 E | w id h1 E | w b m Hb].
  - unfold Waiter_Trigger, get_waiter in E. destruct (waiters h !! w) as [b |] eqn:Hb; [| done]. simpl in E.
    destruct (negb (id <=? 2)); [done |]. destruct (bool_decide (w_state b = Waiting)) eqn:Ew; simpl in E.
    + destruct (Z.eqb_spec (Z.land (Z.lor (bitmap b) (bit id)) (w_mask b)) 0) as [E0 | N0]; simpl in E; injection E as <-.
      * by apply sleep_ok_put.
      * apply (sleep_ok_put h w (mkWaiter (Z.lor (bitmap b) (bit id)) (w_mask b) (idCnt b) Running (w_taskId b)) Hs). done.
    + injection E as <-. apply sleep_ok_put; [done |]. simpl. intros Hw. by rewrite bool_decide_eq_false in Ew.
  - unfold Waiter_Clear, get_waiter in E. destruct (waiters h !! w) as [b |] eqn:Hb; [| done]. injection E as <-.
    apply sleep_ok_put; [done |]. simpl. intros Hw. by apply land_ldiff, (Hs w).
  - apply sleep_ok_put; [done |]. unfold Waiter_Wait_turn. by destruct (Z.eqb_spec (Z.land (bitmap b) m) 0).
Qed.

(** C24: A thread never sleeps through an event: however events, their removal and the turns of
    [Wait] interleave, a waiter in the state [Waiting] has none of the events it waits for. *)
Theorem sleeper_has_no_event h0 h w b :
  sleep_ok h0 -> rtc waiter_step h0 h -> waiters h !! w = Some b -> w_state b = Waiting -> Z.land (bitmap b) (w_mask b) = 0.
Proof.
  intros H0 Hs. assert (Hk : sleep_ok h) by (induction Hs as [| h1 h2 h3 Hs _ IH]; [done | apply IH; by eapply waiter_step_ok]).
  apply Hk.
Qed.

Lemma ex_store_sleep : sleep_ok ex_store.
Proof.
  intros w b Hb. assert (H : map_Forall (fun _ b => w_state b = Running) (waiters ex_store)) by (apply (bool_decide_unpack _); by vm_compute).
  by rewrite (H w b Hb).
Qed.

Lemma sleeper_has_no_event_witness :
  exists h b, rtc waiter_step ex_store h /\ waiters h !! 1%positive = Some b /\ w_state b = Waiting /\ Z.land (bitmap b) (w_mask b) = 0.
Proof.
  set (h := put_waiter ex_store 1 (Waiter_Wait_turn (Waiter_New 1) 3).1).
  assert (Hs : rtc waiter_step ex_store h) by (apply rtc_once, ws_turn; by vm_compute).
  assert (Hb : waiters h !! 1%positive = Some (mkWaiter 0 3 0 Waiting 1)) by (by vm_compute).
  eexists h, _. split; [exact Hs |]. split; [exact Hb |]. split; [reflexivity |].
  apply (sleeper_has_no_event ex_store h 1 _ ex_store_sleep Hs Hb). reflexivity.
Defined.

(** * Blocking *)

(** The waiter and the interrupt entry of a blocker, as [Blocker::New] makes them. *)
Definition blocker_ok (h : Waits) (bl : Blocker) (b : WaiterInternal) : Prop :=
  waiters h !! bl_waiter bl = Some b /\ 0 <= bitmap b < 8 /\
  exists s c, entries h !! interruptEntry bl = Some s /\ mask s = 1 /\ context s = WC_Thread c /\
    waiter c = bl_waiter bl /\ waiterID c = INTERRUPT_WAITID.

Lemma interruptSelf_ok h bl b :
  blocker_ok h bl b -> w_state b = Running ->
  interruptSelf h bl = Ret (put_waiter h (bl_waiter bl) (mkWaiter (Z.lor (bitmap b) 2) (w_mask b) (idCnt b) Running (w_taskId b))).
Proof.
  intros (Hb & _ & s & c & Hs & Hm & Hc & Hw & Hid) Hr. unfold interruptSelf, WaitEntry_Notify, get_entry. rewrite Hs, bind_ret, Hm, Hc. simpl.
  unfold Waiter_Trigger, get_waiter. rewrite Hw, Hid, Hb, bind_ret. simpl. rewrite bool_decide_eq_false_2 by congruence. simpl. by rewrite Hr.
Qed.

Lemma blocker_ok_put h bl b b' : blocker_ok h bl b -> 0 <= bitmap b' < 8 -> blocker_ok (put_waiter h (bl_waiter bl) b') bl b'.
Proof. intros (_ & _ & H) Hb'. split; [simpl; by rewrite lookup_insert_eq | done]. Qed.

(** C35: How a wait ends.  A general event comes first: the wait succeeds and takes the event.
    Then an interrupt, which stays pending; then the timer, whose event is taken.  With none of
    the events the thread waits for, and only then, it sleeps. *)
Theorem block_spec h bl b waitGeneral waitTimer :
  blocker_ok h bl b ->
  returns (Blocker_block h bl waitGeneral waitTimer) (fun '(h', r) => exists b', waiters h' !! bl_waiter bl = Some b' /\
    if waitGeneral && Z.testbit (bitmap b) 0 then r = Some (Ok tt) /\ bitmap b' = Z.ldiff (bitmap b) 1
    else if Z.testbit (bitmap b) 1 then r = Some (Err ErrInterrupted) /\ bitmap b' = bitmap b
    else if waitTimer && Z.testbit (bitmap b) 2 then r = Some (Err (SysError ETIMEDOUT)) /\ bitmap b' = Z.ldiff (bitmap b) 4
    else r = None /\ bitmap b' = bitmap b /\ w_state b' = Waiting).
Proof.
  intros Hk. pose proof Hk as (Hb & Hbm & _). unfold Blocker_block, get_waiter. rewrite Hb, bind_ret. unfold Waiter_Wait_turn.
  set (b1 := mkWaiter (bitmap b) (w_mask b) (idCnt b) Running (w_taskId b)).
  pose proof (blocker_ok_put h bl b b1 Hk Hbm) as Hk1.
  pose proof (interruptSelf_ok _ bl b1 Hk1 eq_refl) as Hint.
  assert (Hcl : forall id, Waiter_Clear (put_waiter h (bl_waiter bl) b1) (bl_waiter bl) id =
    Ret (put_waiter (put_waiter h (bl_waiter bl) b1) (bl_waiter bl) (mkWaiter (Z.ldiff (bitmap b) (bit id)) (w_mask b) (idCnt b) Running (w_taskId b)))).
  { intros id. unfold Waiter_Clear, get_waiter. rewrite (proj1 Hk1). reflexivity. }
  assert (Hc : bitmap b = 0 \/ bitmap b = 1 \/ bitmap b = 2 \/ bitmap b = 3 \/ bitmap b = 4 \/ bitmap b = 5 \/ bitmap b = 6 \/ bitmap b = 7) by lia.
  destruct waitGeneral, waitTimer; repeat destruct Hc as [Hc | Hc]; rewrite Hc in *;
    match goal with |- context [negb ?t] => let v := eval vm_compute in (negb t) in change (negb t) with v end; cbv beta iota;
    fold b1; rewrite ?Hcl, ?Hint; (eexists; split; [reflexivity |]); (eexists; split; [simpl; rewrite lookup_insert_eq; reflexivity |]); (simpl; rewrite ?Hc; done).
Qed.

Lemma ex_blocker_ok : blocker_ok (Blocker_New ex_store 9).1 (Blocker_New ex_store 9).2 (Waiter_New 9).
Proof.
  split; [by vm_compute |]. split; [simpl; lia |]. eexists _, _. split_and!; [by vm_compute | reflexivity | reflexivity | reflexivity | reflexivity].
Qed.

Lemma block_spec_witness :
  returns (Blocker_block (Blocker_New ex_store 9).1 (Blocker_New ex_store 9).2 true true) (fun '(_, r) => r = None).
Proof.
  eapply returns_mono; [apply (block_spec _ _ (Waiter_New 9) true true ex_blocker_ok) |].
  intros [h' r] (b' & _ & Hr). vm_compute in Hr. by destruct Hr as [-> _].
Defined.

(** [Blocker::Check], which is asked instead of blocking when the timeout is too short, does
    not see an interrupt: the bit sets it looks for are written in hexadecimal and have the
    bit 4 where the interrupt's is 1, so that an interrupted wait times out. *)
Theorem Check_misses_interrupt h bl b waitGeneral :
  blocker_ok h bl b -> Z.testbit (bitmap b) INTERRUPT_WAITID = true -> Z.testbit (bitmap b) GENERAL_WAITID = false ->
  Blocker_Check h bl waitGeneral = Ret (h, Err (SysError ETIMEDOUT)).
Proof.
  intros (Hb & Hbm & _) H1 H0. unfold Blocker_Check, get_waiter. rewrite Hb, bind_ret. unfold Waiter_Check.
  assert (E : Z.land (bitmap b) (if waitGeneral then 17 else 16) = 0); [| by rewrite E].
  assert (Hc : bitmap b = 0 \/ bitmap b = 1 \/ bitmap b = 2 \/ bitmap b = 3 \/ bitmap b = 4 \/ bitmap b = 5 \/ bitmap b = 6 \/ bitmap b = 7) by lia.
  repeat destruct Hc as [Hc | Hc]; rewrite Hc in *; destruct waitGeneral; done.
Qed.

Definition ex_interrupted : Waits := put_waiter (Blocker_New ex_store 9).1 (bl_waiter (Blocker_New ex_store 9).2) (mkWaiter 2 0 0 Running 9).

Lemma Check_misses_interrupt_witness :
  Blocker_Check ex_interrupted (Blocker_New ex_store 9).2 true = Ret (ex_interrupted, Err (SysError ETIMEDOUT)).
Proof.
  apply (Check_misses_interrupt _ _ (mkWaiter 2 0 0 Running 9) true).
  - apply (blocker_ok_put _ _ (Waiter_New 9)); [exact ex_blocker_ok | simpl; lia].
  - reflexivity.
  - reflexivity.
Defined.
