(* ===== verification/FutexProps.v ===== *)
(** Theorems about wait lists, futexes and blocking, with witnesses. *)
From S2P Require Import Prelude WaitList WaitListThm WaitListOps Futex FutexThm FutexOps FutexPairs FutexMem FutexPi FutexSteps FutexSys FutexRun.
From stdpp Require Import relations.

#[local] Open Scope Z_scope.

(** * A concrete system for the witnesses

    Three threads of one process, with one entry and one waiter each, and a word at
    addresses 4096 and 8192. *)

Definition ex_entry (i : positive) : EntryInternal := NewThreadContext i GENERAL_WAITID 0.
Definition ex_waits : Waits :=
  mkWaits (list_to_map [(1%positive, ex_entry 1); (2%positive, ex_entry 2); (3%positive, ex_entry 3)])
    (list_to_map [(1%positive, Waiter_New 11); (2%positive, Waiter_New 12); (3%positive, Waiter_New 13)]) [].
Definition ex_mgr : FutexMgr := mkMgr 1 2.
Definition ex_st : FState := mkFState ex_waits (list_to_map [(1%positive, Bucket_default); (2%positive, Bucket_default)]).
Definition ex_mem : UserMem := mkMem (list_to_map [(4096, 0); (8192, 7)]) ∅ [].
Definition ex_key : Key := mkKey KindPrivate 4096.
Definition ex_sys : FSys UserMem :=
  mkFSys ex_st ex_mem (list_to_map [(1%positive, Idle); (2%positive, Idle); (3%positive, Idle)]).

(** An entry that is in no list, of a thread whose waiter exists. *)
Definition entry_fresh (h : Waits) (s : EntryInternal) : bool :=
  InitState s &&
  match context s with
  | WC_Thread c => bool_decide (is_Some (waiters h !! waiter c)) && (0 <=? waiterID c) && (waiterID c <=? TIMER_WAITID)
  | WC_None => false
  end.

Lemma entry_fresh_spec h s :
  entry_fresh h s = true -> prev s = None /\ next s = None /\ exists c, context s = WC_Thread c /\
    is_Some (waiters h !! waiter c) /\ 0 <= waiterID c <= TIMER_WAITID.
Proof.
  unfold entry_fresh, InitState. intros [[?%bool_decide_eq_true ?%bool_decide_eq_true]%andb_prop Hc]%andb_prop.
  destruct (context s) as [| c]; [done |]. apply andb_prop in Hc as [[?%bool_decide_eq_true ?%Z.leb_le]%andb_prop ?%Z.leb_le].
  eauto 10.
Qed.

(** The start: no thread waits, no queue, no lock. *)
Record FInit {M} (mgr : FutexMgr) (s : FSys M) : Prop := {
  init_entries : map_Forall (fun _ e => entry_fresh (waits (fs s)) e = true) (entries (waits (fs s)));
  init_buckets : map_Forall (fun _ bk => queues bk = ∅ /\ locks bk = ∅) (buckets (fs s));
  init_mgr : mgr_ok (fs s) mgr;
  init_phases : map_Forall (fun w p => p = Idle /\ is_Some (entries (waits (fs s)) !! w)) (phases s);
  init_slots : forall w w' x, slot (waits (fs s)) w = Some x -> slot (waits (fs s)) w' = Some x -> w = w' }.

Lemma init_futex st :
  map_Forall (fun _ e => entry_fresh (waits st) e = true) (entries (waits st)) ->
  map_Forall (fun _ bk => queues bk = ∅ /\ locks bk = ∅) (buckets st) -> futex_inv st (fun _ _ => []).
Proof.
  intros He Hb. split.
  - intros b k. unfold queue_at. destruct (buckets st !! b) as [bk |] eqn:E; [| apply wl_rep_empty].
    destruct (Hb b bk E) as [-> _]. rewrite lookup_empty. apply wl_rep_empty.
  - by intros b k b' k' e ?%elem_of_nil.
  - intros e [s Hs] _. destruct (entry_fresh_spec _ _ (He e s Hs)) as (P & N & _). unfold unlinked, links. rewrite Hs. simpl. by rewrite P, N.
  - intros e [s Hs]. destruct (entry_fresh_spec _ _ (He e s Hs)) as (_ & _ & c & Hc & _). exists c. unfold ctx. rewrite Hs. simpl. by rewrite Hc.
  - intros e s c Hs Hc. destruct (entry_fresh_spec _ _ (He e s Hs)) as (_ & _ & c' & Hc' & ?). by rewrite Hc in Hc'; injection Hc' as ->.
Qed.

Lemma init_inv {M} mgr (s : FSys M) : FInit mgr s -> FInv mgr s.
Proof.
  intros [He Hb Hm Hp Hs]. exists (fun _ _ => []). split; [by apply init_futex | done | | | | | | |].
  - intros b. unfold locks_of. destruct (buckets (fs s) !! b) as [bk |] eqn:E; [| done]. by destruct (Hb b bk E).
  - intros w p Hw. by destruct (Hp w p Hw).
  - intros w p b k _ _. apply not_elem_of_nil.
  - intros w p Hw. by destruct (Hp w p Hw) as [-> _].
  - by intros b k e ?%elem_of_nil.
  - intros w w' p p' x _ _. apply Hs.
  - intros w k Hw. by destruct (Hp w _ Hw).
Qed.

Lemma ex_slots w w' x : slot ex_waits w = Some x -> slot ex_waits w' = Some x -> w = w'.
Proof.
  assert (H : forall v y, slot ex_waits v = Some y -> y = (v, 0)).
  { intros v y. unfold slot, ctx. destruct (entries ex_waits !! v) as [s |] eqn:E; [| done]. simpl.
    apply elem_of_list_to_map_2 in E. set_unfold. intros Hy. destruct E as [[= -> ->] | [[= -> ->] | [[= -> ->] | []]]]; simpl in Hy; congruence. }
  intros E1%H E2%H. congruence.
Qed.

Lemma ex_init : FInit ex_mgr ex_sys.
Proof.
  split.
  - apply (bool_decide_unpack _). by vm_compute.
  - apply (bool_decide_unpack _). by vm_compute.
  - split; apply (bool_decide_unpack _); by vm_compute.
  - apply (bool_decide_unpack _). by vm_compute.
  - apply ex_slots.
Qed.

Lemma ex_futex : futex_inv ex_st (fun _ _ => []).
Proof. apply init_futex; apply ex_init. Qed.

Lemma ex_mgr_ok : mgr_ok ex_st ex_mgr.
Proof. apply ex_init. Qed.

(** * No waiter is lost *)

Lemma reachable_inv {M} `{TargetLaws M} mgr (s0 s : FSys M) : FInit mgr s0 -> rtc (fstep mgr) s0 s -> FInv mgr s.
Proof. intros H0%init_inv. induction 1 as [| s1 s2 s3 Hs _ IH]; [done |]. apply IH. by eapply fstep_inv. Qed.

(** C2: However the steps of [fstep] interleave, a thread that blocks has no event exactly while
    its entry is linked in the queue of its key: a wake-up is never lost and never made up.
    The links of the store are well-formed lists throughout, no entry is in two of them, a
    thread that does not wait is in none, and no lock stays taken.  The steps are the parts of
    the futex calls under their locks, changes of memory, timeouts and events; a wake-up may
    have any bit mask to which all that wait at its key answer, and a [FUTEX_TRYLOCK_PI] that
    fails ends while nobody waits for the lock.  No step is a wake-up that passes over a
    waiter, a [FUTEX_TRYLOCK_PI] that fails while others wait, a wait at or a requeue to the
    private address 0, a wait with a deadline that is not a time, or a requeue or wake-op on
    two keys with equal hashes in different buckets, for which [lockQueues] takes one lock
    only: with these the code does lose waiters, as [FutexFaults.v] shows. *)
Theorem futex_waiters_accounted {M} `{TargetLaws M} mgr (s0 s : FSys M) :
  FInit mgr s0 -> rtc (fstep mgr) s0 s ->
  exists Q, futex_inv (fs s) Q /\ (forall b, locks_of (fs s) b = ∅) /\
    (forall w b k, phases s !! w = Some Idle -> w ∉ Q b k) /\
    forall w, phases s !! w = Some Blocked -> exists c, ctx (waits (fs s)) w = Some c /\
      (ready (waits (fs s)) (waiter c) (waiterID c) = false <-> w ∈ Q (bucket_of mgr (key c)) (key c)) /\
      (ready (waits (fs s)) (waiter c) (waiterID c) = true <-> key c = Key_default).
Proof.
  intros H0 Hs. destruct (reachable_inv _ _ _ H0 Hs) as [Q Hi]. exists Q.
  split_and!; [apply Hi | apply Hi | intros; by apply (in_idle _ _ _ Hi) |]. intros w Hw.
  destruct (in_waiting _ _ _ Hi w Blocked Hw eq_refl) as (c & Hc & [(Hk & Hn & Hr) | (Hk & Hq & Hr)]); exists c; simpl in Hr.
  - rewrite Hr by done. split_and!; [done | | done]. split; [done |]. intros Hx. by destruct (Hn _ _ Hx).
  - rewrite Hr by done. by split_and!.
Qed.

Lemma ex_steps : exists s, rtc (fstep ex_mgr) ex_sys s /\ phases s !! 1%positive = Some Blocked.
Proof.
  assert (E : returns (WaitPrepare ex_st ex_mgr ex_mem 1 4096 true 0 1) (fun '(_, _, r) => r = Ok tt)) by (eexists; split; [by vm_compute | done]).
  destruct E as ([[st' m'] r] & E & ->).
  eexists. split; [apply rtc_once; apply (s_prepare ex_mgr ex_sys 1 4096 true 0 1 st' m' (Ok tt)); [by vm_compute | done | done | exact E] |].
  by vm_compute.
Defined.

Lemma futex_waiters_accounted_witness :
  exists s Q c, rtc (fstep ex_mgr) ex_sys s /\ phases s !! 1%positive = Some Blocked /\ futex_inv (fs s) Q /\
    ctx (waits (fs s)) 1 = Some c /\ (ready (waits (fs s)) (waiter c) (waiterID c) = true <-> key c = Key_default).
Proof.
  destruct ex_steps as (s & Hs & Hp). destruct (futex_waiters_accounted ex_mgr ex_sys s ex_init Hs) as (Q & Hi & _ & _ & Hw).
  destruct (Hw 1%positive Hp) as (c & Hc & _ & Hk). by exists s, Q, c.
Defined.

(** The phases tell whether an entry is in a queue. *)
Lemma queued_or_free {M} `{TargetLaws M} mgr (s : FSys M) Q e :
  FInvQ mgr s Q -> (exists b k, e ∈ Q b k) \/ forall b k, e ∉ Q b k.
Proof.
  intros Hi. destruct (phases s !! e) as [p |] eqn:Hp.
  - destruct (waits_in_phase p) eqn:Hw.
    + destruct (in_waiting _ _ _ Hi e p Hp Hw) as (c & _ & [(_ & Hn & _) | (_ & Hq & _)]); eauto.
    + right. intros b k. by apply (in_resting _ _ _ Hi e p).
  - right. intros b k Hq. destruct (in_queued _ _ _ Hi _ _ _ Hq) as (_ & _ & (p & Hp' & _) & _). by rewrite Hp in Hp'.
Qed.

(** The links of an entry, in a queue or not. *)
Lemma inv_neighbours {M} `{TargetLaws M} mgr (s : FSys M) Q e p n :
  FInvQ mgr s Q -> links (waits (fs s)) e = Some (p, n) ->
  (forall y, n = Some y -> exists n', links (waits (fs s)) y = Some (Some e, n')) /\
  (forall y, p = Some y -> exists p', links (waits (fs s)) y = Some (p', Some e)).
Proof.
  intros Hi He. destruct (queued_or_free _ _ _ e Hi) as [(b & k & Hq) | Hn].
  - by eapply seg_neighbours; [apply (fi_rep _ _ (in_futex _ _ _ Hi) b k) | |].
  - assert (Hu : unlinked (waits (fs s)) e).
    { apply (fi_free _ _ (in_futex _ _ _ Hi)); [| done]. unfold links in He. by destruct (entries (waits (fs s)) !! e). }
    rewrite Hu in He. by simplify_eq.
Qed.

(** C23: The store of entries stays well typed in every state that the steps of [fstep] reach,
    which leave out the five faults of [FutexFaults.v]: an entry is a thread's, whose waiter exists and whose event number is one that [Trigger] accepts; a link
    leads to an entry whose opposite link leads back; and the ends of a queue are entries with
    nothing before or behind them. *)
Theorem futex_store_typed {M} `{TargetLaws M} mgr (s0 s : FSys M) :
  FInit mgr s0 -> rtc (fstep mgr) s0 s -> let h := waits (fs s) in
  (forall e x, entries h !! e = Some x ->
    (exists c, context x = WC_Thread c /\ is_Some (waiters h !! waiter c) /\ 0 <= waiterID c <= TIMER_WAITID) /\
    (forall y, next x = Some y -> exists x', entries h !! y = Some x' /\ prev x' = Some e) /\
    (forall y, prev x = Some y -> exists x', entries h !! y = Some x' /\ next x' = Some e)) /\
  (forall b k e, WaitList.head (queue_at (fs s) b k) = Some e -> exists x, entries h !! e = Some x /\ prev x = None) /\
  (forall b k e, WaitList.tail (queue_at (fs s) b k) = Some e -> exists x, entries h !! e = Some x /\ next x = None).
Proof.
  intros H0 Hs h. destruct (reachable_inv _ _ _ H0 Hs) as [Q Hi]. pose proof (in_futex _ _ _ Hi) as If.
  assert (L : forall y p n, links h y = Some (p, n) -> exists x', entries h !! y = Some x' /\ prev x' = p /\ next x' = n).
  { unfold links. intros y p n. destruct (entries h !! y) as [x' |]; intros [=]; eauto. }
  split_and!.
  - intros e x He. split.
    + destruct (fi_threads _ _ If e (mk_is_Some _ _ He)) as [c Hc]. unfold ctx in Hc. fold h in Hc. rewrite He in Hc. simpl in Hc.
      destruct (context x) as [| c'] eqn:Hx; [done |]. exists c'. split; [done |]. by eapply (fi_ok _ _ If).
    + destruct (inv_neighbours mgr s Q e (prev x) (next x) Hi) as [Hn Hp]; [by unfold links; fold h; rewrite He |].
      split; intros y Hy; [destruct (Hn y Hy) as [? Hl] | destruct (Hp y Hy) as [? Hl]]; destruct (L _ _ _ Hl) as (x' & ? & ? & ?); eauto.
  - intros b k e. destruct (fi_rep _ _ If b k) as [-> _ Hseg _]. destruct (Q b k) as [| e' l]; [done |].
    intros [= <-]. destruct Hseg as [Hl _]. destruct (L _ _ _ Hl) as (x' & ? & ? & ?). eauto.
  - intros b k e. destruct (fi_rep _ _ If b k) as [_ -> Hseg _]. destruct (Q b k) as [| e' l _] using rev_ind; [done |].
    rewrite last_or_snoc. intros [= <-]. apply seg_app in Hseg as (_ & Hl & _). destruct (L _ _ _ Hl) as (x' & ? & ? & ?). eauto.
Qed.

Lemma futex_store_typed_witness :
  exists s x c, rtc (fstep ex_mgr) ex_sys s /\ phases s !! 1%positive = Some Blocked /\
    entries (waits (fs s)) !! 1%positive = Some x /\ context x = WC_Thread c /\ is_Some (waiters (waits (fs s)) !! waiter c).
Proof.
  destruct ex_steps as (s & Hs & Hp). destruct (reachable_inv _ _ _ ex_init Hs) as [Q Hi].
  destruct (in_entry _ _ _ Hi _ _ Hp) as [x Hx].
  destruct (futex_store_typed ex_mgr ex_sys s ex_init Hs) as (He & _). destruct (He _ _ Hx) as ((c & Hc & Hw & _) & _).
  by exists s, x, c.
Defined.

(** C20: In every state that the steps of [fstep] reach, which leave out the five faults of
    [FutexFaults.v], the futex calls of the threads return, without a panic and without
    waiting for a lock for ever: starting a wait, at whatever address, and ending it; trying a
    lock and giving up; waking, with any bit mask; taking and handing over a lock; moving
    waiters between two keys, with or without a check, and waking at two keys.  The calls on
    two keys panic if, and only if, the keys are equal. *)
Theorem futex_calls_return {M} `{TargetLaws M} mgr (s0 s : FSys M) fuel w addr naddr pr n k mask tid try op chk val :
  FInit mgr s0 -> rtc (fstep mgr) s0 s -> (pending (mem s) < fuel)%nat ->
  (phases s !! w = Some Idle -> exists x, WaitPrepare (fs s) mgr (mem s) w addr pr val mask = Ret x) /\
  (phases s !! w = Some Idle -> exists x, LockPI fuel (fs s) mgr (mem s) w addr tid pr try = Ret x) /\
  (phases s !! w = Some Back \/ phases s !! w = Some Refused -> exists x, WaitComplete fuel (fs s) mgr w = Ret x) /\
  (exists x, Wake (fs s) mgr (mem s) addr pr mask n = Ret x) /\
  (exists x, UnlockPI (fs s) mgr (mem s) addr tid pr = Ret x) /\
  (forall key, Getkey (mem s) addr pr = Ok key -> Getkey (mem s) naddr pr = Ok key ->
    doRequeue (fs s) mgr (mem s) addr naddr pr chk val n k = Panic /\ WakeOp fuel (fs s) mgr (mem s) addr naddr pr n k op = Panic) /\
  ((forall key, Getkey (mem s) addr pr = Ok key -> Getkey (mem s) naddr pr <> Ok key) ->
    (exists x, doRequeue (fs s) mgr (mem s) addr naddr pr chk val n k = Ret x) /\ exists x, WakeOp fuel (fs s) mgr (mem s) addr naddr pr n k op = Ret x).
Proof.
  intros H0 Hs Hf. destruct (reachable_inv _ _ _ H0 Hs) as [Q Hi].
  split_and!; [intros Hw; by apply (start_returns mgr s Q fuel w addr pr val mask tid try).. | | | | |].
  - intros [Hw | Hw]; [| eapply give_up_returns; [done | done | lia]]. destruct (complete_run mgr s Q fuel w Hi Hw ltac:(lia)) as (st' & ? & _). eauto.
  - by eapply wake_returns.
  - by eapply unlock_returns.
  - intros key. apply same_key_panics.
  - intros Hne. split; [by eapply requeue_returns | by eapply wake_op_returns].
Qed.

Lemma futex_calls_return_witness :
  exists s, rtc (fstep ex_mgr) ex_sys s /\ phases s !! 1%positive = Some Blocked /\ exists x, Wake (fs s) ex_mgr (mem s) 4096 true 2 1 = Ret x.
Proof.
  destruct ex_steps as (s & Hs & Hp). exists s. split_and!; [done | done |].
  apply (futex_calls_return ex_mgr ex_sys s (S (pending (mem s))) 1 4096 8192 true 1 1 2 1 false 0 false 0 ex_init Hs). lia.
Defined.

(** * What the calls do *)

(** An effect in words: the events of [wk] are there, no other new one is, and a thread that
    sleeps with such an event in its mask runs and is handed to the scheduler. *)
Definition woke (h h' : Waits) (wk : list positive) : Prop :=
  (forall e c, e ∈ wk -> ctx h e = Some c -> ready h' (waiter c) (waiterID c) = true) /\
  (forall w id, 0 <= id -> is_Some (waiters h !! w) -> ready h' w id = true -> ready h w id = true \/ exists e, e ∈ wk /\ slot h e = Some (w, id)) /\
  exists new, scheduled h' = scheduled h ++ new /\
    forall e c b, e ∈ wk -> ctx h e = Some c -> waiters h !! waiter c = Some b -> w_state b = Waiting -> Z.testbit (w_mask b) (waiterID c) = true ->
      w_taskId b ∈ new.*1 /\ exists b', waiters h' !! waiter c = Some b' /\ w_state b' = Running.

Lemma rings_woke wk h h' : waits_ok h -> rings (omap (slot h) wk) h h' -> woke h h' wk.
Proof.
  intros Ho [new [Hr Hs Hw]]. split_and!.
  - intros e c He Hc. destruct (waits_ok_ctx _ _ _ Ho Hc) as [Hb Hid]. rewrite Hr by (done || lia).
    rewrite bool_decide_eq_true_2; [apply orb_true_r |]. apply list_elem_of_omap. exists e. split; [done |]. unfold slot. by rewrite Hc.
  - intros w id Hid Hb. rewrite Hr by done. intros [?|(e & ? & ?)%bool_decide_eq_true%list_elem_of_omap]%orb_prop; [by left | right; eauto].
  - exists new. split; [done |]. intros e c b He Hc Hb Hsl Ht. destruct (Hw _ _ Hb) as (b' & Hb' & _ & _ & Hst & Hrun).
    assert (Hrn : w_state b' = Running).
    { apply Hrun; [done |]. exists (waiterID c). split; [| done]. apply list_elem_of_omap. exists e. split; [done |]. unfold slot. by rewrite Hc. }
    destruct Hst as [E | (_ & _ & Hin)]; [rewrite Hsl in E; congruence |]. eauto.
Qed.

(** C27: [Wake] wakes the first [n] waiters of the key, in order, whose bit mask answers to the
    caller's: exactly they leave the queue, which keeps its order, they get their event, those
    that sleep are scheduled, and the result is their number. *)
Theorem Wake_spec {M} `{Target M} st mgr (m : M) addr pr bitmask n Q k :
  futex_inv st Q -> mgr_ok st mgr -> Getkey m addr pr = Ok k -> HashCode k ∉ locks_of st (bucket_of mgr k) ->
  let b := bucket_of mgr k in
  let woken := take (Z.to_nat n) (List.filter (answers (waits st) bitmask) (Q b k)) in
  returns (Wake st mgr m addr pr bitmask n) (fun '(st', r) => r = Ok (Z.of_nat (length woken)) /\
    futex_inv st' (updQ Q b k (filter (fun e => e ∉ woken) (Q b k))) /\ woke (waits st) (waits st') woken /\
    (forall e, e ∉ Q b k -> entries (waits st') !! e = entries (waits st) !! e) /\ quiet st st').
Proof.
  intros Hi Hm Hk Hl b woken.
  destruct (wake_walk (answers (waits st) bitmask) (Z.to_nat n) (Q b k)) as [[wk sk] rest] eqn:Hw.
  eapply returns_mono; [by eapply (Wake_ok st mgr m addr pr bitmask n Q k wk sk rest) |]. intros [st' r] (-> & Hf & Hq & Ef).
  pose proof (wake_walk_woken _ _ _ _ _ _ Hw) as Ewk. fold woken in Ewk. subst wk.
  rewrite <- (wake_walk_left _ _ _ _ _ _ (rep_nodup _ _ _ (fi_rep _ _ Hi b k)) Hw).
  split_and!; [done | done | apply rings_woke; [apply Hi | apply Ef] | apply Ef | done].
Qed.

Lemma ex_hash b i : i ∉ locks_of ex_st b.
Proof.
  unfold locks_of. destruct (buckets ex_st !! b) as [bk |] eqn:E; [| set_solver].
  destruct (init_buckets _ _ ex_init b bk E) as [_ ->]. set_solver.
Qed.

Lemma Wake_spec_witness :
  returns (Wake ex_st ex_mgr ex_mem 4096 true FUTEX_BITSET_MATCH_ANY 1) (fun '(_, r) => r = Ok 0).
Proof.
  eapply returns_mono; [apply (Wake_spec ex_st ex_mgr ex_mem 4096 true FUTEX_BITSET_MATCH_ANY 1 (fun _ _ => []) ex_key) |].
  - exact ex_futex.
  - exact ex_mgr_ok.
  - reflexivity.
  - apply ex_hash.
  - intros [st' r] (-> & _). reflexivity.
Defined.

(** C28: [Requeue] and [RequeueCmp] wake the first [nwake] waiters of the first key and move the
    next [nreq], in order, to the end of the queue of the second; the result is the number
    woken.  [RequeueCmp] does so only if the word has the expected value, and otherwise changes
    no queue. *)
Theorem doRequeue_spec {M} `{Target M} st mgr (m : M) addr naddr pr checkval val nwake nreq Q k1 k2 :
  futex_inv st Q -> mgr_ok st mgr -> Getkey m addr pr = Ok k1 -> Getkey m naddr pr = Ok k2 -> k1 <> k2 ->
  HashCode k1 ∉ locks_of st (bucket_of mgr k1) -> HashCode k2 ∉ locks_of st (bucket_of mgr k2) ->
  (forall e, e ∈ Q (bucket_of mgr k1) k1 -> answers (waits st) U64_MAX e = true) ->
  let l1 := Q (bucket_of mgr k1) k1 in let l2 := Q (bucket_of mgr k2) k2 in
  let left := drop (Z.to_nat nwake) l1 in
  returns (doRequeue st mgr m addr naddr pr checkval val nwake nreq) (fun '(st', m', r) => quiet st st' /\
    match if checkval then Check m addr val else (m, Ok tt) with
    | (m1, inl e) => m' = m1 /\ r = Err e /\ futex_inv st' Q /\ waits st' = waits st
    | (m1, inr _) => m' = m1 /\ r = Ok (Z.of_nat (length (take (Z.to_nat nwake) l1))) /\
        (exists Q', futex_inv st' Q' /\ Q' (bucket_of mgr k1) k1 = drop (Z.to_nat nreq) left /\
           Q' (bucket_of mgr k2) k2 = l2 ++ take (Z.to_nat nreq) left /\
           forall b k, k <> k1 -> k <> k2 -> Q' b k = Q b k) /\
        (forall e, e ∈ take (Z.to_nat nreq) left -> entry_key (waits st') e = Some k2) /\
        woke (waits st) (waits st') (take (Z.to_nat nwake) l1)
    end).
Proof.
  intros Hi Hm Hk1 Hk2 Hk Hl1 Hl2 Ha l1 l2 left. pose proof (wake_walk_all _ (Z.to_nat nwake) _ Ha) as Hw.
  eapply returns_mono; [by eapply (doRequeue_ok st mgr m addr naddr pr checkval val nwake nreq Q k1 k2) |].
  intros [[st' m'] r] (Hq & Hcase). split; [done |].
  destruct (if checkval then Check m addr val else (m, Ok tt)) as [m1 [e | []]]; [done |].
  destruct Hcase as (-> & -> & Hf & h & Ef1 & Ef2). simpl in Hf, Ef2. fold l1 in Hf, Ef1, Ef2. fold left in Hf, Ef2.
  split_and!; [done | done | | |].
  - eexists. split; [exact Hf |]. unfold requeued. split_and!.
    + rewrite updQ_ne by naive_solver. apply updQ_eq.
    + apply updQ_eq.
    + intros b k N1 N2. rewrite !updQ_ne by naive_solver. done.
  - intros e He. destruct (fi_threads_at st Q (bucket_of mgr k1) k1 Hi e) as [c Hc]; [by apply (subseteq_drop (Z.to_nat nwake)), (subseteq_take (Z.to_nat nreq)) |].
    unfold entry_key. rewrite (effect_ctx _ _ _ _ _ _ _ _ Ef2 (effect_ctx _ _ _ _ _ _ _ _ Ef1 Hc)). by rewrite decide_True.
  - apply rings_woke; [apply Hi |]. rewrite <- (app_nil_r (omap _ _)). eapply rings_trans; [apply Ef1 | apply Ef2].
Qed.

Lemma doRequeue_spec_witness :
  returns (doRequeue ex_st ex_mgr ex_mem 4096 8192 true true 0 1 1) (fun '(_, _, r) => r = Ok 0).
Proof.
  eapply returns_mono; [apply (doRequeue_spec ex_st ex_mgr ex_mem 4096 8192 true true 0 1 1 (fun _ _ => []) ex_key (mkKey KindPrivate 8192)) |].
  - exact ex_futex.
  - exact ex_mgr_ok.
  - reflexivity.
  - reflexivity.
  - discriminate.
  - apply ex_hash.
  - apply ex_hash.
  - by intros e ?%elem_of_nil.
  - intros [[st' m'] r] (_ & Hr). vm_compute in Hr. by destruct Hr as (_ & -> & _).
Defined.

(** C26: [WaitPrepare] loads the word once, with the lock of its key held.  If the word has the
    expected value the entry is at the end of the queue of the key, with the caller's bit mask,
    its key and no event; if not, or if the load fails, no queue has changed and the caller
    gets the error. *)
Theorem WaitPrepare_spec {M} `{TargetLaws M} st mgr (m : M) w addr pr val bitmask Q k c :
  futex_inv st Q -> mgr_ok st mgr -> Getkey m addr pr = Ok k -> HashCode k ∉ locks_of st (bucket_of mgr k) ->
  (forall b k, w ∉ Q b k) -> ctx (waits st) w = Some c ->
  let b := bucket_of mgr k in
  returns (WaitPrepare st mgr m w addr pr val bitmask) (fun '(st', m', r) => m' = env m /\ quiet st st' /\
    match peek (env m) addr with
    | inl e => r = Err e /\ futex_inv st' Q
    | inr v => if v =? val then r = Ok tt /\ futex_inv st' (updQ Q b k (Q b k ++ [w])) else r = Err (SysError EAGAIN) /\ futex_inv st' Q
    end /\
    payload (waits st') w = Some (bitmask, WC_Thread (mkTC (waiterID c) (waiter c) (tid c) k)) /\
    ready (waits st') (waiter c) (waiterID c) = false /\
    forall x, x <> w -> payload (waits st') x = payload (waits st) x).
Proof.
  intros Hi Hm Hk Hl Hw Hc b. pose proof Hc as Hc'. unfold ctx in Hc'. destruct (entries (waits st) !! w) as [s |] eqn:Hs; [| done].
  simpl in Hc'. destruct (context s) as [| c'] eqn:Ec; [done |]. injection Hc' as ->.
  destruct (waits_ok_ctx _ _ _ (fi_ok _ _ Hi) Hc) as [[bw Hb] Hid].
  eapply returns_mono; [by eapply (WaitPrepare_ok st mgr m w addr pr val bitmask Q k s c bw) |].
  intros [[st' m'] r] (Hck & Hq & Hf & Ef). unfold Check in Hck. rewrite law_load in Hck.
  assert (Hpay : forall x, payload (waits st') x = payload (prepared (waits st) w s c bw bitmask (tid c) k) x).
  { intros x. rewrite (ef_payload _ _ _ _ _ _ Ef). rewrite decide_False by set_solver. by rewrite option_fmap_id. }
  assert (Hm' : m' = env m) by (destruct (peek (env m) addr) as [| v]; [congruence |]; destruct (v =? val); simpl in Hck; congruence).
  split_and!; [done | done | | | |].
  - destruct (peek (env m) addr) as [e | v]; [injection Hck as -> ->; done |]. destruct (v =? val); simpl in Hck; injection Hck as -> ->; done.
  - rewrite Hpay. unfold payload, prepared. simpl. by rewrite lookup_insert_eq.
  - destruct (ef_rings _ _ _ _ _ _ Ef) as [new [Hr _ _]]. rewrite Hr, orb_false_r by (lia || (simpl; by rewrite lookup_insert_eq)).
    rewrite (prepared_ready _ w s c bw) by (done || lia). rewrite bool_decide_eq_true_2 by done. apply andb_false_r.
  - intros x N. rewrite Hpay. unfold payload, prepared. simpl. by rewrite lookup_insert_ne.
Qed.

Lemma WaitPrepare_spec_witness :
  returns (WaitPrepare ex_st ex_mgr ex_mem 1 4096 true 0 1) (fun '(st', _, r) => r = Ok tt /\ ready (waits st') 1 0 = false).
Proof.
  eapply returns_mono; [apply (WaitPrepare_spec ex_st ex_mgr ex_mem 1 4096 true 0 1 (fun _ _ => []) ex_key (mkTC 0 1 0 Key_default)) |].
  - exact ex_futex.
  - exact ex_mgr_ok.
  - reflexivity.
  - apply ex_hash.
  - intros b k. apply not_elem_of_nil.
  - vm_compute. reflexivity.
  - intros [[st' m'] r] (_ & _ & Hr & _ & Hrd & _). vm_compute in Hr. destruct Hr as [-> _]. done.
Defined.



(** C33: [LockPI] is one atomic step on the word, whatever other threads write in between: the
    caller is told that it has the lock already, or takes a lock without an owner and keeps the
    mark of an owner that died, or sets the waiters' bit and joins the end of the queue.  A
    caller that only tries changes neither the word nor a queue when the lock is taken. *)
Theorem LockPI_spec {M} `{TargetLaws M} fuel st mgr (m : M) w addr tid pr tryit Q k :
  futex_inv st Q -> mgr_ok st mgr -> Getkey m addr pr = Ok k -> HashCode k ∉ locks_of st (bucket_of mgr k) ->
  (forall b k, w ∉ Q b k) -> is_Some (entries (waits st) !! w) -> (pending m < fuel)%nat ->
  let b := bucket_of mgr k in
  returns (LockPI fuel st mgr m w addr tid pr tryit) (fun '(st', m', r) => quiet st st' /\ exists m1, later m m1 /\
    match peek m1 addr with
    | inl e => m' = m1 /\ r = Err e /\ futex_inv st' Q
    | inr cur =>
      let owner := Z.land cur FUTEX_TID_MASK in
      if owner =? tid then m' = m1 /\ r = Err (SysError EDEADLK) /\ futex_inv st' Q
      else if owner =? 0 then m' = poke m1 addr (Z.lor tid (Z.land cur FUTEX_OWNER_DIED)) /\ r = Ok true /\ futex_inv st' Q
      else if tryit then m' = m1 /\ r = Ok false /\ futex_inv st' Q
      else m' = (if Z.land cur FUTEX_WAITERS =? 0 then poke m1 addr (Z.lor cur FUTEX_WAITERS) else m1) /\ r = Ok false /\
           futex_inv st' (updQ Q b k (Q b k ++ [w]))
    end).
Proof.
  intros Hi Hm Hk Hl Hw He Hf b. destruct (fi_entry _ _ w Hi He) as (s & c & bw & Hs & Hc & _ & Hb & _).
  eapply returns_mono; [by eapply (LockPI_ok fuel st mgr m w addr tid pr tryit Q k s c bw) |].
  intros [[st' m'] r] (Hq & _ & m1 & o & Hlt & Ho & -> & Hf'). split; [done |]. exists m1. split; [done |]. revert Ho. unfold pi_step.
  destruct (peek m1 addr) as [e | cur]; [by intros [= <- <-] |]. cbv zeta.
  destruct (Z.land cur FUTEX_TID_MASK =? tid); [by intros [= <- <-] |]. destruct (Z.land cur FUTEX_TID_MASK =? 0); [by intros [= <- <-] |].
  destruct tryit; by intros [= <- <-].
Qed.

Lemma LockPI_spec_witness :
  returns (LockPI 1 ex_st ex_mgr ex_mem 1 8192 5 true false) (fun '(_, m', r) => peek m' 8192 = Ok (7 + 2147483648) /\ r = Ok false).
Proof.
  eapply returns_mono; [apply (LockPI_spec 1 ex_st ex_mgr ex_mem 1 8192 5 true false (fun _ _ => []) (mkKey KindPrivate 8192)) |].
  - exact ex_futex.
  - exact ex_mgr_ok.
  - reflexivity.
  - apply ex_hash.
  - intros b k. apply not_elem_of_nil.
  - by eexists.
  - simpl. lia.
  - intros [[st' m'] r] (_ & m1 & ->%later_quiet & Hr); [| reflexivity]. vm_compute in Hr. destruct Hr as (-> & -> & _). split; reflexivity.
Defined.

(** C34: [UnlockPI] by the owner hands the lock to the waiter that came first: the word gets its
    thread number, with the waiters' bit if others wait behind it, and the waiter leaves the
    queue with its event.  Without waiters the word becomes 0.  A caller that is not the owner
    gets [EPERM]; if the word changed under the caller nothing is handed over. *)
Theorem UnlockPI_spec {M} `{TargetLaws M} st mgr (m : M) addr tid0 pr Q k :
  futex_inv st Q -> mgr_ok st mgr -> Getkey m addr pr = Ok k -> HashCode k ∉ locks_of st (bucket_of mgr k) ->
  (forall e, e ∈ Q (bucket_of mgr k) k -> answers (waits st) U64_MAX e = true) ->
  let b := bucket_of mgr k in
  returns (UnlockPI st mgr m addr tid0 pr) (fun '(st', m', r) => quiet st st' /\
    match peek (env m) addr with
    | inl e => r = Err e /\ futex_inv st' Q
    | inr cur =>
      if negb (Z.land cur FUTEX_TID_MASK =? tid0) then m' = env m /\ r = Err (SysError EPERM) /\ futex_inv st' Q
      else match peek (env (env m)) addr with
      | inl e => r = Err e /\ futex_inv st' Q
      | inr cur2 =>
        if negb (cur2 =? cur) then m' = env (env m) /\ r = Err (SysError (if Q b k is [] then EAGAIN else EINVAL)) /\ futex_inv st' Q
        else r = Ok tt /\
          match Q b k with
          | [] => m' = poke (env (env m)) addr 0 /\ futex_inv st' Q
          | e :: rest => exists c, ctx (waits st) e = Some c /\
              m' = poke (env (env m)) addr (if rest is [] then tid c else Z.lor (tid c) FUTEX_WAITERS) /\
              futex_inv st' (updQ Q b k rest) /\ woke (waits st) (waits st') [e]
          end
      end
    end).
Proof.
  intros Hi Hm Hk Hl Ha b.
  eapply returns_mono; [eapply (UnlockPI_ok st mgr m addr tid0 pr Q k); [done | done | done | done |] |].
  { intros e rest He. apply Ha. rewrite He. set_solver. }
  intros [[st' m'] r] (Hq & Hrel & Hcase). split; [done |]. fold b in Hrel, Hcase. unfold pi_release in Hrel.
  destruct (peek (env m) addr) as [e | cur]; [injection Hrel as -> ->; by destruct Hcase |].
  destruct (negb (Z.land cur FUTEX_TID_MASK =? tid0)); [injection Hrel as -> ->; by destruct Hcase |].
  destruct (peek (env (env m)) addr) as [e | cur2]; [injection Hrel as -> ->; by destruct Hcase |].
  destruct (Q b k) as [| e rest] eqn:EQ; simpl in Hrel, Hcase.
  - destruct (cur2 =? cur); injection Hrel as -> ->; cbn [negb]; [| by destruct Hcase]. destruct Hcase as [Hf _].
    split_and!; [done | done |]. eapply inv_ext; [| exact Hf]. intros b' k'. unfold updQ. destruct (decide _) as [[-> ->] |]; done.
  - destruct (fi_threads_at st Q b k Hi e) as [c Hc]; [rewrite EQ; set_solver |]. rewrite Hc in Hrel. simpl in Hrel.
    destruct (cur2 =? cur); injection Hrel as -> ->; cbn [negb]; [| by destruct Hcase]. destruct Hcase as [Hf Ef].
    split; [done |]. exists c. split_and!; [done | done | done |]. apply rings_woke; [apply Hi | apply Ef].
Qed.

Lemma UnlockPI_spec_witness :
  returns (UnlockPI ex_st ex_mgr ex_mem 8192 7 true) (fun '(_, m', r) => peek m' 8192 = Ok 0 /\ r = Ok tt).
Proof.
  eapply returns_mono; [apply (UnlockPI_spec ex_st ex_mgr ex_mem 8192 7 true (fun _ _ => []) (mkKey KindPrivate 8192)) |].
  - exact ex_futex.
  - exact ex_mgr_ok.
  - reflexivity.
  - apply ex_hash.
  - by intros e ?%elem_of_nil.
  - intros [[st' m'] r] (_ & Hr). vm_compute in Hr. destruct Hr as (-> & -> & _). split; reflexivity.
Defined.
