(* ===== verification/FutexExit.v ===== *)
(** Threads that exit with a robust list, and the situations in which the futex code goes
    wrong: theorems about what it does then. *)
From S2P Require Import Prelude WaitList WaitListThm WaitListOps Futex FutexThm FutexOps FutexPairs FutexMem FutexPi FutexSteps FutexSys FutexProps.

#[local] Open Scope Z_scope.

(** Reading structures from user memory: other threads may write meanwhile. *)
Class CopyInLaws (M : Type) `{!Target M, !TargetLaws M, !CopyIn M} : Prop :=
  law_copyin (m : M) a n : exists m1, (CopyInWords m a n).1 = m1 /\ later m m1.

#[global] Instance um_copyin : CopyIn UserMem := {
  CopyInWords m a n :=
    (um_env m, match mapM (fun i => cells (um_env m) !! (a + 8 * Z.of_nat i)) (seq 0 n) with
               | Some ws => Ok ws
               | None => Err (SysError EFAULT)
               end) }.

#[global] Instance um_copyin_laws : CopyInLaws UserMem.
Proof. intros m a n. exists (um_env m). split; [done |]. apply later_env, later_refl. Qed.

Section Exit.
Context {M : Type} `{TargetLaws M}.

Lemma later_pending (m m1 : M) : later m m1 -> (pending m1 <= pending m)%nat.
Proof. induction 1 as [| m m' _ IH]; [done |]. pose proof (pending_env m). lia. Qed.

(** Every queued entry answers to a wake-up of all. *)
Definition all_answer (st : FState) (Q : positive -> Key -> list positive) : Prop :=
  forall b k e, e ∈ Q b k -> answers (waits st) U64_MAX e = true.

Definition no_locks (st : FState) : Prop := forall b, locks_of st b = ∅.

(** A state that exiting threads may leave: the queues have lost entries at most. *)
Definition fewer (st st' : FState) (Q : positive -> Key -> list positive) : Prop :=
  quiet st st' /\ exists Q', futex_inv st' Q' /\ all_answer st' Q' /\ forall b k, Q' b k ⊆ Q b k.

Lemma fewer_refl st Q : futex_inv st Q -> all_answer st Q -> fewer st st Q.
Proof. intros Hi Ha. split; [done |]. by exists Q. Qed.

Lemma no_locks_free st b i : no_locks st -> i ∉ locks_of st b.
Proof. intros Hn. rewrite Hn. set_solver. Qed.

Lemma all_answer_effect st st' Q Q' X K kk L :
  effect X K kk L (waits st) (waits st') -> all_answer st Q -> (forall b k, Q' b k ⊆ Q b k) -> all_answer st' Q'.
Proof. intros Ef Ha HQ b k e He. rewrite (effect_answers _ _ _ _ _ _ _ e Ef). eapply Ha. by apply (HQ b k). Qed.

Lemma updQ_sub Q b k l : l ⊆ Q b k -> forall b' k', updQ Q b k l b' k' ⊆ Q b' k'.
Proof. intros Hl b' k'. unfold updQ. destruct (decide _) as [[-> ->] |]; done. Qed.

Lemma Wake_fewer st mgr (m : M) addr pr bitmask n Q :
  futex_inv st Q -> all_answer st Q -> mgr_ok st mgr -> no_locks st ->
  returns (Wake st mgr m addr pr bitmask n) (fun '(st', _) => fewer st st' Q).
Proof.
  intros Hi Ha Hm Hn. destruct (Getkey m addr pr) as [e | k] eqn:Hk.
  { unfold Wake. rewrite Hk. apply returns_ret. by apply fewer_refl. }
  destruct (wake_walk (answers (waits st) bitmask) (Z.to_nat n) (Q (bucket_of mgr k) k)) as [[wk sk] rest] eqn:Hw.
  eapply returns_mono; [eapply Wake_ok; [done | done | exact Hk | by apply no_locks_free | exact Hw] |].
  intros [st' r] (_ & Hf & Hq & Ef). split; [done |]. eexists. split; [exact Hf |].
  assert (Hs : forall b' k', updQ Q (bucket_of mgr k) k (sk ++ rest) b' k' ⊆ Q b' k').
  { apply updQ_sub. intros x Hx. rewrite (wake_walk_perm _ _ _ _ _ _ Hw), elem_of_app. by right. }
  split; [by eapply all_answer_effect | done].
Qed.

Lemma UnlockPI_fewer st mgr (m : M) addr tid pr Q :
  futex_inv st Q -> all_answer st Q -> mgr_ok st mgr -> no_locks st ->
  returns (UnlockPI st mgr m addr tid pr) (fun '(st', m', _) => fewer st st' Q /\ (pending m' <= pending m)%nat).
Proof.
  intros Hi Ha Hm Hn. destruct (Getkey m addr pr) as [e | k] eqn:Hk.
  { unfold UnlockPI. rewrite Hk. apply returns_ret. split; [by apply fewer_refl | done]. }
  eapply returns_mono; [eapply (UnlockPI_ok st mgr m addr tid pr Q k); [done | done | done | by apply no_locks_free |] |].
  { intros e rest He. eapply (Ha (bucket_of mgr k) k). rewrite He. set_solver. }
  intros [[st' m'] r] (Hq & Hrel & Hcase). split.
  - split; [done |]. destruct r as [e | []].
    + destruct Hcase as [Ew Hf]. exists Q. split_and!; [done | | done]. intros b k' x Hx. rewrite Ew. by eapply Ha.
    + destruct Hcase as [Hf Ef]. eexists. split; [exact Hf |].
      assert (Hs : forall b' k', updQ Q (bucket_of mgr k) k (drop 1 (Q (bucket_of mgr k) k)) b' k' ⊆ Q b' k') by (apply updQ_sub, subseteq_drop).
      split; [by eapply all_answer_effect | done].
  - revert Hrel. unfold pi_release. pose proof (pending_env m). pose proof (pending_env (env m)).
    repeat case_match; intros [= -> ->]; rewrite ?law_poke_pending; lia.
Qed.

Lemma WakeRobustListOne_loop_fewer fuel st mgr (m : M) tid addr f pi Q :
  futex_inv st Q -> all_answer st Q -> mgr_ok st mgr -> no_locks st -> (pending m < fuel)%nat -> peek m addr = Ok f \/ (S (pending m) < fuel)%nat ->
  returns (WakeRobustListOne_loop fuel st mgr m tid addr f pi) (fun '(st', m') => fewer st st' Q /\ (pending m' <= pending m)%nat).
Proof.
  intros Hi Ha Hm Hn. revert m f. induction fuel as [| fuel IH]; intros m f Hf Hp; [lia |]. simpl.
  destruct (negb (Z.land f FUTEX_TID_MASK =? tid)); [apply returns_ret; split; [by apply fewer_refl | done] |].
  rewrite law_cas. pose proof (pending_env m) as Hpe. destruct (peek (env m) addr) as [e | curF] eqn:Ep.
  { apply returns_ret. split; [by apply fewer_refl | done]. }
  destruct (Z.eqb_spec curF f) as [-> | N]; cbn [negb].
  2: { assert (Hlt : (pending (env m) < fuel)%nat).
       { destruct Hp as [Hp | Hp]; [| lia]. destruct (law_env m) as [E | ?]; [| lia]. rewrite E in Ep. congruence. }
       eapply returns_mono; [apply IH; [done | by left] |]. intros [st' m'] [? ?]. split; [done | lia]. }
  destruct (Z.land f FUTEX_WAITERS =? 0); cbn [negb]; [apply returns_ret; split; [by apply fewer_refl | by rewrite law_poke_pending] |].
  destruct pi.
  - eapply returns_bind; [by apply UnlockPI_fewer |]. intros [[st' m'] r] [Hfw Hpd]. apply returns_ret. split; [done |].
    rewrite law_poke_pending in Hpd. lia.
  - eapply returns_bind; [by apply Wake_fewer |]. intros [st' r] Hfw. apply returns_ret. split; [done |]. by rewrite law_poke_pending.
Qed.

Lemma WakeRobustListOne_fewer fuel st mgr (m : M) tid addr Q :
  futex_inv st Q -> all_answer st Q -> mgr_ok st mgr -> no_locks st -> (pending m < fuel)%nat ->
  returns (WakeRobustListOne fuel st mgr m tid addr) (fun '(st', m') => fewer st st' Q /\ (pending m' <= pending m)%nat).
Proof.
  intros Hi Ha Hm Hn Hf. unfold WakeRobustListOne. rewrite law_load. pose proof (pending_env m).
  destruct (peek (env m) (Z.ldiff addr 1)) as [e | f] eqn:Ep; [apply returns_ret; split; [by apply fewer_refl | done] |].
  eapply returns_mono; [apply WakeRobustListOne_loop_fewer; try done; [lia | by left] |]. intros [st' m'] [? ?]. split; [done | lia].
Qed.

Lemma fewer_trans st st1 st2 Q Q1 :
  quiet st st1 -> (forall b k, Q1 b k ⊆ Q b k) -> fewer st1 st2 Q1 -> fewer st st2 Q.
Proof.
  intros [L1 D1] Hs [[L2 D2] (Q2 & Hf & Ha & Hs2)]. split.
  - split; intros b; [by rewrite L2 | by rewrite D2].
  - exists Q2. split_and!; [done | done |]. intros b k. by transitivity (Q1 b k).
Qed.

Lemma no_locks_quiet st st' : quiet st st' -> no_locks st -> no_locks st'.
Proof. intros [L _] Hn b. by rewrite L. Qed.

Section List.
Context `{!CopyIn M, !CopyInLaws M}.

Lemma CopyIn_pending (m : M) a n m1 r : CopyInWords m a n = (m1, r) -> (pending m1 <= pending m)%nat.
Proof. intros E. destruct (law_copyin m a n) as (m1' & E1 & Hl). rewrite E in E1. simpl in E1. subst. by apply later_pending. Qed.

Lemma ExitRobustList_loop_fewer limit fuel st mgr (m : M) tid addr offset pa nxt Q :
  futex_inv st Q -> all_answer st Q -> mgr_ok st mgr -> no_locks st -> (pending m < fuel)%nat ->
  returns (ExitRobustList_loop limit fuel st mgr m tid addr offset pa nxt) (fun '(st', m', _) => fewer st st' Q /\ (pending m' <= pending m)%nat).
Proof.
  revert st m nxt Q. induction limit as [| limit IH]; intros st m nxt Q Hi Ha Hm Hn Hf; simpl;
    (destruct (nxt =? addr); [apply returns_ret; split; [by apply fewer_refl | done] |]);
    destruct (CopyInWords m nxt 1) as [m1 r] eqn:Ec; pose proof (CopyIn_pending _ _ _ _ _ Ec) as Hp1;
    (apply (returns_bind _ _ (fun '(st', m') => fewer st st' Q /\ (pending m' <= pending m1)%nat));
      [destruct (negb _); [apply WakeRobustListOne_fewer; try done; lia | apply returns_ret; split; [by apply fewer_refl | done]] |]);
    intros [st2 m2] [Hfw Hp2]; cbv beta iota.
  - destruct r as [e | [| x [| y l]]]; (apply returns_ret; split; [done | lia]).
  - assert (Hend : forall go : bool, returns (Ret (st2, m2, go)) (fun '(st', m', _) => fewer st st' Q /\ (pending m' <= pending m)%nat)).
    { intros go. apply returns_ret. split; [done | lia]. }
    destruct r as [e | [| x [| y l]]]; try apply Hend. destruct limit as [| limit]; [apply Hend |].
    destruct Hfw as [Hq (Q1 & Hf1 & Ha1 & Hs1)].
    eapply returns_mono; [apply (IH st2 m2 x Q1); [done | done | by eapply mgr_ok_quiet | by eapply no_locks_quiet | lia] |].
    intros [[st' m'] go] [Hfw' Hp']. split; [by eapply fewer_trans | lia].
Qed.

End List.
End Exit.

(** A circular robust list that never comes back to its head. *)
Definition ex_robust : UserMem := mkMem (list_to_map [(64, 96); (72, 0); (80, 0); (96, 96); (4096, 0)]) ∅ [].


