(* ===== verification/FutexCalls.v ===== *)
(** The futex system call as a run of the interleaved system. *)
From S2P Require Import Prelude WaitList WaitListThm WaitListOps Futex FutexThm FutexOps FutexPairs FutexMem FutexPi FutexSteps FutexSys FutexRun FutexProps FutexExit.
From stdpp Require Import relations.

#[local] Open Scope Z_scope.

(** A call on two futexes that have the same key. *)
Definition same_keys {M} `{!Target M} (m : M) (cmd : Z) (private : bool) (addr naddr : Z) : Prop :=
  (cmd = FUTEX_REQUEUE \/ cmd = FUTEX_CMP_REQUEUE \/ cmd = FUTEX_WAKE_OP) /\
  exists k, Getkey m addr private = Ok k /\ Getkey m naddr private = Ok k.

(** The calls that do not break the queues.  What a call that is left out does is in
    [FutexFaults.v]: waiting at the private address 0 and moving waiters there
    ([requeue_to_null_panics]), a deadline that is read after the wait has started and is not
    a time ([bad_deadline_stays_queued]), a bit mask that passes over a waiter
    ([bitset_wake_forgets]), trying a lock that others wait for ([trylock_loses_waiters]), and
    two keys of which [lockQueues] locks only one ([requeue_releases_lock]). *)
Record call_ok {M} `{!Target M, !CopyIn M} (mgr : FutexMgr) (s : FSys M) (cmd : Z) (private : bool) (addr timeout naddr mask : Z) : Prop := {
  ok_wait : cmd = FUTEX_WAIT \/ cmd = FUTEX_WAIT_BITSET \/ cmd = FUTEX_LOCK_PI -> not_null private addr;
  ok_timeout : cmd = FUTEX_WAIT_BITSET \/ cmd = FUTEX_LOCK_PI ->
    forall ts, (copy_timeout (mem s) timeout).2 = Ok (Some ts) -> exists ns, ToDuration ts = Ok ns;
  ok_wake : cmd = FUTEX_WAKE_BITSET -> forall k, Getkey (mem s) addr private = Ok k -> wakes_all s k mask;
  ok_try : cmd = FUTEX_TRYLOCK_PI -> forall k, Getkey (mem s) addr private = Ok k -> queue_at (fs s) (bucket_of mgr k) k = WaitList_default;
  ok_requeue : cmd = FUTEX_REQUEUE \/ cmd = FUTEX_CMP_REQUEUE -> not_null private naddr;
  ok_pair : cmd = FUTEX_REQUEUE \/ cmd = FUTEX_CMP_REQUEUE \/ cmd = FUTEX_WAKE_OP -> pair_locked mgr (mem s) addr naddr private }.

Section SysFutex.
Context {M : Type} `{TargetLaws M} `{!CopyIn M, !CopyInLaws M} (mgr : FutexMgr) (w : positive) (tid : Z) (fuel : nat).
Variable timer : bool -> option Z -> FState -> M -> outcome (FState * M * Result unit).
Variable mono : option Z -> FState -> M -> outcome (FState * M * (Z * Result unit)).

(** How a call ends: after a run of the system, with a restart block only if it says so. *)
Definition ends (s : FSys M) (x : FState * M * option FutexWaitRestartBlock * Result Z) : Prop :=
  let '(st', m', rb, r) := x in ran mgr w s st' m' /\ (is_Some rb -> r = Err (SysError ERESTART_RESTARTBLOCK)).

Section State.
Variable s : FSys M.
Hypothesis Hi : FInv mgr s.
Hypothesis Hw : phases s !! w = Some Idle.
Hypothesis Hf : (pending (mem s) < fuel)%nat.

Lemma ends_plain st' m' r : ran mgr w s st' m' -> ends s (st', m', None, r).
Proof. intros Hr. split; [done | by intros []]. Qed.

(** A call that is one step of the system. *)
Lemma step_ends {A} (call : outcome A) (k : A -> outcome (FState * M * option FutexWaitRestartBlock * Result Z)) :
  (exists x, call = Ret x) ->
  (forall x, call = Ret x -> exists st' m' r, k x = Ret (st', m', None, r) /\ fstep mgr s (mkFSys st' m' (phases s))) ->
  returns (x ← call; k x) (ends s).
Proof.
  intros [x Hx] Hk. rewrite Hx, bind_ret. destruct (Hk x Hx) as (st' & m' & r & -> & Hs). apply returns_ret, ends_plain. by apply ran_once.
Qed.

(** The calls that do not wait. *)
Lemma wake_call_run private addr bitmask n :
  (forall k, Getkey (mem s) addr private = Ok k -> wakes_all s k bitmask) ->
  returns ('(st, r) ← Wake (fs s) mgr (mem s) addr private bitmask n; Ret (st, mem s, None, r)) (ends s).
Proof.
  intros Ha. pose proof Hi as [Q HQ]. apply step_ends; [by eapply wake_returns |]. intros [st' r] E. exists st', (mem s), r. split; [done |].
  by apply (s_wake mgr s addr private bitmask n st' r).
Qed.

Lemma quick_call_run cmd private addr timeout naddr mask val nreq val3 :
  call_ok mgr s cmd private addr timeout naddr mask -> ~ same_keys (mem s) cmd private addr naddr ->
  (cmd = FUTEX_REQUEUE -> returns (r ← Requeue (fs s) mgr (mem s) addr naddr private val nreq; Ret (let '(st, m, r) := r in (st, m, None, r))) (ends s)) /\
  (cmd = FUTEX_CMP_REQUEUE -> returns (r ← RequeueCmp (fs s) mgr (mem s) addr naddr private val3 val nreq; Ret (let '(st, m, r) := r in (st, m, None, r))) (ends s)) /\
  (cmd = FUTEX_WAKE_OP -> returns (r ← WakeOp fuel (fs s) mgr (mem s) addr naddr private val nreq val3; Ret (let '(st, m, r) := r in (st, m, None, r))) (ends s)) /\
  (cmd = FUTEX_UNLOCK_PI -> returns (r ← UnlockPI (fs s) mgr (mem s) addr tid private;
     Ret (let '(st, m, r) := r in (st, m, None, match r with inl e => Err e | inr _ => Ok 0 end))) (ends s)).
Proof.
  intros [_ _ _ _ Hr Hp] Hne. pose proof Hi as [Q HQ]. unfold same_keys in Hne.
  assert (Hd : forall k, cmd = FUTEX_REQUEUE \/ cmd = FUTEX_CMP_REQUEUE \/ cmd = FUTEX_WAKE_OP ->
    Getkey (mem s) addr private = Ok k -> Getkey (mem s) naddr private <> Ok k) by (intros k Hc H1 H2; eauto).
  split_and!; intros ->.
  - apply step_ends; [by eapply requeue_returns; [exact HQ | intros k; apply Hd; auto] |]. intros [[st' m'] r] E. exists st', m', r. split; [done |].
    eapply (s_requeue mgr s addr naddr private); [auto | auto | exact E].
  - apply step_ends; [by eapply requeue_returns; [exact HQ | intros k; apply Hd; auto] |]. intros [[st' m'] r] E. exists st', m', r. split; [done |].
    eapply (s_requeue mgr s addr naddr private); [auto | auto | exact E].
  - apply step_ends; [by eapply wake_op_returns; [exact HQ | intros k; apply Hd; auto | done] |]. intros [[st' m'] r] E. exists st', m', r. split; [done |].
    eapply s_wake_op; [apply Hp; auto | exact E].
  - apply step_ends; [by eapply unlock_returns |]. intros [[st' m'] r] E. eexists st', m', _. split; [done |]. by eapply s_unlock.
Qed.
End State.

(** Reading the timeout may let other threads run, and then the call waits. *)
Lemma ends_memory s m x : ends (mkFSys (fs s) m (phases s)) x -> ends s x.
Proof. destruct x as [[[st' m'] rb] r]. intros [Hr Hb]. split; [by eapply ran_memory | done]. Qed.

Lemma blocks_memory {B} s m (block : FState -> M -> outcome (FState * M * B)) : blocks mgr w s block -> blocks mgr w (mkFSys (fs s) m (phases s)) block.
Proof. apply blocks_step, s_memory. Qed.

Lemma copy_timeout_pending (m : M) timeout : (pending (copy_timeout m timeout).1 <= pending m)%nat.
Proof.
  unfold copy_timeout. destruct (timeout =? 0); [done |]. destruct (law_copyin m timeout 2) as (m1 & E & Hl).
  destruct (CopyInWords m timeout 2) as [m2 r]. simpl in *. subst m2. by apply later_pending.
Qed.

Lemma SysFutex_runs s arg0 arg1 arg2 arg3 arg4 arg5 :
  FInv mgr s -> phases s !! w = Some Idle -> (pending (mem s) < fuel)%nat ->
  (forall rt d, blocks mgr w s (timer rt d)) -> (forall d, blocks mgr w s (mono d)) ->
  let cmd := Z.ldiff (to_i32 arg1) (Z.lor FUTEX_PRIVATE_FLAG FUTEX_CLOCK_REALTIME) in
  let private := negb (Z.land (to_i32 arg1) FUTEX_PRIVATE_FLAG =? 0) in
  call_ok mgr s cmd private arg0 arg3 arg4 (to_i32 arg5 mod 2 ^ 32) -> ~ same_keys (mem s) cmd private arg0 arg4 ->
  returns (SysFutex mgr w tid fuel timer mono (fs s) (mem s) arg0 arg1 arg2 arg3 arg4 arg5) (ends s).
Proof.
  intros Hi Hw Hf Ht Hm. unfold SysFutex. cbv zeta.
  set (cmd := Z.ldiff _ _) in *. set (private := negb _) in *. set (realtime := negb _). set (val := to_i32 arg2). set (val3 := to_i32 arg5). intros Hok Hne.
  pose proof (fun v n v3 => quick_call_run s Hi Hw Hf cmd private arg0 arg3 arg4 _ v n v3 Hok Hne) as Hq. pose proof Hok as [Hwt Hto Hwk Htr _ _].
  assert (Hf' := copy_timeout_pending (mem s) arg3). destruct (copy_timeout (mem s) arg3) as [m1 rt1] eqn:Ec. simpl in Hf', Hto, Hwt. set (s1 := mkFSys (fs s) m1 (phases s)).
  assert (Hi1 : FInv mgr s1) by (eapply fstep_inv; [exact Hi | apply s_memory]).
  assert (Herr : forall r, ends s (fs s, m1, None, r)) by (intros r; apply ends_plain; by apply ran_refl).
  assert (Hback : forall x, ends s1 x -> ends s x) by (intros x; apply ends_memory).
  destruct ((cmd =? FUTEX_WAIT) || (cmd =? FUTEX_WAIT_BITSET)) eqn:Ew.
  { destruct rt1 as [e | ts]; [by apply returns_ret |]. destruct (Z.eqb_spec cmd FUTEX_WAIT) as [E | N].
    - assert (Hd : forall d, returns (FutexWaitDuration mgr w fuel mono (fs s) m1 d arg0 private (val mod 2 ^ 32) (2 ^ 32 - 1)) (ends s)).
      { intros d. eapply returns_mono; [| exact Hback].
        eapply (wait_duration_run mgr w tid fuel s1); try done; [simpl; lia | by apply Hwt; left | by apply blocks_memory]. }
      destruct ts as [ts |]; [| apply Hd]. destruct (ToDuration ts); [by apply returns_ret | apply Hd].
    - simpl in Ew. apply Z.eqb_eq in Ew. destruct (Z.eqb_spec (val3 mod 2 ^ 32) 0); [by apply returns_ret |].
      pose proof (Z.mod_pos_bound val3 (2 ^ 32) eq_refl).
      eapply returns_bind; [eapply (wait_absolute_run mgr w tid fuel s1); try done; [simpl; lia | by apply Hwt; auto | lia | by intros; apply blocks_memory | naive_solver] |].
      intros [[st' m'] r] Hr. apply returns_ret, Hback. by apply ends_plain. }
  destruct ((cmd =? FUTEX_WAKE) || (cmd =? FUTEX_WAKE_BITSET)) eqn:Ek.
  { destruct ((cmd =? FUTEX_WAKE_BITSET) && (val3 mod 2 ^ 32 =? 0)); [apply returns_ret, ends_plain; by apply ran_refl |]. apply wake_call_run; [done | done |].
    intros k Hk. destruct (Z.eqb_spec cmd FUTEX_WAKE) as [E | N]; [destruct Hi as [Q HQ]; by eapply wakes_all_any |].
    apply Hwk; [| done]. by apply Z.eqb_eq. }
  destruct (Z.eqb_spec cmd FUTEX_REQUEUE) as [E | _]; [by apply Hq |].
  destruct (Z.eqb_spec cmd FUTEX_CMP_REQUEUE) as [E | _]; [by apply Hq |].
  destruct (Z.eqb_spec cmd FUTEX_WAKE_OP) as [E | _]; [by apply Hq |].
  destruct (Z.eqb_spec cmd FUTEX_LOCK_PI) as [E | _].
  { destruct rt1 as [e | ts]; [by apply returns_ret |].
    eapply returns_bind; [eapply (lock_run mgr w tid fuel s1); try done; [simpl; lia | by apply Hwt; auto | by intros; apply blocks_memory | naive_solver] |].
    intros [[st' m'] r] Hr. apply returns_ret, Hback. by apply ends_plain. }
  destruct (Z.eqb_spec cmd FUTEX_TRYLOCK_PI) as [E | _].
  { eapply returns_bind; [by apply (trylock_run mgr w tid fuel s Hi Hw Hf), Htr |]. intros [[st' m'] r] Hr. apply returns_ret. by apply ends_plain. }
  destruct (Z.eqb_spec cmd FUTEX_UNLOCK_PI) as [E | _]; [by apply (Hq 0 0 0) |].
  apply returns_ret, ends_plain. by apply ran_refl.
Qed.

(** A call on two futexes with the same key panics. *)
Lemma SysFutex_same_keys s arg0 arg1 arg2 arg3 arg4 arg5 :
  let cmd := Z.ldiff (to_i32 arg1) (Z.lor FUTEX_PRIVATE_FLAG FUTEX_CLOCK_REALTIME) in
  let private := negb (Z.land (to_i32 arg1) FUTEX_PRIVATE_FLAG =? 0) in
  same_keys (mem s) cmd private arg0 arg4 -> SysFutex mgr w tid fuel timer mono (fs s) (mem s) arg0 arg1 arg2 arg3 arg4 arg5 = Panic.
Proof.
  unfold SysFutex. cbv zeta. set (cmd := Z.ldiff _ _). set (private := negb _). intros (Hc & k & H1 & H2).
  pose proof (fun n1 n2 op chk val => same_key_panics mgr s fuel arg0 arg4 private n1 n2 op chk val k H1 H2) as Hp.
  destruct Hc as [E | [E | E]]; rewrite E; cbn -[doRequeue WakeOp]; unfold Requeue, RequeueCmp; first [by rewrite (proj1 (Hp _ _ 0 _ _)) | by rewrite (proj2 (Hp _ _ _ false 0))].
Qed.
End SysFutex.

(** C6: A futex system call of a thread, from a state that the steps of [fstep] reach, returns
    without waiting for ever for a lock, and what it did is a run of these steps: nothing else
    happened to the queues.  At its end the caller's entry is in no queue and no lock is held.
    Only a call that answers [ERESTART_RESTARTBLOCK] leaves a block to restart it with.  It
    panics if, and only if, it is on two futexes with the same key.  The theorem is about the
    calls of [call_ok], whichever the command: it leaves out the calls that break the queues,
    which are a wait at or a requeue to the private address 0, a [FUTEX_WAIT_BITSET] or
    [FUTEX_LOCK_PI] with a deadline that is not a time (after which the caller does stay in
    the queue, [bad_deadline_stays_queued]), a [FUTEX_WAKE_BITSET] to which not all that wait
    there answer, a [FUTEX_TRYLOCK_PI] for a lock that others wait for, and two keys with
    equal hashes in different buckets. *)
Theorem SysFutex_spec {M} `{TargetLaws M} `{!CopyIn M, !CopyInLaws M} mgr w tid fuel
    (timer : bool -> option Z -> FState -> M -> outcome (FState * M * Result unit))
    (mono : option Z -> FState -> M -> outcome (FState * M * (Z * Result unit))) (s0 s : FSys M) arg0 arg1 arg2 arg3 arg4 arg5 :
  FInit mgr s0 -> rtc (fstep mgr) s0 s -> phases s !! w = Some Idle -> (pending (mem s) < fuel)%nat ->
  (forall rt d, blocks mgr w s (timer rt d)) -> (forall d, blocks mgr w s (mono d)) ->
  let cmd := Z.ldiff (to_i32 arg1) (Z.lor FUTEX_PRIVATE_FLAG FUTEX_CLOCK_REALTIME) in
  let private := negb (Z.land (to_i32 arg1) FUTEX_PRIVATE_FLAG =? 0) in
  call_ok mgr s cmd private arg0 arg3 arg4 (to_i32 arg5 mod 2 ^ 32) ->
  (same_keys (mem s) cmd private arg0 arg4 -> SysFutex mgr w tid fuel timer mono (fs s) (mem s) arg0 arg1 arg2 arg3 arg4 arg5 = Panic) /\
  (~ same_keys (mem s) cmd private arg0 arg4 ->
    returns (SysFutex mgr w tid fuel timer mono (fs s) (mem s) arg0 arg1 arg2 arg3 arg4 arg5) (fun '(st', m', rb, r) =>
      exists ph Q, rtc (fstep mgr) s (mkFSys st' m' ph) /\ ph !! w = Some Idle /\ futex_inv st' Q /\
        (forall b, locks_of st' b = ∅) /\ (forall b k, w ∉ Q b k) /\ (is_Some rb -> r = Err (SysError ERESTART_RESTARTBLOCK)))).
Proof.
  intros H0 Hs Hw Hf Ht Hm cmd private Hok. pose proof (reachable_inv _ _ _ H0 Hs) as Hi. split; [apply SysFutex_same_keys |]. intros Hne.
  eapply returns_mono; [by apply SysFutex_runs |]. intros [[[st' m'] rb] r] [(ph & Hr & Hp) Hb].
  destruct (run_inv mgr _ _ Hi Hr) as [Q HQ]. exists ph, Q. split_and!; [done | done | apply HQ | apply HQ | | done].
  intros b k. by apply (in_idle _ _ _ HQ).
Qed.

Definition ex_timer (rt : bool) (d : option Z) (st : FState) (m : UserMem) : outcome (FState * UserMem * Result unit) :=
  Ret (st, m, Err (SysError ETIMEDOUT)).
Definition ex_mono (d : option Z) (st : FState) (m : UserMem) : outcome (FState * UserMem * (Z * Result unit)) :=
  Ret (st, m, (0, Err ErrInterrupted)).

Lemma SysFutex_spec_witness :
  returns (SysFutex ex_mgr 1 11 1 ex_timer ex_mono (fs ex_sys) (mem ex_sys) 4096 128 0 0 0 0) (fun '(st', _, _, _) =>
    exists Q, futex_inv st' Q /\ forall b k, 1%positive ∉ Q b k).
Proof.
  assert (Hblock : forall {B} (b : B), blocks ex_mgr 1 ex_sys (fun st m => Ret (st, m, b))).
  { intros B b s' _ Hp. eexists _, _, _, b. split; [done |]. split; [apply rtc_once; by apply (s_timeout ex_mgr s' 1) | apply lookup_insert_eq]. }
  destruct (SysFutex_spec ex_mgr 1 11 1 ex_timer ex_mono ex_sys ex_sys 4096 128 0 0 0 0) as [_ Hret];
    [apply ex_init | done | by vm_compute | vm_compute; lia | intros; apply Hblock | intros; apply Hblock | |].
  - split; [by vm_compute | by intros [|] | done | done | by intros [|] | by intros [|[|]]].
  - eapply returns_mono; [apply Hret; by intros [[|[|]] _] |]. intros [[[st' m'] rb] r] (ph & Q & _ & _ & Hi & _ & Hn & _). by exists Q.
Defined.
