(* ===== verification/FutexFaults.v ===== *)
(** What the futex code does in the situations it does not handle. *)
From S2P Require Import Prelude WaitList WaitListThm WaitListOps Futex FutexThm FutexOps FutexPairs FutexMem FutexPi FutexSys FutexProps.

#[local] Open Scope Z_scope.

(** * A failed attempt to lock *)

(** A thread that tries to take a lock another thread holds makes the waiters of the lock
    disappear: it never joined the queue, but the clean-up removes it from there, and removing
    an entry that is in no list empties the list.  The waiters keep their keys and get no
    event; nobody can wake them any more. *)
Theorem trylock_loses_waiters {M} `{TargetLaws M} fuel st mgr (m : M) w addr tid pr Q k cur :
  futex_inv st Q -> mgr_ok st mgr -> Getkey m addr pr = Ok k -> k <> Key_default -> HashCode k ∉ locks_of st (bucket_of mgr k) ->
  (forall b k, w ∉ Q b k) -> is_Some (entries (waits st) !! w) -> pending m = 0%nat ->
  peek m addr = Ok cur -> Z.land cur FUTEX_TID_MASK <> tid -> Z.land cur FUTEX_TID_MASK <> 0 ->
  returns (TryLockPid mgr w tid (S fuel) st m addr pr) (fun '(st', m', r) => r = Err (SysError EWOULDBLOCK) /\ m' = m /\
    queue_at st' (bucket_of mgr k) k = WaitList_default /\
    forall e, e ∈ Q (bucket_of mgr k) k -> payload (waits st') e = payload (waits st) e).
Proof.
  intros Hi Hm Hk Hd Hl Hw He Hp Hcur Ho Hz. destruct (fi_entry _ _ w Hi He) as (s & c & bw & Hs & Hc & _ & Hb & _).
  unfold TryLockPid. eapply returns_bind; [eapply (LockPI_ok (S fuel) st mgr m w addr tid pr true Q k s c bw); try done; lia |].
  intros [[st1 m1] r] (Hq & Ef & m2 & o & ->%(later_quiet _ _ Hp) & Hstep & -> & Hf). cbv beta iota.
  unfold pi_step in Hstep. rewrite Hcur in Hstep. cbv zeta in Hstep.
  rewrite (proj2 (Z.eqb_neq _ _) Ho), (proj2 (Z.eqb_neq _ _) Hz) in Hstep. injection Hstep as <- <-.
  assert (Hc1 : ctx (waits st1) w = Some (mkTC (waiterID c) (waiter c) tid k)).
  { pose proof (prepared_ctx (waits st) w s c bw U64_MAX tid k w) as Hpc. rewrite decide_True in Hpc by done.
    rewrite (effect_ctx _ _ _ _ _ _ _ _ Ef Hpc). by rewrite decide_False by set_solver. }
  eapply returns_bind; [eapply (WaitComplete_unlinked fuel st1 mgr w Q (mkTC (waiterID c) (waiter c) tid k)); [done | by eapply mgr_ok_quiet | simpl; by rewrite (proj1 Hq) | exact Hc1 | done |] |].
  { apply (fi_free _ _ Hf); [| done]. apply (effect_is_Some _ _ _ _ _ _ _ Ef). simpl. by rewrite lookup_insert_eq. }
  intros st2 (S2 & Ef2 & _). apply returns_ret. split_and!; [done | done | apply S2 |]. intros e He'.
  assert (N : e <> w) by (intros ->; by apply (Hw (bucket_of mgr k) k)). rewrite (ef_payload _ _ _ _ _ _ Ef2), decide_False, option_fmap_id by set_solver.
  rewrite (ef_payload _ _ _ _ _ _ Ef), decide_False, option_fmap_id by set_solver. unfold payload, prepared. simpl. by rewrite lookup_insert_ne.
Qed.

Lemma trylock_loses_waiters_witness :
  returns (TryLockPid ex_mgr 1 5 1 ex_st ex_mem 8192 true) (fun '(st', _, r) => r = Err (SysError EWOULDBLOCK)).
Proof.
  eapply returns_mono; [apply (trylock_loses_waiters 0 ex_st ex_mgr ex_mem 1 8192 5 true (fun _ _ => []) (mkKey KindPrivate 8192) 7) |].
  - exact ex_futex.
  - exact ex_mgr_ok.
  - reflexivity.
  - discriminate.
  - apply ex_hash.
  - intros b k. apply not_elem_of_nil.
  - by eexists.
  - reflexivity.
  - reflexivity.
  - vm_compute. discriminate.
  - vm_compute. discriminate.
  - intros [[st' m'] r] (-> & _). reflexivity.
Defined.

(** * A wake-up with a bit mask that passes a waiter over *)

Lemma wake_walk_skips f n l1 e l2 wk sk rest :
  (length (List.filter f l1) < n)%nat -> f e = false -> wake_walk f n (l1 ++ e :: l2) = (wk, sk, rest) -> e ∈ sk.
Proof.
  revert n wk sk rest. induction l1 as [| x l1 IH]; intros n wk sk rest Hn He; simpl in *.
  - destruct n as [| n]; [lia |]. rewrite He. destruct (wake_walk f (S n) l2) as [[a b] c]. intros [= <- <- <-]. set_solver.
  - destruct n as [| n]; [lia |]. destruct (f x); simpl in Hn.
    + destruct (wake_walk f n (l1 ++ e :: l2)) as [[a b] c] eqn:E. intros [= <- <- <-]. eapply IH; [| done | exact E]. lia.
    + destruct (wake_walk f (S n) (l1 ++ e :: l2)) as [[a b] c] eqn:E. intros [= <- <- <-]. apply elem_of_cons. right. by eapply IH.
Qed.

(** C39: A waiter that a wake-up looks at but whose bit mask does not match stays in the queue and
    loses its key all the same.  When its wait ends for another reason, [WaitComplete] takes it
    for woken and returns with the entry still linked. *)
Theorem bitset_wake_forgets {M} `{Target M} fuel st mgr (m : M) addr pr bitmask n Q k l1 e l2 :
  futex_inv st Q -> mgr_ok st mgr -> Getkey m addr pr = Ok k -> HashCode k ∉ locks_of st (bucket_of mgr k) ->
  Q (bucket_of mgr k) k = l1 ++ e :: l2 -> answers (waits st) bitmask e = false ->
  Z.of_nat (length (List.filter (answers (waits st) bitmask) l1)) < n ->
  returns (Wake st mgr m addr pr bitmask n) (fun '(st', _) => WaitComplete (S fuel) st' mgr e = Ret st' /\
    exists Q', futex_inv st' Q' /\ e ∈ Q' (bucket_of mgr k) k).
Proof.
  intros Hi Hm Hk Hl HQ Ha Hn. destruct (wake_walk (answers (waits st) bitmask) (Z.to_nat n) (Q (bucket_of mgr k) k)) as [[wk sk] rest] eqn:Hw.
  assert (He : e ∈ sk) by (rewrite HQ in Hw; eapply wake_walk_skips; [| exact Ha | exact Hw]; lia).
  eapply returns_mono; [by eapply (Wake_ok st mgr m addr pr bitmask n Q k) |]. intros [st' r] (_ & Hf & _ & Ef). split.
  - destruct (fi_threads_at st Q (bucket_of mgr k) k Hi e) as [c Hc]; [rewrite HQ; set_solver |].
    pose proof (effect_ctx _ _ _ _ _ _ _ _ Ef Hc) as Hc'. rewrite decide_True in Hc' by set_solver.
    simpl. rewrite (get_key_ok _ _ _ Hc'), bind_ret. done.
  - eexists. split; [exact Hf |]. rewrite updQ_eq. set_solver.
Qed.

(** Thread 1 waits at address 4096 with the bit mask 1. *)
Definition ex_waiting : FState :=
  match WaitPrepare ex_st ex_mgr ex_mem 1 4096 true 0 1 with Ret (st, _, _) => st | _ => ex_st end.

Lemma ex_waiting_inv : futex_inv ex_waiting (updQ (fun _ _ => []) 1 ex_key [1%positive]) /\ (forall b, locks_of ex_waiting b = locks_of ex_st b) /\ mgr_ok ex_waiting ex_mgr.
Proof.
  destruct (WaitPrepare_ok ex_st ex_mgr ex_mem 1 4096 true 0 1 (fun _ _ => []) ex_key (ex_entry 1) (mkTC 0 1 0 Key_default) (Waiter_New 11)
    ex_futex ex_mgr_ok eq_refl (ex_hash _ _) ltac:(intros b k; apply not_elem_of_nil) eq_refl eq_refl eq_refl) as ([[st' m'] r] & E & Hck & Hq & Hf & _).
  vm_compute in Hck. injection Hck as -> ->. unfold ex_waiting. rewrite E. split_and!; [exact Hf | apply Hq | eapply mgr_ok_quiet; [exact Hq | exact ex_mgr_ok]].
Qed.

Lemma bitset_wake_forgets_witness :
  returns (Wake ex_waiting ex_mgr ex_mem 4096 true 2 1) (fun '(st', _) => WaitComplete 1 st' ex_mgr 1 = Ret st').
Proof.
  destruct ex_waiting_inv as (Hi & Hl & Hm).
  eapply returns_mono; [apply (bitset_wake_forgets 0 ex_waiting ex_mgr ex_mem 4096 true 2 1 _ ex_key [] 1 [] Hi Hm) |].
  - reflexivity.
  - rewrite Hl. apply ex_hash.
  - vm_compute. reflexivity.
  - vm_compute. reflexivity.
  - vm_compute. reflexivity.
  - intros [st' r] [Hw _]. exact Hw.
Defined.

(** If the thread then waits again, its entry is linked to itself, and the next wake-up waits
    for a lock it holds. *)
Lemma bitset_wake_deadlocks :
  ('(st, _) ← Wake ex_waiting ex_mgr ex_mem 4096 true 2 1;
   st ← WaitComplete 1 st ex_mgr 1;
   '(st, m, _) ← WaitPrepare st ex_mgr ex_mem 1 4096 true 0 1;
   Wake st ex_mgr m 4096 true FUTEX_BITSET_MATCH_ANY 1) = OutOfFuel.
Proof. vm_compute. reflexivity. Qed.

(** * Keys *)

(** Two threads wait at address 4096. *)
Definition ex_waiting2 : FState :=
  match WaitPrepare ex_waiting ex_mgr ex_mem 2 4096 true 0 1 with Ret (st, _, _) => st | _ => ex_st end.

(** Moving waiters to the null address, or to their own, makes the kernel panic.  The key of
    the private address 0 is the default key, so the waiters look woken; when the first one,
    still linked to the second, waits again, the assertion of [PushBack] fails.  The two keys of
    a requeue are asserted to differ. *)
Theorem requeue_to_null_panics :
  ('(st, m, r) ← Requeue ex_waiting2 ex_mgr ex_mem 4096 0 true 0 2;
   st ← WaitComplete 1 st ex_mgr 1;
   WaitPrepare st ex_mgr m 1 4096 true 0 1) = Panic /\
  Requeue ex_waiting2 ex_mgr ex_mem 4096 4096 true 0 2 = Panic.
Proof. split; vm_compute; reflexivity. Qed.

(** Address 8192 is mapped to the physical address 4096, which another process can have too. *)
Definition ex_shared : UserMem := mkMem (list_to_map [(4096, 0); (8192, 7)]) {[ 8192 := 4096 ]} [].

(** Another thread is in the critical section of that physical address. *)
Definition ex_locked : FState :=
  match Bucket_Lock ex_st 2 (mkKey KindSharedMappable 4096) with Ret st => st | _ => ex_st end.

(** With keys of equal hash in different buckets a requeue takes the lock of the first only,
    and releases both: a lock that another thread holds on the shared bucket is gone. *)
Theorem requeue_releases_lock :
  elements (locks_of ex_locked 2) = [HashCode (mkKey KindSharedMappable 4096)] /\
  (st ← ('(st, _, _) ← Requeue ex_locked ex_mgr ex_shared 4096 8192 false 1 1; Ret st); Ret (elements (locks_of st 2))) = Ret [].
Proof. split; vm_compute; reflexivity. Qed.

(** * An owner that dies *)

(** Bit 0 of an address of the robust list marks a lock. *)
Lemma tagged_addr addr : Z.land addr 1 = 0 -> Z.land (addr + 1) 1 = 1 /\ Z.ldiff (addr + 1) 1 = addr.
Proof.
  intros Hev. change 1 with (Z.ones 1) in Hev. rewrite Z.land_ones in Hev by lia. change (2 ^ 1) with 2 in Hev. split.
  - change 1 with (Z.ones 1) at 2. rewrite Z.land_ones by lia. change (2 ^ 1) with 2. Z.to_euclidean_division_equations; lia.
  - change 1 with (Z.ones 1) at 2. rewrite Z.ldiff_ones_r, Z.shiftr_div_pow2, Z.shiftl_mul_pow2 by lia. change (2 ^ 1) with 2.
    Z.to_euclidean_division_equations; lia.
Qed.

Lemma waiters_bit f : u32 f -> Z.land f FUTEX_WAITERS <> 0 -> Z.land f FUTEX_WAITERS = FUTEX_WAITERS.
Proof.
  intros Hu Hw. change FUTEX_WAITERS with (2 ^ 31) in *. apply Z.bits_inj'. intros i Hi. rewrite Z.land_spec, Z.pow2_bits_eqb by lia.
  destruct (Z.eqb_spec 31 i) as [<- |]; [| apply andb_false_r]. rewrite andb_true_r.
  destruct (Z.testbit f 31) eqn:Eb; [done |]. exfalso. apply Hw. apply Z.bits_inj'. intros j Hj.
  rewrite Z.land_spec, Z.bits_0, Z.pow2_bits_eqb by lia. destruct (Z.eqb_spec 31 j) as [<- |]; [by rewrite Eb | apply andb_false_r].
Qed.

(** The waiters of a lock whose owner exits are not woken: the owner's number is wiped from
    the word before [UnlockPI] is called, which then refuses, as the caller is not the owner any
    more.  The word says that the owner died and that there are waiters; no queue changes. *)
Theorem robust_pi_keeps_waiters {M} `{TargetLaws M} fuel st mgr (m : M) tid addr Q k f :
  futex_inv st Q -> mgr_ok st mgr -> (forall m' : M, Getkey m' addr true = Ok k) -> HashCode k ∉ locks_of st (bucket_of mgr k) ->
  (forall e, e ∈ Q (bucket_of mgr k) k -> answers (waits st) U64_MAX e = true) ->
  pending m = 0%nat -> Z.land addr 1 = 0 -> tid <> 0 ->
  peek m addr = Ok f -> Z.land f FUTEX_TID_MASK = tid -> Z.land f FUTEX_WAITERS <> 0 ->
  returns (WakeRobustListOne (S fuel) st mgr m tid (addr + 1)) (fun '(st', m') => waits st' = waits st /\ futex_inv st' Q /\
    peek m' addr = Ok (Z.lor FUTEX_WAITERS FUTEX_OWNER_DIED)).
Proof.
  intros Hi Hm Hk Hl Ha Hp Hev Ht Hf Ho Hw.
  destruct (tagged_addr addr Hev) as [H1 H2].
  assert (Henv : forall m' : M, pending m' = 0%nat -> env m' = m') by (intros m' Hm'; destruct (law_env m'); [done | lia]).
  unfold WakeRobustListOne. rewrite H1, H2, law_load, (Henv m Hp), Hf. cbn [WakeRobustListOne_loop].
  rewrite Ho, Z.eqb_refl. cbn [negb]. rewrite law_cas, (Henv m Hp), Hf, !Z.eqb_refl. cbn [negb].
  rewrite (proj2 (Z.eqb_neq _ _) Hw). cbn [negb].
  rewrite (waiters_bit f (law_peek _ _ _ Hf) Hw). set (m1 := poke m addr _).
  assert (Hp1 : pending m1 = 0%nat) by (unfold m1; by rewrite law_poke_pending).
  assert (Hf1 : peek m1 addr = Ok (Z.lor FUTEX_WAITERS FUTEX_OWNER_DIED)) by (eapply law_poke_eq; [exact Hf | split; by vm_compute]).
  eapply returns_bind; [eapply (UnlockPI_ok st mgr m1 addr tid true Q k); [done | done | apply Hk | done |] |].
  { intros e rest He. apply Ha. rewrite He. set_solver. }
  intros [[st' m'] r] (_ & Hrel & Hcase). unfold pi_release in Hrel. rewrite (Henv m1 Hp1), Hf1 in Hrel.
  replace (Z.land (Z.lor FUTEX_WAITERS FUTEX_OWNER_DIED) FUTEX_TID_MASK) with 0 in Hrel by reflexivity.
  rewrite (proj2 (Z.eqb_neq 0 tid)) in Hrel by congruence. cbn [negb] in Hrel. injection Hrel as -> ->.
  apply returns_ret. destruct Hcase as [Ew Hf']. done.
Qed.

(** The word of address 8192, owned by thread 7, with waiters. *)
Definition ex_owned : UserMem := mkMem (list_to_map [(8192, 2147483655)]) ∅ [].

Lemma robust_pi_keeps_waiters_witness :
  returns (WakeRobustListOne 1 ex_st ex_mgr ex_owned 7 8193) (fun '(_, m') => peek m' 8192 = Ok 3221225472).
Proof.
  eapply returns_mono; [apply (robust_pi_keeps_waiters 0 ex_st ex_mgr ex_owned 7 8192 (fun _ _ => []) (mkKey KindPrivate 8192) 2147483655) |].
  - exact ex_futex.
  - exact ex_mgr_ok.
  - reflexivity.
  - apply ex_hash.
  - by intros e ?%elem_of_nil.
  - reflexivity.
  - reflexivity.
  - discriminate.
  - reflexivity.
  - reflexivity.
  - vm_compute. discriminate.
  - intros [st' m'] (_ & _ & ->). reflexivity.
Defined.

(** * A deadline that is none *)

(** C40: A wait with a deadline that is not a time fails after it has started: the caller gets
    [EINVAL], and its entry is left at the end of the queue of the futex, where a later wake-up
    is spent on it. *)
Theorem bad_deadline_stays_queued {M} `{TargetLaws M} fuel block st mgr (m : M) w rt ts addr pr val mask Q k c :
  futex_inv st Q -> mgr_ok st mgr -> Getkey m addr pr = Ok k -> HashCode k ∉ locks_of st (bucket_of mgr k) ->
  (forall b k, w ∉ Q b k) -> ctx (waits st) w = Some c -> peek (env m) addr = Ok val ->
  0 <= tv_sec ts <= MAX_SEC_IN_DURATION -> tv_nsec ts < 0 ->
  returns (FutexWaitAbsolute mgr w fuel block st m rt (Some ts) addr pr val mask) (fun '(st', m', r) =>
    r = Err (SysError EINVAL) /\ m' = env m /\ futex_inv st' (updQ Q (bucket_of mgr k) k (Q (bucket_of mgr k) k ++ [w]))).
Proof.
  intros Hi Hm Hk Hl Hw Hc Hv Hs Hn. pose proof Hc as Hc'. unfold ctx in Hc'. destruct (entries (waits st) !! w) as [s |] eqn:He; [| done].
  simpl in Hc'. destruct (context s) as [| c'] eqn:Ec; [done |]. injection Hc' as ->.
  destruct (waits_ok_ctx _ _ _ (fi_ok _ _ Hi) Hc) as [[b Hb] _]. unfold FutexWaitAbsolute.
  eapply returns_bind; [by eapply (WaitPrepare_ok st mgr m w addr pr val mask Q k s c b) |].
  intros [[st' m'] r] (Hck & _ & Hf & _). unfold Check in Hck. rewrite law_load, Hv, Z.eqb_refl in Hck. simpl in Hck. injection Hck as -> ->.
  cbv beta iota zeta. unfold ToDuration, ToNs. rewrite (proj2 (Z.ltb_ge _ _)), (proj2 (Z.ltb_lt (tv_nsec ts) 0)), orb_true_r by lia.
  by apply returns_ret.
Qed.

Lemma bad_deadline_stays_queued_witness :
  returns (FutexWaitAbsolute ex_mgr 1 1 (fun _ _ st (m : UserMem) => Ret (st, m, Ok tt)) ex_st ex_mem true (Some (mkTimespec 0 (-1))) 4096 true 0 1)
    (fun '(st', _, r) => r = Err (SysError EINVAL) /\ exists Q, futex_inv st' Q /\ 1%positive ∈ Q 1%positive ex_key).
Proof.
  eapply returns_mono; [apply (bad_deadline_stays_queued 1 _ ex_st ex_mgr ex_mem 1 true (mkTimespec 0 (-1)) 4096 true 0 1 (fun _ _ => []) ex_key (mkTC 0 1 0 Key_default)) |].
  - exact ex_futex.
  - exact ex_mgr_ok.
  - done.
  - vm_compute. by intros.
  - intros. apply not_elem_of_nil.
  - done.
  - done.
  - split; done.
  - done.
  - intros [[st' m'] r] (-> & _ & Hf). split; [done |]. eexists. split; [exact Hf |]. by vm_compute; left.
Defined.
